(* ===== verification/_CoqProject ===== *)
-Q . S2P
Prelude.v
Links.v
IntrusiveQueue.v
IntrusiveStack.v
IntrusiveList.v
MPSCQueue.v
BulkPush.v
BlockingQueue.v
Scheduler02.v
Scheduler01.v
SharedScheduler.v
Scheduler03.v
NodeQueue.v
RunQueue.v
Scheduler04.v
Mutex.v
MutexClient.v
WaitQueue.v
USemaphore.v
UThread.v
Cluster.v
ContextSwitch.v
KThread.v
SchedulerSpec.v
Blocking.v
MutexSystem.v
ConditionVariable.v
Join.v
IOHandler.v
PollCache.v
Poller.v
PollGuard.v
IOClose.v
EpollSet.v
Network.v
CWrapper.v
ThreadPool.v
CRuntime.v
Boot.v
