(* ===== verification/Prelude.v ===== *)
(** * uThreads: a verification development

    uThreads is a C++ user-level threading library: many uThreads (fibers with
    their own stacks) run on few kThreads (kernel threads), which are grouped
    into clusters; blocking primitives suspend uThreads instead of kernel
    threads, and an epoll thread wakes the uThreads that wait for I/O.  The
    code modelled is the library under src/src/ (generic, runtime, io).

    ** The parts and how they interact

    A uThread is created with a stack or taken from a cache ([uThread.cpp],
    [uThreadCache.h]); [start] and [resume] put it into the run queue of its
    home kThread ([schedulers/Scheduler_02.h], the scheduler the Makefile
    selects), which is a BlockingMPSCQueue with a semaphore; the kThread pops
    it, switches stacks ([kThread.cpp]) and, on the new stack, runs
    postSwitchFunc for the uThread it left: queue it again, destroy it, or
    publish it where somebody will resume it.  [BlockingSync.h] builds Mutex,
    OwnerLock, ConditionVariable and Semaphore from suspend and resume;
    [uThread::join] uses them; [IOHandler.cpp] parks uThreads in the PollData of
    a file descriptor and wakes them from epoll events, in bulk; [Network.cpp]
    wraps the socket calls so that they block the uThread only; uThreadPool
    runs tasks on worker uThreads; cwrapper gives all of it to C programs.  Other
    builds replace scheduler 2 by one of the schedulers 1, 3 and 4.

    ** The files

    - [Prelude]: machine values (addresses, the mark in bit 0 of a pointer,
      wrap-around), the outcome and state monad with its weakest preconditions,
      the two kinds of build (assertions on or off), transition systems with
      executable steps, their runs and invariants.
    - [Links]: memory of [Link] nodes; loads and stores fault at dead
      addresses; chains.
    - [IntrusiveQueue], [IntrusiveStack], [IntrusiveList]: the sequential
      containers of generic/IntrusiveContainers.h, every operation over node
      memory; histories of operations refine operations on lists.
    - [MPSCQueue]: BlockingMPSCQueue, every access to shared memory a step, any
      number of producers and one consumer.
    - [BulkPush]: KTVar, prepareBulkPush and bulkPush of the scheduler.
    - [BlockingQueue]: the queue of blocked uThreads in node memory, refined to
      the lists that the models of the primitives have in its place.
    - [Scheduler02]: schedule, nonBlockingSwitch, blockingSwitch over the MPSC
      queue and the kThread's semaphore (generic/Semaphore.h).
    - [Scheduler01], [Scheduler03], [Scheduler04]: the other schedulers: a
      central queue with local queues and a stack of sleeping kThreads, a queue
      with a condition variable, a queue of nodes that uThreads exchange.
    - [SharedScheduler]: getScheduler of scheduler 1, a double-checked lock.
    - [NodeQueue]: that queue of nodes, access by access.
    - [RunQueue]: the sequential FIFO queue as a specification, the class by
      which a queue promises it, and the queues of schedulers 2, 3 and 4 as
      instances.
    - [Mutex]: Mutex and OwnerLock with BlockingQueue and the std::mutex inside;
      the abstract FIFO mutex [amutex] and the refinement.
    - [MutexClient]: the interface, as a class, between the mutex and the code
      that uses it; [WaitQueue]: the same for the blocking queues guarded by a
      mutex.
    - [USemaphore], [ConditionVariable]: over these two interfaces.
    - [UThread]: the uThread object, create, destory, the cache, over a heap of
      malloc blocks; refinement to a set of live uThreads and a bounded stack.
    - [Cluster]: clusters, the registration of kThreads, assignkThread.
    - [ContextSwitch]: stackSwitch, stackInit and stackStub of Stack.S on
      registers and memory words.
    - [KThread]: start, yield, migrate, suspend, resume, terminate,
      switchContext, defaultRun and postSwitchFunc on any number of kThreads.
    - [SchedulerSpec]: the contract between a scheduler and its kThread and the
      refinement of scheduler 2 to it.
    - [Blocking]: the interface between a component that suspends and resumes
      uThreads and the life cycle, and their composition, in which suspend,
      postSuspendFunc and resume are steps of both; [MutexSystem]: any number of
      mutexes as an instance, on any number of kThreads.
    - [Join]: terminate, join and detach of one uThread, explored completely.
    - [IOHandler]: open, block, postSwitchFunc, unblock, PollReady and close on
      one PollData.
    - [PollCache]: the cache of PollData objects, over node memory.
    - [EpollSet]: _Open and _Close with open, close, init and the cache over all
      descriptors and an epoll table that is an interface.
    - [Poller]: poll and _Poll over all descriptors down to the bulk push, and
      pollerFunc with its deadline and its semaphore.
    - [PollGuard]: nonblockingPoll and pollerFunc around poll, with the flag
      isPolling, in both builds; [IOClose]: close over all descriptors, down to
      the bulk queues, between the rounds of the poller.
    - [Network]: every operation of Connection, over a kernel that is a
      function of the history of system calls.
    - [ThreadPool]: uThreadExecute and the workers.
    - [CWrapper], [CRuntime]: the functions of cwrapper.cpp over these models,
      and programs of calls.
    - [Boot]: the construction of the static objects before main(), with the
      poller thread that it starts.

    ** What the theorems show

    The containers behave as lists and fault on no valid use.  The run queue
    loses, duplicates and reorders nothing, its spin loops end, and a kThread
    that sleeps with a uThread queued is about to be woken; it is linearizable,
    and the scheduler built on it refines a FIFO contract.  Scheduler 1 keeps
    the order too, and loses no wake-up as long as no notification is overtaken
    by a spurious wake-up; its spin lock returns as soon as the lock is free, and
    never if it never is.  At most one
    uThread is in a critical section; locks are passed on in FIFO order; no
    wake-up of a mutex, semaphore, condition variable or switch is lost, and none
    of a descriptor as long as nobody closes it under a uThread that blocks on it
    and its reader and its writer do not overlap where they share a flag; at quiescence only uThreads that wait for something are left.  Mutexes
    on kThreads: a resume of a mutex always finds its uThread switched out and
    visible, the uThread comes back as the owner, and with ordered acquisition
    nobody is blocked unless a holder does not release.  No
    stack is ever used by two kThreads, and no context is loaded that was not
    saved; on the machine level a context that is left and re-entered finds
    its registers and its stack, and a new one starts its function with its
    arguments.  join returns once the uThread has ended and before it is freed.
    At most one thread polls; a poll wakes exactly the uThreads its events
    concern, and pushes with them those that a close has left in the bulk queues;
    the poller's
    semaphore counts the blocked kThreads and its deadline is always valid.
    If connections are closed when nobody is blocking on them and given a
    descriptor once, the epoll set stays exact, no descriptor is lost, and an open
    ends the process only when the kernel refuses an open descriptor.
    Socket operations wait as often as the kernel would block and report its
    result, unless epoll does not take the descriptor.  Every uThread object and
    every stack is freed or belongs to a live or cached uThread.  A thread pool neither loses nor strands a task.  The start-up
    ends in the initial state of the life cycle.  A C program that keeps to the
    life time of its connections never accesses a dead object.  Where the code
    does not do this (detach, concurrent joiners, close, which leaves the wake-up of
    the reader to a later poll, clusters without a scheduler, the reader and writer
    of one descriptor, spurious wake-ups and the counter without an initial value in
    scheduler 1, stale tokens in
    scheduler 4, the alignment of a new stack, receiving and destroying in the
    C interface) a theorem exhibits the run.

    ** Conventions

    Shared-memory code is modelled with one step per access, for every
    interleaving, under sequential consistency; an operation under a lock is
    one step where the lock is the model's own.  A pointer is a [Z], the null
    pointer 0; counters wrap at their width.  Assertions are evaluated or not
    ([Build]); the theorems hold for both.  Loops of the containers are
    bounded by fuel equal to the length of the chain they walk, and the
    theorems show that it suffices; the exploration of the join protocol has
    22 levels, of which the last is computed to be empty.  The retry loops of
    Connection have a fuel that the theorems only require to exceed the number
    of times the call would block.  malloc, epoll_ctl, the results of
    epoll_wait and sem_timedwait and the system calls are arguments; the allocator
    may hand out the address of a destroyed object again.

    ** Not modelled

    Weak memory; the destructors that only free memory; the native handles of
    threads; __tryPop of scheduler 1, which nothing calls; a close that runs
    while the poller changes the same bulk queue, a data race; the tests and the
    vendored http_parser.  The composition with the life cycle is made for the
    mutexes; the semaphore, the condition variable and join are proved over the
    contract of the mutex, and descriptors over their own model of suspension. *)

From stdpp Require Export base tactics list numbers gmap relations.

(** ** Machine values *)

(** Object addresses.  [nullptr] is address 0; every object the containers
    link is at least 2-aligned, so that bit 0 of a pointer is free for the
    "empty" mark of [BlockingMPSCQueue]. *)
Abbreviation addr := Z.
Definition nullptr : addr := 0%Z.

(** The mark in bit 0 of a pointer: [(uintptr_t)p | 1], [(uintptr_t)p & 1] and
    [(uintptr_t)p & ~1]. *)
Definition mark (p : addr) : Z := Z.lor p 1.
Definition marked (p : addr) : bool := negb (Z.land p 1 =? 0)%Z.
Definition unmark (p : addr) : addr := Z.land p (Z.lnot 1).

Definition aligned (p : addr) : Prop := (p mod 2 = 0)%Z.

Lemma land_1 p : Z.land p 1 = (p mod 2)%Z.
Proof. exact (Z.land_ones p 1 ltac:(lia)). Qed.
Lemma unmark_eq p : unmark p = (p - p mod 2)%Z.
Proof.
  unfold unmark. rewrite <-Z.ldiff_land, <-land_1.
  rewrite Z.sub_nocarry_ldiff.
  - apply Z.bits_inj. intros i. rewrite !Z.ldiff_spec, Z.land_spec.
    by destruct (Z.testbit p i), (Z.testbit 1 i).
  - apply Z.bits_inj. intros i. rewrite Z.ldiff_spec, Z.land_spec, Z.bits_0.
    by destruct (Z.testbit p i), (Z.testbit 1 i).
Qed.
Lemma marked_aligned p : aligned p → marked p = false.
Proof. unfold marked, aligned. intros H. by rewrite land_1, H. Qed.
Lemma unmark_aligned p : aligned p → unmark p = p.
Proof. unfold aligned. rewrite unmark_eq. lia. Qed.
Lemma mark_aligned p : aligned p → mark p = (p + 1)%Z.
Proof.
  intros H. unfold mark. rewrite Z.add_nocarry_lxor, Z.lxor_lor; try done;
    by rewrite land_1, H.
Qed.
Lemma marked_mark p : aligned p → marked (mark p) = true.
Proof.
  intros H. rewrite mark_aligned by done. unfold marked, aligned in *.
  rewrite land_1. apply negb_true_iff, Z.eqb_neq.
  rewrite Z.add_mod, H by done. done.
Qed.
Lemma unmark_mark p : aligned p → unmark (mark p) = p.
Proof.
  intros H. rewrite mark_aligned by done. rewrite unmark_eq. unfold aligned in H.
  rewrite Z.add_mod, H by done. change ((0 + 1 mod 2) mod 2)%Z with 1%Z. lia.
Qed.

(** Unsigned wrap-around at a given width. *)
Definition wrap (w : Z) (z : Z) : Z := (z mod 2 ^ w)%Z.

(** ** Outcomes, and the state-and-fault monad *)

(** What a piece of the C++ code can end in besides returning: a failed
    [assert], an access through an address that holds no live object (a null
    dereference in particular), an exhausted loop bound of the model, a call of
    [exit], a std::system_error thrown with an error number, or the end of the
    body of a function that has to return a value, which is undefined. *)
Inductive fault : Type :=
  | AssertFailure
  | BadAccess (a : addr)
  | OutOfFuel
  | Exit (code : Z)
  | Throw (errno : Z)
  | NoReturn.

Inductive outcome (A : Type) : Type :=
  | Ok (a : A)
  | Fault (e : fault).
Arguments Ok {A} a.
Arguments Fault {A} e.

#[export] Instance fault_eq_dec : EqDecision fault.
Proof. solve_decision. Defined.

Definition M (S A : Type) : Type := S → outcome (A * S).

#[export] Instance M_ret S : MRet (M S) := λ A a s, Ok (a, s).
#[export] Instance M_bind S : MBind (M S) := λ A B f c s,
  match c s with
  | Ok (a, s') => f a s'
  | Fault e => Fault e
  end.

Definition failM {S A} (e : fault) : M S A := λ _, Fault e.

(** The Makefile builds the library with [-DNDEBUG]; the tests and a
    debugging build evaluate the assertions.  Every theorem is stated for
    both kinds of build. *)
Class Build := { NDEBUG : bool }.

Definition assertM `{Build} {S} (c : M S bool) : M S unit := λ s,
  if NDEBUG then Ok (tt, s) else
  match c s with
  | Ok (true, _) => Ok (tt, s)
  | Ok (false, _) => Fault AssertFailure
  | Fault e => Fault e
  end.

(** ** Weakest preconditions: total correctness of a computation *)

Definition wp {S A} (c : M S A) (Q : A → S → Prop) (s : S) : Prop :=
  match c s with
  | Ok (a, s') => Q a s'
  | Fault _ => False
  end.

Create HintDb uthreads.
Create Rewrite HintDb uthreads.

Section wp.
Context {S : Type}.
Implicit Types s : S.

Lemma wp_ret {A} (a : A) (Q : A → S → Prop) s : Q a s → wp (mret a) Q s.
Proof. done. Qed.

Lemma wp_bind {A B} (c : M S A) (k : A → M S B) Q s :
  wp c (λ a s', wp (k a) Q s') s → wp (c ≫= k) Q s.
Proof. unfold wp, mbind, M_bind. by destruct (c s) as [[a s']|]. Qed.

Lemma wp_mono {A} (c : M S A) (P Q : A → S → Prop) s :
  wp c P s → (∀ a s', P a s' → Q a s') → wp c Q s.
Proof. unfold wp. destruct (c s) as [[a s']|]; eauto. Qed.

(** A computation meets its specification exactly when it returns. *)
Lemma wp_Ok {A} (c : M S A) Q s :
  wp c Q s ↔ ∃ a s', c s = Ok (a, s') ∧ Q a s'.
Proof.
  unfold wp. split.
  - destruct (c s) as [[a s']|]; [eauto|done].
  - intros (a & s' & -> & ?). done.
Qed.

Lemma wp_assert `{Build} (c : M S bool) (Q : unit → S → Prop) s :
  wp c (λ b _, b = true) s → Q tt s → wp (assertM c) Q s.
Proof.
  unfold wp, assertM. destruct NDEBUG; [done|].
  destruct (c s) as [[[] s']|]; done.
Qed.
End wp.

(** [wp_steps] runs the straight-line part of a computation: it decomposes
    binds and returns; the components add their own primitive steps to the
    hint database. *)
Ltac wp_pure := first [apply wp_bind | apply wp_ret].

(** ** Lists *)

Lemma elem_take {A} (x : A) n l : x ∈ take n l → x ∈ l.
Proof. apply subseteq_take. Qed.
Lemma elem_drop {A} (x : A) n l : x ∈ drop n l → x ∈ l.
Proof. apply subseteq_drop. Qed.
#[export] Hint Resolve elem_take elem_drop : uthreads.

(** Replacing an element of a list. *)
Lemma omap_insert {A B} (f : A → option B) (l : list A) i x y :
  l !! i = Some x →
  option_list (f x) ++ omap f (<[i := y]> l) ≡ₚ option_list (f y) ++ omap f l.
Proof.
  intros Hi. rewrite insert_take_drop by (by eapply lookup_lt_Some).
  rewrite <-(take_drop_middle l i x) at 3 by done.
  rewrite !omap_app. cbn [omap list_omap].
  destruct (f x), (f y); simpl; solve_Permutation.
Qed.
Lemma omap_delete {A B} (f : A → option B) (l : list A) i x :
  l !! i = Some x → omap f l ≡ₚ option_list (f x) ++ omap f (delete i l).
Proof.
  intros Hi. rewrite delete_take_drop. rewrite <-(take_drop_middle l i x) at 1 by done.
  rewrite !omap_app. cbn [omap list_omap]. destruct (f x); simpl; solve_Permutation.
Qed.
Lemma lookup_insert_cases {A} (l : list A) i x y j :
  l !! i = Some x → <[i := y]> l !! j = if decide (j = i) then Some y else l !! j.
Proof.
  intros Hi. case_decide as E.
  - subst. apply list_lookup_insert_eq. by eapply lookup_lt_Some.
  - by apply list_lookup_insert_ne.
Qed.

(** ** Transition systems with executable steps *)

Section lts.
Context {St Lab : Type} (step : Lab → St → option St).

Fixpoint run (tr : list Lab) (s : St) : option St :=
  match tr with
  | [] => Some s
  | a :: tr' => s' ← step a s; run tr' s'
  end.

Definition reachable (init s : St) : Prop := ∃ tr, run tr init = Some s.

Lemma run_app tr1 tr2 s :
  run (tr1 ++ tr2) s = run tr1 s ≫= run tr2.
Proof.
  revert s. induction tr1 as [|a tr IH]; intros s; [done|]; simpl.
  destruct (step a s); simpl; [apply IH|done].
Qed.

Lemma reachable_refl s : reachable s s.
Proof. by exists []. Qed.

Lemma reachable_step init s a s' :
  reachable init s → step a s = Some s' → reachable init s'.
Proof.
  intros [tr Htr] Hs. exists (tr ++ [a]).
  rewrite run_app, Htr. simpl. by rewrite Hs.
Qed.

(** A state computed by a run. *)
Lemma reachable_default tr init :
  match run tr init with Some _ => true | None => false end = true →
  reachable init (default init (run tr init)).
Proof. intros H. exists tr. by destruct (run tr init). Qed.

(** Invariants by induction on the run. *)
Lemma invariant_reachable (P : St → Prop) init :
  P init →
  (∀ a s s', P s → step a s = Some s' → P s') →
  ∀ s, reachable init s → P s.
Proof.
  intros Hinit Hstep s [tr Htr]. revert init Hinit Htr.
  induction tr as [|a tr IH]; simpl; intros s0 H0 Hrun.
  - by simplify_eq.
  - destruct (step a s0) as [s1|] eqn:E; simplify_eq/=. eauto.
Qed.
End lts.
