(* ===== verification/Links.v ===== *)
(** * The memory of intrusive links

    [Link<T>] of [src/generic/IntrusiveContainers.h], the memory cells the
    intrusive containers read and write, the primitive accesses, and the two
    shape predicates the containers' invariants are built from: [chain], a
    path along [next], and [dchain], a path along [next] whose reverse is a
    path along [prev]. *)

From S2P Require Import Prelude.

(** [template <typename T> class Link]: the two pointers, as the first base
    class of the linked objects (uThread, kThread, PollData). *)
Record Link := mkLink { prev : addr; next : addr }.

(** [constexpr Link()]: both pointers null. *)
Definition Link_init : Link := mkLink nullptr nullptr.

(** The memory: the live objects, by address, with their link part. *)
Abbreviation mem := (gmap Z Link).

Definition next_of (m : mem) (a : addr) : option addr := next <$> m !! a.
Definition prev_of (m : mem) (a : addr) : option addr := prev <$> m !! a.

Definition set_next (a v : addr) (m : mem) : mem :=
  alter (λ l, mkLink (prev l) v) a m.
Definition set_prev (a v : addr) (m : mem) : mem :=
  alter (λ l, mkLink v (next l)) a m.

(** Primitive accesses: reading or writing a link through an address that
    holds no object faults. *)
Definition load_next (a : addr) : M mem addr := λ m,
  match m !! a with Some l => Ok (next l, m) | None => Fault (BadAccess a) end.
Definition load_prev (a : addr) : M mem addr := λ m,
  match m !! a with Some l => Ok (prev l, m) | None => Fault (BadAccess a) end.
Definition store_next (a v : addr) : M mem unit := λ m,
  match m !! a with
  | Some l => Ok (tt, <[a := mkLink (prev l) v]> m)
  | None => Fault (BadAccess a)
  end.
Definition store_prev (a v : addr) : M mem unit := λ m,
  match m !! a with
  | Some l => Ok (tt, <[a := mkLink v (next l)]> m)
  | None => Fault (BadAccess a)
  end.

(** ** Reading after writing *)

Lemma next_of_set_next m a v b :
  next_of (set_next a v m) b =
  if decide (a = b) then (λ _, v) <$> next_of m b else next_of m b.
Proof.
  unfold next_of, set_next. rewrite lookup_alter.
  case_decide; [subst|done]. by destruct (m !! b).
Qed.
Lemma prev_of_set_prev m a v b :
  prev_of (set_prev a v m) b =
  if decide (a = b) then (λ _, v) <$> prev_of m b else prev_of m b.
Proof.
  unfold prev_of, set_prev. rewrite lookup_alter.
  case_decide; [subst|done]. by destruct (m !! b).
Qed.
Lemma prev_of_set_next m a v b : prev_of (set_next a v m) b = prev_of m b.
Proof.
  unfold prev_of, set_next. rewrite lookup_alter.
  case_decide; [subst|done]. by destruct (m !! b).
Qed.
Lemma next_of_set_prev m a v b : next_of (set_prev a v m) b = next_of m b.
Proof.
  unfold next_of, set_prev. rewrite lookup_alter.
  case_decide; [subst|done]. by destruct (m !! b).
Qed.

Lemma next_of_set_next_eq m a v n :
  next_of m a = Some n → next_of (set_next a v m) a = Some v.
Proof. intros H. rewrite next_of_set_next, H. by case_decide. Qed.
Lemma next_of_set_next_ne m a v b :
  a ≠ b → next_of (set_next a v m) b = next_of m b.
Proof. intros H. rewrite next_of_set_next. by case_decide. Qed.
Lemma prev_of_set_prev_eq m a v n :
  prev_of m a = Some n → prev_of (set_prev a v m) a = Some v.
Proof. intros H. rewrite prev_of_set_prev, H. by case_decide. Qed.
Lemma prev_of_set_prev_ne m a v b :
  a ≠ b → prev_of (set_prev a v m) b = prev_of m b.
Proof. intros H. rewrite prev_of_set_prev. by case_decide. Qed.

Lemma next_prev_of m a n : next_of m a = Some n → is_Some (prev_of m a).
Proof. unfold next_of, prev_of. destruct (m !! a); naive_solver. Qed.
Lemma prev_next_of m a n : prev_of m a = Some n → is_Some (next_of m a).
Proof. unfold next_of, prev_of. destruct (m !! a); naive_solver. Qed.

#[export] Hint Rewrite prev_of_set_next next_of_set_prev : uthreads.

(** ** Weakest preconditions of the accesses *)

Lemma wp_load_next m a n (Q : addr → mem → Prop) :
  next_of m a = Some n → Q n m → wp (load_next a) Q m.
Proof.
  unfold next_of, wp, load_next. destruct (m !! a); simpl; intros; by simplify_eq.
Qed.
Lemma wp_load_prev m a n (Q : addr → mem → Prop) :
  prev_of m a = Some n → Q n m → wp (load_prev a) Q m.
Proof.
  unfold prev_of, wp, load_prev. destruct (m !! a); simpl; intros; by simplify_eq.
Qed.
Lemma wp_store_next m a v n (Q : unit → mem → Prop) :
  next_of m a = Some n → Q tt (set_next a v m) → wp (store_next a v) Q m.
Proof.
  unfold next_of, wp, store_next, set_next.
  destruct (m !! a) as [l|] eqn:E; simpl; intros; [|done].
  assert (alter (λ l, mkLink (prev l) v) a m = <[a:=mkLink (prev l) v]> m)
    as <-; [|done].
  apply map_eq; intros b. rewrite lookup_alter, lookup_insert.
  case_decide; [subst; by rewrite E|done].
Qed.
Lemma wp_store_prev m a v n (Q : unit → mem → Prop) :
  prev_of m a = Some n → Q tt (set_prev a v m) → wp (store_prev a v) Q m.
Proof.
  unfold prev_of, wp, store_prev, set_prev.
  destruct (m !! a) as [l|] eqn:E; simpl; intros; [|done].
  assert (alter (λ l, mkLink v (next l)) a m = <[a:=mkLink v (next l)]> m)
    as <-; [|done].
  apply map_eq; intros b. rewrite lookup_alter, lookup_insert.
  case_decide; [subst; by rewrite E|done].
Qed.

(** ** [chain m xs]: each address of [xs] but the last is linked by [next]
    to the one after it. *)

Fixpoint chain (m : mem) (xs : list addr) : Prop :=
  match xs with
  | x :: (y :: _) as r => next_of m x = Some y ∧ chain m r
  | _ => True
  end.

(** [dchain m xs]: moreover each one but the first is linked back. *)
Fixpoint dchain (m : mem) (xs : list addr) : Prop :=
  match xs with
  | x :: (y :: _) as r =>
      next_of m x = Some y ∧ prev_of m y = Some x ∧ dchain m r
  | _ => True
  end.

Section chain.
Implicit Types (m : mem) (xs ys : list addr).

Lemma chain_cons2 m x y xs :
  chain m (x :: y :: xs) ↔ next_of m x = Some y ∧ chain m (y :: xs).
Proof. done. Qed.
Lemma dchain_cons2 m x y xs :
  dchain m (x :: y :: xs) ↔
  next_of m x = Some y ∧ prev_of m y = Some x ∧ dchain m (y :: xs).
Proof. done. Qed.

(** A chain splits at any of its nodes. *)
Lemma chain_app m xs x ys :
  chain m (xs ++ x :: ys) ↔ chain m (xs ++ [x]) ∧ chain m (x :: ys).
Proof.
  induction xs as [|a [|b r] IH]; simpl app in *.
  - simpl. tauto.
  - rewrite !chain_cons2. simpl. tauto.
  - rewrite !chain_cons2, IH. tauto.
Qed.
Lemma dchain_app m xs x ys :
  dchain m (xs ++ x :: ys) ↔ dchain m (xs ++ [x]) ∧ dchain m (x :: ys).
Proof.
  induction xs as [|a [|b r] IH]; simpl app in *.
  - simpl. tauto.
  - rewrite !dchain_cons2. simpl. tauto.
  - rewrite !dchain_cons2, IH. tauto.
Qed.

Lemma dchain_chain m xs : dchain m xs → chain m xs.
Proof. induction xs as [|a [|b r] IH]; [done|done|]. naive_solver. Qed.

(** Frame: a chain only depends on the [next] of all its nodes but the
    last, a doubly linked one also on the [prev] of all but the first. *)
Lemma chain_ext m m' xs z :
  (∀ x, x ∈ xs → next_of m' x = next_of m x) →
  chain m (xs ++ [z]) → chain m' (xs ++ [z]).
Proof.
  induction xs as [|a [|b r] IH]; intros Hext; [done| |].
  - simpl. rewrite Hext by set_solver. done.
  - simpl app. rewrite !chain_cons2. intros [H1 H2].
    rewrite Hext by set_solver. split; [done|]. apply IH; [set_solver|done].
Qed.
Lemma chain_set_next m a v xs z :
  a ∉ xs → chain m (xs ++ [z]) → chain (set_next a v m) (xs ++ [z]).
Proof.
  intros Ha. apply chain_ext. intros x Hx. apply next_of_set_next_ne. set_solver.
Qed.

Lemma dchain_ext m m' y xs z :
  (∀ x, x ∈ y :: xs → next_of m' x = next_of m x) →
  (∀ x, x ∈ xs ++ [z] → prev_of m' x = prev_of m x) →
  dchain m (y :: xs ++ [z]) → dchain m' (y :: xs ++ [z]).
Proof.
  revert y. induction xs as [|a r IH]; intros y Hn Hp; simpl app in *.
  - simpl. rewrite Hn, Hp by set_solver. done.
  - rewrite !dchain_cons2, Hn, Hp by set_solver. intros (? & ? & ?).
    split_and!; [done..|]. apply IH; [set_solver..|done].
Qed.
Lemma dchain_single_ext m m' x : dchain m [x] → dchain m' [x].
Proof. done. Qed.

(** Every node of a chain but the last is allocated. *)
Lemma chain_elem m xs z x :
  chain m (xs ++ [z]) → x ∈ xs → is_Some (next_of m x).
Proof.
  induction xs as [|a [|b r] IH]; simpl app in *; [set_solver| |].
  - simpl. intros [H _] ->%list_elem_of_singleton. eauto.
  - rewrite chain_cons2. intros [H1 H2] [->|Hx]%elem_of_cons; eauto.
Qed.

Lemma chain_head m x xs z :
  chain m (x :: xs ++ [z]) → next_of m x = Some (default z (head xs)).
Proof. destruct xs; simpl; tauto. Qed.
End chain.

#[export] Instance chain_dec m xs : Decision (chain m xs).
Proof.
  induction xs as [|a [|b r] IH]; [apply _..|]. simpl. apply _.
Defined.
#[export] Instance dchain_dec m xs : Decision (dchain m xs).
Proof.
  induction xs as [|a [|b r] IH]; [apply _..|]. simpl. apply _.
Defined.

(** ** Stepping through accesses *)


(** [lk] rewrites reads after writes at addresses known to be (dis)equal and
    closes the resulting goal with the hypotheses. *)
Ltac lk :=
  repeat first
    [ progress autorewrite with uthreads
    | erewrite next_of_set_next_eq by lk
    | rewrite next_of_set_next_ne by congruence
    | erewrite prev_of_set_prev_eq by lk
    | rewrite prev_of_set_prev_ne by congruence ];
  first [ eassumption | reflexivity ].

(** One access or one pure step of a computation under [wp]. *)
Ltac wp_step :=
  first
    [ wp_pure
    | eapply wp_load_next; [solve [lk]|]
    | eapply wp_load_prev; [solve [lk]|]
    | eapply wp_store_next; [solve [lk]|]
    | eapply wp_store_prev; [solve [lk]|]
    | apply wp_assert ]; cbn beta.

(** ** The walk shared by the bulk operations

    [for (size_t i = 1; i < count; i += 1) { if (next( *last ) == stop) count = i;
    else last = next( *last ); }] with [stop] the null pointer for stacks and
    queues and the anchor for lists; setting [count] to [i] ends the loop.
    It returns the new [count] and [last].  [fuel] bounds the iterations. *)
Fixpoint walk (stop : addr) (fuel : nat) (i count : Z) (last : addr)
    : M mem (Z * addr) :=
  if (i <? count)%Z then
    match fuel with
    | O => failM OutOfFuel
    | S fuel =>
        n ← load_next last;
        if (n =? stop)%Z then walk stop fuel (i + 1)%Z i last
        else walk stop fuel (i + 1)%Z count n
    end
  else mret (count, last).

(** The walk stops after [count - i] nodes or at the last one; it changes
    nothing, and [count - i] iterations of fuel are enough. *)
Lemma walk_spec stop m x r i count fuel :
  chain m (x :: r ++ [stop]) → stop ∉ r → Z.to_nat (count - i) ≤ fuel →
  wp (walk stop fuel i count x)
     (λ cl m', m' = m ∧ ∃ pre post,
        x :: r = pre ++ cl.2 :: post ∧
        length pre = Z.to_nat (count - i) `min` length r ∧
        cl.1 = if decide (Z.to_nat (count - i) ≤ length r) then count
               else (i + Z.of_nat (length r))%Z) m.
Proof.
  revert x i fuel. induction r as [|y r IH]; intros x i fuel Hc Hs Hf;
    destruct fuel as [|fuel]; cbn [walk]; destruct (Z.ltb_spec i count); try lia.
  - split; [done|]. exists [], []. simpl. split_and!; [done|lia|].
    rewrite decide_True by lia. done.
  - destruct Hc as [Hx _]. apply wp_bind, (wp_load_next _ _ _ _ Hx). rewrite Z.eqb_refl.
    assert (Hw : walk stop fuel (i + 1) i x = mret (i, x)).
    { destruct fuel; cbn [walk]; by rewrite (proj2 (Z.ltb_ge (i + 1) i)) by lia. }
    rewrite Hw. split; [done|]. exists [], []. simpl. split_and!; [done|lia|].
    rewrite decide_False by lia. lia.
  - split; [done|]. exists [], []. simpl. split_and!; [done|lia|].
    rewrite decide_True by lia. done.
  - split; [done|]. exists [], (y :: r). simpl. split_and!; [done|lia|].
    rewrite decide_True by lia. done.
  - simpl app in Hc. apply chain_cons2 in Hc as [Hx Hc].
    apply wp_bind, (wp_load_next _ _ _ _ Hx).
    destruct (Z.eqb_spec y stop); [set_solver|].
    eapply wp_mono; [apply IH; [done|set_solver|lia]|].
    intros [c' y'] m' (-> & pre & post & Hl & Hlen & Hcnt). split; [done|].
    exists (x :: pre), post. simpl in *. split_and!; [by f_equal|lia|].
    rewrite Hcnt. repeat case_decide; lia.
  - split; [done|]. exists [], (y :: r). simpl. split_and!; [done|lia|].
    rewrite decide_True by lia. done.
Qed.

(** ** Null-terminated segments of distinct nodes *)

Definition segment (m : mem) (l : list addr) : Prop :=
  NoDup l ∧ (nullptr ∉ l) ∧ chain m (l ++ [nullptr]).

#[export] Instance segment_dec m l : Decision (segment m l).
Proof. unfold segment. apply _. Defined.

(** What an operation leaves alone: the [next] of every node outside [X] and
    every [prev]. *)
Definition same_outside (X : list addr) (m m' : mem) : Prop :=
  (∀ a, a ∉ X → next_of m' a = next_of m a) ∧ (∀ a, prev_of m' a = prev_of m a).

Section segments.
Implicit Types (m : mem) (l s : list addr).

Lemma same_outside_refl X m : same_outside X m m.
Proof. done. Qed.
Lemma same_outside_set_next X m a v :
  a ∈ X → same_outside X m (set_next a v m).
Proof.
  intros. split; intros b; autorewrite with uthreads; [|done].
  intros ?. apply next_of_set_next_ne. set_solver.
Qed.
Lemma same_outside_trans X Y m1 m2 m3 :
  same_outside X m1 m2 → same_outside Y m2 m3 → same_outside (X ++ Y) m1 m3.
Proof.
  intros [H1 P1] [H2 P2]. split; intros a.
  - intros [??]%not_elem_of_app. by rewrite H2, H1.
  - by rewrite P2, P1.
Qed.
Lemma same_outside_mono X Y m m' :
  (∀ a, a ∈ X → a ∈ Y) → same_outside X m m' → same_outside Y m m'.
Proof. intros Hs [H P]. split; [|done]. intros a Ha. apply H. set_solver. Qed.

Lemma segment_frame X m m' l :
  same_outside X m m' → X ## l → segment m l → segment m' l.
Proof.
  intros [Hn _] Hd (Hl & H0 & Hc). split_and!; [done..|].
  eapply chain_ext; [|done]. intros x Hx. apply Hn. set_solver.
Qed.
Lemma segment_node m x l : segment m (x :: l) →
  x ≠ nullptr ∧ (x ∉ l) ∧ next_of m x = Some (default nullptr (head l)) ∧ segment m l.
Proof.
  intros ([Hx Hl]%NoDup_cons & H0 & Hc).
  split_and!; [set_solver|done|by apply chain_head|].
  split_and!; [done|set_solver|].
  destruct l; [done|]. by apply chain_cons2 in Hc as [_ ?].
Qed.

Lemma segment_last m l x : segment m (l ++ [x]) → next_of m x = Some nullptr.
Proof.
  intros (_ & _ & Hc). rewrite <-app_assoc in Hc. simpl in Hc.
  apply chain_app in Hc as [_ Hc]. simpl in Hc. tauto.
Qed.

(** Cutting a segment after a node: writing null into its [next] leaves
    the two halves. *)
Lemma segment_cut m pre y post :
  segment m (pre ++ y :: post) →
  segment (set_next y nullptr m) (pre ++ [y]) ∧ segment (set_next y nullptr m) post.
Proof.
  intros (Hnd & H0 & Hc).
  apply NoDup_app in Hnd as (Hpre & Hdis & [Hy Hpost]%NoDup_cons).
  assert (Hyp : y ∉ pre) by set_solver.
  rewrite <-app_assoc in Hc. simpl in Hc.
  assert (Hyn : is_Some (next_of m y)).
  { apply chain_app in Hc as [_ Hc]. destruct post; simpl in Hc; destruct Hc; eauto. }
  destruct Hyn as [n Hn]. split.
  - split_and!; [apply NoDup_app; split_and!; [done|set_solver|apply NoDup_singleton]
                |set_solver|].
    rewrite <-app_assoc. simpl. apply chain_app in Hc as [Hc _].
    apply chain_app. split; [by apply chain_set_next|].
    simpl. by erewrite next_of_set_next_eq.
  - split_and!; [done|set_solver|]. apply chain_set_next; [done|].
    apply chain_app in Hc as [_ Hc].
    destruct post; [done|]. by apply chain_cons2 in Hc as [_ ?].
Qed.

(** Joining two segments through the last node of the first. *)
Lemma segment_join m l y s x :
  segment m (l ++ [y]) → segment m (x :: s) → (l ++ [y]) ## (x :: s) →
  segment (set_next y x m) ((l ++ [y]) ++ x :: s).
Proof.
  intros H1 (Hs1 & Hs2 & Hs3) Hd.
  pose proof (segment_last _ _ _ H1) as Hy. destruct H1 as (Hl1 & Hl2 & Hl3).
  pose proof Hl1 as (_ & Hyl & _)%NoDup_app.
  split_and!.
  - apply NoDup_app; split_and!; [done| |done]. intros a ??. by apply (Hd a).
  - rewrite not_elem_of_app. done.
  - rewrite <-!app_assoc in *. simpl in *.
    apply chain_app. split.
    + apply chain_app in Hl3 as [Hl3 _]. apply chain_set_next; [|done].
      intros Hin. apply (Hyl y Hin). set_solver.
    + apply chain_cons2. split; [by erewrite next_of_set_next_eq|].
      apply (chain_set_next _ _ _ (x :: s)); [|done].
      intros Hin. apply (Hd y); set_solver.
Qed.

Lemma segment_next m pre y post :
  segment m (pre ++ y :: post) → next_of m y = Some (default nullptr (head post)).
Proof.
  intros (_ & _ & Hc). rewrite <-app_assoc in Hc. simpl in Hc.
  apply chain_app in Hc as [_ Hc]. by apply chain_head.
Qed.

End segments.

(** How many nodes a bulk operation takes from a queue of [len] nodes, and
    the value it leaves in [count]. *)
Definition taken (count : Z) (len : nat) : nat := (1 `max` Z.to_nat count) `min` len.
Definition count_after (count : Z) (len : nat) : Z :=
  if decide (Z.to_nat count ≤ len) then count else Z.of_nat len.

(** The walk ends at the last of the [taken] nodes. *)
Lemma walk_taken stop m x r count :
  chain m (x :: r ++ [stop]) → stop ∉ r → (0 ≤ count)%Z →
  wp (walk stop (Z.to_nat count) 1 count x)
     (λ cl m', m' = m ∧ ∃ pre post, x :: r = pre ++ cl.2 :: post ∧
        take (taken count (length (x :: r))) (x :: r) = pre ++ [cl.2] ∧
        drop (taken count (length (x :: r))) (x :: r) = post ∧
        cl.1 = count_after count (length (x :: r))) m.
Proof.
  intros Hc H0 Hcount.
  eapply wp_mono; [apply (walk_spec stop m x r); [done|done|lia]|].
  intros [c' y] m'. cbn [fst snd]. intros (-> & pre & post & E & Hlen & ->).
  split; [done|]. exists pre, post.
  assert (Hn : taken count (length (x :: r)) = S (length pre)).
  { unfold taken. simpl length. lia. }
  rewrite Hn, E. split_and!; [done| | |].
  - rewrite take_app_ge, Nat.sub_succ_l, Nat.sub_diag by lia. done.
  - rewrite drop_app_ge, Nat.sub_succ_l, Nat.sub_diag by lia. done.
  - rewrite <-E. unfold count_after. simpl length. repeat case_decide; lia.
Qed.

Lemma walk_segment m x r count :
  segment m (x :: r) → (0 ≤ count)%Z →
  wp (walk nullptr (Z.to_nat count) 1 count x)
     (λ cl m', m' = m ∧ ∃ pre post, x :: r = pre ++ cl.2 :: post ∧
        take (taken count (length (x :: r))) (x :: r) = pre ++ [cl.2] ∧
        drop (taken count (length (x :: r))) (x :: r) = post ∧
        cl.1 = count_after count (length (x :: r))) m.
Proof.
  intros (_ & H0 & Hc) Hcount. apply walk_taken; [done|set_solver|done].
Qed.

(** A fresh memory: the given nodes, each with the links of a constructed
    object. *)
Definition fresh_mem (F : list addr) : mem := list_to_map ((λ a, (a, Link_init)) <$> F).

Lemma fresh_mem_next F a : a ∈ F → next_of (fresh_mem F) a = Some nullptr.
Proof.
  unfold fresh_mem, next_of. induction F as [|b F IH]; [set_solver|]. simpl.
  rewrite lookup_insert. case_decide; [done|]. intros [?|?]%elem_of_cons; [congruence|auto].
Qed.
