(* ===== verification/IntrusiveQueue.v ===== *)
(** * IntrusiveQueue

    [template<typename T, size_t ID> class IntrusiveQueue] of
    [src/generic/IntrusiveContainers.h]: the singly linked FIFO queue behind
    the ready queues of schedulers 1 and 3, the bulk-push queues and
    [PollCache].  The object is its two pointers; an operation takes the
    object and returns it updated, over the memory of links. *)

From S2P Require Import Prelude Links.

Record IntrusiveQueue := mkQueue { qhead : addr; qtail : addr }.

(** [IntrusiveQueue() : head(nullptr), tail(nullptr)] *)
Definition IntrusiveQueue_init : IntrusiveQueue := mkQueue nullptr nullptr.

Module Queue.
Section ops.
Context `{Build}.

Definition empty (q : IntrusiveQueue) : M mem bool :=
  assertM (mret (bool_decide ((qhead q = nullptr) ↔ (qtail q = nullptr))));;
  mret (qhead q =? nullptr)%Z.

Definition front (q : IntrusiveQueue) : addr := qhead q.
Definition back (q : IntrusiveQueue) : addr := qtail q.

Definition onQueue (elem : addr) : M mem bool :=
  n ← load_next elem; mret (negb (n =? nullptr)%Z).

(** [void push(T& first, T& last)] *)
Definition push2 (q : IntrusiveQueue) (first last : addr) : M mem IntrusiveQueue :=
  assertM (b ← onQueue last; mret (negb b));;
  q' ← (if (qhead q =? nullptr)%Z then mret (mkQueue first (qtail q))
        else
          assertM (mret (negb (qtail q =? nullptr)%Z));;
          store_next (qtail q) first;;
          mret q);
  mret (mkQueue (qhead q') last).

(** [void push(T& elem)] *)
Definition push (q : IntrusiveQueue) (elem : addr) : M mem IntrusiveQueue :=
  push2 q elem elem.

(** [T* pop()] *)
Definition pop (q : IntrusiveQueue) : M mem (addr * IntrusiveQueue) :=
  assertM (e ← empty q; mret (negb e));;
  let last := qhead q in
  h ← load_next last;
  let t := if (qtail q =? last)%Z then nullptr else qtail q in
  store_next last nullptr;;
  mret (last, mkQueue h t).

(** [T* pop(size_t& count)]: returns the last popped node, the updated
    [count] and the queue. *)
Definition pop_count (q : IntrusiveQueue) (count : Z)
    : M mem (addr * Z * IntrusiveQueue) :=
  assertM (e ← empty q; mret (negb e));;
  cl ← walk nullptr (Z.to_nat count) 1 count (qhead q);
  let '(count', last) := cl in
  h ← load_next last;
  let t := if (qtail q =? last)%Z then nullptr else qtail q in
  store_next last nullptr;;
  mret (last, count', mkQueue h t).

(** [void transferFrom(IntrusiveQueue& eq, size_t& count)]: returns this
    queue, [eq] and [count]. *)
Definition transferFrom (q eq : IntrusiveQueue) (count : Z)
    : M mem (IntrusiveQueue * IntrusiveQueue * Z) :=
  assertM (e ← empty eq; mret (negb e));;
  let first := front eq in
  lce ← pop_count eq count;
  let '(last, count', eq') := lce in
  q' ← push2 q first last;
  mret (q', eq', count').

(** [T* removeAll()] *)
Definition removeAll (q : IntrusiveQueue) : M mem (addr * IntrusiveQueue) :=
  assertM (e ← empty q; mret (negb e));;
  let last := back q in
  store_next last nullptr;;
  mret (last, mkQueue nullptr nullptr).

(** [void transferAllFrom(IntrusiveQueue& eq)] *)
Definition transferAllFrom (q eq : IntrusiveQueue)
    : M mem (IntrusiveQueue * IntrusiveQueue) :=
  assertM (e ← empty eq; mret (negb e));;
  let first := front eq in
  let last := back eq in
  store_next last nullptr;;
  q' ← push2 q first last;
  mret (q', mkQueue nullptr nullptr).
End ops.
End Queue.

(** ** Representation: the queue holds the nodes [l], in this order *)

Definition queue_rep (m : mem) (q : IntrusiveQueue) (l : list addr) : Prop :=
  segment m l ∧
  qhead q = default nullptr (head l) ∧
  qtail q = default nullptr (last l).

Section facts.
Implicit Types (m : mem) (l s : list addr) (q : IntrusiveQueue).

(** A queue is unaffected by operations on other nodes. *)
Lemma queue_rep_frame X m m' q l :
  same_outside X m m' → X ## l → queue_rep m q l → queue_rep m' q l.
Proof. intros ?? [? ?]. split; [by eapply segment_frame|done]. Qed.

Lemma queue_rep_nil m q : queue_rep m q [] ↔ q = IntrusiveQueue_init.
Proof.
  split.
  - destruct q. unfold queue_rep. simpl. intros (_ & -> & ->). done.
  - intros ->. split; [|done]. split_and!; [constructor|set_solver|done].
Qed.

Lemma queue_rep_head m q x l : queue_rep m q (x :: l) → qhead q = x ∧ x ≠ nullptr.
Proof. intros (Hs & -> & _). split; [done|]. by apply segment_node in Hs as [? _]. Qed.

Lemma queue_rep_tail m q l x : queue_rep m q (l ++ [x]) → qtail q = x ∧ x ≠ nullptr.
Proof.
  intros ((_ & H0 & _) & _ & ->). rewrite last_snoc. set_solver.
Qed.

Lemma queue_rep_null m q l : queue_rep m q l →
  ((qhead q = nullptr) ↔ (qtail q = nullptr)) ∧ ((qhead q = nullptr) ↔ l = []).
Proof.
  intros Hq. destruct l as [|x l].
  - apply queue_rep_nil in Hq as ->. done.
  - pose proof (queue_rep_head _ _ _ _ Hq) as [-> Hx].
    destruct (exists_last (l := x :: l)) as (l' & y & E); [done|].
    rewrite E in Hq. apply queue_rep_tail in Hq as [-> Hy]. naive_solver.
Qed.
End facts.

(** ** The operations, on the list of queued nodes *)

Section specs.
Context `{Build}.
Implicit Types (m : mem) (l s : list addr) (q eq : IntrusiveQueue).

Lemma wp_not_empty m q l (Q : unit → mem → Prop) :
  queue_rep m q l → l ≠ [] → Q tt m →
  wp (assertM (e ← Queue.empty q; mret (negb e))) Q m.
Proof.
  intros [Hn He]%queue_rep_null Hl HQ. apply wp_assert; [|done].
  apply wp_bind, wp_bind, wp_assert; [by apply bool_decide_eq_true|].
  apply wp_ret, wp_ret. rewrite negb_true_iff, Z.eqb_neq. naive_solver.
Qed.

Lemma push2_spec m q l x s y :
  queue_rep m q l → segment m (x :: s) → last (x :: s) = Some y →
  l ## (x :: s) →
  wp (Queue.push2 q x y)
     (λ q' m', queue_rep m' q' (l ++ x :: s) ∧ same_outside l m m') m.
Proof.
  intros Hq Hs Hy Hd. unfold Queue.push2. apply wp_bind, wp_assert.
  { destruct (exists_last (l := x :: s)) as (s' & y' & E); [done|].
    rewrite E, last_snoc in *. simplify_eq.
    apply wp_bind, wp_bind. eapply wp_load_next; [by eapply segment_last|]. done. }
  apply wp_bind. destruct (Z.eqb_spec (qhead q) nullptr) as [H0|H0].
  - apply (queue_rep_null _ _ _ Hq) in H0 as ->. apply queue_rep_nil in Hq as ->.
    apply wp_ret, wp_ret. split; [|done]. split_and!; [done..|].
    simpl. by rewrite Hy.
  - pose proof (queue_rep_null _ _ _ Hq) as [Ht Hne].
    destruct (exists_last (l := l)) as (l' & z & ->); [naive_solver|].
    pose proof (queue_rep_tail _ _ _ _ Hq) as [-> Hz].
    apply wp_bind, wp_assert; [apply wp_ret; by apply negb_true_iff, Z.eqb_neq|].
    destruct Hq as (Hl & Hh & _).
    apply wp_bind. eapply wp_store_next; [by eapply segment_last|].
    apply wp_ret, wp_ret. split.
    + split_and!; [by apply segment_join| |].
      * rewrite Hh. by destruct l'.
      * simpl. by rewrite last_app, Hy.
    + apply same_outside_set_next. set_solver.
Qed.

Lemma push_spec m q l x :
  queue_rep m q l → x ∉ l → x ≠ nullptr → next_of m x = Some nullptr →
  wp (Queue.push q x)
     (λ q' m', queue_rep m' q' (l ++ [x]) ∧ same_outside l m m') m.
Proof.
  intros Hq Hx H0 Hn. apply push2_spec; [done| |done|set_solver].
  split_and!; [apply NoDup_singleton|set_solver|done].
Qed.

(** Removing the nodes up to and including [y]. *)
Lemma pop_cut m q pre y post :
  queue_rep m q (pre ++ y :: post) →
  queue_rep (set_next y nullptr m)
    (mkQueue (default nullptr (head post))
             (if (qtail q =? y)%Z then nullptr else qtail q)) post.
Proof.
  intros (Hs & _ & Ht). split; [by eapply segment_cut|]. simpl. split; [done|].
  destruct Hs as (Hnd & _ & _). apply NoDup_app in Hnd as (_ & _ & [Hy _]%NoDup_cons).
  destruct (decide (post = [])) as [->|Hp].
  - rewrite Ht, last_snoc. simpl. by rewrite Z.eqb_refl.
  - destruct (exists_last Hp) as (post' & z & ->).
    rewrite app_comm_cons, app_assoc, last_snoc in Ht. rewrite Ht, last_snoc. simpl.
    destruct (Z.eqb_spec z y); [set_solver|done].
Qed.

Lemma pop_spec m q x l :
  queue_rep m q (x :: l) →
  wp (Queue.pop q)
     (λ r m', r.1 = x ∧ queue_rep m' r.2 l ∧ next_of m' x = Some nullptr ∧
              same_outside [x] m m') m.
Proof.
  intros Hq. apply wp_bind. eapply wp_not_empty; [done..|].
  pose proof (queue_rep_head _ _ _ _ Hq) as [Hh _]. cbv zeta. rewrite Hh.
  pose proof (segment_next m [] x l (proj1 Hq)) as Hn.
  apply wp_bind. eapply wp_load_next; [done|].
  apply wp_bind. eapply wp_store_next; [done|]. apply wp_ret. simpl.
  split_and!; [done|by apply (pop_cut m q [])|by erewrite next_of_set_next_eq|].
  apply same_outside_set_next. set_solver.
Qed.

Lemma pop_count_spec m q l count :
  queue_rep m q l → l ≠ [] → (0 ≤ count)%Z →
  wp (Queue.pop_count q count)
     (λ r m', let n := taken count (length l) in
        r.1.2 = count_after count (length l) ∧
        last (take n l) = Some r.1.1 ∧
        queue_rep m' r.2 (drop n l) ∧
        segment m' (take n l) ∧
        same_outside (take n l) m m') m.
Proof.
  intros Hq Hl H0. apply wp_bind. eapply wp_not_empty; [done..|].
  destruct l as [|x r]; [done|].
  pose proof (queue_rep_head _ _ _ _ Hq) as [Hh _]. rewrite Hh.
  apply wp_bind. eapply wp_mono; [apply (walk_segment m x r); [apply Hq|done]|].
  intros [c' y] m'. cbn [fst snd]. intros (-> & pre & post & E & -> & -> & ->).
  rewrite E in *. pose proof (segment_next m pre y post (proj1 Hq)) as Hnx.
  apply wp_bind. eapply wp_load_next; [done|].
  apply wp_bind. eapply wp_store_next; [done|]. apply wp_ret. simpl.
  split_and!; [done|apply last_snoc|by eapply pop_cut| |].
  - exact (proj1 (segment_cut _ _ _ _ (proj1 Hq))).
  - apply same_outside_set_next. set_solver.
Qed.

Lemma removeAll_cut m q l y :
  queue_rep m q (l ++ [y]) →
  segment (set_next y nullptr m) (l ++ [y]).
Proof. intros [Hs _]. exact (proj1 (segment_cut m l y [] Hs)). Qed.

(** [removeAll] hands out the whole chain: it starts at the old [front]
    and ends at the returned node. *)
Lemma removeAll_spec m q l :
  queue_rep m q l → l ≠ [] →
  wp (Queue.removeAll q)
     (λ r m', last l = Some r.1 ∧ head l = Some (Queue.front q) ∧
              r.2 = IntrusiveQueue_init ∧ segment m' l ∧ same_outside l m m') m.
Proof.
  intros Hq Hl. destruct (exists_last Hl) as (l' & y & ->).
  apply wp_bind. eapply wp_not_empty; [done..|].
  pose proof (queue_rep_tail _ _ _ _ Hq) as [Ht _]. unfold Queue.back. rewrite Ht.
  apply wp_bind. eapply wp_store_next; [by eapply segment_last, (proj1 Hq)|].
  apply wp_ret. simpl. split_and!; [apply last_snoc| |done|by eapply removeAll_cut|].
  - destruct Hq as (_ & Hh & _). unfold Queue.front. rewrite Hh. by destruct l'.
  - apply same_outside_set_next. set_solver.
Qed.

(** [transferFrom] moves a prefix of one queue to the back of another:
    at least one node, at most [count] and at most all of them. *)
Lemma transferFrom_wp m q eq l1 l2 count :
  queue_rep m q l1 → queue_rep m eq l2 → l1 ## l2 → l2 ≠ [] → (0 ≤ count)%Z →
  wp (Queue.transferFrom q eq count)
     (λ r m', let n := taken count (length l2) in
        queue_rep m' r.1.1 (l1 ++ take n l2) ∧
        queue_rep m' r.1.2 (drop n l2) ∧
        r.2 = count_after count (length l2) ∧
        same_outside (l1 ++ l2) m m') m.
Proof.
  intros H1 H2 Hd Hl Hc. apply wp_bind. eapply wp_not_empty; [done..|].
  apply wp_bind. eapply wp_mono; [by apply pop_count_spec|].
  intros [[y c'] eq'] m1. cbn [fst snd]. intros (-> & Hy & Heq & Hseg & Hs1).
  destruct l2 as [|x l2]; [done|]. unfold Queue.front.
  rewrite (proj1 (queue_rep_head _ _ _ _ H2)).
  set (n := taken count (length (x :: l2))) in *.
  assert (Hsub : ∀ a, a ∈ take n (x :: l2) → a ∈ x :: l2) by eauto with uthreads.
  assert (∃ k, n = S k) as [k Hk]; [exists (pred n); unfold n, taken; simpl; lia|].
  clearbody n. subst n. rewrite firstn_cons in *. simpl skipn in *.
  apply wp_bind. eapply wp_mono.
  { apply (push2_spec _ _ l1); [|done|done|set_solver].
    eapply queue_rep_frame; [done|set_solver|done]. }
  intros q' m2 [Hq' Hs2]. apply wp_ret. simpl. split_and!; [done| |done|].
  - eapply queue_rep_frame; [done| |done].
    intros a Ha Ha2%elem_drop. apply (Hd a Ha). set_solver.
  - eapply same_outside_mono; [|by eapply same_outside_trans].
    intros a. rewrite !elem_of_app. intros [Ha|Ha]; auto.
Qed.

Lemma transferAllFrom_wp m q eq l1 l2 :
  queue_rep m q l1 → queue_rep m eq l2 → l1 ## l2 → l2 ≠ [] →
  wp (Queue.transferAllFrom q eq)
     (λ r m', queue_rep m' r.1 (l1 ++ l2) ∧ r.2 = IntrusiveQueue_init ∧
              same_outside (l1 ++ l2) m m') m.
Proof.
  intros H1 H2 Hd Hl. destruct (exists_last Hl) as (l' & y & ->).
  apply wp_bind. eapply wp_not_empty; [done..|].
  pose proof (queue_rep_tail _ _ _ _ H2) as [Ht _]. unfold Queue.back. rewrite Ht.
  apply wp_bind. eapply wp_store_next; [by eapply segment_last, (proj1 H2)|].
  pose proof (removeAll_cut _ _ _ _ H2) as Hseg.
  assert (Hs1 : same_outside (l' ++ [y]) m (set_next y nullptr m))
    by (apply same_outside_set_next; set_solver).
  assert (∃ x s, l' ++ [y] = x :: s) as (x & s & E) by (destruct l'; eauto).
  unfold Queue.front. rewrite E in *. rewrite (proj1 (queue_rep_head _ _ _ _ H2)).
  apply wp_bind. eapply wp_mono.
  { apply (push2_spec _ _ l1); [|done| |done].
    - eapply queue_rep_frame; [done|set_solver|done].
    - rewrite <-E. apply last_snoc. }
  intros q' m2 [Hq' Hs2]. apply wp_ret. simpl. split_and!; [done..|].
  eapply same_outside_mono; [|by eapply same_outside_trans]. set_solver.
Qed.
End specs.

(** ** Refinement: any history of operations on two queues

    A client owns two queues and the nodes that are on neither; the
    specification is the three lists. *)

Inductive qop :=
  | OPush (x : addr)          (* push x on the first queue *)
  | OPushOther (x : addr)     (* push x on the second queue *)
  | OPop                      (* pop from the first queue *)
  | OTransfer (count : Z)     (* first.transferFrom(second, count) *)
  | OTransferAll              (* first.transferAllFrom(second) *)
  | OMoveAll.                 (* second.push(first.front(), first.removeAll()) *)

Record spec_queues := mkSpec { free : list addr; first_q : list addr; second_q : list addr }.

Definition spec_op (o : qop) (s : spec_queues) : option (Z * spec_queues) :=
  let '(mkSpec F l1 l2) := s in
  match o with
  | OPush x =>
      if decide (x ∈ F) then Some (0%Z, mkSpec (remove Z.eq_dec x F) (l1 ++ [x]) l2) else None
  | OPushOther x =>
      if decide (x ∈ F) then Some (0%Z, mkSpec (remove Z.eq_dec x F) l1 (l2 ++ [x])) else None
  | OPop => match l1 with x :: l1' => Some (x, mkSpec (F ++ [x]) l1' l2) | [] => None end
  | OTransfer count =>
      if decide (l2 = [] ∨ (count < 0)%Z) then None else
      let n := taken count (length l2) in
      Some (count_after count (length l2), mkSpec F (l1 ++ take n l2) (drop n l2))
  | OTransferAll => if decide (l2 = []) then None else Some (0%Z, mkSpec F (l1 ++ l2) [])
  | OMoveAll => if decide (l1 = []) then None else Some (0%Z, mkSpec F [] (l2 ++ l1))
  end.

Definition exec_op `{Build} (o : qop) (qs : IntrusiveQueue * IntrusiveQueue)
    : M mem (Z * (IntrusiveQueue * IntrusiveQueue)) :=
  let '(q, eq) := qs in
  match o with
  | OPush x => q' ← Queue.push q x; mret (0%Z, (q', eq))
  | OPushOther x => eq' ← Queue.push eq x; mret (0%Z, (q, eq'))
  | OPop => r ← Queue.pop q; mret (r.1, (r.2, eq))
  | OTransfer count => r ← Queue.transferFrom q eq count; mret (r.2, r.1)
  | OTransferAll => r ← Queue.transferAllFrom q eq; mret (0%Z, r)
  | OMoveAll =>
      let first := Queue.front q in
      r ← Queue.removeAll q;
      eq' ← Queue.push2 eq first r.1; mret (0%Z, (r.2, eq'))
  end.

Fixpoint spec_ops (os : list qop) (s : spec_queues) : option (list Z * spec_queues) :=
  match os with
  | [] => Some ([], s)
  | o :: os =>
      r ← spec_op o s; rs ← spec_ops os r.2; Some (r.1 :: rs.1, rs.2)
  end.

Fixpoint exec_ops `{Build} (os : list qop) (qs : IntrusiveQueue * IntrusiveQueue)
    : M mem (list Z * (IntrusiveQueue * IntrusiveQueue)) :=
  match os with
  | [] => mret ([], qs)
  | o :: os => r ← exec_op o qs; rs ← exec_ops os r.2; mret (r.1 :: rs.1, rs.2)
  end.

Definition queues_rep (m : mem) (qs : IntrusiveQueue * IntrusiveQueue) (s : spec_queues) : Prop :=
  NoDup (free s ++ first_q s ++ second_q s) ∧
  (∀ x, x ∈ free s → x ≠ nullptr ∧ next_of m x = Some nullptr) ∧
  queue_rep m qs.1 (first_q s) ∧ queue_rep m qs.2 (second_q s).

Section refinement.
Context `{Build}.
Implicit Types (m : mem) (F l : list addr).

Lemma queues_rep_disjoint m qs F l1 l2 :
  queues_rep m qs (mkSpec F l1 l2) → (F ## l1) ∧ (F ## l2) ∧ (l1 ## l2).
Proof.
  intros (Hnd & _). simpl in Hnd. apply NoDup_app in Hnd as (_ & Hd & Hnd).
  apply NoDup_app in Hnd as (_ & Hd2 & _). set_solver.
Qed.

(** Moving nodes between the three lists keeps them disjoint. *)
Lemma queues_rep_intro m m' qs qs' F F' l1 l1' l2 l2' X :
  queues_rep m qs (mkSpec F l1 l2) →
  F' ++ l1' ++ l2' ≡ₚ F ++ l1 ++ l2 →
  same_outside X m m' → (∀ x, x ∈ F' → x ∈ F ∨ (x ≠ nullptr ∧ next_of m' x = Some nullptr)) →
  X ## F → queue_rep m' qs'.1 l1' → queue_rep m' qs'.2 l2' →
  queues_rep m' qs' (mkSpec F' l1' l2').
Proof.
  intros (Hnd & HF & _ & _) Hp Hs HF' HX H1 H2. split_and!; [| |done..].
  - simpl in *. by rewrite Hp.
  - intros x [Hx|Hx]%HF'; [|done]. destruct (HF x Hx). split; [done|].
    destruct Hs as [Hs _]. rewrite Hs; [done|]. set_solver.
Qed.

Lemma remove_free x F : NoDup F → x ∈ F → F ≡ₚ x :: remove Z.eq_dec x F.
Proof.
  induction F as [|y F IH]; [set_solver|]. intros [Hy Hnd]%NoDup_cons Hx. simpl.
  destruct (Z.eq_dec x y) as [->|Hne].
  - assert (remove Z.eq_dec y F = F) as ->; [|done].
    clear IH Hnd Hx. induction F as [|z F IH]; simpl; [done|].
    destruct (Z.eq_dec y z); [set_solver|]. f_equal. apply IH. set_solver.
  - rewrite <-Permutation_swap. rewrite <-IH; [done..|set_solver].
Qed.

Lemma elem_remove x y F : y ∈ remove Z.eq_dec x F → y ∈ F.
Proof. rewrite !list_elem_of_In. apply in_remove. Qed.

Lemma queues_rep_free m qs F l1 l2 x :
  queues_rep m qs (mkSpec F l1 l2) → x ∈ F →
  NoDup F ∧ x ≠ nullptr ∧ next_of m x = Some nullptr.
Proof. intros (Hnd & HF & _) Hx. apply NoDup_app in Hnd as (? & _). naive_solver. Qed.

Lemma exec_op_refines o m qs s z s' :
  queues_rep m qs s → spec_op o s = Some (z, s') →
  wp (exec_op o qs) (λ r m', r.1 = z ∧ queues_rep m' r.2 s') m.
Proof.
  intros Hr Ho. destruct s as [F l1 l2], qs as [q eq].
  pose proof (queues_rep_disjoint _ _ _ _ _ Hr) as (D1 & D2 & D3).
  pose proof Hr as (_ & _ & H1 & H2). simpl in H1, H2.
  destruct o as [x|x| |count| |]; simpl in Ho; simplify_option_eq; cbn [exec_op].
  - pose proof (queues_rep_free _ _ _ _ _ _ Hr ltac:(done)) as (HF & Hx & Hn).
    apply wp_bind. eapply wp_mono; [apply push_spec; [done|set_solver|done..]|].
    intros q' m' [Hq Hs]. split; [done|]. cbn [snd].
    eapply queues_rep_intro; [done| |done|eauto using elem_remove|set_solver|done|].
    + rewrite (remove_free x F) at 2 by done. solve_Permutation.
    + eapply queue_rep_frame; [done| |done]. set_solver.
  - pose proof (queues_rep_free _ _ _ _ _ _ Hr ltac:(done)) as (HF & Hx & Hn).
    apply wp_bind. eapply wp_mono; [apply push_spec; [done|set_solver|done..]|].
    intros q' m' [Hq Hs]. split; [done|]. cbn [snd].
    eapply queues_rep_intro; [done| |done|eauto using elem_remove|set_solver| |done].
    + rewrite (remove_free x F) at 2 by done. solve_Permutation.
    + eapply queue_rep_frame; [done| |done]. set_solver.
  - destruct l1 as [|x l1]; simplify_eq. apply wp_bind.
    eapply wp_mono; [by apply pop_spec|]. intros [y q'] m' (-> & Hq & Hn & Hs).
    split; [done|]. cbn [snd]. pose proof (queue_rep_head _ _ _ _ H1) as [_ Hx].
    eapply queues_rep_intro; [done| |done| |set_solver|done|].
    + solve_Permutation.
    + intros w [?|?%list_elem_of_singleton]%elem_of_app; naive_solver.
    + eapply queue_rep_frame; [done| |done]. set_solver.
  - apply wp_bind. eapply wp_mono; [apply transferFrom_wp; [done..|naive_solver|lia]|].
    intros [[q' eq'] c] m' (Hq & Heq & -> & Hs). split; [done|]. cbn [snd fst] in *.
    eapply queues_rep_intro; [done| |done|auto|set_solver|done..].
    rewrite <-app_assoc. by rewrite take_drop.
  - apply wp_bind. eapply wp_mono; [by apply transferAllFrom_wp|].
    intros [q' eq'] m' (Hq & Heq & Hs). split; [done|]. cbn [snd fst] in *.
    eapply queues_rep_intro; [done| |done|auto|set_solver|done|].
    + by rewrite app_nil_r.
    + by apply queue_rep_nil.
  - apply wp_bind. eapply wp_mono; [by apply removeAll_spec|].
    intros [y q'] m1 (Hy & Hh & Hq & Hseg & Hs1). cbn [snd fst] in *. subst q'.
    destruct l1 as [|x l1]; [done|]. simplify_eq/=.
    apply wp_bind. eapply wp_mono.
    { apply (push2_spec _ _ l2 _ l1); [|done|done|set_solver].
      eapply queue_rep_frame; [done| |done]. set_solver. }
    intros eq' m2 [Heq Hs2]. split; [done|]. cbn [snd fst].
    eapply queues_rep_intro;
      [done| |by eapply same_outside_trans|auto|set_solver|by apply queue_rep_nil|done].
    simpl. by rewrite (Permutation_app_comm l2).
Qed.
End refinement.

Lemma queues_rep_init F :
  NoDup F → nullptr ∉ F →
  queues_rep (fresh_mem F) (IntrusiveQueue_init, IntrusiveQueue_init) (mkSpec F [] []).
Proof.
  intros HF H0. split_and!; simpl.
  - by rewrite app_nil_r.
  - intros x Hx. split; [set_solver|by apply fresh_mem_next].
  - by apply queue_rep_nil.
  - by apply queue_rep_nil.
Qed.

(** C10. IntrusiveQueue implements a FIFO list: for every history of pushes,
    pops, partial and complete transfers between two queues that the list
    specification allows, the pointer code returns (no assertion fails, no
    null or foreign address is followed, and the bulk walk ends), it returns
    the same values, and the queues still represent the specified lists. *)
Theorem queue_refines_lists `{Build} os m qs s zs s' :
  queues_rep m qs s → spec_ops os s = Some (zs, s') →
  ∃ qs' m', exec_ops os qs m = Ok ((zs, qs'), m') ∧ queues_rep m' qs' s'.
Proof.
  intros Hr Hs.
  enough (wp (exec_ops os qs) (λ r m', r.1 = zs ∧ queues_rep m' r.2 s') m) as Hw.
  { apply wp_Ok in Hw as ([zs' qs'] & m' & E & <- & ?). eauto. }
  revert m qs s zs Hr Hs. induction os as [|o os IH]; intros m qs s zs Hr Hs; simpl in *.
  - by simplify_eq.
  - destruct (spec_op o s) as [[z s1]|] eqn:E1; simplify_eq/=.
    destruct (spec_ops os s1) as [[zs1 s2]|] eqn:E2; simplify_eq/=.
    apply wp_bind. eapply wp_mono; [by eapply exec_op_refines|].
    intros [z' qs1] m1 [-> Hr1]. apply wp_bind. eapply wp_mono; [by eapply IH|].
    intros [zs' qs'] m2 [-> Hr2]. done.
Qed.

Lemma queue_refines_lists_witness :
  let b := {| NDEBUG := false |} in
  ∃ qs' m', exec_ops (H := b)
    [OPush 16; OPushOther 32; OPushOther 48; OPushOther 64; OTransfer 2; OPop; OPop;
     OTransferAll; OMoveAll; OTransfer 0; OPop]
    (IntrusiveQueue_init, IntrusiveQueue_init) (fresh_mem [16; 32; 48; 64])%Z
    = Ok (([0; 0; 0; 0; 2; 16; 32; 0; 0; 0; 48]%Z, qs'), m') ∧
  queues_rep m' qs' (mkSpec [16; 32; 48] [] [64])%Z.
Proof.
  intros b.
  apply (queue_refines_lists (H := b) _ _ _ (mkSpec [16; 32; 48; 64]%Z [] [])).
  - apply queues_rep_init; [|set_solver]. apply (bool_decide_unpack _). by vm_compute.
  - vm_compute. reflexivity.
Defined.
