(* ===== verification/IntrusiveStack.v ===== *)
(** * IntrusiveStack

    [template<typename T,size_t ID> class IntrusiveStack] of
    [src/generic/IntrusiveContainers.h]: the singly linked LIFO stack that
    holds the cached uThreads.  The object is its [head] pointer. *)

From S2P Require Import Prelude Links.

Record IntrusiveStack := mkStack { shead : addr }.

Definition IntrusiveStack_init : IntrusiveStack := mkStack nullptr.

Module Stack.
Section ops.
Context `{Build}.

Definition empty (st : IntrusiveStack) : bool := (shead st =? nullptr)%Z.
Definition front (st : IntrusiveStack) : addr := shead st.

Definition onStack (elem : addr) : M mem bool :=
  n ← load_next elem; mret (negb (n =? nullptr)%Z).

(** [void push(T& first, T& last)] *)
Definition push2 (st : IntrusiveStack) (first last : addr) : M mem IntrusiveStack :=
  assertM (b ← onStack last; mret (negb b));;
  store_next last (shead st);;
  mret (mkStack first).

(** [void push(T& elem)] *)
Definition push (st : IntrusiveStack) (elem : addr) : M mem IntrusiveStack :=
  push2 st elem elem.

(** [T* pop()] *)
Definition pop (st : IntrusiveStack) : M mem (addr * IntrusiveStack) :=
  assertM (mret (negb (empty st)));;
  let last := shead st in
  h ← load_next last;
  store_next last nullptr;;
  mret (last, mkStack h).

(** [T* pop(size_t& count)] *)
Definition pop_count (st : IntrusiveStack) (count : Z)
    : M mem (addr * Z * IntrusiveStack) :=
  assertM (mret (negb (empty st)));;
  cl ← walk nullptr (Z.to_nat count) 1 count (shead st);
  let '(count', last) := cl in
  h ← load_next last;
  store_next last nullptr;;
  mret (last, count', mkStack h).

(** [void transferFrom(IntrusiveStack& es, size_t& count)] *)
Definition transferFrom (st es : IntrusiveStack) (count : Z)
    : M mem (IntrusiveStack * IntrusiveStack * Z) :=
  assertM (mret (negb (empty es)));;
  let first := front es in
  lce ← pop_count es count;
  let '(last, count', es') := lce in
  st' ← push2 st first last;
  mret (st', es', count').
End ops.
End Stack.

(** ** Representation: the nodes from top to bottom *)

Definition stack_rep (m : mem) (st : IntrusiveStack) (l : list addr) : Prop :=
  segment m l ∧ shead st = default nullptr (head l).

#[export] Instance stack_rep_dec m st l : Decision (stack_rep m st l).
Proof. unfold stack_rep. apply _. Defined.

Section specs.
Context `{Build}.
Implicit Types (m : mem) (l s : list addr) (st es : IntrusiveStack).

Lemma stack_rep_nil m st : stack_rep m st [] ↔ st = IntrusiveStack_init.
Proof.
  split.
  - destruct st. intros [_ E]. simpl in E. by subst.
  - intros ->. split; [|done]. split_and!; [constructor|set_solver|done].
Qed.

Lemma stack_rep_frame X m m' st l :
  same_outside X m m' → X ## l → stack_rep m st l → stack_rep m' st l.
Proof. intros ?? [? ?]. split; [by eapply segment_frame|done]. Qed.

Lemma stack_rep_head m st x l :
  stack_rep m st (x :: l) → shead st = x ∧ Stack.empty st = false.
Proof.
  intros [Hs E]. simpl in E. unfold Stack.empty. rewrite E.
  split; [done|]. apply segment_node in Hs as [? _]. by apply Z.eqb_neq.
Qed.

(** Pushing a chain prepends it. *)
Lemma stack_push2_spec m st l s y :
  stack_rep m st l → segment m (s ++ [y]) → (s ++ [y]) ## l →
  wp (Stack.push2 st (default y (head s)) y)
     (λ st' m', stack_rep m' st' (s ++ y :: l) ∧ same_outside [y] m m') m.
Proof.
  intros [Hl Hh] Hs Hd. pose proof (segment_last _ _ _ Hs) as Hy.
  apply wp_bind, wp_assert.
  { apply wp_bind, wp_bind. eapply wp_load_next; [done|]. done. }
  apply wp_bind. eapply wp_store_next; [done|]. apply wp_ret.
  split; [|apply same_outside_set_next; set_solver]. rewrite Hh.
  split; [|by destruct s].
  destruct l as [|x l].
  - exact (proj1 (segment_cut m s y [] Hs)).
  - pose proof (segment_join m s y l x Hs Hl Hd) as Hj.
    by rewrite <-app_assoc in Hj.
Qed.

Lemma stack_push_spec m st l x :
  stack_rep m st l → x ∉ l → x ≠ nullptr → next_of m x = Some nullptr →
  wp (Stack.push st x)
     (λ st' m', stack_rep m' st' (x :: l) ∧ same_outside [x] m m') m.
Proof.
  intros Hl Hx H0 Hn. apply (stack_push2_spec _ _ _ [] x); [done| |set_solver].
  split_and!; [apply NoDup_singleton|set_solver|done].
Qed.

Lemma stack_pop_spec m st x l :
  stack_rep m st (x :: l) →
  wp (Stack.pop st)
     (λ r m', r.1 = x ∧ stack_rep m' r.2 l ∧ next_of m' x = Some nullptr ∧
              same_outside [x] m m') m.
Proof.
  intros Hst. pose proof (stack_rep_head _ _ _ _ Hst) as [Hh He].
  apply wp_bind, wp_assert; [by rewrite He|]. cbv zeta. rewrite Hh.
  destruct Hst as [Hs _]. pose proof (segment_next m [] x l Hs) as Hn.
  apply wp_bind. eapply wp_load_next; [done|].
  apply wp_bind. eapply wp_store_next; [done|]. apply wp_ret. simpl.
  split_and!; [done| |by erewrite next_of_set_next_eq|].
  - split; [|done]. exact (proj2 (segment_cut m [] x l Hs)).
  - apply same_outside_set_next. set_solver.
Qed.

Lemma stack_pop_count_spec m st l count :
  stack_rep m st l → l ≠ [] → (0 ≤ count)%Z →
  wp (Stack.pop_count st count)
     (λ r m', let n := taken count (length l) in
        r.1.2 = count_after count (length l) ∧
        (∃ s, take n l = s ++ [r.1.1]) ∧
        stack_rep m' r.2 (drop n l) ∧ segment m' (take n l) ∧
        same_outside (take n l) m m') m.
Proof.
  intros Hst Hl H0. destruct l as [|x r]; [done|].
  pose proof (stack_rep_head _ _ _ _ Hst) as [Hh He].
  apply wp_bind, wp_assert; [by rewrite He|]. rewrite Hh.
  destruct Hst as [Hs _]. apply wp_bind. eapply wp_mono; [by apply walk_segment|].
  intros [c' y] m'. cbn [fst snd]. intros (-> & pre & post & E & -> & -> & ->).
  rewrite E in *. pose proof (segment_next m pre y post Hs) as Hnx.
  apply wp_bind. eapply wp_load_next; [done|].
  apply wp_bind. eapply wp_store_next; [done|]. apply wp_ret. simpl.
  split_and!; [done|eauto| |exact (proj1 (segment_cut _ _ _ _ Hs))|].
  - split; [exact (proj2 (segment_cut _ _ _ _ Hs))|done].
  - apply same_outside_set_next. set_solver.
Qed.

Lemma stack_transferFrom_wp m st es l1 l2 count :
  stack_rep m st l1 → stack_rep m es l2 → l1 ## l2 → l2 ≠ [] → (0 ≤ count)%Z →
  wp (Stack.transferFrom st es count)
     (λ r m', let n := taken count (length l2) in
        stack_rep m' r.1.1 (take n l2 ++ l1) ∧ stack_rep m' r.1.2 (drop n l2) ∧
        r.2 = count_after count (length l2)) m.
Proof.
  intros H1 H2 Hd Hl Hc. destruct l2 as [|x l2]; [done|].
  pose proof (stack_rep_head _ _ _ _ H2) as [Hh He].
  apply wp_bind, wp_assert; [by rewrite He|].
  apply wp_bind. eapply wp_mono; [by apply stack_pop_count_spec|].
  intros [[y c'] es'] m1. cbn [fst snd]. intros (-> & (s & Hs) & Hes & Hseg & Hs1).
  set (n := taken count (length (x :: l2))) in *.
  assert (Hsub : ∀ a, a ∈ take n (x :: l2) → a ∈ x :: l2) by eauto with uthreads.
  assert (Hdrop : ∀ a, a ∈ drop n (x :: l2) → a ∈ take n (x :: l2) → False).
  { destruct H2 as [(Hnd & _) _]. rewrite <-(take_drop n (x :: l2)) in Hnd.
    apply NoDup_app in Hnd as (_ & Hnd & _). intros a ??. by apply (Hnd a). }
  assert (Hf : Stack.front es = default y (head s)).
  { unfold Stack.front. rewrite Hh.
    assert (∃ k, n = S k) as [k Hk]; [exists (pred n); unfold n, taken; simpl; lia|].
    rewrite Hk in Hs. destruct s; by simplify_eq/=. }
  rewrite Hf, Hs in *. apply wp_bind. eapply wp_mono.
  { apply (stack_push2_spec _ _ l1); [|done|set_solver].
    eapply stack_rep_frame; [done|set_solver|done]. }
  intros st' m2 [Hst' Hs2]. apply wp_ret. simpl. rewrite <-app_assoc.
  split_and!; [done| |done].
  eapply stack_rep_frame; [done| |done]. intros a Ha Ha2. apply (Hdrop a Ha2). set_solver.
Qed.
End specs.

(** The stack's bulk transfer moves the topmost nodes of one stack on
    top of another and keeps their order: at least one node, at most
    [count], at most all; both stacks stay well formed, [count] reports what
    was moved (except that 0 stays 0 although one node moves). *)
Theorem stack_transferFrom_spec `{Build} m st es l1 l2 count :
  stack_rep m st l1 → stack_rep m es l2 → l1 ## l2 → l2 ≠ [] → (0 ≤ count)%Z →
  ∃ st' es' m',
    Stack.transferFrom st es count m =
      Ok ((st', es', count_after count (length l2)), m') ∧
    stack_rep m' st' (take (taken count (length l2)) l2 ++ l1) ∧
    stack_rep m' es' (drop (taken count (length l2)) l2).
Proof.
  intros H1 H2 Hd Hl Hc.
  pose proof (stack_transferFrom_wp m st es l1 l2 count H1 H2 Hd Hl Hc) as Hw.
  apply wp_Ok in Hw as ([[st' es'] c] & m' & E & ? & ? & Hz). simpl in *. subst. eauto 10.
Qed.

Lemma stack_transferFrom_spec_witness :
  let b := {| NDEBUG := false |} in
  let m : mem := list_to_map
    [(16, mkLink 0 32); (32, mkLink 0 48); (48, mkLink 0 0); (64, mkLink 0 0)]%Z in
  ∃ st' es' m',
    Stack.transferFrom (H := b) (mkStack 64) (mkStack 16) 2 m = Ok ((st', es', 2%Z), m') ∧
    stack_rep m' st' [16; 32; 64]%Z ∧ stack_rep m' es' [48]%Z.
Proof.
  intros b m.
  apply (stack_transferFrom_spec (H := b) m (mkStack 64) (mkStack 16) [64]%Z
           [16; 32; 48]%Z 2).
  - apply (bool_decide_unpack _). by vm_compute.
  - apply (bool_decide_unpack _). by vm_compute.
  - set_solver.
  - done.
  - done.
Defined.
