(* ===== verification/IntrusiveList.v ===== *)
(** * IntrusiveList

    [template<typename T, size_t ID> class IntrusiveList] of
    [src/generic/IntrusiveContainers.h]: the circular doubly linked list with
    an anchor, behind [BlockingQueue] (uThreads blocked on a mutex, condition
    variable or semaphore) and the stack of idle kThreads of scheduler 1.
    The list is named by the address of its anchor, a link of the memory. *)

From S2P Require Import Prelude Links.

Module DList.
Section ops.
Context `{Build}.

(** [IntrusiveList() { anchor.next = anchor.prev = &anchor; }] *)
Definition init (anchor : addr) : M mem unit :=
  store_prev anchor anchor;; store_next anchor anchor.

Definition empty (anchor : addr) : M mem bool :=
  n ← load_next anchor; mret (anchor =? n)%Z.
Definition fence (anchor : addr) : addr := anchor.
Definition front (anchor : addr) : M mem addr := load_next anchor.
Definition back (anchor : addr) : M mem addr := load_prev anchor.

Definition onList (elem : addr) : M mem bool :=
  assertM (p ← load_prev elem; n ← load_next elem;
           mret (eqb (p =? nullptr)%Z (n =? nullptr)%Z));;
  n ← load_next elem; mret (negb (n =? nullptr)%Z).

Definition insert_before (nxt elem : addr) : M mem unit :=
  assertM (b ← onList elem; mret (negb b));;
  assertM (onList nxt);;
  p ← load_prev nxt; store_next p elem;;
  p' ← load_prev nxt; store_prev elem p';;
  store_prev nxt elem;;
  store_next elem nxt.

(** [insert_after(T& prev, T& first, T& last)] *)
Definition insert_after (prv first last : addr) : M mem unit :=
  assertM (p ← load_prev first; mret (p =? nullptr)%Z);;
  assertM (n ← load_next last; mret (n =? nullptr)%Z);;
  assertM (onList prv);;
  n ← load_next prv; store_prev n last;;
  n' ← load_next prv; store_next last n';;
  store_next prv first;;
  store_prev first prv.

Definition remove (elem : addr) : M mem addr :=
  assertM (onList elem);;
  p ← load_prev elem; n ← load_next elem; store_next p n;;
  n' ← load_next elem; p' ← load_prev elem; store_prev n' p';;
  store_prev elem nullptr;;
  store_next elem nullptr;;
  mret elem.

(** [T* remove(T& first, size_t& count)] *)
Definition remove_count (anchor first : addr) (count : Z) : M mem (addr * Z) :=
  assertM (onList first);;
  cl ← walk (fence anchor) (Z.to_nat count) 1 count first;
  let '(count', last) := cl in
  p ← load_prev first; n ← load_next last; store_next p n;;
  n' ← load_next last; p' ← load_prev first; store_prev n' p';;
  store_prev first nullptr;;
  store_next last nullptr;;
  mret (last, count').

Definition removeAll (anchor : addr) : M mem addr :=
  assertM (e ← empty anchor; mret (negb e));;
  first ← front anchor;
  last ← back anchor;
  store_prev first nullptr;;
  store_next last nullptr;;
  mret last.

Definition push_front (anchor elem : addr) : M mem unit :=
  f ← front anchor; insert_before f elem.
Definition push_back (anchor elem : addr) : M mem unit :=
  b ← back anchor; insert_after b elem elem.
Definition splice_back (anchor first last : addr) : M mem unit :=
  b ← back anchor; insert_after b first last.

Definition pop_front (anchor : addr) : M mem addr :=
  assertM (e ← empty anchor; mret (negb e));;
  f ← front anchor; remove f.
Definition pop_back (anchor : addr) : M mem addr :=
  assertM (e ← empty anchor; mret (negb e));;
  b ← back anchor; remove b.

(** [void transferFrom(IntrusiveList& el, size_t& count)] *)
Definition transferFrom (anchor el : addr) (count : Z) : M mem Z :=
  assertM (e ← empty el; mret (negb e));;
  first ← front el;
  lc ← remove_count el first count;
  splice_back anchor first lc.1;;
  mret lc.2.

(** [void transferAllFrom(IntrusiveList& el)] *)
Definition transferAllFrom (anchor el : addr) : M mem unit :=
  assertM (e ← empty el; mret (negb e));;
  first ← front el;
  last ← back el;
  store_prev first nullptr;;
  store_next last nullptr;;
  store_prev el el;; store_next el el;;
  splice_back anchor first last.
End ops.
End DList.

(** ** Representation: from the anchor around the ring and back *)

Definition dlist_rep (m : mem) (a : addr) (l : list addr) : Prop :=
  NoDup (a :: l) ∧ (nullptr ∉ a :: l) ∧ dchain m (a :: l ++ [a]).

#[export] Instance dlist_rep_dec m a l : Decision (dlist_rep m a l).
Proof. unfold dlist_rep. apply _. Defined.

Section rings.
Implicit Types (m : mem) (l s u v : list addr).

Lemma dchain_frame m m' y v u z :
  y :: v = u ++ [z] →
  (∀ x, x ∈ u → next_of m' x = next_of m x) →
  (∀ x, x ∈ v → prev_of m' x = prev_of m x) →
  dchain m (y :: v) → dchain m' (y :: v).
Proof.
  destruct u as [|y' u]; simpl; intros E Hn Hp Hd; simplify_eq; [done|].
  by eapply dchain_ext.
Qed.

(** Two chains meet at a link from the last node to the first. *)
Lemma dchain_glue m u p n v :
  dchain m (u ++ p :: n :: v) ↔
  dchain m (u ++ [p]) ∧ next_of m p = Some n ∧ prev_of m n = Some p ∧ dchain m (n :: v).
Proof. rewrite dchain_app, dchain_cons2. tauto. Qed.

Lemma ring_eq a l1 l2 : a :: (l1 ++ l2) ++ [a] = (a :: l1) ++ (l2 ++ [a]).
Proof. simpl. by rewrite app_assoc. Qed.

Lemma ring_nodup a l1 l2 u p n v :
  NoDup (a :: l1 ++ l2) → a :: l1 = u ++ [p] → l2 ++ [a] = n :: v →
  (p ∈ a :: l1 ++ l2) ∧ (n ∈ a :: l1 ++ l2) ∧
  (∀ x, x ∈ u → x ≠ p ∧ x ∈ a :: l1 ++ l2) ∧ (∀ x, x ∈ l1 → x ≠ n ∧ x ∈ a :: l1 ++ l2) ∧
  (∀ x, x ∈ l2 → x ≠ p ∧ x ∈ a :: l1 ++ l2) ∧ (∀ x, x ∈ v → x ≠ n ∧ x ∈ a :: l1 ++ l2).
Proof.
  intros [Ha (Hl1 & Hd & Hl2)%NoDup_app]%NoDup_cons E1 E2.
  assert (Hp : p ∈ a :: l1) by (rewrite E1; set_solver).
  assert (Hn : n ∈ l2 ++ [a]) by (rewrite E2; set_solver).
  assert (Hu : ∀ x, x ∈ u → x ∈ a :: l1) by (rewrite E1; set_solver).
  assert (Hv : ∀ x, x ∈ v → x ∈ l2 ++ [a]) by (rewrite E2; set_solver).
  assert (NoDup (a :: l1)) as Hal by (apply NoDup_cons; set_solver).
  assert (NoDup (l2 ++ [a])) as Hla.
  { apply NoDup_app. split_and!; [done|set_solver|apply NoDup_singleton]. }
  rewrite E1 in Hal. apply NoDup_app in Hal as (_ & Hal & _).
  rewrite E2 in Hla. apply NoDup_cons in Hla as [Hla _].
  clear E1 E2 Hl1 Hl2. split_and!; set_solver.
Qed.

(** The ring minus a cut between [p] and [n] is untouched by changes of
    [next] at [p] and outside the ring and of [prev] at [n] and outside. *)
Lemma ring_frame m m' a l1 l2 u p n v f t :
  NoDup (a :: l1 ++ l2) → a :: l1 = u ++ [p] → l2 ++ [a] = n :: v →
  f ∉ a :: l1 ++ l2 → t ∉ a :: l1 ++ l2 →
  (∀ x, x ≠ p → x ≠ t → next_of m' x = next_of m x) →
  (∀ x, x ≠ n → x ≠ f → prev_of m' x = prev_of m x) →
  (dchain m (u ++ [p]) → dchain m' (u ++ [p])) ∧ (dchain m (n :: v) → dchain m' (n :: v)).
Proof.
  intros Hnd E1 E2 Hf Ht Hnx Hpv.
  pose proof (ring_nodup _ _ _ _ _ _ _ Hnd E1 E2) as (_ & _ & Hu & Hl1 & Hl2 & Hv). split.
  - rewrite <-E1. apply (dchain_frame _ _ _ _ _ _ E1); intros x Hx.
    + apply Hu in Hx as [? ?]. apply Hnx; [done|congruence].
    + apply Hl1 in Hx as [? ?]. apply Hpv; [done|congruence].
  - apply (dchain_frame _ _ _ _ _ _ (eq_sym E2)); intros x Hx.
    + apply Hl2 in Hx as [? ?]. apply Hnx; [done|congruence].
    + apply Hv in Hx as [? ?]. apply Hpv; [done|congruence].
Qed.

(** Likewise for the chain [s], from [f] to [t], next to a ring. *)
Lemma seg_frame m m' s p n f s' w t :
  s = f :: s' → s = w ++ [t] → NoDup s → p ∉ s → n ∉ s →
  (∀ x, x ≠ p → x ≠ t → next_of m' x = next_of m x) →
  (∀ x, x ≠ n → x ≠ f → prev_of m' x = prev_of m x) →
  dchain m s → dchain m' s.
Proof.
  intros Ef Et Hnd Hp Hn Hnx Hpv. subst s.
  assert (Hw : t ∉ w) by (rewrite Et in Hnd; apply NoDup_app in Hnd as (_ & ? & _); set_solver).
  apply NoDup_cons in Hnd as [Hf _].
  assert (Hws : ∀ x, x ∈ w → x ∈ f :: s') by (rewrite Et; set_solver).
  apply (dchain_frame _ _ _ _ _ _ Et); intros x Hx.
  - apply Hnx; [|congruence]. intros ->. by apply Hp, Hws.
  - apply Hpv; [|congruence]. intros ->. apply Hn. set_solver.
Qed.

Lemma nodup_three a l1 s l2 :
  NoDup (a :: l1 ++ s ++ l2) ↔ NoDup s ∧ (s ## (a :: l1 ++ l2)) ∧ NoDup (a :: l1 ++ l2).
Proof.
  assert (a :: l1 ++ s ++ l2 ≡ₚ s ++ a :: l1 ++ l2) as -> by solve_Permutation.
  rewrite NoDup_app. split; intros (? & ? & ?); split_and!; try done; set_solver.
Qed.

(** Inserting the chain [s] between [p] and [n]. *)
Lemma ring_insert m m' a l1 l2 s u p n v f s' w t :
  dlist_rep m a (l1 ++ l2) → a :: l1 = u ++ [p] → l2 ++ [a] = n :: v →
  dchain m s → s = f :: s' → s = w ++ [t] → NoDup s → nullptr ∉ s →
  s ## (a :: l1 ++ l2) →
  next_of m' p = Some f → prev_of m' f = Some p →
  next_of m' t = Some n → prev_of m' n = Some t →
  (∀ x, x ≠ p → x ≠ t → next_of m' x = next_of m x) →
  (∀ x, x ≠ n → x ≠ f → prev_of m' x = prev_of m x) →
  dlist_rep m' a (l1 ++ s ++ l2).
Proof.
  intros (Hnd & H0 & Hd) E1 E2 Hs Ef Et Hnds H0s Hdis Hp Hf Ht Hn Hnx Hpv.
  pose proof (ring_nodup _ _ _ _ _ _ _ Hnd E1 E2) as (Hp1 & Hn1 & _).
  assert (Hfs : f ∈ s) by (rewrite Ef; set_solver).
  assert (Hts : t ∈ s) by (rewrite Et; set_solver).
  destruct (ring_frame m m' _ _ _ _ _ _ _ f t Hnd E1 E2) as [F1 F2];
    [by intros ?; apply (Hdis f)|by intros ?; apply (Hdis t)|done..|].
  pose proof (seg_frame m m' s p n f s' w t Ef Et Hnds
    (λ h, Hdis p h Hp1) (λ h, Hdis n h Hn1) Hnx Hpv Hs) as Hs'.
  rewrite ring_eq, E1, E2, <-app_assoc in Hd. simpl in Hd.
  apply dchain_glue in Hd as (Hd1%F1 & _ & _ & Hd2%F2).
  split_and!; [by apply nodup_three| |].
  - rewrite !not_elem_of_cons, !not_elem_of_app in *. tauto.
  - rewrite ring_eq, <-app_assoc, E1, E2, Et, <-!app_assoc. simpl. rewrite Et in Hs'.
    clear -Ef Et Hd1 Hd2 Hs' Hp Hf Ht Hn.
    destruct w as [|f' w]; simplify_eq/=.
    + apply dchain_glue. split_and!; [done..|]. by apply dchain_cons2.
    + apply dchain_glue. split_and!; [done..|].
      rewrite app_comm_cons in *. apply dchain_glue. done.
Qed.

(** Unlinking the chain [s] between [p] and [n]. *)
Lemma ring_remove m m' a l1 l2 s u p n v f s' w t :
  dlist_rep m a (l1 ++ s ++ l2) → a :: l1 = u ++ [p] → l2 ++ [a] = n :: v →
  s = f :: s' → s = w ++ [t] →
  next_of m' p = Some n → prev_of m' n = Some p →
  (∀ x, x ≠ p → x ≠ t → next_of m' x = next_of m x) →
  (∀ x, x ≠ n → x ≠ f → prev_of m' x = prev_of m x) →
  dlist_rep m' a (l1 ++ l2) ∧ dchain m' s.
Proof.
  intros (Hnd & H0 & Hd) E1 E2 Ef Et Hp Hn Hnx Hpv.
  apply nodup_three in Hnd as (Hnds & Hdis & Hnd).
  pose proof (ring_nodup _ _ _ _ _ _ _ Hnd E1 E2) as (Hp1 & Hn1 & _).
  assert (Hfs : f ∈ s) by (rewrite Ef; set_solver).
  assert (Hts : t ∈ s) by (rewrite Et; set_solver).
  destruct (ring_frame m m' _ _ _ _ _ _ _ f t Hnd E1 E2) as [F1 F2];
    [by intros ?; apply (Hdis f)|by intros ?; apply (Hdis t)|done..|].
  assert (Hpre : dchain m (u ++ [p]) ∧ dchain m s ∧ dchain m (n :: v)).
  { rewrite ring_eq, <-app_assoc, E1, E2 in Hd. rewrite Et in Hd |- *.
    rewrite <-!app_assoc in Hd. simpl in Hd. clear -Hd Ef Et.
    destruct w as [|f' w]; simplify_eq/=.
    - apply dchain_glue in Hd as (? & ? & ? & Hd).
      apply dchain_cons2 in Hd as (? & ? & ?). done.
    - apply dchain_glue in Hd as (? & ? & ? & Hd).
      rewrite app_comm_cons in Hd. apply dchain_glue in Hd as (? & ? & ? & ?). done. }
  destruct Hpre as (Hd1%F1 & Hs & Hd2%F2). split; [split_and!; [done| |]|].
  - rewrite !not_elem_of_cons, !not_elem_of_app in *. tauto.
  - rewrite ring_eq, E1, E2, <-app_assoc. simpl. by apply dchain_glue.
  - exact (seg_frame m m' s p n f s' w t Ef Et Hnds
      (λ h, Hdis p h Hp1) (λ h, Hdis n h Hn1) Hnx Hpv Hs).
Qed.
End rings.

(** ** The operations, on the list of nodes *)

(** A node on no list, as its constructor leaves it. *)
Definition off_list (m : mem) (x : addr) : Prop :=
  x ≠ nullptr ∧ next_of m x = Some nullptr ∧ prev_of m x = Some nullptr.

(** A detached chain: linked both ways, null at its two ends. *)
Definition dsegment (m : mem) (s : list addr) (f t : addr) : Prop :=
  NoDup s ∧ (nullptr ∉ s) ∧ dchain m s ∧ head s = Some f ∧ last s = Some t ∧
  prev_of m f = Some nullptr ∧ next_of m t = Some nullptr.

(** All links outside [X] are unchanged. *)
Definition untouched (X : list addr) (m m' : mem) : Prop :=
  ∀ x, x ∉ X → next_of m' x = next_of m x ∧ prev_of m' x = prev_of m x.

Section specs.
Context `{Build}.
Implicit Types (m : mem) (l s : list addr).

Lemma dchain_next_in m u z x :
  dchain m (u ++ [z]) → x ∈ u → ∃ y, next_of m x = Some y ∧ y ∈ u ++ [z].
Proof.
  intros Hd (u1 & u2 & ->)%list_elem_of_split. rewrite <-app_assoc in Hd |- *.
  simpl in *. apply dchain_app in Hd as [_ Hd].
  destruct u2; simpl in Hd; destruct Hd as [-> _]; set_solver.
Qed.
Lemma dchain_prev_in m y v x :
  dchain m (y :: v) → x ∈ v → ∃ z, prev_of m x = Some z ∧ z ∈ y :: v.
Proof.
  revert y. induction v as [|w v IH]; [set_solver|].
  intros y (_ & Hp & Hd)%dchain_cons2 [->|Hx]%elem_of_cons; [set_solver|].
  destruct (IH w Hd Hx) as (z & -> & ?). set_solver.
Qed.

(** Every node of the ring, the anchor included, has live neighbours. *)
Lemma dlist_node m a l x :
  dlist_rep m a l → x ∈ a :: l →
  ∃ n p, next_of m x = Some n ∧ prev_of m x = Some p ∧ n ≠ nullptr ∧ p ≠ nullptr.
Proof.
  intros (_ & H0 & Hd) Hx.
  destruct (dchain_next_in m (a :: l) a x Hd Hx) as (n & Hn & Hn').
  destruct (dchain_prev_in m a (l ++ [a]) x Hd) as (p & Hp & Hp'); [set_solver|].
  exists n, p. split_and!; [done|done|set_solver..].
Qed.

Lemma wp_onList_true m a l x (Q : unit → mem → Prop) :
  dlist_rep m a l → x ∈ a :: l → Q tt m → wp (assertM (DList.onList x)) Q m.
Proof.
  intros Hl Hx HQ. destruct (dlist_node m a l x Hl Hx) as (n & p & Hn & Hp & Hn0 & Hp0).
  apply wp_assert; [|done]. apply wp_bind, wp_assert.
  - apply wp_bind. eapply wp_load_prev; [done|]. apply wp_bind.
    eapply wp_load_next; [done|]. apply wp_ret.
    by rewrite !(proj2 (Z.eqb_neq _ _)) by done.
  - apply wp_bind. eapply wp_load_next; [done|]. apply wp_ret.
    by rewrite (proj2 (Z.eqb_neq _ _)) by done.
Qed.
Lemma wp_onList_false m x (Q : unit → mem → Prop) :
  off_list m x → Q tt m → wp (assertM (b ← DList.onList x; mret (negb b))) Q m.
Proof.
  intros (_ & Hn & Hp) HQ. apply wp_assert; [|done].
  apply wp_bind, wp_bind, wp_assert.
  - apply wp_bind. eapply wp_load_prev; [done|]. apply wp_bind.
    eapply wp_load_next; [done|]. done.
  - apply wp_bind. eapply wp_load_next; [done|]. done.
Qed.

(** The two sides of a cut of the ring. *)
Lemma ring_cut a l1 l2 :
  ∃ u p n v, a :: l1 = u ++ [p] ∧ l2 ++ [a] = n :: v.
Proof.
  destruct (exists_last (l := a :: l1)) as (u & p & E); [done|].
  exists u, p. rewrite E. destruct l2; simpl; eauto.
Qed.
Lemma ring_link m a l1 l2 u p n v :
  dlist_rep m a (l1 ++ l2) → a :: l1 = u ++ [p] → l2 ++ [a] = n :: v →
  next_of m p = Some n ∧ prev_of m n = Some p.
Proof.
  intros (_ & _ & Hd) E1 E2. rewrite ring_eq, E1, E2, <-app_assoc in Hd.
  simpl in Hd. apply dchain_glue in Hd. tauto.
Qed.
Lemma cut_last a l1 u p : a :: l1 = u ++ [p] → p = default a (last l1).
Proof.
  intros E. assert (last (a :: l1) = Some p) by (rewrite E; apply last_snoc).
  destruct (exists_last (l := a :: l1)) as (u' & p' & E'); [done|].
  destruct l1 as [|x l1] using rev_ind; simplify_eq/=; [done|].
  rewrite app_comm_cons, last_snoc in *. by simplify_eq.
Qed.
Lemma cut_head (a : addr) l2 n v : l2 ++ [a] = n :: v → n = default a (head l2).
Proof. destruct l2; simpl; by intros; simplify_eq. Qed.

Lemma insert_before_spec m a l1 l2 e :
  dlist_rep m a (l1 ++ l2) → off_list m e → e ∉ a :: l1 ++ l2 →
  wp (DList.insert_before (default a (head l2)) e)
     (λ _ m', dlist_rep m' a (l1 ++ e :: l2) ∧ untouched (e :: a :: l1 ++ l2) m m') m.
Proof.
  intros Hl He Hin. destruct (ring_cut a l1 l2) as (u & p & n & v & E1 & E2).
  rewrite <-(cut_head _ _ _ _ E2). pose proof Hl as (Hnd & H0 & _).
  pose proof (ring_nodup _ _ _ _ _ _ _ Hnd E1 E2) as (Hp1 & Hn1 & _).
  pose proof (ring_link _ _ _ _ _ _ _ _ Hl E1 E2) as [Hpn Hnp].
  apply wp_bind, wp_onList_false; [done|].
  apply wp_bind. eapply wp_onList_true; [done..|].
  destruct He as (He0 & Hen & Hep).
  assert (e ≠ p ∧ e ≠ n) as [Hep' Hen'] by set_solver.
  apply wp_bind. eapply wp_load_prev; [done|].
  apply wp_bind. eapply wp_store_next; [done|].
  apply wp_bind. eapply wp_load_prev; [solve [lk]|].
  apply wp_bind. eapply wp_store_prev; [solve [lk]|].
  apply wp_bind. eapply wp_store_prev; [solve [lk]|].
  eapply wp_store_next; [solve [lk]|].
  split.
  - apply (ring_insert m _ a l1 l2 [e] u p n v e [] [] e);
      [done..|apply NoDup_singleton|set_solver|set_solver|lk|lk|lk|lk| |]; intros x ??; lk.
  - intros x (Hx1 & Hx2)%not_elem_of_cons.
    assert (x ≠ p ∧ x ≠ n) as [? ?] by (split; intros ->; done). split; lk.
Qed.

Lemma insert_after_spec m a l1 l2 s f t :
  dlist_rep m a (l1 ++ l2) → dsegment m s f t → s ## (a :: l1 ++ l2) →
  wp (DList.insert_after (default a (last l1)) f t)
     (λ _ m', dlist_rep m' a (l1 ++ s ++ l2) ∧ untouched (s ++ a :: l1 ++ l2) m m') m.
Proof.
  intros Hl (Hnds & H0s & Hs & Hf & Ht & Hfp & Htn) Hdis.
  destruct (ring_cut a l1 l2) as (u & p & n & v & E1 & E2).
  rewrite <-(cut_last _ _ _ _ E1). pose proof Hl as (Hnd & H0 & _).
  pose proof (ring_nodup _ _ _ _ _ _ _ Hnd E1 E2) as (Hp1 & Hn1 & _).
  pose proof (ring_link _ _ _ _ _ _ _ _ Hl E1 E2) as [Hpn Hnp].
  apply head_Some in Hf as [s' Ef]. apply last_Some in Ht as [w Et].
  assert (Hfs : f ∈ s) by (rewrite Ef; set_solver).
  assert (Hts : t ∈ s) by (rewrite Et; set_solver).
  assert (f ≠ n) by (intros ->; by apply (Hdis n)).
  assert (t ≠ p) by (intros ->; by apply (Hdis p)).
  apply wp_bind, wp_assert; [apply wp_bind; by eapply wp_load_prev|].
  apply wp_bind, wp_assert; [apply wp_bind; by eapply wp_load_next|].
  apply wp_bind. eapply wp_onList_true; [done..|].
  apply wp_bind. eapply wp_load_next; [done|].
  apply wp_bind. eapply wp_store_prev; [done|].
  apply wp_bind. eapply wp_load_next; [solve [lk]|].
  apply wp_bind. eapply wp_store_next; [solve [lk]|].
  apply wp_bind. eapply wp_store_next; [solve [lk]|].
  eapply wp_store_prev; [solve [lk]|].
  split.
  - apply (ring_insert m _ a l1 l2 s u p n v f s' w t);
      [done..|lk|lk|lk|lk| |]; intros x ??; lk.
  - intros x (Hx1 & Hx2)%not_elem_of_app.
    assert (x ≠ p ∧ x ≠ n) as [? ?] by (split; intros ->; done).
    assert (x ≠ f ∧ x ≠ t) as [? ?] by (split; intros ->; done). split; lk.
Qed.

Lemma off_list_dsegment m x : off_list m x → dsegment m [x] x x.
Proof. intros (? & ? & ?). split_and!; try done; [apply NoDup_singleton|set_solver]. Qed.

Lemma remove_spec m a l1 l2 e :
  dlist_rep m a (l1 ++ e :: l2) →
  wp (DList.remove e)
     (λ r m', r = e ∧ dlist_rep m' a (l1 ++ l2) ∧ off_list m' e ∧
              untouched (a :: l1 ++ e :: l2) m m') m.
Proof.
  intros Hl. destruct (ring_cut a l1 l2) as (u & p & n & v & E1 & E2).
  pose proof Hl as (Hnd & H0 & _).
  apply (nodup_three a l1 [e] l2) in Hnd as (_ & Hdis & Hnd).
  pose proof (ring_nodup _ _ _ _ _ _ _ Hnd E1 E2) as (Hp1 & Hn1 & _).
  pose proof (ring_link m a l1 (e :: l2) u p e (l2 ++ [a]) Hl E1 eq_refl) as [Hpe Hep].
  assert (e ≠ p ∧ e ≠ n) as [Hnep Hnen] by set_solver.
  assert (next_of m e = Some n ∧ prev_of m n = Some e) as [Hen Hne].
  { assert (Hl' := Hl). rewrite cons_middle, app_assoc in Hl'.
    apply (ring_link m a _ _ (a :: l1) _ _ v Hl'); done. }
  assert (He : e ∈ a :: l1 ++ e :: l2) by set_solver.
  apply wp_bind. eapply wp_onList_true; [done..|].
  apply wp_bind. eapply wp_load_prev; [done|].
  apply wp_bind. eapply wp_load_next; [done|].
  apply wp_bind. eapply wp_store_next; [done|].
  apply wp_bind. eapply wp_load_next; [solve [lk]|].
  apply wp_bind. eapply wp_load_prev; [solve [lk]|].
  apply wp_bind. eapply wp_store_prev; [solve [lk]|].
  apply wp_bind. eapply wp_store_prev; [solve [lk]|].
  apply wp_bind. eapply wp_store_next; [solve [lk]|].
  apply wp_ret. split_and!; [done| | |].
  - apply (ring_remove m _ a l1 l2 [e] u p n v e [] [] e);
      [done..|lk|lk| |]; intros x ??; lk.
  - split_and!; [set_solver|lk|lk].
  - intros x Hx. assert (x ≠ p ∧ x ≠ n ∧ x ≠ e) as (? & ? & ?)
      by (split_and!; intros ->; set_solver). split; lk.
Qed.

Lemma ring_links m a l1 s l2 u p n v f s' w t :
  dlist_rep m a (l1 ++ s ++ l2) → a :: l1 = u ++ [p] → l2 ++ [a] = n :: v →
  s = f :: s' → s = w ++ [t] →
  next_of m p = Some f ∧ prev_of m f = Some p ∧ next_of m t = Some n ∧ prev_of m n = Some t.
Proof.
  intros Hl E1 E2 Ef Et.
  destruct (ring_link m a l1 (s ++ l2) u p f (s' ++ l2 ++ [a]) Hl E1) as [? ?].
  { by rewrite Ef, <-app_assoc. }
  rewrite app_assoc in Hl.
  destruct (ring_link m a (l1 ++ s) l2 (a :: l1 ++ w) t n v Hl) as [? ?]; [|done..].
  rewrite Et. simpl. by rewrite <-app_assoc.
Qed.

(** [remove(first, count)] unlinks the nodes from [first] on: [count] of
    them, at least one, at most up to the end of the list. *)
Lemma remove_count_spec m a l1 f r count :
  dlist_rep m a (l1 ++ f :: r) → (0 ≤ count)%Z →
  wp (DList.remove_count a f count)
     (λ lc m', let n := taken count (length (f :: r)) in
        lc.2 = count_after count (length (f :: r)) ∧
        dlist_rep m' a (l1 ++ drop n (f :: r)) ∧
        dsegment m' (take n (f :: r)) f lc.1 ∧
        untouched (a :: l1 ++ f :: r) m m') m.
Proof.
  intros Hl Hc. pose proof Hl as (Hnd & H0 & Hd).
  assert (Hf : f ∈ a :: l1 ++ f :: r) by set_solver.
  apply wp_bind. eapply wp_onList_true; [done..|].
  assert (Hch : chain m (f :: r ++ [a])).
  { apply dchain_chain. rewrite ring_eq in Hd.
    change ((f :: r) ++ [a]) with (f :: r ++ [a]) in Hd. by apply dchain_app in Hd as [_ ?]. }
  assert (Har : a ∉ r) by (apply NoDup_cons in Hnd as [? _]; set_solver).
  apply wp_bind. eapply wp_mono; [by apply (walk_taken a m f r)|].
  intros [c' t] m'. cbn [fst snd]. intros (-> & w & l2 & E & Et & Hdr & ->).
  unfold DList.fence in *. rewrite Et, Hdr. clear Et Hdr.
  rewrite cons_middle, app_assoc in E. remember (w ++ [t]) as s eqn:Et.
  assert (∃ s', s = f :: s') as [s' Ef].
  { subst s. destruct w; simplify_eq/=; eauto. }
  rewrite E in *. clear E. apply nodup_three in Hnd as (Hnds & Hdis & Hnd).
  destruct (ring_cut a l1 l2) as (u & p & n & v & E1 & E2).
  pose proof (ring_nodup _ _ _ _ _ _ _ Hnd E1 E2) as (Hp1 & Hn1 & _).
  pose proof (ring_links _ _ _ _ _ _ _ _ _ _ _ _ _ Hl E1 E2 Ef Et) as (Hpf & Hfp & Htn & Hnt).
  assert (Hfs : f ∈ s) by (rewrite Ef; set_solver).
  assert (Hts : t ∈ s) by (rewrite Et; set_solver).
  assert (f ≠ n) by (intros ->; by apply (Hdis n)).
  assert (t ≠ p) by (intros ->; by apply (Hdis p)).
  apply wp_bind. eapply wp_load_prev; [done|].
  apply wp_bind. eapply wp_load_next; [done|].
  apply wp_bind. eapply wp_store_next; [done|].
  apply wp_bind. eapply wp_load_next; [solve [lk]|].
  apply wp_bind. eapply wp_load_prev; [solve [lk]|].
  apply wp_bind. eapply wp_store_prev; [solve [lk]|].
  apply wp_bind. eapply wp_store_prev; [solve [lk]|].
  apply wp_bind. eapply wp_store_next; [solve [lk]|].
  apply wp_ret. cbn [fst snd]. set (m' := set_next t _ _).
  destruct (ring_remove m m' a l1 l2 s u p n v f s' w t) as [Hr Hs];
    [done..|unfold m'; lk|unfold m'; lk|unfold m'; intros x ??; lk|unfold m'; intros x ??; lk|].
  split_and!; [done|done| |].
  - split_and!; [done| |done|by rewrite Ef|by rewrite Et, last_snoc|unfold m'; lk..].
    rewrite not_elem_of_cons, !not_elem_of_app in H0. tauto.
  - intros x Hx. rewrite not_elem_of_cons, !not_elem_of_app in Hx.
    assert (x ≠ p ∧ x ≠ n) as (? & ?) by (split_and!; intros ->; set_solver).
    assert (x ≠ f ∧ x ≠ t) as (? & ?) by (split_and!; intros ->; tauto).
    unfold m'. split; lk.
Qed.

Lemma untouched_trans X Y m1 m2 m3 :
  untouched X m1 m2 → untouched Y m2 m3 → untouched (X ++ Y) m1 m3.
Proof.
  intros H1 H2 x [HX HY]%not_elem_of_app.
  destruct (H1 x HX) as [<- <-], (H2 x HY) as [<- <-]. done.
Qed.
Lemma untouched_mono X Y m m' :
  (∀ x, x ∈ X → x ∈ Y) → untouched X m m' → untouched Y m m'.
Proof. intros HXY Hu x Hx. apply Hu. set_solver. Qed.
Lemma dlist_rep_frame X m m' a l :
  untouched X m m' → X ## (a :: l) → dlist_rep m a l → dlist_rep m' a l.
Proof.
  intros Hu Hd (Hnd & H0 & Hc). split_and!; [done..|].
  eapply dchain_ext; [| |done]; intros x Hx; apply Hu; set_solver.
Qed.
Lemma off_list_frame X m m' x : untouched X m m' → x ∉ X → off_list m x → off_list m' x.
Proof.
  intros Hu Hx (? & ? & ?). destruct (Hu x Hx) as [E1 E2].
  unfold off_list. by rewrite E1, E2.
Qed.

Lemma dlist_front m a l : dlist_rep m a l → next_of m a = Some (default a (head l)).
Proof.
  intros Hl. destruct (ring_cut a [] l) as (u & p & n & v & E1 & E2).
  rewrite <-(cut_head _ _ _ _ E2). destruct u as [|? [|]]; simplify_eq/=.
  by destruct (ring_link m p [] l [] p n v Hl eq_refl E2).
Qed.
Lemma dlist_back m a l : dlist_rep m a l → prev_of m a = Some (default a (last l)).
Proof.
  intros Hl. destruct (ring_cut a l []) as (u & p & n & v & E1 & E2).
  rewrite <-(cut_last _ _ _ _ E1). simplify_eq/=.
  rewrite <-(app_nil_r l) in Hl. by destruct (ring_link m n l [] u p n [] Hl E1 eq_refl).
Qed.

Lemma wp_dlist_not_empty m a l (Q : unit → mem → Prop) :
  dlist_rep m a l → l ≠ [] → Q tt m →
  wp (assertM (e ← DList.empty a; mret (negb e))) Q m.
Proof.
  intros Hl Hne HQ. apply wp_assert; [|done]. apply wp_bind, wp_bind.
  eapply wp_load_next; [by apply dlist_front|]. apply wp_ret, wp_ret.
  destruct l as [|x l]; [done|]. simpl. destruct Hl as ([Ha _]%NoDup_cons & _ & _).
  apply negb_true_iff, Z.eqb_neq. set_solver.
Qed.

Lemma push_front_spec m a l e :
  dlist_rep m a l → off_list m e → e ∉ a :: l →
  wp (DList.push_front a e)
     (λ _ m', dlist_rep m' a (e :: l) ∧ untouched (e :: a :: l) m m') m.
Proof.
  intros Hl He Hin. apply wp_bind. eapply wp_load_next; [by apply dlist_front|].
  by apply (insert_before_spec m a [] l e).
Qed.

Lemma splice_back_spec m a l s f t :
  dlist_rep m a l → dsegment m s f t → s ## (a :: l) →
  wp (DList.splice_back a f t)
     (λ _ m', dlist_rep m' a (l ++ s) ∧ untouched (s ++ a :: l) m m') m.
Proof.
  intros Hl Hs Hd. apply wp_bind. eapply wp_load_prev; [by apply dlist_back|].
  rewrite <-(app_nil_r l) in Hl, Hd.
  eapply wp_mono; [by apply (insert_after_spec m a l [] s f t)|].
  intros [] m'. by rewrite !app_nil_r.
Qed.

Lemma push_back_spec m a l e :
  dlist_rep m a l → off_list m e → e ∉ a :: l →
  wp (DList.push_back a e)
     (λ _ m', dlist_rep m' a (l ++ [e]) ∧ untouched (e :: a :: l) m m') m.
Proof.
  intros Hl He Hin.
  apply (splice_back_spec m a l [e] e e); [done|by apply off_list_dsegment|set_solver].
Qed.

Lemma pop_front_spec m a x l :
  dlist_rep m a (x :: l) →
  wp (DList.pop_front a)
     (λ r m', r = x ∧ dlist_rep m' a l ∧ off_list m' x ∧ untouched (a :: x :: l) m m') m.
Proof.
  intros Hl. apply wp_bind. eapply wp_dlist_not_empty; [done..|].
  apply wp_bind. eapply wp_load_next; [by apply dlist_front|].
  by apply (remove_spec m a [] l x).
Qed.

Lemma pop_back_spec m a l x :
  dlist_rep m a (l ++ [x]) →
  wp (DList.pop_back a)
     (λ r m', r = x ∧ dlist_rep m' a l ∧ off_list m' x ∧
              untouched (a :: l ++ [x]) m m') m.
Proof.
  intros Hl. apply wp_bind. eapply wp_dlist_not_empty; [done|by destruct l|].
  apply wp_bind. eapply wp_load_prev; [by apply dlist_back|]. rewrite last_snoc.
  eapply wp_mono; [by apply (remove_spec m a l [] x)|].
  intros r m'. by rewrite app_nil_r.
Qed.

Lemma dlist_transferFrom_spec m a el l1 l2 count :
  dlist_rep m a l1 → dlist_rep m el l2 → (a :: l1) ## (el :: l2) → l2 ≠ [] →
  (0 ≤ count)%Z →
  wp (DList.transferFrom a el count)
     (λ c m', let n := taken count (length l2) in
        c = count_after count (length l2) ∧ dlist_rep m' a (l1 ++ take n l2) ∧
        dlist_rep m' el (drop n l2) ∧ untouched ((a :: l1) ++ el :: l2) m m') m.
Proof.
  intros H1 H2 Hd Hne Hc. apply wp_bind. eapply wp_dlist_not_empty; [done..|].
  destruct l2 as [|f r]; [done|].
  apply wp_bind. eapply wp_load_next; [by apply dlist_front|]. simpl default.
  apply wp_bind. eapply wp_mono; [by apply (remove_count_spec m el [] f r)|].
  intros [t c] m1. cbn [fst snd app]. intros (-> & H2' & Hs & Hu1).
  set (n := taken count (length (f :: r))) in *.
  assert (Hsub : ∀ x, x ∈ take n (f :: r) → x ∈ f :: r) by eauto with uthreads.
  assert (Hsub' : ∀ x, x ∈ drop n (f :: r) → x ∈ f :: r) by eauto with uthreads.
  assert (Hdr : (take n (f :: r)) ## (el :: drop n (f :: r))).
  { destruct H2 as (Hnd & _ & _). rewrite <-(take_drop n (f :: r)) in Hnd.
    apply (nodup_three el [] (take n (f :: r))) in Hnd as (_ & Hnd & _). done. }
  clearbody n. apply wp_bind. eapply wp_mono.
  { apply (splice_back_spec m1 a l1); [|done|].
    - eapply dlist_rep_frame; [done| |done]. intros x Hx Hx'. by apply (Hd x).
    - intros x Hx Hx'. apply (Hd x); [done|]. apply elem_of_cons. auto. }
  intros [] m2 [H1' Hu2]. apply wp_ret. split_and!; [done|done| |].
  - eapply dlist_rep_frame; [done| |done].
    intros x [Hx|Hx]%elem_of_app Hx'; [by apply (Hdr x)|].
    apply (Hd x); [done|]. apply elem_of_cons in Hx' as [->|Hx']; apply elem_of_cons; auto.
  - eapply untouched_mono; [|by eapply untouched_trans].
    clear -Hsub. set_solver.
Qed.

Lemma dlist_transferAllFrom_spec m a el l1 l2 :
  dlist_rep m a l1 → dlist_rep m el l2 → (a :: l1) ## (el :: l2) → l2 ≠ [] →
  wp (DList.transferAllFrom a el)
     (λ _ m', dlist_rep m' a (l1 ++ l2) ∧ dlist_rep m' el [] ∧
              untouched ((a :: l1) ++ el :: l2) m m') m.
Proof.
  intros H1 H2 Hd Hne. apply wp_bind. eapply wp_dlist_not_empty; [done..|].
  destruct l2 as [|f s']; [done|].
  destruct (exists_last (l := f :: s')) as (w & t & Et); [done|].
  assert (H2' : dlist_rep m el ([] ++ (f :: s') ++ [])) by (by rewrite app_nil_r).
  destruct (ring_links m el [] (f :: s') [] [] el el [] f s' w t H2') as (Hpf & Hfp & Htn & Hnt);
    [done..|].
  pose proof H2 as ([Hel Hnd]%NoDup_cons & H0 & _).
  assert (f ≠ el) by set_solver.
  assert (t ≠ el) by (intros ->; apply Hel; rewrite Et; set_solver).
  apply wp_bind. eapply wp_load_next; [done|].
  apply wp_bind. eapply wp_load_prev; [done|].
  apply wp_bind. eapply wp_store_prev; [solve [lk]|].
  apply wp_bind. eapply wp_store_next; [solve [lk]|].
  apply wp_bind. eapply wp_store_prev; [solve [lk]|].
  apply wp_bind. eapply wp_store_next; [solve [lk]|].
  set (m1 := set_next el el _).
  destruct (ring_remove m m1 el [] [] (f :: s') [] el el [] f s' w t) as [Hel' Hs];
    [done..|unfold m1; lk|unfold m1; lk|unfold m1; intros x ??; lk
    |unfold m1; intros x ??; lk|].
  assert (Hu1 : untouched (el :: f :: s') m m1).
  { intros x Hx. rewrite Et in Hx. assert (x ≠ el ∧ x ≠ t) as [? ?] by set_solver.
    assert (x ≠ f) by (rewrite <-Et in Hx; set_solver). unfold m1. split; lk. }
  eapply wp_mono.
  { apply (splice_back_spec m1 a l1 (f :: s') f t).
    - eapply dlist_rep_frame; [done| |done]. intros x Hx Hx'. by apply (Hd x).
    - split_and!; [done|set_solver|done|done|by rewrite Et, last_snoc|unfold m1; lk..].
    - intros x Hx Hx'. apply (Hd x); [done|]. by apply elem_of_cons; right. }
  intros [] m2 [H1' Hu2]. split_and!; [done| |].
  - eapply dlist_rep_frame; [done| |done]. clear -Hd Hel. set_solver.
  - eapply untouched_mono; [|by eapply untouched_trans]. clear. set_solver.
Qed.
End specs.

(** ** Refinement: any history of operations on two lists *)

Inductive lop :=
  | LPushFront (x : addr) | LPushBack (x : addr) | LPushBackOther (x : addr)
  | LPopFront | LPopBack
  | LRemove (x : addr)               (* unlink a node wherever it is *)
  | LTransfer (count : Z) | LTransferAll.

Record spec_lists := mkLSpec { lfree : list addr; first_l : list addr; second_l : list addr }.

Definition lremove (x : addr) (l : list addr) : list addr := List.remove Z.eq_dec x l.

Definition lspec_op (o : lop) (s : spec_lists) : option (Z * spec_lists) :=
  let '(mkLSpec F l1 l2) := s in
  match o with
  | LPushFront x =>
      if decide (x ∈ F) then Some (0%Z, mkLSpec (lremove x F) (x :: l1) l2) else None
  | LPushBack x =>
      if decide (x ∈ F) then Some (0%Z, mkLSpec (lremove x F) (l1 ++ [x]) l2) else None
  | LPushBackOther x =>
      if decide (x ∈ F) then Some (0%Z, mkLSpec (lremove x F) l1 (l2 ++ [x])) else None
  | LPopFront => match l1 with x :: l1' => Some (x, mkLSpec (x :: F) l1' l2) | [] => None end
  | LPopBack =>
      match last l1 with
      | Some x => Some (x, mkLSpec (x :: F) (take (pred (length l1)) l1) l2)
      | None => None
      end
  | LRemove x =>
      if decide (x ∈ l1) then Some (x, mkLSpec (x :: F) (lremove x l1) l2) else None
  | LTransfer count =>
      if decide (l2 = [] ∨ (count < 0)%Z) then None else
      let n := taken count (length l2) in
      Some (count_after count (length l2), mkLSpec F (l1 ++ take n l2) (drop n l2))
  | LTransferAll => if decide (l2 = []) then None else Some (0%Z, mkLSpec F (l1 ++ l2) [])
  end.

Definition lexec_op `{Build} (o : lop) (a el : addr) : M mem Z :=
  match o with
  | LPushFront x => DList.push_front a x;; mret 0%Z
  | LPushBack x => DList.push_back a x;; mret 0%Z
  | LPushBackOther x => DList.push_back el x;; mret 0%Z
  | LPopFront => DList.pop_front a
  | LPopBack => DList.pop_back a
  | LRemove x => DList.remove x
  | LTransfer count => DList.transferFrom a el count
  | LTransferAll => DList.transferAllFrom a el;; mret 0%Z
  end.

Fixpoint lspec_ops (os : list lop) (s : spec_lists) : option (list Z * spec_lists) :=
  match os with
  | [] => Some ([], s)
  | o :: os => r ← lspec_op o s; rs ← lspec_ops os r.2; Some (r.1 :: rs.1, rs.2)
  end.

Fixpoint lexec_ops `{Build} (os : list lop) (a el : addr) : M mem (list Z) :=
  match os with
  | [] => mret []
  | o :: os => z ← lexec_op o a el; zs ← lexec_ops os a el; mret (z :: zs)
  end.

Definition lists_rep (m : mem) (a el : addr) (s : spec_lists) : Prop :=
  NoDup (lfree s ++ (a :: first_l s) ++ (el :: second_l s)) ∧
  (∀ x, x ∈ lfree s → off_list m x) ∧
  dlist_rep m a (first_l s) ∧ dlist_rep m el (second_l s).

#[export] Instance off_list_dec m x : Decision (off_list m x).
Proof. unfold off_list. apply _. Defined.

Section refinement.
Context `{Build}.
Implicit Types (m : mem) (F l : list addr).

Lemma lists_rep_disjoint m a el F l1 l2 :
  lists_rep m a el (mkLSpec F l1 l2) →
  (F ## (a :: l1)) ∧ (F ## (el :: l2)) ∧ ((a :: l1) ## (el :: l2)).
Proof.
  intros (Hnd & _). simpl in Hnd. apply NoDup_app in Hnd as (_ & Hd & Hnd).
  rewrite app_comm_cons in Hnd. apply NoDup_app in Hnd as (_ & Hd2 & _). set_solver.
Qed.

(** Moving nodes between the three lists keeps the representation. *)
Lemma lists_rep_intro m m' a el F F' l1 l1' l2 l2' X :
  lists_rep m a el (mkLSpec F l1 l2) →
  F' ++ l1' ++ l2' ≡ₚ F ++ l1 ++ l2 →
  untouched X m m' → (∀ x, x ∈ F' → (x ∈ F ∧ (x ∉ X)) ∨ off_list m' x) →
  dlist_rep m' a l1' → dlist_rep m' el l2' →
  lists_rep m' a el (mkLSpec F' l1' l2').
Proof.
  intros (Hnd & HF & _ & _) Hp Hu HF' H1 H2. split_and!; [| |done..].
  - simpl in *. assert (F' ++ a :: l1' ++ el :: l2' ≡ₚ F ++ a :: l1 ++ el :: l2) as ->;
      [|done]. rewrite <-!Permutation_middle. by rewrite Hp.
  - intros x Hx. destruct (HF' x Hx) as [[HxF HxX]|?]; [|done].
    eapply off_list_frame; [done|done|]. by apply HF.
Qed.

Lemma lremove_perm x l : NoDup l → x ∈ l → l ≡ₚ x :: lremove x l.
Proof.
  unfold lremove. induction l as [|y l IH]; [set_solver|].
  intros [Hy Hnd]%NoDup_cons Hx. simpl. destruct (Z.eq_dec x y) as [->|Hne].
  - assert (List.remove Z.eq_dec y l = l) as ->; [|done].
    apply notin_remove. by rewrite <-list_elem_of_In.
  - rewrite <-Permutation_swap, <-IH; [done..|set_solver].
Qed.
Lemma lremove_middle x l1 l2 :
  NoDup (l1 ++ x :: l2) → lremove x (l1 ++ x :: l2) = l1 ++ l2.
Proof.
  intros (Hl1 & Hd & [Hx Hl2]%NoDup_cons)%NoDup_app. unfold lremove.
  rewrite List.remove_app. simpl. destruct (Z.eq_dec x x); [|done].
  rewrite !notin_remove; [done| |]; rewrite <-list_elem_of_In; set_solver.
Qed.
Lemma elem_lremove x y l : y ∈ lremove x l → y ∈ l ∧ y ≠ x.
Proof. unfold lremove. rewrite !list_elem_of_In. apply in_remove. Qed.

Lemma lists_rep_push m m' a el F l1 l1' l2 l2' x X :
  lists_rep m a el (mkLSpec F l1 l2) → x ∈ F →
  untouched (x :: X) m m' → X ## F →
  l1' ++ l2' ≡ₚ x :: l1 ++ l2 → dlist_rep m' a l1' → dlist_rep m' el l2' →
  lists_rep m' a el (mkLSpec (lremove x F) l1' l2').
Proof.
  intros Hr Hx Hu HX Hp H1 H2.
  assert (HF : NoDup F) by (by destruct Hr as [(? & _)%NoDup_app _]).
  eapply lists_rep_intro; [done| |done| |done..].
  - pose proof (lremove_perm x F HF Hx) as HpF.
    transitivity (x :: lremove x F ++ l1 ++ l2); [|by rewrite HpF at 2].
    rewrite Hp. solve_Permutation.
  - intros y [Hy Hne]%elem_lremove. left. set_solver.
Qed.

(** A node [x] leaves the first list and becomes free. *)
Lemma lists_rep_pop m m' a el F l1 l1' l2 x :
  lists_rep m a el (mkLSpec F l1 l2) → l1 ≡ₚ x :: l1' →
  untouched (a :: l1) m m' → off_list m' x → dlist_rep m' a l1' →
  lists_rep m' a el (mkLSpec (x :: F) l1' l2).
Proof.
  intros Hr Hp Hu Hx H1.
  pose proof (lists_rep_disjoint _ _ _ _ _ _ Hr) as (D1 & D2 & D3).
  eapply lists_rep_intro; [done| |done| |done|].
  - rewrite Hp. solve_Permutation.
  - intros y [->|Hy]%elem_of_cons; [by right|left]. split; [done|]. by intros ?; apply (D1 y).
  - destruct Hr as (_ & _ & _ & H2). by eapply dlist_rep_frame.
Qed.

Lemma lexec_op_refines o m a el s z s' :
  lists_rep m a el s → lspec_op o s = Some (z, s') →
  wp (lexec_op o a el) (λ r m', r = z ∧ lists_rep m' a el s') m.
Proof.
  intros Hr Ho. destruct s as [F l1 l2].
  pose proof (lists_rep_disjoint _ _ _ _ _ _ Hr) as (D1 & D2 & D3).
  pose proof Hr as (_ & HF & H1 & H2). simpl in HF, H1, H2.
  destruct o as [x|x|x| | |x|count|]; simpl in Ho; simplify_option_eq; cbn [lexec_op].
  - apply wp_bind. eapply wp_mono; [apply push_front_spec; [done|auto|by intros ?; apply (D1 x)]|].
    intros [] m' [H1' Hu]. split; [done|].
    eapply lists_rep_push; [done|done|done|set_solver|done|done|].
    eapply dlist_rep_frame; [done| |done]. set_solver.
  - apply wp_bind. eapply wp_mono; [apply push_back_spec; [done|auto|by intros ?; apply (D1 x)]|].
    intros [] m' [H1' Hu]. split; [done|].
    eapply lists_rep_push; [done|done|done|set_solver|solve_Permutation|done|].
    eapply dlist_rep_frame; [done| |done]. set_solver.
  - apply wp_bind. eapply wp_mono; [apply push_back_spec; [done|auto|by intros ?; apply (D2 x)]|].
    intros [] m' [H1' Hu]. split; [done|].
    eapply lists_rep_push; [done|done|done|set_solver|solve_Permutation| |done].
    eapply dlist_rep_frame; [done| |done]. set_solver.
  - destruct l1 as [|x l1]; simplify_eq. eapply wp_mono; [by apply pop_front_spec|].
    intros y m' (-> & H1' & Hx & Hu). split; [done|]. by eapply lists_rep_pop.
  - destruct (last l1) as [x|] eqn:E; simplify_eq. apply last_Some in E as [l1' ->].
    eapply wp_mono; [by apply pop_back_spec|].
    intros y m' (-> & H1' & Hx & Hu). split; [done|].
    rewrite length_app, Nat.add_1_r. simpl pred. rewrite take_app_length.
    eapply lists_rep_pop; [done|solve_Permutation|done..].
  - match goal with Hx : _ ∈ l1 |- _ => apply list_elem_of_split in Hx as (p & q & ->) end.
    assert (NoDup (p ++ z :: q)) as Hnd by (by destruct H1 as [[_ ?]%NoDup_cons _]).
    eapply wp_mono; [by apply remove_spec|].
    intros y m' (-> & H1' & Hx & Hu). split; [done|]. rewrite lremove_middle by done.
    eapply lists_rep_pop; [done|solve_Permutation|done..].
  - eapply wp_mono; [apply dlist_transferFrom_spec; [done..|naive_solver|lia]|].
    intros c m' (-> & H1' & H2' & Hu). split; [done|].
    eapply lists_rep_intro; [done| |done| |done..].
    + rewrite <-app_assoc. by rewrite take_drop.
    + intros x Hx. left. split; [done|]. set_solver.
  - apply wp_bind. eapply wp_mono; [by apply dlist_transferAllFrom_spec|].
    intros [] m' (H1' & H2' & Hu). split; [done|].
    eapply lists_rep_intro; [done| |done| |done..].
    + by rewrite app_nil_r.
    + intros x Hx. left. split; [done|]. set_solver.
Qed.
End refinement.

(** C11. IntrusiveList implements a list with removal from anywhere: for every
    history of pushes and pops at both ends, unlinkings in the middle and
    transfers between two lists that the specification allows, the pointer
    code returns, with the specified results, and both rings stay well
    formed (each node linked both ways, the anchor closing the ring). *)
Theorem list_refines_lists `{Build} os m a el s zs s' :
  lists_rep m a el s → lspec_ops os s = Some (zs, s') →
  ∃ m', lexec_ops os a el m = Ok (zs, m') ∧ lists_rep m' a el s'.
Proof.
  intros Hr Hs.
  enough (wp (lexec_ops os a el) (λ r m', r = zs ∧ lists_rep m' a el s') m) as Hw.
  { apply wp_Ok in Hw as (zs' & m' & E & -> & ?). eauto. }
  revert m s zs Hr Hs. induction os as [|o os IH]; intros m s zs Hr Hs; simpl in *.
  - by simplify_eq.
  - destruct (lspec_op o s) as [[z s1]|] eqn:E1; simplify_eq/=.
    destruct (lspec_ops os s1) as [[zs1 s2]|] eqn:E2; simplify_eq/=.
    apply wp_bind. eapply wp_mono; [by eapply lexec_op_refines|].
    intros z' m1 [-> Hr1]. apply wp_bind. eapply wp_mono; [by eapply IH|].
    intros zs' m2 [-> Hr2]. done.
Qed.

(** Two anchors, as their constructors leave them, and four free nodes. *)
Definition two_lists_mem : mem := list_to_map
  [(8, mkLink 8 8); (12, mkLink 12 12); (16, Link_init); (32, Link_init);
   (48, Link_init); (64, Link_init)]%Z.

Lemma list_refines_lists_witness :
  let b := {| NDEBUG := false |} in
  ∃ m', lexec_ops (H := b)
    [LPushBack 16; LPushFront 32; LPushBackOther 48; LPushBackOther 64; LTransfer 1;
     LRemove 16; LPopBack; LTransferAll; LPopFront]%Z 8 12 two_lists_mem
    = Ok ([0; 0; 0; 0; 1; 16; 48; 0; 32]%Z, m') ∧
  lists_rep m' 8 12 (mkLSpec [32; 48; 16] [64] [])%Z.
Proof.
  intros b.
  apply (list_refines_lists (H := b) _ _ _ _ (mkLSpec [16; 32; 48; 64]%Z [] [])).
  - split_and!.
    + apply (bool_decide_unpack _). by vm_compute.
    + apply Forall_forall. apply (bool_decide_unpack _). by vm_compute.
    + apply (bool_decide_unpack _). by vm_compute.
    + apply (bool_decide_unpack _). by vm_compute.
  - vm_compute. reflexivity.
Defined.

(** [IntrusiveList::removeAll] hands out the whole chain with null ends
    but leaves the anchor pointing at it: the list still claims to be non
    empty, its front is the removed first node, and the ring is broken. *)
Theorem removeAll_keeps_anchor `{Build} m a f l :
  dlist_rep m a (f :: l) →
  ∃ m', DList.removeAll a m = Ok (default f (last l), m') ∧
    DList.empty a m' = Ok (false, m') ∧ DList.front a m' = Ok (f, m') ∧
    ∀ l', ¬ dlist_rep m' a l'.
Proof.
  intros Hl. pose proof (dlist_front _ _ _ Hl) as Hn. pose proof (dlist_back _ _ _ Hl) as Hp.
  simpl in Hn.
  assert (Hlast : last (f :: l) = Some (default f (last l))).
  { destruct l as [|x l] using rev_ind; [done|]. by rewrite app_comm_cons, !last_snoc. }
  rewrite Hlast in Hp. simpl in Hp. set (t := default f (last l)) in *.
  pose proof Hl as ([Ha _]%NoDup_cons & H0 & _).
  assert (Ht : t ∈ f :: l) by (apply last_Some in Hlast as [w ->]; set_solver).
  assert (a ≠ f ∧ a ≠ t) as [Haf Hat] by set_solver.
  destruct (dlist_node _ _ _ f Hl) as (fn & fp & Hfn & Hfp & _); [set_solver|].
  destruct (dlist_node _ _ _ t Hl) as (tn & tp & Htn & Htp & _); [set_solver|].
  enough (wp (DList.removeAll a) (λ r m', r = t ∧ next_of m' a = Some f ∧
            prev_of m' f = Some nullptr) m) as Hw.
  { apply wp_Ok in Hw as (r & m' & E & -> & Hn' & Hp'). exists m'. split_and!; [done| | |].
    - unfold DList.empty, mbind, M_bind, load_next. unfold next_of in Hn'.
      destruct (m' !! a); simplify_eq/=. by rewrite (proj2 (Z.eqb_neq _ _)).
    - unfold DList.front, load_next. unfold next_of in Hn'.
      by destruct (m' !! a); simplify_eq/=.
    - intros l' Hl'. pose proof (dlist_front _ _ _ Hl') as Hf.
      assert (Hin : f ∈ a :: l').
      { rewrite Hf in Hn'. destruct l'; simplify_eq/=; set_solver. }
      destruct (dlist_node _ _ _ f Hl' Hin) as (? & ? & _ & Hc & _ & ?). congruence. }
  apply wp_bind. eapply wp_dlist_not_empty; [done..|].
  apply wp_bind. eapply wp_load_next; [done|].
  apply wp_bind. eapply wp_load_prev; [done|].
  apply wp_bind. eapply wp_store_prev; [done|].
  apply wp_bind. eapply wp_store_next; [solve [lk]|].
  apply wp_ret. split_and!; [done|lk|lk].
Qed.

Lemma removeAll_keeps_anchor_witness :
  let b := {| NDEBUG := true |} in
  let m : mem := list_to_map
    [(8, mkLink 32 16); (16, mkLink 8 32); (32, mkLink 16 8)]%Z in
  ∃ m', DList.removeAll (H := b) 8 m = Ok (32, m')%Z ∧
    DList.empty 8 m' = Ok (false, m') ∧ DList.front 8 m' = Ok (16%Z, m') ∧
    ∀ l', ¬ dlist_rep m' 8 l'.
Proof.
  intros b m. apply (removeAll_keeps_anchor (H := b) m 8%Z 16%Z [32%Z]).
  apply (bool_decide_unpack _). by vm_compute.
Defined.
