(* ===== verification/MPSCQueue.v ===== *)
(** * BlockingMPSCQueue

    [template<typename T> class BlockingMPSCQueue] of
    [src/generic/IntrusiveContainers.h]: the lock-free intrusive
    multiple-producer single-consumer queue that is the run queue of a kThread
    under scheduler 2, the default.  Any number of producers run [insert], one
    consumer runs [pop]; every access to shared memory is a step of its own
    and steps interleave arbitrarily (sequentially consistent memory).

    [pushed] and [popped] are ghost histories: the nodes in the order of the
    producers' exchanges on [tail], and the nodes [pop] has unlinked. *)

From S2P Require Import Prelude Links.

(** Where a producer is in [insert(first, last)]; [seg] are the nodes from
    [first] to [last], linked by [next]. *)
Inductive ppc : Type :=
  | PInit (seg : list addr)                  (* last.next = nullptr *)
  | PExch (seg : list addr)                  (* prev = tail.exchange(&last) *)
  | PLink (prv first : addr) (was_empty : bool)   (* prev->next = &first *)
  | PDone (was_empty : bool).                (* return was_empty *)

(** Where the consumer is in [pop]. *)
Inductive cpc : Type :=
  | CIdle
  | CEnter                 (* if(head == &stub) *)
  | CLoadTail              (* ttail = tail; if marked return nullptr *)
  | CCas                   (* tail.compare_exchange_strong(&stub, &stub|1) *)
  | CWaitStub              (* while(stub.next == nullptr); head = stub.next *)
  | CIns0                  (* insert(stub, stub): stub.next = nullptr *)
  | CIns1                  (*   prev = tail.exchange(&stub) *)
  | CIns2 (prv : addr)     (*   prev->next = &stub *)
  | CWaitHead              (* while(head->next == nullptr) *)
  | CTake                  (* l = head; head = head->next *)
  | CClear (l : addr)      (* l->next = nullptr *)
  | CRet (v : addr).       (* return *)

Record mpsc := mkMpsc {
  memory : mem;
  head : addr;
  tail : Z;                      (* atomic, bit 0 is the "empty" mark *)
  prods : gmap nat ppc;
  cons : cpc;
  broken : bool;                 (* some access went through a dead address *)
  pushed : list addr;
  popped : list addr
}.

#[export] Instance ppc_eq_dec : EqDecision ppc.
Proof. solve_decision. Defined.
#[export] Instance cpc_eq_dec : EqDecision cpc.
Proof. solve_decision. Defined.

Definition ppc_seg (p : ppc) : list addr :=
  match p with PInit s | PExch s => s | _ => [] end.
Definition cons_held (c : cpc) : list addr :=
  match c with CClear l | CRet l => [l] | _ => [] end.

Section mpsc.
Context (stub : addr).

(** [BlockingMPSCQueue(): tail(&stub | 1), head(&stub)] over a memory that
    holds the stub with its links null. *)
Definition mpsc_init (m : mem) : mpsc :=
  mkMpsc m stub (mark stub) ∅ CIdle false [] [].

(** A memory access of a step: the new state, or a broken one. *)
Definition access {A} (c : M mem A) (q : mpsc) (k : A → mem → mpsc) : mpsc :=
  match c (memory q) with
  | Ok (a, m') => k a m'
  | Fault _ =>
      mkMpsc (memory q) (head q) (tail q) (prods q) (cons q) true (pushed q) (popped q)
  end.

Definition set_prod (t : nat) (p : ppc) (q : mpsc) : mpsc :=
  mkMpsc (memory q) (head q) (tail q) (<[t := p]> (prods q)) (cons q) (broken q)
         (pushed q) (popped q).
Definition set_cons (c : cpc) (q : mpsc) : mpsc :=
  mkMpsc (memory q) (head q) (tail q) (prods q) c (broken q) (pushed q) (popped q).
Definition set_mem (m : mem) (q : mpsc) : mpsc :=
  mkMpsc m (head q) (tail q) (prods q) (cons q) (broken q) (pushed q) (popped q).
Definition set_head (h : addr) (q : mpsc) : mpsc :=
  mkMpsc (memory q) h (tail q) (prods q) (cons q) (broken q) (pushed q) (popped q).
Definition set_tail (tl : Z) (q : mpsc) : mpsc :=
  mkMpsc (memory q) (head q) tl (prods q) (cons q) (broken q) (pushed q) (popped q).
Definition log_push (l : list addr) (q : mpsc) : mpsc :=
  mkMpsc (memory q) (head q) (tail q) (prods q) (cons q) (broken q)
         (pushed q ++ l) (popped q).
Definition log_pop (x : addr) (q : mpsc) : mpsc :=
  mkMpsc (memory q) (head q) (tail q) (prods q) (cons q) (broken q)
         (pushed q) (popped q ++ [x]).

(** What a caller of [push] guarantees: the nodes are objects other than
    the stub, linked from first to last, on no queue, not being pushed by
    another producer and not being handed out by [pop]. *)
Definition pushable (q : mpsc) (seg : list addr) : Prop :=
  seg ≠ [] ∧ NoDup seg ∧
  Forall (λ x, x ≠ nullptr ∧ aligned x ∧ x ≠ stub ∧ is_Some (memory q !! x)) seg ∧
  chain (memory q) seg ∧
  Forall (λ x, x ∉ drop (length (popped q)) (pushed q)) seg ∧
  Forall (λ x, x ∉ cons_held (cons q)) seg ∧
  map_Forall (λ _ p, Forall (λ x, x ∉ ppc_seg p) seg) (prods q).

#[global] Instance aligned_dec x : Decision (aligned x).
Proof. unfold aligned. apply _. Defined.
#[global] Instance pushable_dec q seg : Decision (pushable q seg).
Proof. unfold pushable. apply _. Defined.

(** [insert], one access per step.  [push(elem)] is the one-node case. *)
Definition prod_step (t : nat) (q : mpsc) : option mpsc :=
  match prods q !! t with
  | Some (PInit seg) =>
      lst ← last seg;
      Some (access (store_next lst nullptr) q (λ _ m,
        set_prod t (PExch seg) (set_mem m q)))
  | Some (PExch seg) =>
      fst ← list.head seg; lst ← last seg;
      let prv := tail q in
      Some (set_prod t (PLink (unmark prv) fst (marked prv))
             (log_push seg (set_tail lst q)))
  | Some (PLink prv fst was_empty) =>
      Some (access (store_next prv fst) q (λ _ m,
        set_prod t (PDone was_empty) (set_mem m q)))
  | _ => None
  end.

(** [pop], one access per step; a spinning read that finds null repeats. *)
Definition cons_step (q : mpsc) : option mpsc :=
  match cons q with
  | CEnter => Some (set_cons (if (head q =? stub)%Z then CLoadTail else CWaitHead) q)
  | CLoadTail => Some (set_cons (if marked (tail q) then CRet nullptr else CCas) q)
  | CCas =>
      Some (if (tail q =? stub)%Z
            then set_cons (CRet nullptr) (set_tail (mark stub) q)
            else set_cons CWaitStub q)
  | CWaitStub =>
      Some (access (load_next stub) q (λ n _,
        if (n =? nullptr)%Z then q else set_cons CIns0 (set_head n q)))
  | CIns0 =>
      Some (access (store_next stub nullptr) q (λ _ m, set_cons CIns1 (set_mem m q)))
  | CIns1 => Some (set_cons (CIns2 (unmark (tail q))) (set_tail stub q))
  | CIns2 prv =>
      Some (access (store_next prv stub) q (λ _ m, set_cons CWaitHead (set_mem m q)))
  | CWaitHead =>
      Some (access (load_next (head q)) q (λ n _,
        if (n =? nullptr)%Z then q else set_cons CTake q))
  | CTake =>
      Some (access (load_next (head q)) q (λ n _,
        log_pop (head q) (set_cons (CClear (head q)) (set_head n q))))
  | CClear l =>
      Some (access (store_next l nullptr) q (λ _ m, set_cons (CRet l) (set_mem m q)))
  | CIdle | CRet _ => None
  end.

Inductive qlabel : Type :=
  | QPush (t : nat) (seg : list addr)  (* producer t calls push(first, last) *)
  | QProd (t : nat)                    (* a step of producer t in insert *)
  | QPushRet (t : nat)                 (* its push returns *)
  | QPop                               (* the consumer calls pop *)
  | QCons                              (* a step of the consumer in pop *)
  | QPopRet.                           (* its pop returns *)

Definition qstep (a : qlabel) (q : mpsc) : option mpsc :=
  match a with
  | QPush t seg =>
      if decide (prods q !! t = None ∧ pushable q seg)
      then Some (set_prod t (PInit seg) q) else None
  | QProd t => prod_step t q
  | QPushRet t =>
      match prods q !! t with
      | Some (PDone _) =>
          Some (mkMpsc (memory q) (head q) (tail q) (delete t (prods q)) (cons q)
                       (broken q) (pushed q) (popped q))
      | _ => None
      end
  | QPop => match cons q with CIdle => Some (set_cons CEnter q) | _ => None end
  | QCons => cons_step q
  | QPopRet => match cons q with CRet _ => Some (set_cons CIdle q) | _ => None end
  end.
End mpsc.

(** ** The invariant

    [c] is the queue as a list of nodes, from the consumer's [head] to the
    last exchanged node, the stub included. *)

Fixpoint adj (c : list addr) (x y : addr) : Prop :=
  match c with
  | [] => False
  | h :: r => (x = h ∧ list.head r = Some y) ∨ adj r x y
  end.

Section adj.
Implicit Types (c s : list addr) (x y z : addr).

Lemma adj_app c s x y :
  adj (c ++ s) x y ↔ adj c x y ∨ (last c = Some x ∧ list.head s = Some y) ∨ adj s x y.
Proof.
  induction c as [|h [|k r] IH].
  - simpl. naive_solver.
  - simpl. naive_solver.
  - change ((h :: k :: r) ++ s) with (h :: ((k :: r) ++ s)).
    change (last (h :: k :: r)) with (last (k :: r)).
    cbn [adj]. rewrite IH. cbn [adj list.head app]. naive_solver.
Qed.
Lemma adj_elem c x y : adj c x y → x ∈ c ∧ y ∈ c.
Proof.
  induction c as [|h r IH]; simpl; [done|]. intros [[-> Hy]|Hr].
  - destruct r; simplify_eq/=. set_solver.
  - apply IH in Hr. set_solver.
Qed.
Lemma adj_inj c x y y' : NoDup c → adj c x y → adj c x y' → y = y'.
Proof.
  induction c as [|h r IH]; simpl; [done|]. intros [Hh Hr]%NoDup_cons.
  intros [[-> Hy]|Ha] [[E Hy']|Ha']; simplify_eq; [done|..].
  - by apply adj_elem in Ha' as [? _].
  - by apply adj_elem in Ha as [? _].
  - eauto.
Qed.
Lemma adj_not_last c x y z : NoDup c → adj c x y → last c = Some z → x ≠ z.
Proof.
  intros Hnd Ha [u ->]%last_Some ->. apply NoDup_app in Hnd as (_ & Hd & _).
  apply adj_app in Ha as [Ha|[[Hl _]|Ha]].
  - apply adj_elem in Ha as [Hz _]. apply (Hd z Hz). set_solver.
  - apply last_Some in Hl as [v ->]. apply (Hd z); set_solver.
  - simpl in Ha. naive_solver.
Qed.
Lemma adj_tail h r x y : NoDup (h :: r) → adj (h :: r) x y → x ≠ h → adj r x y.
Proof. intros _ [[-> _]|?] ?; done. Qed.
Lemma adj_chain m c x y : chain m c → adj c x y → next_of m x = Some y.
Proof.
  induction c as [|h [|k r] IH]; [done|simpl; naive_solver|].
  intros [Hh Hr]%chain_cons2 [[-> [= ->]]|Ha]; [done|auto].
Qed.
End adj.

Section invariant.
Context (stub : addr).

(** A producer (or the consumer, for the stub) has exchanged [tail] and has
    yet to write [x->next = y]. *)
Definition pending (q : mpsc) (x y : addr) : Prop :=
  (∃ t b, prods q !! t = Some (PLink x y b)) ∨ (cons q = CIns2 x ∧ y = stub).

Definition seg_ok (q : mpsc) (c : list addr) (p : ppc) : Prop :=
  match p with
  | PInit s | PExch s =>
      s ≠ [] ∧ NoDup s ∧ chain (memory q) s ∧
      (∀ x, x ∈ s → x ≠ nullptr ∧ aligned x ∧ x ≠ stub ∧ (x ∉ c) ∧
                    (x ∉ cons_held (cons q)) ∧ is_Some (next_of (memory q) x)) ∧
      (∀ z, p = PExch s → last s = Some z → next_of (memory q) z = Some nullptr)
  | _ => True
  end.

Definition pc_ok (q : mpsc) (c : list addr) : Prop :=
  match cons q with
  | CLoadTail => head q = stub
  | CCas => head q = stub ∧ marked (tail q) = false
  | CWaitStub => head q = stub ∧ marked (tail q) = false ∧ c ≠ [stub]
  | CIns1 => next_of (memory q) stub = Some nullptr
  | CIns2 _ | CWaitHead => head q ≠ stub
  | CTake => head q ≠ stub ∧ next_of (memory q) (head q) ≠ Some nullptr
  | CClear l => l ≠ nullptr ∧ l ≠ stub ∧ (l ∉ c) ∧ is_Some (next_of (memory q) l)
  | CRet l => l ≠ nullptr → l ≠ stub ∧ (l ∉ c) ∧ next_of (memory q) l = Some nullptr
  | _ => True
  end.

Definition stub_out (c : cpc) : Prop := c = CIns0 ∨ c = CIns1.

Record inv (q : mpsc) (c : list addr) : Prop := {
  inv_nodup : NoDup c;
  inv_nodes : ∀ x, x ∈ c → x ≠ nullptr ∧ aligned x;
  inv_head : list.head c = Some (head q);
  inv_tail : ∃ z, last c = Some z ∧ next_of (memory q) z = Some nullptr ∧
                  (tail q = z ∨ (tail q = mark z ∧ c = [stub]));
  inv_links : ∀ x y, adj c x y →
    next_of (memory q) x = Some y ∨
    (next_of (memory q) x = Some nullptr ∧ pending q x y);
  inv_pending : ∀ x y, pending q x y →
    adj c x y ∧ next_of (memory q) x = Some nullptr;
  inv_unique : ∀ t t' x y y' b b', prods q !! t = Some (PLink x y b) →
    prods q !! t' = Some (PLink x y' b') → t = t';
  inv_unique' : ∀ t x y b, prods q !! t = Some (PLink x y b) → cons q ≠ CIns2 x;
  inv_segs : ∀ t p, prods q !! t = Some p → seg_ok q c p;
  inv_disj : ∀ t t' p p' x, prods q !! t = Some p → prods q !! t' = Some p' →
    x ∈ ppc_seg p → x ∈ ppc_seg p' → t = t';
  inv_content : pushed q = popped q ++ filter (λ x, x ≠ stub) c;
  inv_stub : stub ∈ c ↔ ¬ stub_out (cons q);
  inv_pc : pc_ok q c;
  inv_stub_ok : stub ≠ nullptr ∧ aligned stub ∧ is_Some (next_of (memory q) stub);
  inv_ok : broken q = false
}.

(** Writing [x->next] for a node outside the queue and outside the other
    producers' segments keeps everything but the facts about [x]. *)
Lemma set_next_frame (m : mem) x v (P : addr → Prop) :
  (∀ y, P y → y ≠ x) → ∀ y, P y → next_of (set_next x v m) y = next_of m y.
Proof. intros HP y Hy. apply next_of_set_next_ne. apply not_eq_sym, HP, Hy. Qed.
Lemma is_Some_set_next (m : mem) x v y :
  is_Some (next_of (set_next x v m) y) ↔ is_Some (next_of m y).
Proof.
  rewrite next_of_set_next. case_decide; [|done]. by rewrite fmap_is_Some.
Qed.

Lemma store_next_ok (m : mem) x v n :
  next_of m x = Some n → store_next x v m = Ok (tt, set_next x v m).
Proof.
  intros Hn. pose proof (wp_store_next m x v n (λ _ m', m' = set_next x v m) Hn eq_refl) as Hw.
  apply wp_Ok in Hw as ([] & m' & E & ->). done.
Qed.
Lemma load_next_ok (m : mem) x n : next_of m x = Some n → load_next x m = Ok (n, m).
Proof.
  intros Hn. pose proof (wp_load_next m x n (λ r m', r = n ∧ m' = m) Hn (conj eq_refl eq_refl)) as Hw.
  apply wp_Ok in Hw as (? & m' & E & -> & ->). done.
Qed.
Lemma access_store q x v n (k : unit → mem → mpsc) :
  next_of (memory q) x = Some n →
  access (store_next x v) q k = k tt (set_next x v (memory q)).
Proof. intros Hn. unfold access. by rewrite (store_next_ok _ _ _ _ Hn). Qed.
Lemma access_load q x n (k : addr → mem → mpsc) :
  next_of (memory q) x = Some n → access (load_next x) q k = k n (memory q).
Proof. intros Hn. unfold access. by rewrite (load_next_ok _ _ _ Hn). Qed.

Lemma inv_init m :
  stub ≠ nullptr → aligned stub → next_of m stub = Some nullptr →
  inv (mpsc_init stub m) [stub].
Proof.
  intros H0 Ha Hn. constructor; simpl; try done.
  - apply NoDup_singleton.
  - intros x ->%list_elem_of_singleton. done.
  - exists stub. auto.
  - naive_solver.
  - intros x y [(t & b & Ht)|[? _]]; simplify_map_eq/=.
  - by rewrite filter_cons_False by (intros ?; done).
  - rewrite list_elem_of_singleton. unfold stub_out. naive_solver.
Qed.

Lemma pending_adj q c x y z :
  inv q c → pending q x y → last c = Some z → x ≠ z.
Proof.
  intros I Hp Hz. destruct (inv_pending _ _ I _ _ Hp) as [Ha _].
  by eapply adj_not_last; [apply (inv_nodup _ _ I)|..].
Qed.

(** Steps that only move the consumer's program counter. *)
Lemma inv_set_cons q c k :
  inv q c → (∀ p, cons q ≠ CIns2 p) → (∀ p, k ≠ CIns2 p) →
  (stub_out (cons q) ↔ stub_out k) → (∀ x, x ∈ cons_held k → x ∈ cons_held (cons q) ∨ x = nullptr) →
  pc_ok (set_cons k q) c → inv (set_cons k q) c.
Proof.
  intros I H1 H2 H3 H4 H5. destruct I. constructor; simpl; try done.
  - intros x y Ha. destruct (inv_links0 x y Ha) as [|[? Hp]]; [by left|right].
    split; [done|]. destruct Hp as [Hp|[Hp _]]; [by left|by apply H1 in Hp].
  - intros x y [Hp|[Hp _]]; [|by apply H2 in Hp]. apply inv_pending0. by left.
  - intros t p Hp. specialize (inv_segs0 t p Hp).
    destruct p as [s|s| |]; simpl in *; [..|done|done];
      destruct inv_segs0 as (? & ? & ? & Hx & ?); split_and!; try done;
      intros x Hin; destruct (Hx x Hin) as (? & ? & ? & ? & ? & ?); split_and!; try done;
      intros [?|?]%H4; done.
  - by rewrite <-H3.
Qed.

(** [push] is called. *)
Lemma inv_push q c t seg :
  inv q c → prods q !! t = None → pushable stub q seg → inv (set_prod t (PInit seg) q) c.
Proof.
  intros I Ht (Hne & Hnd & Hn & Hch & Hc & Hh & Hs). destruct I.
  rewrite Forall_forall in Hn, Hc, Hh.
  assert (Hother : ∀ t' p x, prods q !! t' = Some p → x ∈ seg → x ∈ ppc_seg p → False).
  { intros t' p x Hp Hx. specialize (Hs _ _ Hp). simpl in Hs. rewrite Forall_forall in Hs. by apply Hs. }
  constructor; simpl; try done.
  - intros x y Ha. destruct (inv_links0 x y Ha) as [|[? Hp]]; [by left|right].
    split; [done|]. destruct Hp as [(t' & b & Hp)|Hp]; [left|by right].
    exists t', b. simpl. by rewrite lookup_insert_ne by congruence.
  - intros x y Hp. apply inv_pending0. destruct Hp as [(t' & b & Hp)|Hp]; [left|by right].
    simpl in Hp. apply lookup_insert_Some in Hp as [[_ [=]]|[_ Hp]]. eauto.
  - intros t1 t2 x y y' b b' [[_ [=]]|[_ HA]]%lookup_insert_Some [[_ [=]]|[_ HB]]%lookup_insert_Some.
    eauto.
  - intros t1 x y b [[_ [=]]|[_ HA]]%lookup_insert_Some. eauto.
  - intros t' p [[<- <-]|[_ Hp]]%lookup_insert_Some; [|by apply (inv_segs0 t' p)].
    simpl. split_and!; [done..| |done].
    intros x Hx. destruct (Hn x Hx) as (? & ? & ? & ?). split_and!; try done.
    + intros Hin. apply (Hc x Hx). rewrite inv_content0.
      rewrite drop_app_length. apply list_elem_of_filter. done.
    + by apply Hh.
    + unfold next_of. by apply fmap_is_Some.
  - intros t1 t2 p p' x [[<- <-]|[_ Hp]]%lookup_insert_Some [[<- <-]|[_ Hp']]%lookup_insert_Some;
      simpl; intros ??; [done|exfalso; eauto..|eauto].
Qed.

(** [push] returns. *)
Lemma inv_push_ret q c t b :
  inv q c → prods q !! t = Some (PDone b) →
  inv (mkMpsc (memory q) (head q) (tail q) (delete t (prods q)) (cons q)
              (broken q) (pushed q) (popped q)) c.
Proof.
  intros I Ht. destruct I. constructor; simpl; try done.
  - intros x y Ha. destruct (inv_links0 x y Ha) as [|[? Hp]]; [by left|right].
    split; [done|]. destruct Hp as [(t' & b' & Hp)|Hp]; [left|by right].
    exists t', b'. simpl. rewrite lookup_delete_ne; [done|]. congruence.
  - intros x y Hp. apply inv_pending0. destruct Hp as [(t' & b' & Hp)|Hp]; [left|by right].
    simpl in Hp. apply lookup_delete_Some in Hp as [_ Hp]. eauto.
  - intros t1 t2 x y y' b1 b2 [_ H1]%lookup_delete_Some [_ H2]%lookup_delete_Some. eauto.
  - intros t1 x y b1 [_ H1]%lookup_delete_Some. eauto.
  - intros t' p [_ Hp]%lookup_delete_Some. by apply (inv_segs0 t' p).
  - intros t1 t2 p p' x [_ Hp]%lookup_delete_Some [_ Hp']%lookup_delete_Some. eauto.
Qed.

Lemma chain_frame m x v s : x ∉ s → chain m s → chain (set_next x v m) s.
Proof.
  destruct s as [|z s _] using rev_ind; [done|]. intros Hx. apply chain_set_next. set_solver.
Qed.
Lemma chain_last m z v s : NoDup (s ++ [z]) → chain m (s ++ [z]) → chain (set_next z v m) (s ++ [z]).
Proof. intros (_ & Hd & _)%NoDup_app. apply chain_set_next. set_solver. Qed.

Lemma seg_ok_mem q c p x v k :
  x ∉ ppc_seg p → (∀ y, y ∈ cons_held k → y ∈ cons_held (cons q)) →
  seg_ok q c p → seg_ok (set_cons k (set_mem (set_next x v (memory q)) q)) c p.
Proof.
  intros Hx Hk. destruct p as [s|s| |]; simpl in *; try done;
    intros (? & ? & ? & Hs & Hl); split_and!; try done; try (by apply chain_frame).
  - intros y Hy. destruct (Hs y Hy) as (?&?&?&?&?&?). split_and!; auto.
    by apply is_Some_set_next.
  - intros y Hy. destruct (Hs y Hy) as (?&?&?&?&?&?). split_and!; auto.
    by apply is_Some_set_next.
  - intros z _ Hz. rewrite next_of_set_next_ne; [by apply Hl|].
    intros ->. apply Hx. apply last_Some in Hz as [w ->]. set_solver.
Qed.

Lemma pc_ok_mem q c x v :
  x ∉ c → x ≠ stub → x ∉ cons_held (cons q) → head q ∈ c →
  pc_ok q c → pc_ok (set_mem (set_next x v (memory q)) q) c.
Proof.
  intros Hc Hs Hh Hhd. unfold pc_ok. simpl.
  assert (x ≠ head q) by (intros ->; done).
  destruct (cons q); simpl in *; try done.
  - by rewrite next_of_set_next_ne.
  - by rewrite next_of_set_next_ne.
  - by rewrite is_Some_set_next.
  - rewrite next_of_set_next_ne by set_solver. done.
Qed.

Lemma inv_head_elem q c : inv q c → head q ∈ c.
Proof.
  intros I. pose proof (inv_head _ _ I) as Hh. apply head_Some in Hh as [r E].
  rewrite E. set_solver.
Qed.
Lemma inv_held q c x : inv q c → x ∈ c → x ∉ cons_held (cons q).
Proof.
  intros I Hx Hin. pose proof (inv_pc _ _ I) as Hpc. unfold pc_ok in Hpc.
  pose proof (inv_nodes _ _ I x Hx) as [Hx0 _].
  destruct (cons q); simpl in Hin; set_solver.
Qed.

(** [last.next = nullptr] *)
Lemma inv_prod_init q c t seg lst :
  inv q c → prods q !! t = Some (PInit seg) → last seg = Some lst →
  inv (set_prod t (PExch seg) (set_mem (set_next lst nullptr (memory q)) q)) c.
Proof.
  intros I Ht Hl. pose proof (inv_segs _ _ I _ _ Ht) as (Hne & Hnd & Hch & Hs & _).
  apply last_Some in Hl as [w ->].
  destruct (Hs lst) as (? & ? & ? & ? & ? & Hsome); [set_solver|].
  assert (Hoth : ∀ t' p, prods q !! t' = Some p → t' ≠ t → lst ∉ ppc_seg p).
  { intros t' p Hp Hne' Hin. apply Hne'. eapply (inv_disj _ _ I); eauto. set_solver. }
  pose proof (inv_head_elem _ _ I) as Hhd. destruct I.
  assert (Hf : ∀ y, y ∈ c → next_of (set_next lst nullptr (memory q)) y = next_of (memory q) y).
  { intros y Hy. apply next_of_set_next_ne. congruence. }
  constructor; simpl; try done.
  - destruct inv_tail0 as (z & Hz & Hn & Htl). exists z. split_and!; [done| |done].
    rewrite Hf; [done|]. apply last_Some in Hz as [? ->]. set_solver.
  - intros a b Ha. rewrite Hf by (by apply adj_elem in Ha as [? _]).
    destruct (inv_links0 a b Ha) as [|[? Hp]]; [by left|right]. split; [done|].
    destruct Hp as [(t' & b' & Hp)|Hp]; [left|by right].
    exists t', b'. simpl. rewrite lookup_insert_ne by congruence. done.
  - intros a b Hp'. assert (pending q a b) as Hp.
    { destruct Hp' as [(t' & b' & Hp')|Hp']; [left|by right].
      simpl in Hp'. apply lookup_insert_Some in Hp' as [[_ [=]]|[_ Hp']]. eauto. }
    destruct (inv_pending0 a b Hp) as [Ha ?].
    rewrite Hf by (by apply adj_elem in Ha as [? _]). done.
  - intros t1 t2 x y y' b b' [[_ [=]]|[_ HA]]%lookup_insert_Some [[_ [=]]|[_ HB]]%lookup_insert_Some.
    eauto.
  - intros t1 x y b [[_ [=]]|[_ HA]]%lookup_insert_Some. eauto.
  - intros t' p [[<- <-]|[Hne' Hp]]%lookup_insert_Some.
    + split_and!; [done|done|by apply chain_last| |].
      * intros x Hx. destruct (Hs x Hx) as (?&?&?&?&?&?). split_and!; try done.
        by apply is_Some_set_next.
      * intros z _. rewrite last_snoc. intros [= <-]. destruct Hsome as [n Hn].
        simpl. by erewrite next_of_set_next_eq.
    + apply (seg_ok_mem q c p lst nullptr (cons q)); eauto.
  - intros t1 t2 p p' x [[<- <-]|[Hn1 Hp]]%lookup_insert_Some [[<- <-]|[Hn2 Hp']]%lookup_insert_Some;
      simpl; intros Hx Hx'; [done|..].
    + by eapply (inv_disj0 t t2).
    + by eapply (inv_disj0 t1 t).
    + by eapply inv_disj0.
  - by apply pc_ok_mem.
  - by rewrite is_Some_set_next.
Qed.

Lemma inv_tail_unmark q c : inv q c → ∃ z, last c = Some z ∧ unmark (tail q) = z.
Proof.
  intros I. destruct (inv_tail _ _ I) as (z & Hz & _ & Ht). exists z. split; [done|].
  assert (aligned z) as Ha.
  { apply (inv_nodes _ _ I). apply last_Some in Hz as [w ->]. set_solver. }
  destruct Ht as [->|[-> _]]; [by apply unmark_aligned|by apply unmark_mark].
Qed.

(** The exchange on [tail]: the segment joins the queue, the link from the
    old last node is pending. *)
Lemma inv_prod_exch q c t seg fst lst :
  inv q c → prods q !! t = Some (PExch seg) →
  list.head seg = Some fst → last seg = Some lst →
  inv (set_prod t (PLink (unmark (tail q)) fst (marked (tail q)))
         (log_push seg (set_tail lst q))) (c ++ seg).
Proof.
  intros I Ht Hf Hl. pose proof (inv_segs _ _ I _ _ Ht) as (Hne & Hnd & Hch & Hs & Hz).
  specialize (Hz lst eq_refl Hl). destruct (inv_tail_unmark _ _ I) as (z & Hcz & ->).
  assert (Hlin : lst ∈ seg) by (apply last_Some in Hl as [w ->]; set_solver).
  assert (Hlst : aligned lst) by (by apply Hs).
  assert (Hpz : ∀ y, ¬ pending q z y).
  { intros y Hp. by eapply pending_adj. }
  assert (Hpend : ∀ x y, pending (set_prod t (PLink z fst (marked (tail q)))
      (log_push seg (set_tail lst q))) x y ↔ pending q x y ∨ (x = z ∧ y = fst)).
  { intros x y. unfold pending. simpl. split.
    - intros [(t' & b & [[<- [= -> -> _]]|[_ Hp]]%lookup_insert_Some)|Hp]; naive_solver.
    - intros [[(t' & b & Hp)|Hp]|[-> ->]]; [|by right|].
      + left. exists t', b. rewrite lookup_insert_ne by congruence. done.
      + left. exists t, (marked (tail q)). by rewrite lookup_insert_eq. }
  destruct I. constructor; simpl.
  - apply NoDup_app. split_and!; [done| |done]. intros x Hx Hx'. by apply Hs in Hx' as (?&?&?&?&_).
  - intros x [?|Hx]%elem_of_app; [by apply inv_nodes0|]. by apply Hs in Hx as (?&?&_).
  - destruct c; [done|]. done.
  - exists lst. split_and!; [|done|by left]. rewrite last_app. by rewrite Hl.
  - intros x y Ha. rewrite Hpend. apply adj_app in Ha as [Ha|[[Hx Hy]|Ha]].
    + destruct (inv_links0 x y Ha) as [|[? ?]]; auto.
    + simplify_eq. right. split; [|by right].
      destruct inv_tail0 as (z' & Hz' & Hn & _). by simplify_eq.
    + left. by eapply adj_chain.
  - intros x y [Hp|[-> ->]]%Hpend.
    + destruct (inv_pending0 x y Hp) as [Ha Hn]. split; [|done]. apply adj_app. by left.
    + split; [apply adj_app; naive_solver|].
      destruct inv_tail0 as (z' & Hz' & Hn & _). by simplify_eq.
  - intros t1 t2 x y y' b b' [[<- [= -> -> _]]|[N1 HA]]%lookup_insert_Some
      [[<- E]|[N2 HB]]%lookup_insert_Some; simplify_eq; try done.
    + exfalso. apply (Hpz y'). left. eauto.
    + exfalso. apply (Hpz y). left. eauto.
    + eauto.
  - intros t1 x y b [[<- [= -> -> _]]|[N1 HA]]%lookup_insert_Some; [|eauto].
    intros Hc. apply (Hpz stub). by right.
  - intros t' p [[<- <-]|[N Hp]]%lookup_insert_Some; [done|].
    specialize (inv_segs0 _ _ Hp).
    assert (Hd : ∀ x, x ∈ ppc_seg p → x ∉ seg).
    { intros x Hx Hx'. apply N. by eapply (inv_disj0 t t'). }
    destruct p as [s|s| |]; try done; destruct inv_segs0 as (?&?&?&Hx&?); simpl in Hd;
      split_and!; try done; intros x Hin; destruct (Hx x Hin) as (?&?&?&?&?&?);
      split_and!; try done; rewrite not_elem_of_app; auto.
  - intros t1 t2 p p' x [[<- <-]|[N1 Hp]]%lookup_insert_Some [[<- <-]|[N2 Hp']]%lookup_insert_Some;
      simpl; first [set_solver | eauto].
  - rewrite inv_content0, <-app_assoc, filter_app. do 2 f_equal.
    assert (Forall (λ x, x ≠ stub) seg) as Hfa by (apply Forall_forall; intros x Hx; by apply Hs).
    clear -Hfa. induction Hfa; [done|]. rewrite filter_cons_True by done. congruence.
  - rewrite elem_of_app, inv_stub0. split; [|by left]. intros [?|Hx]; [done|].
    by apply Hs in Hx as (?&?&?&_).
  - revert inv_pc0. unfold pc_ok. simpl. assert (Hm : marked lst = false) by (by apply marked_aligned).
    destruct (cons q) eqn:E; simpl; try tauto; rewrite ?not_elem_of_app.
    + intros (? & ? & ?). split_and!; [done|done|]. intros Hc.
      apply (f_equal length) in Hc. rewrite length_app in Hc.
      destruct c, seg; simplify_eq/=; lia.
    + intros (? & ? & ? & ?). split_and!; [done..| |done]. intros Hx. apply Hs in Hx. set_solver.
    + intros Hl0 Hl1. destruct (Hl0 Hl1) as (? & ? & ?). split_and!; [done..| |done].
      intros Hx. apply Hs in Hx. set_solver.
  - done.
  - done.
Qed.

(** The write of a pending link. *)
Lemma inv_prod_link q c t x y b :
  inv q c → prods q !! t = Some (PLink x y b) →
  inv (set_prod t (PDone b) (set_mem (set_next x y (memory q)) q)) c.
Proof.
  intros I Ht. destruct (inv_pending _ _ I x y) as [Ha Hn]; [left; eauto|].
  destruct (adj_elem _ _ _ Ha) as [Hx Hy].
  pose proof (inv_nodes _ _ I y Hy) as [Hy0 _].
  pose proof (inv_held _ _ _ I Hx) as Hh.
  assert (Hne : ∀ y', y' ≠ x → next_of (set_next x y (memory q)) y' = next_of (memory q) y').
  { intros y' ?. by apply next_of_set_next_ne. }
  assert (Hsx : stub_out (cons q) → x ≠ stub).
  { intros Hs ->. by apply (inv_stub _ _ I) in Hx. }
  destruct I. constructor; simpl; try done.
  - destruct inv_tail0 as (z & Hz & Hzn & Htl). exists z. split_and!; [done| |done].
    rewrite Hne; [done|]. apply not_eq_sym. by eapply adj_not_last.
  - intros a a' Hadj. destruct (decide (a = x)) as [->|Hax].
    + left. rewrite (adj_inj _ _ _ _ inv_nodup0 Hadj Ha). by erewrite next_of_set_next_eq.
    + rewrite Hne by done. destruct (inv_links0 _ _ Hadj) as [|[? Hp]]; [by left|right].
      split; [done|]. destruct Hp as [(t' & b' & Hp)|Hp]; [left|by right].
      exists t', b'. simpl. rewrite lookup_insert_ne by congruence. done.
  - intros a a' Hp. assert (pending q a a' ∧ a ≠ x) as [Hp' Hax].
    { destruct Hp as [(t' & b' & Hp)|[Hp ->]]; simpl in Hp.
      - apply lookup_insert_Some in Hp as [[_ [=]]|[N Hp]]. split; [left; eauto|].
        intros ->. apply N. by eapply inv_unique0.
      - split; [by right|]. intros ->. by eapply inv_unique'0. }
    rewrite Hne by done. by apply inv_pending0.
  - intros t1 t2 a a1 a2 b1 b2 [[_ [=]]|[_ HA]]%lookup_insert_Some [[_ [=]]|[_ HB]]%lookup_insert_Some.
    eauto.
  - intros t1 a a1 b1 [[_ [=]]|[_ HA]]%lookup_insert_Some. eauto.
  - intros t' p [[<- <-]|[N Hp]]%lookup_insert_Some; [done|].
    apply (seg_ok_mem q c p x y (cons q)); [|done|by eauto].
    intros Hin. specialize (inv_segs0 _ _ Hp).
    destruct p as [s|s| |]; simpl in *; try set_solver;
      destruct inv_segs0 as (_&_&_&Hs&_); by apply Hs in Hin as (_&_&_&?&_).
  - intros t1 t2 p p' a [[<- <-]|[N1 Hp]]%lookup_insert_Some [[<- <-]|[N2 Hp']]%lookup_insert_Some;
      simpl; first [set_solver | eauto].
  - revert inv_pc0. unfold pc_ok, stub_out in *. simpl. destruct (cons q); simpl in *; try done.
    + intros ?. rewrite Hne; [done|]. naive_solver.
    + intros [? Hhd]. split; [done|]. destruct (decide (head q = x)) as [->|].
      * erewrite next_of_set_next_eq by done. congruence.
      * by rewrite Hne.
    + by rewrite is_Some_set_next.
    + intros Hl1 Hl2. destruct (Hl1 Hl2) as (? & ? & ?). split_and!; [done..|].
      rewrite Hne; [done|]. set_solver.
  - by rewrite is_Some_set_next.
Qed.

(** *** Steps of the consumer *)

Lemma seg_ok_weaken q q' c c' p :
  memory q' = memory q → (∀ x, x ∈ c' → x ∈ c) →
  (∀ x, x ∈ cons_held (cons q') → x ∈ cons_held (cons q) ∨ x ∈ c ∨ x = nullptr) →
  seg_ok q c p → seg_ok q' c' p.
Proof.
  intros Hm Hc Hh. destruct p as [s|s| |]; simpl; try done; rewrite Hm;
    intros (?&?&?&Hs&?); split_and!; try done;
    intros x Hx; destruct (Hs x Hx) as (?&?&?&?&?&?); split_and!; try done;
    try (by intros ?%Hc); intros [?|[?|?]]%Hh; done.
Qed.

(** Unlinking the first node [h] of the queue, whose [next] is set. *)
Lemma inv_unlink q q' h y r :
  inv q (h :: y :: r) → next_of (memory q) h = Some y →
  memory q' = memory q → head q' = y → tail q' = tail q → prods q' = prods q →
  broken q' = broken q → (∀ p, cons q ≠ CIns2 p) → (∀ p, cons q' ≠ CIns2 p) →
  (∀ x, x ∈ cons_held (cons q') → x ∈ cons_held (cons q) ∨ x = h) →
  pushed q' = popped q' ++ filter (λ x, x ≠ stub) (y :: r) →
  (stub ∈ y :: r ↔ ¬ stub_out (cons q')) → pc_ok q' (y :: r) →
  inv q' (y :: r).
Proof.
  intros I Hy Em Eh Et Ep Eb Hc1 Hc2 Hh Hcont Hst Hpc.
  assert (Hpend : ∀ a b, pending q' a b ↔ pending q a b).
  { intros a b. unfold pending. rewrite Ep. split; intros [?|[Hp _]]; auto;
      [by apply Hc2 in Hp|by apply Hc1 in Hp]. }
  assert (Hph : ∀ b, ¬ pending q h b).
  { intros b Hp. destruct (inv_pending _ _ I _ _ Hp) as [_ Hn].
    pose proof (inv_nodes _ _ I y) as []; [set_solver|congruence]. }
  destruct I. pose proof inv_nodup0 as [Hhn Hnd]%NoDup_cons.
  constructor; rewrite ?Em, ?Eh, ?Et, ?Ep; try done.
  - intros x Hx. apply inv_nodes0. set_solver.
  - destruct inv_tail0 as (z & Hz & Hn & Htl). exists z. split_and!; [done..|].
    destruct Htl as [?|[_ [=]]]. by left.
  - intros a b Ha. rewrite Hpend. apply inv_links0. by right.
  - intros a b Hp%Hpend. destruct (inv_pending0 a b Hp) as [Ha ?]. split; [|done].
    eapply adj_tail; [done|done|]. intros ->. by apply (Hph b).
  - intros t p Hp. apply (seg_ok_weaken q q' (h :: y :: r)); [done|set_solver| |eauto].
    intros x [?| ->]%Hh; [by left|right; left; set_solver].
  - by rewrite Eb.
Qed.

Lemma head_cons q c : inv q c → c = head q :: list.tail c.
Proof. intros I. pose proof (inv_head _ _ I) as H. destruct c; by simplify_eq/=. Qed.

Lemma inv_linked q c h y r n :
  inv q c → c = h :: y :: r → next_of (memory q) h = Some n → n ≠ nullptr → n = y.
Proof.
  intros I -> Hn H0. destruct (inv_links _ _ I h y) as [?|[? _]]; [by left|congruence..].
Qed.

(** [head = stub.next] removes the stub. *)
Lemma inv_cons_wait_stub q c q' :
  inv q c → cons q = CWaitStub → cons_step stub q = Some q' →
  ∃ c', inv q' c'.
Proof.
  intros I Hc. unfold cons_step. rewrite Hc.
  pose proof (inv_pc _ _ I) as Hpc. unfold pc_ok in Hpc. rewrite Hc in Hpc.
  destruct Hpc as (Hh & Hm & Hne). pose proof (head_cons _ _ I) as E. rewrite Hh in E.
  destruct (inv_stub_ok _ _ I) as (_ & _ & [n Hn]).
  erewrite access_load by done.
  destruct (Z.eqb_spec n nullptr) as [->|H0]; intros [= <-]; [by exists c|].
  destruct c as [|h [|y r]]; [done|by rewrite E in Hne|]. simplify_eq.
  assert (n = y) as -> by (by eapply inv_linked). exists (y :: r).
  pose proof (inv_nodup _ _ I) as [Hs _]%NoDup_cons.
  eapply (inv_unlink q); try done; simpl.
  - intros p. by rewrite Hc.
  - set_solver.
  - rewrite (inv_content _ _ I). by rewrite filter_cons_False by (intros ?; done).
  - unfold stub_out. naive_solver.
Qed.

(** [l = head; head = head->next] takes the first element. *)
Lemma inv_cons_take q c q' :
  inv q c → cons q = CTake → cons_step stub q = Some q' →
  ∃ c', inv q' c'.
Proof.
  intros I Hc. unfold cons_step. rewrite Hc.
  pose proof (inv_pc _ _ I) as Hpc. unfold pc_ok in Hpc. rewrite Hc in Hpc.
  destruct Hpc as (Hh & Hnn). pose proof (head_cons _ _ I) as E.
  assert (Hst : stub ∈ c) by (apply (inv_stub _ _ I); rewrite Hc; by intros [?|?]).
  destruct c as [|h [|y r]]; [done|set_solver|]. injection E as E. subst h.
  destruct (inv_links _ _ I (head q) y) as [Hn|[? _]]; [by left| |done].
  erewrite access_load by done. intros [= <-]. exists (y :: r).
  pose proof (inv_nodup _ _ I) as [Hs _]%NoDup_cons.
  pose proof (inv_nodes _ _ I (head q)) as [Hh0 _]; [set_solver|].
  eapply (inv_unlink q); try done; simpl.
  - intros p. by rewrite Hc.
  - intros x ->%list_elem_of_singleton. by right.
  - rewrite (inv_content _ _ I), filter_cons_True by done. by rewrite <-app_assoc.
  - unfold stub_out. set_solver.
Qed.

(** [stub.next = nullptr], while the stub is off the queue. *)
Lemma inv_cons_ins0 q c :
  inv q c → cons q = CIns0 →
  inv (set_cons CIns1 (set_mem (set_next stub nullptr (memory q)) q)) c.
Proof.
  intros I Hc. assert (Hst : stub ∉ c).
  { intros Hin. apply (inv_stub _ _ I) in Hin. rewrite Hc in Hin. apply Hin. by left. }
  assert (Hf : ∀ y, y ∈ c → next_of (set_next stub nullptr (memory q)) y = next_of (memory q) y).
  { intros y Hy. apply next_of_set_next_ne. congruence. }
  assert (Hpend : ∀ a b, pending (set_cons CIns1 (set_mem (set_next stub nullptr (memory q)) q)) a b
            ↔ pending q a b).
  { intros a b. unfold pending. simpl. rewrite Hc. naive_solver. }
  destruct I. constructor; simpl; try done.
  - destruct inv_tail0 as (z & Hz & Hn & Htl). exists z. split_and!; [done| |done].
    rewrite Hf; [done|]. apply last_Some in Hz as [w ->]. set_solver.
  - intros a b Ha. rewrite Hpend, Hf by (by apply adj_elem in Ha as [? _]). auto.
  - intros a b Hp%Hpend. destruct (inv_pending0 a b Hp) as [Ha ?].
    rewrite Hf by (by apply adj_elem in Ha as [? _]). done.
  - intros t p Hp. apply seg_ok_mem; [|set_solver|eauto].
    specialize (inv_segs0 _ _ Hp). destruct p as [s|s| |]; simpl in *; try set_solver.
  - rewrite inv_stub0, Hc. unfold stub_out. naive_solver.
  - unfold pc_ok. simpl. destruct inv_stub_ok0 as (_ & _ & [n Hn]).
    by erewrite next_of_set_next_eq.
  - by rewrite is_Some_set_next.
Qed.

(** The consumer's exchange: the stub joins the queue at the end. *)
Lemma inv_cons_ins1 q c :
  inv q c → cons q = CIns1 →
  inv (set_cons (CIns2 (unmark (tail q))) (set_tail stub q)) (c ++ [stub]).
Proof.
  intros I Hc. assert (Hst : stub ∉ c).
  { intros Hin. apply (inv_stub _ _ I) in Hin. rewrite Hc in Hin. apply Hin. by right. }
  destruct (inv_tail_unmark _ _ I) as (z & Hcz & ->).
  assert (Hpz : ∀ y, ¬ pending q z y) by (intros y Hp; by eapply pending_adj).
  pose proof (inv_pc _ _ I) as Hns. unfold pc_ok in Hns. rewrite Hc in Hns.
  pose proof (inv_head_elem _ _ I) as Hhd.
  assert (Hpend : ∀ a b, pending (set_cons (CIns2 z) (set_tail stub q)) a b
            ↔ pending q a b ∨ (a = z ∧ b = stub)).
  { intros a b. unfold pending. simpl. rewrite Hc. naive_solver. }
  destruct I. constructor; simpl; try done.
  - apply NoDup_app. split_and!; [done| |apply NoDup_singleton]. set_solver.
  - intros x [?|Hx]%elem_of_app; [by apply inv_nodes0|].
    apply list_elem_of_singleton in Hx as ->. tauto.
  - by destruct c.
  - exists stub. split_and!; [apply last_snoc|done|by left].
  - intros x y Ha. rewrite Hpend. apply adj_app in Ha as [Ha|[[Hx Hy]|Ha]].
    + destruct (inv_links0 x y Ha) as [|[? ?]]; auto.
    + simplify_eq/=. right. split; [|by right].
      destruct inv_tail0 as (z' & Hz' & Hn & _). by simplify_eq.
    + simpl in Ha. naive_solver.
  - intros x y [Hp|[-> ->]]%Hpend.
    + destruct (inv_pending0 x y Hp) as [Ha Hn]. split; [|done]. apply adj_app. by left.
    + split; [apply adj_app; naive_solver|].
      destruct inv_tail0 as (z' & Hz' & Hn & _). by simplify_eq.
  - intros t x y b Hp [= ->]. apply (Hpz y). left. eauto.
  - intros t p Hp. specialize (inv_segs0 _ _ Hp).
    destruct p as [s|s| |]; simpl in *; try done;
      destruct inv_segs0 as (?&?&?&Hs&?); split_and!; try done;
      intros x Hx; destruct (Hs x Hx) as (?&?&?&?&?&?); split_and!; try done; set_solver.
  - rewrite inv_content0, filter_app, filter_cons_False by (intros ?; done).
    by rewrite filter_nil, app_nil_r.
  - unfold stub_out. set_solver.
  - unfold pc_ok. simpl. congruence.
Qed.

(** The consumer's write of the pending link to the stub. *)
Lemma inv_cons_ins2 q c x :
  inv q c → cons q = CIns2 x →
  inv (set_cons CWaitHead (set_mem (set_next x stub (memory q)) q)) c.
Proof.
  intros I Hc. destruct (inv_pending _ _ I x stub) as [Ha Hn]; [by right|].
  destruct (adj_elem _ _ _ Ha) as [Hx Hy].
  assert (Hne : ∀ y', y' ≠ x → next_of (set_next x stub (memory q)) y' = next_of (memory q) y').
  { intros y' ?. by apply next_of_set_next_ne. }
  pose proof (inv_pc _ _ I) as Hpc. unfold pc_ok in Hpc. rewrite Hc in Hpc.
  destruct I. constructor; simpl; try done.
  - destruct inv_tail0 as (z & Hz & Hzn & Htl). exists z. split_and!; [done| |done].
    rewrite Hne; [done|]. apply not_eq_sym. by eapply adj_not_last.
  - intros a a' Hadj. destruct (decide (a = x)) as [->|Hax].
    + left. rewrite (adj_inj _ _ _ _ inv_nodup0 Hadj Ha). by erewrite next_of_set_next_eq.
    + rewrite Hne by done. destruct (inv_links0 _ _ Hadj) as [|[? Hp]]; [by left|right].
      split; [done|]. destruct Hp as [Hp|[Hp _]]; [by left|]. congruence.
  - intros a a' Hp. destruct Hp as [(t' & b' & Hp)|[Hp _]]; [|done]. simpl in Hp.
    rewrite Hne; [apply inv_pending0; left; eauto|].
    intros ->. by apply (inv_unique'0 _ _ _ _ Hp).
  - intros t p Hp. apply (seg_ok_mem q c p x stub CWaitHead); [|set_solver|by eauto].
    intros Hin. specialize (inv_segs0 _ _ Hp).
    destruct p as [s|s| |]; simpl in *; try set_solver;
      destruct inv_segs0 as (_&_&_&Hs&_); by apply Hs in Hin as (_&_&_&?&_).
  - rewrite inv_stub0, Hc. unfold stub_out. naive_solver.
  - by rewrite is_Some_set_next.
Qed.

(** [l->next = nullptr] for the node taken out. *)
Lemma inv_cons_clear q c l :
  inv q c → cons q = CClear l →
  inv (set_cons (CRet l) (set_mem (set_next l nullptr (memory q)) q)) c.
Proof.
  intros I Hc. pose proof (inv_pc _ _ I) as Hpc. unfold pc_ok in Hpc. rewrite Hc in Hpc.
  destruct Hpc as (Hl0 & Hls & Hlc & [n Hln]).
  assert (Hf : ∀ y, y ∈ c → next_of (set_next l nullptr (memory q)) y = next_of (memory q) y).
  { intros y Hy. apply next_of_set_next_ne. congruence. }
  assert (Hpend : ∀ a b, pending (set_cons (CRet l) (set_mem (set_next l nullptr (memory q)) q)) a b
            ↔ pending q a b).
  { intros a b. unfold pending. simpl. rewrite Hc. naive_solver. }
  destruct I. constructor; simpl; try done.
  - destruct inv_tail0 as (z & Hz & Hn & Htl). exists z. split_and!; [done| |done].
    rewrite Hf; [done|]. apply last_Some in Hz as [w ->]. set_solver.
  - intros a b Ha. rewrite Hpend, Hf by (by apply adj_elem in Ha as [? _]). auto.
  - intros a b Hp%Hpend. destruct (inv_pending0 a b Hp) as [Ha ?].
    rewrite Hf by (by apply adj_elem in Ha as [? _]). done.
  - intros t p Hp. apply seg_ok_mem; [|by rewrite Hc|eauto].
    specialize (inv_segs0 _ _ Hp).
    destruct p as [s|s| |]; simpl in *; rewrite ?Hc in inv_segs0; try set_solver;
      destruct inv_segs0 as (_&_&_&Hs&_); intros Hin; apply Hs in Hin; set_solver.
  - rewrite inv_stub0, Hc. unfold stub_out. naive_solver.
  - unfold pc_ok. simpl. intros _. split_and!; [done..|]. by erewrite next_of_set_next_eq.
  - by rewrite is_Some_set_next.
Qed.

Lemma inv_head_alloc q c : inv q c → is_Some (next_of (memory q) (head q)).
Proof.
  intros I. pose proof (head_cons _ _ I) as E. destruct c as [|h [|y r]]; [done|..].
  - destruct (inv_tail _ _ I) as (z & Hz & Hn & _). simplify_eq/=. eauto.
  - injection E as <-. destruct (inv_links _ _ I h y) as [?|[? _]]; [by left|eauto..].
Qed.

(** A successful compare-and-exchange means that only the stub is queued. *)
Lemma inv_only_stub q c : inv q c → head q = stub → tail q = stub → c = [stub].
Proof.
  intros I Hh Ht. pose proof (head_cons _ _ I) as E. rewrite Hh in E.
  destruct (inv_tail_unmark _ _ I) as (z & Hz & Hu).
  rewrite Ht, unmark_aligned in Hu by apply (inv_stub_ok _ _ I). subst z.
  pose proof (inv_nodup _ _ I) as Hnd. apply last_Some in Hz as [w ->].
  apply NoDup_app in Hnd as (_ & Hd & _).
  destruct w as [|s w]; [done|]. simplify_eq/=. exfalso. apply (Hd stub); set_solver.
Qed.

Lemma inv_cons_cas q :
  inv q [stub] → cons q = CCas →
  inv (set_cons (CRet nullptr) (set_tail (mark stub) q)) [stub].
Proof.
  intros I Hc.
  assert (Hpend : ∀ a b, pending (set_cons (CRet nullptr) (set_tail (mark stub) q)) a b
            ↔ pending q a b).
  { intros a b. unfold pending. simpl. rewrite Hc. naive_solver. }
  destruct I. constructor; simpl; try done.
  - destruct inv_tail0 as (z & Hz & Hn & Htl). exists z. simplify_eq/=. auto.
  - intros a b Ha. rewrite Hpend. auto.
  - intros a b Hp%Hpend. by apply inv_pending0.
  - intros t p Hp. apply (seg_ok_weaken q _ [stub]); [done|done|set_solver|eauto].
  - rewrite inv_stub0, Hc. unfold stub_out. naive_solver.
Qed.

Lemma inv_cons_step q c q' :
  inv q c → cons_step stub q = Some q' → ∃ c', inv q' c'.
Proof.
  intros I Hs. pose proof (inv_pc _ _ I) as Hpc. unfold pc_ok in Hpc.
  destruct (cons q) eqn:Hc; try (by eapply inv_cons_wait_stub); try (by eapply inv_cons_take);
    unfold cons_step in Hs; rewrite Hc in Hs; try done.
  - simplify_eq. exists c.
    destruct (Z.eqb_spec (head q) stub); (apply inv_set_cons; [done|by rewrite Hc|done| |set_solver|done]);
      rewrite Hc; unfold stub_out; naive_solver.
  - simplify_eq. exists c.
    destruct (marked (tail q)) eqn:Hm; (apply inv_set_cons; [done|by rewrite Hc|done| |set_solver|done]);
      rewrite Hc; unfold stub_out; naive_solver.
  - destruct Hpc as [Hh Hm].
    destruct (Z.eqb_spec (tail q) stub) as [Ht|Ht]; simplify_eq; exists c.
    + assert (c = [stub]) as -> by (by eapply inv_only_stub). by apply inv_cons_cas.
    + apply inv_set_cons; [done|by rewrite Hc|done| |set_solver|].
      * rewrite Hc; unfold stub_out; naive_solver.
      * split_and!; [done..|]. intros ->. destruct (inv_tail _ _ I) as (z & Hz & _ & Htl).
        simplify_eq/=. destruct Htl as [?|[E _]]; [done|].
        rewrite E, marked_mark in Hm by apply (inv_stub_ok _ _ I). done.
  - destruct (inv_stub_ok _ _ I) as (_ & _ & [n Hn]).
    erewrite access_store in Hs by done. simplify_eq. exists c. by apply inv_cons_ins0.
  - simplify_eq. exists (c ++ [stub]). by apply inv_cons_ins1.
  - destruct (inv_pending _ _ I prv stub) as [_ Hn]; [by right|].
    erewrite access_store in Hs by done. simplify_eq. exists c. by apply inv_cons_ins2.
  - destruct (inv_head_alloc _ _ I) as [n Hn]. erewrite access_load in Hs by done.
    destruct (Z.eqb_spec n nullptr) as [->|H0]; simplify_eq; exists c; [done|].
    apply inv_set_cons; [done|by rewrite Hc|done| |set_solver|].
    + rewrite Hc; unfold stub_out; naive_solver.
    + split; [done|]. simpl. congruence.
  - destruct Hpc as (_ & _ & _ & [n Hn]).
    erewrite access_store in Hs by done. simplify_eq. exists c. by apply inv_cons_clear.
Qed.

Lemma inv_qstep a q c q' : inv q c → qstep stub a q = Some q' → ∃ c', inv q' c'.
Proof.
  intros I Hs. destruct a as [t seg|t|t| | |]; simpl in Hs.
  - simplify_option_eq. destruct_and!. exists c. by apply inv_push.
  - unfold prod_step in Hs. destruct (prods q !! t) as [[seg|seg|x y b|b]|] eqn:Ht; [..|done].
    + destruct (last seg) as [lst|] eqn:Hl; simplify_eq/=.
      pose proof (inv_segs _ _ I _ _ Ht) as (_ & _ & _ & Hx & _).
      destruct (Hx lst) as (_&_&_&_&_&[n Hn]); [apply last_Some in Hl as [? ->]; set_solver|].
      erewrite access_store by done. exists c. by apply inv_prod_init.
    + destruct (list.head seg) as [f|] eqn:Hf; simplify_eq/=.
      destruct (last seg) as [l|] eqn:Hl; simplify_eq/=.
      exists (c ++ seg). by apply inv_prod_exch.
    + destruct (inv_pending _ _ I x y) as [_ Hn]; [left; eauto|].
      erewrite access_store in Hs by done. simplify_eq. exists c. by apply inv_prod_link.
    + done.
  - destruct (prods q !! t) as [[| | |b]|] eqn:Ht; simplify_eq. exists c.
    by eapply inv_push_ret.
  - destruct (cons q) eqn:Hc; simplify_eq. exists c.
    apply inv_set_cons; [done|by rewrite Hc|done| |set_solver|done].
    rewrite Hc; unfold stub_out; naive_solver.
  - by eapply inv_cons_step.
  - destruct (cons q) eqn:Hc; simplify_eq. exists c.
    apply inv_set_cons; [done|by rewrite Hc|done| |set_solver|done].
    rewrite Hc; unfold stub_out; naive_solver.
Qed.

Lemma inv_reachable m q :
  stub ≠ nullptr → aligned stub → next_of m stub = Some nullptr →
  reachable (qstep stub) (mpsc_init stub m) q → ∃ c, inv q c.
Proof.
  intros ???. apply (invariant_reachable _ (λ q, ∃ c, inv q c)).
  - exists [stub]. by apply inv_init.
  - intros a s s' [c I] Hs. by eapply inv_qstep.
Qed.
End invariant.

(** ** What the queue promises *)

Section theorems.
Context (stub : addr).

(** The queue as constructed, over a memory that holds its stub. *)
Definition valid_init (m : mem) : Prop :=
  stub ≠ nullptr ∧ aligned stub ∧ next_of m stub = Some nullptr.

#[global] Instance valid_init_dec m : Decision (valid_init m).
Proof. unfold valid_init. apply _. Defined.

(** The node [pop] hands out is the last one it unlinked. *)
Definition ret_last (q : mpsc) : Prop :=
  match cons q with
  | CClear l => last (popped q) = Some l
  | CRet l => l ≠ nullptr → last (popped q) = Some l
  | _ => True
  end.

Lemma access_cons {A} (c : M mem A) q k (P : mpsc → Prop) :
  (∀ a m, P (k a m)) →
  P (mkMpsc (memory q) (head q) (tail q) (prods q) (cons q) true (pushed q) (popped q)) →
  P (access c q k).
Proof. intros Hk Hb. unfold access. destruct (c (memory q)) as [[a m]|]; auto. Qed.

Lemma ret_last_step a q q' : ret_last q → qstep stub a q = Some q' → ret_last q'.
Proof.
  unfold ret_last. intros Hr Hs.
  destruct a as [t seg|t|t| | |]; simpl in Hs.
  - simplify_option_eq. done.
  - unfold prod_step in Hs.
    destruct (prods q !! t) as [[seg|seg|x y b|b]|]; simplify_option_eq; try done;
      apply (access_cons _ _ _ ret_last); done.
  - destruct (prods q !! t) as [[| | |b]|]; by simplify_eq.
  - destruct (cons q) eqn:Hc; by simplify_eq.
  - unfold cons_step in Hs. destruct (cons q) eqn:Hc; simplify_eq; simpl; try done;
      try (by destruct (head q =? stub)%Z);
      try (destruct (marked (tail q)); simpl; naive_solver);
      try (destruct (tail q =? stub)%Z; simpl; naive_solver);
      apply (access_cons _ _ _ ret_last); unfold ret_last; simpl; rewrite ?Hc; try done;
      intros a m; try (destruct (a =? nullptr)%Z; simpl; by rewrite ?Hc).
    by apply last_snoc.
  - destruct (cons q) eqn:Hc; by simplify_eq.
Qed.

Lemma ret_last_reachable m q :
  reachable (qstep stub) (mpsc_init stub m) q → ret_last q.
Proof. apply (invariant_reachable _ ret_last); [done|]. intros a s s'. apply ret_last_step. Qed.

(** The steps at which [pop] decides to return null. *)
Lemma pop_null_only_stub q c q' :
  inv stub q c → cons_step stub q = Some q' → cons q' = CRet nullptr → c = [stub].
Proof.
  intros I Hs Hr. pose proof (inv_pc _ _ _ I) as Hpc. unfold pc_ok in Hpc.
  unfold cons_step in Hs. destruct (cons q) eqn:Hc; simplify_eq; simpl in Hr.
  - by destruct (head q =? stub)%Z.
  - destruct (marked (tail q)) eqn:Hm; [|done].
    destruct (inv_tail _ _ _ I) as (z & Hz & _ & [Ht|[_ ?]]); [|done].
    rewrite Ht, marked_aligned in Hm; [done|]. apply (inv_nodes _ _ _ I).
    apply last_Some in Hz as [w ->]. set_solver.
  - destruct (Z.eqb_spec (tail q) stub) as [Ht|Ht]; [|done].
    destruct Hpc as [Hh _]. by eapply inv_only_stub.
  - destruct (inv_stub_ok _ _ _ I) as (_ & _ & [n Hn]). erewrite access_load in Hr by done.
    destruct (n =? nullptr)%Z; simpl in Hr; congruence.
  - destruct (inv_stub_ok _ _ _ I) as (_ & _ & [n Hn]). by erewrite access_store in Hr.
  - destruct (inv_pending _ _ _ I prv stub) as [_ Hn]; [by right|]. by erewrite access_store in Hr.
  - destruct (inv_head_alloc _ _ _ I) as [n Hn]. erewrite access_load in Hr by done.
    destruct (n =? nullptr)%Z; simpl in Hr; congruence.
  - destruct (inv_head_alloc _ _ _ I) as [n Hn]. by erewrite access_load in Hr.
  - destruct Hpc as (Hl & _ & _ & [n Hn]). erewrite access_store in Hr by done.
    simpl in Hr. congruence.
Qed.

(** ** A [pop] that meets no producer in the middle of a link

    Bounds the number of its steps and says what it returns. *)
Definition rank (c : cpc) : nat :=
  match c with
  | CEnter => 10 | CLoadTail => 9 | CCas => 8 | CWaitStub => 7 | CIns0 => 6 | CIns1 => 5
  | CIns2 _ => 4 | CWaitHead => 3 | CTake => 2 | CClear _ => 1 | CIdle | CRet _ => 0
  end.

(** The consumer is on its way to [x], [q0] being the state at the call. *)
Definition popping (q0 : mpsc) (x : addr) (q : mpsc) : Prop :=
  pushed q = pushed q0 ∧ prods q = prods q0 ∧ dom (memory q) = dom (memory q0) ∧
  match cons q with
  | CClear l | CRet l => l = x ∧ popped q = popped q0 ++ [x]
  | CIdle => False
  | _ => popped q = popped q0
  end.

Definition no_link_pending (q : mpsc) : Prop :=
  ∀ t x y b, prods q !! t ≠ Some (PLink x y b).

Lemma dom_set_next (m : mem) x v : dom (set_next x v m) = dom m.
Proof.
  unfold set_next. apply set_eq. intros y. rewrite !elem_of_dom.
  rewrite lookup_alter. case_decide; subst; by rewrite ?fmap_is_Some.
Qed.

Lemma inv_linked_now q c x y :
  inv stub q c → no_link_pending q → (∀ z, cons q ≠ CIns2 z) → adj c x y →
  next_of (memory q) x = Some y ∧ y ≠ nullptr.
Proof.
  intros I Hnp Hc Ha. pose proof (adj_elem _ _ _ Ha) as [_ Hy].
  split; [|by apply (inv_nodes _ _ _ I)].
  destruct (inv_links _ _ _ I _ _ Ha) as [?|[_ [(t & b & Ht)|[? _]]]]; [done|..];
    [by apply Hnp in Ht|naive_solver].
Qed.

Lemma inv_nonempty q c old x rest :
  inv stub q c → pushed q = old ++ x :: rest → popped q = old →
  c ≠ [stub] ∧ (head q ≠ stub → head q = x).
Proof.
  intros I Hp Ho. pose proof (inv_content _ _ _ I) as Hcon.
  rewrite Hp, Ho in Hcon. apply app_inv_head in Hcon. split.
  - intros ->. by rewrite filter_cons_False, filter_nil in Hcon by (intros ?; done).
  - intros Hh. rewrite (head_cons _ _ _ I), filter_cons_True in Hcon by done. congruence.
Qed.

Lemma inv_head_adj q c :
  inv stub q c → c ≠ [head q] → ∃ y, adj c (head q) y.
Proof.
  intros I Hne. pose proof (head_cons _ _ _ I) as Ec.
  destruct c as [|h [|y r]]; simplify_eq/=; eauto.
Qed.

Lemma popping_step q0 x rest q c :
  inv stub q c → no_link_pending q0 → pushed q0 = popped q0 ++ x :: rest →
  popping q0 x q → 0 < rank (cons q) →
  ∃ q', cons_step stub q = Some q' ∧ popping q0 x q' ∧ rank (cons q') < rank (cons q).
Proof.
  intros I Hnp Hpush (E1 & E2 & E3 & E4) Hrk.
  assert (Hnp' : no_link_pending q) by (intros ????; rewrite E2; apply Hnp).
  pose proof (inv_pc _ _ _ I) as Hpc. unfold pc_ok in Hpc.
  pose proof (λ H, inv_nonempty q c (popped q0) x rest I (eq_trans E1 Hpush) H) as Hne.
  pose proof (inv_stub_ok _ _ _ I) as (_ & _ & [ns Hns]).
  unfold popping, cons_step.
  destruct (cons q) eqn:Hc; simpl in Hrk; try lia; try (destruct (Hne E4) as [Hne1 Hne2]).
  - eexists. split; [done|]. simpl. destruct (head q =? stub)%Z; simpl; split_and!; (done || lia).
  - eexists. split; [done|]. destruct (marked (tail q)) eqn:Hm; simpl.
    + destruct (inv_tail _ _ _ I) as (z & Hz & _ & [Ht|[_ ?]]); [|done].
      rewrite Ht, marked_aligned in Hm; [done|]. apply (inv_nodes _ _ _ I).
      apply last_Some in Hz as [w ->]. set_solver.
    + split_and!; (done || lia).
  - eexists. split; [done|]. destruct Hpc as [Hh _].
    destruct (Z.eqb_spec (tail q) stub) as [Ht|Ht]; simpl; [|split_and!; (done || lia)].
    by destruct Hne1; eapply inv_only_stub.
  - destruct Hpc as (Hh & _ & Hc1). destruct (inv_head_adj _ _ I) as [y Hy]; [by rewrite Hh|].
    destruct (inv_linked_now _ _ _ _ I Hnp' ltac:(congruence) Hy) as [Hn Hy0].
    rewrite Hh in Hn. erewrite access_load by done.
    destruct (Z.eqb_spec y nullptr); [done|]. eexists. split; [done|]. simpl.
    split_and!; (done || lia).
  - erewrite access_store by done. eexists. split; [done|]. simpl. rewrite dom_set_next.
    split_and!; (done || lia).
  - eexists. split; [done|]. simpl. split_and!; (done || lia).
  - destruct (inv_pending _ _ _ I prv stub) as [_ Hn]; [by right|].
    erewrite access_store by done. eexists. split; [done|]. simpl. rewrite dom_set_next.
    split_and!; (done || lia).
  - assert (stub ∈ c) by (apply (inv_stub _ _ _ I); rewrite Hc; by intros [?|?]).
    destruct (inv_head_adj _ _ I) as [y Hy]; [intros Hc1; rewrite Hc1 in *; set_solver|].
    destruct (inv_linked_now _ _ _ _ I Hnp' ltac:(congruence) Hy) as [Hn Hy0].
    erewrite access_load by done. destruct (Z.eqb_spec y nullptr); [done|].
    eexists. split; [done|]. simpl. split_and!; (done || lia).
  - destruct (inv_head_alloc _ _ _ I) as [n Hn]. erewrite access_load by done.
    eexists. split; [done|]. simpl. destruct Hpc as [Hh _]. rewrite (Hne2 Hh), E4.
    split_and!; (done || lia).
  - destruct Hpc as (_ & _ & _ & [n Hn]), E4. erewrite access_store by done.
    eexists. split; [done|]. simpl. rewrite dom_set_next. split_and!; (done || lia).
Qed.

Lemma pop_delivers q0 x rest q c :
  inv stub q c → no_link_pending q0 → pushed q0 = popped q0 ++ x :: rest →
  popping q0 x q →
  ∃ n q' c', n ≤ rank (cons q) ∧ run (qstep stub) (replicate n QCons) q = Some q' ∧
    inv stub q' c' ∧ popping q0 x q' ∧ cons q' = CRet x.
Proof.
  intros I Hnp Hpush. remember (rank (cons q)) as k eqn:Hk. revert q c I Hk.
  induction (lt_wf k) as [k _ IH]. intros q c I Hk Hpop.
  destruct (decide (rank (cons q) = 0)) as [H0|H0].
  - exists 0, q, c. split_and!; auto; [lia|]. destruct Hpop as (_ & _ & _ & Hm).
    destruct (cons q); simpl in *; try lia; try done. by destruct Hm as [-> _].
  - destruct (popping_step q0 x rest q c) as (q1 & Hs & Hp1 & Hr1); auto; [lia|].
    destruct (inv_qstep _ QCons _ _ _ I Hs) as [c1 I1].
    destruct (IH (rank (cons q1)) ltac:(lia) q1 c1 I1 eq_refl Hp1)
      as (n & q' & c' & Hn & Hrun & Hrest).
    exists (S n), q', c'. split; [lia|]. split; [|done]. simpl. by rewrite Hs.
Qed.

(** A [push] that runs its three steps. *)
Lemma push_runs q c t seg :
  inv stub q c → prods q !! t = Some (PInit seg) →
  ∃ q' c', run (qstep stub) [QProd t; QProd t; QProd t] q = Some q' ∧ inv stub q' c' ∧
    prods q' = <[t := PDone (marked (tail q))]> (prods q) ∧
    pushed q' = pushed q ++ seg ∧ popped q' = popped q ∧ cons q' = cons q ∧
    dom (memory q') = dom (memory q).
Proof.
  intros I Ht. pose proof (inv_segs _ _ _ I _ _ Ht) as (Hne & _ & _ & Hs & _).
  destruct seg as [|f r]; [done|].
  destruct (last (f :: r)) as [lst|] eqn:Hl; [|by apply last_None in Hl].
  pose proof (inv_prod_init _ _ _ _ _ _ I Ht Hl) as I1.
  set (q1 := set_prod t (PExch (f :: r)) _) in I1.
  assert (Ht1 : prods q1 !! t = Some (PExch (f :: r))) by apply lookup_insert_eq.
  pose proof (inv_prod_exch _ _ _ _ _ f _ I1 Ht1 eq_refl Hl) as I2.
  set (q2 := set_prod t (PLink _ _ _) _) in I2.
  assert (Ht2 : prods q2 !! t = Some (PLink (unmark (tail q1)) f (marked (tail q1))))
    by apply lookup_insert_eq.
  destruct (inv_pending _ _ _ I2 (unmark (tail q1)) f) as [_ Hnp]; [left; eauto|].
  destruct (Hs lst) as (_&_&_&_&_&[n Hln]); [apply last_Some in Hl as [? ->]; set_solver|].
  assert (S1 : prod_step t q = Some q1)
    by (unfold prod_step; rewrite Ht; simpl; rewrite Hl; simpl; by erewrite access_store).
  assert (S2 : prod_step t q1 = Some q2)
    by (unfold prod_step; rewrite Ht1; simpl; by rewrite Hl).
  do 2 eexists. split_and!.
  - simpl. rewrite S1. simpl. rewrite S2. simpl. unfold prod_step. rewrite Ht2. simpl.
    erewrite access_store by done. reflexivity.
  - apply (inv_prod_link _ _ _ _ _ _ _ I2 Ht2).
  - simpl. by rewrite !insert_insert_eq.
  - done.
  - done.
  - done.
  - simpl. by rewrite !dom_set_next.
Qed.
End theorems.

(** C1. The lock-free queue is FIFO and memory safe under every interleaving
    of any number of producers with the consumer: no access goes through a
    dead address, the nodes popped are, in order, a prefix of the nodes
    pushed in the order of the producers' exchanges (none lost, duplicated or
    reordered), and the node [pop] returns is the last one unlinked. *)
Theorem mpsc_fifo stub m q :
  valid_init stub m → reachable (qstep stub) (mpsc_init stub m) q →
  broken q = false ∧ popped q `prefix_of` pushed q ∧
  (∀ l, cons q = CRet l → l ≠ nullptr → last (popped q) = Some l).
Proof.
  intros (H0 & Ha & Hn) Hr. destruct (inv_reachable stub m q H0 Ha Hn Hr) as [c I].
  split_and!; [apply (inv_ok _ _ _ I)|rewrite (inv_content _ _ _ I); by eexists|].
  intros l Hc Hl. pose proof (ret_last_reachable _ _ _ Hr) as Hret.
  unfold ret_last in Hret. rewrite Hc in Hret. auto.
Qed.

(** [pop] returns null only when the queue is empty: at the step at
    which it decides to, every node whose push has reached the exchange has
    been popped. *)
Theorem mpsc_pop_null_empty stub m q q' :
  valid_init stub m → reachable (qstep stub) (mpsc_init stub m) q →
  qstep stub QCons q = Some q' → cons q' = CRet nullptr →
  pushed q = popped q.
Proof.
  intros (H0 & Ha & Hn) Hr Hs Hc. destruct (inv_reachable stub m q H0 Ha Hn Hr) as [c I].
  rewrite (inv_content _ _ _ I), (pop_null_only_stub _ _ _ _ I Hs Hc).
  rewrite filter_cons_False by (intros ?; done). by rewrite filter_nil, app_nil_r.
Qed.

(** The consumer's two spin loops only ever wait for a producer that is
    between its exchange and its link, and one step of that producer ends
    the wait. *)
Theorem mpsc_spin_progress stub m q x :
  valid_init stub m → reachable (qstep stub) (mpsc_init stub m) q →
  (cons q = CWaitStub ∧ x = stub) ∨ (cons q = CWaitHead ∧ x = head q) →
  next_of (memory q) x = Some nullptr →
  ∃ t q', qstep stub (QProd t) q = Some q' ∧ cons q' = cons q ∧ head q' = head q ∧
          ∃ y, next_of (memory q') x = Some y ∧ y ≠ nullptr.
Proof.
  intros (H0 & Ha & Hn) Hr Hx Hnx. destruct (inv_reachable stub m q H0 Ha Hn Hr) as [c I].
  pose proof (inv_pc _ _ _ I) as Hpc. pose proof (head_cons _ _ _ I) as Ec.
  assert (∃ y, adj c x y) as [y Hadj].
  { unfold pc_ok in Hpc. destruct Hx as [[Hc ->]|[Hc ->]]; rewrite Hc in Hpc.
    - destruct Hpc as (Hh & _ & Hne). rewrite Hh in Ec.
      destruct c as [|h [|y r]]; simplify_eq/=; eauto.
    - assert (stub ∈ c) by (apply (inv_stub _ _ _ I); rewrite Hc; by intros [?|?]).
      destruct c as [|h [|y r]]; simplify_eq/=; [set_solver|eauto]. }
  pose proof (inv_nodes _ _ _ I y) as [Hy0 _]; [by apply adj_elem in Hadj as [_ ?]|].
  destruct (inv_links _ _ _ I x y Hadj) as [?|[_ Hp]]; [congruence|].
  destruct Hp as [(t & b & Ht)|[Hp _]]; [|destruct Hx as [[Hc _]|[Hc _]]; congruence].
  exists t. eexists. simpl. unfold prod_step. rewrite Ht.
  erewrite access_store by done. split_and!; [done..|]. simpl.
  erewrite next_of_set_next_eq by done. eauto.
Qed.

(** [push] is wait-free: whatever the other threads have done, three
    steps of its own take a producer from the call to the return; the nodes
    are then queued after everything exchanged before, and the result says
    whether [tail] carried the empty mark. *)
Theorem mpsc_push_wait_free stub m q t seg :
  valid_init stub m → reachable (qstep stub) (mpsc_init stub m) q →
  prods q !! t = Some (PInit seg) →
  ∃ q', run (qstep stub) [QProd t; QProd t; QProd t] q = Some q' ∧
    prods q' !! t = Some (PDone (marked (tail q))) ∧
    pushed q' = pushed q ++ seg ∧ broken q' = false.
Proof.
  intros (H0 & Ha & Hn) Hr Ht. destruct (inv_reachable stub m q H0 Ha Hn Hr) as [c I].
  destruct (push_runs _ _ _ _ _ I Ht) as (q' & c' & Hrun & I' & Hp & Hpush & _).
  exists q'. rewrite Hp, lookup_insert_eq. split_and!; [done..|]. apply (inv_ok _ _ _ I').
Qed.

(** A run with two producers that overlap each other and the consumer. *)
Definition mpsc_demo_mem : mem := list_to_map
  [(16, Link_init); (32, Link_init); (48, mkLink 0 64); (64, Link_init)]%Z.
Definition mpsc_demo : list qlabel :=
  [QPush 0 [32]; QPush 1 [48; 64]; QProd 0; QProd 1; QProd 1; QProd 0; QPop; QCons;
   QCons; QCons; QProd 1; QCons; QCons; QCons; QProd 0; QCons; QCons; QCons; QCons]%Z.

Definition mpsc_demo_state (k : nat) : mpsc :=
  default (mpsc_init 16 mpsc_demo_mem) (run (qstep 16) (take k mpsc_demo) (mpsc_init 16 mpsc_demo_mem)).

Lemma mpsc_demo_init : valid_init 16 mpsc_demo_mem.
Proof. apply (bool_decide_unpack _). by vm_compute. Qed.

Lemma mpsc_fifo_witness :
  let q := mpsc_demo_state 19 in
  pushed q = [48; 64; 32]%Z ∧ popped q = [48]%Z ∧ cons q = CRet 48 ∧
  broken q = false ∧ popped q `prefix_of` pushed q ∧
  (∀ l, cons q = CRet l → l ≠ nullptr → last (popped q) = Some l).
Proof.
  intros q. split; [by vm_compute|]. split; [by vm_compute|]. split; [by vm_compute|].
  apply (mpsc_fifo 16 mpsc_demo_mem q).
  - exact mpsc_demo_init.
  - exists mpsc_demo. by vm_compute.
Defined.

Lemma mpsc_pop_null_empty_witness :
  let q := default (mpsc_init 16 mpsc_demo_mem)
             (run (qstep 16) [QPop; QCons] (mpsc_init 16 mpsc_demo_mem)) in
  pushed q = popped q.
Proof.
  intros q. eapply (mpsc_pop_null_empty 16 mpsc_demo_mem q).
  - exact mpsc_demo_init.
  - exists [QPop; QCons]. by vm_compute.
  - vm_compute. reflexivity.
  - by vm_compute.
Defined.

Lemma mpsc_spin_progress_witness :
  let q := mpsc_demo_state 10 in
  cons q = CWaitStub ∧
  ∃ t q', qstep 16 (QProd t) q = Some q' ∧ cons q' = cons q ∧ head q' = head q ∧
          ∃ y, next_of (memory q') 16 = Some y ∧ y ≠ nullptr.
Proof.
  intros q. split; [by vm_compute|]. apply (mpsc_spin_progress 16 mpsc_demo_mem q).
  - exact mpsc_demo_init.
  - exists (take 10 mpsc_demo). by vm_compute.
  - left. by vm_compute.
  - by vm_compute.
Defined.

Lemma mpsc_push_wait_free_witness :
  let q := mpsc_demo_state 2 in
  ∃ q', run (qstep 16) [QProd 1; QProd 1; QProd 1] q = Some q' ∧
    prods q' !! 1 = Some (PDone (marked (tail q))) ∧
    pushed q' = pushed q ++ [48; 64]%Z ∧ broken q' = false.
Proof.
  intros q. apply (mpsc_push_wait_free 16 mpsc_demo_mem q).
  - exact mpsc_demo_init.
  - exists (take 2 mpsc_demo). by vm_compute.
  - by vm_compute.
Defined.
