(* ===== verification/BulkPush.v ===== *)
(** * Bulk scheduling of uThreads by the poller

    [prepareBulkPush], [bulkPush] and [schedule(queue, count)] of
    [src/runtime/schedulers/Scheduler_02.h]: while it handles the events of
    one poll, [IOHandler] collects the uThreads to unblock on the [bulkQueue]
    of their home kThread and then pushes every queue in one [push(first,
    last)] on the kThread's run queue. *)

From S2P Require Import Prelude Links IntrusiveQueue.

(** [struct KTVar] of scheduler 2. *)
Record KTVar := mkKTVar { bulkCounter : Z; bulkQueue : IntrusiveQueue }.
Definition KTVar_init : KTVar := mkKTVar 0 IntrusiveQueue_init.

Section bulk.
Context `{Build}.

(** [schedule(IntrusiveQueue<uThread>& queue, size_t count)], up to the call
    [runQueue.push( *first, *last )]; the result is the arguments of that
    call and the emptied queue. *)
Definition schedule_many (queue : IntrusiveQueue)
    : M mem (addr * addr * IntrusiveQueue) :=
  assertM (e ← Queue.empty queue; mret (negb e));;
  let first := Queue.front queue in
  r ← Queue.removeAll queue;
  mret (first, r.1, r.2).

(** [prepareBulkPush(ut)], [home] being the index of [ut->homekThread]; an
    index with no kThread is the null home of a uThread never assigned. *)
Definition prepareBulkPush (kts : list KTVar) (home : nat) (ut : addr)
    : M mem (list KTVar) :=
  match kts !! home with
  | None => assertM (mret false);; failM (BadAccess nullptr)
  | Some v =>
      q ← Queue.push (bulkQueue v) ut;
      mret (<[home := mkKTVar (wrap 64 (bulkCounter v + 1)) q]> kts)
  end.

(** One round of the loop of [bulkPush(cluster)]: the call of [push] it
    makes, if any. *)
Definition bulkPush_kt (v : KTVar) : M mem (option (addr * addr) * KTVar) :=
  if (0 <? bulkCounter v)%Z then
    r ← schedule_many (bulkQueue v);
    mret (Some r.1, mkKTVar 0 r.2)
  else mret (None, mkKTVar 0 (bulkQueue v)).

Fixpoint bulkPush (kts : list KTVar)
    : M mem (list (option (addr * addr)) * list KTVar) :=
  match kts with
  | [] => mret ([], [])
  | v :: kts' =>
      r ← bulkPush_kt v;
      rs ← bulkPush kts';
      mret (r.1 :: rs.1, r.2 :: rs.2)
  end.

(** The events of one poll, then the bulk push. *)
Fixpoint prepare_all (kts : list KTVar) (evs : list (nat * addr)) : M mem (list KTVar) :=
  match evs with
  | [] => mret kts
  | (home, ut) :: evs' => kts' ← prepareBulkPush kts home ut; prepare_all kts' evs'
  end.

Definition bulk_round (kts : list KTVar) (evs : list (nat * addr))
    : M mem (list (option (addr * addr)) * list KTVar) :=
  kts' ← prepare_all kts evs; bulkPush kts'.
End bulk.

(** ** The collected uThreads, per kThread *)

Definition bulk_rep (m : mem) (kts : list KTVar) (ls : list (list addr)) : Prop :=
  NoDup (concat ls) ∧
  Forall2 (λ v l, queue_rep m (bulkQueue v) l ∧ bulkCounter v = Z.of_nat (length l) ∧
                  (Z.of_nat (length l) < 2 ^ 64)%Z) kts ls.

(** The [push] calls of a bulk push: none for a kThread with no uThread, and
    otherwise a call with the ends of the linked list of its uThreads. *)
Definition pushed_as (m : mem) (p : option (addr * addr)) (l : list addr) : Prop :=
  match p with
  | None => l = []
  | Some (f, t) => head l = Some f ∧ last l = Some t ∧ segment m l
  end.

(** The uThreads of [evs] whose home is kThread [i], in order. *)
Definition home_of (i : nat) (evs : list (nat * addr)) : list addr :=
  snd <$> filter (λ e, e.1 = i) evs.

Section bulk_spec.
Context `{Build}.
Implicit Types (m : mem) (l : list addr) (ls : list (list addr)).

Lemma bulkPush_kt_spec m v l :
  queue_rep m (bulkQueue v) l → bulkCounter v = Z.of_nat (length l) →
  wp (bulkPush_kt v)
     (λ r m', r.2 = KTVar_init ∧ pushed_as m' r.1 l ∧ same_outside l m m') m.
Proof.
  intros Hq Hc. unfold bulkPush_kt. destruct (Z.ltb_spec 0 (bulkCounter v)) as [Hlt|Hge].
  - assert (l ≠ []) as Hl by (intros ->; simpl in *; lia).
    apply wp_bind, wp_bind. eapply wp_not_empty; [done..|]. apply wp_bind.
    eapply wp_mono; [by apply removeAll_spec|].
    intros [y q'] m' (Hy & Hh & -> & Hs & Ho). simpl in *.
    apply wp_ret, wp_ret. by split_and!.
  - apply wp_ret. destruct l; simpl in *; [|lia].
    apply queue_rep_nil in Hq as ->. by split_and!.
Qed.

Lemma bulk_rep_cons m v kts l ls :
  bulk_rep m (v :: kts) (l :: ls) →
  l ## concat ls ∧ bulk_rep m kts ls ∧
  queue_rep m (bulkQueue v) l ∧ bulkCounter v = Z.of_nat (length l).
Proof.
  intros [Hnd Hf]. simpl in Hnd. apply NoDup_app in Hnd as (_ & Hd & Hnd).
  apply Forall2_cons in Hf as [(?&?&?) Hf]. by split_and!.
Qed.

Lemma bulk_rep_frame X m m' kts ls :
  same_outside X m m' → X ## concat ls → bulk_rep m kts ls → bulk_rep m' kts ls.
Proof.
  intros Ho Hd [Hnd Hf]. split; [done|]. clear Hnd. revert Hd.
  induction Hf as [|v l kts ls (Hq & Hc & Hb) Hf IH]; intros Hd; constructor; simpl in Hd.
  - split; [|done]. eapply queue_rep_frame; [done| |done]. set_solver.
  - apply IH. set_solver.
Qed.

Lemma bulkPush_spec m kts ls :
  bulk_rep m kts ls →
  wp (bulkPush kts)
     (λ r m', r.2 = replicate (length kts) KTVar_init ∧ Forall2 (pushed_as m') r.1 ls ∧
              same_outside (concat ls) m m') m.
Proof.
  revert m ls. induction kts as [|v kts IH]; intros m ls Hr.
  - destruct Hr as [_ ->%Forall2_nil_inv_l]. by apply wp_ret.
  - destruct ls as [|l ls]; [destruct Hr as [_ Hr]; by inversion Hr|].
    destruct (bulk_rep_cons _ _ _ _ _ Hr) as (Hd & Hr' & Hq & Hc).
    apply wp_bind. eapply wp_mono; [by apply bulkPush_kt_spec|].
    intros [p v'] m1 (-> & Hp & Ho1). simpl in *.
    apply wp_bind. eapply wp_mono; [apply IH; by eapply bulk_rep_frame|].
    intros [ps kts'] m2 (-> & Hps & Ho2). simpl in *. apply wp_ret. split_and!; [done|..].
    + constructor; [|done]. destruct p as [[f t]|]; simpl in *; [|done].
      destruct Hp as (? & ? & ?). split_and!; [done..|].
      eapply segment_frame; [done| |done]. set_solver.
    + by eapply same_outside_trans.
Qed.

(** Splitting at kThread [i]. *)
Lemma bulk_rep_split m kts ls i l :
  bulk_rep m kts ls → ls !! i = Some l →
  ∃ kts1 v kts2 ls1 ls2, kts = kts1 ++ v :: kts2 ∧ ls = ls1 ++ l :: ls2 ∧
    length kts1 = i ∧ length ls1 = i.
Proof.
  intros [_ Hf] Hl. destruct (Forall2_lookup_r _ _ _ _ _ Hf Hl) as (v & Hv & _).
  exists (take i kts), v, (drop (S i) kts), (take i ls), (drop (S i) ls).
  rewrite !take_drop_middle by done. apply lookup_lt_Some in Hv, Hl.
  rewrite !length_take. split_and!; try done; lia.
Qed.

Lemma bulk_rep_app m kts1 kts2 ls1 ls2 :
  length kts1 = length ls1 →
  bulk_rep m (kts1 ++ kts2) (ls1 ++ ls2) ↔
  bulk_rep m kts1 ls1 ∧ bulk_rep m kts2 ls2 ∧ concat ls1 ## concat ls2.
Proof.
  intros Hlen. unfold bulk_rep. rewrite concat_app, NoDup_app. split.
  - intros [(? & ? & ?) Hf]. apply Forall2_app_inv in Hf as [? ?]; [|done]. by split_and!.
  - intros ([? ?] & [? ?] & ?). split; [by split_and!|by apply Forall2_app].
Qed.

Lemma prepareBulkPush_spec m kts ls i l ut :
  bulk_rep m kts ls → ls !! i = Some l →
  ut ∉ concat ls → ut ≠ nullptr → next_of m ut = Some nullptr →
  (Z.of_nat (length l) + 1 < 2 ^ 64)%Z →
  wp (prepareBulkPush kts i ut)
     (λ kts' m', bulk_rep m' kts' (<[i := l ++ [ut]]> ls) ∧ same_outside (concat ls) m m') m.
Proof.
  intros Hr Hl Hu H0 Hn Hb.
  destruct (bulk_rep_split _ _ _ _ _ Hr Hl) as (k1 & v & k2 & l1 & l2 & -> & -> & <- & Hlen).
  unfold prepareBulkPush. rewrite list_lookup_middle by done.
  rewrite concat_app in Hu. simpl in Hu.
  apply bulk_rep_app in Hr as (R1 & R2 & D); [|done]. simpl in D.
  destruct (bulk_rep_cons _ _ _ _ _ R2) as (D' & R2' & Hq & Hc).
  apply wp_bind. eapply wp_mono; [apply (push_spec m (bulkQueue v) l ut); set_solver|].
  intros q' m' [Hq' Ho]. apply wp_ret. split.
  - rewrite <-Hlen at 2. rewrite insert_app_r_alt, insert_app_r_alt, Hlen, !Nat.sub_diag by lia.
    simpl. apply bulk_rep_app; [done|]. split_and!.
    + eapply bulk_rep_frame; [done| |done]. set_solver.
    + destruct (bulk_rep_frame _ _ _ _ _ Ho D' R2') as [Hnd Hf]. split.
      * simpl. destruct R2 as [Hnd2 _]. simpl in Hnd2. apply NoDup_app in Hnd2 as (? & ? & ?).
        rewrite <-app_assoc. apply NoDup_app. split_and!; [done|set_solver|].
        simpl. apply NoDup_cons. split; [set_solver|done].
      * constructor; [|done]. simpl. split_and!; [done| |rewrite length_app; simpl; lia].
        unfold wrap. rewrite Hc, length_app, Z.mod_small; simpl; lia.
    + simpl. set_solver.
  - eapply same_outside_mono; [|done]. rewrite concat_app. simpl. set_solver.
Qed.

Lemma length_concat_insert ls i l ut :
  ls !! i = Some l → length (concat (<[i := l ++ [ut]]> ls)) = S (length (concat ls)).
Proof.
  intros Hl. rewrite <-(take_drop_middle ls i l Hl) at 2.
  rewrite insert_take_drop by by eapply lookup_lt_Some.
  rewrite !concat_app. simpl. rewrite !length_app. simpl. lia.
Qed.
Lemma elem_concat_insert ls i l ut x :
  ls !! i = Some l → x ∈ concat (<[i := l ++ [ut]]> ls) → x ∈ concat ls ∨ x = ut.
Proof.
  intros Hl. rewrite <-(take_drop_middle ls i l Hl) at 2.
  rewrite insert_take_drop by by eapply lookup_lt_Some.
  rewrite !concat_app. simpl. set_solver.
Qed.
Lemma length_in_concat ls i l : ls !! i = Some l → length l ≤ length (concat ls).
Proof.
  intros Hl. rewrite <-(take_drop_middle ls i l Hl), concat_app. simpl.
  rewrite !length_app. lia.
Qed.

(** What the poller guarantees about the uThreads it unblocks: distinct
    objects on no queue, each with a home kThread. *)
Definition events_ok (m : mem) (n : nat) (evs : list (nat * addr)) : Prop :=
  NoDup evs.*2 ∧
  Forall (λ e, e.1 < n ∧ e.2 ≠ nullptr ∧ next_of m e.2 = Some nullptr) evs.

#[global] Instance events_ok_dec m n evs : Decision (events_ok m n evs).
Proof. unfold events_ok. apply _. Defined.

Lemma prepare_all_spec m kts ls evs :
  bulk_rep m kts ls → events_ok m (length ls) evs →
  Forall (λ e, e.2 ∉ concat ls) evs →
  (Z.of_nat (length (concat ls) + length evs) < 2 ^ 64)%Z →
  wp (prepare_all kts evs)
     (λ kts' m', ∃ ls', bulk_rep m' kts' ls' ∧ length ls' = length ls ∧
        ∀ i l, ls !! i = Some l → ls' !! i = Some (l ++ home_of i evs)) m.
Proof.
  revert m kts ls. induction evs as [|[h ut] evs IH]; intros m kts ls Hr [Hnd Hok] Hnew Hb.
  - apply wp_ret. exists ls. split_and!; [done..|]. intros i l. by rewrite app_nil_r.
  - apply NoDup_cons in Hnd as [Hut Hnd]. apply Forall_cons in Hok as [(Hh & H0 & Hn) Hok].
    apply Forall_cons in Hnew as [Hu Hnew]. simpl in *.
    destruct (lookup_lt_is_Some_2 ls h Hh) as [l Hl].
    pose proof (length_in_concat _ _ _ Hl) as Hlen.
    apply wp_bind. eapply wp_mono; [eapply prepareBulkPush_spec; eauto; lia|].
    intros kts' m' [Hr' Ho]. rewrite <-(length_insert ls h (l ++ [ut])) in Hok.
    eapply wp_mono; [apply (IH m' kts' _ Hr')|].
    + split; [done|]. rewrite length_insert in Hok |- *. clear IH.
      rewrite Forall_forall in Hok, Hnew |- *. intros e He.
      destruct (Hok e He) as (? & ? & ?). split_and!; [done..|].
      destruct Ho as [Ho _]. rewrite Ho; auto.
    + rewrite Forall_forall in Hnew |- *. intros e He Hin.
      apply (elem_concat_insert _ _ _ _ _ Hl) in Hin as [Hin|Hin].
      * by apply (Hnew e He).
      * apply Hut. rewrite <-Hin. by apply list_elem_of_fmap_2.
    + rewrite (length_concat_insert _ _ _ _ Hl). lia.
    + intros kts2 m2 (ls' & Hr2 & Hlen2 & Hget). exists ls'.
      rewrite Hlen2, length_insert. split_and!; [done..|]. intros i l' Hl'.
      unfold home_of. rewrite filter_cons. simpl. destruct (decide (h = i)) as [->|Hne].
      * rewrite Hl' in Hl. injection Hl as ->.
        rewrite (Hget i (l ++ [ut])); [by rewrite <-app_assoc|].
        apply list_lookup_insert_eq. by eapply lookup_lt_Some.
      * apply Hget. by rewrite list_lookup_insert_ne.
Qed.

Lemma bulk_rep_init m n : bulk_rep m (replicate n KTVar_init) (replicate n []).
Proof.
  split.
  - induction n; simpl; [constructor|done].
  - apply Forall2_replicate. split; [by apply queue_rep_nil|done].
Qed.
End bulk_spec.

Lemma bulk_round_spec `{Build} m n evs :
  events_ok m n evs → (Z.of_nat (length evs) < 2 ^ 64)%Z →
  wp (bulk_round (replicate n KTVar_init) evs)
     (λ r m', r.2 = replicate n KTVar_init ∧ length r.1 = n ∧
        ∀ i p, r.1 !! i = Some p → pushed_as m' p (home_of i evs)) m.
Proof.
  intros Hok Hlen. assert (Hc : concat (replicate n ([] : list addr)) = [])
    by (clear; by induction n).
  apply wp_bind. eapply wp_mono; [apply (prepare_all_spec m _ (replicate n []))|].
  - apply bulk_rep_init.
  - by rewrite length_replicate.
  - rewrite Hc. apply Forall_forall. intros e _. apply not_elem_of_nil.
  - rewrite Hc. simpl. lia.
  - intros kts' m' (ls' & Hr & Hl & Hget). rewrite length_replicate in Hl.
    pose proof (Forall2_length _ _ _ (proj2 Hr)) as Hk.
    eapply wp_mono; [by apply bulkPush_spec|]. intros [ps vs] m2 (Hvs & Hps & _). simpl in *.
    pose proof (Forall2_length _ _ _ Hps) as Hpl. split_and!; [congruence|congruence|].
    intros i p Hp. destruct (Forall2_lookup_l _ _ _ _ _ Hps Hp) as (l & Hli & Hpl').
    rewrite (Hget i []) in Hli; [by simplify_eq|].
    apply lookup_replicate. apply lookup_lt_Some in Hp. split; [done|lia].
Qed.

(** One poll schedules every unblocked uThread exactly once, on its home
    kThread and in the order of the events: each kThread with an unblocked
    uThread gets one [push] of the linked list of its uThreads, the others
    get none, and the bulk queues and counters are empty again. *)
Theorem bulk_round_schedules_all `{Build} m n evs :
  events_ok m n evs → (Z.of_nat (length evs) < 2 ^ 64)%Z →
  wp (bulk_round (replicate n KTVar_init) evs)
     (λ r m', r.2 = replicate n KTVar_init ∧ length r.1 = n ∧
        ∀ i p, r.1 !! i = Some p → pushed_as m' p (home_of i evs)) m.
Proof. apply bulk_round_spec. Qed.

Lemma bulk_round_schedules_all_witness :
  let _ := {| NDEBUG := false |} in
  let evs := [(1, 32%Z); (0, 48%Z); (1, 64%Z)] in
  wp (bulk_round (replicate 3 KTVar_init) evs)
     (λ r m', r.2 = replicate 3 KTVar_init ∧ length r.1 = 3 ∧
        ∀ i p, r.1 !! i = Some p → pushed_as m' p (home_of i evs)) (fresh_mem [32; 48; 64]%Z).
Proof.
  intros B evs. apply (bulk_round_schedules_all (fresh_mem [32; 48; 64]%Z) 3 evs).
  - apply (bool_decide_unpack _). by vm_compute.
  - done.
Defined.

(** What the run above passes to [push]. *)
Example bulk_round_run :
  let _ := {| NDEBUG := false |} in
  match bulk_round (replicate 3 KTVar_init) [(1, 32%Z); (0, 48%Z); (1, 64%Z)] (fresh_mem [32; 48; 64]%Z) with
  | Ok (r, _) => r.1 = [Some (48, 48); Some (32, 64); None]%Z
  | Fault _ => False
  end.
Proof. by vm_compute. Qed.
