(* ===== verification/BlockingQueue.v ===== *)
(** * BlockingQueue: the list of blocked uThreads, in memory

    [class BlockingQueue] of [src/runtime/BlockingSync.h] and
    [src/runtime/BlockingSync.cpp] over the nodes of [IntrusiveList]: the push of
    [postSwitchFunc], both [signal]s, [signalAll], [empty] and the destructor.
    The models of Mutex, Semaphore and ConditionVariable have a list in its
    place; here the pointer code is shown to behave as that list.  A uThread has
    one [Link] for all queues, so two queues are modelled at a time, the one
    inside a Mutex and the one of a ConditionVariable, say. *)

From S2P Require Import Prelude Links IntrusiveList.

Section ops.
Context `{Build}.

(** [postSwitchFunc]: [bqp->second->queue.push_back( *utt )]; [args] is the null
    pointer or points to a pair, of which the queue is given here. *)
Definition post_push (args : option addr) (ut : addr) : M mem unit :=
  assertM (mret (bool_decide (is_Some args)));;
  assertM (mret (negb (ut =? nullptr)%Z));;
  match args with
  | Some queue => DList.push_back queue ut
  | None => failM (BadAccess nullptr)
  end.

(** [bool signal(std::mutex& lock, uThread*& owner)]: the uThread that is
    resumed. *)
Definition signal_std (queue : addr) : M mem (option addr) :=
  f ← DList.front queue;
  if (f =? DList.fence queue)%Z then mret None
  else
    owner ← DList.front queue;
    DList.pop_front queue;;
    mret (Some owner).

(** [bool signal(Mutex& mutex)] *)
Definition signal_mutex (queue : addr) : M mem (option addr) :=
  e ← DList.empty queue;
  if (e : bool) then mret None
  else
    owner ← DList.front queue;
    DList.pop_front queue;;
    mret (Some owner).

(** [void signalAll(Mutex& mutex)]: the uThreads that are resumed, in order. *)
Fixpoint signalAll_loop (fuel : nat) (queue ut : addr) : M mem (list addr) :=
  match fuel with
  | 0 => failM OutOfFuel
  | S fuel' =>
      if (ut =? DList.fence queue)%Z then mret []
      else
        DList.remove ut;;
        ut' ← DList.front queue;
        r ← signalAll_loop fuel' queue ut';
        mret (ut :: r)
  end.
Definition signalAll (fuel : nat) (queue : addr) : M mem (list addr) :=
  ut ← DList.front queue;
  signalAll_loop fuel queue ut.

(** [~BlockingQueue() { assert(empty()); }] *)
Definition dtor (queue : addr) : M mem unit := assertM (DList.empty queue).
End ops.

(** ** One queue *)

Section specs.
Context `{Build}.
Implicit Types (m : mem) (l : list addr) (a x : addr).

Lemma front_fence m a l (Q : addr → mem → Prop) :
  dlist_rep m a l → Q (default a (head l)) m → wp (DList.front a) Q m.
Proof. intros Hl HQ. eapply wp_load_next; [by apply dlist_front|done]. Qed.
Lemma wp_dlist_empty m a l (Q : bool → mem → Prop) :
  dlist_rep m a l → Q (bool_decide (l = [])) m → wp (DList.empty a) Q m.
Proof.
  intros Hl HQ. apply wp_bind. eapply wp_load_next; [by apply dlist_front|]. apply wp_ret.
  destruct l as [|x l]; simpl; [by rewrite Z.eqb_refl|].
  destruct Hl as ([Ha _]%NoDup_cons & _ & _). rewrite (proj2 (Z.eqb_neq a x)); [done|set_solver].
Qed.

(** The first uThread is taken off, in both ways. *)
Definition signalled m a l (r : option addr) (m' : mem) : Prop :=
  match l with
  | [] => r = None ∧ m' = m
  | x :: l' => r = Some x ∧ dlist_rep m' a l' ∧ off_list m' x ∧ untouched (a :: l) m m'
  end.
Lemma pop_signalled m a x l :
  dlist_rep m a (x :: l) →
  wp (owner ← DList.front a; DList.pop_front a;; mret (Some owner)) (signalled m a (x :: l)) m.
Proof.
  intros Hl. apply wp_bind. eapply front_fence; [done|]. simpl. apply wp_bind.
  eapply wp_mono; [by apply pop_front_spec|]. intros r m' (-> & ? & ? & ?). by apply wp_ret.
Qed.
Lemma signal_std_spec m a l : dlist_rep m a l → wp (signal_std a) (signalled m a l) m.
Proof.
  intros Hl. apply wp_bind. eapply front_fence; [done|]. destruct l as [|x l]; simpl.
  - unfold DList.fence. rewrite Z.eqb_refl. by apply wp_ret.
  - unfold DList.fence. pose proof Hl as ([Ha _]%NoDup_cons & _ & _).
    rewrite (proj2 (Z.eqb_neq x a)) by set_solver. by apply pop_signalled.
Qed.
Lemma signal_mutex_spec m a l : dlist_rep m a l → wp (signal_mutex a) (signalled m a l) m.
Proof.
  intros Hl. apply wp_bind. eapply wp_dlist_empty; [done|]. destruct l as [|x l]; simpl.
  - by apply wp_ret.
  - by apply pop_signalled.
Qed.

(** The loop ends when the queue is empty, having taken off every uThread in turn. *)
Lemma signalAll_loop_spec fuel m a l :
  dlist_rep m a l → length l < fuel →
  wp (signalAll_loop fuel a (default a (head l)))
     (λ r m', r = l ∧ dlist_rep m' a [] ∧ (∀ x, x ∈ l → off_list m' x) ∧ untouched (a :: l) m m') m.
Proof.
  revert m l. induction fuel as [|fuel IH]; intros m l Hl Hf; [lia|]. simpl.
  unfold DList.fence. destruct l as [|x l]; simpl in *.
  - rewrite Z.eqb_refl. apply wp_ret. split_and!; [done|done|set_solver|done].
  - pose proof Hl as (Hnd & _ & _). apply NoDup_cons in Hnd as [Ha Hnd].
    apply NoDup_cons in Hnd as [Hx _].
    rewrite (proj2 (Z.eqb_neq x a)) by set_solver. apply wp_bind.
    eapply wp_mono; [by apply (remove_spec m a [] l x)|]. intros r m1 (_ & H1 & Ho1 & Hu1). simpl in *.
    apply wp_bind. eapply front_fence; [done|]. apply wp_bind. eapply wp_mono; [apply IH; [done|lia]|].
    intros r2 m2 (-> & H2 & Ho2 & Hu2). apply wp_ret. split_and!; [done|done| |].
    + intros y [->|Hy]%elem_of_cons; [|by apply Ho2]. eapply off_list_frame; [done|set_solver|done].
    + eapply untouched_mono; [|by eapply untouched_trans]. set_solver.
Qed.
Lemma signalAll_spec fuel m a l :
  dlist_rep m a l → length l < fuel →
  wp (signalAll fuel a)
     (λ r m', r = l ∧ dlist_rep m' a [] ∧ (∀ x, x ∈ l → off_list m' x) ∧ untouched (a :: l) m m') m.
Proof. intros Hl Hf. apply wp_bind. eapply front_fence; [done|]. by apply signalAll_loop_spec. Qed.
End specs.

(** ** Histories of two queues *)

Inductive bqop : Type :=
  | QPush (w : bool) (ut : addr)     (* postSwitchFunc *)
  | QSignalStd (w : bool)
  | QSignal (w : bool)
  | QSignalAll (w : bool) (fuel : nat)
  | QEmpty (w : bool)
  | QDestroy (w : bool).

(** What an operation returns: the uThreads it resumes, and a truth value. *)
Definition bqres : Type := list addr * bool.
Definition of_signal (r : option addr) : bqres :=
  match r with Some u => ([u], true) | None => ([], false) end.

Definition exec_bq `{Build} (o : bqop) (a el : addr) : M mem bqres :=
  let at_ (w : bool) := if w then a else el in
  match o with
  | QPush w ut => post_push (Some (at_ w)) ut;; mret ([], true)
  | QSignalStd w => r ← signal_std (at_ w); mret (of_signal r)
  | QSignal w => r ← signal_mutex (at_ w); mret (of_signal r)
  | QSignalAll w fuel => r ← signalAll fuel (at_ w); mret (r, true)
  | QEmpty w => e ← DList.empty (at_ w); mret ([], e)
  | QDestroy w => dtor (at_ w);; mret ([], true)
  end.

(** On lists: [lfree] are the uThreads on no queue. *)
Definition bq_get (w : bool) (s : spec_lists) : list addr := if w then first_l s else second_l s.
Definition bq_put (w : bool) (F l : list addr) (s : spec_lists) : spec_lists :=
  if w then mkLSpec F l (second_l s) else mkLSpec F (first_l s) l.
Definition spec_signal (w : bool) (s : spec_lists) : bqres * spec_lists :=
  match bq_get w s with
  | [] => (([], false), s)
  | u :: l => (([u], true), bq_put w (u :: lfree s) l s)
  end.
Definition spec_bq (o : bqop) (s : spec_lists) : option (bqres * spec_lists) :=
  match o with
  | QPush w ut =>
      if decide (ut ∈ lfree s) then Some (([], true), bq_put w (lremove ut (lfree s)) (bq_get w s ++ [ut]) s) else None
  | QSignalStd w | QSignal w => Some (spec_signal w s)
  | QSignalAll w fuel =>
      if decide (length (bq_get w s) < fuel)
      then Some ((bq_get w s, true), bq_put w (bq_get w s ++ lfree s) [] s) else None
  | QEmpty w => Some (([], bool_decide (bq_get w s = [])), s)
  | QDestroy w => if decide (bq_get w s = []) then Some (([], true), s) else None
  end.

Fixpoint exec_bqs `{Build} (os : list bqop) (a el : addr) : M mem (list bqres) :=
  match os with
  | [] => mret []
  | o :: os' => r ← exec_bq o a el; rs ← exec_bqs os' a el; mret (r :: rs)
  end.
Fixpoint spec_bqs (os : list bqop) (s : spec_lists) : option (list bqres * spec_lists) :=
  match os with
  | [] => Some ([], s)
  | o :: os' => '(r, s1) ← spec_bq o s; '(rs, s2) ← spec_bqs os' s1; Some (r :: rs, s2)
  end.

Section refine.
Context `{Build}.
Implicit Types (m : mem) (F l : list addr).

Lemma lists_rep_swap m a el F l1 l2 :
  lists_rep m a el (mkLSpec F l1 l2) → lists_rep m el a (mkLSpec F l2 l1).
Proof.
  intros (Hnd & HF & H1 & H2). split_and!; try done. simpl in *.
  assert (F ++ el :: l2 ++ a :: l1 ≡ₚ F ++ a :: l1 ++ el :: l2) as ->; [|done].
  apply Permutation_app_head. rewrite !app_comm_cons. apply Permutation_app_comm.
Qed.

(** The operations on the first queue; the second one is the first of the swap. *)
Definition spec_first (o : bqop) F l : option (bqres * (list addr * list addr)) :=
  match o with
  | QPush _ ut => if decide (ut ∈ F) then Some (([], true), (lremove ut F, l ++ [ut])) else None
  | QSignalStd _ | QSignal _ =>
      Some (match l with [] => (([], false), (F, l)) | u :: l' => (([u], true), (u :: F, l')) end)
  | QSignalAll _ fuel => if decide (length l < fuel) then Some ((l, true), (l ++ F, [])) else None
  | QEmpty _ => Some (([], bool_decide (l = [])), (F, l))
  | QDestroy _ => if decide (l = []) then Some (([], true), (F, l)) else None
  end.
Definition which (o : bqop) : bool :=
  match o with QPush w _ | QSignalStd w | QSignal w | QSignalAll w _ | QEmpty w | QDestroy w => w end.
Definition exec_at (o : bqop) (a : addr) : M mem bqres := exec_bq o a a.

Lemma signal_rep m m' a el F l1 l2 r :
  lists_rep m a el (mkLSpec F l1 l2) → signalled m a l1 r m' →
  of_signal r = match l1 with [] => ([], false) | u :: _ => ([u], true) end ∧
  lists_rep m' a el (match l1 with [] => mkLSpec F l1 l2 | u :: l' => mkLSpec (u :: F) l' l2 end).
Proof.
  intros Hr Hs. destruct l1 as [|u l']; simpl in Hs.
  - by destruct Hs as [-> ->].
  - destruct Hs as (-> & H1 & Ho & Hu). split; [done|]. by eapply (lists_rep_pop m m').
Qed.

Lemma exec_first_refines o m a el F l1 l2 r F' l1' :
  lists_rep m a el (mkLSpec F l1 l2) → spec_first o F l1 = Some (r, (F', l1')) →
  wp (exec_at o a) (λ v m', v = r ∧ lists_rep m' a el (mkLSpec F' l1' l2)) m.
Proof.
  intros Hr Ho. pose proof (lists_rep_disjoint _ _ _ _ _ _ Hr) as (D1 & D2 & D3).
  pose proof Hr as (Hnd & HF & H1 & H2). simpl in HF, H1, H2.
  unfold exec_at, exec_bq. destruct o as [w ut|w|w|w fuel|w|w]; simpl in Ho;
    replace (if w then a else a) with a by (by destruct w).
  - case_decide as Hut; simplify_eq. apply wp_bind. unfold post_push. apply wp_bind. apply wp_assert; [done|]. apply wp_bind. apply wp_assert.
    { apply wp_ret. destruct (HF ut Hut) as (Hne & _). by rewrite (proj2 (Z.eqb_neq _ _)) by done. }
    eapply wp_mono; [apply push_back_spec; [done|auto|by intros ?; apply (D1 ut)]|].
    intros [] m' [H1' Hu]. apply wp_ret. split; [done|].
    eapply lists_rep_push; [done|done|done|set_solver| |done|].
    + rewrite <- app_assoc. simpl. by rewrite <- Permutation_middle.
    + eapply dlist_rep_frame; [done| |done]. set_solver.
  - apply wp_bind. eapply wp_mono; [by apply signal_std_spec|]. intros v m' Hs. apply wp_ret.
    destruct (signal_rep _ _ _ _ _ _ _ _ Hr Hs) as [-> Hr']. by destruct l1; simplify_eq.
  - apply wp_bind. eapply wp_mono; [by apply signal_mutex_spec|]. intros v m' Hs. apply wp_ret.
    destruct (signal_rep _ _ _ _ _ _ _ _ Hr Hs) as [-> Hr']. by destruct l1; simplify_eq.
  - case_decide; simplify_eq. apply wp_bind. eapply wp_mono; [by apply signalAll_spec|].
    intros v m' (-> & H1' & Ho' & Hu). apply wp_ret. split; [done|].
    eapply lists_rep_intro; [done| |exact Hu| |done|].
    + simpl. rewrite <- app_assoc. solve_Permutation.
    + intros x [Hx|Hx]%elem_of_app; [right; by apply Ho'|left]. split; [done|]. by intros ?; apply (D1 x).
    + eapply dlist_rep_frame; [done|done|done].
  - simplify_eq. apply wp_bind. eapply wp_dlist_empty; [done|]. by apply wp_ret.
  - case_decide as Hl; simplify_eq. apply wp_bind, wp_assert; [|by apply wp_ret].
    eapply wp_dlist_empty; [done|done].
Qed.

Lemma exec_bq_refines o m a el s r s' :
  lists_rep m a el s → spec_bq o s = Some (r, s') →
  wp (exec_bq o a el) (λ v m', v = r ∧ lists_rep m' a el s') m.
Proof.
  destruct s as [F l1 l2]. intros Hr Ho.
  assert (Hsp : ∃ F' l', spec_first o F (bq_get (which o) (mkLSpec F l1 l2)) = Some (r, (F', l')) ∧
                         s' = bq_put (which o) F' l' (mkLSpec F l1 l2)).
  { destruct o as [w ut|w|w|w fuel|w|w]; simpl in *; try (unfold spec_signal in Ho; simpl in Ho);
      destruct w; simpl in *; repeat case_match; simplify_eq/=; eauto. }
  destruct Hsp as (F' & l' & Hsp & ->). destruct (which o) eqn:Ew; simpl in *.
  - replace (exec_bq o a el) with (exec_at o a) by (destruct o; simpl in Ew; by subst).
    by eapply exec_first_refines.
  - replace (exec_bq o a el) with (exec_at o el) by (destruct o; simpl in Ew; by subst).
    eapply wp_mono; [eapply exec_first_refines; [by apply lists_rep_swap|done]|].
    intros v m' [-> Hr']. split; [done|]. by apply lists_rep_swap.
Qed.
End refine.

(** ** Theorems *)

(** C14. BlockingQueue implements the FIFO lists with which the synchronisation
    primitives are modelled: for every history of pushes, signals and
    signalAlls on two queues that share their uThreads, the pointer code returns
    and no assertion fails; the uThreads come off in the order in which they
    blocked, each once; signalAll ends, resumes exactly the uThreads that were
    queued, and leaves the queue empty; a uThread that came off can be queued
    again. *)
Theorem blockingqueue_refines `{Build} os m a el s rs s' :
  lists_rep m a el s → spec_bqs os s = Some (rs, s') →
  wp (exec_bqs os a el) (λ r m', r = rs ∧ lists_rep m' a el s') m.
Proof.
  revert m s rs. induction os as [|o os IH]; intros m s rs Hr Hs; simpl in *.
  - simplify_eq. by apply wp_ret.
  - destruct (spec_bq o s) as [[r s1]|] eqn:E1; simplify_eq/=.
    destruct (spec_bqs os s1) as [[rs2 s2]|] eqn:E2; simplify_eq/=.
    apply wp_bind. eapply wp_mono; [by eapply exec_bq_refines|]. intros v m1 [-> Hr1].
    apply wp_bind. eapply wp_mono; [by eapply IH|]. intros v2 m2 [-> Hr2]. by apply wp_ret.
Qed.

(** Three uThreads block on a condition variable (anchor 500), one of them moves
    on to the mutex (anchor 400); the rest are woken together. *)
Definition bq_demo : list bqop :=
  [QPush false 16; QPush false 32; QPush false 48; QSignal false; QPush true 16; QSignalAll false 4;
   QEmpty false; QSignalStd true; QSignalStd true; QDestroy true].
Definition bq_demo_mem : mem :=
  <[400%Z := mkLink 400 400]> (<[500%Z := mkLink 500 500]> (fresh_mem [16; 32; 48]%Z)).

Lemma blockingqueue_refines_witness :
  let _ := {| NDEBUG := false |} in
  wp (exec_bqs bq_demo 400 500)
     (λ r m', r = [([], true); ([], true); ([], true); ([16], true); ([], true); ([32; 48], true);
                   ([], true); ([16], true); ([], false); ([], true)]%Z ∧
              lists_rep m' 400 500 (mkLSpec [16; 32; 48]%Z [] [])) bq_demo_mem.
Proof.
  intros B. apply (blockingqueue_refines bq_demo bq_demo_mem 400 500 (mkLSpec [16; 32; 48]%Z [] [])).
  - split_and!; [apply (bool_decide_unpack _); by vm_compute| |apply (bool_decide_unpack _); by vm_compute..].
    simpl. intros x Hx. repeat (apply elem_of_cons in Hx as [->|Hx]; [apply (bool_decide_unpack _); by vm_compute|]).
    by apply not_elem_of_nil in Hx.
  - vm_compute. reflexivity.
Defined.

(** The destructor of a queue on which uThreads are blocked, that is of their
    mutex or condition variable: the assertion catches it; without assertions it
    returns, and the uThreads stay linked to the dead anchor, where no signal
    will find them. *)
Theorem destroy_with_waiters m a x l :
  dlist_rep m a (x :: l) →
  dtor (H := {| NDEBUG := false |}) a m = Fault AssertFailure ∧
  dtor (H := {| NDEBUG := true |}) a m = Ok (tt, m) ∧ prev_of m x = Some a.
Proof.
  intros Hl. assert (He : DList.empty a m = Ok (false, m)).
  { assert (Hw : wp (DList.empty a) (λ b m', b = false ∧ m' = m) m) by (by eapply wp_dlist_empty).
    apply wp_Ok in Hw as (b & m' & -> & -> & ->). done. }
  split_and!.
  - unfold dtor, assertM. simpl. unfold mbind, M_bind. by rewrite He.
  - done.
  - destruct Hl as (_ & _ & Hd). simpl in Hd. by destruct Hd as (_ & Hp & _).
Qed.
Lemma destroy_with_waiters_witness :
  let m := <[400%Z := mkLink 16 16]> {[16%Z := mkLink 400 400]} in
  dlist_rep m 400 [16%Z] ∧ dtor (H := {| NDEBUG := false |}) 400 m = Fault AssertFailure.
Proof.
  intros m. assert (Hl : dlist_rep m 400 [16%Z]) by (apply (bool_decide_unpack _); by vm_compute).
  split; [exact Hl|]. by destruct (destroy_with_waiters m 400 16 [] Hl).
Defined.
