(* ===== verification/Scheduler02.v ===== *)
(** * Scheduler 2: one run queue per kThread

    [src/runtime/schedulers/Scheduler_02.h], the scheduler the Makefile
    selects, with the counting semaphore of [src/generic/Semaphore.h] and the
    parts of [src/runtime/kThread.cpp] that call it ([defaultRun],
    [switchContext], the YIELD case of [postSwitchFunc]).

    A kThread consumes its own [runQueue]; every other thread, and the kThread
    itself when it resumes a uThread, is a producer.  The state is that of one
    kThread; its environment (the producers, the poller thread and the other
    kThreads on the poller's semaphore) takes arbitrary steps. *)

From S2P Require Import Prelude Links IntrusiveQueue MPSCQueue.

(** ** [class semaphore]

    A [sem_t] counts up to [SEM_VALUE_MAX].  [None] is a call that has not
    succeeded: [wait] and [post] retry until it does. *)
Module Sem.
Definition post (SEM_VALUE_MAX : nat) (c : nat) : option nat :=
  if decide (c < SEM_VALUE_MAX) then Some (S c) else None.
Definition wait (c : nat) : option nat :=
  match c with 0 => None | S c' => Some c' end.
Definition trywait (c : nat) : bool * nat :=
  match c with 0 => (false, 0) | S c' => (true, c') end.
End Sem.

(** ** The kThread *)

(** What the kThread is executing. *)
Inductive kphase : Type :=
  | KRun (ut : addr)                  (* the code of a uThread *)
  | KNonBlocking (ut : addr) (yielded : bool)  (* nonBlockingSwitch, in runQueue.pop() *)
  | KPost (old ut : addr)             (* switched to ut; postSwitchFunc is to resume old *)
  | KResume (ut : addr)               (* ... and is in runQueue.push(old) *)
  | KBlocking                         (* mainUT: blockingSwitch, iohandler.sem.post() *)
  | KWait                             (* sem.wait() *)
  | KPop                              (* runQueue.pop() after it *)
  | KIo (ut : addr).                  (* while(!iohandler.sem.trywait()) *)

Record sched := mkSched {
  runQueue : mpsc;
  sem : nat;
  iosem : nat;          (* IOHandler::iohandler.sem *)
  kt : kphase
}.

#[export] Instance kphase_eq_dec : EqDecision kphase.
Proof. solve_decision. Defined.

(** The producer identity of the kThread's own [postSwitchFunc]. *)
Definition self : nat := 0.

Inductive slabel : Type :=
  | SPush (t : nat) (seg : list addr)  (* schedule(): runQueue.push *)
  | SProd (t : nat)                    (* a step of it *)
  | SPushRet (t : nat)                 (* if(push) sem.post() *)
  | SSwitch (yielded : bool)           (* the running uThread yields, or leaves *)
  | SKt                                (* the kThread's next own step *)
  | SIoPost                            (* the poller or another kThread, post *)
  | SIoWait.                           (* the poller or another kThread, wait *)

Section sched.
Context (SEM_VALUE_MAX : nat) (stub : addr).

Definition with_queue (s : sched) (q : option mpsc) : option sched :=
  q' ← q; Some (mkSched q' (sem s) (iosem s) (kt s)).
Definition set_kt (k : kphase) (s : sched) : sched :=
  mkSched (runQueue s) (sem s) (iosem s) k.

(** [if(runQueue.push(...)) sem.post();] once [push] is about to return. *)
Definition push_ret (t : nat) (s : sched) : option sched :=
  match prods (runQueue s) !! t with
  | Some (PDone was_empty) =>
      n ← (if was_empty then Sem.post SEM_VALUE_MAX (sem s) else Some (sem s));
      q ← qstep stub (QPushRet t) (runQueue s);
      Some (mkSched q n (iosem s) (kt s))
  | _ => None
  end.

(** [nonBlockingSwitch] once [pop] has returned [ut], and the
    [switchContext] that called it: null keeps a yielding uThread running
    and sends any other one to [mainUT], which is in [defaultRun]. *)
Definition nonBlockingSwitch_ret (old : addr) (yielded : bool) (ut : addr) : kphase :=
  if (ut =? nullptr)%Z then (if yielded then KRun old else KBlocking)
  else if yielded then KPost old ut else KRun ut.

(** The kThread's own steps. *)
Definition kt_step (s : sched) : option sched :=
  match kt s with
  | KRun _ => None
  | KNonBlocking old yielded =>
      match cons (runQueue s) with
      | CRet ut =>
          q ← qstep stub QPopRet (runQueue s);
          Some (mkSched q (sem s) (iosem s) (nonBlockingSwitch_ret old yielded ut))
      | _ => with_queue s (qstep stub QCons (runQueue s))
      end
  | KPost old ut =>
      with_queue (set_kt (KResume ut) s) (qstep stub (QPush self [old]) (runQueue s))
  | KResume ut =>
      match prods (runQueue s) !! self with
      | Some (PDone _) => set_kt (KRun ut) <$> push_ret self s
      | _ => with_queue s (qstep stub (QProd self) (runQueue s))
      end
  | KBlocking =>
      n ← Sem.post SEM_VALUE_MAX (iosem s);
      Some (mkSched (runQueue s) (sem s) n KWait)
  | KWait =>
      n ← Sem.wait (sem s);
      q ← qstep stub QPop (runQueue s);
      Some (mkSched q n (iosem s) KPop)
  | KPop =>
      match cons (runQueue s) with
      | CRet ut =>
          q ← qstep stub QPopRet (runQueue s);
          Some (mkSched q (sem s) (iosem s) (if (ut =? nullptr)%Z then KWait else KIo ut))
      | _ => with_queue s (qstep stub QCons (runQueue s))
      end
  | KIo ut =>
      let '(ok, n) := Sem.trywait (iosem s) in
      Some (mkSched (runQueue s) (sem s) n (if ok then KRun ut else KIo ut))
  end.

Definition sstep (a : slabel) (s : sched) : option sched :=
  match a with
  | SPush t seg =>
      if decide (t = self) then None
      else with_queue s (qstep stub (QPush t seg) (runQueue s))
  | SProd t =>
      if decide (t = self) then None else with_queue s (qstep stub (QProd t) (runQueue s))
  | SPushRet t => if decide (t = self) then None else push_ret t s
  | SSwitch yielded =>
      match kt s with
      | KRun ut => with_queue (set_kt (KNonBlocking ut yielded) s)
                     (qstep stub QPop (runQueue s))
      | _ => None
      end
  | SKt => kt_step s
  | SIoPost => n ← Sem.post SEM_VALUE_MAX (iosem s);
               Some (mkSched (runQueue s) (sem s) n (kt s))
  | SIoWait => n ← Sem.wait (iosem s); Some (mkSched (runQueue s) (sem s) n (kt s))
  end.

(** A kThread starts in [defaultRun] on its mainUT; the default kThread
    starts on the uThread that runs [main]. *)
Definition sched_init (m : mem) (k : kphase) : sched :=
  mkSched (mpsc_init stub m) 0 0 k.
Definition starts (k : kphase) : Prop := k = KBlocking ∨ ∃ ut, k = KRun ut.
End sched.

(** ** The wake-up invariant *)

(** A producer whose push found the empty mark and that has yet to post. *)
Definition will_post (p : ppc) : Prop :=
  match p with PLink _ _ b | PDone b => b = true | _ => False end.

(** The kThread has been told by [pop] that the queue is empty and is on its
    way to [sem.wait], or in it. *)
Definition idle (s : sched) : Prop :=
  match kt s with
  | KNonBlocking _ _ | KPop => cons (runQueue s) = CRet nullptr
  | KBlocking | KWait => True
  | _ => False
  end.

(** The consumer is inside [pop] exactly in the two popping phases. *)
Definition in_pop (s : sched) : Prop :=
  match kt s with
  | KNonBlocking _ _ | KPop => cons (runQueue s) ≠ CIdle
  | _ => cons (runQueue s) = CIdle
  end.

Definition wakeup (s : sched) : Prop :=
  idle s → marked (tail (runQueue s)) = false →
  0 < sem s ∨ ∃ t p, prods (runQueue s) !! t = Some p ∧ will_post p.

Section wakeup.
Context (stub : addr).
Implicit Types (q : mpsc) (c : list addr).

Definition holders q : Prop := ∃ t p, prods q !! t = Some p ∧ will_post p.

(** [n] posted tokens and the producers about to post cover a queue that is
    no longer marked empty. *)
Definition covered (n : nat) q : Prop :=
  marked (tail q) = false → 0 < n ∨ holders q.

Lemma holders_insert q t p m h tl k b pu po :
  holders q → (∀ p0, prods q !! t = Some p0 → will_post p0 → will_post p) →
  holders (mkMpsc m h tl (<[t:=p]> (prods q)) k b pu po).
Proof.
  intros (t' & p' & Ht' & Hw) Hp. destruct (decide (t' = t)) as [->|Hne].
  - exists t, p. simpl. rewrite lookup_insert_eq. eauto.
  - exists t', p'. simpl. by rewrite lookup_insert_ne.
Qed.

Lemma cons_prod_step t q q' : prod_step t q = Some q' → cons q' = cons q.
Proof.
  unfold prod_step. intros Hs.
  destruct (prods q !! t) as [[seg|seg|x y b|b]|]; simplify_option_eq; try done;
    by apply (access_cons _ _ _ (λ q', cons q' = cons q)).
Qed.

Lemma prod_step_covered t q q' c n :
  inv stub q c → prod_step t q = Some q' → covered n q → covered n q'.
Proof.
  intros I Hs Hcov. unfold prod_step in Hs.
  destruct (prods q !! t) as [[seg|seg|x y b|b]|] eqn:Ht; [..|done|done].
  - destruct (last seg) as [lst|] eqn:Hl; simplify_eq/=.
    destruct (inv_segs _ _ _ I _ _ Ht) as (_ & _ & _ & Hx & _).
    destruct (Hx lst) as (_&_&_&_&_&[v Hv]); [apply last_Some in Hl as [? ->]; set_solver|].
    erewrite access_store by done. intros Hm.
    destruct (Hcov Hm) as [?|Hh]; [auto|right]. apply (holders_insert _ _ _ _ _ _ _ _ _ _ Hh).
    intros p0 ? ?; by simplify_eq.
  - destruct (list.head seg) as [f|], (last seg) as [lst|]; simplify_eq/=.
    intros _. destruct (marked (tail q)) eqn:Hm.
    + right. eexists t, _. simpl. rewrite lookup_insert_eq. split; [done|]. done.
    + destruct (Hcov Hm) as [?|Hh]; [auto|right]. apply (holders_insert _ _ _ _ _ _ _ _ _ _ Hh).
      intros p0 ? ?; by simplify_eq.
  - destruct (inv_pending _ _ _ I x y) as [_ Hn]; [left; eauto|].
    erewrite access_store in Hs by done. simplify_eq/=. intros Hm.
    destruct (Hcov Hm) as [?|Hh]; [auto|right]. apply (holders_insert _ _ _ _ _ _ _ _ _ _ Hh).
    intros p0 ? ?; by simplify_eq.
Qed.

Lemma push_covered t seg q q' n :
  qstep stub (QPush t seg) q = Some q' → covered n q → covered n q'.
Proof.
  simpl. intros Hs Hcov. case_decide as Hd; simplify_eq. intros Hm. destruct (Hcov Hm) as [?|Hh]; [auto|right].
  apply (holders_insert _ _ _ _ _ _ _ _ _ _ Hh). intros p0 ? ?. destruct Hd. congruence.
Qed.

Lemma push_ret_covered max t s s' :
  push_ret max stub t s = Some s' →
  (covered (sem s) (runQueue s) → covered (sem s') (runQueue s')) ∧
  cons (runQueue s') = cons (runQueue s) ∧
  kt s' = kt s ∧ iosem s' = iosem s ∧
  qstep stub (QPushRet t) (runQueue s) = Some (runQueue s').
Proof.
  unfold push_ret. intros Hs.
  destruct (prods (runQueue s) !! t) as [[| | |b]|] eqn:Ht; try done. cbn [qstep] in *.
  rewrite Ht in *. destruct (if b then _ else _) as [n|] eqn:Hn; simplify_eq/=.
  split_and!; try done. intros Hcov Hm. destruct b.
  - unfold Sem.post in Hn. case_decide; simplify_eq. left. lia.
  - simplify_eq. destruct (Hcov Hm) as [?|(t' & p & Ht' & Hw)]; [auto|right].
    exists t', p. simpl. split; [|done]. rewrite lookup_delete_ne; [done|]. by intros ->; simplify_eq.
Qed.

(** [pop] never falls back to idle by itself, and decides to return null
    only with the empty mark in place. *)
Lemma cons_step_result q q' c :
  inv stub q c → cons_step stub q = Some q' →
  cons q' ≠ CIdle ∧ (cons q' = CRet nullptr → marked (tail q') = true).
Proof.
  intros I Hs. pose proof (inv_stub_ok _ _ _ I) as (_ & Ha & [ns Hns]).
  pose proof (inv_pc _ _ _ I) as Hpc. unfold pc_ok in Hpc.
  destruct (inv_head_alloc _ _ _ I) as [nh Hnh].
  unfold cons_step in Hs. destruct (cons q) eqn:Hc; simplify_eq/=;
    try (erewrite access_load by done); try (erewrite access_store by done).
  - by destruct (head q =? stub)%Z.
  - by destruct (marked (tail q)) eqn:Hm.
  - destruct (tail q =? stub)%Z; [|done]. split; [done|]. intros _. by apply marked_mark.
  - destruct (_ =? nullptr)%Z; simpl; rewrite ?Hc; done.
  - done.
  - done.
  - destruct (inv_pending _ _ _ I prv stub) as [_ Hn]; [by right|]. by erewrite access_store.
  - destruct (_ =? nullptr)%Z; simpl; rewrite ?Hc; done.
  - done.
  - destruct Hpc as (Hl & _ & _ & [n Hn]). erewrite access_store by done.
    split; [done|]. intros [=]. done.
Qed.
End wakeup.

(** What holds of every reachable state of the scheduler. *)
Record sinv (stub : addr) (s : sched) (c : list addr) : Prop := {
  sinv_queue : inv stub (runQueue s) c;
  sinv_pop : in_pop s;
  sinv_wakeup : idle s → covered (sem s) (runQueue s)
}.

Section sinv.
Context (SEM_VALUE_MAX : nat) (stub : addr).
Implicit Types (s : sched) (c : list addr).

Lemma sinv_init m k : valid_init stub m → starts k → ∃ c, sinv stub (sched_init stub m k) c.
Proof.
  intros (H0 & Ha & Hn) Hk. exists [stub]. split; [by apply inv_init|..].
  - destruct Hk as [->|[ut ->]]; done.
  - intros _ Hm. simpl in Hm. by rewrite marked_mark in Hm.
Qed.

(** A step of the queue that keeps the consumer where it is. *)
Lemma sinv_frame s c a q' k' :
  sinv stub s c → qstep stub a (runQueue s) = Some q' →
  cons q' = cons (runQueue s) →
  (covered (sem s) (runQueue s) → covered (sem s) q') →
  (idle (mkSched q' (sem s) (iosem s) k') → idle s) →
  (in_pop s → in_pop (mkSched q' (sem s) (iosem s) k')) →
  ∃ c', sinv stub (mkSched q' (sem s) (iosem s) k') c'.
Proof.
  intros [I Hp Hw] Hs Hc Hcov Hidle Hpop. destruct (inv_qstep _ _ _ _ _ I Hs) as [c' I'].
  exists c'. split; simpl; auto.
Qed.

Lemma sinv_cons_step s c q' :
  sinv stub s c → (∃ u b, kt s = KNonBlocking u b) ∨ kt s = KPop →
  qstep stub QCons (runQueue s) = Some q' →
  ∃ c', sinv stub (mkSched q' (sem s) (iosem s) (kt s)) c'.
Proof.
  intros [I Hp Hw] Hk Hs. destruct (inv_qstep _ _ _ _ _ I Hs) as [c' I'].
  destruct (cons_step_result _ _ _ _ I Hs) as [Hi Hn].
  exists c'. split; [done|..].
  - unfold in_pop. simpl. destruct Hk as [(u & b & ->)| ->]; done.
  - intros Hid Hm. unfold idle in Hid. simpl in *.
    destruct Hk as [(u & b & Hk)|Hk]; rewrite Hk in Hid; rewrite Hn in Hm; done.
Qed.

Lemma sinv_with_cons s s' c :
  sinv stub s c → (∃ u b, kt s = KNonBlocking u b) ∨ kt s = KPop →
  with_queue s (qstep stub QCons (runQueue s)) = Some s' → ∃ c', sinv stub s' c'.
Proof.
  unfold with_queue. intros J Hk Hs.
  destruct (qstep _ _ _) as [q'|] eqn:Hq; simplify_eq/=. by eapply sinv_cons_step.
Qed.

Lemma sinv_pop_ret s c q' ut k' :
  sinv stub s c → cons (runQueue s) = CRet ut →
  (∃ u b, kt s = KNonBlocking u b) ∨ kt s = KPop →
  qstep stub QPopRet (runQueue s) = Some q' →
  (k' = KBlocking ∨ k' = KWait → ut = nullptr) →
  (∀ u b, k' ≠ KNonBlocking u b) → k' ≠ KPop →
  ∃ c', sinv stub (mkSched q' (sem s) (iosem s) k') c'.
Proof.
  intros [I Hp Hw] Hr Hk Hs Hnull Hk1 Hk2. destruct (inv_qstep _ _ _ _ _ I Hs) as [c' I'].
  simpl in Hs. rewrite Hr in Hs. simplify_eq. exists c'. split; [done|..].
  - unfold in_pop. simpl. destruct k'; naive_solver.
  - intros Hid. unfold idle in Hid. simpl in *.
    assert (ut = nullptr) as -> by (apply Hnull; destruct k'; naive_solver).
    apply Hw. unfold idle. destruct Hk as [(u & b & ->)| ->]; done.
Qed.

Lemma sinv_push_ret t s s' c k' :
  sinv stub s c → push_ret SEM_VALUE_MAX stub t s = Some s' →
  (k' = kt s ∨ ∃ u v, kt s = KResume u ∧ k' = KRun v) → ∃ c', sinv stub (set_kt k' s') c'.
Proof.
  intros [I Hp Hw] Hs Hk.
  destruct (push_ret_covered _ _ _ _ _ Hs) as (Hc & Hcons & Hkt & _ & Hq).
  destruct (inv_qstep _ _ _ _ _ I Hq) as [c' I']. exists c'. split; simpl; [done|..].
  - unfold in_pop in *. simpl. rewrite Hcons.
    destruct Hk as [->|(u & v & Hk & ->)]; [done|by rewrite Hk in Hp].
  - intros Hid. apply Hc, Hw. unfold idle in *. simpl in *. rewrite Hcons in Hid.
    destruct Hk as [->|(u & v & Hk & ->)]; done.
Qed.

Lemma sinv_kt_step s c s' :
  sinv stub s c → kt_step SEM_VALUE_MAX stub s = Some s' → ∃ c', sinv stub s' c'.
Proof.
  intros J Hs. pose proof J as [I Hp Hw]. unfold kt_step in Hs.
  destruct (kt s) as [ut|old y|old ut|ut| | | |ut] eqn:Hk; [done|..].
  - destruct (cons (runQueue s)) as [| | | | | | | | | | |v] eqn:Hc;
      try by eapply sinv_with_cons; eauto.
    simpl in Hs. rewrite Hc in Hs. simplify_eq/=.
    eapply (sinv_pop_ret s c _ v); eauto; [simpl; by rewrite Hc|..]; unfold nonBlockingSwitch_ret;
      destruct (Z.eqb_spec v nullptr), y; naive_solver.
  - unfold with_queue in Hs. destruct (qstep _ _ _) as [q'|] eqn:Hq; simplify_eq/=.
    assert (Hc : cons q' = cons (runQueue s)) by (simplify_option_eq; done).
    pose proof (push_covered _ _ _ _ _ (sem s) Hq) as Hcov.
    eapply (sinv_frame s c (QPush self [old]) q' _ J Hq Hc Hcov); unfold idle, in_pop; simpl; rewrite ?Hk, ?Hc; tauto.
  - destruct (prods (runQueue s) !! self) as [[| | |b]|] eqn:Ht;
      unfold with_queue in Hs; simpl in Hs;
      try (destruct (prod_step self (runQueue s)) as [q'|] eqn:Hq; simplify_eq/=;
           pose proof (prod_step_covered _ _ _ _ _ (sem s) I Hq) as Hcov;
           assert (Hc : cons q' = cons (runQueue s)) by (by apply cons_prod_step in Hq);
           eapply (sinv_frame s c (QProd self) q' _ J Hq Hc Hcov); unfold idle, in_pop; simpl;
           rewrite ?Hk, ?Hc; tauto).
    destruct (push_ret _ _ _ _) as [s1|] eqn:Hr; simplify_eq/=.
    eapply sinv_push_ret; eauto.
  - destruct (Sem.post _ _); simplify_eq/=. exists c. split; [done|..].
    + unfold in_pop in *. by rewrite Hk in Hp.
    + intros _. apply Hw. unfold idle. by rewrite Hk.
  - destruct (Sem.wait (sem s)) as [n|]; simplify_eq/=.
    unfold in_pop in Hp. rewrite Hk in Hp. rewrite Hp in Hs. simplify_eq/=.
    destruct (inv_qstep stub QPop (runQueue s) c (set_cons CEnter (runQueue s)) I)
      as [c' I']; [simpl; by rewrite Hp|].
    exists c'. split; simpl; [done|done|]. intros Hid. done.
  - destruct (cons (runQueue s)) as [| | | | | | | | | | |v] eqn:Hc;
      try by eapply sinv_with_cons; eauto.
    simpl in Hs. rewrite Hc in Hs. simplify_eq/=.
    eapply (sinv_pop_ret s c _ v); eauto; [simpl; by rewrite Hc|..];
      destruct (Z.eqb_spec v nullptr); naive_solver.
  - destruct (Sem.trywait (iosem s)) as [[] n]; simplify_eq/=; exists c; split; try done;
      unfold in_pop in *; by rewrite Hk in Hp.
Qed.

Lemma sinv_sstep a s c s' :
  sinv stub s c → sstep SEM_VALUE_MAX stub a s = Some s' → ∃ c', sinv stub s' c'.
Proof.
  intros J Hs. pose proof J as [I Hp Hw]. destruct a as [t seg|t|t|y| | |]; cbn [sstep] in Hs.
  - case_decide; [done|]. unfold with_queue in Hs.
    destruct (qstep _ _ _) as [q'|] eqn:Hq; simplify_eq/=.
    assert (Hc : cons q' = cons (runQueue s)) by (simplify_option_eq; done).
    eapply (sinv_frame s c (QPush t seg) q' _ J Hq Hc); unfold idle, in_pop; simpl;
      rewrite ?Hc; try done.
    by eapply push_covered.
  - case_decide; [done|]. unfold with_queue in Hs.
    destruct (qstep _ _ _) as [q'|] eqn:Hq; simplify_eq/=.
    pose proof (cons_prod_step _ _ _ Hq) as Hc.
    eapply (sinv_frame s c (QProd t)); eauto; unfold idle, in_pop; simpl; rewrite ?Hc; try done.
    by eapply prod_step_covered.
  - case_decide; [done|].
    destruct (push_ret_covered _ _ _ _ _ Hs) as (_ & _ & Hkt & _).
    destruct (sinv_push_ret _ _ _ _ (kt s) J Hs) as [c' J']; [auto|]. exists c'.
    rewrite <-Hkt in J'. by destruct s'.
  - destruct (kt s) eqn:Hk; try done. unfold with_queue in Hs.
    destruct (qstep _ _ _) as [q'|] eqn:Hq; simplify_eq/=.
    destruct (inv_qstep stub QPop _ _ q' I Hq) as [c' I']. exists c'.
    unfold in_pop in Hp. rewrite Hk in Hp. rewrite Hp in Hq. simplify_eq/=.
    split; done.
  - by eapply sinv_kt_step.
  - destruct (Sem.post _ _); simplify_eq/=. by exists c; split.
  - destruct (Sem.wait _); simplify_eq/=. by exists c; split.
Qed.

Lemma sinv_reachable m k s :
  valid_init stub m → starts k →
  reachable (sstep SEM_VALUE_MAX stub) (sched_init stub m k) s → ∃ c, sinv stub s c.
Proof.
  intros Hm Hk. apply (invariant_reachable _ (λ s, ∃ c, sinv stub s c)).
  - by apply sinv_init.
  - intros a s1 s2 [c J] Hs. by eapply sinv_sstep.
Qed.
End sinv.

(** The kThread is a producer of its own queue only inside [postSwitchFunc]. *)
Definition self_idle (s : sched) : Prop :=
  match kt s with KResume _ => True | _ => prods (runQueue s) !! self = None end.

Section self_idle.
Context (SEM_VALUE_MAX : nat) (stub : addr).
Implicit Types (s : sched) (q : mpsc).

Lemma prods_cons_step q q' : cons_step stub q = Some q' → prods q' = prods q.
Proof.
  unfold cons_step. intros Hs.
  destruct (cons q); simplify_eq; try done;
    try (by destruct (_ =? _)%Z);
    apply (access_cons _ _ _ (λ q', prods q' = prods q)); try done;
    intros n m; by destruct (n =? nullptr)%Z.
Qed.
Lemma prods_prod_step t q q' :
  prod_step t q = Some q' → ∀ t', t' ≠ t → prods q' !! t' = prods q !! t'.
Proof.
  unfold prod_step. intros Hs t' Hne.
  destruct (prods q !! t) as [[seg|seg|x y b|b]|]; simplify_option_eq; try done;
    [| by rewrite lookup_insert_ne |];
    (apply (access_cons _ _ _ (λ q', prods q' !! t' = prods q !! t')); [|done];
     intros; simpl; by rewrite lookup_insert_ne).
Qed.
Lemma push_ret_prods t s s' :
  push_ret SEM_VALUE_MAX stub t s = Some s' →
  prods (runQueue s') = delete t (prods (runQueue s)) ∧ kt s' = kt s.
Proof.
  unfold push_ret. intros Hs. destruct (prods (runQueue s) !! t) as [[| | |b]|] eqn:Ht; try done.
  destruct (if b then _ else _); simplify_eq/=. rewrite Ht in Hs. by simplify_eq/=.
Qed.

Lemma self_idle_step a s s' :
  self_idle s → sstep SEM_VALUE_MAX stub a s = Some s' → self_idle s'.
Proof.
  intros Hi Hs. destruct a as [t seg|t|t|y| | |]; cbn [sstep] in Hs.
  - case_decide; simplify_option_eq. unfold self_idle, with_queue in *. simplify_option_eq.
    destruct (kt s); try done; by rewrite lookup_insert_ne.
  - case_decide; [done|]. unfold with_queue in Hs.
    destruct (qstep _ _ _) as [q'|] eqn:Hq; simplify_eq/=.
    unfold self_idle in *. simpl. destruct (kt s); try done;
      by rewrite (prods_prod_step _ _ _ Hq).
  - case_decide; [done|]. destruct (push_ret_prods _ _ _ Hs) as [Hp Hk].
    unfold self_idle in *. rewrite Hk, Hp. destruct (kt s); try done; by rewrite lookup_delete_ne.
  - unfold self_idle in *. destruct (kt s); try done. unfold with_queue in Hs.
    simpl in Hs. destruct (cons (runQueue s)); by simplify_eq/=.
  - unfold self_idle, kt_step in *. destruct (kt s) eqn:Hk; try done.
    + destruct (cons (runQueue s)) as [| | | | | | | | | | |v] eqn:Hc; unfold with_queue in Hs;
        cbn [qstep] in Hs; rewrite ?Hc in Hs; simplify_eq/=;
        try (destruct (cons_step stub (runQueue s)) as [q'|] eqn:Hq; simplify_eq/=;
             rewrite Hk; by rewrite (prods_cons_step _ _ Hq)).
      unfold nonBlockingSwitch_ret. by destruct (v =? nullptr)%Z, yielded.
    + unfold with_queue in Hs. by simplify_option_eq.
    + destruct (prods (runQueue s) !! self) as [[| | |b]|]; unfold with_queue in Hs;
        try (destruct (qstep _ _ _) as [q'|] eqn:Hq; simplify_eq/=; by rewrite Hk).
      destruct (push_ret _ _ _ _) as [s1|] eqn:Hr; simplify_eq/=.
      destruct (push_ret_prods _ _ _ Hr) as [-> _]. by rewrite lookup_delete_eq.
    + destruct (Sem.post _ _); by simplify_eq/=.
    + destruct (Sem.wait _); simplify_eq/=. destruct (cons (runQueue s)); by simplify_eq/=.
    + destruct (cons (runQueue s)) as [| | | | | | | | | | |v] eqn:Hc; unfold with_queue in Hs;
        cbn [qstep] in Hs; rewrite ?Hc in Hs; simplify_eq/=;
        try (destruct (cons_step stub (runQueue s)) as [q'|] eqn:Hq; simplify_eq/=;
             rewrite Hk; by rewrite (prods_cons_step _ _ Hq)).
      by destruct (v =? nullptr)%Z.
    + destruct (Sem.trywait _) as [[] n]; by simplify_eq/=.
  - destruct (Sem.post _ _); by simplify_eq/=.
  - destruct (Sem.wait _); by simplify_eq/=.
Qed.

Lemma self_idle_reachable m k s :
  starts k → reachable (sstep SEM_VALUE_MAX stub) (sched_init stub m k) s → self_idle s.
Proof.
  intros Hk. apply invariant_reachable.
  - destruct Hk as [->|[ut ->]]; done.
  - intros a s1 s2. apply self_idle_step.
Qed.
End self_idle.

Section runs.
Context (SEM_VALUE_MAX : nat) (stub : addr).
Implicit Types (s : sched) (q : mpsc).

Definition with_q (q : mpsc) (s : sched) : sched := mkSched q (sem s) (iosem s) (kt s).

Definition popping_phase (k : kphase) : bool :=
  match k with KNonBlocking _ _ | KPop => true | _ => false end.

(** The steps of [pop] are the kThread's steps. *)
Lemma run_cons n s q' :
  popping_phase (kt s) = true →
  run (qstep stub) (replicate n QCons) (runQueue s) = Some q' →
  run (sstep SEM_VALUE_MAX stub) (replicate n SKt) s = Some (with_q q' s).
Proof.
  revert s. induction n as [|n IH]; intros s Hk Hrun; simpl in Hrun.
  { simplify_eq. by destruct s. }
  destruct (cons_step stub (runQueue s)) as [q1|] eqn:Hq; [|done]. simpl in Hrun.
  assert (Hs : kt_step SEM_VALUE_MAX stub s = Some (with_q q1 s)).
  { unfold kt_step. destruct (kt s) eqn:E; try done;
      destruct (cons (runQueue s)) eqn:Hc; unfold with_queue; simpl; rewrite ?Hq;
      try (simpl; by rewrite <-E);
      unfold cons_step in Hq; by rewrite Hc in Hq. }
  simpl. rewrite Hs. simpl. apply (IH (with_q q1 s)); done.
Qed.

Lemma sinv_unmarked s c :
  sinv stub s c → pushed (runQueue s) ≠ popped (runQueue s) →
  marked (tail (runQueue s)) = false.
Proof.
  intros [I _ _] Hne. destruct (inv_tail _ _ _ I) as (z & Hz & _ & [Ht|[_ Hc]]).
  - rewrite Ht. apply marked_aligned, (inv_nodes _ _ _ I).
    apply last_Some in Hz as [w ->]. set_solver.
  - destruct Hne. rewrite (inv_content _ _ _ I), Hc.
    rewrite filter_cons_False by (intros ?; done). by rewrite filter_nil, app_nil_r.
Qed.

Lemma sinv_next s c :
  sinv stub s c → pushed (runQueue s) ≠ popped (runQueue s) →
  ∃ x rest, pushed (runQueue s) = popped (runQueue s) ++ x :: rest.
Proof.
  intros [I _ _] Hne. pose proof (inv_content _ _ _ I) as Hc.
  destruct (filter _ c) as [|x rest]; [by rewrite app_nil_r in Hc|eauto].
Qed.

Lemma sinv_next_not_null s c x rest :
  sinv stub s c → pushed (runQueue s) = popped (runQueue s) ++ x :: rest → x ≠ nullptr.
Proof.
  intros [I _ _] Hp. pose proof (inv_content _ _ _ I) as Hc. rewrite Hp in Hc.
  apply app_inv_head in Hc. apply (inv_nodes _ _ _ I).
  apply (list_elem_of_filter (λ x, x ≠ stub)). rewrite <-Hc. set_solver.
Qed.

Lemma sinv_empty s c :
  sinv stub s c → in_pop s → popping_phase (kt s) = false →
  pushed (runQueue s) = popped (runQueue s) → c = [stub].
Proof.
  intros [I _ _] Hp Hk He. pose proof (inv_content _ _ _ I) as Hc.
  rewrite He in Hc. rewrite <-(app_nil_r (popped _)) in Hc at 1. apply app_inv_head in Hc.
  assert (Hin : stub ∈ c).
  { apply (inv_stub _ _ _ I). unfold in_pop in Hp. intros [Hx|Hx]; destruct (kt s);
      simpl in *; congruence. }
  pose proof (inv_nodup _ _ _ I) as Hnd.
  assert (Hall : ∀ x, x ∈ c → x = stub).
  { intros x Hx. destruct (decide (x = stub)); [done|].
    assert (x ∈ filter (λ x, x ≠ stub) c) as Hf by by apply list_elem_of_filter.
    rewrite <-Hc in Hf. by apply not_elem_of_nil in Hf. }
  destruct c as [|x [|y r]]; [set_solver|by rewrite (Hall x) by set_solver|].
  rewrite (Hall x), (Hall y) in Hnd by set_solver. inversion Hnd; subst. set_solver.
Qed.
End runs.

(** C2. No wake-up is lost: when a kThread sleeps in [sem.wait] with no token
    posted while a uThread is in its run queue, the producer that found the
    queue marked empty has yet to post, and at most two steps of that producer
    deliver the token. *)
Theorem sched_no_lost_wakeup SEM_VALUE_MAX stub m k s :
  valid_init stub m → starts k → 0 < SEM_VALUE_MAX →
  reachable (sstep SEM_VALUE_MAX stub) (sched_init stub m k) s →
  kt s = KWait → sem s = 0 → pushed (runQueue s) ≠ popped (runQueue s) →
  ∃ t tr s', (tr = [SPushRet t] ∨ tr = [SProd t; SPushRet t]) ∧
    run (sstep SEM_VALUE_MAX stub) tr s = Some s' ∧ sem s' = 1 ∧ kt s' = KWait.
Proof.
  intros Hm Hk Hmax Hr Hw H0 Hne. destruct (sinv_reachable _ _ _ _ _ Hm Hk Hr) as [c J].
  pose proof (self_idle_reachable _ _ _ _ _ Hk Hr) as Hi. unfold self_idle in Hi. rewrite Hw in Hi.
  destruct (sinv_wakeup _ _ _ J) as [?|(t & p & Ht & Hp)];
    [unfold idle; by rewrite Hw|by eapply sinv_unmarked|lia|].
  assert (Hts : t ≠ self) by (intros ->; congruence).
  destruct p as [seg|seg|x y b|b]; simpl in Hp; try done; subst b.
  - destruct (inv_pending _ _ _ (sinv_queue _ _ _ J) x y) as [_ Hn]; [left; eauto|].
    exists t, [SProd t; SPushRet t]. eexists. split; [auto|].
    split; [|shelve]. cbn [run sstep]. rewrite decide_False by done. simpl.
    unfold prod_step at 1. rewrite Ht. simpl. erewrite access_store by done. simpl.
    rewrite decide_False by done. unfold push_ret. simpl. rewrite lookup_insert_eq.
    unfold Sem.post. rewrite H0, decide_True by done. reflexivity.
    Unshelve. done.
  - exists t, [SPushRet t]. eexists. split; [auto|]. split; [|shelve].
    cbn [run sstep]. rewrite decide_False by done. unfold push_ret. simpl. rewrite Ht.
    unfold Sem.post. rewrite H0, decide_True by done. reflexivity.
    Unshelve. done.
Qed.

Section switch.
Context (SEM_VALUE_MAX : nat) (stub : addr).
Implicit Types (s : sched) (q : mpsc).

Definition quiet s : Prop := prods (runQueue s) = ∅.

Lemma quiet_no_link s : quiet s → no_link_pending (runQueue s).
Proof. intros Hq t x y b. by rewrite Hq, lookup_empty. Qed.

(** [pop], from the call to the point where it is about to return [x]. *)
Lemma kt_pop_delivers s c x rest :
  inv stub (runQueue s) c → quiet s → popping_phase (kt s) = true →
  cons (runQueue s) = CEnter → pushed (runQueue s) = popped (runQueue s) ++ x :: rest →
  ∃ n q' c', n ≤ 10 ∧
    run (sstep SEM_VALUE_MAX stub) (replicate n SKt) s = Some (with_q q' s) ∧
    inv stub q' c' ∧ popping (runQueue s) x q' ∧ cons q' = CRet x.
Proof.
  intros I Hq Hk Hc Hpush.
  destruct (pop_delivers stub (runQueue s) x rest (runQueue s) c)
    as (n & q' & c' & Hn & Hrun & I' & Hpop & Hret); auto.
  { by apply quiet_no_link. }
  { unfold popping. by rewrite Hc. }
  rewrite Hc in Hn. exists n, q', c'. split_and!; auto. by apply run_cons.
Qed.

(** [pop] on an empty queue. *)
Lemma kt_pop_null s :
  inv stub (runQueue s) [stub] → popping_phase (kt s) = true → cons (runQueue s) = CEnter →
  ∃ n q', n ≤ 3 ∧
    run (sstep SEM_VALUE_MAX stub) (replicate n SKt) s = Some (with_q q' s) ∧
    cons q' = CRet nullptr ∧ prods q' = prods (runQueue s) ∧
    pushed q' = pushed (runQueue s) ∧ popped q' = popped (runQueue s).
Proof.
  intros I Hk Hc. pose proof (inv_head _ _ _ I) as Hh. simpl in Hh.
  assert (Heq : (head (runQueue s) =? stub)%Z = true) by (apply Z.eqb_eq; congruence).
  destruct (inv_tail _ _ _ I) as (z & Hz & _ & Ht). simpl in Hz. simplify_eq.
  destruct (inv_nodes _ _ _ I (head (runQueue s))) as [_ Hal]; [set_solver|].
  set (q := runQueue s) in *. clear Heq.
  assert (S1 : cons_step (head q) q = Some (set_cons CLoadTail q))
    by (unfold cons_step; by rewrite Hc, Z.eqb_refl).
  destruct Ht as [Ht|[Ht _]].
  - assert (S2 : cons_step (head q) (set_cons CLoadTail q) =
                 Some (set_cons CCas (set_cons CLoadTail q)))
      by (unfold cons_step; simpl; by rewrite Ht, marked_aligned).
    exists 3. eexists. split; [lia|]. split; [apply run_cons; [done|]|].
    + fold q. cbn [run replicate qstep mbind option_bind]. rewrite S1. cbn [mbind option_bind].
      rewrite S2. cbn [mbind option_bind]. unfold cons_step. simpl. rewrite Ht, Z.eqb_refl.
      reflexivity.
    + done.
  - exists 2. eexists. split; [lia|]. split; [apply run_cons; [done|]|].
    + fold q. cbn [run replicate qstep mbind option_bind]. rewrite S1. cbn [mbind option_bind].
      unfold cons_step. simpl. rewrite Ht, marked_mark by done. reflexivity.
    + done.
Qed.
End switch.

(** C21. [blockingSwitch] returns the first uThread of the queue: a kThread that
    sleeps while a uThread is queued and every [schedule] has returned finds a
    token, within 12 of its own steps holds the uThread that is first in the
    queue, and returns it with the next one, the [trywait] on the poller's
    semaphore, unless that has no token; then the [trywait]s fail and change
    nothing, and the first one after a token has been posted returns it.  (The
    poller holds the missing token, and posting it is its next step: [Poller].) *)
Theorem sched_blockingSwitch_delivers SEM_VALUE_MAX stub m k s :
  valid_init stub m → starts k → 0 < SEM_VALUE_MAX →
  reachable (sstep SEM_VALUE_MAX stub) (sched_init stub m k) s →
  kt s = KWait → quiet s → pushed (runQueue s) ≠ popped (runQueue s) →
  ∃ n s' x, n ≤ 12 ∧ run (sstep SEM_VALUE_MAX stub) (replicate n SKt) s = Some s' ∧
    pushed (runQueue s) !! length (popped (runQueue s)) = Some x ∧
    kt s' = KIo x ∧ popped (runQueue s') = popped (runQueue s) ++ [x] ∧
    ∃ s'', popped (runQueue s'') = popped (runQueue s) ++ [x] ∧ kt s'' = KRun x ∧
      if decide (iosem s = 0)
      then (∀ j, run (sstep SEM_VALUE_MAX stub) (replicate j SKt) s' = Some s') ∧
           run (sstep SEM_VALUE_MAX stub) [SIoPost; SKt] s' = Some s''
      else run (sstep SEM_VALUE_MAX stub) [SKt] s' = Some s''.
Proof.
  intros Hm Hk Hmax Hr Hw Hq Hne. destruct (sinv_reachable _ _ _ _ _ Hm Hk Hr) as [c J].
  destruct (sinv_next _ _ _ J Hne) as (x & rest & Hpush).
  destruct (sinv_wakeup _ _ _ J) as [Hsem|(t & p & Ht & _)];
    [unfold idle; by rewrite Hw|by eapply sinv_unmarked| |by rewrite Hq, lookup_empty in Ht].
  destruct (sem s) as [|sm] eqn:Hs; [lia|].
  pose proof (sinv_pop _ _ _ J) as Hp. unfold in_pop in Hp. rewrite Hw in Hp.
  set (s1 := mkSched (set_cons CEnter (runQueue s)) sm (iosem s) KPop).
  assert (S1 : sstep SEM_VALUE_MAX stub SKt s = Some s1).
  { simpl. unfold kt_step. rewrite Hw, Hs. simpl. by rewrite Hp. }
  destruct (sinv_sstep _ _ _ _ _ _ J S1) as [c1 J1].
  destruct (kt_pop_delivers SEM_VALUE_MAX stub s1 c1 x rest)
    as (n & q' & c' & Hn & Hrun & I' & Hpop & Hret); auto; [apply J1|].
  pose proof (sinv_next_not_null _ _ _ _ _ J Hpush) as Hx.
  exists (S (n + 1)), (mkSched (set_cons CIdle q') sm (iosem s) (KIo x)), x.
  destruct Hpop as (_ & _ & _ & Hpp). rewrite Hret in Hpp. destruct Hpp as [_ Hpp].
  split; [lia|]. split; [|split; [|split; [|split]]].
  - simpl replicate. cbn [run]. rewrite S1. cbn [mbind option_bind].
    rewrite replicate_add, run_app, Hrun. cbn. unfold kt_step. cbn. rewrite Hret. cbn.
    destruct (Z.eqb_spec x nullptr); done.
  - rewrite Hpush, lookup_app_r, Nat.sub_diag by done. done.
  - done.
  - done.
  - exists (mkSched (set_cons CIdle q') sm (iosem s - 1) (KRun x)). split; [done|]. split; [done|].
    case_decide as Ei; unfold run; cbn; unfold kt_step; cbn.
    + split; [|rewrite Ei; cbn; unfold Sem.post; by rewrite decide_True].
      intros j. induction j as [|j IH]; [done|]. cbn. unfold kt_step. cbn. rewrite Ei. cbn. by rewrite Ei in IH.
    + destruct (iosem s) as [|i]; [done|]. cbn. by rewrite Nat.sub_0_r.
Qed.

Section yielding.
Context (SEM_VALUE_MAX : nat) (stub : addr).
Implicit Types (s : sched) (q : mpsc).

Lemma run_self_prod n s ut q' :
  kt s = KResume ut →
  run (qstep stub) (replicate n (QProd self)) (runQueue s) = Some q' →
  run (sstep SEM_VALUE_MAX stub) (replicate n SKt) s = Some (with_q q' s).
Proof.
  revert s. induction n as [|n IH]; intros s Hk Hrun; simpl in Hrun.
  { simplify_eq. by destruct s. }
  destruct (prod_step self (runQueue s)) as [q1|] eqn:Hq; [|done]. simpl in Hrun.
  assert (Hs : kt_step SEM_VALUE_MAX stub s = Some (with_q q1 s)).
  { unfold kt_step. rewrite Hk. unfold with_queue. simpl. rewrite Hq. simpl.
    unfold with_q. rewrite ?Hk. destruct (prods (runQueue s) !! self) as [[| | |b]|] eqn:Ht; try done.
    unfold prod_step in Hq. by rewrite Ht in Hq. }
  simpl. rewrite Hs. simpl. apply (IH (with_q q1 s)); done.
Qed.

Lemma run_push_ret s ut b :
  kt s = KResume ut → prods (runQueue s) !! self = Some (PDone b) → sem s < SEM_VALUE_MAX →
  ∃ s', sstep SEM_VALUE_MAX stub SKt s = Some s' ∧ kt s' = KRun ut ∧
    prods (runQueue s') = delete self (prods (runQueue s)) ∧
    pushed (runQueue s') = pushed (runQueue s) ∧ popped (runQueue s') = popped (runQueue s).
Proof.
  intros Hk Ht Hmax. exists (set_kt (KRun ut) (mkSched
    (mkMpsc (memory (runQueue s)) (head (runQueue s)) (tail (runQueue s))
      (delete self (prods (runQueue s))) (cons (runQueue s)) (broken (runQueue s))
      (pushed (runQueue s)) (popped (runQueue s)))
    (if b then S (sem s) else sem s) (iosem s) (kt s))).
  split; [|done]. simpl. unfold kt_step. rewrite Hk, Ht.
  unfold push_ret. rewrite Ht. simpl. rewrite Ht. simpl. unfold Sem.post.
  rewrite decide_True by done. by destruct b.
Qed.

(** [postSwitchFunc] puts [old] back in the queue and the kThread runs [ut]. *)
Lemma kt_requeue s c old ut :
  inv stub (runQueue s) c → kt s = KPost old ut → quiet s → pushable stub (runQueue s) [old] →
  sem s < SEM_VALUE_MAX →
  ∃ s', run (sstep SEM_VALUE_MAX stub) (replicate 5 SKt) s = Some s' ∧ kt s' = KRun ut ∧ quiet s' ∧
    pushed (runQueue s') = pushed (runQueue s) ++ [old] ∧ popped (runQueue s') = popped (runQueue s).
Proof.
  intros I Hk Hq Hpu Hmax.
  assert (Sq : qstep stub (QPush self [old]) (runQueue s) =
               Some (set_prod self (PInit [old]) (runQueue s))).
  { simpl. rewrite decide_True; [done|]. by rewrite Hq, lookup_empty. }
  set (s1 := mkSched (set_prod self (PInit [old]) (runQueue s)) (sem s) (iosem s) (KResume ut)).
  assert (S1 : sstep SEM_VALUE_MAX stub SKt s = Some s1).
  { cbn [sstep]. unfold kt_step. rewrite Hk. unfold with_queue. rewrite Sq. done. }
  destruct (inv_qstep _ _ _ _ _ I Sq) as [c1 I1].
  destruct (push_runs _ _ _ self [old] I1) as (q2 & c2 & Hrun & I2 & Hp & Hpush & Hpop & _);
    [apply lookup_insert_eq|].
  pose proof (run_self_prod 3 s1 ut q2 eq_refl Hrun) as Hrun'.
  destruct (run_push_ret (with_q q2 s1) ut (marked (tail (runQueue s))))
    as (s3 & S3 & Hk3 & Hp3 & Hpush3 & Hpop3); [done|simpl; rewrite Hp; apply lookup_insert_eq|done|].
  exists s3. split_and!.
  - change (replicate 5 SKt) with (SKt :: replicate 3 SKt ++ [SKt]).
    cbn [run]. rewrite S1. cbn [mbind option_bind]. rewrite run_app, Hrun'.
    cbn [run mbind option_bind]. by rewrite S3.
  - done.
  - unfold quiet. rewrite Hp3. simpl. rewrite Hp. simpl. unfold quiet in Hq. by rewrite Hq.
  - by rewrite Hpush3.
  - by rewrite Hpop3.
Qed.

Lemma pushable_after q q' x u :
  popping q x q' → pushable stub q [u] → cons q' = CRet x → prods q = ∅ →
  pushable stub (set_cons CIdle q') [u].
Proof.
  intros (E1 & E2 & E3 & E4) (H1 & H2 & H3 & _ & H5 & _ & _) Hc Hpr. rewrite Hc in E4.
  destruct E4 as [_ E4]. unfold pushable. simpl.
  rewrite !Forall_singleton in H3, H5 |- *. rewrite E1, E4, E2, Hpr.
  destruct H3 as (H3a & H3b & H3c & H3d). split_and!; try done.
  - rewrite <-elem_of_dom, E3. by apply elem_of_dom.
  - rewrite length_app. apply Forall_singleton. intros Hin. apply H5.
    rewrite <-drop_drop in Hin. by eapply elem_drop.
  - apply Forall_singleton, not_elem_of_nil.
Qed.

(** The switch out of a running uThread enters [pop]. *)
Lemma switch_enters s c y ut :
  sinv stub s c → kt s = KRun ut →
  ∃ s1 c1, sstep SEM_VALUE_MAX stub (SSwitch y) s = Some s1 ∧ sinv stub s1 c1 ∧
    s1 = mkSched (set_cons CEnter (runQueue s)) (sem s) (iosem s) (KNonBlocking ut y).
Proof.
  intros J Hk. pose proof (sinv_pop _ _ _ J) as Hp. unfold in_pop in Hp. rewrite Hk in Hp.
  assert (S1 : sstep SEM_VALUE_MAX stub (SSwitch y) s =
    Some (mkSched (set_cons CEnter (runQueue s)) (sem s) (iosem s) (KNonBlocking ut y))).
  { simpl. rewrite Hk. unfold with_queue. simpl. by rewrite Hp. }
  destruct (sinv_sstep _ _ _ _ _ _ J S1) as [c1 J1]. eauto.
Qed.
End yielding.

(** Yielding is round robin: with other uThreads queued (and no
    [schedule] under way), the kThread runs the first of them and the yielding
    uThread is queued behind all the others. *)
Theorem sched_yield_round_robin SEM_VALUE_MAX stub m k s ut :
  valid_init stub m → starts k →
  reachable (sstep SEM_VALUE_MAX stub) (sched_init stub m k) s →
  kt s = KRun ut → quiet s → pushable stub (runQueue s) [ut] → sem s < SEM_VALUE_MAX →
  pushed (runQueue s) ≠ popped (runQueue s) →
  ∃ n s' x, n ≤ 16 ∧
    run (sstep SEM_VALUE_MAX stub) (SSwitch true :: replicate n SKt) s = Some s' ∧
    pushed (runQueue s) !! length (popped (runQueue s)) = Some x ∧ kt s' = KRun x ∧ quiet s' ∧
    pushed (runQueue s') = pushed (runQueue s) ++ [ut] ∧
    popped (runQueue s') = popped (runQueue s) ++ [x].
Proof.
  intros Hm Hk Hr Hrun Hq Hpu Hmax Hne. destruct (sinv_reachable _ _ _ _ _ Hm Hk Hr) as [c J].
  destruct (sinv_next _ _ _ J Hne) as (x & rest & Hpush).
  destruct (switch_enters SEM_VALUE_MAX _ _ _ true _ J Hrun) as (s1 & c1 & S1 & J1 & E1).
  destruct (kt_pop_delivers SEM_VALUE_MAX stub s1 c1 x rest)
    as (n & q' & c' & Hn & Hpr & I' & Hpop & Hret); [apply J1|by subst..|].
  pose proof (sinv_next_not_null _ _ _ _ _ J Hpush) as Hx.
  pose proof Hpop as (P1 & P2 & _ & P4). rewrite Hret in P4. destruct P4 as [_ P4].
  set (s2 := mkSched (set_cons CIdle q') (sem s) (iosem s) (KPost ut x)).
  assert (S2 : sstep SEM_VALUE_MAX stub SKt (with_q q' s1) = Some s2).
  { subst s1. simpl. unfold kt_step. simpl. rewrite Hret. simpl. unfold nonBlockingSwitch_ret.
    destruct (Z.eqb_spec x nullptr); done. }
  destruct (inv_qstep stub QPopRet q' c' (set_cons CIdle q') I') as [c2 I2];
    [simpl; by rewrite Hret|].
  destruct (kt_requeue SEM_VALUE_MAX stub s2 c2 ut x) as (s3 & R3 & Hk3 & Hq3 & Hpu3 & Hpo3); auto.
  { unfold quiet. subst s1. simpl in *. by rewrite P2. }
  { subst s1. simpl in *. eapply (pushable_after _ (runQueue s)); eauto. }
  exists (n + (1 + 5)), s3, x. subst s1. split_and!; auto; [lia|..].
  - cbn [run]. rewrite S1. cbn [mbind option_bind].
    rewrite replicate_add, run_app, Hpr. cbn [mbind option_bind replicate Nat.add].
    cbn [run]. rewrite S2. cbn [mbind option_bind]. exact R3.
  - rewrite Hpush, lookup_app_r, Nat.sub_diag by done. done.
  - rewrite Hpu3. simpl. by rewrite P1.
  - rewrite Hpo3. simpl. by rewrite P4.
Qed.

(** Yielding with nothing else to run returns to the same uThread, and
    leaves the queue and the semaphore as they were. *)
Theorem sched_yield_alone SEM_VALUE_MAX stub m k s ut :
  valid_init stub m → starts k →
  reachable (sstep SEM_VALUE_MAX stub) (sched_init stub m k) s →
  kt s = KRun ut → pushed (runQueue s) = popped (runQueue s) →
  ∃ n s', n ≤ 4 ∧ run (sstep SEM_VALUE_MAX stub) (SSwitch true :: replicate n SKt) s = Some s' ∧
    kt s' = KRun ut ∧ sem s' = sem s ∧ pushed (runQueue s') = pushed (runQueue s) ∧
    popped (runQueue s') = popped (runQueue s).
Proof.
  intros Hm Hk Hr Hrun He. destruct (sinv_reachable _ _ _ _ _ Hm Hk Hr) as [c J].
  pose proof (sinv_empty _ _ _ J (sinv_pop _ _ _ J)) as Hc. rewrite Hrun in Hc.
  specialize (Hc eq_refl He). subst c.
  destruct (switch_enters SEM_VALUE_MAX _ _ _ true _ J Hrun) as (s1 & c1 & S1 & J1 & E1).
  assert (I1 : inv stub (runQueue s1) [stub]).
  { subst s1. simpl. pose proof (sinv_pop _ _ _ J) as Hp. unfold in_pop in Hp. rewrite Hrun in Hp.
    apply inv_set_cons; [apply J|..]; rewrite ?Hp; try done; unfold stub_out; [naive_solver|set_solver]. }
  destruct (kt_pop_null SEM_VALUE_MAX stub s1 I1) as (n & q' & Hn & Hpr & Hret & Hp1 & Hp2 & Hp3);
    [by subst..|].
  exists (n + 1). eexists. split; [lia|]. split; [|shelve].
  cbn [run]. rewrite S1. cbn [mbind option_bind].
  rewrite replicate_add, run_app, Hpr. subst s1. cbn [mbind option_bind replicate run sstep].
  unfold kt_step. simpl. rewrite Hret. simpl. reflexivity.
  Unshelve. subst s1. simpl in *. auto.
Qed.

(** Concrete runs: the stub at 16, uThreads at 32 and 48. *)
Definition sched_demo_mem : mem := fresh_mem [16; 32; 48]%Z.
Definition sched_demo (k : kphase) (tr : list slabel) : sched :=
  default (sched_init 16 sched_demo_mem k)
    (run (sstep 10 16) tr (sched_init 16 sched_demo_mem k)).

Lemma sched_demo_init : valid_init 16 sched_demo_mem.
Proof. apply (bool_decide_unpack _). by vm_compute. Qed.

Lemma sched_no_lost_wakeup_witness :
  let s := sched_demo KBlocking [SKt; SPush 1 [32%Z]; SProd 1; SProd 1] in
  (kt s = KWait ∧ sem s = 0 ∧ pushed (runQueue s) = [32%Z] ∧ popped (runQueue s) = []) ∧
  ∃ t tr s', (tr = [SPushRet t] ∨ tr = [SProd t; SPushRet t]) ∧
    run (sstep 10 16) tr s = Some s' ∧ sem s' = 1 ∧ kt s' = KWait.
Proof.
  intros s. split; [by vm_compute|]. apply (sched_no_lost_wakeup 10 16 sched_demo_mem KBlocking).
  - exact sched_demo_init.
  - by left.
  - lia.
  - exists [SKt; SPush 1 [32%Z]; SProd 1; SProd 1]. by vm_compute.
  - by vm_compute.
  - by vm_compute.
  - by vm_compute.
Defined.

Lemma sched_blockingSwitch_delivers_witness :
  let s := sched_demo KBlocking [SKt; SPush 1 [32%Z]; SProd 1; SProd 1; SProd 1; SPushRet 1] in
  ∃ n s' x, n ≤ 12 ∧ run (sstep 10 16) (replicate n SKt) s = Some s' ∧ kt s' = KIo x ∧
    ∃ s'', kt s'' = KRun x ∧ run (sstep 10 16) [SKt] s' = Some s''.
Proof.
  intros s. destruct (sched_blockingSwitch_delivers 10 16 sched_demo_mem KBlocking s)
    as (n & s' & x & Hn & Hs & _ & Hk & _ & s'' & _ & Hk' & Hs').
  - exact sched_demo_init.
  - by left.
  - lia.
  - exists [SKt; SPush 1 [32%Z]; SProd 1; SProd 1; SProd 1; SPushRet 1]. by vm_compute.
  - by vm_compute.
  - by vm_compute.
  - by vm_compute.
  - exists n, s', x. rewrite decide_False in Hs' by (by vm_compute). split_and!; [done..|]. by exists s''.
Defined.

Lemma sched_yield_round_robin_witness :
  let s := sched_demo (KRun 48) [SPush 1 [32%Z]; SProd 1; SProd 1; SProd 1; SPushRet 1] in
  ∃ n s' x, n ≤ 16 ∧
    run (sstep 10 16) (SSwitch true :: replicate n SKt) s = Some s' ∧
    pushed (runQueue s) !! length (popped (runQueue s)) = Some x ∧ kt s' = KRun x ∧ quiet s' ∧
    pushed (runQueue s') = pushed (runQueue s) ++ [48%Z] ∧
    popped (runQueue s') = popped (runQueue s) ++ [x].
Proof.
  intros s. apply (sched_yield_round_robin 10 16 sched_demo_mem (KRun 48)).
  - exact sched_demo_init.
  - right. by exists 48%Z.
  - exists [SPush 1 [32%Z]; SProd 1; SProd 1; SProd 1; SPushRet 1]. by vm_compute.
  - by vm_compute.
  - by vm_compute.
  - apply (bool_decide_unpack _). by vm_compute.
  - apply (bool_decide_unpack _). by vm_compute.
  - by vm_compute.
Defined.

Lemma sched_yield_alone_witness :
  let s := sched_demo (KRun 48) [] in
  ∃ n s', n ≤ 4 ∧ run (sstep 10 16) (SSwitch true :: replicate n SKt) s = Some s' ∧
    kt s' = KRun 48 ∧ sem s' = sem s ∧ pushed (runQueue s') = pushed (runQueue s) ∧
    popped (runQueue s') = popped (runQueue s).
Proof.
  intros s. apply (sched_yield_alone 10 16 sched_demo_mem (KRun 48)).
  - exact sched_demo_init.
  - right. by exists 48%Z.
  - exists []. by vm_compute.
  - by vm_compute.
  - by vm_compute.
Defined.

(** A kThread that keeps running uThreads never consumes the tokens of the
    pushes that found its queue empty: here three of them are left with
    nothing queued and nothing under way, and [blockingSwitch] will be woken
    three times for nothing.  [semaphore::post] spins once the count reaches
    [SEM_VALUE_MAX]. *)
Definition push_32 : list slabel := [SPush 1 [32%Z]; SProd 1; SProd 1; SProd 1; SPushRet 1].
Definition stale_round : list slabel :=
  push_32 ++ SSwitch true :: replicate 16 SKt      (* 48 yields to 32 *)
          ++ SSwitch false :: replicate 11 SKt     (* 32 blocks, 48 runs *)
          ++ SSwitch true :: replicate 4 SKt.      (* 48 yields, alone *)

(** Tokens outlive the uThreads they were posted for. *)
Theorem sched_stale_tokens :
  ∃ s, run (sstep 10 16) (stale_round ++ stale_round ++ stale_round)
         (sched_init 16 sched_demo_mem (KRun 48)) = Some s ∧
    sem s = 3 ∧ kt s = KRun 48 ∧ prods (runQueue s) = ∅ ∧
    length (pushed (runQueue s)) = 6 ∧ pushed (runQueue s) = popped (runQueue s).
Proof. eexists. vm_compute. repeat split. Qed.
