(* ===== verification/Scheduler01.v ===== *)
(** * Scheduler 1: one run queue per cluster

    [src/runtime/schedulers/Scheduler_01.h]: the kThreads of a cluster share a
    queue of uThreads that a std::mutex protects.  A kThread takes several
    uThreads at once into its own queue [lrq]; kThreads that find the shared
    queue empty sleep, each on its own condition variable, on a stack from
    which the last one is woken first.

    All shared data is accessed under the mutex, so that a critical section, up
    to [cv.wait] or the unlock, is one step.  The queues are lists: what the
    intrusive containers do to their nodes is refined to lists in the files of
    the containers. *)

From stdpp Require Import functions.
From S2P Require Import Prelude.

Open Scope Z_scope.

(** ** The arithmetic of [__removeMany] *)

(** How many uThreads a kThread takes: its share of the queue, at least 1, at
    least as many as the last time, and no more than there are. *)
Definition popnum (size numkt last : Z) : Z :=
  let p := if (size / numkt =? 0) then 1 else size / numkt in
  let p := if p <? last then last else p in
  if size <? p then size else p.

(** [__removeMany] on a non-empty queue takes at least one uThread and at
    most all of them, and never less than the smaller of the kThread's share
    and of what is there: the subtraction from [size] does not wrap. *)
Theorem popnum_bounds size numkt last :
  0 < size < 2 ^ 32 → 0 < numkt → 0 <= last < 2 ^ 64 →
  1 <= popnum size numkt last <= size
  ∧ size / numkt <= popnum size numkt last
  ∧ Z.min size last <= popnum size numkt last
  ∧ wrap 32 (size - popnum size numkt last) = size - popnum size numkt last.
Proof.
  intros Hs Hn Hl. assert (Hdiv : 0 <= size / numkt <= size).
  { split; [apply Z.div_pos; lia|]. apply Z.div_le_upper_bound; nia. }
  assert (1 <= popnum size numkt last <= size
          ∧ size / numkt <= popnum size numkt last
          ∧ Z.min size last <= popnum size numkt last) as (? & ? & ?).
  { unfold popnum. destruct (Z.eqb_spec (size / numkt) 0) as [E|E];
      repeat match goal with |- context [?x <? ?y] => destruct (Z.ltb_spec x y) end; lia. }
  split_and!; try lia. unfold wrap. apply Z.mod_small. lia.
Qed.

Lemma popnum_bounds_witness : 1 <= popnum 10 3 0 <= 10 ∧ popnum 10 3 0 = 3.
Proof.
  split; [|reflexivity].
  destruct (popnum_bounds 10 3 0) as (H & _); [lia|lia|lia|]. exact H.
Defined.

(** ** [__spinLock] *)

Definition SPIN_START : Z := 4.
Definition SPIN_END : Z := 4 * 1024.

(** [free n]: the mutex is available at the [n]-th instant at which the thread
    looks at it.  [mlock.lock()] waits from instant [n] on. *)
Fixpoint lock_wait (fuel : nat) (free : nat → bool) (n : nat) : option nat :=
  match fuel with
  | O => None
  | S fuel' => if free n then Some n else lock_wait fuel' free (S n)
  end.

(** The number of attempts at [try_lock], of pauses, and the instant at which the
    mutex was taken. *)
Inductive spun : Type := Spun (attempts pauses : Z) (taken : nat) | SpinMore.

Fixpoint spinLoop (fuel : nat) (free : nat → bool) (n : nat) (spin pauses : Z) : spun :=
  match fuel with
  | O => SpinMore
  | S fuel' =>
      if free n then Spun (Z.of_nat (S n)) pauses n
      else
        let pauses := pauses + spin in
        let spin := spin + spin in
        if SPIN_END <? spin then
          match lock_wait fuel' free (S n) with
          | Some k => Spun (Z.of_nat (S n)) pauses k
          | None => SpinMore
          end
        else spinLoop fuel' free (S n) spin pauses
  end.
Definition spinLock (fuel : nat) (free : nat → bool) : spun :=
  spinLoop fuel free 0 SPIN_START 0.

Lemma lock_wait_first fuel free n k :
  (n <= k)%nat → (k < n + fuel)%nat → free k = true → (∀ i, (i < k)%nat → free i = false) →
  lock_wait fuel free n = Some k.
Proof.
  revert n. induction fuel as [|fuel IH]; intros n Hn Hf Hk Hb; [lia|]. simpl.
  destruct (decide (n = k)) as [->|Hne]; [by rewrite Hk|]. rewrite Hb by lia. apply IH; auto; lia.
Qed.
Lemma lock_wait_never fuel free n : (∀ i, free i = false) → lock_wait fuel free n = None.
Proof. intros Hb. revert n. induction fuel as [|fuel IH]; intros n; [done|]. simpl. by rewrite Hb. Qed.

(** After [i] failed attempts [spin] is 4 * 2^i and 4 * (2^i - 1) pauses were made. *)
Lemma spin_next i :
  4 * (2 ^ Z.of_nat i - 1) + 4 * 2 ^ Z.of_nat i = 4 * (2 ^ Z.of_nat (S i) - 1) ∧
  4 * 2 ^ Z.of_nat i + 4 * 2 ^ Z.of_nat i = 4 * 2 ^ Z.of_nat (S i).
Proof. rewrite Nat2Z.inj_succ, Z.pow_succ_r; lia. Qed.
Lemma spin_ends i : (i <= 10)%nat → (SPIN_END <? 4 * 2 ^ Z.of_nat (S i)) = bool_decide (i = 10%nat).
Proof. intros Hi. do 11 (destruct i as [|i]; [done|]). lia. Qed.

Lemma spinLoop_first fuel free i k :
  (i <= 10)%nat → (i <= k)%nat → (k < i + fuel)%nat → free k = true → (∀ j, (j < k)%nat → free j = false) →
  spinLoop fuel free i (4 * 2 ^ Z.of_nat i) (4 * (2 ^ Z.of_nat i - 1)) =
    Spun (Z.of_nat (Nat.min (S k) 11)) (4 * (2 ^ Z.of_nat (Nat.min k 11) - 1)) k.
Proof.
  revert i. induction fuel as [|fuel IH]; intros i Hi Hk Hf Hfree Hb; [lia|]. cbn [spinLoop].
  destruct (decide (i = k)) as [->|Hne].
  { rewrite Hfree. by rewrite !Nat.min_l by lia. }
  rewrite Hb by lia. destruct (spin_next i) as [-> ->]. rewrite spin_ends by done. case_bool_decide as E.
  - subst i. rewrite (lock_wait_first _ _ _ k) by (auto; lia). by rewrite !Nat.min_r by lia.
  - apply IH; auto; lia.
Qed.
Lemma spinLoop_never fuel free i :
  (i <= 10)%nat → (∀ j, free j = false) →
  spinLoop fuel free i (4 * 2 ^ Z.of_nat i) (4 * (2 ^ Z.of_nat i - 1)) = SpinMore.
Proof.
  revert i. induction fuel as [|fuel IH]; intros i Hi Hb; [done|]. cbn [spinLoop]. rewrite Hb.
  destruct (spin_next i) as [-> ->]. rewrite spin_ends by done. case_bool_decide; [by rewrite lock_wait_never|].
  apply IH; [lia|done].
Qed.

(** C40. [__spinLock] returns when the mutex becomes available, and holds it: if
    the first instant at which the mutex is available is the [k]-th, it takes it
    then, after min(k+1, 11) attempts at try_lock and 4 * (2^min(k,11) - 1)
    pauses, so at most 11 attempts and 8188 pauses, having called the blocking
    [lock] exactly if all 11 attempts failed ([k > 10]).  If the mutex is never
    available it does not return. *)
Theorem spinLock_takes free :
  (∀ k fuel, free k = true → (∀ j, (j < k)%nat → free j = false) → (k < fuel)%nat →
     spinLock fuel free = Spun (Z.of_nat (Nat.min (S k) 11)) (4 * (2 ^ Z.of_nat (Nat.min k 11) - 1)) k) ∧
  ((∀ k, free k = false) → ∀ fuel, spinLock fuel free = SpinMore).
Proof.
  split.
  - intros k fuel Hk Hb Hf. apply (spinLoop_first fuel free 0 k); auto; lia.
  - intros Hb fuel. by apply (spinLoop_never fuel free 0); [lia|].
Qed.
Lemma spinLock_takes_witness :
  spinLock 15 (λ n, (13 <=? n)%nat) = Spun 11 8188 13 ∧ spinLock 15 (λ n, (2 <=? n)%nat) = Spun 3 12 2.
Proof.
  split.
  - destruct (spinLock_takes (λ n, (13 <=? n)%nat)) as [H _].
    apply (H 13%nat 15%nat); [reflexivity| |lia]. intros j Hj. by apply Nat.leb_gt.
  - destruct (spinLock_takes (λ n, (2 <=? n)%nat)) as [H _].
    apply (H 2%nat 15%nat); [reflexivity| |lia]. intros j Hj. by apply Nat.leb_gt.
Defined.
Close Scope Z_scope.

(** ** The shared queue *)

(** Where a kThread of the cluster is. *)
Inductive kph1 : Type :=
  | P1Main                   (* in its main uThread, before blockingSwitch *)
  | P1Run                    (* runs a uThread *)
  | P1Wait                   (* in cv.wait *)
  | P1Woken.                 (* cv.wait is returning, it wants the mutex *)

Record kt1 := mkKt1 {
  cv_flag : bool;
  lrq : list addr;
  kph : kph1;
  delivered : list addr      (* what its switches have returned, in order *)
}.

Record sched1 := mkS1 {
  queue : list addr;
  size : Z;                  (* unsigned int *)
  ktStack : list nat;
  lastPopNum : Z;
  bulkQueue : list addr;     (* ClusterVar *)
  bulkCounter : Z;
  kts : nat → kt1;
  corrupt : bool;            (* push_back of a kThread that is on the stack, or
                                remove of one that is not *)
  pushed : list addr;        (* all uThreads pushed, in order *)
  taken : list (nat * addr)  (* all uThreads removed, in order, and by whom *)
}.

Definition set_q (q : list addr) (n : Z) (s : sched1) : sched1 :=
  mkS1 q n (ktStack s) (lastPopNum s) (bulkQueue s) (bulkCounter s) (kts s) (corrupt s) (pushed s) (taken s).
Definition set_stack (l : list nat) (s : sched1) : sched1 :=
  mkS1 (queue s) (size s) l (lastPopNum s) (bulkQueue s) (bulkCounter s) (kts s) (corrupt s) (pushed s) (taken s).
Definition set_last (n : Z) (s : sched1) : sched1 :=
  mkS1 (queue s) (size s) (ktStack s) n (bulkQueue s) (bulkCounter s) (kts s) (corrupt s) (pushed s) (taken s).
Definition set_bulk (l : list addr) (n : Z) (s : sched1) : sched1 :=
  mkS1 (queue s) (size s) (ktStack s) (lastPopNum s) l n (kts s) (corrupt s) (pushed s) (taken s).
Definition set_kt (k : nat) (x : kt1) (s : sched1) : sched1 :=
  mkS1 (queue s) (size s) (ktStack s) (lastPopNum s) (bulkQueue s) (bulkCounter s) (<[k := x]> (kts s))
       (corrupt s) (pushed s) (taken s).
Definition set_corrupt (b : bool) (s : sched1) : sched1 :=
  mkS1 (queue s) (size s) (ktStack s) (lastPopNum s) (bulkQueue s) (bulkCounter s) (kts s)
       (corrupt s || b) (pushed s) (taken s).
Definition log_pushed (l : list addr) (s : sched1) : sched1 :=
  mkS1 (queue s) (size s) (ktStack s) (lastPopNum s) (bulkQueue s) (bulkCounter s) (kts s)
       (corrupt s) (pushed s ++ l) (taken s).
Definition log_taken (k : nat) (l : list addr) (s : sched1) : sched1 :=
  mkS1 (queue s) (size s) (ktStack s) (lastPopNum s) (bulkQueue s) (bulkCounter s) (kts s)
       (corrupt s) (pushed s) (taken s ++ map (pair k) l).

Definition set_flag (b : bool) (x : kt1) : kt1 := mkKt1 b (lrq x) (kph x) (delivered x).
Definition set_ph (p : kph1) (x : kt1) : kt1 := mkKt1 (cv_flag x) (lrq x) p (delivered x).
Definition set_lrq (l : list addr) (x : kt1) : kt1 := mkKt1 (cv_flag x) l (kph x) (delivered x).
Definition deliver (a : addr) (x : kt1) : kt1 := mkKt1 (cv_flag x) (lrq x) P1Run (delivered x ++ [a]).

(** [ktStack.push_back(currentKT)], [ktStack.remove(currentKT)] *)
Definition stack_push (k : nat) (s : sched1) : sched1 :=
  set_stack (ktStack s ++ [k]) (set_corrupt (bool_decide (k ∈ ktStack s)) s).
Definition stack_remove (k : nat) (s : sched1) : sched1 :=
  set_stack (filter (λ j, j ≠ k) (ktStack s)) (set_corrupt (negb (bool_decide (k ∈ ktStack s))) s).

(** [c0] is what [ClusterVar::bulkCounter], which has no initialiser, holds at first. *)
Section sched1.
Context (numkt c0 : Z).

(** [ssize_t __removeMany(nqueue)], of kThread [k] *)
Definition removeMany (k : nat) (s : sched1) : sched1 :=
  let n := popnum (size s) numkt (lastPopNum s) in
  let l := take (Z.to_nat n) (queue s) in
  log_taken k l
    (set_kt k (set_lrq (lrq (kts s k) ++ l) (kts s k))
      (set_last n (set_q (drop (Z.to_nat n) (queue s)) (wrap 32 (size s - n)) s))).

(** [void __unBlock()]: a notification reaches a kThread that waits. *)
Definition unBlock (s : sched1) : sched1 :=
  match last (ktStack s) with
  | None => s
  | Some k =>
      let x := set_flag true (kts s k) in
      set_kt k (match kph x with P1Wait => set_ph P1Woken x | _ => x end)
        (set_stack (removelast (ktStack s)) s)
  end.

(** [__push(ut)]; [__push(utList, count)] *)
Definition push_one (ut : addr) (s : sched1) : sched1 :=
  unBlock (log_pushed [ut] (set_q (queue s ++ [ut]) (wrap 32 (size s + 1)) s)).
Definition push_many (l : list addr) (count : Z) (s : sched1) : sched1 :=
  unBlock (log_pushed l (set_q (queue s ++ l) (wrap 32 (size s + count)) s)).

(** [prepareBulkPush(ut)]; [bulkPush(cluster)] *)
Definition prepareBulkPush (ut : addr) (s : sched1) : sched1 :=
  set_bulk (bulkQueue s ++ [ut]) (wrap 64 (bulkCounter s + 1)) s.
Definition bulkPush (s : sched1) : sched1 :=
  if (0 <? bulkCounter s)%Z then
    set_bulk [] 0 (push_many (bulkQueue s) (bulkCounter s) s)
  else s.

(** The front of [lrq] is what a switch returns. *)
Definition pop_local (k : nat) (s : sched1) : option sched1 :=
  match lrq (kts s k) with
  | [] => None
  | a :: r => Some (set_kt k (deliver a (set_lrq r (kts s k))) s)
  end.

(** [ssize_t __tryPopMany(nqueue)] of kThread [k]; [lk]: try_lock succeeded. *)
Definition tryPopMany (k : nat) (lk : bool) (s : sched1) : Z * sched1 :=
  if negb lk then ((-1)%Z, s)
  else if (size s =? 0)%Z then (0%Z, s)
  else (popnum (size s) numkt (lastPopNum s), removeMany k s).

(** [nonBlockingSwitch(kt)]; [yld]: the running uThread yields. *)
Definition nonBlockingSwitch (k : nat) (lk yld : bool) (s : sched1) : option sched1 :=
  match pop_local k s with
  | Some s' => Some s'
  | None =>
      let '(res, s') := tryPopMany k lk s in
      if (0 <? res)%Z then pop_local k s'
      else if (res =? 0)%Z && yld then Some s'                 (* nullptr *)
      else Some (set_kt k (set_ph P1Main (kts s' k)) s')        (* mainUT *)
  end.

(** [__popMany(nqueue)] once the queue is not empty: the rest of it, and of
    [blockingSwitch]. *)
Definition popMany_rest (k : nat) (s : sched1) : option sched1 :=
  let s := removeMany k s in
  pop_local k (if (size s =? 0)%Z then s else unBlock s).

(** [blockingSwitch(kt)], from its start to [cv.wait] or to its return. *)
Definition blockingSwitch (k : nat) (s : sched1) : option sched1 :=
  if (size s =? 0)%Z then
    let s := stack_push k s in
    Some (set_kt k (set_ph P1Wait (set_flag false (kts s k))) s)
  else popMany_rest k s.

(** [cv.wait(mlock)] returned: the loop, and what follows it. *)
Definition wake (k : nat) (s : sched1) : option sched1 :=
  if (size s =? 0)%Z then
    let s := if cv_flag (kts s k) then stack_push k s else s in
    Some (set_kt k (set_ph P1Wait (kts s k)) s)
  else
    popMany_rest k (if cv_flag (kts s k) then s else stack_remove k s).

Inductive label1 : Type :=
  | S1Push (ut : addr)
  | S1Prepare (ut : addr)
  | S1Bulk
  | S1NonBlocking (k : nat) (lk yld : bool)
  | S1Blocking (k : nat)
  | S1Wake (k : nat)
  | S1Spurious (k : nat).    (* cv.wait returns without a notification *)

Definition s1step (l : label1) (s : sched1) : option sched1 :=
  match l with
  | S1Push ut => Some (push_one ut s)
  | S1Prepare ut => Some (prepareBulkPush ut s)
  | S1Bulk => Some (bulkPush s)
  | S1NonBlocking k lk yld =>
      match kph (kts s k) with P1Run => nonBlockingSwitch k lk yld s | _ => None end
  | S1Blocking k => match kph (kts s k) with P1Main => blockingSwitch k s | _ => None end
  | S1Wake k => match kph (kts s k) with P1Woken => wake k s | _ => None end
  | S1Spurious k =>
      match kph (kts s k) with
      | P1Wait => Some (set_kt k (set_ph P1Woken (kts s k)) s)
      | _ => None
      end
  end.

(** kThread 0 runs main(), the others start in their main uThread; [c] is what
    the cluster's bulkCounter holds at first. *)
Definition s1_init (c : Z) : sched1 :=
  mkS1 [] 0 [] 0 [] c
    (λ k, mkKt1 false [] (if decide (k = 0) then P1Run else P1Main) []) false [] [].

(** Less than 2^32 uThreads, and no bulk push with a counter that started with
    something else than 0. *)
Definition room (l : label1) (s : sched1) : bool :=
  match l with
  | S1Push _ | S1Prepare _ =>
      bool_decide (Z.of_nat (length (queue s) + length (bulkQueue s)) + 1 < 2 ^ 32)%Z
  | S1Bulk => bool_decide (c0 = 0%Z)
  | _ => true
  end.
(** No spurious wake-up of a kThread that was notified before in the same wait. *)
Definition calm (l : label1) (s : sched1) : bool :=
  match l with S1Spurious k => negb (cv_flag (kts s k)) | _ => true end.
Definition s1step_ok (l : label1) (s : sched1) : option sched1 :=
  if room l s && calm l s then s1step l s else None.

(** The conditions on a run: how many uThreads it pushes, that it makes no bulk
    push unless the counter starts with 0, and that it is calm at every step. *)
Definition cost (l : label1) : nat := match l with S1Push _ | S1Prepare _ => 1 | _ => 0 end.
Definition pushes (tr : list label1) : nat := sum_list_with cost tr.
Definition counted (tr : list label1) : Prop :=
  (Z.of_nat (pushes tr) < 2 ^ 32)%Z ∧ (c0 = 0%Z ∨ S1Bulk ∉ tr).
Fixpoint calm_run (tr : list label1) (s : sched1) : bool :=
  match tr with
  | [] => true
  | l :: tr' => calm l s && match s1step l s with Some s' => calm_run tr' s' | None => true end
  end.

(** ** The invariant *)

(** What kThread [k] has taken. *)
Definition own (k : nat) (t : list (nat * addr)) : list addr := (filter (λ p, p.1 = k) t).*2.

Lemma own_app j k t l :
  own j (t ++ map (pair k) l) = own j t ++ (if decide (j = k) then l else []).
Proof using.
  unfold own. rewrite filter_app, fmap_app. f_equal.
  induction l as [|a l IH]; [by case_decide|].
  change (map (pair k) (a :: l)) with ((k, a) :: map (pair k) l).
  rewrite filter_cons. destruct (decide ((k, a).1 = j)) as [He|Hne].
  - rewrite fmap_cons, IH. simpl in He. by rewrite !decide_True by done.
  - rewrite IH. simpl in Hne. by rewrite !decide_False by congruence.
Qed.

(** The queue and its bookkeeping. *)
Record core (s : sched1) : Prop := {
  c_size : size s = Z.of_nat (length (queue s));
  c_bound : (Z.of_nat (length (queue s) + length (bulkQueue s)) < 2 ^ 32)%Z;
  c_bulk : c0 = 0%Z → bulkCounter s = Z.of_nat (length (bulkQueue s));
  c_last : (0 ≤ lastPopNum s < 2 ^ 32)%Z;
  c_fifo : (taken s).*2 ++ queue s = pushed s;
  c_own : ∀ k, own k (taken s) = delivered (kts s k) ++ lrq (kts s k)
}.

(** The kThreads that are on the stack. *)
Definition sleeping (x : kt1) : bool :=
  match kph x with P1Wait => true | P1Woken => negb (cv_flag x) | _ => false end.

(** The stack holds the sleeping kThreads of [D], and none besides. *)
Record stk_on (D : nat → Prop) (s : sched1) : Prop := {
  k_nodup : NoDup (ktStack s);
  k_in : ∀ k, D k → k ∈ ktStack s ↔ sleeping (kts s k) = true;
  k_out : ∀ k, k ∈ ktStack s → D k;
  k_ok : corrupt s = false
}.
Definition all (k : nat) : Prop := True.
Definition but (k j : nat) : Prop := j ≠ k.

Definition idle_empty (s : sched1) : Prop :=
  ∀ k, kph (kts s k) ≠ P1Run → lrq (kts s k) = [].
Definition wakes (s : sched1) : Prop :=
  size s ≠ 0%Z → ktStack s ≠ [] → ∃ k, kph (kts s k) = P1Woken.

Record inv1 (s : sched1) : Prop := {
  i_core : core s; i_stk : stk_on all s; i_idle : idle_empty s; i_wakes : wakes s
}.

Hypothesis numkt_pos : (0 < numkt)%Z.

Ltac at_kt k j :=
  destruct (decide (j = k)) as [->|?];
  [rewrite ?fn_lookup_insert|rewrite ?fn_lookup_insert_ne by done]; simpl.

(** [__removeMany] *)
Lemma removeMany_size s :
  core s → size s ≠ 0%Z →
  let n := popnum (size s) numkt (lastPopNum s) in
  (1 ≤ n ≤ Z.of_nat (length (queue s)))%Z ∧ wrap 32 (size s - n) = (size s - n)%Z.
Proof.
  intros HC Hs n. pose proof (c_size _ HC). pose proof (c_bound _ HC). pose proof (c_last _ HC).
  destruct (popnum_bounds (size s) numkt (lastPopNum s)) as (? & _ & _ & ?); [lia..|].
  unfold n. split; [lia|done].
Qed.

Lemma removeMany_core k s : core s → size s ≠ 0%Z → core (removeMany k s).
Proof.
  intros HC Hs. destruct (removeMany_size s HC Hs) as [Hn Hw]. destruct HC as [H1 H2 H3 H4 H6 H7].
  unfold removeMany. split; simpl; try done.
  - rewrite Hw, length_drop. cbv zeta in Hn. lia.
  - rewrite length_drop. lia.
  - lia.
  - rewrite fmap_app, map_map. simpl. rewrite map_id, <-app_assoc, take_drop. done.
  - intros j. rewrite own_app, H7. at_kt k j.
    + by rewrite app_assoc.
    + by rewrite app_nil_r.
Qed.

Lemma removeMany_kts k j s :
  kph (kts (removeMany k s) j) = kph (kts s j) ∧ cv_flag (kts (removeMany k s) j) = cv_flag (kts s j)
  ∧ (j ≠ k → lrq (kts (removeMany k s) j) = lrq (kts s j)).
Proof. simpl. by at_kt k j. Qed.

Lemma removeMany_lrq k s : core s → size s ≠ 0%Z → lrq (kts (removeMany k s) k) ≠ [].
Proof.
  intros HC Hs. destruct (removeMany_size s HC Hs) as [Hn _]. simpl. rewrite fn_lookup_insert. simpl.
  destruct (queue s) as [|a q] eqn:E; [simpl in Hn; lia|].
  destruct (Z.to_nat _) as [|n'] eqn:En; [lia|]. simpl. by destruct (lrq (kts s k)).
Qed.

(** [__unBlock] *)
Lemma unBlock_core s : core s → core (unBlock s).
Proof.
  intros [H1 H2 H3 H4 H6 H7]. unfold unBlock. destruct (last (ktStack s)) as [k|]; [|done].
  split; simpl; try done. intros j. rewrite H7. at_kt k j; [|done]. by destruct (kph (kts s k)).
Qed.
Lemma unBlock_kts s j :
  lrq (kts (unBlock s) j) = lrq (kts s j)
  ∧ (j ∉ ktStack s → kts (unBlock s) j = kts s j)
  ∧ (kph (kts (unBlock s) j) = P1Run ↔ kph (kts s j) = P1Run).
Proof.
  unfold unBlock. destruct (last (ktStack s)) as [k|] eqn:El; [|done]. simpl.
  at_kt k j; [|done].
  split_and!; [by destruct (kph (kts s k))|intros []; by apply last_Some_elem_of|].
  destruct (kph (kts s k)) eqn:E; simpl; rewrite ?E; done.
Qed.

Lemma removelast_last {A} (l : list A) x : last l = Some x → l = removelast l ++ [x].
Proof.
  intros Hl. destruct l as [|y l' _] using rev_ind; [done|].
  rewrite last_snoc in Hl. injection Hl as ->. by rewrite removelast_last.
Qed.

Lemma unBlock_stk D s :
  stk_on D s →
  stk_on D (unBlock s)
  ∧ (ktStack s ≠ [] → ∃ j, j ∈ ktStack s ∧ kph (kts (unBlock s) j) = P1Woken).
Proof.
  intros [H1 H2 H3 H5]. unfold unBlock. destruct (last (ktStack s)) as [k|] eqn:El.
  2: { split; [done|]. intros Hne. by apply last_None in El. }
  pose proof (removelast_last _ _ El) as Hst. rewrite Hst in H1.
  apply NoDup_app in H1 as (Hnd & Hk & _).
  assert (Hin : k ∈ ktStack s) by (by apply last_Some_elem_of).
  assert (Hsl : sleeping (kts s k) = true) by (apply H2; auto).
  assert (Hoff : sleeping (match kph (kts s k) with
                           | P1Wait => set_ph P1Woken (set_flag true (kts s k))
                           | _ => set_flag true (kts s k) end) = false
                 ∧ kph (match kph (kts s k) with
                           | P1Wait => set_ph P1Woken (set_flag true (kts s k))
                           | _ => set_flag true (kts s k) end) = P1Woken).
  { unfold sleeping in *. destruct (kph (kts s k)) eqn:E; try done; simpl; rewrite ?E; done. }
  destruct Hoff as [Hoff Hwk]. split; [split|].
  - done.
  - intros j HD. simpl. at_kt k j.
    + rewrite Hoff. split; [|done]. intros Hj. exfalso. eapply Hk; [done|].
      by apply list_elem_of_singleton.
    + rewrite <-(H2 j HD). rewrite Hst at 2. rewrite elem_of_app, list_elem_of_singleton. naive_solver.
  - intros j Hj. apply H3. rewrite Hst. apply elem_of_app. by left.
  - done.
  - intros _. exists k. split; [done|]. simpl. by rewrite fn_lookup_insert.
Qed.

(** A push, before it wakes a kThread. *)
Lemma s1_push_inv l n s :
  inv1 s → n = Z.of_nat (length l) →
  (Z.of_nat (length (queue s) + length l + length (bulkQueue s)) < 2 ^ 32)%Z →
  inv1 (unBlock (log_pushed l (set_q (queue s ++ l) (wrap 32 (size s + n)) s))).
Proof.
  intros [HC HK HI HW] Hn Hb. set (s0 := log_pushed l _).
  assert (HC0 : core s0).
  { destruct HC as [H1 H2 H3 H4 H6 H7]. unfold s0. split; simpl; try done.
    - rewrite length_app. unfold wrap. rewrite Z.mod_small; lia.
    - rewrite length_app. lia.
    - rewrite <-H6, app_assoc. done. }
  assert (HK0 : stk_on all s0) by (by destruct HK).
  destruct (unBlock_stk all s0 HK0) as [HK1 Hnot]. split.
  - by apply unBlock_core.
  - done.
  - intros k Hk. destruct (unBlock_kts s0 k) as (-> & _ & Hr). apply HI. by rewrite Hr in Hk.
  - intros _ Hst. destruct (decide (ktStack s0 = [])) as [E|Hne].
    + unfold unBlock in Hst. by rewrite E in Hst.
    + destruct (Hnot Hne) as (j & _ & ?). by exists j.
Qed.

(** The end of a switch: [k], which is off the stack, leaves with the first
    uThread of its queue. *)
Lemma s1_leave_inv k s :
  core s → stk_on (but k) s → lrq (kts s k) ≠ [] →
  (∀ j, j ≠ k → kph (kts s j) ≠ P1Run → lrq (kts s j) = []) →
  (size s ≠ 0%Z → ktStack s ≠ [] → ∃ j, j ≠ k ∧ kph (kts s j) = P1Woken) →
  ∃ s', pop_local k s = Some s' ∧ inv1 s'.
Proof.
  intros [H1 H2 H3 H4 H6 H7] [K1 K2 K3 K4] Hne HI HW. unfold pop_local.
  destruct (lrq (kts s k)) as [|a r] eqn:E; [done|]. eexists. split; [done|].
  split; [split|split| |]; simpl; try done.
  - intros j. rewrite H7. at_kt k j; [|done]. by rewrite E, <-app_assoc.
  - intros j _. at_kt k j; [|by apply K2]. split; [|done]. intros Hj. by destruct (K3 k Hj).
  - intros j. simpl. at_kt k j; [done|by apply HI].
  - intros Ha Hb. destruct (HW Ha Hb) as (j & Hj & Hn). exists j. simpl. by rewrite fn_lookup_insert_ne.
Qed.

(** The end of [__popMany] never fails, and preserves the invariant. *)
Lemma popMany_rest_inv k s :
  core s → stk_on (but k) s → size s ≠ 0%Z →
  (∀ j, j ≠ k → kph (kts s j) ≠ P1Run → lrq (kts s j) = []) →
  ∃ s', popMany_rest k s = Some s' ∧ inv1 s'.
Proof.
  intros HC HK Hsz HI. unfold popMany_rest.
  pose proof (removeMany_core k s HC Hsz) as HC1. pose proof (removeMany_lrq k s HC Hsz) as Hne.
  assert (Hkts : ∀ j, kph (kts (removeMany k s) j) = kph (kts s j)
                      ∧ cv_flag (kts (removeMany k s) j) = cv_flag (kts s j)
                      ∧ (j ≠ k → lrq (kts (removeMany k s) j) = lrq (kts s j)))
    by (intros j; apply removeMany_kts).
  assert (HK1 : stk_on (but k) (removeMany k s)).
  { destruct HK as [H1 H2 H3 H5]. split; [done| |done|done]. intros j HD. rewrite (H2 j HD).
    unfold sleeping. destruct (Hkts j) as (-> & -> & _). done. }
  assert (HI1 : ∀ j, j ≠ k → kph (kts (removeMany k s) j) ≠ P1Run → lrq (kts (removeMany k s) j) = []).
  { intros j Hj. destruct (Hkts j) as (-> & _ & Hl). rewrite Hl by done. by apply HI. }
  generalize dependent (removeMany k s). intros s1 HC1 Hne _ HK1 HI1.
  destruct (Z.eqb_spec (size s1) 0) as [Hz|Hz]; [by apply s1_leave_inv|].
  destruct (unBlock_stk _ s1 HK1) as [HK2 Hnot]. apply s1_leave_inv.
  - by apply unBlock_core.
  - done.
  - by destruct (unBlock_kts s1 k) as (-> & _ & _).
  - intros j Hj Hr. destruct (unBlock_kts s1 j) as (-> & _ & Hiff). apply HI1; [done|]. by rewrite <-Hiff.
  - intros _ Hst.
    assert (Hst1 : ktStack s1 ≠ []).
    { intros E. unfold unBlock in Hst. by rewrite E in Hst. }
    destruct (Hnot Hst1) as (j & Hj & Hjn). exists j. split; [|done]. by apply (k_out _ _ HK1).
Qed.

(** A kThread goes to sleep, or back to sleep. *)
Lemma sleep_inv k s f :
  core s → stk_on all s → idle_empty s → size s = 0%Z →
  sleeping (kts s k) = false → kph (kts s k) ≠ P1Run →
  inv1 (set_kt k (set_ph P1Wait (set_flag f (kts s k))) (stack_push k s)).
Proof.
  intros [H1 H2 H3 H4 H6 H7] [K1 K2 K3 K4] HI Hsz Hk Hkr.
  assert (Hnin : k ∉ ktStack s) by (rewrite K2, Hk; done).
  split; [split|split| |]; simpl; try done.
  - intros j. rewrite H7. by at_kt k j.
  - apply NoDup_app. split_and!; [done| |apply NoDup_singleton].
    intros j Hj ->%list_elem_of_singleton. done.
  - intros j HD. rewrite elem_of_app, (K2 j HD), list_elem_of_singleton. at_kt k j; [naive_solver|].
    split; [by intros [|]|by left].
  - rewrite K4. simpl. by apply bool_decide_eq_false.
  - intros j. simpl. at_kt k j; [|apply HI]. intros _. by apply HI.
  - intros Hne. simpl in Hne. done.
Qed.

(** A change of phase that leaves the stack and the private queues alone. *)
Lemma phase_inv k p s :
  inv1 s → kph (kts s k) ≠ P1Run ∨ lrq (kts s k) = [] →
  sleeping (set_ph p (kts s k)) = sleeping (kts s k) →
  (p = P1Woken ∨ kph (kts s k) ≠ P1Woken ∨ size s = 0%Z) →
  inv1 (set_kt k (set_ph p (kts s k)) s).
Proof.
  intros [[H1 H2 H3 H4 H6 H7] [K1 K2 K3 K4] HI HW] Hl Hsl Hw. split; [split|split| |]; simpl; try done.
  - intros j. rewrite H7. by at_kt k j.
  - intros j HD. rewrite (K2 j HD). at_kt k j; [by rewrite Hsl|done].
  - intros j. simpl. at_kt k j; [|apply HI]. intros _. destruct Hl as [Hl|]; [by apply HI|done].
  - intros Ha Hb. destruct (HW Ha Hb) as (j & Hj). destruct (decide (j = k)) as [->|Hne].
    + destruct Hw as [->|[|]]; [|done..]. exists k. simpl. by rewrite fn_lookup_insert.
    + exists j. simpl. by rewrite fn_lookup_insert_ne.
Qed.

Lemma stk_but k s : stk_on all s → sleeping (kts s k) = false → stk_on (but k) s.
Proof.
  intros [K1 K2 K3 K4] Hk. split; [done| | |done].
  - intros j _. by apply K2.
  - intros j Hj ->. apply K2 in Hj; [congruence|done].
Qed.

Lemma stack_remove_inv k s :
  inv1 s → sleeping (kts s k) = true →
  core (stack_remove k s) ∧ stk_on (but k) (stack_remove k s).
Proof.
  intros [[H1 H2 H3 H4 H6 H7] [K1 K2 K3 K4] _ _] Hk. split; split; simpl; try done.
  - by apply NoDup_filter.
  - intros j HD. rewrite list_elem_of_filter, (K2 j I). unfold but in HD. tauto.
  - intros j [? _]%list_elem_of_filter. done.
  - rewrite K4, bool_decide_eq_true_2; [done|]. by apply K2.
Qed.

Lemma s1_nonBlockingSwitch_inv k lk yld s :
  inv1 s → kph (kts s k) = P1Run → ∃ s', nonBlockingSwitch k lk yld s = Some s' ∧ inv1 s'.
Proof.
  intros HI E. pose proof HI as [HC HK HE HW].
  assert (Hsl : sleeping (kts s k) = false) by (unfold sleeping; by rewrite E).
  pose proof (stk_but _ _ HK Hsl) as HK'.
  assert (HW' : size s ≠ 0%Z → ktStack s ≠ [] → ∃ j, j ≠ k ∧ kph (kts s j) = P1Woken).
  { intros Ha Hb. destruct (HW Ha Hb) as [j Hj]. exists j. split; [|done]. intros ->. congruence. }
  assert (HE' : ∀ j, j ≠ k → kph (kts s j) ≠ P1Run → lrq (kts s j) = []) by (intros; by apply HE).
  unfold nonBlockingSwitch. destruct (lrq (kts s k)) as [|a r] eqn:El.
  2: { destruct (s1_leave_inv k s) as (s' & Hs & HI'); [done|done|congruence|done|done|].
       rewrite Hs. eauto. }
  assert (Hnone : pop_local k s = None) by (unfold pop_local; by rewrite El). rewrite Hnone.
  assert (Hmain : inv1 (set_kt k (set_ph P1Main (kts s k)) s)).
  { apply phase_inv; [done|by right|by rewrite Hsl|right; left; congruence]. }
  unfold tryPopMany. destruct lk; simpl; [|eauto].
  destruct (Z.eqb_spec (size s) 0) as [Hz|Hz]; [destruct yld; simpl; eauto|].
  destruct (removeMany_size s HC Hz) as [Hpos _]. cbv zeta in Hpos. rewrite (proj2 (Z.ltb_lt 0 _)) by lia.
  apply s1_leave_inv.
  - by apply removeMany_core.
  - destruct HK' as [K1 K2 K3 K4]. split; [done| |done|done]. intros j HD. rewrite (K2 j HD).
    unfold sleeping. by destruct (removeMany_kts k j s) as (-> & -> & _).
  - by apply removeMany_lrq.
  - intros j Hj. destruct (removeMany_kts k j s) as (-> & _ & Hl). rewrite Hl by done. by apply HE.
  - intros _ Hst. destruct (HW' Hz Hst) as (j & Hj & Hn). exists j. split; [done|].
    by destruct (removeMany_kts k j s) as (-> & _ & _).
Qed.

Lemma blockingSwitch_inv k s :
  inv1 s → kph (kts s k) = P1Main → ∃ s', blockingSwitch k s = Some s' ∧ inv1 s'.
Proof.
  intros HI E. pose proof HI as [HC HK HE HW].
  assert (Hsl : sleeping (kts s k) = false) by (unfold sleeping; by rewrite E).
  unfold blockingSwitch. destruct (Z.eqb_spec (size s) 0) as [Hz|Hz].
  - eexists. split; [done|]. apply (sleep_inv k s false); try done. congruence.
  - apply popMany_rest_inv; [done|by apply stk_but|done|]. intros j _. apply HE.
Qed.

Lemma wake_inv k s :
  inv1 s → kph (kts s k) = P1Woken → ∃ s', wake k s = Some s' ∧ inv1 s'.
Proof.
  intros HI E. pose proof HI as [HC HK HE HW]. unfold wake.
  destruct (cv_flag (kts s k)) eqn:Ef.
  - assert (Hsl : sleeping (kts s k) = false) by (unfold sleeping; by rewrite E, Ef).
    destruct (Z.eqb_spec (size s) 0) as [Hz|Hz].
    + eexists. split; [done|].
      assert (Hkt : kts s k = set_flag true (kts s k)).
      { destruct (kts s k). simpl in *. by subst. }
      simpl. rewrite Hkt. apply (sleep_inv k s true); try done. congruence.
    + apply popMany_rest_inv; [done|by apply stk_but|done|]. intros j _. apply HE.
  - assert (Hsl : sleeping (kts s k) = true) by (unfold sleeping; by rewrite E, Ef).
    destruct (Z.eqb_spec (size s) 0) as [Hz|Hz].
    + eexists. split; [done|]. apply phase_inv; [done|left; congruence|by rewrite Hsl|by right; right].
    + destruct (stack_remove_inv k s HI Hsl) as [HC' HK']. apply popMany_rest_inv; try done.
      intros j _. apply HE.
Qed.

(** Every step that is enabled can be taken, and preserves the invariant. *)
Lemma s1step_inv l s s' : inv1 s → s1step_ok l s = Some s' → inv1 s'.
Proof.
  intros HI Hs. pose proof HI as [HC HK HE HW]. unfold s1step_ok in Hs.
  destruct (room l s) eqn:Hr; [|done]. destruct (calm l s) eqn:Hu; [|done].
  destruct l as [ut|ut| |k lk yld|k|k|k]; simpl in Hs, Hu, Hr.
  - injection Hs as <-. apply bool_decide_eq_true in Hr. apply s1_push_inv; [done|done|simpl; lia].
  - injection Hs as <-. apply bool_decide_eq_true in Hr. destruct HC as [H1 H2 H3 H4 H6 H7].
    split; [split|by destruct HK|done|done]; simpl; try done.
    + rewrite length_app. simpl. lia.
    + intros E0. rewrite H3, length_app by done. simpl. unfold wrap. rewrite Z.mod_small; lia.
  - injection Hs as <-. unfold bulkPush. destruct (Z.ltb_spec 0 (bulkCounter s)) as [Hb|Hb]; [|done].
    apply bool_decide_eq_true in Hr. pose proof (c_bulk _ HC Hr) as Hbc. pose proof (c_bound _ HC) as Hbd.
    assert (HI0 : inv1 (set_bulk [] 0 s)).
    { destruct HC as [H1 H2 H3 H4 H6 H7]. split; [split|by destruct HK|done|done]; simpl; try done. lia. }
    assert (Heq : set_bulk [] 0 (push_many (bulkQueue s) (bulkCounter s) s)
                  = push_many (bulkQueue s) (bulkCounter s) (set_bulk [] 0 s)).
    { unfold push_many, unBlock. simpl. by destruct (last (ktStack s)). }
    rewrite Heq. apply s1_push_inv; [done|done|]. simpl. lia.
  - destruct (kph (kts s k)) eqn:E; try done.
    destruct (s1_nonBlockingSwitch_inv k lk yld s HI E) as (s1 & Hs1 & ?). congruence.
  - destruct (kph (kts s k)) eqn:E; try done.
    destruct (blockingSwitch_inv k s HI E) as (s1 & Hs1 & ?). congruence.
  - destruct (kph (kts s k)) eqn:E; try done.
    destruct (wake_inv k s HI E) as (s1 & Hs1 & ?). congruence.
  - destruct (kph (kts s k)) eqn:E; try done. injection Hs as <-. apply negb_true_iff in Hu.
    apply phase_inv; [done|left; congruence| |by left].
    unfold sleeping. simpl. by rewrite E, Hu.
Qed.

Lemma s1_init_inv : inv1 (s1_init c0).
Proof.
  split; [split|split| |]; simpl; try done.
  - apply NoDup_nil_2.
  - intros k _. split; [by intros ?%not_elem_of_nil|]. unfold sleeping. simpl. by case_decide.
  - intros Hz. by simpl in Hz.
Qed.

Definition s1_reachable (s : sched1) : Prop := reachable s1step_ok (s1_init c0) s.
Lemma inv1_reachable s : s1_reachable s → inv1 s.
Proof.
  apply (invariant_reachable s1step_ok inv1); [apply s1_init_inv|]. intros l s1 s2. apply s1step_inv.
Qed.

(** ** The queue under every step, spurious wake-ups included *)

Definition load (s : sched1) : nat := length (queue s) + length (bulkQueue s).

Lemma core_kt k x s :
  core s → lrq x = lrq (kts s k) → delivered x = delivered (kts s k) → core (set_kt k x s).
Proof.
  intros [H1 H2 H3 H4 H6 H7] E1 E2. split; simpl; try done. intros j. rewrite H7. at_kt k j; [|done]. by rewrite E1, E2.
Qed.
Lemma core_stack l b s : core s → core (set_corrupt b (set_stack l s)).
Proof. by intros [H1 H2 H3 H4 H6 H7]. Qed.
Lemma core_pop_local k s s' : core s → pop_local k s = Some s' → core s' ∧ load s' = load s.
Proof.
  intros [H1 H2 H3 H4 H6 H7] Hs. unfold pop_local in Hs. destruct (lrq (kts s k)) as [|a r] eqn:E; simplify_eq.
  split; [|done]. split; simpl; try done. intros j. rewrite H7. at_kt k j; [|done]. by rewrite E, <- app_assoc.
Qed.
Lemma removeMany_load k s : load (removeMany k s) ≤ load s.
Proof. unfold load. simpl. rewrite length_drop. lia. Qed.
Lemma unBlock_load s : load (unBlock s) = load s.
Proof. unfold unBlock. by destruct (last (ktStack s)). Qed.
Lemma core_popMany_rest k s s' :
  core s → size s ≠ 0%Z → popMany_rest k s = Some s' → core s' ∧ load s' ≤ load s.
Proof.
  intros HC Hz Hs. unfold popMany_rest in Hs. pose proof (removeMany_core k s HC Hz) as HC1.
  pose proof (removeMany_load k s). apply core_pop_local in Hs as [? ->].
  - split; [done|]. destruct (size (removeMany k s) =? 0)%Z; rewrite ?unBlock_load; done.
  - destruct (size (removeMany k s) =? 0)%Z; [done|by apply unBlock_core].
Qed.
Lemma core_push l n s :
  core s → n = Z.of_nat (length l) →
  (Z.of_nat (length (queue s) + length l + length (bulkQueue s)) < 2 ^ 32)%Z →
  core (unBlock (log_pushed l (set_q (queue s ++ l) (wrap 32 (size s + n)) s))).
Proof.
  intros [H1 H2 H3 H4 H6 H7] Hn Hb. apply unBlock_core. split; simpl; try done.
  - rewrite length_app. unfold wrap. rewrite Z.mod_small; lia.
  - rewrite length_app. lia.
  - by rewrite <-H6, app_assoc.
Qed.

Lemma core_bulkPush s : core s → c0 = 0%Z → core (bulkPush s) ∧ load (bulkPush s) = load s.
Proof.
  intros HC Hr. pose proof (c_bulk _ HC Hr) as Hbc. pose proof (c_bound _ HC). unfold bulkPush.
  destruct (Z.ltb_spec 0 (bulkCounter s)) as [Hb|Hb]; [|done]. split.
  - assert (Heq : set_bulk [] 0 (push_many (bulkQueue s) (bulkCounter s) s)
                  = push_many (bulkQueue s) (bulkCounter s) (set_bulk [] 0 s))
      by (unfold push_many, unBlock; simpl; by destruct (last (ktStack s))).
    rewrite Heq. apply core_push; [|done|simpl; lia]. destruct HC. split; simpl; try done. lia.
  - unfold push_many, unBlock, load. simpl. destruct (last (ktStack s)); simpl; rewrite length_app; lia.
Qed.

Lemma core_step l s s' :
  core s → room l s = true → s1step l s = Some s' → core s' ∧ load s' ≤ load s + cost l.
Proof.
  intros HC Hr Hs. destruct l as [ut|ut| |k lk yld|k|k|k]; simpl in *.
  - injection Hs as <-. apply bool_decide_eq_true in Hr. split; [apply core_push; [done|done|simpl; lia]|].
    unfold push_one. rewrite unBlock_load. unfold load. simpl. rewrite length_app. simpl. lia.
  - injection Hs as <-. apply bool_decide_eq_true in Hr. destruct HC as [H1 H2 H3 H4 H6 H7]. split; [split|]; simpl; try done.
    + rewrite length_app. simpl. lia.
    + intros E0. rewrite H3, length_app by done. simpl. unfold wrap. rewrite Z.mod_small; lia.
    + unfold load. simpl. rewrite length_app. simpl. lia.
  - injection Hs as <-. apply bool_decide_eq_true in Hr. destruct (core_bulkPush s HC Hr) as [? ->]. split; [done|lia].
  - destruct (kph (kts s k)); try done. unfold nonBlockingSwitch in Hs.
    destruct (pop_local k s) as [s1|] eqn:Hp; [apply core_pop_local in Hp as [? ?]; [|done]; simplify_eq; split; [done|lia]|].
    unfold tryPopMany in Hs. destruct lk; simpl in Hs.
    + destruct (Z.eqb_spec (size s) 0) as [Hz|Hz].
      * simpl in Hs. destruct yld; simplify_eq; [split; [done|lia]|]. split; [by apply core_kt|unfold load; simpl; lia].
      * destruct (removeMany_size s HC Hz) as [Hpos _]. cbv zeta in Hpos. rewrite (proj2 (Z.ltb_lt 0 _)) in Hs by lia.
        pose proof (removeMany_load k s). apply core_pop_local in Hs as [? ->]; [split; [done|lia]|by apply removeMany_core].
    + injection Hs as <-. split; [by apply core_kt|unfold load; simpl; lia].
  - destruct (kph (kts s k)); try done. unfold blockingSwitch in Hs. destruct (Z.eqb_spec (size s) 0) as [Hz|Hz].
    + injection Hs as <-. split; [|unfold load; simpl; lia]. apply core_kt; [by apply core_stack|done..].
    + apply core_popMany_rest in Hs as [? ?]; [split; [done|lia]|done..].
  - destruct (kph (kts s k)); try done. unfold wake in Hs. destruct (Z.eqb_spec (size s) 0) as [Hz|Hz].
    + injection Hs as <-. destruct (cv_flag (kts s k)); (split; [|unfold load; simpl; lia]);
        (apply core_kt; [|done..]); [by apply core_stack|done].
    + destruct (cv_flag (kts s k)); apply core_popMany_rest in Hs as [? ?]; try done; try (by apply core_stack);
        (split; [done|]); unfold load in *; simpl in *; lia.
  - destruct (kph (kts s k)); try done. injection Hs as <-. split; [by apply core_kt|unfold load; simpl; lia].
Qed.

(** The conditions on a run give those of each step. *)
Lemma counted_room l tr s :
  counted (l :: tr) → core s → (Z.of_nat (load s + pushes (l :: tr)) < 2 ^ 32)%Z → room l s = true.
Proof.
  intros [_ Hb] HC Hl. unfold pushes, load in Hl. simpl in Hl. destruct l; simpl in *; try done; apply bool_decide_eq_true; try lia.
  destruct Hb as [?|Hb]; [done|]. destruct Hb. by left.
Qed.
Lemma counted_tail l tr : counted (l :: tr) → counted tr.
Proof.
  intros [H1 H2]. unfold pushes in H1. simpl in H1. split; [unfold pushes; lia|].
  destruct H2 as [?|H2]; [by left|right]. intros ?. apply H2. by right.
Qed.
Lemma core_run tr s s' :
  core s → counted tr → (Z.of_nat (load s + pushes tr) < 2 ^ 32)%Z → run s1step tr s = Some s' → core s'.
Proof.
  revert s. induction tr as [|l tr IH]; intros s HC Ht Hl Hs; simpl in Hs; [by simplify_eq|].
  apply bind_Some in Hs as (s1 & Hs1 & Hs). pose proof (counted_room _ _ _ Ht HC Hl) as Hr.
  destruct (core_step _ _ _ HC Hr Hs1) as [HC1 Hl1]. apply (IH s1); [done|by eapply counted_tail| |done].
  unfold pushes in *. simpl in Hl. lia.
Qed.
Lemma calm_run_ok tr s s' :
  core s → counted tr → (Z.of_nat (load s + pushes tr) < 2 ^ 32)%Z → calm_run tr s = true →
  run s1step tr s = Some s' → run s1step_ok tr s = Some s'.
Proof.
  revert s. induction tr as [|l tr IH]; intros s HC Ht Hl Hc Hs; simpl in *; [done|].
  apply bind_Some in Hs as (s1 & Hs1 & Hs). rewrite Hs1 in Hc. apply andb_true_iff in Hc as [Hc1 Hc].
  pose proof (counted_room _ _ _ Ht HC Hl) as Hr. destruct (core_step _ _ _ HC Hr Hs1) as [HC1 Hl1].
  assert (E : s1step_ok l s = Some s1) by (unfold s1step_ok; by rewrite Hr, Hc1). rewrite E. simpl.
  apply IH; [done|by eapply counted_tail| |done..]. unfold pushes in *. simpl in Hl. lia.
Qed.

(** ** Theorems *)

(** C26. Nothing is lost, duplicated or reordered, spurious wake-ups included:
    after any run that pushes less than 2^32 uThreads, and makes no bulk push
    unless the counter of bulk pushes started with 0, which the code leaves to
    chance, what the kThreads have taken and what is in the shared queue is, in
    order, what was pushed; what a kThread has taken is, in order, what its
    switches have returned and what is in its own queue; and [size] is the length
    of the shared queue. *)
Theorem s1_fifo tr s :
  run s1step tr (s1_init c0) = Some s → counted tr →
  (taken s).*2 ++ queue s = pushed s
  ∧ (∀ k, own k (taken s) = delivered (kts s k) ++ lrq (kts s k))
  ∧ size s = Z.of_nat (length (queue s)).
Proof.
  intros Hs Ht. assert (HC : core s); [|by destruct HC].
  eapply core_run; [apply s1_init_inv|exact Ht| |done]. apply Ht.
Qed.

(** C27. Wake-ups are lost only through a spurious wake-up of a kThread that has
    been notified before in the same wait: after any run without one (and within
    the bounds of the counters), while the shared queue holds a uThread and a
    kThread sleeps some kThread is about to come for the queue; and no kThread
    that sleeps, or is about to, holds uThreads in its own queue. *)
Theorem s1_no_lost_wakeup tr s k :
  run s1step tr (s1_init c0) = Some s → counted tr → calm_run tr (s1_init c0) = true →
  (kph (kts s k) = P1Wait → queue s ≠ [] → ∃ j, kph (kts s j) = P1Woken)
  ∧ (kph (kts s k) ≠ P1Run → lrq (kts s k) = []).
Proof.
  intros Hs Ht Hc. assert (HI : inv1 s).
  { apply inv1_reachable. exists tr. apply calm_run_ok; [apply s1_init_inv|exact Ht|apply Ht|done|done]. }
  destruct HI as [HC HK HE HW]. split; [|by apply HE]. intros Hk Hq. apply HW.
  - rewrite (c_size _ HC). destruct (queue s); [done|simpl; lia].
  - intros Hst. assert (Hin : k ∈ ktStack s).
    { apply (k_in _ _ HK k I). unfold sleeping. by rewrite Hk. }
    rewrite Hst in Hin. by apply not_elem_of_nil in Hin.
Qed.

(** The stack of sleeping kThreads is well-formed: no kThread is on it
    twice, none is removed that is not on it, and exactly the kThreads in
    cv.wait, and those that a spurious wake-up has hit, are on it. *)
Theorem s1_stack s :
  s1_reachable s →
  corrupt s = false ∧ NoDup (ktStack s)
  ∧ ∀ k, k ∈ ktStack s ↔ kph (kts s k) = P1Wait ∨ kph (kts s k) = P1Woken ∧ cv_flag (kts s k) = false.
Proof.
  intros [HC HK _ _]%inv1_reachable. split_and!; [apply (k_ok _ _ HK)|apply HK|]. intros k.
  rewrite (k_in _ _ HK k I). unfold sleeping. destruct (kph (kts s k)); try naive_solver.
  rewrite negb_true_iff. naive_solver.
Qed.

(** The switches never fail: a kThread that comes back from blockingSwitch,
    or from a wake-up that finds the queue not empty, returns a uThread, and
    nonBlockingSwitch always has an answer. *)
Theorem s1_switch_total s k :
  s1_reachable s →
  (kph (kts s k) = P1Run → ∀ lk yld, is_Some (s1step_ok (S1NonBlocking k lk yld) s))
  ∧ (kph (kts s k) = P1Main → is_Some (s1step_ok (S1Blocking k) s))
  ∧ (kph (kts s k) = P1Woken →
       ∃ s', s1step_ok (S1Wake k) s = Some s'
             ∧ (queue s ≠ [] → kph (kts s' k) = P1Run ∧ length (queue s') < length (queue s))).
Proof.
  intros HI%inv1_reachable. pose proof HI as [HC HK HE HW]. unfold s1step_ok; simpl. split_and!.
  - intros E lk yld. rewrite E. destruct (s1_nonBlockingSwitch_inv k lk yld s HI E) as (s' & -> & _). eauto.
  - intros E. rewrite E. destruct (blockingSwitch_inv k s HI E) as (s' & -> & _). eauto.
  - intros E. rewrite E. destruct (wake_inv k s HI E) as (s' & Hs & _). exists s'. split; [done|].
    intros Hq. unfold wake in Hs.
    assert (Hz : size s ≠ 0%Z). { rewrite (c_size _ HC). destruct (queue s); [done|simpl; lia]. }
    destruct (Z.eqb_spec (size s) 0) as [|_]; [done|].
    set (s0 := if cv_flag _ then s else _) in Hs.
    assert (Hs0 : queue s0 = queue s ∧ size s0 = size s ∧ lastPopNum s0 = lastPopNum s)
      by (unfold s0; by destruct (cv_flag _)).
    destruct Hs0 as (Hq0 & Hsz0 & Hl0). clearbody s0. unfold popMany_rest, pop_local in Hs.
    destruct (removeMany_size s HC Hz) as [Hn _].
    assert (Hlen : length (queue (removeMany k s0)) < length (queue s)).
    { unfold removeMany. simpl. rewrite Hsz0, Hl0, Hq0, length_drop. cbv zeta in Hn. lia. }
    assert (Hlen' : length (queue (unBlock (removeMany k s0))) < length (queue s)).
    { unfold unBlock. by destruct (last _). }
    destruct (size (removeMany k s0) =? 0)%Z; case_match; simplify_eq; simpl;
      rewrite fn_lookup_insert; done.
Qed.
End sched1.

(** ** Runs, of a cluster of two kThreads *)

Definition s1_demo : list label1 :=
  [S1Blocking 1; S1Prepare 10; S1Prepare 11; S1Prepare 12; S1Bulk; S1NonBlocking 0 true false].
Definition s1_at (n : nat) : sched1 :=
  default (s1_init 0) (run (s1step_ok 2 0) (take n s1_demo) (s1_init 0)).
Lemma s1_at_reachable n :
  match run (s1step_ok 2 0) (take n s1_demo) (s1_init 0) with Some _ => true | None => false end = true →
  s1_reachable 2 0 (s1_at n).
Proof. apply reachable_default. Qed.

Lemma s1_fifo_witness :
  pushed (s1_at 6) = [10; 11; 12]%Z ∧ queue (s1_at 6) = [11; 12]%Z
  ∧ (taken (s1_at 6)).*2 ++ queue (s1_at 6) = pushed (s1_at 6).
Proof.
  split_and!; [vm_compute; reflexivity..|].
  apply (s1_fifo 2 0 ltac:(lia) s1_demo); [vm_compute; reflexivity|]. split; [vm_compute; reflexivity|by left].
Defined.

(** kThread 1 sleeps again after a wake-up that came too late, and a uThread is
    pushed. *)
Definition s1_late : list label1 :=
  [S1Blocking 1; S1Push 10; S1NonBlocking 0 true false; S1Wake 1; S1Blocking 2; S1Push 11].
Lemma s1_no_lost_wakeup_witness :
  let s := default (s1_init 0) (run (s1step 3) s1_late (s1_init 0)) in
  kph (kts s 1) = P1Wait ∧ queue s = [11]%Z ∧ ∃ j, kph (kts s j) = P1Woken.
Proof.
  intros s. assert (Hk : kph (kts s 1) = P1Wait) by (vm_compute; reflexivity).
  assert (Hq : queue s = [11]%Z) by (vm_compute; reflexivity). split; [done|]. split; [done|].
  destruct (s1_no_lost_wakeup 3 0 ltac:(lia) s1_late s 1) as [H _]; [vm_compute; reflexivity| |vm_compute; reflexivity|].
  - split; [vm_compute; reflexivity|by left].
  - apply H; [exact Hk|]. rewrite Hq. done.
Defined.

Lemma s1_stack_witness : NoDup (ktStack (s1_at 4)) ∧ ktStack (s1_at 4) = [1].
Proof.
  split; [|vm_compute; reflexivity].
  apply (s1_stack 2 0 ltac:(lia)), s1_at_reachable. vm_compute. reflexivity.
Defined.

Lemma s1_switch_total_witness :
  kph (kts (s1_at 6) 1) = P1Woken
  ∧ ∃ s', s1step_ok 2 0 (S1Wake 1) (s1_at 6) = Some s' ∧ kph (kts s' 1) = P1Run.
Proof.
  assert (H : kph (kts (s1_at 6) 1) = P1Woken) by (vm_compute; reflexivity). split; [done|].
  destruct (s1_switch_total 2 0 ltac:(lia) (s1_at 6) 1) as (_ & _ & Hw).
  { apply s1_at_reachable. vm_compute. reflexivity. }
  destruct (Hw H) as (s' & Hs & Hq). exists s'. split; [done|]. apply Hq.
  assert (queue (s1_at 6) = [11; 12]%Z) as -> by (vm_compute; reflexivity). done.
Defined.

(** [cv_flag] is not reset when a kThread that was notified finds the queue
    empty again and goes back on the stack: a spurious wake-up then puts it on
    the stack a second time. *)
Theorem s1_spurious_corrupts :
  ∃ tr s, run (s1step 2) tr (s1_init 0) = Some s
    ∧ corrupt s = true ∧ ktStack s = [1; 1] ∧ kph (kts s 1) = P1Wait.
Proof.
  exists [S1Blocking 1; S1Push 10; S1NonBlocking 0 true false; S1Wake 1; S1Spurious 1; S1Wake 1].
  eexists. split; [vm_compute; reflexivity|]. vm_compute. split_and!; reflexivity.
Qed.

(** Such a spurious wake-up loses a wake-up: kThread 1 is on the stack twice; the
    pushes notify it twice, and kThread 2 sleeps on with a uThread in the queue. *)
Theorem s1_spurious_loses :
  ∃ tr s, run (s1step 3) tr (s1_init 0) = Some s
    ∧ kph (kts s 2) = P1Wait ∧ queue s ≠ [] ∧ ∀ j, j < 4 → kph (kts s j) ≠ P1Woken.
Proof.
  exists [S1Blocking 2; S1Blocking 1; S1Push 10; S1NonBlocking 0 true false; S1Wake 1; S1Spurious 1; S1Wake 1;
          S1Push 11; S1Wake 1; S1Push 12].
  eexists. split; [vm_compute; reflexivity|]. split_and!; [vm_compute; reflexivity|done|].
  intros j Hj. do 4 (destruct j as [|j]; [by vm_compute|]). lia.
Qed.

(** With a counter that starts with something else than 0 the first bulk push
    makes [size] wrong. *)
Theorem s1_counter_uninitialised numkt c :
  (0 ≤ c)%Z → (c + 1 < 2 ^ 32)%Z →
  ∃ s, run (s1step numkt) [S1Prepare 8; S1Bulk] (s1_init c) = Some s ∧
    size s = (c + 1)%Z ∧ length (queue s) = 1.
Proof.
  intros H0 H1. eexists. split; [reflexivity|]. unfold bulkPush, prepareBulkPush. simpl.
  assert (E : wrap 64 (c + 1) = (c + 1)%Z) by (unfold wrap; rewrite Z.mod_small; lia). rewrite E.
  destruct (Z.ltb_spec 0 (c + 1)); [|lia]. simpl. split; [|done]. unfold wrap. rewrite Z.mod_small; lia.
Qed.
