(* ===== verification/SharedScheduler.v ===== *)
(** * One scheduler per cluster

    [Scheduler::getScheduler] of [schedulers/Scheduler_01.h]: the constructors of
    kThreads call it, on any number of threads at once, and the kThreads of a
    cluster have to get the same [Scheduler].  The test without the lock, the
    lock of the cluster, the test under it, the allocation and the store are
    steps of their own.  The constructor of [Cluster] does not initialise the
    pointer: it is null in the static [defaultCluster] only, and has any value in
    a cluster that a program makes.  (The other schedulers make one [Scheduler]
    per kThread.) *)

From stdpp Require Import functions.
From S2P Require Import Prelude.

(** Where a call of [getScheduler] is. *)
Inductive dpoint : Type :=
  | DOut                    (* not called *)
  | DTest                   (* if(cluster.scheduler == nullptr) *)
  | DLock                   (* unique_lock ul(cluster.mtx) *)
  | DTest2                  (* if(cluster.scheduler == nullptr), locked *)
  | DNew                    (* new Scheduler() *)
  | DStore (p : addr)       (* cluster.scheduler = *)
  | DUnlock                 (* ~unique_lock *)
  | DLoad                   (* return cluster.scheduler *)
  | DRet (p : addr).

(** [Cluster::scheduler], [Cluster::mtx], the calls, and the objects made so far. *)
Record dcluster := mkDc {
  scheduler : addr;
  mtx : option nat;
  calls : nat → dpoint;
  made : list addr
}.
(** [p0] is what the memory of the cluster holds. *)
Definition dcluster_init (p0 : addr) : dcluster := mkDc p0 None (λ _, DOut) [].

Inductive dlabel : Type :=
  | DCall (t : nat)
  | DStep (t : nat)
  | DAlloc (t : nat) (p : addr).     (* the allocator's answer *)

Definition goto (t : nat) (p : dpoint) (s : dcluster) : dcluster :=
  mkDc (scheduler s) (mtx s) (<[t := p]> (calls s)) (made s).

(** [static Scheduler* getScheduler(Cluster& cluster)] *)
Definition getScheduler (t : nat) (s : dcluster) : option dcluster :=
  match calls s t with
  | DOut | DRet _ | DNew => None
  | DTest => Some (goto t (if (scheduler s =? nullptr)%Z then DLock else DLoad) s)
  | DLock =>
      match mtx s with
      | None => Some (mkDc (scheduler s) (Some t) (<[t := DTest2]> (calls s)) (made s))
      | Some _ => None
      end
  | DTest2 => Some (goto t (if (scheduler s =? nullptr)%Z then DNew else DUnlock) s)
  | DStore p => Some (mkDc p (mtx s) (<[t := DUnlock]> (calls s)) (made s))
  | DUnlock => Some (mkDc (scheduler s) None (<[t := DLoad]> (calls s)) (made s))
  | DLoad => Some (goto t (DRet (scheduler s)) s)
  end.

(** A constructor of kThread calls once. *)
Definition dstep (l : dlabel) (s : dcluster) : option dcluster :=
  match l with
  | DCall t => match calls s t with DOut => Some (goto t DTest s) | _ => None end
  | DStep t => getScheduler t s
  | DAlloc t p =>
      match calls s t with
      | DNew =>
          if decide (p ≠ nullptr ∧ p ∉ made s)
          then Some (mkDc (scheduler s) (mtx s) (<[t := DStore p]> (calls s)) (made s ++ [p])) else None
      | _ => None
      end
  end.

(** ** The invariant *)

Definition locked (p : dpoint) : bool :=
  match p with DTest2 | DNew | DStore _ | DUnlock => true | _ => false end.

(** What a point of the code knows of the pointer and of the objects made. *)
Definition knows (c : addr) (l : list addr) (p : dpoint) : Prop :=
  match p with
  | DNew => c = nullptr ∧ l = []
  | DStore q => c = nullptr ∧ l = [q] ∧ q ≠ nullptr
  | DTest2 => c = nullptr → l = []
  | DUnlock | DLoad => c ≠ nullptr
  | DRet q => c = q ∧ c ≠ nullptr
  | _ => True
  end.

Record dinv (s : dcluster) : Prop := {
  d_lock : ∀ t, locked (calls s t) = true ↔ mtx s = Some t;
  d_ptr : scheduler s ≠ nullptr → made s = [scheduler s];
  d_free : mtx s = None → scheduler s = nullptr → made s = [];
  d_know : ∀ t, knows (scheduler s) (made s) (calls s t)
}.

Lemma dinv_init : dinv (dcluster_init nullptr).
Proof. split; simpl; try done. Qed.

(** What a call knows while it does not hold the lock survives the others' steps. *)
Lemma knows_unlocked c l c' l' p :
  locked p = false → (c ≠ nullptr → c' = c) → knows c l p → knows c' l' p.
Proof.
  intros Hp Hc Hk. destruct p; simpl in *; try done.
  - by rewrite Hc.
  - destruct Hk as [-> Hne]. by rewrite Hc.
Qed.

(** A step that leaves the lock, the pointer and the objects. *)
Lemma dinv_goto t p s :
  dinv s → locked p = locked (calls s t) → knows (scheduler s) (made s) p → dinv (goto t p s).
Proof.
  intros [H1 H2 H3 H4] Hl Hk. split; simpl; try done.
  - intros u. rewrite <- H1. destruct (decide (u = t)) as [->|]; [by rewrite fn_lookup_insert, Hl|].
    by rewrite fn_lookup_insert_ne.
  - intros u. destruct (decide (u = t)) as [->|]; [by rewrite fn_lookup_insert|]. by rewrite fn_lookup_insert_ne.
Qed.

(** A step of the call that has the lock, or takes it, or gives it back. *)
Lemma dinv_own t p c o l s :
  dinv s → mtx s = None ∨ mtx s = Some t → o = (if locked p then Some t else None) →
  (scheduler s ≠ nullptr → c = scheduler s) → (c ≠ nullptr → l = [c]) →
  (o = None → c = nullptr → l = []) → knows c l p →
  dinv (mkDc c o (<[t := p]> (calls s)) l).
Proof.
  intros [H1 H2 H3 H4] Hm Ho Hc Hl Hf Hk.
  assert (Hun : ∀ u, u ≠ t → locked (calls s u) = false).
  { intros u Hu. apply not_true_iff_false. rewrite H1. destruct Hm; congruence. }
  split; simpl; try done.
  - intros u. rewrite Ho. destruct (decide (u = t)) as [->|Hne].
    + rewrite fn_lookup_insert. by destruct (locked p).
    + rewrite fn_lookup_insert_ne, (Hun u Hne) by done. destruct (locked p); naive_solver.
  - intros u. destruct (decide (u = t)) as [->|Hne]; [by rewrite fn_lookup_insert|].
    rewrite fn_lookup_insert_ne by done. eapply knows_unlocked; [by apply Hun|done|apply H4].
Qed.

Lemma dinv_step l s s' : dinv s → dstep l s = Some s' → dinv s'.
Proof.
  intros I Hs. pose proof I as [H1 H2 H3 H4]. destruct l as [t|t|t p]; simpl in Hs.
  - destruct (calls s t) eqn:E; simplify_eq. apply dinv_goto; rewrite ?E; done.
  - unfold getScheduler in Hs. pose proof (H4 t) as Hk. pose proof (proj1 (H1 t)) as Ht.
    destruct (calls s t) as [ | | | | |p| | | ] eqn:E; simplify_eq/=.
    + destruct (Z.eqb_spec (scheduler s) nullptr); apply dinv_goto; rewrite ?E; done.
    + destruct (mtx s) eqn:Em; simplify_eq. apply dinv_own; simpl; auto.
    + destruct (Z.eqb_spec (scheduler s) nullptr); apply dinv_goto; rewrite ?E; simpl; auto.
    + destruct Hk as (Hc & Hl & Hp). apply dinv_own; simpl; auto; congruence.
    + apply dinv_own; simpl; auto; congruence.
    + apply dinv_goto; rewrite ?E; done.
  - destruct (calls s t) eqn:E; try done. case_decide as Hp; simplify_eq. destruct Hp as [Hp _].
    pose proof (H4 t) as Hk. rewrite E in Hk. destruct Hk as [Hc Hl].
    assert (Ht : mtx s = Some t) by (apply H1; by rewrite E).
    apply dinv_own; simpl; rewrite ?Hl; auto; congruence.
Qed.

Lemma dinv_reachable s : reachable dstep (dcluster_init nullptr) s → dinv s.
Proof. revert s. apply invariant_reachable; [apply dinv_init|]. intros l s s'. apply dinv_step. Qed.

(** With a pointer that is not null nobody ever goes for the lock. *)
Definition fooled (p0 : addr) (s : dcluster) : Prop :=
  scheduler s = p0 ∧ made s = [] ∧
  ∀ t, match calls s t with DOut | DTest | DLoad => True | DRet p => p = p0 | _ => False end.
Lemma fooled_goto p0 t p s :
  fooled p0 s → match p with DOut | DTest | DLoad => True | DRet q => q = p0 | _ => False end →
  fooled p0 (goto t p s).
Proof.
  intros (H1 & H2 & H3) Hp. split_and!; [done..|]. intros u. simpl.
  destruct (decide (u = t)) as [->|]; [by rewrite fn_lookup_insert|].
  rewrite fn_lookup_insert_ne by done. apply H3.
Qed.
Lemma fooled_reachable p0 s : p0 ≠ nullptr → reachable dstep (dcluster_init p0) s → fooled p0 s.
Proof.
  intros Hp. revert s. apply invariant_reachable; [done|]. intros l s s' I Hs.
  pose proof I as (H1 & H2 & H3). destruct l as [t|t|t q]; simpl in Hs; [| |];
    specialize (H3 t); unfold getScheduler in *.
  - destruct (calls s t); try done. injection Hs as <-. by apply fooled_goto.
  - destruct (calls s t); try done; injection Hs as <-; apply fooled_goto; try done.
    rewrite H1. by destruct (Z.eqb_spec p0 nullptr).
  - by destruct (calls s t).
Qed.

(** ** Theorems *)

(** C28. Whatever the interleaving of the constructors, all kThreads of a cluster whose
    pointer starts as null get the same scheduler, which is not null; no second
    one is ever made, so none is lost; a call is held up only by the lock, and by
    a call that can go on.  In a cluster whose pointer starts with another value,
    as the constructor allows, no scheduler is made and every kThread gets that
    value. *)
Theorem one_scheduler p0 s :
  reachable dstep (dcluster_init p0) s →
  if decide (p0 = nullptr) then
    (∀ t p, calls s t = DRet p → p ≠ nullptr ∧ made s = [p] ∧ scheduler s = p) ∧
    length (made s) ≤ 1 ∧
    (∀ t, calls s t ≠ DOut → (∀ p, calls s t ≠ DRet p) →
       (∃ l, (l = DStep t ∨ ∃ p, l = DAlloc t p) ∧ is_Some (dstep l s)) ∨
       ∃ u, mtx s = Some u ∧ u ≠ t ∧ ∃ l, (l = DStep u ∨ ∃ p, l = DAlloc u p) ∧ is_Some (dstep l s))
  else made s = [] ∧ ∀ t p, calls s t = DRet p → p = p0.
Proof.
  intros Hr. case_decide as Hp.
  2: { destruct (fooled_reachable p0 s Hp Hr) as (_ & Hm & Hc). split; [done|].
       intros t p E. specialize (Hc t). by rewrite E in Hc. }
  subst p0. revert Hr. intros [H1 H2 H3 H4]%dinv_reachable.
  assert (Hgo : ∀ t, locked (calls s t) = true →
    ∃ l, (l = DStep t ∨ ∃ p, l = DAlloc t p) ∧ is_Some (dstep l s)).
  { intros t Ht. pose proof (H4 t) as Hk. destruct (calls s t) eqn:E; try done.
    - exists (DStep t). split; [by left|]. simpl. unfold getScheduler. rewrite E. eauto.
    - destruct Hk as [_ Hl]. exists (DAlloc t 8). split; [eauto|]. simpl. rewrite E, Hl.
      rewrite decide_True; [eauto|]. split; [done|apply not_elem_of_nil].
    - exists (DStep t). split; [by left|]. simpl. unfold getScheduler. rewrite E. eauto.
    - exists (DStep t). split; [by left|]. simpl. unfold getScheduler. rewrite E. eauto. }
  split_and!.
  - intros t p E. pose proof (H4 t) as Hk. rewrite E in Hk. destruct Hk as [<- Hne]. auto.
  - destruct (decide (scheduler s = nullptr)) as [E|E]; [|rewrite H2 by done; simpl; lia].
    destruct (mtx s) as [t|] eqn:Em; [|rewrite H3 by done; simpl; lia].
    pose proof (proj2 (H1 t) eq_refl) as Hl. pose proof (H4 t) as Hk. destruct (calls s t); simpl in *; try done.
    + rewrite Hk by done. simpl. lia.
    + destruct Hk as [_ ->]. simpl. lia.
    + destruct Hk as (_ & -> & _). simpl. lia.
  - intros t Hout Hret. destruct (locked (calls s t)) eqn:El; [left; by apply Hgo|].
    assert (Hstep : is_Some (getScheduler t s) → ∃ l, (l = DStep t ∨ ∃ p, l = DAlloc t p) ∧ is_Some (dstep l s)).
    { intros Hs. exists (DStep t). split; [by left|done]. }
    unfold getScheduler in Hstep. destruct (calls s t) as [ | | | | | | | |p] eqn:E; try done; try (left; apply Hstep; eauto; done).
    + destruct (mtx s) as [u|] eqn:Em; [|left; apply Hstep; eauto]. right. exists u.
      split_and!; [done| |by apply Hgo, H1]. intros ->. pose proof (proj2 (H1 t) eq_refl). congruence.
    + by destruct (Hret p).
Qed.

(** Two constructors find no scheduler; the second one waits for the lock and then
    finds the one that the first has made. *)
Definition one_scheduler_demo : list dlabel :=
  [DCall 0; DCall 1; DStep 0; DStep 1; DStep 0; DStep 0; DAlloc 0 64; DStep 0; DStep 0; DStep 1; DStep 1; DStep 0;
   DStep 1; DStep 1].
Lemma one_scheduler_witness :
  let s := default (dcluster_init nullptr) (run dstep one_scheduler_demo (dcluster_init nullptr)) in
  calls s 0 = DRet 64 ∧ calls s 1 = DRet 64 ∧ made s = [64]%Z ∧ scheduler s = 64%Z.
Proof.
  intros s. assert (E : calls s 0 = DRet 64) by (vm_compute; reflexivity).
  destruct (one_scheduler nullptr s) as [H _].
  - exists one_scheduler_demo. vm_compute. reflexivity.
  - destruct (H 0 64%Z E) as (_ & Hm & Hp). split_and!; [exact E|vm_compute; reflexivity|exact Hm|exact Hp].
Defined.
