(* ===== verification/Scheduler03.v ===== *)
(** * Scheduler 3: a run queue per kThread under a std::mutex

    [src/runtime/schedulers/Scheduler_03.h]: any thread pushes under the mutex
    and notifies the condition variable, the kThread that owns the scheduler
    pops.  A critical section, up to [cv.wait] or the unlock, is one step;
    the queue is a list, to which the intrusive queue is refined elsewhere. *)

From S2P Require Import Prelude.

(** Where the kThread is. *)
Inductive kph3 : Type :=
  | P3Main                   (* in its main uThread, before blockingSwitch *)
  | P3Run                    (* runs a uThread *)
  | P3Wait                   (* __Pop: in cv.wait *)
  | P3Woken.                 (* __Pop: cv.wait is returning *)

Record sched3 := mkS3 {
  runQueue : list addr;
  bulkQueue : list addr;     (* KTVar *)
  bulkCounter : Z;
  kph : kph3;
  pushed : list addr;        (* pushed so far, in order *)
  popped : list addr         (* returned by the switches so far, in order *)
}.

(** [cv.notify_one()] *)
Definition notify_one (p : kph3) : kph3 := match p with P3Wait => P3Woken | _ => p end.

(** [schedule(ut)]; [schedule(queue, count)], which does not use [count] *)
Definition schedule (ut : addr) (s : sched3) : sched3 :=
  mkS3 (runQueue s ++ [ut]) (bulkQueue s) (bulkCounter s) (notify_one (kph s)) (pushed s ++ [ut]) (popped s).
Definition schedule_many (l : list addr) (s : sched3) : sched3 :=
  mkS3 (runQueue s ++ l) (bulkQueue s) (bulkCounter s) (notify_one (kph s)) (pushed s ++ l) (popped s).

(** [prepareBulkPush(ut)] and the body of the loop of [bulkPush(cluster)]: the
    counter is reset outside of the conditional. *)
Definition prepareBulkPush (ut : addr) (s : sched3) : sched3 :=
  mkS3 (runQueue s) (bulkQueue s ++ [ut]) (wrap 64 (bulkCounter s + 1)) (kph s) (pushed s) (popped s).
Definition bulkPush_kt (s : sched3) : sched3 :=
  let s1 := if (0 <? bulkCounter s)%Z then
              let s' := schedule_many (bulkQueue s) s in
              mkS3 (runQueue s') [] (bulkCounter s') (kph s') (pushed s') (popped s')
            else s in
  mkS3 (runQueue s1) (bulkQueue s1) 0 (kph s1) (pushed s1) (popped s1).

Definition set_ph (p : kph3) (s : sched3) : sched3 :=
  mkS3 (runQueue s) (bulkQueue s) (bulkCounter s) p (pushed s) (popped s).

(** [front()] and [pop()] of a queue that is not empty *)
Definition pop_front (s : sched3) : option sched3 :=
  match runQueue s with
  | [] => None
  | a :: r => Some (mkS3 r (bulkQueue s) (bulkCounter s) P3Run (pushed s) (popped s ++ [a]))
  end.

(** [nonBlockingSwitch(kt)] with [__tryPop()]; [lk]: try_to_lock succeeded,
    [yld]: the running uThread yields. *)
Definition nonBlockingSwitch (lk yld : bool) (s : sched3) : sched3 :=
  match (if lk then pop_front s else None) with
  | Some s' => s'
  | None => if yld then s else set_ph P3Main s
  end.

(** [blockingSwitch(kt)] with [__Pop()]: from its start, or from the return of
    [cv.wait], to the next wait or to the return. *)
Definition Pop (s : sched3) : sched3 :=
  match pop_front s with
  | Some s' => s'
  | None => set_ph P3Wait s
  end.

Inductive label3 : Type :=
  | S3Push (ut : addr) | S3Prepare (ut : addr) | S3Bulk
  | S3NonBlocking (lk yld : bool) | S3Blocking | S3Wake
  | S3Spurious.              (* cv.wait returns without a notification *)

Definition s3step (l : label3) (s : sched3) : option sched3 :=
  match l, kph s with
  | S3Push ut, _ => Some (schedule ut s)
  | S3Prepare ut, _ => Some (prepareBulkPush ut s)
  | S3Bulk, _ => Some (bulkPush_kt s)
  | S3NonBlocking lk yld, P3Run => Some (nonBlockingSwitch lk yld s)
  | S3Blocking, P3Main => Some (Pop s)
  | S3Wake, P3Woken => Some (Pop s)
  | S3Spurious, P3Wait => Some (set_ph P3Woken s)
  | _, _ => None
  end.

Definition s3_init : sched3 := mkS3 [] [] 0 P3Main [] [].

(** ** Invariant *)

Record inv3 (s : sched3) : Prop := {
  i3_fifo : popped s ++ runQueue s = pushed s;
  i3_wait : kph s = P3Wait → runQueue s = []
}.

Lemma schedule_many_inv l s : inv3 s → inv3 (schedule_many l s).
Proof.
  intros [H1 H2]. split; simpl.
  - by rewrite app_assoc, H1.
  - by destruct (kph s).
Qed.
Lemma pop_front_inv s s' : inv3 s → pop_front s = Some s' → inv3 s' ∧ kph s' = P3Run.
Proof.
  intros [H1 H2] Hs. unfold pop_front in Hs. destruct (runQueue s) as [|a r]; simplify_eq.
  split; [split; simpl|done]; [by rewrite <-app_assoc|done].
Qed.
Lemma pop_front_None s : pop_front s = None → runQueue s = [].
Proof. unfold pop_front. by destruct (runQueue s). Qed.
Lemma set_ph_inv p s : inv3 s → (p = P3Wait → runQueue s = []) → inv3 (set_ph p s).
Proof. intros [H1 H2] Hp. by split. Qed.

Lemma s3step_inv l s s' : inv3 s → s3step l s = Some s' → inv3 s'.
Proof.
  intros HI Hs. destruct l as [ut|ut| |lk yld| | | ]; simpl in Hs.
  - injection Hs as <-. by apply (schedule_many_inv [ut]).
  - injection Hs as <-. by destruct HI.
  - injection Hs as <-. unfold bulkPush_kt. destruct (0 <? bulkCounter s)%Z.
    + by destruct (schedule_many_inv (bulkQueue s) s HI).
    + by destruct HI.
  - destruct (kph s) eqn:E; simplify_eq. unfold nonBlockingSwitch.
    destruct (if lk then pop_front s else None) as [s1|] eqn:Ep.
    + destruct lk; [|done]. by eapply pop_front_inv.
    + destruct yld; [done|]. by apply set_ph_inv.
  - destruct (kph s) eqn:E; simplify_eq. unfold Pop.
    destruct (pop_front s) eqn:Ep; [by eapply pop_front_inv|].
    apply set_ph_inv; [done|intros _; by apply pop_front_None].
  - destruct (kph s) eqn:E; simplify_eq. unfold Pop.
    destruct (pop_front s) eqn:Ep; [by eapply pop_front_inv|].
    apply set_ph_inv; [done|intros _; by apply pop_front_None].
  - destruct (kph s) eqn:E; simplify_eq. by apply set_ph_inv.
Qed.

Definition s3_reachable (s : sched3) : Prop := reachable s3step s3_init s.
Lemma inv3_reachable s : s3_reachable s → inv3 s.
Proof. apply (invariant_reachable s3step inv3); [done|]. intros l s1 s2. apply s3step_inv. Qed.

(** The run queue of Scheduler 3 is FIFO and loses nothing, and its kThread
    never sleeps while a uThread is queued, whatever the spurious wake-ups. *)
Theorem s3_fifo_no_sleep s :
  s3_reachable s →
  popped s ++ runQueue s = pushed s ∧ (kph s = P3Wait → runQueue s = []).
Proof. intros [H1 H2]%inv3_reachable. done. Qed.

Lemma s3_fifo_no_sleep_witness :
  ∃ s, run s3step [S3Blocking; S3Spurious; S3Wake; S3Prepare 5; S3Prepare 6; S3Bulk; S3Wake] s3_init = Some s
       ∧ popped s = [5]%Z ∧ runQueue s = [6]%Z ∧ popped s ++ runQueue s = pushed s.
Proof.
  eexists. split; [reflexivity|]. split; [reflexivity|]. split; [reflexivity|].
  apply s3_fifo_no_sleep.
  by exists [S3Blocking; S3Spurious; S3Wake; S3Prepare 5; S3Prepare 6; S3Bulk; S3Wake].
Defined.

(** A yield that does not get the lock goes on with the same uThread although
    another one is queued. *)
Theorem s3_yield_lock_busy :
  ∃ s, run s3step [S3Push 4; S3Blocking; S3Push 5; S3NonBlocking false true] s3_init = Some s
       ∧ popped s = [4]%Z ∧ runQueue s = [5]%Z ∧ kph s = P3Run.
Proof. eexists. split; [reflexivity|]. done. Qed.
