(* ===== verification/NodeQueue.v ===== *)
(** * NIBlockingMPSCQueue: the node queue of scheduler 4

    [src/runtime/schedulers/Scheduler_04.h]: a queue of nodes that hold
    pointers to uThreads; its first node is always a dummy, and [pop] returns
    the dummy with the next node's uThread in it.  Every access to [head],
    [tail] and the [next] fields is a step; any number of producers, one
    consumer.  [owned] are the nodes that are with the clients: a producer
    pushes a node it owns, and a popped node is owned again (the exchange of
    nodes between uThreads is the subject of [Scheduler04]). *)

From stdpp Require Import functions.
From S2P Require Import Prelude.

(** [insert(elem, elem)] *)
Inductive npc : Type :=
  | NIdle
  | NClear (n : addr)                          (* last.next = nullptr *)
  | NExch (n : addr)                           (* tail.exchange(&last) *)
  | NLink (prev n : addr) (was_empty : bool)   (* prev->next = &first *)
  | NDone (was_empty : bool).                  (* return was_empty *)

(** [pop()] *)
Inductive dpc : Type :=
  | DIdle
  | DNext                    (* next = head->next *)
  | DSet (x : addr)          (* head = next *)
  | DCopy (hh x : addr)      (* hhead->state = next->state *)
  | DTail                    (* ttail = tail *)
  | DSpin                    (* while(head->next == nullptr) *)
  | DCas                     (* tail.compare_exchange_strong(head, head | 1) *)
  | DRet (a : addr).         (* return *)

Record nq := mkNq {
  nhead : addr;
  ntail : Z;                 (* bit 0 marks the queue empty *)
  nnext : addr → addr;
  nstate : addr → addr;
  nprods : list npc;
  ncons : dpc;
  chain : list addr;         (* the nodes from head on, in the order of the exchanges *)
  owned : list addr;
  pushed : list addr;        (* uThreads, in the order of the exchanges *)
  popped : list addr         (* uThreads, in the order of pop *)
}.

Inductive nlabel : Type :=
  | NPush (t i : nat) (ut : addr)   (* node->setState(ut); push(node), the [i]-th node owned *)
  | NProd (t : nat)
  | NPop
  | NCons.

Definition set_prod (t : nat) (p : npc) (s : nq) : nq :=
  mkNq (nhead s) (ntail s) (nnext s) (nstate s) (<[t := p]> (nprods s)) (ncons s) (chain s) (owned s)
       (pushed s) (popped s).
Definition set_cons (c : dpc) (s : nq) : nq :=
  mkNq (nhead s) (ntail s) (nnext s) (nstate s) (nprods s) c (chain s) (owned s) (pushed s) (popped s).
Definition set_next (a x : addr) (s : nq) : nq :=
  mkNq (nhead s) (ntail s) (<[a := x]> (nnext s)) (nstate s) (nprods s) (ncons s) (chain s) (owned s)
       (pushed s) (popped s).

(** [bool insert(Node& first, Node& last)] *)
Definition insert_step (t : nat) (s : nq) : option nq :=
  match nprods s !! t with
  | Some (NClear n) => Some (set_prod t (NExch n) (set_next n nullptr s))
  | Some (NExch n) =>
      Some (mkNq (nhead s) n (nnext s) (nstate s)
                 (<[t := NLink (unmark (ntail s)) n (marked (ntail s))]> (nprods s)) (ncons s)
                 (chain s ++ [n]) (owned s) (pushed s ++ [nstate s n]) (popped s))
  | Some (NLink prev n w) => Some (set_prod t (NDone w) (set_next prev n s))
  | Some (NDone _) => Some (set_prod t NIdle s)
  | _ => None
  end.

(** [Node* pop()] *)
Definition pop_step (s : nq) : option nq :=
  match ncons s with
  | DIdle => None
  | DNext => Some (set_cons (if decide (nnext s (nhead s) = nullptr) then DTail
                             else DSet (nnext s (nhead s))) s)
  | DSet x =>
      Some (mkNq x (ntail s) (nnext s) (nstate s) (nprods s) (DCopy (nhead s) x) (tail (chain s))
                 (owned s) (pushed s) (popped s ++ [nstate s x]))
  | DCopy hh x =>
      Some (mkNq (nhead s) (ntail s) (nnext s) (<[hh := nstate s x]> (nstate s)) (nprods s) (DRet hh)
                 (chain s) (owned s) (pushed s) (popped s))
  | DTail =>
      Some (set_cons (if marked (ntail s) then DRet nullptr
                      else if decide (nhead s = ntail s) then DCas else DSpin) s)
  | DSpin => Some (if decide (nnext s (nhead s) = nullptr) then s else set_cons DNext s)
  | DCas =>
      Some (if decide (ntail s = nhead s)
            then mkNq (nhead s) (mark (nhead s)) (nnext s) (nstate s) (nprods s) (DRet nullptr) (chain s)
                      (owned s) (pushed s) (popped s)
            else set_cons DNext s)
  | DRet a =>
      Some (mkNq (nhead s) (ntail s) (nnext s) (nstate s) (nprods s) DIdle (chain s)
                 (if decide (a = nullptr) then owned s else a :: owned s) (pushed s) (popped s))
  end.

Definition nstep (l : nlabel) (s : nq) : option nq :=
  match l with
  | NPush t i ut =>
      match nprods s !! t, owned s !! i with
      | Some NIdle, Some n =>
          Some (mkNq (nhead s) (ntail s) (nnext s) (<[n := ut]> (nstate s)) (<[t := NClear n]> (nprods s))
                     (ncons s) (chain s) (delete i (owned s)) (pushed s) (popped s))
      | _, _ => None
      end
  | NProd t => insert_step t s
  | NPop => match ncons s with DIdle => Some (set_cons DNext s) | _ => None end
  | NCons => pop_step s
  end.

(** [NIBlockingMPSCQueue()] with [k] producers; the clients own [ns]. *)
Definition nq_init (stub : addr) (k : nat) (ns : list addr) : nq :=
  mkNq stub (mark stub) (λ _, nullptr) (λ _, nullptr) (replicate k NIdle) DIdle [stub] ns [] [].

(** ** Invariant *)

Definition pnode (p : npc) : option addr := match p with NClear n | NExch n => Some n | _ => None end.
Definition cnode (c : dpc) : list addr :=
  match c with DCopy hh _ => [hh] | DRet a => if decide (a = nullptr) then [] else [a] | _ => [] end.
(** Every node and where it is. *)
Definition nodes (s : nq) : list addr := owned s ++ chain s ++ omap pnode (nprods s) ++ cnode (ncons s).

Definition linked (s : nq) (a b : addr) : Prop :=
  nnext s a = b ∨ nnext s a = nullptr ∧ ∃ t w, nprods s !! t = Some (NLink a b w).

Record ninv (N : list addr) (s : nq) : Prop := {
  n_nodes : nodes s ≡ₚ N;
  n_head : ∃ r, chain s = nhead s :: r;
  n_tail : last (chain s) = Some (unmark (ntail s));
  n_mark : marked (ntail s) = true → chain s = [nhead s];
  n_links : ∀ i a b, chain s !! i = Some a → chain s !! S i = Some b → linked s a b;
  n_last : ∀ a, last (chain s) = Some a → nnext s a = nullptr;
  n_pend : ∀ t a b w, nprods s !! t = Some (NLink a b w) →
             (∃ i, chain s !! i = Some a ∧ chain s !! S i = Some b) ∧ nnext s a = nullptr;
  n_uniq : ∀ t t' a b b' w w', nprods s !! t = Some (NLink a b w) →
             nprods s !! t' = Some (NLink a b' w') → t = t';
  n_exch : ∀ t n, nprods s !! t = Some (NExch n) → nnext s n = nullptr;
  n_set : ∀ x, ncons s = DSet x → nnext s (nhead s) = x ∧ x ≠ nullptr;
  n_copy : ∀ hh x, ncons s = DCopy hh x → last (popped s) = Some (nstate s x) ∧ nhead s = x;
  n_ret : ∀ a, ncons s = DRet a → a ≠ nullptr → last (popped s) = Some (nstate s a);
  n_fifo : popped s ++ map (nstate s) (tail (chain s)) = pushed s
}.

Definition good_nodes (N : list addr) : Prop := NoDup N ∧ ∀ n, n ∈ N → aligned n ∧ n ≠ nullptr.

Section inv.
Context (N : list addr) (HN : good_nodes N).
Implicit Types s : nq.

(** What the distinctness of the nodes gives. *)
Lemma nodes_nodup s : ninv N s → NoDup (nodes s).
Proof. intros HI. rewrite (n_nodes _ _ HI). apply HN. Qed.
Lemma nodes_good s n : ninv N s → n ∈ nodes s → aligned n ∧ n ≠ nullptr.
Proof. intros HI Hn. apply HN. by rewrite <-(n_nodes _ _ HI). Qed.
Lemma chain_nodup s : ninv N s → NoDup (chain s).
Proof. intros HI. pose proof (nodes_nodup s HI) as H. unfold nodes in H.
  apply NoDup_app in H as (_ & _ & H). by apply NoDup_app in H as (? & _ & _). Qed.
Lemma chain_good s n : ninv N s → n ∈ chain s → aligned n ∧ n ≠ nullptr.
Proof. intros HI Hn. apply (nodes_good s n HI). unfold nodes. rewrite !elem_of_app. auto. Qed.
Lemma prod_not_chain s t p n :
  ninv N s → nprods s !! t = Some p → pnode p = Some n →
  n ∉ chain s ∧ n ∉ cnode (ncons s) ∧ aligned n ∧ n ≠ nullptr.
Proof.
  intros HI Hp Hn. assert (Hin : n ∈ omap pnode (nprods s)).
  { apply list_elem_of_omap. exists p. split; [by eapply list_elem_of_lookup_2|done]. }
  pose proof (nodes_nodup s HI) as H. unfold nodes in H.
  apply NoDup_app in H as (_ & _ & H). apply NoDup_app in H as (_ & H1 & H).
  apply NoDup_app in H as (_ & H2 & _).
  split; [intros Hc; apply (H1 n Hc); apply elem_of_app; by left|].
  split; [by apply H2|]. apply (nodes_good s n HI). unfold nodes. rewrite !elem_of_app. auto.
Qed.
Lemma owned_apart s n :
  ninv N s → n ∈ owned s → n ∉ chain s ∧ n ∉ cnode (ncons s) ∧ ∀ t p, nprods s !! t = Some p → pnode p ≠ Some n.
Proof.
  intros HI Hn. pose proof (nodes_nodup s HI) as H. unfold nodes in H.
  apply NoDup_app in H as (_ & H1 & _). specialize (H1 n Hn). rewrite !elem_of_app in H1.
  split_and!; [tauto|tauto|]. intros t p Hp Hpn. apply H1. right. left.
  apply list_elem_of_omap. exists p. split; [by eapply list_elem_of_lookup_2|done].
Qed.
(** A node with a successor in the chain is not the last one. *)
Lemma not_last s i a b : ninv N s → chain s !! i = Some a → chain s !! S i = Some b → last (chain s) ≠ Some a.
Proof.
  intros HI Ha Hb Hl. rewrite last_lookup in Hl. pose proof (chain_nodup s HI) as Hnd.
  pose proof (NoDup_lookup _ _ _ _ Hnd Ha Hl). apply lookup_lt_Some in Hb. lia.
Qed.
Lemma succ_unique s i j a b c : ninv N s → chain s !! i = Some a → chain s !! S i = Some b →
  chain s !! j = Some a → chain s !! S j = Some c → b = c.
Proof.
  intros HI Ha Hb Ha' Hc. pose proof (chain_nodup s HI) as Hnd.
  rewrite (NoDup_lookup _ _ _ _ Hnd Ha Ha') in Hb. congruence.
Qed.

(** A producer moves between two points outside of [NLink]. *)
Definition no_link (p : npc) : Prop := ∀ a b w, p ≠ NLink a b w.
Lemma keep_links s t p p' : nprods s !! t = Some p → no_link p → no_link p' →
  ∀ t' a b w, <[t := p']> (nprods s) !! t' = Some (NLink a b w) ↔ nprods s !! t' = Some (NLink a b w).
Proof.
  intros Hp Hn Hn' t' a b w. rewrite (lookup_insert_cases _ _ _ _ _ Hp). case_decide; [|done]. subst.
  split; [intros [= E]; by destruct (Hn' a b w)|]. rewrite Hp. intros [= E]. by destruct (Hn a b w).
Qed.

Lemma map_state_upd (f : addr → addr) n u l : n ∉ l → map (<[n := u]> f) l = map f l.
Proof.
  intros Hn. apply map_ext_in. intros x Hx. apply fn_lookup_insert_ne. intros ->.
  by apply Hn, list_elem_of_In.
Qed.
Lemma elem_of_tail {A} (x : A) l : x ∈ tail l → x ∈ l.
Proof. destruct l; simpl; [done|]. by right. Qed.

Lemma push_ninv s t i ut n :
  ninv N s → nprods s !! t = Some NIdle → owned s !! i = Some n →
  ninv N (mkNq (nhead s) (ntail s) (nnext s) (<[n := ut]> (nstate s)) (<[t := NClear n]> (nprods s))
               (ncons s) (chain s) (delete i (owned s)) (pushed s) (popped s)).
Proof.
  intros HI Ht Hi. assert (Hn : n ∈ owned s) by (by eapply list_elem_of_lookup_2).
  destruct (owned_apart s n HI Hn) as (Hc & Hd & _).
  pose proof (keep_links s t _ (NClear n) Ht ltac:(done) ltac:(done)) as Hk.
  pose proof (omap_insert pnode _ _ _ (NClear n) Ht) as Ho. simpl in Ho.
  destruct HI as [I1 [r I2] I3 I4 I5 I6 I7 I8 I9 I10 I11 I12 I13]. constructor; cbn; try done.
  - rewrite <-I1. unfold nodes. cbn. rewrite Ho. rewrite (delete_Permutation (owned s) i n Hi) at 2.
    solve_Permutation.
  - eauto.
  - intros j a b Ha Hb. destruct (I5 j a b Ha Hb) as [?|[? (t' & w & Hp)]]; [by left|].
    right. split; [done|]. exists t', w. by apply Hk.
  - intros t' a b w Hp%Hk. eauto.
  - intros t1 t2 a b b' w w' H1%Hk H2%Hk. eauto.
  - intros t' m. rewrite (lookup_insert_cases _ _ _ _ _ Ht). case_decide; [done|]. apply I9.
  - intros hh x Hcx. destruct (I11 hh x Hcx) as [Hl <-]. split; [|done].
    rewrite fn_lookup_insert_ne; [done|]. intros ->. apply Hc. rewrite I2. by left.
  - intros a Hca Ha. rewrite fn_lookup_insert_ne; [by apply I12|]. intros ->. apply Hd.
    rewrite Hca. simpl. rewrite decide_False by done. by left.
  - rewrite map_state_upd; [done|]. intros Hin. by apply Hc, elem_of_tail.
Qed.

Lemma clear_ninv s t n :
  ninv N s → nprods s !! t = Some (NClear n) → ninv N (set_prod t (NExch n) (set_next n nullptr s)).
Proof.
  intros HI Ht. destruct (prod_not_chain s t _ n HI Ht eq_refl) as (Hc & Hd & _).
  pose proof (keep_links s t _ (NExch n) Ht ltac:(done) ltac:(done)) as Hk.
  pose proof (omap_insert pnode _ _ _ (NExch n) Ht) as Ho. simpl in Ho. apply Permutation_cons_inv in Ho.
  destruct HI as [I1 [r I2] I3 I4 I5 I6 I7 I8 I9 I10 I11 I12 I13].
  assert (Hnx : ∀ a, a ∈ chain s → <[n := nullptr]> (nnext s) a = nnext s a).
  { intros a Ha. apply fn_lookup_insert_ne. congruence. }
  constructor; cbn; try done.
  - rewrite <-I1. unfold nodes. cbn. by rewrite Ho.
  - eauto.
  - intros j a b Ha Hb. unfold linked. cbn. rewrite Hnx by (by eapply list_elem_of_lookup_2).
    destruct (I5 j a b Ha Hb) as [?|[? (t' & w & Hp)]]; [by left|].
    right. split; [done|]. exists t', w. by apply Hk.
  - intros a Ha. rewrite Hnx by (by apply last_Some_elem_of). auto.
  - intros t' a b w Hp%Hk. destruct (I7 _ _ _ _ Hp) as [(j & Ha & Hb) Hz]. split; [eauto|].
    rewrite Hnx; [done|]. by eapply list_elem_of_lookup_2.
  - intros t1 t2 a b b' w w' H1%Hk H2%Hk. eauto.
  - intros t' m. rewrite (lookup_insert_cases _ _ _ _ _ Ht). case_decide as E.
    + intros [= <-]. apply fn_lookup_insert.
    + intros Hm. destruct (decide (m = n)) as [->|]; [apply fn_lookup_insert|].
      rewrite fn_lookup_insert_ne by done. by eapply I9.
  - intros x Hx. rewrite Hnx; [by apply I10|]. rewrite I2. by left.
Qed.

(** The successors in a chain that grows by one node. *)
Lemma app_succ (l : list addr) n i a b :
  (l ++ [n]) !! i = Some a → (l ++ [n]) !! S i = Some b →
  (l !! i = Some a ∧ l !! S i = Some b) ∨ (last l = Some a ∧ b = n).
Proof.
  intros Ha Hb. pose proof (lookup_lt_Some _ _ _ Hb) as Hlt. rewrite length_app in Hlt. simpl in Hlt.
  rewrite lookup_app_l in Ha by lia. destruct (decide (S i < length l)) as [Hl|Hl].
  - rewrite lookup_app_l in Hb by done. by left.
  - right. rewrite lookup_app_r in Hb by lia. replace (S i - length l) with 0 in Hb by lia.
    rewrite last_lookup. replace (pred (length l)) with i by lia. split; [done|]. simpl in Hb. congruence.
Qed.

Lemma exch_ninv s t n :
  ninv N s → nprods s !! t = Some (NExch n) →
  ninv N (mkNq (nhead s) n (nnext s) (nstate s)
               (<[t := NLink (unmark (ntail s)) n (marked (ntail s))]> (nprods s)) (ncons s)
               (chain s ++ [n]) (owned s) (pushed s ++ [nstate s n]) (popped s)).
Proof.
  intros HI Ht. destruct (prod_not_chain s t _ n HI Ht eq_refl) as (Hc & Hd & Hal & Hn0).
  pose proof (λ i a b, not_last s i a b HI) as Hnl.
  pose proof (omap_insert pnode _ _ _ (NLink (unmark (ntail s)) n (marked (ntail s))) Ht) as Ho. simpl in Ho.
  destruct HI as [I1 [r I2] I3 I4 I5 I6 I7 I8 I9 I10 I11 I12 I13].
  pose proof (λ t', lookup_insert_cases _ _ _ (NLink (unmark (ntail s)) n (marked (ntail s))) t' Ht) as Hlk.
  constructor; cbn; try done.
  - rewrite <-I1. unfold nodes. cbn. rewrite <-Ho. solve_Permutation.
  - exists (r ++ [n]). by rewrite I2.
  - rewrite last_snoc, unmark_aligned; done.
  - by rewrite marked_aligned.
  - intros i a b Ha Hb. unfold linked. cbn. destruct (app_succ _ _ _ _ _ Ha Hb) as [[Ha' Hb']|[Hl ->]].
    + destruct (I5 i a b Ha' Hb') as [?|[? (t' & w & Hp)]]; [by left|]. right. split; [done|].
      exists t', w. rewrite Hlk. case_decide; [congruence|done].
    + right. split; [by apply I6|]. exists t, (marked (ntail s)). rewrite Hlk, decide_True by done. congruence.
  - intros a. rewrite last_snoc. intros [= <-]. by eapply I9.
  - intros t' a b w. rewrite Hlk. case_decide as E.
    + intros [= <- <- <-]. split; [|by apply I6]. exists (pred (length (chain s))).
      split; [apply lookup_app_l_Some; by rewrite <-last_lookup|].
      assert (Hlen : S (pred (length (chain s))) = length (chain s)) by (rewrite I2; simpl; lia).
      by rewrite Hlen, lookup_app_r, Nat.sub_diag by lia.
    + intros Hp. destruct (I7 _ _ _ _ Hp) as [(i & Ha & Hb) Hz]. split; [|done]. exists i.
      split; by apply lookup_app_l_Some.
  - assert (Hno : ∀ t' b w, nprods s !! t' ≠ Some (NLink (unmark (ntail s)) b w)).
    { intros t' b w Hp. destruct (I7 _ _ _ _ Hp) as [(i & Ha & Hb) _]. by apply (Hnl i _ _ Ha Hb). }
    intros t1 t2 a b b' w w'. rewrite !Hlk. case_decide; case_decide; subst; try done.
    + intros [= <- <- <-] Hp. by destruct (Hno t2 b' w').
    + intros Hp [= <- <- <-]. by destruct (Hno t1 b w).
    + apply I8.
  - intros t' m. rewrite Hlk. case_decide; [done|]. apply I9.
  - rewrite I2 in I13 |- *. cbn in I13 |- *. by rewrite map_app, app_assoc, I13.
Qed.

Lemma link_ninv s t a n w :
  ninv N s → nprods s !! t = Some (NLink a n w) → ninv N (set_prod t (NDone w) (set_next a n s)).
Proof.
  intros HI Ht. destruct (n_pend _ _ HI _ _ _ _ Ht) as [(i & Ha & Hb) Hz].
  pose proof (not_last s i a n HI Ha Hb) as Hnl. pose proof (λ j c, succ_unique s i j a n c HI Ha Hb) as Hsu.
  assert (Hex : ∀ t' m, nprods s !! t' = Some (NExch m) → m ≠ a).
  { intros t' m Hm ->. destruct (prod_not_chain s t' _ a HI Hm eq_refl) as [Hc _].
    by eapply Hc, list_elem_of_lookup_2. }
  pose proof (omap_insert pnode _ _ _ (NDone w) Ht) as Ho. simpl in Ho.
  destruct HI as [I1 [r I2] I3 I4 I5 I6 I7 I8 I9 I10 I11 I12 I13].
  pose proof (λ t', lookup_insert_cases _ _ _ (NDone w) t' Ht) as Hlk.
  constructor; cbn; try done.
  - rewrite <-I1. unfold nodes. cbn. by rewrite Ho.
  - eauto.
  - intros j c d Hc Hd. unfold linked. cbn. destruct (decide (c = a)) as [->|Hne].
    + left. rewrite fn_lookup_insert. by eapply Hsu.
    + rewrite fn_lookup_insert_ne by done. destruct (I5 j c d Hc Hd) as [?|[? (t' & w' & Hp)]]; [by left|].
      right. split; [done|]. exists t', w'. rewrite Hlk. case_decide; [congruence|done].
  - intros c Hc. rewrite fn_lookup_insert_ne by congruence. auto.
  - intros t' c d w'. rewrite Hlk. case_decide; [done|]. intros Hp.
    destruct (I7 _ _ _ _ Hp) as [? Hz']. split; [done|]. rewrite fn_lookup_insert_ne; [done|].
    intros <-. by apply H, (I8 t' t a d n w' w).
  - intros t1 t2 c d d' w1 w2. rewrite !Hlk. case_decide; [done|]. case_decide; [done|]. apply I8.
  - intros t' m. rewrite Hlk. case_decide; [done|]. intros Hm.
    rewrite fn_lookup_insert_ne; [by eapply I9|]. intros E. by destruct (Hex t' m Hm).
  - intros x Hx. destruct (I10 x Hx) as [Hh Hx0]. rewrite fn_lookup_insert_ne; [done|]. congruence.
Qed.

Lemma done_ninv s t w : ninv N s → nprods s !! t = Some (NDone w) → ninv N (set_prod t NIdle s).
Proof.
  intros HI Ht. pose proof (keep_links s t _ NIdle Ht ltac:(done) ltac:(done)) as Hk.
  pose proof (omap_insert pnode _ _ _ NIdle Ht) as Ho. simpl in Ho.
  destruct HI as [I1 [r I2] I3 I4 I5 I6 I7 I8 I9 I10 I11 I12 I13]. constructor; cbn; try done.
  - rewrite <-I1. unfold nodes. cbn. by rewrite Ho.
  - eauto.
  - intros j a b Ha Hb. destruct (I5 j a b Ha Hb) as [?|[? (t' & w' & Hp)]]; [by left|].
    right. split; [done|]. exists t', w'. by apply Hk.
  - intros t' a b w' Hp%Hk. eauto.
  - intros t1 t2 a b b' w1 w2 H1%Hk H2%Hk. eauto.
  - intros t' m. rewrite (lookup_insert_cases _ _ _ _ _ Ht). case_decide; [done|]. apply I9.
Qed.

(** The consumer moves between points at which it holds no node. *)
Lemma cons_ninv s c :
  ninv N s → cnode (ncons s) = [] → cnode c = [] →
  (∀ x, c = DSet x → nnext s (nhead s) = x ∧ x ≠ nullptr) → ninv N (set_cons c s).
Proof.
  intros HI Hn Hc Hx. destruct HI as [I1 I2 I3 I4 I5 I6 I7 I8 I9 I10 I11 I12 I13]. constructor; cbn; try done.
  - rewrite <-I1. unfold nodes. cbn. by rewrite Hn, Hc.
  - intros hh x ->. done.
  - intros a -> Ha. simpl in Hc. by rewrite decide_False in Hc.
Qed.

Lemma set_ninv s x :
  ninv N s → ncons s = DSet x →
  ninv N (mkNq x (ntail s) (nnext s) (nstate s) (nprods s) (DCopy (nhead s) x) (tail (chain s))
               (owned s) (pushed s) (popped s ++ [nstate s x])).
Proof.
  intros HI Hc. destruct HI as [I1 [r I2] I3 I4 I5 I6 I7 I8 I9 I10 I11 I12 I13].
  destruct (I10 x Hc) as [Hh Hx0]. destruct r as [|y r].
  { rewrite I2 in I6. rewrite (I6 (nhead s) eq_refl) in Hh. congruence. }
  assert (Hy : y = x).
  { assert (Hl : linked s (nhead s) y) by (apply (I5 0); by rewrite I2).
    destruct Hl as [?|[? _]]; congruence. }
  subst y. rewrite I2 in *. cbn [tail] in *. constructor; cbn; try done.
  - rewrite <-I1. unfold nodes. rewrite I2, Hc. cbn. solve_Permutation.
  - eauto.
  - intros Hm. specialize (I4 Hm). done.
  - intros i a b Ha Hb. by apply (I5 (S i)).
  - intros t a b w Hp. destruct (I7 _ _ _ _ Hp) as [([|i] & Ha & Hb) Hz]; [|eauto].
    simpl in Ha. congruence.
  - intros hh x' [= <- <-]. split; [by rewrite last_snoc|done].
  - by rewrite <-app_assoc.
Qed.

Lemma copy_ninv s hh x :
  ninv N s → ncons s = DCopy hh x →
  ninv N (mkNq (nhead s) (ntail s) (nnext s) (<[hh := nstate s x]> (nstate s)) (nprods s) (DRet hh)
               (chain s) (owned s) (pushed s) (popped s)).
Proof.
  intros HI Hc. assert (Hn : hh ∈ nodes s) by (unfold nodes; rewrite Hc; rewrite !elem_of_app; do 3 right; by left).
  destruct (nodes_good s hh HI Hn) as [_ Hh0].
  assert (Hch : hh ∉ chain s).
  { pose proof (nodes_nodup s HI) as H. unfold nodes in H. rewrite Hc in H.
    apply NoDup_app in H as (_ & _ & H). apply NoDup_app in H as (_ & H & _).
    intros Hin. apply (H hh Hin), elem_of_app. right. by left. }
  destruct HI as [I1 I2 I3 I4 I5 I6 I7 I8 I9 I10 I11 I12 I13]. constructor; cbn; try done.
  - rewrite <-I1. unfold nodes. cbn. rewrite Hc, decide_False by done. done.
  - intros a [= <-] _. rewrite fn_lookup_insert. by destruct (I11 hh x Hc).
  - rewrite map_state_upd; [done|]. intros Hin. by apply Hch, elem_of_tail.
Qed.

Lemma cas_ninv s :
  ninv N s → ncons s = DCas → ntail s = nhead s →
  chain s = [nhead s] ∧
  ninv N (mkNq (nhead s) (mark (nhead s)) (nnext s) (nstate s) (nprods s) (DRet nullptr) (chain s)
               (owned s) (pushed s) (popped s)).
Proof.
  intros HI Hc Ht. destruct (n_head _ _ HI) as [r Hr].
  assert (Hal : aligned (nhead s)) by (apply (chain_good s _ HI); rewrite Hr; by left).
  assert (Hone : chain s = [nhead s]).
  { pose proof (n_tail _ _ HI) as Hl. rewrite Ht, unmark_aligned in Hl by done.
    destruct r as [|y r]; [done|]. exfalso. eapply (not_last s 0 (nhead s) y HI); [by rewrite Hr..|exact Hl]. }
  split; [done|]. destruct HI as [I1 I2 I3 I4 I5 I6 I7 I8 I9 I10 I11 I12 I13]. constructor; cbn; try done.
  - rewrite <-I1. unfold nodes. cbn. by rewrite Hc.
  - rewrite Hone. by rewrite unmark_mark.
  - intros a [= <-]. done.
Qed.

Lemma ret_ninv s a :
  ninv N s → ncons s = DRet a →
  ninv N (mkNq (nhead s) (ntail s) (nnext s) (nstate s) (nprods s) DIdle (chain s)
               (if decide (a = nullptr) then owned s else a :: owned s) (pushed s) (popped s)).
Proof.
  intros HI Hc. destruct HI as [I1 I2 I3 I4 I5 I6 I7 I8 I9 I10 I11 I12 I13]. constructor; cbn; try done.
  rewrite <-I1. unfold nodes. cbn. rewrite Hc. cbn. case_decide; [done|]. cbn. solve_Permutation.
Qed.

Lemma pop_ninv s s' : ninv N s → pop_step s = Some s' → ninv N s'.
Proof.
  intros HI H. unfold pop_step in H. destruct (ncons s) as [| |x|hh x| | | |a] eqn:Hc; simplify_eq.
  - apply cons_ninv; [done|by rewrite Hc|by case_decide|]. case_decide; [done|]. by intros x [= <-].
  - by apply set_ninv.
  - by apply copy_ninv.
  - apply cons_ninv; [done|by rewrite Hc| |]; (destruct (marked _); [done|by case_decide]).
  - case_decide; [done|]. apply cons_ninv; [done|by rewrite Hc|done|done].
  - case_decide as Ht; [by apply cas_ninv|]. apply cons_ninv; [done|by rewrite Hc|done|done].
  - by apply ret_ninv.
Qed.

Lemma nstep_ninv l s s' : ninv N s → nstep l s = Some s' → ninv N s'.
Proof.
  intros HI H. destruct l as [t i ut|t| |]; cbn [nstep] in H.
  - destruct (nprods s !! t) as [[]|] eqn:Ht; try done. destruct (owned s !! i) as [n|] eqn:Hi; [|done].
    injection H as <-. by apply push_ninv.
  - unfold insert_step in H. destruct (nprods s !! t) as [[]|] eqn:Ht; simplify_eq.
    + by apply clear_ninv.
    + by apply exch_ninv.
    + by apply link_ninv.
    + by eapply done_ninv.
  - destruct (ncons s) eqn:Hc; simplify_eq. apply cons_ninv; [done|by rewrite Hc|done|done].
  - by eapply pop_ninv.
Qed.
End inv.

Lemma omap_idle k : omap pnode (replicate k NIdle) = [].
Proof. by induction k. Qed.
Lemma init_ninv stub k ns : aligned stub → ninv (ns ++ [stub]) (nq_init stub k ns).
Proof.
  intros Ha. constructor; cbn; try done.
  - unfold nodes. cbn. by rewrite omap_idle.
  - eauto.
  - by rewrite unmark_mark.
  - intros t a b w [? _]%lookup_replicate_1. done.
  - intros t t' a b b' w w' [? _]%lookup_replicate_1. done.
Qed.

Definition nq_reachable (stub : addr) (k : nat) (ns : list addr) (s : nq) : Prop :=
  reachable nstep (nq_init stub k ns) s.
Lemma ninv_reachable stub k ns s :
  good_nodes (ns ++ [stub]) → nq_reachable stub k ns s → ninv (ns ++ [stub]) s.
Proof.
  intros HN. apply (invariant_reachable nstep (ninv (ns ++ [stub]))).
  - apply init_ninv. apply HN, elem_of_app. right. by left.
  - intros l s1 s2. by apply nstep_ninv.
Qed.

(** ** Theorems *)

(** The node queue of scheduler 4 is FIFO under every interleaving of the
    producers with the consumer: what was popped and what is in the queue is,
    in order, what was pushed; the node that pop returns holds the uThread it
    popped; and no node is ever in two places, so that a node a uThread owns
    is never written by the queue. *)
Theorem nodequeue_fifo stub k ns s :
  good_nodes (ns ++ [stub]) → nq_reachable stub k ns s →
  popped s ++ map (nstate s) (tail (chain s)) = pushed s ∧
  (∀ a, ncons s = DRet a → a ≠ nullptr → last (popped s) = Some (nstate s a)) ∧
  nodes s ≡ₚ ns ++ [stub] ∧ NoDup (nodes s).
Proof.
  intros HN Hr. pose proof (ninv_reachable _ _ _ _ HN Hr) as HI.
  split_and!; [apply HI|apply HI|apply HI|by eapply nodes_nodup].
Qed.

(** pop returns null only at a moment at which nothing is queued, and its
    spin loop waits only for a producer between its exchange and its link,
    whose next step ends the wait. *)
Theorem nodequeue_pop_waits stub k ns s :
  good_nodes (ns ++ [stub]) → nq_reachable stub k ns s →
  (∀ s', pop_step s = Some s' → ncons s' = DRet nullptr → pushed s = popped s) ∧
  (pushed s ≠ popped s → nnext s (nhead s) = nullptr →
     ∃ t s', insert_step t s = Some s' ∧ nnext s' (nhead s') ≠ nullptr).
Proof.
  intros HN Hr. pose proof (ninv_reachable _ _ _ _ HN Hr) as HI.
  assert (Hone : chain s = [nhead s] → pushed s = popped s).
  { intros H1. rewrite <-(n_fifo _ _ HI), H1. simpl. by rewrite app_nil_r. }
  split.
  - intros s' Hs Hn. apply Hone. unfold pop_step in Hs.
    destruct (ncons s) as [| |x|hh x| | | |a] eqn:Hc; simplify_eq/=.
    + by case_decide.
    + exfalso. assert (Hh : nullptr ∈ nodes s) by (unfold nodes; rewrite Hc, !elem_of_app; do 3 right; by left).
      by destruct (nodes_good _ HN s _ HI Hh).
    + destruct (marked (ntail s)) eqn:Hm; [by apply (n_mark _ _ HI)|by case_decide].
    + case_decide; simplify_eq/=. congruence.
    + case_decide as Ht; simplify_eq/=. exact (proj1 (cas_ninv _ HN s HI Hc Ht)).
  - intros Hne Hz. destruct (n_head _ _ HI) as [[|y r] Hc]; [by destruct Hne; apply Hone|].
    assert (Hy : y ≠ nullptr) by (apply (chain_good _ HN s _ HI); rewrite Hc; right; by left).
    assert (Hl : linked s (nhead s) y) by (apply (n_links _ _ HI 0); by rewrite Hc).
    destruct Hl as [Hl|[_ (t & w & Hp)]]; [congruence|]. exists t. unfold insert_step. rewrite Hp.
    eexists. split; [done|]. cbn. by rewrite fn_lookup_insert.
Qed.

Definition nq_demo : list nlabel :=
  [NPush 0 0 500; NProd 0; NProd 0; NPush 1 0 600; NProd 1; NProd 1; NPop; NCons; NCons; NProd 0; NProd 1;
   NCons; NCons; NCons; NCons]%Z.
Definition nq_demo_state (n : nat) : nq :=
  default (nq_init 16 2 [32; 48]%Z) (run nstep (take n nq_demo) (nq_init 16 2 [32; 48]%Z)).
Lemma nq_demo_reachable n : n = 9 ∨ n = 15 → nq_reachable 16 2 [32; 48]%Z (nq_demo_state n).
Proof. intros [->| ->]; apply reachable_default; vm_compute; reflexivity. Qed.
Lemma nq_demo_good : good_nodes ([32; 48] ++ [16])%Z.
Proof.
  split; [apply (bool_decide_unpack _); by vm_compute|]. intros n Hn.
  repeat (apply elem_of_cons in Hn as [->|Hn]; [by split; vm_compute|]). by apply elem_of_nil in Hn.
Qed.

Lemma nodequeue_fifo_witness :
  let s := nq_demo_state 15 in
  ncons s = DRet 16 ∧ nstate s 16%Z = 500%Z ∧ popped s = [500]%Z ∧
  popped s ++ map (nstate s) (tail (chain s)) = pushed s.
Proof.
  split; [vm_compute; reflexivity|]. split; [vm_compute; reflexivity|]. split; [vm_compute; reflexivity|].
  apply (nodequeue_fifo 16 2 [32; 48]%Z (nq_demo_state 15)); [apply nq_demo_good|apply nq_demo_reachable; auto].
Defined.
Lemma nodequeue_pop_waits_witness :
  let s := nq_demo_state 9 in
  ncons s = DSpin ∧ ∃ t s', insert_step t s = Some s' ∧ nnext s' (nhead s') ≠ nullptr.
Proof.
  split; [vm_compute; reflexivity|].
  apply (nodequeue_pop_waits 16 2 [32; 48]%Z (nq_demo_state 9)).
  - apply nq_demo_good.
  - apply nq_demo_reachable. auto.
  - vm_compute. congruence.
  - vm_compute. reflexivity.
Defined.
