(* ===== verification/RunQueue.v ===== *)
(** * The run queues against one specification

    The life cycle ([KThread]) uses run queues as FIFO lists: a push appends, a
    pop takes the first element or finds that there is none, each in one step.
    Here is that specification, as a transition system over lists, the
    interface by which an implementation promises it, and the three
    implementations that keep the promise under every interleaving: the
    intrusive lock-free queue of scheduler 2, the node queue of scheduler 4 and
    the locked queue of scheduler 3. *)

From stdpp Require Import functions.
From S2P Require Import Prelude Links MPSCQueue NodeQueue Scheduler03.

(** ** The specification *)

Inductive qev : Type :=
  | EPush (l : list addr)
  | EPop (a : addr)
  | ENull.                   (* a pop that finds nothing *)

Definition fifo_step (e : qev) (l : list addr) : option (list addr) :=
  match e, l with
  | EPush k, _ => Some (l ++ k)
  | EPop a, b :: r => if decide (a = b) then Some r else None
  | EPop _, [] => None
  | ENull, [] => Some []
  | ENull, _ :: _ => None
  end.

(** What was pushed and popped in a history. *)
Fixpoint pushes (es : list qev) : list addr :=
  match es with [] => [] | EPush k :: es' => k ++ pushes es' | _ :: es' => pushes es' end.
Definition pops (es : list qev) : list addr :=
  omap (λ e, match e with EPop a => Some a | _ => None end) es.

Lemma fifo_history es l0 l :
  run fifo_step es l0 = Some l → l0 ++ pushes es = pops es ++ l.
Proof.
  revert l0. induction es as [|e es IH]; intros l0 H; simpl in H.
  - simplify_eq. by rewrite app_nil_r.
  - destruct (fifo_step e l0) as [l1|] eqn:E; [|done]. specialize (IH l1 H).
    destruct e as [k|a|], l0 as [|b r]; simplify_eq/=; try (rewrite <-IH, <-?app_assoc; done).
    case_decide; simplify_eq/=. by rewrite IH.
Qed.

(** ** The interface *)

Class FifoQueue {St Lab : Type} (step : Lab → St → option St) (init : St) := {
  contents : St → list addr;
  event : Lab → St → option qev;
  contents_init : contents init = [];
  event_sim : ∀ l s s', reachable step init s → step l s = Some s' →
    match event l s with
    | Some e => fifo_step e (contents s) = Some (contents s')
    | None => contents s' = contents s
    end
}.

(** What the pop that is about to return has to answer: the event it has had. *)
Definition is_pop (e : qev) : bool := match e with EPush _ => false | _ => true end.
Class PopResult {St Lab : Type} (step : Lab → St → option St) (init : St) `{!FifoQueue step init} := {
  answer : St → option qev;
  answer_init : answer init = None;
  answer_step : ∀ l s s' e, reachable step init s → step l s = Some s' → answer s' = Some e →
    match event l s with
    | Some e' => if is_pop e' then e' = e else answer s = Some e
    | None => answer s = Some e
    end
}.

(** The events of a run. *)
Fixpoint events {St Lab : Type} (step : Lab → St → option St) (ev : Lab → St → option qev)
    (tr : list Lab) (s : St) : list qev :=
  match tr with
  | [] => []
  | l :: tr' =>
      match step l s with
      | None => []
      | Some s' => option_list (ev l s) ++ events step ev tr' s'
      end
  end.

Section client.
Context {St Lab : Type} (step : Lab → St → option St) (init : St).
Context `{HQ : !FifoQueue step init}.
Notation evs := (events step event).

Lemma run_fifo tr s s' :
  reachable step init s → run step tr s = Some s' →
  run fifo_step (evs tr s) (contents s) = Some (contents s').
Proof.
  revert s. induction tr as [|l tr IH]; intros s Hr H; simpl in *; [by simplify_eq|].
  destruct (step l s) as [s1|] eqn:E; simplify_eq/=.
  pose proof (event_sim l s s1 Hr E) as Hs. specialize (IH s1 (reachable_step _ _ _ _ _ Hr E) H).
  destruct (event l s) as [e|]; simpl; [by rewrite Hs|by rewrite <-Hs].
Qed.
Lemma fifo_refined tr s :
  run step tr init = Some s → run fifo_step (evs tr init) [] = Some (contents s).
Proof. intros H. rewrite <-contents_init. apply run_fifo; [apply reachable_refl|done]. Qed.

Context `{HP : !PopResult step init}.
Lemma run_answer tr s s' es e :
  (∀ e, answer s = Some e → last (filter is_pop es) = Some e) →
  reachable step init s → run step tr s = Some s' → answer s' = Some e →
  last (filter is_pop (es ++ evs tr s)) = Some e.
Proof.
  revert s es. induction tr as [|l tr IH]; intros s es Hes Hr H He; simpl in *.
  - simplify_eq. rewrite app_nil_r. auto.
  - destruct (step l s) as [s1|] eqn:E; simplify_eq/=. rewrite app_assoc.
    apply (IH s1); [|by eapply reachable_step|done|done].
    intros e1 H1. pose proof (answer_step l s s1 e1 Hr E H1) as Ha. rewrite filter_app.
    destruct (event l s) as [e2|]; simpl; [|rewrite filter_nil, app_nil_r; auto].
    destruct (is_pop e2) eqn:Ep.
    + subst. rewrite filter_cons_True by (rewrite Ep; exact I). by rewrite filter_nil, last_snoc.
    + rewrite filter_cons_False by (rewrite Ep; exact id). rewrite filter_nil, app_nil_r. auto.
Qed.
Lemma answers_last tr s e :
  run step tr init = Some s → answer s = Some e → last (filter is_pop (evs tr init)) = Some e.
Proof.
  apply (run_answer tr init s [] e); [|apply reachable_refl]. intros e0. by rewrite answer_init.
Qed.
End client.

(** ** Queues with histories

    The models of the three queues carry the history of what was pushed and of
    what was popped; the content is the rest of the first after the second. *)

Definition rest (pu po : list addr) : list addr := drop (length po) pu.
Definition ev_pushed (e : option qev) : list addr := match e with Some (EPush k) => k | _ => [] end.
Definition ev_popped (e : option qev) : list addr := match e with Some (EPop a) => [a] | _ => [] end.

Lemma rest_app (po c : list addr) : rest (po ++ c) po = c.
Proof. apply drop_app_length. Qed.

(** A step that extends the histories as its event says is a step of the
    specification. *)
Lemma history_sim e pu po pu' po' c c' :
  pu = po ++ c → pu' = po' ++ c' → pu' = pu ++ ev_pushed e → po' = po ++ ev_popped e →
  (e = Some ENull → c = []) →
  match e with
  | Some e => fifo_step e (rest pu po) = Some (rest pu' po')
  | None => rest pu' po' = rest pu po
  end.
Proof.
  intros -> -> E -> He. rewrite !rest_app. rewrite <-!app_assoc in E. apply app_inv_head in E.
  destruct e as [[k|a|]|]; simpl in E; rewrite ?app_nil_r in E; subst; simpl.
  - done.
  - by rewrite decide_True.
  - by rewrite He.
  - done.
Qed.

(** ** Scheduler 2: BlockingMPSCQueue *)

Module Intrusive.
Section mpsc.
Context (stub : addr) (m : mem) (Hm : valid_init stub m).
Implicit Types q : mpsc.
Import MPSCQueue.

Definition queued (q : mpsc) : list addr := rest (pushed q) (popped q).
(** A push takes effect at its exchange, a pop when it unlinks the node or when
    it finds the mark or sets it. *)
Definition label_event (l : qlabel) (q : mpsc) : option qev :=
  match l with
  | QProd t => match prods q !! t with Some (PExch seg) => Some (EPush seg) | _ => None end
  | QCons =>
      match cons q with
      | CTake => Some (EPop (head q))
      | CLoadTail => if marked (tail q) then Some ENull else None
      | CCas => if (tail q =? stub)%Z then Some ENull else None
      | _ => None
      end
  | _ => None
  end.

(** The two histories change only at those steps. *)
Lemma access_logs {A} (c : M mem A) q (k : A → mem → mpsc) :
  (∀ a m', pushed (k a m') = pushed q ∧ popped (k a m') = popped q) →
  pushed (access c q k) = pushed q ∧ (broken (access c q k) = false → popped (access c q k) = popped q).
Proof.
  intros Hk. unfold access. destruct (c (memory q)) as [[a m']|]; [|done].
  destruct (Hk a m') as [-> ->]. done.
Qed.

Lemma qstep_logs l q q' :
  qstep stub l q = Some q' →
  pushed q' = pushed q ++ ev_pushed (label_event l q) ∧
  (broken q' = false → popped q' = popped q ++ ev_popped (label_event l q)).
Proof.
  intros Hs. destruct l as [t seg|t|t| | |]; simpl in Hs |- *; rewrite ?app_nil_r.
  - case_decide; by simplify_eq.
  - unfold prod_step in Hs.
    destruct (prods q !! t) as [[seg|seg|x y b|b]|]; simplify_option_eq; rewrite ?app_nil_r;
      try done; by apply access_logs.
  - destruct (prods q !! t) as [[| | |b]|]; by simplify_eq.
  - destruct (cons q); by simplify_eq.
  - unfold cons_step in Hs. destruct (cons q) eqn:Hc; simplify_eq/=; rewrite ?app_nil_r; try done;
      try (apply access_logs; intros a m'; try done; by destruct (a =? nullptr)%Z).
    + by destruct (marked (tail q)); simpl; rewrite ?app_nil_r.
    + by destruct (tail q =? stub)%Z; simpl; rewrite ?app_nil_r.
    + unfold access. by destruct (load_next (head q) (memory q)) as [[a m']|].
  - destruct (cons q); by simplify_eq.
Qed.

Lemma mpsc_null_event l q q' :
  qstep stub l q = Some q' → label_event l q = Some ENull → cons_step stub q = Some q' ∧ cons q' = CRet nullptr.
Proof.
  intros Hs He. destruct l as [| | | | |]; try done; simpl in *; [by repeat case_match|].
  split; [done|]. unfold cons_step in Hs.
  destruct (cons q); simplify_eq;
    [destruct (marked (tail q))|destruct (tail q =? stub)%Z]; by simplify_eq.
Qed.

Lemma mpsc_label_sim l q q' :
  reachable (qstep stub) (mpsc_init stub m) q → qstep stub l q = Some q' →
  match label_event l q with
  | Some e => fifo_step e (queued q) = Some (queued q')
  | None => queued q' = queued q
  end.
Proof.
  intros Hr Hs. destruct Hm as (H0 & Ha & Hn). destruct (inv_reachable stub m q H0 Ha Hn Hr) as [c I].
  destruct (inv_qstep _ _ _ _ _ I Hs) as [c' I']. destruct (qstep_logs _ _ _ Hs) as [E1 E2].
  eapply history_sim; [apply (inv_content _ _ _ I)|apply (inv_content _ _ _ I')|done|
                       by apply E2, (inv_ok _ _ _ I')|].
  intros He. destruct (mpsc_null_event _ _ _ Hs He) as [Hc Hret].
  rewrite (pop_null_only_stub stub q c q' I Hc Hret). by rewrite filter_cons_False by (intros ?; done).
Qed.

#[export] Instance fifo : FifoQueue (qstep stub) (mpsc_init stub m).
Proof. by refine {| contents := queued; event := label_event; event_sim := mpsc_label_sim |}. Defined.

(** The node on its way out, or null. *)
Definition popping_event (q : mpsc) : option qev :=
  match cons q with
  | CClear l => Some (EPop l)
  | CRet l => Some (if decide (l = nullptr) then ENull else EPop l)
  | _ => None
  end.
Lemma access_event {A} (c : M mem A) q (k : A → mem → mpsc) o :
  (∀ a m', broken (k a m') = false → popping_event (k a m') = o) →
  broken (access c q k) = false → popping_event (access c q k) = o.
Proof. intros Hk. unfold access. destruct (c (memory q)) as [[a m']|]; [eauto|done]. Qed.

(** The answer is there from the pop's event to its return. *)
Lemma qstep_popping l q q' :
  reachable (qstep stub) (mpsc_init stub m) q → qstep stub l q = Some q' →
  popping_event q' =
    match l, label_event l q with
    | QPop, _ | QPopRet, _ => None
    | _, Some e => if is_pop e then Some e else popping_event q
    | _, None => popping_event q
    end.
Proof.
  intros Hr Hs. destruct Hm as (H0 & Ha & Hn). destruct (inv_reachable stub m q H0 Ha Hn Hr) as [c I].
  pose proof (inv_pc _ _ _ I) as Hpc. unfold pc_ok in Hpc.
  destruct (inv_qstep _ _ _ _ _ I Hs) as [c' I']. pose proof (inv_ok _ _ _ I') as Hb. clear I I' Hr.
  destruct l as [t seg|t|t| | |]; simpl in Hs |- *.
  - case_decide; by simplify_eq.
  - unfold prod_step in Hs. destruct (prods q !! t) as [[seg|seg|x y b|b]|]; simplify_option_eq; try done;
      revert Hb; by apply access_event.
  - destruct (prods q !! t) as [[| | |b]|]; by simplify_eq.
  - destruct (cons q); by simplify_eq.
  - unfold cons_step in Hs. destruct (cons q) eqn:Hc; simplify_eq/=; revert Hb; try (apply access_event; intros a m');
      unfold popping_event; simpl; rewrite ?Hc; try done.
    + by destruct (head q =? stub)%Z.
    + by destruct (marked (tail q)).
    + by destruct (tail q =? stub)%Z.
    + destruct (a =? nullptr)%Z; simpl; by rewrite ?Hc.
    + destruct (a =? nullptr)%Z; simpl; by rewrite ?Hc.
    + by rewrite decide_False by apply Hpc.
  - destruct (cons q); by simplify_eq.
Qed.
Lemma mpsc_popping_step_event l q q' e :
  reachable (qstep stub) (mpsc_init stub m) q → qstep stub l q = Some q' → popping_event q' = Some e →
  match label_event l q with
  | Some e' => if is_pop e' then e' = e else popping_event q = Some e
  | None => popping_event q = Some e
  end.
Proof.
  intros Hr Hs He. rewrite (qstep_popping l q q' Hr Hs) in He.
  destruct l; try done; destruct (label_event _ q) as [e'|]; try done; destruct (is_pop e'); by simplify_eq.
Qed.
#[export] Instance answers : PopResult (qstep stub) (mpsc_init stub m).
Proof. by refine {| answer := popping_event; answer_step := mpsc_popping_step_event |}. Defined.
End mpsc.
End Intrusive.

(** ** Scheduler 4: NIBlockingMPSCQueue *)

Module Nodes.
Section nq.
Context (stub : addr) (k : nat) (ns : list addr) (HN : good_nodes (ns ++ [stub])).
Implicit Types s : nq.
Import NodeQueue.

Definition queued (s : nq) : list addr := rest (pushed s) (popped s).
Definition label_event (l : nlabel) (s : nq) : option qev :=
  match l with
  | NProd t => match nprods s !! t with Some (NExch n) => Some (EPush [nstate s n]) | _ => None end
  | NCons =>
      match ncons s with
      | DSet x => Some (EPop (nstate s x))
      | DTail => if marked (ntail s) then Some ENull else None
      | DCas => if decide (ntail s = nhead s) then Some ENull else None
      | _ => None
      end
  | _ => None
  end.

Lemma nstep_logs l s s' :
  nstep l s = Some s' →
  pushed s' = pushed s ++ ev_pushed (label_event l s) ∧ popped s' = popped s ++ ev_popped (label_event l s).
Proof.
  intros Hs. destruct l as [t i ut|t| |]; simpl in Hs |- *.
  - destruct (nprods s !! t) as [[]|]; simplify_eq. destruct (owned s !! i); simplify_eq/=.
    by rewrite !app_nil_r.
  - unfold insert_step in Hs. destruct (nprods s !! t) as [[]|]; simplify_eq/=; by rewrite ?app_nil_r.
  - destruct (ncons s); simplify_eq/=. by rewrite !app_nil_r.
  - unfold pop_step in Hs. destruct (ncons s); simplify_eq/=;
      repeat (case_match || case_decide); simpl; by rewrite ?app_nil_r.
Qed.

(** A pop that reports the queue empty sees the dummy node only. *)
Lemma nq_null_event l s s' :
  ninv (ns ++ [stub]) s → nstep l s = Some s' → label_event l s = Some ENull → List.tl (chain s) = [].
Proof.
  intros HI Hs He. destruct l as [| | |]; try done; simpl in He; [by repeat case_match|].
  enough (chain s = [nhead s]) as -> by done.
  destruct (ncons s) eqn:Ec; simplify_eq.
  - destruct (marked (ntail s)) eqn:E; [|done]. by apply (n_mark _ _ HI).
  - case_decide as Ht; [|done]. exact (proj1 (cas_ninv _ HN s HI Ec Ht)).
Qed.

Lemma nq_label_sim l s s' :
  reachable nstep (nq_init stub k ns) s → nstep l s = Some s' →
  match label_event l s with
  | Some e => fifo_step e (queued s) = Some (queued s')
  | None => queued s' = queued s
  end.
Proof.
  intros Hr Hs. pose proof (ninv_reachable _ _ _ _ HN Hr) as HI.
  pose proof (nstep_ninv _ HN _ _ _ HI Hs) as HI'. destruct (nstep_logs _ _ _ Hs) as [E1 E2].
  eapply history_sim; [symmetry; apply (n_fifo _ _ HI)|symmetry; apply (n_fifo _ _ HI')|done|done|].
  intros He. by rewrite (nq_null_event _ _ _ HI Hs He).
Qed.

#[export] Instance fifo : FifoQueue nstep (nq_init stub k ns).
Proof. by refine {| contents := queued; event := label_event; event_sim := nq_label_sim |}. Defined.

(** The node on its way out carries the uThread popped. *)
Definition popping_event (s : nq) : option qev :=
  match ncons s with
  | DCopy _ x => Some (EPop (nstate s x))
  | DRet a => Some (if decide (a = nullptr) then ENull else EPop (nstate s a))
  | _ => None
  end.
Lemma popping_frame s s' :
  ninv (ns ++ [stub]) s → ninv (ns ++ [stub]) s' → ncons s' = ncons s → popped s' = popped s →
  popping_event s' = popping_event s.
Proof.
  intros HI HI' Hc Hp. unfold popping_event. rewrite Hc. destruct (ncons s) as [| |x|hh x| | | |a] eqn:E; try done.
  - destruct (n_copy _ _ HI _ _ E) as [H1 _], (n_copy _ _ HI' _ _ Hc) as [H2 _]. rewrite Hp in H2. congruence.
  - case_decide as Ha; [done|].
    pose proof (n_ret _ _ HI _ E Ha) as H1. pose proof (n_ret _ _ HI' _ Hc Ha) as H2. rewrite Hp in H2. congruence.
Qed.

Lemma nq_popping_step_event l s s' e :
  reachable nstep (nq_init stub k ns) s → nstep l s = Some s' → popping_event s' = Some e →
  match label_event l s with
  | Some e' => if is_pop e' then e' = e else popping_event s = Some e
  | None => popping_event s = Some e
  end.
Proof.
  intros Hr Hs He. pose proof (ninv_reachable _ _ _ _ HN Hr) as HI.
  pose proof (nstep_ninv _ HN _ _ _ HI Hs) as HI'. pose proof (popping_frame s s' HI HI') as Hf.
  assert (Hnull : ∀ hh x, ncons s = DCopy hh x → hh ≠ nullptr).
  { intros hh x Hc. apply (nodes_good _ HN s hh HI). unfold nodes. rewrite Hc, !elem_of_app. do 3 right. by left. }
  destruct l as [t i ut|t| |]; simpl in Hs |- *.
  - destruct (nprods s !! t) as [[]|]; simplify_eq. destruct (owned s !! i); simplify_eq/=. by rewrite <-Hf.
  - unfold insert_step in Hs. destruct (nprods s !! t) as [[]|]; simplify_eq/=; by rewrite <-Hf.
  - destruct (ncons s); simplify_eq/=.
  - unfold pop_step in Hs. clear Hf HI HI'. unfold popping_event in *.
    destruct (ncons s) as [| |x|hh x| | | |a] eqn:Hc; [done|injection Hs as <-; simpl in He |- *..].
    + by case_decide.
    + congruence.
    + rewrite decide_False in He by eauto. by rewrite fn_lookup_insert in He.
    + destruct (marked (ntail s)); [|by case_decide]. by simplify_eq/=.
    + case_decide; simpl in He; by rewrite ?Hc in He.
    + case_decide; simpl in He; by simplify_eq/=.
    + done.
Qed.
#[export] Instance answers : PopResult nstep (nq_init stub k ns).
Proof. by refine {| answer := popping_event; answer_step := nq_popping_step_event |}. Defined.
End nq.
End Nodes.

(** ** Scheduler 3: the queue under the mutex *)

Module Locked.
Import Scheduler03.
Implicit Types s : sched3.

Definition front_event (s : sched3) : qev :=
  match runQueue s with a :: _ => EPop a | [] => ENull end.
(** A critical section of a push or of a pop is one event; a [tryPop] that does
    not get the lock does not look at the queue. *)
Definition label_event (l : label3) (s : sched3) : option qev :=
  match l with
  | S3Push ut => Some (EPush [ut])
  | S3Prepare _ | S3Spurious => None
  | S3Bulk => if (0 <? bulkCounter s)%Z then Some (EPush (bulkQueue s)) else None
  | S3NonBlocking lk _ => if lk then Some (front_event s) else None
  | S3Blocking | S3Wake => Some (front_event s)
  end.

Lemma pop_front_event s :
  fifo_step (front_event s) (runQueue s) =
  Some (match pop_front s with Some s' => runQueue s' | None => runQueue s end).
Proof. unfold front_event, pop_front. destruct (runQueue s); simpl; by rewrite ?decide_True. Qed.

Lemma s3_label_sim l s s' :
  reachable s3step s3_init s → s3step l s = Some s' →
  match label_event l s with
  | Some e => fifo_step e (runQueue s) = Some (runQueue s')
  | None => runQueue s' = runQueue s
  end.
Proof.
  intros _ Hs. destruct l as [ut|ut| |lk yld| | |]; simpl in Hs |- *; try (by simplify_eq/=).
  - simplify_eq. unfold bulkPush_kt. by destruct (0 <? bulkCounter s)%Z.
  - destruct (kph s); simplify_eq. unfold nonBlockingSwitch. destruct lk; [|by destruct yld].
    rewrite pop_front_event. destruct (pop_front s); [done|]. by destruct yld.
  - destruct (kph s); simplify_eq. rewrite pop_front_event. unfold Pop. by destruct (pop_front s).
  - destruct (kph s); simplify_eq. rewrite pop_front_event. unfold Pop. by destruct (pop_front s).
  - by destruct (kph s); simplify_eq.
Qed.

#[export] Instance fifo : FifoQueue s3step s3_init.
Proof. by refine {| contents := runQueue; event := label_event; event_sim := s3_label_sim |}. Defined.
End Locked.

(** ** Theorems *)

(** C8. The lock-free queue of scheduler 2 is linearizable: under every
    interleaving of the producers with the consumer the run is a history of the
    sequential FIFO queue, in which a push takes effect at its exchange and a
    pop, also one that finds nothing, at one of its own steps, after which it
    returns what the sequential queue answered. *)
Theorem mpsc_refines_fifo stub m tr q :
  valid_init stub m → run (qstep stub) tr (mpsc_init stub m) = Some q →
  let es := events (qstep stub) (Intrusive.label_event stub) tr (mpsc_init stub m) in
  run fifo_step es [] = Some (Intrusive.queued q) ∧
  (∀ l, cons q = CRet l →
     last (filter is_pop es) = Some (if decide (l = nullptr) then ENull else EPop l)).
Proof.
  intros Hm Hr. split.
  - exact (fifo_refined _ _ (HQ := Intrusive.fifo stub m Hm) tr q Hr).
  - intros l Hl. apply (answers_last _ _ (HP := Intrusive.answers stub m Hm) tr q); [done|].
    simpl. unfold Intrusive.popping_event. by rewrite Hl.
Qed.

Lemma mpsc_refines_fifo_witness :
  let es := events (qstep 16) (Intrusive.label_event 16) mpsc_demo (mpsc_init 16 mpsc_demo_mem) in
  es = [EPush [48; 64]; EPush [32]; EPop 48]%Z ∧
  run fifo_step es [] = Some (Intrusive.queued (mpsc_demo_state 19)) ∧
  last (filter is_pop es) = Some (EPop 48).
Proof.
  intros es. split; [by vm_compute|].
  destruct (mpsc_refines_fifo 16 mpsc_demo_mem mpsc_demo (mpsc_demo_state 19)) as [H1 H2].
  - exact mpsc_demo_init.
  - by vm_compute.
  - split; [exact H1|]. apply (H2 48%Z). by vm_compute.
Defined.

(** The node queue of scheduler 4 is linearizable in the same sense: what
    its pop hands over in a node is what the sequential FIFO queue of uThreads
    answers. *)
Theorem nodequeue_refines_fifo stub k ns tr s :
  good_nodes (ns ++ [stub]) → run nstep tr (nq_init stub k ns) = Some s →
  let es := events nstep Nodes.label_event tr (nq_init stub k ns) in
  run fifo_step es [] = Some (Nodes.queued s) ∧
  (∀ a, ncons s = DRet a →
     last (filter is_pop es) = Some (if decide (a = nullptr) then ENull else EPop (nstate s a))).
Proof.
  intros HN Hr. split.
  - exact (fifo_refined _ _ (HQ := Nodes.fifo stub k ns HN) tr s Hr).
  - intros a Ha. apply (answers_last _ _ (HP := Nodes.answers stub k ns HN) tr s); [done|].
    simpl. unfold Nodes.popping_event. by rewrite Ha.
Qed.

Lemma nodequeue_refines_fifo_witness :
  let es := events nstep Nodes.label_event nq_demo (nq_init 16 2 [32; 48]%Z) in
  es = [EPush [500]; EPush [600]; EPop 500]%Z ∧
  run fifo_step es [] = Some (Nodes.queued (nq_demo_state 15)) ∧
  last (filter is_pop es) = Some (EPop 500).
Proof.
  intros es. split; [by vm_compute|].
  destruct (nodequeue_refines_fifo 16 2 [32; 48]%Z nq_demo (nq_demo_state 15)) as [H1 H2].
  - exact nq_demo_good.
  - vm_compute. reflexivity.
  - split; [exact H1|]. apply (H2 16%Z). by vm_compute.
Defined.

(** The queue of scheduler 3, whose critical sections are the events. *)
Theorem s3_refines_fifo tr s :
  run s3step tr s3_init = Some s →
  run fifo_step (events s3step Locked.label_event tr s3_init) [] = Some (Scheduler03.runQueue s).
Proof. apply (fifo_refined _ _ (HQ := Locked.fifo)). Qed.

Lemma s3_refines_fifo_witness :
  run fifo_step [ENull; ENull; EPush [5; 6]; EPop 5]%Z [] = Some [6]%Z.
Proof.
  apply (s3_refines_fifo [S3Blocking; S3Spurious; S3Wake; S3Prepare 5; S3Prepare 6; S3Bulk; S3Wake]
           (mkS3 [6] [] 0 P3Run [5; 6] [5])%Z).
  by vm_compute.
Defined.
