(* ===== verification/Scheduler04.v ===== *)
(** * Scheduler 4: a run queue of recycled nodes

    [src/runtime/schedulers/Scheduler_04.h]: the run queue of a kThread links
    nodes that are separate from the uThreads.  A uThread that is not queued
    owns a node ([utvar->node]), which [schedule] puts into the queue; [pop]
    returns the node that was the queue's head, with the uThread of the node
    behind it, and the switch gives the uThread the node that the previous
    switch has popped ([tmpNode]).

    [insert] and [pop] are one step each: the interleaving of producers with
    the consumer is the subject of [NodeQueue].  What is
    modelled here is the exchange of the nodes, and the semaphore of the
    switches. *)

From stdpp Require Import functions.
From S2P Require Import Prelude.

Record sched4 := mkS4 {
  chain : list addr;         (* the nodes from head to tail; never empty *)
  nstate : addr → addr;      (* Node::state *)
  empty_mark : bool;         (* bit 0 of tail *)
  tmpNode : addr;
  utnode : addr → addr;      (* ut->utvar->node *)
  sem : Z;
  onMain : bool;             (* the kThread is in its main uThread *)
  next_node : Z;             (* the address of the next [new Node] *)
  live : list addr;          (* the uThreads created *)
  faulted : bool;            (* a null pointer was used *)
  pushed : list addr;        (* scheduled so far, in order *)
  popped : list addr         (* returned by the switches so far, in order *)
}.

(** [pop()]: the node returned, or null; [hhead->state = next->state]. *)
Definition pop (s : sched4) : addr * sched4 :=
  match chain s with
  | h :: n :: r =>
      (h, mkS4 (n :: r) (<[h := nstate s n]> (nstate s)) (empty_mark s) (tmpNode s) (utnode s)
               (sem s) (onMain s) (next_node s) (live s) (faulted s) (pushed s) (popped s))
  | _ =>
      (nullptr, mkS4 (chain s) (nstate s) true (tmpNode s) (utnode s)
               (sem s) (onMain s) (next_node s) (live s) (faulted s) (pushed s) (popped s))
  end.

Definition fault4 (s : sched4) : sched4 :=
  mkS4 (chain s) (nstate s) (empty_mark s) (tmpNode s) (utnode s) (sem s) (onMain s) (next_node s)
       (live s) true (pushed s) (popped s).

(** [schedule(ut)]: [node->setState(ut)], [push(node)], [sem.post()]. *)
Definition schedule (ut : addr) (s : sched4) : sched4 :=
  let node := utnode s ut in
  if (node =? nullptr)%Z then fault4 s
  else
    mkS4 (chain s ++ [node]) (<[node := ut]> (nstate s)) false (tmpNode s) (<[ut := nullptr]> (utnode s))
         (if empty_mark s then sem s + 1 else sem s)%Z (onMain s) (next_node s) (live s) (faulted s)
         (pushed s ++ [ut]) (popped s).

(** What both switches do with the node that was popped. *)
Definition take_node (node : addr) (s : sched4) : sched4 :=
  let ut := nstate s node in
  if (tmpNode s =? nullptr)%Z then
    mkS4 (chain s) (<[next_node s := ut]> (nstate s)) (empty_mark s) node
         (<[ut := next_node s]> (utnode s)) (sem s) false (next_node s + 1) (live s) (faulted s)
         (pushed s) (popped s ++ [ut])
  else
    mkS4 (chain s) (nstate s) (empty_mark s) node (<[ut := tmpNode s]> (utnode s)) (sem s) false
         (next_node s) (live s) (faulted s) (pushed s) (popped s ++ [ut]).

Definition set_main (b : bool) (s : sched4) : sched4 :=
  mkS4 (chain s) (nstate s) (empty_mark s) (tmpNode s) (utnode s) (sem s) b (next_node s)
       (live s) (faulted s) (pushed s) (popped s).
Definition set_sem (n : Z) (s : sched4) : sched4 :=
  mkS4 (chain s) (nstate s) (empty_mark s) (tmpNode s) (utnode s) n (onMain s) (next_node s)
       (live s) (faulted s) (pushed s) (popped s).

(** [nonBlockingSwitch(kt)]; [yld]: the running uThread yields. *)
Definition nonBlockingSwitch (yld : bool) (s : sched4) : sched4 :=
  let r := pop s in
  if (r.1 =? nullptr)%Z then (if yld then r.2 else set_main true r.2) else take_node r.1 r.2.

(** [blockingSwitch(kt)] after [sem.wait()] has taken a token. *)
Definition blockingSwitch (s : sched4) : sched4 :=
  let r := pop (set_sem (sem s - 1) s) in
  if (r.1 =? nullptr)%Z then fault4 r.2 else take_node r.1 r.2.

(** [UTVar()] of a new uThread. *)
Definition new_UTVar (ut : addr) (s : sched4) : sched4 :=
  mkS4 (chain s) (<[next_node s := nullptr]> (nstate s)) (empty_mark s) (tmpNode s)
       (<[ut := next_node s]> (utnode s)) (sem s) (onMain s) (next_node s + 1) (live s ++ [ut])
       (faulted s) (pushed s) (popped s).

Definition queued (s : sched4) : list addr := map (nstate s) (tail (chain s)).

Inductive label4 : Type :=
  | S4New (ut : addr) | S4Push (ut : addr) | S4NonBlocking (yld : bool) | S4Blocking.

(** A uThread is scheduled only while it is not queued, which the life cycle
    model shows; [sem.wait()] blocks without a token. *)
Definition s4step (l : label4) (s : sched4) : option sched4 :=
  if faulted s then None else
  match l with
  | S4New ut =>
      if decide (ut ∈ live s ∨ ut = nullptr) then None else Some (new_UTVar ut s)
  | S4Push ut =>
      if decide (ut ∈ live s ∧ ut ∉ queued s) then Some (schedule ut s) else None
  | S4NonBlocking yld => if onMain s then None else Some (nonBlockingSwitch yld s)
  | S4Blocking => if onMain s && (0 <? sem s)%Z then Some (blockingSwitch s) else None
  end.

(** The stub is node 1; tail is marked. *)
Definition s4_init : sched4 :=
  mkS4 [1%Z] (λ _, nullptr) true nullptr (λ _, nullptr) 0 true 2 [] false [] [].

(** ** Invariant: every node has one owner *)

(** The nodes that the uThreads own. *)
Definition owned (s : sched4) : list addr :=
  filter (λ a, a ≠ nullptr) (map (utnode s) (live s)).
Definition tmp (s : sched4) : list addr := if decide (tmpNode s = nullptr) then [] else [tmpNode s].

Record inv4 (s : sched4) : Prop := {
  n_chain : chain s ≠ [];
  n_nodup : NoDup (chain s ++ tmp s ++ owned s);
  n_range : ∀ a, a ∈ chain s ++ tmp s ++ owned s → (0 < a < next_node s)%Z;
  n_next : (0 < next_node s)%Z;
  n_live : NoDup (live s) ∧ nullptr ∉ live s;
  n_queued : NoDup (queued s) ∧ (∀ ut, ut ∈ queued s → ut ∈ live s);
  n_node : ∀ ut, ut ∈ live s → utnode s ut = nullptr ↔ ut ∈ queued s;
  n_fifo : popped s ++ queued s = pushed s
}.

Definition opt (a : addr) : list addr := filter (λ a, a ≠ nullptr) [a].
Definition owners (f : addr → addr) (l : list addr) : list addr := filter (λ a, a ≠ nullptr) (map f l).

Lemma map_upd_notin (f : addr → addr) ut v l : ut ∉ l → map (<[ut := v]> f) l = map f l.
Proof.
  intros Hl. apply map_ext_in. intros a Ha%list_elem_of_In. rewrite fn_lookup_insert_ne; [done|].
  by intros ->.
Qed.

(** Giving another node to one uThread. *)
Lemma owners_upd f l ut v :
  NoDup l → ut ∈ l → opt (f ut) ++ owners (<[ut := v]> f) l ≡ₚ opt v ++ owners f l.
Proof.
  intros Hnd Hin. apply list_elem_of_split in Hin as (l1 & l2 & ->).
  apply NoDup_app in Hnd as (_ & H1 & H2). apply NoDup_cons in H2 as [H2 _].
  assert (Hl1 : ut ∉ l1). { intros H. apply (H1 ut H). apply list_elem_of_here. }
  unfold owners. rewrite !map_app. cbn [map].
  rewrite !map_upd_notin by done. rewrite fn_lookup_insert.
  change (f ut :: map f l2) with ([f ut] ++ map f l2). change (v :: map f l2) with ([v] ++ map f l2).
  rewrite !filter_app. fold (opt (f ut)). fold (opt v).
  rewrite !(Permutation_app_comm (filter _ (map f l1))), <-!app_assoc.
  rewrite !app_assoc. do 2 apply Permutation_app_tail. apply Permutation_app_comm.
Qed.

Lemma opt_nz a : a ≠ nullptr → opt a = [a].
Proof. intros Ha. unfold opt. by rewrite filter_cons_True. Qed.
Lemma opt_tmp s : tmp s = opt (tmpNode s).
Proof.
  unfold tmp, opt. case_decide as E; [by rewrite filter_cons_False by auto|].
  by rewrite filter_cons_True.
Qed.

(** The nodes of a state, in any order. *)
Definition nodes (s : sched4) : list addr := chain s ++ tmp s ++ owned s.

(** The invariant of a state whose nodes are those of another one, besides
    new ones. *)
Lemma nodes_perm s s' new :
  nodes s' ≡ₚ new ++ nodes s → NoDup (nodes s) → NoDup new →
  (∀ a, a ∈ nodes s → (0 < a < next_node s)%Z) →
  (∀ a, a ∈ new → (next_node s ≤ a < next_node s')%Z) → (next_node s ≤ next_node s')%Z →
  (0 < next_node s)%Z →
  NoDup (nodes s') ∧ ∀ a, a ∈ nodes s' → (0 < a < next_node s')%Z.
Proof.
  intros Hp Hnd Hnew Hr Hn Hle Hpos. split.
  - rewrite Hp. apply NoDup_app. split_and!; [done| |done].
    intros a Ha Ha'. apply Hn in Ha. apply Hr in Ha'. lia.
  - intros a. rewrite Hp, elem_of_app. intros [Ha|Ha]; [apply Hn in Ha|apply Hr in Ha]; lia.
Qed.

Lemma new_UTVar_inv ut s :
  inv4 s → ut ∉ live s → ut ≠ nullptr → inv4 (new_UTVar ut s).
Proof.
  intros [H1 H2 H3 H4 [H5 H5'] [H6 H6'] H7 H8] Hl Hz.
  assert (Hnx : next_node s ∉ chain s).
  { intros Hin. assert (0 < next_node s < next_node s)%Z; [|lia].
    apply H3, elem_of_app. by left. }
  assert (Hown : owned (new_UTVar ut s) = owned s ++ [next_node s]).
  { unfold owned. simpl. rewrite map_app, map_upd_notin, filter_app by done. f_equal. cbn [map].
    rewrite fn_lookup_insert. rewrite filter_cons_True; [done|]. unfold nullptr. lia. }
  assert (Hq : queued (new_UTVar ut s) = queued s).
  { unfold queued. simpl. apply map_upd_notin. intros Hin. apply Hnx.
    destruct (chain s); [done|]. simpl in Hin. by apply elem_of_cons; right. }
  destruct (nodes_perm s (new_UTVar ut s) [next_node s]) as [Hnd Hr]; try done.
  - unfold nodes. rewrite Hown. simpl. change (tmp (new_UTVar ut s)) with (tmp s).
    rewrite !app_assoc, <-Permutation_cons_append. done.
  - apply NoDup_singleton.
  - intros a ->%list_elem_of_singleton. simpl. lia.
  - simpl. lia.
  - split; try done.
    + simpl. lia.
    + simpl. split; [|set_solver]. apply NoDup_app. split_and!; [done| |apply NoDup_singleton].
      set_solver.
    + rewrite Hq. split; [done|]. intros u Hu. simpl. apply elem_of_app. left. by apply H6'.
    + intros u Hu. rewrite Hq. simpl in *. apply elem_of_app in Hu as [Hu|Hu].
      * rewrite fn_lookup_insert_ne by set_solver. by apply H7.
      * apply list_elem_of_singleton in Hu as ->. rewrite fn_lookup_insert.
        split; [unfold nullptr; lia|]. by intros ?%H6'.
    + by rewrite Hq.
Qed.

Lemma schedule_inv ut s :
  inv4 s → ut ∈ live s → ut ∉ queued s → inv4 (schedule ut s) ∧ faulted (schedule ut s) = faulted s.
Proof.
  intros [H1 H2 H3 H4 [H5 H5'] [H6 H6'] H7 H8] Hl Hnq. unfold schedule.
  assert (Hnode : utnode s ut ≠ nullptr) by (by rewrite H7).
  destruct (Z.eqb_spec (utnode s ut) nullptr) as [|_]; [done|]. split; [|done].
  set (s' := mkS4 _ _ _ _ _ _ _ _ _ _ _ _).
  pose proof (owners_upd (utnode s) (live s) ut nullptr H5 Hl) as Hown.
  rewrite (opt_nz _ Hnode) in Hown.
  assert (Hp : nodes s' ≡ₚ [] ++ nodes s).
  { unfold nodes, owned, owners in *. change (tmp s') with (tmp s). simpl in *. rewrite <-Hown.
    rewrite <-!app_assoc. apply Permutation_app_head. simpl. apply Permutation_middle. }
  assert (Hnc : utnode s ut ∉ chain s).
  { intros Hin. apply NoDup_app in H2 as (_ & Hd & _). apply (Hd _ Hin), elem_of_app. right.
    unfold owned. apply list_elem_of_filter. split; [done|]. apply list_elem_of_fmap. eauto. }
  assert (Hq : queued s' = queued s ++ [ut]).
  { unfold queued. simpl. destruct (chain s) as [|h r]; [done|]. simpl. rewrite map_app. cbn [map].
    rewrite fn_lookup_insert. f_equal. apply map_upd_notin. intros ?. apply Hnc. by apply elem_of_cons; right. }
  destruct (nodes_perm s s' []) as [Hnd Hr]; try done.
  - apply NoDup_nil_2.
  - by intros a ?%not_elem_of_nil.
  - split; try done.
    + simpl. by destruct (chain s).
    + rewrite Hq. split.
      * apply NoDup_app. split_and!; [done| |apply NoDup_singleton]. set_solver.
      * set_solver.
    + intros u Hu. rewrite Hq. simpl. rewrite elem_of_app, list_elem_of_singleton.
      destruct (decide (u = ut)) as [->|Hne].
      * rewrite fn_lookup_insert. naive_solver.
      * rewrite fn_lookup_insert_ne by done. rewrite (H7 u Hu). naive_solver.
    + rewrite Hq. simpl. by rewrite app_assoc, H8.
Qed.

(** A switch that gets a node. *)
(** The first queued uThread leaves the queue and gets a node, [new] being the
    nodes allocated. *)
Lemma take_frame s s' h n r new :
  inv4 s → chain s = h :: n :: r →
  nodes s' ≡ₚ new ++ nodes s → NoDup new → (∀ a, a ∈ new → (next_node s ≤ a < next_node s')%Z) →
  (next_node s ≤ next_node s')%Z → chain s' = n :: r → live s' = live s → pushed s' = pushed s →
  popped s' = popped s ++ [nstate s n] → map (nstate s') r = map (nstate s) r →
  (∃ v, v ≠ nullptr ∧ utnode s' = <[nstate s n := v]> (utnode s)) → inv4 s'.
Proof.
  intros [H1 H2 H3 H4 [H5 H5'] [H6 H6'] H7 H8] Hc Hp Hn Hr Hle Hch Hlv Hpu Hpo Hst (v & Hv & Hun).
  assert (Hqs : queued s = nstate s n :: map (nstate s) r) by (unfold queued; by rewrite Hc).
  rewrite Hqs in H6. apply NoDup_cons in H6 as [Hnu Hnd].
  destruct (nodes_perm s s' new) as [Hnd' Hr']; try done.
  assert (Hq' : queued s' = map (nstate s) r) by (unfold queued; rewrite Hch; done).
  split; [by rewrite Hch|done|done|lia|by rewrite Hlv| | |];
    rewrite ?Hlv, ?Hq', ?Hpu, ?Hpo.
  - split; [done|]. intros u Hu. apply H6'. rewrite Hqs. by apply elem_of_cons; right.
  - intros u Hu. rewrite Hun. destruct (decide (u = nstate s n)) as [->|Hne].
    + rewrite fn_lookup_insert. done.
    + rewrite fn_lookup_insert_ne by done. rewrite (H7 u Hu), Hqs, elem_of_cons. naive_solver.
  - rewrite <-app_assoc. simpl. by rewrite <-Hqs.
Qed.

Lemma s4_take_inv s h n r :
  inv4 s → chain s = h :: n :: r →
  inv4 (take_node h (pop s).2) ∧ faulted (take_node h (pop s).2) = faulted s.
Proof.
  intros HI Hc. pose proof (λ s' new, take_frame s s' h n r new HI Hc) as Hgoal.
  destruct HI as [H1 H2 H3 H4 [H5 H5'] [H6 H6'] H7 H8]. unfold pop. rewrite Hc. cbn [fst snd].
  assert (Hh : h ∉ n :: r).
  { rewrite Hc in H2. simpl in H2. apply NoDup_cons in H2 as [H2 _]. intros Hin. apply H2.
    apply (elem_of_app (n :: r)). by left. }
  assert (Hh0 : h ≠ nullptr).
  { assert (0 < h < next_node s)%Z; [|unfold nullptr; lia]. apply H3. rewrite Hc. apply list_elem_of_here. }
  assert (Hq : nstate s n ∈ queued s) by (unfold queued; rewrite Hc; apply list_elem_of_here).
  pose proof (λ v, owners_upd (utnode s) (live s) (nstate s n) v H5 (H6' _ Hq)) as Hown.
  rewrite (proj2 (H7 _ (H6' _ Hq)) Hq) in Hown.
  unfold take_node. cbn [nstate tmpNode]. rewrite fn_lookup_insert.
  assert (Hrr : map (<[h := nstate s n]> (nstate s)) r = map (nstate s) r).
  { apply map_upd_notin. intros ?. apply Hh. by apply elem_of_cons; right. }
  assert (Hx : next_node s ∉ n :: r).
  { intros Hin. assert (0 < next_node s < next_node s)%Z; [|lia].
    apply H3. rewrite Hc. apply elem_of_app. left. by apply elem_of_cons; right. }
  destruct (Z.eqb_spec (tmpNode s) nullptr) as [Ht|Ht]; (split; [|done]).
  - apply (Hgoal _ [next_node s]); simpl; try done.
    + unfold nodes, owned. rewrite !opt_tmp. simpl. rewrite Ht, Hc, (opt_nz h Hh0).
      pose proof (Hown (next_node s)) as Ho. rewrite (opt_nz (next_node s)) in Ho by (unfold nullptr; lia).
      unfold owners in Ho. simpl in Ho. simpl. rewrite Ho.
      change (opt nullptr) with (@nil addr). simpl. solve_Permutation.
    + apply NoDup_singleton.
    + intros a ->%list_elem_of_singleton. lia.
    + lia.
    + rewrite map_upd_notin; [done|]. intros ?. apply Hx. by apply elem_of_cons; right.
    + exists (next_node s). split; [unfold nullptr; lia|done].
  - apply (Hgoal _ []); simpl; try done; [|apply NoDup_nil_2|by intros a ?%not_elem_of_nil|eauto].
    unfold nodes, owned. rewrite !opt_tmp. simpl. rewrite Hc, (opt_nz h Hh0).
    pose proof (Hown (tmpNode s)) as Ho. unfold owners in Ho. simpl in Ho.
    rewrite (opt_nz _ Ht) in *. simpl in *. rewrite Ho. solve_Permutation.
Qed.

Lemma pop_null s : inv4 s → (pop s).1 = nullptr → ∃ h, chain s = [h].
Proof.
  intros HI Hp. pose proof (n_chain _ HI) as Hne. unfold pop in Hp.
  destruct (chain s) as [|h [|n r]] eqn:Hc; [done|eauto|]. simpl in Hp.
  assert (0 < h < next_node s)%Z; [|unfold nullptr in *; lia].
  apply (n_range _ HI). rewrite Hc. apply list_elem_of_here.
Qed.
Lemma pop_node s : inv4 s → (pop s).1 ≠ nullptr → ∃ n r, chain s = (pop s).1 :: n :: r.
Proof.
  intros HI Hp. pose proof (n_chain _ HI) as Hne. unfold pop in *.
  destruct (chain s) as [|h [|n r]]; simpl in *; [done|done|eauto].
Qed.

(** The fields that the invariant does not mention. *)
Lemma inv4_sem z b m s :
  inv4 s →
  inv4 (mkS4 (chain s) (nstate s) m (tmpNode s) (utnode s) z b (next_node s) (live s) (faulted s)
             (pushed s) (popped s)).
Proof. intros [H1 H2 H3 H4 H5 H6 H7 H8]. by split. Qed.

Lemma s4step_inv l s s' : inv4 s → s4step l s = Some s' → inv4 s' ∨ faulted s' = true.
Proof.
  intros HI Hs. unfold s4step in Hs. destruct (faulted s) eqn:Ef; [done|].
  destruct l as [ut|ut|yld| ].
  - case_decide as Hd; simplify_eq. left. apply new_UTVar_inv; [done|tauto|tauto].
  - case_decide as Hd; simplify_eq. left. apply schedule_inv; tauto.
  - destruct (onMain s); simplify_eq. left. unfold nonBlockingSwitch.
    destruct (Z.eqb_spec (pop s).1 nullptr) as [E|E].
    + destruct (pop_null s HI E) as [h Hc]. unfold pop. rewrite Hc. simpl.
      rewrite <-Hc. destruct yld;
        [apply (inv4_sem (sem s) (onMain s) true s HI)|apply (inv4_sem (sem s) true true s HI)].
    + destruct (pop_node s HI E) as (n & r & Hc). by eapply s4_take_inv.
  - destruct (onMain s && (0 <? sem s)%Z); simplify_eq. unfold blockingSwitch.
    set (s0 := set_sem _ s). assert (HI0 : inv4 s0) by (by apply inv4_sem).
    destruct (Z.eqb_spec (pop s0).1 nullptr) as [E|E]; [by right|left].
    destruct (pop_node s0 HI0 E) as (n & r & Hc). by eapply s4_take_inv.
Qed.

Lemma inv4_init : inv4 s4_init.
Proof.
  split; simpl; try done.
  - by apply NoDup_singleton.
  - intros a Ha. apply list_elem_of_singleton in Ha. lia.
  - split; [apply NoDup_nil_2|by intros ?%not_elem_of_nil].
  - split; [apply NoDup_nil_2|by intros ? ?%not_elem_of_nil].
Qed.

Definition s4_reachable (s : sched4) : Prop := reachable s4step s4_init s.

Lemma inv4_reachable s : s4_reachable s → inv4 s ∨ faulted s = true.
Proof.
  apply (invariant_reachable s4step (λ s, inv4 s ∨ faulted s = true)); [left; apply inv4_init|].
  intros l s1 s2 [HI|Hf] Hs; [by eapply s4step_inv|]. unfold s4step in Hs. by rewrite Hf in Hs.
Qed.

(** The nodes are exchanged correctly: until blockingSwitch goes through a
    null node, every node belongs to the queue, to [tmpNode] or to one uThread,
    exactly the uThreads that are not queued own one, so that schedule always
    finds a node, and the queue returns the uThreads in the order in which they
    were scheduled. *)
Theorem s4_nodes s :
  s4_reachable s → faulted s = false →
  NoDup (chain s ++ tmp s ++ owned s)
  ∧ (∀ ut, ut ∈ live s → utnode s ut ≠ nullptr ↔ ut ∉ queued s)
  ∧ popped s ++ queued s = pushed s.
Proof.
  intros [HI|Hf]%inv4_reachable Hnf; [|congruence]. destruct HI as [H1 H2 H3 H4 H5 H6 H7 H8].
  split_and!; [done| |done]. intros ut Hut. by rewrite (H7 ut Hut).
Qed.

Definition s4_demo : list label4 :=
  [S4New 50; S4New 60; S4Push 50; S4Push 60; S4Blocking; S4NonBlocking false; S4Push 50].

Lemma s4_nodes_witness :
  ∃ s, run s4step s4_demo s4_init = Some s ∧ faulted s = false
       ∧ queued s = [50]%Z ∧ popped s = [50; 60]%Z ∧ popped s ++ queued s = pushed s.
Proof.
  eexists. split; [vm_compute; reflexivity|]. split; [reflexivity|].
  split; [vm_compute; reflexivity|]. split; [vm_compute; reflexivity|].
  apply s4_nodes; [|reflexivity]. exists s4_demo. vm_compute. reflexivity.
Defined.

(** [blockingSwitch] does not look at the queue again after [sem.wait()]:
    nonBlockingSwitch pops without taking the token that the push has posted,
    so that a later blockingSwitch takes this token, pops null from the empty
    queue and goes through the null node. *)
Theorem s4_null_node :
  ∃ tr s, run s4step tr s4_init = Some s ∧ faulted s = true ∧ pushed s = popped s.
Proof.
  exists [S4New 50; S4New 60; S4Push 50; S4Blocking; S4NonBlocking true; S4Push 60;
          S4NonBlocking false; S4NonBlocking false; S4Blocking].
  eexists. split; [vm_compute; reflexivity|]. vm_compute. done.
Qed.
