(* ===== verification/Mutex.v ===== *)
(** * Mutex and OwnerLock

    [class Mutex] and [class OwnerLock] of [src/runtime/BlockingSync.h], with
    the [BlockingQueue] operations they use ([suspend(std::mutex&)] and its
    [postSwitchFunc], [signal(std::mutex&, uThread*&)]) and the part of
    [uThread::suspend] and [uThread::resume] these rely on (the WAITING
    state).  uThreads run on several kThreads, so their steps interleave
    arbitrarily; a step is one access to the shared state.

    [ol] is the template parameter [OL]: [false] is a Mutex, [true] an
    OwnerLock, which counts the acquisitions of its owner in [counter].

    The blocking queue is the list the IntrusiveList file refines to. *)

From stdpp Require Import functions.
From S2P Require Import Prelude.

(** Where a uThread is; [d] counts the acquisitions it holds. *)
Inductive mpc : Type :=
  | MOut (d : nat)         (* in client code *)
  (* internalAcquire *)
  | ALock (d : nat)        (* lock.lock() *)
  | ABody (d : nat)        (* the test of owner, under lock *)
  | APush                  (* postSwitchFunc: queue.push_back( *utt ) *)
  | AUnlockW               (* postSwitchFunc: unlock() *)
  | AParked                (* switched out *)
  | AUnlock (d : nat)      (* owner set: lock.unlock() *)
  | ACount (d : nat)       (* OwnerLock: ++counter *)
  (* release *)
  | RLock (d : nat)        (* lock.lock() *)
  | RBody (d : nat)        (* --counter; internalRelease up to an unlock *)
  | RHandoff               (* signal: lock.unlock() *)
  | RUnlock (d : nat)      (* lock.unlock() *)
  | RRet (d : nat).        (* OwnerLock: return counter *)

Record mutex := mkMutex {
  lock : option nat;           (* the std::mutex: who holds it *)
  bq : list nat;               (* the BlockingQueue *)
  owner : option nat;          (* None is nullptr *)
  counter : Z;                 (* OwnerLock::counter, an mword *)
  waiting : gset nat;          (* the uThreads whose state is WAITING *)
  pcs : nat → mpc;
  resumes : nat;               (* calls owner->resume() of signal still to come *)
  failed : bool;               (* an assertion failed or null was dereferenced *)
  arrivals : list nat;         (* ghost: the uThreads in the order they blocked *)
  grants : list nat;           (* ghost: in the order the lock was passed to them *)
  ret : nat → Z                (* ghost: the last result of OwnerLock::release *)
}.

#[export] Instance mpc_eq_dec : EqDecision mpc.
Proof. solve_decision. Defined.

(** [Mutex() : owner(nullptr)], [OwnerLock() : counter(0)]. *)
Definition mutex_init : mutex :=
  mkMutex None [] None 0 ∅ (λ _, MOut 0) 0 false [] [] (λ _, 0%Z).

Inductive mlabel : Type :=
  | MAcquire (t : nat)      (* t calls acquire *)
  | MRelease (t : nat)      (* t calls release *)
  | MStep (t : nat)         (* a step of t in either *)
  | MResume.                (* owner->resume() *)

Section mutex.
Context (ol : bool).

Definition set_pc (t : nat) (p : mpc) (s : mutex) : mutex :=
  mkMutex (lock s) (bq s) (owner s) (counter s) (waiting s) (<[t := p]> (pcs s))
          (resumes s) (failed s) (arrivals s) (grants s) (ret s).
Definition set_lock (l : option nat) (s : mutex) : mutex :=
  mkMutex l (bq s) (owner s) (counter s) (waiting s) (pcs s)
          (resumes s) (failed s) (arrivals s) (grants s) (ret s).
Definition set_owner (o : option nat) (s : mutex) : mutex :=
  mkMutex (lock s) (bq s) o (counter s) (waiting s) (pcs s)
          (resumes s) (failed s) (arrivals s) (grants s) (ret s).
Definition set_counter (c : Z) (s : mutex) : mutex :=
  mkMutex (lock s) (bq s) (owner s) c (waiting s) (pcs s)
          (resumes s) (failed s) (arrivals s) (grants s) (ret s).
Definition set_waiting (w : gset nat) (s : mutex) : mutex :=
  mkMutex (lock s) (bq s) (owner s) (counter s) w (pcs s)
          (resumes s) (failed s) (arrivals s) (grants s) (ret s).
Definition set_resumes (n : nat) (s : mutex) : mutex :=
  mkMutex (lock s) (bq s) (owner s) (counter s) (waiting s) (pcs s)
          n (failed s) (arrivals s) (grants s) (ret s).
Definition set_ret (t : nat) (v : Z) (s : mutex) : mutex :=
  mkMutex (lock s) (bq s) (owner s) (counter s) (waiting s) (pcs s)
          (resumes s) (failed s) (arrivals s) (grants s) (<[t := v]> (ret s)).
Definition check (b : bool) (s : mutex) : mutex :=
  mkMutex (lock s) (bq s) (owner s) (counter s) (waiting s) (pcs s)
          (resumes s) (failed s || negb b) (arrivals s) (grants s) (ret s).

(** [queue.push_back( *utt )]. *)
Definition bq_push (t : nat) (s : mutex) : mutex :=
  mkMutex (lock s) (bq s ++ [t]) (owner s) (counter s) (waiting s) (pcs s)
          (resumes s) (failed s) (arrivals s ++ [t]) (grants s) (ret s).

(** [lock.lock()] blocks while the lock is held. *)
Definition lock_step (t : nat) (p : mpc) (s : mutex) : option mutex :=
  match lock s with
  | None => Some (set_pc t p (set_lock (Some t) s))
  | Some _ => None
  end.

(** The body of [internalAcquire] under the lock: [bq.suspend(lock)], which
    makes the uThread WAITING and switches it out, or the lock is taken. *)
Definition acquire_body (t d : nat) (s : mutex) : mutex :=
  let s := check (ol || bool_decide (owner s ≠ Some t)) s in
  if bool_decide (owner s ≠ None ∧ (ol = false ∨ owner s ≠ Some t))
  then set_pc t APush (set_waiting ({[t]} ∪ waiting s) s)
  else set_pc t (AUnlock d) (set_owner (Some t) s).

(** [internalRelease] up to the unlock: [bq.signal(lock, owner)] passes the
    lock to the first waiter, and otherwise it becomes free. *)
Definition internalRelease (t : nat) (s : mutex) : mutex :=
  match bq s with
  | w :: r =>
      set_pc t RHandoff
        (mkMutex (lock s) r (Some w) (counter s) (waiting s) (pcs s)
                 (resumes s) (failed s) (arrivals s) (grants s ++ [w]) (ret s))
  | [] => set_pc t (RUnlock 0) (set_owner None s)
  end.

(** [release] under the lock; an OwnerLock that is still held is only
    unlocked. *)
Definition release_body (t d : nat) (s : mutex) : mutex :=
  let s := check (bool_decide (owner s = Some t)) s in
  if ol then
    let s := set_counter (wrap 64 (counter s - 1)) s in
    if (counter s =? 0)%Z then internalRelease t s else set_pc t (RUnlock (d - 1)) s
  else internalRelease t s.

(** [owner->resume()], with [owner] read again after the unlock; [resume]
    does something only for a WAITING uThread. *)
Definition resume_step (s : mutex) : option mutex :=
  match resumes s with
  | 0 => None
  | S n =>
      Some (match owner s with
            | Some w => set_waiting (waiting s ∖ {[w]}) (set_resumes n s)
            | None => check false (set_resumes n s)
            end)
  end.

Definition thread_step (t : nat) (s : mutex) : option mutex :=
  match pcs s t with
  | MOut _ => None
  | ALock d => lock_step t (ABody d) s
  | ABody d => Some (acquire_body t d s)
  | APush => Some (set_pc t AUnlockW (bq_push t s))
  | AUnlockW => Some (set_pc t AParked (set_lock None s))
  | AParked =>
      if decide (t ∈ waiting s) then None
      else Some (set_pc t (if ol then ACount 0 else MOut 1) s)
  | AUnlock d => Some (set_pc t (if ol then ACount d else MOut (S d)) (set_lock None s))
  | ACount d => Some (set_pc t (MOut (S d)) (set_counter (wrap 64 (counter s + 1)) s))
  | RLock d => lock_step t (RBody d) s
  | RBody d => Some (release_body t d s)
  | RHandoff =>
      Some (set_pc t (if ol then RRet 0 else MOut 0)
              (set_resumes (S (resumes s)) (set_lock None s)))
  | RUnlock d => Some (set_pc t (if ol then RRet d else MOut d) (set_lock None s))
  | RRet d => Some (set_pc t (MOut d) (set_ret t (counter s) s))
  end.

(** The client's obligations: a Mutex is not acquired by its holder, only
    the holder releases, and no uThread nests 2^64 acquisitions. *)
Definition mstep (a : mlabel) (s : mutex) : option mutex :=
  match a with
  | MAcquire t =>
      match pcs s t with
      | MOut d => if decide ((ol = true ∨ d = 0) ∧ (Z.of_nat d + 1 < 2 ^ 64)%Z)
                  then Some (set_pc t (ALock d) s) else None
      | _ => None
      end
  | MRelease t =>
      match pcs s t with MOut (S d) => Some (set_pc t (RLock (S d)) s) | _ => None end
  | MStep t => thread_step t s
  | MResume => resume_step s
  end.
End mutex.

(** ** The invariant *)

(** The uThread holds the std::mutex. *)
Definition locks (p : mpc) : bool :=
  match p with
  | ABody _ | APush | AUnlockW | AUnlock _ | RBody _ | RHandoff | RUnlock _ => true
  | _ => false
  end.

(** The acquisitions the uThread holds. *)
Definition depth (p : mpc) : nat :=
  match p with
  | MOut d | ALock d | ABody d | AUnlock d | ACount d | RLock d | RBody d | RUnlock d | RRet d => d
  | APush | AUnlockW | AParked | RHandoff => 0
  end.

(** The uThread owns the lock and is not switched out. *)
Definition owns (p : mpc) : bool :=
  match p with AUnlock _ | ACount _ => true | _ => (0 <? depth p)%nat end.

Definition handing (s : mutex) : Prop := 0 < resumes s ∨ ∃ t, pcs s t = RHandoff.

(** What a single program counter satisfies. *)
Definition local_ok (ol : bool) (p : mpc) : Prop :=
  (Z.of_nat (depth p) < 2 ^ 64)%Z ∧
  match p with
  | ALock d | ABody d | AUnlock d => (Z.of_nat d + 1 < 2 ^ 64)%Z ∧ (ol = true ∨ d = 0)
  | ACount d => (Z.of_nat d + 1 < 2 ^ 64)%Z ∧ ol = true
  | RRet _ => ol = true
  | RUnlock d => ol = true ∨ d = 0
  | RLock d | RBody d => 0 < d ∧ (ol = true ∨ d = 1)
  | MOut d => ol = true ∨ d ≤ 1
  | _ => True
  end.

Record minv (ol : bool) (s : mutex) : Prop := {
  i_lock : ∀ t, lock s = Some t ↔ locks (pcs s t) = true;
  i_owns : ∀ t, owns (pcs s t) = true → owner s = Some t;
  i_owner : ∀ t, owner s = Some t → owns (pcs s t) = true ∨ pcs s t = AParked;
  i_bq : ∀ t, t ∈ bq s ↔ (pcs s t = AUnlockW ∨ pcs s t = AParked) ∧ owner s ≠ Some t;
  i_nodup : NoDup (bq s);
  i_wait : ∀ t, t ∈ waiting s ↔
    pcs s t = APush ∨ t ∈ bq s ∨ (pcs s t = AParked ∧ owner s = Some t ∧ handing s);
  i_free : owner s = None → bq s = [] ∧ ∀ t, pcs s t ≠ APush;
  i_hand : handing s → ∃ w, owner s = Some w ∧ pcs s w = AParked;
  i_once : resumes s ≤ 1 ∧ (0 < resumes s → ∀ t, pcs s t ≠ RHandoff);
  i_local : ∀ t, local_ok ol (pcs s t);
  i_counter : ol = true → counter s =
    match owner s with Some t => Z.of_nat (depth (pcs s t)) | None => 0%Z end;
  i_ok : failed s = false;
  i_fifo : arrivals s = grants s ++ bq s
}.

(** Program counters with a role of their own in the invariant. *)
Definition special (p : mpc) : bool :=
  match p with APush | AUnlockW | AParked | RHandoff => true | _ => false end.

(** Case split on whether a uThread is the one that moves. *)
Ltac pc_cases t' t :=
  destruct (decide (t' = t)) as [->|?];
  [rewrite ?fn_lookup_insert in * | rewrite ?fn_lookup_insert_ne in * by done].

Section minv.
Context (ol : bool).
Implicit Types (s : mutex) (t : nat).

Lemma minv_init : minv ol mutex_init.
Proof.
  assert (Hh : ¬ handing mutex_init) by (intros [?|[? ?]]; simpl in *; [lia|done]).
  constructor; simpl; try done.
  - split; [set_solver|by intros [[?|?] _]].
  - constructor.
  - intros t. split; [set_solver|]. intros [?|[?|(? & ? & ?)]]; [done|set_solver|done].
  - split; [lia|done].
  - intros _. split; [done|right; lia].
Qed.

(** How a step of [t] to [p] may change the std::mutex. *)
Definition lock_change s t p (l : option nat) : Prop :=
  (lock s = None ∧ l = Some t ∧ locks p = true) ∨
  (locks (pcs s t) = true ∧ l = None ∧ locks p = false) ∨
  (l = lock s ∧ locks p = locks (pcs s t)).

Lemma lock_change_ok s t p l :
  minv ol s → lock_change s t p l →
  ∀ t', l = Some t' ↔ locks ((<[t:=p]> (pcs s)) t') = true.
Proof.
  intros I Hl t'. pose proof (i_lock _ _ I t') as Ht'. pose proof (i_lock _ _ I t) as Ht.
  pc_cases t' t; destruct Hl as [(E & -> & E')|[(E & -> & E')|[-> E']]];
    rewrite ?E' in *; naive_solver.
Qed.

(** ... and the owner. *)
Definition owner_change s t (o : option nat) : Prop :=
  o = owner s ∨ (owner s = None ∧ o = Some t) ∨
  (owner s = Some t ∧ o = None ∧ bq s = [] ∧ ∀ t', pcs s t' ≠ APush).

(** The steps of [t] between ordinary program counters. *)
Lemma minv_ordinary s t p l o c r :
  minv ol s → special p = false → special (pcs s t) = false →
  lock_change s t p l → owner_change s t o → owns p = bool_decide (o = Some t) →
  local_ok ol p →
  (ol = true → c = match o with Some t' => Z.of_nat (depth ((<[t:=p]> (pcs s)) t')) | None => 0%Z end) →
  minv ol (mkMutex l (bq s) o c (waiting s) (<[t:=p]> (pcs s)) (resumes s) (failed s)
                   (arrivals s) (grants s) r).
Proof.
  intros I Hp Hq Hl Ho Hop Hloc Hc. pose proof (lock_change_ok _ _ _ _ I Hl) as Hl'.
  assert (Hsp : ∀ p', special p' = true → ∀ t', (<[t:=p]> (pcs s)) t' = p' ↔ pcs s t' = p').
  { intros p' Hp' t'. pc_cases t' t; [|done]. split; intros E; rewrite E in *; congruence. }
  assert (Hown : ∀ t', special (pcs s t') = true → o = Some t' ↔ owner s = Some t').
  { intros t' Ht'. assert (t' ≠ t) by congruence.
    destruct Ho as [->|[(? & ->)|(? & -> & _)]]; naive_solver. }
  assert (Hh : handing (mkMutex l (bq s) o c (waiting s) (<[t:=p]> (pcs s)) (resumes s)
                 (failed s) (arrivals s) (grants s) r) ↔ handing s).
  { unfold handing. simpl. by setoid_rewrite (Hsp RHandoff eq_refl). }
  destruct I. constructor; simpl; try done.
  - intros t'. pc_cases t' t; [rewrite Hop; by intros ?%bool_decide_eq_true|].
    intros Ht'. apply i_owns0 in Ht'. destruct Ho as [->|[(? & ->)|(? & -> & _)]]; naive_solver.
  - intros t' Ht'. rewrite (Hsp AParked) by done. pc_cases t' t.
    + left. rewrite Hop. by apply bool_decide_eq_true.
    + apply i_owner0. destruct Ho as [->|[(? & ->)|(? & -> & _)]]; naive_solver.
  - intros t'. rewrite !Hsp, i_bq0 by done. split; intros [Hx Hy]; split; try done;
      (rewrite Hown || rewrite <-Hown); try done; by destruct Hx as [-> | ->].
  - intros t'. rewrite Hh, !Hsp, i_wait0 by done. split; (intros [?|[?|(E & ? & ?)]]; auto);
      right; right; split_and!; try done; apply Hown; try done; by rewrite E.
  - intros ->. destruct Ho as [Ho|[(? & ?)|(? & ? & ? & ?)]]; [|done|].
    + destruct (i_free0 (eq_sym Ho)) as [? Hf]. split; [done|]. intros t'. by rewrite Hsp.
    + split; [done|]. intros t'. by rewrite Hsp.
  - rewrite Hh. intros Hx. destruct (i_hand0 Hx) as (w & ? & E). exists w. rewrite Hsp by done.
    split; [|done]. apply Hown; [by rewrite E|done].
  - destruct i_once0 as [? Hf]. split; [done|]. intros Hx t'. rewrite Hsp by done. by apply Hf.
  - intros t'. by pc_cases t' t.
Qed.

(** [bq.suspend(lock)]: [t] becomes WAITING and is switched out. *)
Lemma minv_suspend s t d :
  minv ol s → pcs s t = ABody d → owner s ≠ None → owner s ≠ Some t →
  minv ol (set_pc t APush (set_waiting ({[t]} ∪ waiting s) s)).
Proof.
  intros I Ht Hn Ho.
  assert (Hl : ∀ t', lock s = Some t' ↔ locks ((<[t:=APush]> (pcs s)) t') = true).
  { apply lock_change_ok; [done|]. right; right. by rewrite Ht. }
  assert (Hd : owns (pcs s t) = false).
  { destruct (owns (pcs s t)) eqn:E; [|done]. by apply (i_owns _ _ I) in E. }
  assert (Hh : handing (set_pc t APush (set_waiting ({[t]} ∪ waiting s) s)) → handing s).
  { intros [?|[t' Ht']]; [by left|]. simpl in Ht'. right. exists t'. by pc_cases t' t. }
  assert (Hbq : t ∉ bq s) by (rewrite (i_bq _ _ I), Ht; naive_solver).
  destruct I. constructor; simpl; try done.
  - intros t'. pc_cases t' t; [done|auto].
  - intros t' Ht'. assert (t' ≠ t) by congruence. pc_cases t' t; [done|auto].
  - intros t'. pc_cases t' t; [|done]. split; [done|]. by intros [[?|?] _].
  - intros t'. rewrite elem_of_union, elem_of_singleton, i_wait0. pc_cases t' t; [naive_solver|].
    split; [|naive_solver]. intros [->|[?|[?|(? & ? & Hx)]]]; [done|naive_solver..|].
    right; right. split_and!; try done. destruct Hx as [?|[u Hu]]; [by left|right].
    exists u. simpl. pc_cases u t; [|done]. by rewrite Ht in Hu.
  - intros Hx%Hh. destruct (i_hand0 Hx) as (w & ? & ?). exists w.
    split; [done|]. pc_cases w t; [done|done].
  - destruct i_once0 as [? Hf]. split; [done|]. intros Hx t'. pc_cases t' t; [done|auto].
  - intros t'. pc_cases t' t; [|done]. done.
  - intros Hol. rewrite i_counter0 by done. destruct (owner s) as [o|]; [|done].
    assert (o ≠ t) by congruence. by rewrite fn_lookup_insert_ne.
Qed.

(** [postSwitchFunc]: [queue.push_back( *utt )]. *)
Lemma minv_push s t :
  minv ol s → pcs s t = APush → minv ol (set_pc t AUnlockW (bq_push t s)).
Proof.
  intros I Ht.
  assert (Hl : ∀ t', lock s = Some t' ↔ locks ((<[t:=AUnlockW]> (pcs s)) t') = true).
  { apply lock_change_ok; [done|]. right; right. by rewrite Ht. }
  assert (Ho : owner s ≠ Some t).
  { intros [E|E]%(i_owner _ _ I); by rewrite Ht in E. }
  assert (Hh : handing (set_pc t AUnlockW (bq_push t s)) ↔ handing s).
  { unfold handing. simpl. split; (intros [?|[t' Ht']]; [by left|right; exists t']);
      pc_cases t' t; try done. congruence. }
  assert (Hbq : t ∉ bq s) by (rewrite (i_bq _ _ I), Ht; naive_solver).
  destruct I. constructor; rewrite ?Hh; simpl; try done.
  - intros t'. pc_cases t' t; [done|auto].
  - intros t' Ht'. pc_cases t' t; [done|auto].
  - intros t'. rewrite elem_of_app, list_elem_of_singleton, i_bq0. pc_cases t' t; naive_solver.
  - apply NoDup_app. split_and!; [done|set_solver|apply NoDup_singleton].
  - intros t'. rewrite Hh, elem_of_app, list_elem_of_singleton, i_wait0.
    pc_cases t' t; naive_solver.
  - intros Hx. destruct (i_free0 Hx) as [_ Hf]. by destruct (Hf t).
  - intros Hx. destruct (i_hand0 Hx) as (w & ? & ?). exists w.
    split; [done|]. by pc_cases w t.
  - destruct i_once0 as [? Hf]. split; [done|]. intros Hx t'. pc_cases t' t; [done|auto].
  - intros t'. pc_cases t' t; [|done]. done.
  - intros Hol. rewrite i_counter0 by done. destruct (owner s) as [o|]; [|done].
    assert (o ≠ t) by congruence. by rewrite fn_lookup_insert_ne.
  - rewrite i_fifo0. by rewrite app_assoc.
Qed.

(** [postSwitchFunc]: [unlock()]. *)
Lemma minv_park s t :
  minv ol s → pcs s t = AUnlockW → minv ol (set_pc t AParked (set_lock None s)).
Proof.
  intros I Ht.
  assert (Hl : ∀ t', None = Some t' ↔ locks ((<[t:=AParked]> (pcs s)) t') = true).
  { apply lock_change_ok; [done|]. right; left. by rewrite Ht. }
  assert (Ho : owner s ≠ Some t).
  { intros [E|E]%(i_owner _ _ I); by rewrite Ht in E. }
  assert (Hh : handing (set_pc t AParked (set_lock None s)) ↔ handing s).
  { unfold handing. simpl. split; (intros [?|[t' Ht']]; [by left|right; exists t']);
      pc_cases t' t; try done. congruence. }
  destruct I. constructor; rewrite ?Hh; simpl; try done.
  - intros t'. pc_cases t' t; [done|auto].
  - intros t' Ht'. pc_cases t' t; [done|auto].
  - intros t'. rewrite i_bq0. pc_cases t' t; naive_solver.
  - intros t'. rewrite Hh, i_wait0. pc_cases t' t; naive_solver.
  - intros Hx. destruct (i_free0 Hx) as [? Hf]. split; [done|]. intros t'. by pc_cases t' t.
  - intros Hx. destruct (i_hand0 Hx) as (w & ? & ?). exists w. split; [done|]. by pc_cases w t.
  - destruct i_once0 as [? Hf]. split; [done|]. intros Hx t'. pc_cases t' t; [done|auto].
  - intros t'. pc_cases t' t; [|done]. done.
  - intros Hol. rewrite i_counter0 by done. destruct (owner s) as [o|]; [|done].
    assert (o ≠ t) by congruence. by rewrite fn_lookup_insert_ne.
Qed.

Lemma local_ok_ret :
  local_ok ol (if ol then ACount 0 else MOut 1) ∧ local_ok ol (if ol then RRet 0 else MOut 0).
Proof. unfold local_ok. destruct ol; simpl; split_and!; try done; right; lia. Qed.

(** A parked uThread that is no longer WAITING owns the lock. *)
Lemma minv_woken s t :
  minv ol s → pcs s t = AParked → t ∉ waiting s → owner s = Some t ∧ ¬ handing s.
Proof.
  intros I Ht Hw. rewrite (i_wait _ _ I) in Hw.
  assert (owner s = Some t).
  { destruct (decide (owner s = Some t)) as [|Ho]; [done|]. destruct Hw. right; left.
    apply (i_bq _ _ I). auto. }
  split; [done|]. intros Hx. destruct Hw. auto.
Qed.

(** ... and returns from [acquire]. *)
Lemma minv_wake s t p :
  minv ol s → pcs s t = AParked → t ∉ waiting s →
  p = (if ol then ACount 0 else MOut 1) → minv ol (set_pc t p s).
Proof.
  intros I Ht Hw Hp. destruct (minv_woken _ _ I Ht Hw) as [Ho Hn].
  assert (Hp' : locks p = false ∧ owns p = true ∧ special p = false ∧ local_ok ol p ∧
                (ol = true → depth p = 0)).
  { pose proof local_ok_ret as [? _]. subst p. by destruct ol; split_and!. }
  destruct Hp' as (Hp1 & Hp2 & Hp3 & Hp4 & Hp5).
  assert (Hl : ∀ t', lock s = Some t' ↔ locks ((<[t:=p]> (pcs s)) t') = true).
  { apply lock_change_ok; [done|]. right; right. by rewrite Ht. }
  assert (Hh : ¬ handing (set_pc t p s)).
  { intros [?|[t' Ht']]; destruct Hn; [by left|right]. exists t'. simpl in Ht'.
    pc_cases t' t; [by rewrite Ht' in Hp3|done]. }
  assert (Hbq : t ∉ bq s) by (rewrite (i_bq _ _ I), Ht; naive_solver).
  destruct I. constructor; simpl; try done.
  - intros t'. pc_cases t' t; [done|auto].
  - intros t' Ht'. assert (t' = t) as -> by congruence. left. by rewrite fn_lookup_insert.
  - intros t'. rewrite i_bq0. pc_cases t' t; [|done]. rewrite Ho. naive_solver.
  - intros t'. rewrite i_wait0. pc_cases t' t; [|naive_solver].
    rewrite Ht. split; (intros [E|[?|(E & ? & ?)]]; try done); by rewrite E in Hp3.
  - intros Hx. congruence.
  - destruct i_once0 as [? Hf]. split; [done|]. intros Hx t'. pc_cases t' t; [by intros ->|auto].
  - intros t'. by pc_cases t' t.
  - intros Hol. rewrite i_counter0, Ho, fn_lookup_insert, Ht, Hp5 by done. done.
Qed.

(** [bq.signal(lock, owner)] passes the lock to the first waiter. *)
Lemma minv_handoff s t d w r c :
  minv ol s → pcs s t = RBody d → owner s = Some t → bq s = w :: r →
  (ol = true → c = 0%Z) →
  minv ol (set_pc t RHandoff
    (mkMutex (lock s) r (Some w) c (waiting s) (pcs s) (resumes s) (failed s)
             (arrivals s) (grants s ++ [w]) (ret s))).
Proof.
  intros I Ht Ho Hq Hc.
  assert (Hl : ∀ t', lock s = Some t' ↔ locks ((<[t:=RHandoff]> (pcs s)) t') = true).
  { apply lock_change_ok; [done|]. right; right. by rewrite Ht. }
  assert (Hn : ¬ handing s).
  { intros Hx. destruct (i_hand _ _ I Hx) as (u & Hu & Hu'). congruence. }
  assert (Hlt : lock s = Some t) by (apply (i_lock _ _ I); by rewrite Ht).
  assert (Hw : pcs s w = AParked).
  { assert (w ∈ bq s) as Hwq by (rewrite Hq; set_solver).
    apply (i_bq _ _ I) in Hwq as [[Hw|Hw] _]; [|done].
    assert (lock s = Some w) by (apply (i_lock _ _ I); by rewrite Hw). congruence. }
  assert (Hwt : w ≠ t) by congruence.
  assert (Hh : handing (set_pc t RHandoff
    (mkMutex (lock s) r (Some w) c (waiting s) (pcs s) (resumes s) (failed s)
             (arrivals s) (grants s ++ [w]) (ret s)))).
  { right. exists t. simpl. by rewrite fn_lookup_insert. }
  destruct I. rewrite Hq in *. apply NoDup_cons in i_nodup0 as [Hwr Hnd].
  constructor; simpl; try done.
  - intros t'. pc_cases t' t; [done|]. intros Hx%i_owns0. congruence.
  - intros t' [= <-]. right. by rewrite fn_lookup_insert_ne.
  - intros t'. pc_cases t' t.
    + split; [|by intros [[?|?] _]]. intros Hin. assert (t ∈ w :: r) as Hin' by set_solver.
      apply i_bq0 in Hin' as [_ ?]. congruence.
    + split.
      * intros Hin. split; [|intros [= <-]; done]. apply i_bq0. set_solver.
      * intros [Hx Hy]. assert (t' ∈ w :: r) as Hin by (apply i_bq0; split; [done|congruence]).
        apply elem_of_cons in Hin as [->|]; [done|done].
  - intros t'. rewrite i_wait0. pc_cases t' t.
    + rewrite Ht, Ho. split; [|by intros [?|[Hin|(? & ? & ?)]]; [| |done]; try (right; left; set_solver)].
      intros [?|[Hin|(? & ? & ?)]]; [done| |done]. apply elem_of_cons in Hin as [?|?]; [done|auto].
    + split.
      * intros [?|[Hin|(? & ? & ?)]]; [auto| |congruence].
        apply elem_of_cons in Hin as [->|?]; [|auto]. right; right. auto.
      * intros [?|[Hin|(? & [= <-] & ?)]]; [auto|right; left; set_solver|right; left; set_solver].
  - intros _. exists w. by rewrite fn_lookup_insert_ne.
  - split; [lia|]. intros Hx. destruct Hn. by left.
  - intros t'. pc_cases t' t; [|done]. done.
  - intros Hol. rewrite fn_lookup_insert_ne, Hw by done. simpl. auto.
  - rewrite i_fifo0. by rewrite <-app_assoc.
Qed.

(** [signal]: [lock.unlock()] after a hand-off. *)
Lemma minv_handoff_unlock s t p :
  minv ol s → pcs s t = RHandoff → p = (if ol then RRet 0 else MOut 0) →
  minv ol (set_pc t p (set_resumes (S (resumes s)) (set_lock None s))).
Proof.
  intros I Ht Hp.
  assert (Hp' : locks p = false ∧ owns p = false ∧ special p = false ∧ local_ok ol p ∧
                depth p = 0).
  { pose proof local_ok_ret as [_ ?]. subst p. by destruct ol; split_and!. }
  destruct Hp' as (Hp1 & Hp2 & Hp3 & Hp4 & Hp5).
  assert (Hl : ∀ t', None = Some t' ↔ locks ((<[t:=p]> (pcs s)) t') = true).
  { apply lock_change_ok; [done|]. right; left. by rewrite Ht. }
  assert (Hlt : lock s = Some t) by (apply (i_lock _ _ I); by rewrite Ht).
  assert (H0 : resumes s = 0).
  { destruct (i_once _ _ I) as [_ Hx]. destruct (resumes s); [done|]. destruct (Hx ltac:(lia) t Ht). }
  assert (Hu : ∀ t', pcs s t' = RHandoff → t' = t).
  { intros t' E. assert (lock s = Some t') by (apply (i_lock _ _ I); by rewrite E). congruence. }
  destruct (i_hand _ _ I) as (w & Hw & Hw'); [right; eauto|].
  assert (Hwt : w ≠ t) by congruence.
  assert (Hh : handing s) by (right; eauto).
  assert (Hh' : handing (set_pc t p (set_resumes (S (resumes s)) (set_lock None s))))
    by (left; simpl; lia).
  destruct I. constructor; simpl; try done.
  - intros t'. pc_cases t' t; [congruence|auto].
  - intros t' Ht'. assert (t' = w) as -> by congruence. right. by rewrite fn_lookup_insert_ne.
  - intros t'. rewrite i_bq0. pc_cases t' t; [|done]. rewrite Ht.
    split; intros [[E|E] _]; try done; by rewrite E in Hp3.
  - intros t'. rewrite i_wait0. pc_cases t' t; [|naive_solver].
    rewrite Ht. split; (intros [E|[?|(E & ? & ?)]]; try done; auto); by rewrite E in Hp3.
  - intros Hx. congruence.
  - intros _. exists w. by rewrite fn_lookup_insert_ne.
  - rewrite H0. split; [lia|]. intros _ t'. pc_cases t' t; [by intros ->|]. intros ?%Hu. done.
  - intros t'. by pc_cases t' t.
  - intros Hol. rewrite i_counter0, Hw by done. by rewrite fn_lookup_insert_ne.
Qed.

(** [owner->resume()]. *)
Lemma minv_resume s s' : minv ol s → resume_step s = Some s' → minv ol s'.
Proof.
  intros I Hs. unfold resume_step in Hs. destruct (resumes s) as [|n] eqn:Hr; simplify_eq.
  destruct (i_hand _ _ I) as (w & Hw & Hw'); [left; lia|]. rewrite Hw.
  destruct (i_once _ _ I) as [Hle Hno].
  assert (n = 0) as -> by lia.
  assert (Hh : ¬ handing (set_waiting (waiting s ∖ {[w]}) (set_resumes 0 s))).
  { intros [?|[t' Ht']]; simpl in *; [lia|]. by apply (Hno ltac:(lia) t'). }
  assert (Hbq : w ∉ bq s) by (rewrite (i_bq _ _ I); naive_solver).
  destruct I. constructor; simpl; try done.
  - intros t'. rewrite elem_of_difference, elem_of_singleton, i_wait0.
    split; [|intros [?|[?|(_ & _ & ?)]]; [|..|done]; (split; [auto|intros ->; congruence])].
    intros [[?|[?|(? & ? & ?)]] ?]; [auto..|]. congruence.
  - split; [lia|]. intros. lia.
Qed.

Lemma owns_iff s t :
  minv ol s → special (pcs s t) = false → owns (pcs s t) = bool_decide (owner s = Some t).
Proof.
  intros I Hs. destruct (owns (pcs s t)) eqn:E.
  - symmetry. apply bool_decide_eq_true. by apply (i_owns _ _ I).
  - symmetry. apply bool_decide_eq_false. intros [E'|E']%(i_owner _ _ I); [congruence|].
    by rewrite E' in Hs.
Qed.

(** The owner's depth, when [t] is not the owner or keeps its depth. *)
Lemma counter_kept s t p :
  minv ol s → owner s ≠ Some t ∨ depth p = depth (pcs s t) → ol = true →
  counter s = match owner s with
              | Some t' => Z.of_nat (depth ((<[t:=p]> (pcs s)) t')) | None => 0%Z end.
Proof.
  intros I Ht Hol. rewrite (i_counter _ _ I Hol). destruct (owner s) as [o|]; [|done].
  destruct (decide (o = t)) as [->|Hne].
  - rewrite fn_lookup_insert. destruct Ht as [?|E]; [done|by rewrite E].
  - by rewrite fn_lookup_insert_ne.
Qed.

(** Steps that keep the owner, the depth and the ownership of [t]. *)
Lemma minv_move s t p l r :
  minv ol s → special p = false → special (pcs s t) = false → lock_change s t p l →
  owns p = owns (pcs s t) → (owner s = Some t → depth p = depth (pcs s t)) → local_ok ol p →
  minv ol (mkMutex l (bq s) (owner s) (counter s) (waiting s) (<[t:=p]> (pcs s)) (resumes s)
                   (failed s) (arrivals s) (grants s) r).
Proof.
  intros I Hp Hq Hl Ho Hd Hloc. apply minv_ordinary; try done.
  - by left.
  - by rewrite Ho, owns_iff.
  - apply counter_kept; [done|]. destruct (decide (owner s = Some t)); auto.
Qed.

Lemma minv_acquire_body s t d :
  minv ol s → pcs s t = ABody d → minv ol (acquire_body ol t d s).
Proof.
  intros I Ht. pose proof (owns_iff s t I ltac:(by rewrite Ht)) as Hown. rewrite Ht in Hown.
  pose proof (i_local _ _ I t) as Hloc. rewrite Ht in Hloc. destruct Hloc as [H64 [Hd Hol]].
  unfold acquire_body.
  assert (Hck : ol || bool_decide (owner s ≠ Some t) = true).
  { destruct ol; [done|]. destruct Hol as [?| ->]; [done|]. simpl in Hown.
    apply bool_decide_eq_true. symmetry in Hown. by apply bool_decide_eq_false in Hown. }
  rewrite Hck. replace (check true s) with s by (unfold check; simpl; destruct s; simpl; by rewrite orb_false_r).
  destruct (bool_decide (owner s ≠ None ∧ _)) eqn:Hb;
    [apply bool_decide_eq_true in Hb|apply bool_decide_eq_false in Hb].
  - destruct Hb as [Hn Hb]. apply (minv_suspend _ _ d); auto. destruct Hb as [->|?]; [|done].
    simpl in Hck. by apply bool_decide_eq_true in Hck.
  - apply (minv_ordinary s t (AUnlock d) (lock s) (Some t) (counter s) (ret s)); try done.
    + by rewrite Ht.
    + right; right. by rewrite Ht.
    + destruct (owner s) as [o|] eqn:Ho; [left|right; left; done].
      destruct (decide (o = t)) as [->|]; [done|]. destruct Hb. split; [done|right]. congruence.
    + by rewrite bool_decide_true.
    + intros Ho. rewrite fn_lookup_insert. rewrite (i_counter _ _ I Ho). simpl.
      destruct (owner s) as [o|] eqn:Hos.
      * destruct (decide (o = t)) as [->|]; [by rewrite Ht|]. destruct Hb. split; [done|right]. congruence.
      * destruct d; [done|].
        assert (owner s = Some t) by (apply (i_owns _ _ I); by rewrite Ht). congruence.
Qed.

Lemma minv_release_body s t d :
  minv ol s → pcs s t = RBody d → minv ol (release_body ol t d s).
Proof.
  intros I Ht. pose proof (owns_iff s t I ltac:(by rewrite Ht)) as Hown. rewrite Ht in Hown.
  pose proof (i_local _ _ I t) as Hloc. rewrite Ht in Hloc. destruct Hloc as [H64 [Hd Hol]].
  simpl in Hown, H64. destruct (Nat.ltb_spec 0 d); [|lia]. symmetry in Hown.
  apply bool_decide_eq_true in Hown as Ho. unfold release_body. rewrite Hown.
  replace (check true s) with s by (unfold check; simpl; destruct s; simpl; by rewrite orb_false_r).
  assert (Hrel : ∀ c, (ol = true → c = 0%Z) → minv ol (internalRelease t (set_counter c s))).
  { intros c Hc. unfold internalRelease. simpl. destruct (bq s) as [|w r] eqn:Hq.
    - apply (minv_ordinary s t (RUnlock 0) (lock s) None c (ret s)); try done.
      + by rewrite Ht.
      + right; right. by rewrite Ht.
      + right; right. split_and!; try done. intros t' Ht'.
        assert (lock s = Some t) by (apply (i_lock _ _ I); by rewrite Ht).
        assert (lock s = Some t') by (apply (i_lock _ _ I); by rewrite Ht'). congruence.
      + split; [done|]. by right.
    - by apply (minv_handoff s t d w r c). }
  pose proof minv_ordinary as Hgen. pose proof (i_counter _ _ I) as Hcnt.
  destruct ol eqn:Eol.
  - simpl. assert (Hc : wrap 64 (counter s - 1) = Z.of_nat (d - 1)).
    { rewrite (Hcnt eq_refl), Ho, Ht. simpl. unfold wrap. rewrite Z.mod_small; lia. }
    rewrite Hc. destruct (Z.eqb_spec (Z.of_nat (d - 1)) 0) as [E|E].
    + apply Hrel. intros _. done.
    + apply (Hgen s t (RUnlock (d - 1)) (lock s) (owner s) (Z.of_nat (d - 1)) (ret s)); try done.
      * by rewrite Ht.
      * right; right. by rewrite Ht.
      * by left.
      * rewrite Hown. simpl. apply Nat.ltb_lt. lia.
      * split; [simpl; lia|by left].
      * intros _. rewrite Ho, fn_lookup_insert. done.
  - specialize (Hrel (counter s) ltac:(done)). by destruct s.
Qed.

Lemma minv_unlock s t d :
  minv ol s → pcs s t = AUnlock d →
  minv ol (set_pc t (if ol then ACount d else MOut (S d)) (set_lock None s)).
Proof.
  intros I Ht. pose proof (i_local _ _ I t) as Hloc. rewrite Ht in Hloc.
  destruct Hloc as [H64 [Hd Hol]].
  assert (Ho : owner s = Some t) by (apply (i_owns _ _ I); by rewrite Ht).
  assert (Hp : ∃ p, p = (if ol then ACount d else MOut (S d)) ∧ locks p = false ∧ owns p = true ∧
    special p = false ∧ local_ok ol p ∧ (ol = true → depth p = d)).
  { eexists. split; [done|]. unfold local_ok. simpl in H64.
    destruct Hol as [Hol| ->]; [rewrite Hol|destruct ol]; simpl; split_and!; auto; lia. }
  destruct Hp as (p & <- & Hp1 & Hp2 & Hp3 & Hp4 & Hp5).
  apply (minv_ordinary s t p None (owner s) (counter s) (ret s)); auto.
  - by rewrite Ht.
  - right; left. by rewrite Ht.
  - by left.
  - by rewrite Hp2, Ho, bool_decide_true.
  - intros E. apply counter_kept; auto. right. by rewrite Hp5, Ht.
Qed.

Lemma minv_count s t d :
  minv ol s → pcs s t = ACount d →
  minv ol (set_pc t (MOut (S d)) (set_counter (wrap 64 (counter s + 1)) s)).
Proof.
  intros I Ht. pose proof (i_local _ _ I t) as Hloc. rewrite Ht in Hloc.
  destruct Hloc as [H64 [Hd Hol]].
  assert (Ho : owner s = Some t) by (apply (i_owns _ _ I); by rewrite Ht).
  apply (minv_ordinary s t (MOut (S d)) (lock s) (owner s) _ (ret s)); auto.
  - by rewrite Ht.
  - right; right. by rewrite Ht.
  - by left.
  - by rewrite Ho, bool_decide_true.
  - split; [simpl; lia|by left].
  - intros E. rewrite (i_counter _ _ I E), Ho, fn_lookup_insert, Ht. simpl.
    unfold wrap. rewrite Z.mod_small; lia.
Qed.

Lemma minv_thread_step s t s' :
  minv ol s → thread_step ol t s = Some s' → minv ol s'.
Proof.
  intros I Hs. unfold thread_step in Hs. pose proof (i_local _ _ I t) as Hloc.
  destruct (pcs s t) as [d|d|d| | | |d|d|d|d| |d|d] eqn:Ht; simplify_eq/=.
  - unfold lock_step in Hs. destruct (lock s) eqn:Hl; simplify_eq.
    apply (minv_move s t _ (Some t) (ret s)); rewrite ?Ht; try done. by left.
  - by apply minv_acquire_body.
  - by apply minv_push.
  - by apply minv_park.
  - case_decide; simplify_eq. by eapply minv_wake.
  - by apply minv_unlock.
  - by apply minv_count.
  - unfold lock_step in Hs. destruct (lock s) eqn:Hl; simplify_eq.
    apply (minv_move s t _ (Some t) (ret s)); rewrite ?Ht; try done. by left.
  - by apply minv_release_body.
  - by eapply minv_handoff_unlock.
  - assert (Hp : ∃ p, p = (if ol then RRet d else MOut d) ∧ locks p = false ∧
      owns p = (0 <? d)%nat ∧ special p = false ∧ local_ok ol p ∧ depth p = d).
    { eexists. split; [done|]. destruct Hloc as [? Hd]. unfold local_ok. simpl in *.
      destruct ol; simpl; split_and!; auto. destruct Hd as [?| ->]; [done|]. right. lia. }
    destruct Hp as (p & <- & Hp1 & Hp2 & Hp3 & Hp4 & Hp5).
    apply (minv_move s t p None (ret s)); rewrite ?Ht; try done. right; left. by rewrite Ht.
  - apply (minv_move s t _ (lock s)); rewrite ?Ht; try done.
    + right; right. by rewrite Ht.
    + destruct Hloc as [? Hd]. split; [done|]. by left.
Qed.

Lemma minv_mstep a s s' : minv ol s → mstep ol a s = Some s' → minv ol s'.
Proof.
  intros I Hs. destruct a as [t|t|t|]; simpl in Hs.
  - destruct (pcs s t) as [d| | | | | | | | | | | |] eqn:Ht; try done.
    case_decide as Hd; simplify_eq. pose proof (i_local _ _ I t) as Hloc. rewrite Ht in Hloc.
    destruct Hd as [Hd1 Hd2]. apply (minv_move s t _ (lock s) (ret s)); rewrite ?Ht; try done.
    + right; right. by rewrite Ht.
    + split; [simpl; lia|done].
  - destruct (pcs s t) as [[|d]| | | | | | | | | | | |] eqn:Ht; simplify_eq.
    pose proof (i_local _ _ I t) as Hloc. rewrite Ht in Hloc. destruct Hloc as [? Hd].
    apply (minv_move s t _ (lock s) (ret s)); rewrite ?Ht; try done.
    + right; right. by rewrite Ht.
    + split; [done|]. split; [lia|]. destruct Hd as [?|?]; [by left|right; lia].
  - by eapply minv_thread_step.
  - by eapply minv_resume.
Qed.

Lemma minv_reachable s : reachable (mstep ol) mutex_init s → minv ol s.
Proof.
  apply (invariant_reachable _ (minv ol)); [apply minv_init|]. intros a s1 s2. apply minv_mstep.
Qed.
End minv.

(** ** Progress *)

Section progress.
Context (ol : bool).
Implicit Types (s : mutex) (t : nat).

Definition internal_step s : Prop :=
  ∃ a s', (a = MResume ∨ ∃ t, a = MStep t) ∧ mstep ol a s = Some s'.

Lemma step_enabled s t :
  is_Some (thread_step ol t s) → internal_step s.
Proof. intros [s' Hs]. exists (MStep t), s'. eauto. Qed.

Lemma resume_enabled s : minv ol s → 0 < resumes s → internal_step s.
Proof.
  intros I Hr. destruct (resumes s) as [|n] eqn:E; [lia|].
  exists MResume. simpl. unfold resume_step. rewrite E. eauto.
Qed.

Lemma locked_step s t : locks (pcs s t) = true → internal_step s.
Proof.
  intros Hl. apply (step_enabled s t). unfold thread_step.
  destruct (pcs s t); try done; eauto.
Qed.

Lemma unlocked_step s t :
  lock s = None → (∀ d, pcs s t ≠ MOut d) → pcs s t ≠ AParked → internal_step s.
Proof.
  intros Hl Hm Hp. apply (step_enabled s t). unfold thread_step, lock_step. rewrite Hl.
  destruct (pcs s t); try done; eauto. by destruct (Hm d).
Qed.

Lemma owner_parked_step s t :
  minv ol s → lock s = None → owner s = Some t → pcs s t = AParked → internal_step s.
Proof.
  intros I Hl Ho Hp. destruct (decide (t ∈ waiting s)) as [Hw|Hw].
  - apply (i_wait _ _ I) in Hw as [?|[Hq|(_ & _ & Hh)]]; [congruence|..].
    + by apply (i_bq _ _ I) in Hq as [_ ?].
    + destruct Hh as [Hh|[u Hu]]; [by apply resume_enabled|].
      assert (lock s = Some u) by (apply (i_lock _ _ I); by rewrite Hu). congruence.
  - apply (step_enabled s t). unfold thread_step. rewrite Hp, decide_False by done. eauto.
Qed.

Lemma mutex_internal_progress s t :
  minv ol s → (∀ u d, pcs s u ≠ MOut (S d)) → pcs s t ≠ MOut 0 → internal_step s.
Proof.
  intros I Hcs Ht. destruct (lock s) as [u|] eqn:Hl.
  { apply (locked_step s u), (i_lock _ _ I). done. }
  destruct (decide (pcs s t = AParked)) as [Hp|Hp].
  2:{ apply (unlocked_step s t); auto. intros [|d]; [done|apply Hcs]. }
  destruct (owner s) as [o|] eqn:Ho.
  - destruct (i_owner _ _ I o Ho) as [Hx|Hx]; [|by eapply owner_parked_step].
    apply (unlocked_step s o); auto; [|by intros E; rewrite E in Hx].
    intros [|d] E; [by rewrite E in Hx|by apply (Hcs o d)].
  - destruct (i_free _ _ I Ho) as [Hq _].
    assert (t ∈ bq s) as Hin by (apply (i_bq _ _ I); rewrite Ho; auto).
    rewrite Hq in Hin. by apply not_elem_of_nil in Hin.
Qed.
End progress.

(** ** What a mutex promises

    The specification a client relies on: an owner and the uThreads blocked,
    in the order in which they will own it.  [enter] and [leave] are atomic. *)
Record amutex := mkAMutex { aowner : option nat; aqueue : list nat }.
Definition amutex_init : amutex := mkAMutex None [].

Inductive alabel : Type :=
  | AEnter (t : nat)
  | ALeave (t : nat).

Definition astep (a : alabel) (s : amutex) : option amutex :=
  match a with
  | AEnter t =>
      match aowner s with
      | None => Some (mkAMutex (Some t) (aqueue s))
      | Some o => if decide (o = t) then None else Some (mkAMutex (Some o) (aqueue s ++ [t]))
      end
  | ALeave t =>
      if decide (aowner s = Some t) then Some (mkAMutex (head (aqueue s)) (tail (aqueue s)))
      else None
  end.

(** The uThread that has decided to block and is not in the queue yet. *)
Definition entering (s : mutex) : list nat :=
  match lock s with
  | Some t => match pcs s t with APush => [t] | _ => [] end
  | None => []
  end.

Definition mutex_lock (s : mutex) : amutex := mkAMutex (owner s) (bq s ++ entering s).

(** The specification with its callers: what a call has been promised.  The
    depth is the number of acquisitions. *)
Inductive acall : Type :=
  | CIdle (d : nat)      (* in client code *)
  | CAcq (d : nat)       (* in acquire, without effect yet *)
  | CWait                (* in acquire, in the queue *)
  | CGot (d : nat)       (* in acquire, the owner *)
  | CRel (d : nat)       (* in release, without effect yet *)
  | CLeft (d : nat).     (* in release, which has taken effect *)

Record aspec := mkASpec { amx : amutex; acalls : nat → acall }.
Definition aspec_init : aspec := mkASpec amutex_init (λ _, CIdle 0).
#[export] Instance aspec_equiv : Equiv aspec := λ x y, amx x = amx y ∧ ∀ t, acalls x t = acalls y t.

Inductive mevent : Type :=
  | EAcquire (t : nat)   (* acquire is called *)
  | EEnter (t : nat)     (* ... and takes effect *)
  | EGranted (t : nat)   (* ... and returns *)
  | ERelease (t : nat)
  | ELeave (t : nat)
  | EReturned (t : nat).

(** [acquire] makes its caller the owner or the last of the queue, and returns
    only to the owner; [release] makes the first of the queue the owner, and its
    [acquire] can return.  The owner of an OwnerLock enters again, and leaves it
    with its last [release]. *)
Definition spec_step (ol : bool) (e : mevent) (s : aspec) : option aspec :=
  match e with
  | EAcquire t =>
      match acalls s t with CIdle d => Some (mkASpec (amx s) (<[t := CAcq d]> (acalls s))) | _ => None end
  | EEnter t =>
      match acalls s t with
      | CAcq d =>
          if decide (ol = true ∧ aowner (amx s) = Some t)
          then Some (mkASpec (amx s) (<[t := CGot (S d)]> (acalls s)))
          else
            m ← astep (AEnter t) (amx s);
            Some (mkASpec m (<[t := if decide (aowner m = Some t) then CGot (S d) else CWait]> (acalls s)))
      | _ => None
      end
  | EGranted t =>
      match acalls s t with
      | CGot d => if decide (aowner (amx s) = Some t) then Some (mkASpec (amx s) (<[t := CIdle d]> (acalls s))) else None
      | _ => None
      end
  | ERelease t =>
      match acalls s t with CIdle (S d) => Some (mkASpec (amx s) (<[t := CRel (S d)]> (acalls s))) | _ => None end
  | ELeave t =>
      match acalls s t with
      | CRel d =>
          if decide (ol = true ∧ 1 < d)
          then if decide (aowner (amx s) = Some t)
               then Some (mkASpec (amx s) (<[t := CLeft (d - 1)]> (acalls s))) else None
          else
            m ← astep (ALeave t) (amx s);
            Some (mkASpec m (<[t := CLeft 0]>
                    (match aowner m with Some w => <[w := CGot 1]> (acalls s) | None => acalls s end)))
      | _ => None
      end
  | EReturned t =>
      match acalls s t with CLeft d => Some (mkASpec (amx s) (<[t := CIdle d]> (acalls s))) | _ => None end
  end.

(** Where the calls of the code are. *)
Definition acall_of (s : mutex) (t : nat) : acall :=
  match pcs s t with
  | MOut d => CIdle d
  | ALock d | ABody d => CAcq d
  | APush | AUnlockW | AParked => if decide (owner s = Some t) then CGot 1 else CWait
  | AUnlock d | ACount d => CGot (S d)
  | RLock d | RBody d => CRel d
  | RHandoff => CLeft 0
  | RUnlock d | RRet d => CLeft d
  end.
Definition mutex_abs (s : mutex) : aspec := mkASpec (mutex_lock s) (acall_of s).

(** The event of a step of the code, by the program point; other steps have none. *)
Definition event_of (ol : bool) (a : mlabel) (s : mutex) : option mevent :=
  match a with
  | MAcquire t => Some (EAcquire t)
  | MRelease t => Some (ERelease t)
  | MResume => None
  | MStep t =>
      match pcs s t with
      | ABody _ => Some (EEnter t)
      | AParked | AUnlock _ => if ol then None else Some (EGranted t)
      | ACount _ => Some (EGranted t)
      | RBody _ => Some (ELeave t)
      | RHandoff | RUnlock _ => if ol then None else Some (EReturned t)
      | RRet _ => Some (EReturned t)
      | _ => None
      end
  end.

Section refinement.
Context (ol : bool).
Implicit Types (s : mutex) (t : nat).

Lemma entering_nil s t : lock s = Some t → pcs s t ≠ APush → entering s = [].
Proof. unfold entering. intros -> H. by destruct (pcs s t). Qed.
Lemma entering_unlocked s : lock s = None → entering s = [].
Proof. unfold entering. by intros ->. Qed.

Lemma entering_move s t p l q o c w r f a g v :
  minv ol s → pcs s t ≠ APush → p ≠ APush →
  lock_change s t p l →
  entering (mkMutex l q o c w (<[t:=p]> (pcs s)) r f a g v) = entering s.
Proof.
  intros I Ht Hp Hl. unfold entering. simpl.
  destruct Hl as [(E & -> & _)|[(E & -> & _)|[-> _]]].
  - rewrite E, fn_lookup_insert. by destruct p.
  - apply (i_lock _ _ I) in E as ->. by destruct (pcs s t).
  - destruct (lock s) as [t'|]; [|done]. pc_cases t' t; [|done].
    by destruct p, (pcs s t).
Qed.

(** The step makes its event on the specification, and nothing without one. *)
Definition refines_step (a : mlabel) s s' : Prop :=
  match event_of ol a s with
  | Some e => ∃ x, spec_step ol e (mutex_abs s) = Some x ∧ x ≡ mutex_abs s'
  | None => mutex_abs s ≡ mutex_abs s'
  end.

Lemma abs_equiv s s' t c m :
  mutex_lock s' = m → acall_of s' t = c → (∀ t', t' ≠ t → acall_of s' t' = acall_of s t') →
  mkASpec m (<[t := c]> (acall_of s)) ≡ mutex_abs s'.
Proof.
  intros Hm Ht Ho. split; [done|]. intros t'. simpl.
  destruct (decide (t' = t)) as [->|]; [by rewrite fn_lookup_insert|by rewrite fn_lookup_insert_ne, Ho].
Qed.
Lemma abs_same s s' t :
  mutex_lock s' = mutex_lock s → acall_of s' t = acall_of s t →
  (∀ t', t' ≠ t → acall_of s' t' = acall_of s t') → mutex_abs s ≡ mutex_abs s'.
Proof. intros Hm Ht Ho. split; [done|]. intros t'. simpl. destruct (decide (t' = t)) as [->|]; [done|by rewrite Ho]. Qed.

(** Another uThread's call looks at its own program point and at the owner. *)
Lemma acall_other s s' t p :
  pcs s' = <[t := p]> (pcs s) → owner s' = owner s → ∀ t', t' ≠ t → acall_of s' t' = acall_of s t'.
Proof. intros Hp Ho t' Hne. unfold acall_of. by rewrite Hp, Ho, fn_lookup_insert_ne. Qed.

(** Steps that touch neither the owner nor the queue. *)
Lemma refines_move a s t p l c w r f v :
  minv ol s → pcs s t ≠ APush → p ≠ APush → lock_change s t p l →
  let s' := mkMutex l (bq s) (owner s) c w (<[t:=p]> (pcs s)) r f (arrivals s) (grants s) v in
  match event_of ol a s with
  | Some e => spec_step ol e (mutex_abs s) = Some (mkASpec (mutex_lock s) (<[t := acall_of s' t]> (acall_of s)))
  | None => acall_of s' t = acall_of s t
  end → refines_step a s s'.
Proof.
  intros I Ht Hp Hl s' He. unfold refines_step.
  assert (Hm : mutex_lock s' = mutex_lock s) by (unfold mutex_lock, s'; simpl; by erewrite entering_move).
  assert (Ho : ∀ t', t' ≠ t → acall_of s' t' = acall_of s t') by (by eapply acall_other).
  destruct (event_of ol a s); [|by eapply abs_same]. eexists. split; [exact He|]. by apply abs_equiv.
Qed.

Lemma check_true s : check true s = s.
Proof. unfold check. destruct s; simpl. by rewrite orb_false_r. Qed.

Lemma refines_acquire s t d :
  minv ol s → pcs s t = ABody d → refines_step (MStep t) s (acquire_body ol t d s).
Proof.
  intros I Ht. assert (Hl : lock s = Some t) by (apply (i_lock _ _ I); by rewrite Ht).
  assert (He : entering s = []) by (eapply entering_nil; [done|by rewrite Ht]).
  unfold refines_step, event_of. rewrite Ht. unfold spec_step. simpl. unfold acall_of at 1. rewrite Ht.
  assert (Hself : ol = false → owner s ≠ Some t).
  { intros E [Ho|Ho]%(i_owner _ _ I); [|congruence]. pose proof (i_local _ _ I t) as Hloc.
    rewrite Ht in Hloc, Ho. destruct Hloc as [_ [_ [?| ->]]]; [congruence|done]. }
  unfold acquire_body. set (b := ol || _). simpl. rewrite He, app_nil_r.
  destruct (bool_decide (owner s ≠ None ∧ _)) eqn:Hb;
    [apply bool_decide_eq_true in Hb|apply bool_decide_eq_false in Hb].
  - assert (Hne : owner s ≠ Some t) by (destruct Hb as [_ [?|?]]; auto).
    rewrite decide_False by naive_solver. destruct (owner s) as [o|] eqn:Ho; [|by destruct Hb].
    rewrite decide_False by congruence. simpl. rewrite decide_False by done. eexists. split; [done|].
    apply abs_equiv.
    + unfold mutex_lock, entering. simpl. by rewrite Hl, Ho, fn_lookup_insert.
    + unfold acall_of. simpl. rewrite fn_lookup_insert, ?Ho, decide_False; done.
    + by eapply acall_other.
  - set (s' := set_pc t (AUnlock d) (set_owner (Some t) (check b s))).
    assert (Hm : mutex_lock s' = mkAMutex (Some t) (bq s)).
    { unfold mutex_lock. rewrite (entering_nil _ t); [by rewrite app_nil_r|done|]. simpl. by rewrite fn_lookup_insert. }
    assert (Hc : acall_of s' t = CGot (S d)) by (unfold acall_of; simpl; by rewrite fn_lookup_insert).
    case_decide as Hre.
    + eexists. split; [done|]. destruct Hre as [_ Ho]. apply abs_equiv; [rewrite Hm; unfold mutex_lock; by rewrite Ho, He, app_nil_r|done|].
      eapply acall_other; [done|]. by rewrite Ho.
    + assert (Ho : owner s = None) by (destruct (owner s) as [o|] eqn:Ho; [|done]; destruct ol; naive_solver).
      rewrite Ho. simpl. rewrite decide_True by done. eexists. split; [done|]. apply abs_equiv; [done|done|].
      intros t' Hne. unfold acall_of. simpl. rewrite fn_lookup_insert_ne, Ho by done.
      destruct (pcs s t') eqn:E; try done; rewrite !decide_False by congruence; done.
Qed.

(** The mutex is passed on, or becomes free. *)
Lemma refines_internalRelease s s0 t d :
  minv ol s → pcs s t = RBody d → ¬ (ol = true ∧ 1 < d) →
  lock s0 = lock s → bq s0 = bq s → pcs s0 = pcs s → refines_step (MStep t) s (internalRelease t s0).
Proof.
  intros I Ht Hd E1 E2 E3. assert (Hl : lock s = Some t) by (apply (i_lock _ _ I); by rewrite Ht).
  assert (He : entering s = []) by (eapply entering_nil; [done|by rewrite Ht]).
  assert (Ho : owner s = Some t).
  { apply (i_owns _ _ I). rewrite Ht. pose proof (i_local _ _ I t) as Hloc. rewrite Ht in Hloc.
    destruct Hloc as [_ [? _]]. simpl. by apply Nat.ltb_lt. }
  unfold refines_step, event_of. rewrite Ht. unfold spec_step. simpl. unfold acall_of at 1. rewrite Ht.
  rewrite decide_False by done. rewrite He, app_nil_r, decide_True by done. simpl. eexists. split; [done|].
  unfold internalRelease. rewrite E2. destruct (bq s) as [|w r] eqn:Hq; simpl.
  - apply abs_equiv.
    + unfold mutex_lock. rewrite (entering_nil _ t); simpl; [by rewrite E2|by rewrite E1|by rewrite fn_lookup_insert].
    + unfold acall_of. simpl. by rewrite fn_lookup_insert.
    + intros t' Hne. unfold acall_of. simpl. rewrite E3, fn_lookup_insert_ne, Ho by done.
      destruct (pcs s t'); try done; rewrite !decide_False by congruence; done.
  - assert (Hw : pcs s w = AParked).
    { assert (w ∈ bq s) as [[Hw|Hw] _]%(i_bq _ _ I) by (rewrite Hq; set_solver); [|done].
      assert (lock s = Some w) by (apply (i_lock _ _ I); by rewrite Hw). congruence. }
    assert (w ≠ t) by congruence. split; simpl.
    + unfold mutex_lock. rewrite (entering_nil _ t); simpl; [by rewrite app_nil_r|by rewrite E1|by rewrite fn_lookup_insert].
    + intros t'. unfold acall_of at 2. simpl. rewrite E3. destruct (decide (t' = t)) as [->|Hne].
      { by rewrite !fn_lookup_insert. }
      rewrite !(fn_lookup_insert_ne _ t) by done. destruct (decide (t' = w)) as [->|Hnw].
      { by rewrite fn_lookup_insert, Hw, decide_True. }
      rewrite fn_lookup_insert_ne by done. unfold acall_of. rewrite Ho.
      destruct (pcs s t'); try done; rewrite !decide_False by congruence; done.
Qed.

Lemma refines_release s t d :
  minv ol s → pcs s t = RBody d → refines_step (MStep t) s (release_body ol t d s).
Proof.
  intros I Ht. assert (Ho : owner s = Some t).
  { apply (i_owns _ _ I). rewrite Ht. pose proof (i_local _ _ I t) as Hloc. rewrite Ht in Hloc.
    destruct Hloc as [_ [? _]]. simpl. by apply Nat.ltb_lt. }
  pose proof (i_local _ _ I t) as Hloc. rewrite Ht in Hloc. destruct Hloc as [Hw [Hd Hdo]]. simpl in Hw.
  unfold release_body. rewrite bool_decide_true, check_true by done. pose proof I as I'. destruct ol eqn:Eol; rewrite <- Eol in I'.
  2: { eapply (refines_internalRelease s s t d); try done. intros [? _]. congruence. }
  cbv zeta. pose proof (i_counter _ _ I eq_refl) as Hc. rewrite Ho, Ht in Hc. simpl in Hc. simpl.
  assert (Hwr : wrap 64 (counter s - 1) = (Z.of_nat d - 1)%Z).
  { rewrite Hc. unfold wrap. apply Z.mod_small. lia. }
  rewrite Hwr. destruct (Z.eqb_spec (Z.of_nat d - 1) 0) as [E|E].
  - eapply refines_internalRelease; try done. lia.
  - apply (refines_move (MStep t) s t _ (lock s)); rewrite ?Ht; try done.
    + right; right. by rewrite Ht.
    + simpl. rewrite Ht. simpl. unfold acall_of. simpl. rewrite Ht, fn_lookup_insert.
      rewrite decide_True by (split; [done|lia]). by rewrite decide_True.
Qed.

(** The event of a step that touches neither the owner nor the queue. *)
Ltac move_event t Ht :=
  simpl; rewrite ?Ht; destruct ol; unfold spec_step, mutex_abs, acall_of; simpl;
  rewrite ?Ht, ?fn_lookup_insert, ?decide_True by done; simpl.

Lemma mutex_step_refines a s s' :
  minv ol s → mstep ol a s = Some s' → refines_step a s s'.
Proof.
  intros I Hs.
  assert (Hown : ∀ t, owns (pcs s t) = true → owner s = Some t) by apply (i_owns _ _ I).
  destruct a as [t|t|t|]; simpl in Hs.
  - destruct (pcs s t) eqn:Ht; try done. case_decide; simplify_eq.
    apply refines_move; rewrite ?Ht; try done; [right; right; by rewrite Ht|].
    by move_event t Ht.
  - destruct (pcs s t) as [[|d]| | | | | | | | | | | |] eqn:Ht; simplify_eq.
    apply refines_move; rewrite ?Ht; try done; [right; right; by rewrite Ht|].
    by move_event t Ht.
  - unfold thread_step in Hs.
    destruct (pcs s t) as [d|d|d| | | |d|d|d|d| |d|d] eqn:Ht; simplify_eq/=.
    + unfold lock_step in Hs. destruct (lock s) eqn:Hl; simplify_eq.
      apply (refines_move _ s t _ (Some t)); rewrite ?Ht; try done; [by left|].
      by move_event t Ht.
    + by apply refines_acquire.
    + assert (Hl : lock s = Some t) by (apply (i_lock _ _ I); by rewrite Ht).
      unfold refines_step. simpl. rewrite Ht. apply (abs_same _ _ t).
      * unfold mutex_lock, entering. simpl. rewrite Hl, fn_lookup_insert, Ht. by rewrite app_nil_r.
      * unfold acall_of. simpl. by rewrite fn_lookup_insert, Ht.
      * by eapply acall_other.
    + apply (refines_move _ s t _ None); rewrite ?Ht; try done; [right; left; by rewrite Ht|].
      by move_event t Ht.
    + case_decide as Hw; simplify_eq. assert (Ho : owner s = Some t).
      { destruct (decide (owner s = Some t)) as [|Hne]; [done|]. destruct Hw. apply (i_wait _ _ I). right; left.
        apply (i_bq _ _ I). auto. }
      apply (refines_move _ s t _ (lock s)); rewrite ?Ht; try done; [by destruct ol| |].
      * right; right. rewrite Ht. by destruct ol.
      * by move_event t Ht.
    + assert (Ho : owner s = Some t) by (apply Hown; by rewrite Ht).
      apply (refines_move _ s t _ None); rewrite ?Ht; try done; [by destruct ol| |].
      * right; left. rewrite Ht. by destruct ol.
      * by move_event t Ht.
    + assert (Ho : owner s = Some t) by (apply Hown; by rewrite Ht).
      apply (refines_move _ s t _ (lock s)); rewrite ?Ht; try done; [right; right; by rewrite Ht|].
      by move_event t Ht.
    + unfold lock_step in Hs. destruct (lock s) eqn:Hl; simplify_eq.
      apply (refines_move _ s t _ (Some t)); rewrite ?Ht; try done; [by left|].
      by move_event t Ht.
    + by apply refines_release.
    + apply (refines_move _ s t _ None); rewrite ?Ht; try done; [by destruct ol| |].
      * right; left. rewrite Ht. by destruct ol.
      * by move_event t Ht.
    + apply (refines_move _ s t _ None); rewrite ?Ht; try done; [by destruct ol| |].
      * right; left. rewrite Ht. by destruct ol.
      * by move_event t Ht.
    + apply (refines_move _ s t _ (lock s)); rewrite ?Ht; try done; [right; right; by rewrite Ht|].
      by move_event t Ht.
  - unfold resume_step in Hs. destruct (resumes s); simplify_eq.
    unfold refines_step. simpl. by destruct (owner s) eqn:Ho; split; simpl; unfold mutex_lock, entering, acall_of; simpl; rewrite ?Ho.
Qed.
End refinement.

(** C9. Mutual exclusion: no two uThreads hold a Mutex (or an OwnerLock) at
    the same time, and the one that does is its [owner]. *)
Theorem mutex_exclusion ol s t u :
  reachable (mstep ol) mutex_init s →
  0 < depth (pcs s t) → 0 < depth (pcs s u) → t = u ∧ owner s = Some t.
Proof.
  intros Hr Ht Hu. pose proof (minv_reachable _ _ Hr) as I.
  assert (Ho : ∀ v, 0 < depth (pcs s v) → owner s = Some v).
  { intros v Hv. apply (i_owns _ _ I). apply Nat.ltb_lt in Hv. by destruct (pcs s v). }
  apply Ho in Ht, Hu. naive_solver.
Qed.

(** No assertion of [Mutex] or [OwnerLock] fails and [signal] never
    resumes through a null [owner]: when the [owner] it reads again after
    unlocking is resumed, that uThread is parked and WAITING, so the
    [resume] is not lost. *)
Theorem mutex_no_fault ol s :
  reachable (mstep ol) mutex_init s →
  failed s = false ∧
  (0 < resumes s → ∃ w, owner s = Some w ∧ pcs s w = AParked ∧ w ∈ waiting s).
Proof.
  intros Hr. pose proof (minv_reachable _ _ Hr) as I. split; [apply (i_ok _ _ I)|].
  intros Hx. destruct (i_hand _ _ I) as (w & Hw & Hp); [by left|]. exists w. split_and!; try done.
  apply (i_wait _ _ I). right; right. split_and!; try done. by left.
Qed.

(** The lock is passed on first come, first served: the uThreads it has
    been passed to are, in order, the first ones that blocked, and the queue
    holds the others. *)
Theorem mutex_fifo ol s :
  reachable (mstep ol) mutex_init s →
  grants s ++ bq s = arrivals s ∧ NoDup (bq s) ∧
  (∀ t, t ∈ bq s → owner s ≠ None ∧ owner s ≠ Some t).
Proof.
  intros Hr. pose proof (minv_reachable _ _ Hr) as I.
  split_and!; [by rewrite (i_fifo _ _ I)|apply (i_nodup _ _ I)|].
  intros t Ht. split; [|by apply (i_bq _ _ I) in Ht as [_ ?]].
  intros Ho. destruct (i_free _ _ I Ho) as [Hq _]. rewrite Hq in Ht. by apply not_elem_of_nil in Ht.
Qed.

(** The mutex never gets stuck: as long as no uThread is in client code
    holding it, and some uThread is inside [acquire] or [release], some step
    of the mutex can be taken. *)
Theorem mutex_progress ol s t :
  reachable (mstep ol) mutex_init s →
  (∀ u d, pcs s u ≠ MOut (S d)) → pcs s t ≠ MOut 0 → internal_step ol s.
Proof. intros Hr. apply mutex_internal_progress. by apply minv_reachable. Qed.

(** [OwnerLock::counter] is the number of acquisitions the owner holds,
    at every point where the owner runs client code. *)
Theorem ownerlock_counter s t d :
  reachable (mstep true) mutex_init s → pcs s t = MOut (S d) →
  owner s = Some t ∧ counter s = Z.of_nat (S d).
Proof.
  intros Hr Ht. pose proof (minv_reachable _ _ Hr) as I.
  assert (Ho : owner s = Some t) by (apply (i_owns _ _ I); by rewrite Ht).
  split; [done|]. by rewrite (i_counter _ _ I eq_refl), Ho, Ht.
Qed.

(** C12. Refinement: [acquire] and [release], with their calls and returns, are
    those of the specification.  The code starts in its initial state; the step
    that tests and sets [owner] enters the specification (as the owner, or as the
    last of the queue), [acquire] returns only at a step at which its caller is
    the owner there, the step that passes [owner] on or clears it leaves the
    specification, and every other step is invisible. *)
Theorem mutex_refines_spec ol :
  mutex_abs mutex_init ≡ aspec_init ∧
  ∀ s a s', reachable (mstep ol) mutex_init s → mstep ol a s = Some s' →
    match event_of ol a s with
    | Some e => ∃ x, spec_step ol e (mutex_abs s) = Some x ∧ x ≡ mutex_abs s'
    | None => mutex_abs s ≡ mutex_abs s'
    end.
Proof.
  split; [done|]. intros s a s' Hr Hs. apply (mutex_step_refines ol a s s'); [by apply minv_reachable|done].
Qed.

(** The result of [OwnerLock::release] is read after the lock has been
    passed on: here uThread 1 releases completely and is told 1, the count of
    the next owner, where the documentation promises 0. *)
Theorem ownerlock_release_result :
  ∃ s, run (mstep true)
         ([MAcquire 1; MStep 1; MStep 1; MStep 1; MStep 1] ++
          [MAcquire 2; MStep 2; MStep 2; MStep 2; MStep 2] ++
          [MRelease 1; MStep 1; MStep 1; MStep 1; MResume; MStep 2; MStep 2; MStep 1])
         mutex_init = Some s ∧
    pcs s 1 = MOut 0 ∧ ret s 1 = 1%Z ∧ owner s = Some 2.
Proof. eexists. split; [by vm_compute|]. by vm_compute. Qed.

(** A run in which uThread 2 blocks on a Mutex held by uThread 1. *)
Definition mutex_demo : list mlabel :=
  [MAcquire 1; MStep 1; MStep 1; MStep 1; MAcquire 2; MStep 2; MStep 2; MStep 2; MStep 2;
   MRelease 1; MStep 1; MStep 1; MStep 1].
Definition mutex_demo_state (n : nat) : mutex :=
  default mutex_init (run (mstep false) (take n mutex_demo) mutex_init).

Lemma mutex_exclusion_witness :
  pcs (mutex_demo_state 4) 1 = MOut 1 ∧ (1 = 1 ∧ owner (mutex_demo_state 4) = Some 1).
Proof.
  split; [by vm_compute|]. apply (mutex_exclusion false (mutex_demo_state 4) 1 1).
  - exists (take 4 mutex_demo). by vm_compute.
  - apply (bool_decide_unpack _). by vm_compute.
  - apply (bool_decide_unpack _). by vm_compute.
Defined.

Lemma mutex_no_fault_witness :
  resumes (mutex_demo_state 13) = 1 ∧ failed (mutex_demo_state 13) = false ∧
  (0 < resumes (mutex_demo_state 13) → ∃ w, owner (mutex_demo_state 13) = Some w ∧
     pcs (mutex_demo_state 13) w = AParked ∧ w ∈ waiting (mutex_demo_state 13)).
Proof.
  split; [by vm_compute|]. apply (mutex_no_fault false). exists mutex_demo. by vm_compute.
Defined.

Lemma mutex_fifo_witness :
  let s := mutex_demo_state 9 in
  bq s = [2] ∧ grants s ++ bq s = arrivals s ∧ NoDup (bq s) ∧
  (∀ t, t ∈ bq s → owner s ≠ None ∧ owner s ≠ Some t).
Proof.
  intros s. split; [by vm_compute|]. apply (mutex_fifo false).
  exists (take 9 mutex_demo). by vm_compute.
Defined.

Lemma mutex_progress_witness : internal_step false (mutex_demo_state 13).
Proof.
  apply (mutex_progress false (mutex_demo_state 13) 2).
  - exists mutex_demo. by vm_compute.
  - intros u d. destruct u as [|[|[|u]]]; by vm_compute.
  - by vm_compute.
Defined.

Lemma ownerlock_counter_witness :
  let s := default mutex_init (run (mstep true)
    [MAcquire 1; MStep 1; MStep 1; MStep 1; MStep 1; MAcquire 1; MStep 1; MStep 1; MStep 1; MStep 1]
    mutex_init) in
  owner s = Some 1 ∧ counter s = Z.of_nat 2.
Proof.
  intros s. apply (ownerlock_counter s 1 1).
  - exists [MAcquire 1; MStep 1; MStep 1; MStep 1; MStep 1;
            MAcquire 1; MStep 1; MStep 1; MStep 1; MStep 1]. by vm_compute.
  - by vm_compute.
Defined.

Lemma mutex_refines_spec_witness :
  let s := mutex_demo_state 11 in
  let s' := mutex_demo_state 12 in
  event_of false (MStep 1) s = Some (ELeave 1) ∧
  (amx (mutex_abs s) = mkAMutex (Some 1) [2] ∧ acalls (mutex_abs s) 2 = CWait) ∧
  (amx (mutex_abs s') = mkAMutex (Some 2) [] ∧ acalls (mutex_abs s') 2 = CGot 1) ∧
  ∃ x, spec_step false (ELeave 1) (mutex_abs s) = Some x ∧ x ≡ mutex_abs s'.
Proof.
  intros s s'. split; [by vm_compute|]. split; [by vm_compute|]. split; [by vm_compute|].
  destruct (mutex_refines_spec false) as [_ H].
  apply (H s (MStep 1) s').
  - exists (take 11 mutex_demo). by vm_compute.
  - by vm_compute.
Defined.
