(* ===== verification/MutexClient.v ===== *)
(** * What the clients of a Mutex rely on

    ConditionVariable, Semaphore and the join protocol of uThread call
    [Mutex::acquire] and [Mutex::release].  Their proofs use only the
    specification [amutex] that the Mutex file proves of the code; this file
    states the discipline such a client keeps, once for all of them: a
    program counter of the client is inside a critical section ([crit]),
    blocked in [acquire] ([blk]), or neither. *)

From stdpp Require Import functions.
From S2P Require Import Prelude Mutex.

(** What a client says about its program counters. *)
Class MutexClient (PC : Type) := {
  crit : PC → bool;      (* owns the mutex *)
  blk : PC → bool;       (* blocked in acquire, or passed the lock there *)
  crit_blk : ∀ p, crit p = true → blk p = false
}.

Section client.
Context `{MutexClient PC}.
Implicit Types (m : amutex) (pcs : nat → PC) (t u : nat) (p : PC).

Record mx_ok m pcs : Prop := {
  mx_crit : ∀ t, crit (pcs t) = true → aowner m = Some t;
  mx_owner : ∀ t, aowner m = Some t → crit (pcs t) = true ∨ blk (pcs t) = true;
  mx_queue : ∀ t, t ∈ aqueue m ↔ blk (pcs t) = true ∧ aowner m ≠ Some t;
  mx_nodup : NoDup (aqueue m);
  mx_free : aowner m = None → aqueue m = []
}.

Lemma mx_ok_init pcs : (∀ t, crit (pcs t) = false ∧ blk (pcs t) = false) → mx_ok amutex_init pcs.
Proof.
  intros Hp. constructor; simpl; try done.
  - intros t Ht. by rewrite (proj1 (Hp t)) in Ht.
  - intros t. rewrite (proj2 (Hp t)). set_solver.
  - constructor.
Qed.

(** Two uThreads are never both in their critical sections. *)
Lemma mx_unique m pcs t u :
  mx_ok m pcs → crit (pcs t) = true → crit (pcs u) = true → t = u.
Proof. intros I Ht%(mx_crit _ _ I) Hu%(mx_crit _ _ I). congruence. Qed.

(** A step that neither enters nor leaves. *)
Lemma mx_ok_stay m pcs t p :
  mx_ok m pcs → crit p = crit (pcs t) → blk p = blk (pcs t) → mx_ok m (<[t := p]> pcs).
Proof.
  intros I Hc Hb. destruct I. constructor; try done.
  - intros u. pc_cases u t; [rewrite Hc; auto|auto].
  - intros u Hu. pc_cases u t; [rewrite Hc, Hb; auto|auto].
  - intros u. rewrite mx_queue0. pc_cases u t; [by rewrite Hb|done].
Qed.

(** [acquire] called: the lock is taken, or the uThread queues for it. *)
Lemma mx_ok_enter m pcs t p m' :
  mx_ok m pcs → crit (pcs t) = false → blk (pcs t) = false →
  astep (AEnter t) m = Some m' →
  (aowner m' = Some t → crit p = true) → (aowner m' ≠ Some t → blk p = true) →
  mx_ok m' (<[t := p]> pcs).
Proof.
  intros I Hc Hb Hs Hp1 Hp2. simpl in Hs.
  assert (Hno : aowner m ≠ Some t).
  { intros [E|E]%(mx_owner _ _ I); congruence. }
  assert (Hnq : t ∉ aqueue m) by (rewrite (mx_queue _ _ I), Hb; naive_solver).
  pose proof (crit_blk p) as Hcb.
  destruct I. destruct (aowner m) as [o|] eqn:Ho.
  - rewrite decide_False in Hs by congruence. simplify_eq/=.
    assert (Hbp : blk p = true) by (apply Hp2; congruence).
    assert (Hcp : crit p = false) by (destruct (crit p); [by rewrite Hcb in Hbp|done]).
    constructor; simpl; try done.
    + intros u. pc_cases u t; [congruence|auto].
    + intros u Hu. pc_cases u t; [congruence|auto].
    + intros u. rewrite elem_of_app, list_elem_of_singleton, mx_queue0.
      pc_cases u t; naive_solver.
    + apply NoDup_app. split_and!; [done|set_solver|apply NoDup_singleton].
  - simplify_eq/=. specialize (Hp1 eq_refl). rewrite (mx_free0 eq_refl) in *.
    constructor; simpl; try done.
    + intros u. pc_cases u t; [done|]. intros Hu%mx_crit0. done.
    + intros u [= <-]. rewrite fn_lookup_insert. auto.
    + intros u. rewrite mx_queue0. pc_cases u t; [rewrite (Hcb Hp1); naive_solver|naive_solver].
Qed.

(** The uThread finds that the lock has been passed to it. *)
Lemma mx_ok_granted m pcs t p :
  mx_ok m pcs → blk (pcs t) = true → aowner m = Some t → crit p = true →
  mx_ok m (<[t := p]> pcs).
Proof.
  intros I Hb Ho Hp. pose proof (crit_blk p Hp) as Hbp. destruct I. constructor; try done.
  - intros u. pc_cases u t; [done|auto].
  - intros u Hu. pc_cases u t; [auto|auto].
  - intros u. rewrite mx_queue0. pc_cases u t; [rewrite Hbp; naive_solver|done].
Qed.

(** [release]: the lock is passed to the first uThread blocked, or is free. *)
Lemma mx_ok_leave m pcs t p m' :
  mx_ok m pcs → crit (pcs t) = true → astep (ALeave t) m = Some m' →
  crit p = false → blk p = false → mx_ok m' (<[t := p]> pcs).
Proof.
  intros I Hc Hs Hcp Hbp. simpl in Hs. case_decide as Ho; simplify_eq.
  pose proof (crit_blk _ Hc) as Hbt.
  assert (Hnc : ∀ u, u ≠ t → crit (pcs u) = false).
  { intros u Hu. destruct (crit (pcs u)) eqn:E; [|done]. by destruct Hu; eapply mx_unique. }
  destruct I. destruct (aqueue m) as [|w r] eqn:Hq; constructor; simpl; try done.
  - intros u. pc_cases u t; [congruence|]. rewrite Hnc; done.
  - intros u. rewrite mx_queue0. pc_cases u t; [rewrite Hbt, Hbp; naive_solver|]. naive_solver.
  - intros u. pc_cases u t; [congruence|]. rewrite Hnc; done.
  - intros u [= <-]. right. assert (w ∈ w :: r) as Hw by set_solver.
    apply mx_queue0 in Hw as [Hw ?]. by rewrite fn_lookup_insert_ne by congruence.
  - apply NoDup_cons in mx_nodup0 as [Hwr _]. intros u. pc_cases u t.
    + rewrite Hbp. split; [|by intros [? _]]. intros Hin.
      assert (t ∈ w :: r) as Hin' by set_solver. apply mx_queue0 in Hin' as [_ ?]. congruence.
    + split.
      * intros Hin. assert (u ∈ w :: r) as Hin' by set_solver.
        apply mx_queue0 in Hin' as [? _]. split; [done|]. intros [= <-]. done.
      * intros [Hb Hne]. assert (u ∈ w :: r) as Hin by (apply mx_queue0; split; congruence).
        apply elem_of_cons in Hin as [->|?]; done.
  - by apply NoDup_cons in mx_nodup0 as [_ ?].
Qed.

(** The mutex gives no reason to be stuck: someone in its critical section,
    someone the lock was passed to, or a free lock. *)
Lemma mx_not_stuck m pcs t :
  mx_ok m pcs → blk (pcs t) = true →
  ∃ u, crit (pcs u) = true ∨ (blk (pcs u) = true ∧ aowner m = Some u).
Proof.
  intros I Ht. destruct (aowner m) as [o|] eqn:Ho.
  - exists o. destruct (mx_owner _ _ I o Ho); auto.
  - assert (t ∈ aqueue m) as Hin by (apply (mx_queue _ _ I); rewrite Ho; auto).
    rewrite (mx_free _ _ I Ho) in Hin. by apply not_elem_of_nil in Hin.
Qed.

Lemma mx_leave_enabled m pcs t :
  mx_ok m pcs → crit (pcs t) = true → is_Some (astep (ALeave t) m).
Proof. intros I Ht%(mx_crit _ _ I). simpl. rewrite decide_True by done. eauto. Qed.

Lemma mx_enter_enabled m pcs t :
  mx_ok m pcs → crit (pcs t) = false → blk (pcs t) = false → is_Some (astep (AEnter t) m).
Proof.
  intros I Hc Hb. simpl. destruct (aowner m) as [o|] eqn:Ho; [|eauto].
  rewrite decide_False; [eauto|]. intros ->. destruct (mx_owner _ _ I t Ho); congruence.
Qed.
End client.
