(* ===== verification/WaitQueue.v ===== *)
(** * Blocking on a BlockingQueue under a Mutex

    [BlockingQueue::suspend(Mutex&)], its [postSwitchFunc] and
    [BlockingQueue::signal(Mutex&)], as ConditionVariable and Semaphore use
    them: a uThread that holds the mutex becomes WAITING and is switched out,
    is queued, and the mutex is released for it; a uThread that holds the
    mutex takes the first one off the queue and resumes it.  The invariant and
    its preservation are stated once, for any client. *)

From stdpp Require Import functions.
From S2P Require Import Prelude Mutex MutexClient.

(** The part a program counter plays. *)
Inductive wrole : Type :=
  | RNone
  | RPush              (* WAITING, about to be queued by postSwitchFunc *)
  | RUnl               (* queued, postSwitchFunc is to release the mutex *)
  | RPark              (* switched out *)
  | RSig (w : nat).    (* has taken w off the queue, is to resume it *)

#[export] Instance wrole_eq_dec : EqDecision wrole.
Proof. solve_decision. Defined.

Class WaitClient (PC : Type) `{MutexClient PC} := {
  role : PC → wrole;
  push_crit : ∀ p, role p = RPush → crit p = true;
  unl_crit : ∀ p, role p = RUnl → crit p = true
}.

Section waitqueue.
Context `{WaitClient PC}.
Implicit Types (pcs : nat → PC) (t u w : nat) (p : PC) (bq : list nat) (wait : gset nat).

(** [bq] is the queue, [wait] the uThreads whose state is WAITING. *)
Record wq_ok bq wait pcs : Prop := {
  q_in : ∀ t, t ∈ bq → role (pcs t) = RUnl ∨ role (pcs t) = RPark;
  q_unl : ∀ t, role (pcs t) = RUnl → t ∈ bq;
  q_nodup : NoDup bq;
  q_wait : ∀ t, t ∈ wait ↔ role (pcs t) = RPush ∨ t ∈ bq ∨ ∃ u, role (pcs u) = RSig t;
  q_sig : ∀ u w, role (pcs u) = RSig w → role (pcs w) = RPark ∧ w ∉ bq;
  q_once : ∀ u u' w, role (pcs u) = RSig w → role (pcs u') = RSig w → u = u'
}.

Lemma wq_ok_init pcs : (∀ t, role (pcs t) = RNone) → wq_ok [] ∅ pcs.
Proof.
  intros Hp. constructor.
  - intros t Ht. by apply not_elem_of_nil in Ht.
  - intros t. by rewrite Hp.
  - constructor.
  - intros t. split; [set_solver|]. intros [Ht|[Ht|[u Hu]]];
      [by rewrite Hp in Ht|by apply not_elem_of_nil in Ht|by rewrite Hp in Hu].
  - intros u w Hu. by rewrite Hp in Hu.
  - intros u u' w Hu. by rewrite Hp in Hu.
Qed.

(** The role of [t] after a step of [t]. *)
Lemma role_insert pcs t p u r :
  role ((<[t := p]> pcs) u) = r ↔ (u = t ∧ role p = r) ∨ (u ≠ t ∧ role (pcs u) = r).
Proof. pc_cases u t; naive_solver. Qed.

Lemma wq_ok_stay bq wait pcs t p :
  wq_ok bq wait pcs → role p = role (pcs t) → wq_ok bq wait (<[t := p]> pcs).
Proof.
  intros I Hr. assert (Hs : ∀ u, role ((<[t := p]> pcs) u) = role (pcs u)).
  { intros u. by pc_cases u t. }
  destruct I. constructor; try done; setoid_rewrite Hs; done.
Qed.

(** A uThread outside the queue has no part in it. *)
Lemma wq_none bq wait pcs t :
  wq_ok bq wait pcs → role (pcs t) = RNone → t ∉ bq ∧ t ∉ wait ∧ ∀ u, role (pcs u) ≠ RSig t.
Proof.
  intros I Ht. assert (Hq : t ∉ bq) by (intros [?|?]%(q_in _ _ _ I); congruence).
  assert (Hs : ∀ u, role (pcs u) ≠ RSig t) by (intros u [? _]%(q_sig _ _ _ I); congruence).
  split_and!; [done| |done]. rewrite (q_wait _ _ _ I). intros [?|[?|[u ?]]]; [congruence|done|].
  by eapply Hs.
Qed.

(** [uThread::suspend]: WAITING, and switched out. *)
Lemma wq_ok_suspend bq wait pcs t p :
  wq_ok bq wait pcs → role (pcs t) = RNone → role p = RPush →
  wq_ok bq ({[t]} ∪ wait) (<[t := p]> pcs).
Proof.
  intros I Ht Hp. destruct (wq_none _ _ _ _ I Ht) as (Hq & _ & _). destruct I.
  constructor; try done; setoid_rewrite role_insert.
  - intros u Hu. assert (u ≠ t) by congruence. destruct (q_in0 u Hu); auto.
  - intros u [[-> E]|[Hne E]]; [congruence|auto].
  - intros u. rewrite elem_of_union, elem_of_singleton, q_wait0. split.
    + intros [->|[?|[?|[v ?]]]]; [auto| | |].
      * left. right. split; [|done]. intros ->. congruence.
      * auto.
      * right; right. exists v. right. split; [|done]. intros ->. congruence.
    + intros [[[-> _]|[_ ?]]|[?|[v [[-> ?]|[_ ?]]]]]; [auto|auto|auto|congruence|]. eauto 6.
  - intros u w [[-> E]|[Hne E]]; [congruence|]. destruct (q_sig0 u w E) as [? ?].
    split; [right|done]. split; [|done]. intros ->. congruence.
  - intros u u' w [[-> E]|[Hne E]] [[-> E']|[Hne' E']]; try congruence. eauto.
Qed.

(** [postSwitchFunc]: [queue.push_back( *utt )]. *)
Lemma wq_ok_push bq wait pcs t p :
  wq_ok bq wait pcs → role (pcs t) = RPush → role p = RUnl →
  wq_ok (bq ++ [t]) wait (<[t := p]> pcs).
Proof.
  intros I Ht Hp. assert (Hq : t ∉ bq) by (intros [?|?]%(q_in _ _ _ I); congruence).
  destruct I. constructor; try setoid_rewrite role_insert; try setoid_rewrite elem_of_app;
    try setoid_rewrite list_elem_of_singleton.
  - intros u [Hu| ->]; [|auto]. assert (u ≠ t) by congruence. destruct (q_in0 u Hu); auto.
  - intros u [[-> E]|[Hne E]]; [auto|auto].
  - apply NoDup_app. split_and!; [done|set_solver|apply NoDup_singleton].
  - intros u. rewrite q_wait0. split.
    + intros [?|[?|[v ?]]]; [|auto|].
      * destruct (decide (u = t)) as [->|]; auto.
      * right; right. exists v. right. split; [|done]. intros ->. congruence.
    + intros [[[-> ?]|[_ ?]]|[[?| ->]|[v [[-> ?]|[_ ?]]]]]; try congruence; eauto.
  - intros u w [[-> E]|[Hne E]]; [congruence|]. destruct (q_sig0 u w E) as [? ?].
    assert (w ≠ t) by congruence. split; [auto|]. naive_solver.
  - intros u u' w [[-> E]|[Hne E]] [[-> E']|[Hne' E']]; try congruence. eauto.
Qed.

(** [postSwitchFunc] has released the mutex. *)
Lemma wq_ok_park bq wait pcs t p :
  wq_ok bq wait pcs → role (pcs t) = RUnl → role p = RPark → wq_ok bq wait (<[t := p]> pcs).
Proof.
  intros I Ht Hp. pose proof (q_unl _ _ _ I t Ht) as Hq. destruct I.
  constructor; try done; setoid_rewrite role_insert.
  - intros u Hu. destruct (decide (u = t)) as [->|]; [auto|]. destruct (q_in0 u Hu); auto.
  - intros u [[-> E]|[Hne E]]; auto.
  - intros u. rewrite q_wait0. split.
    + intros [?|[?|[v ?]]]; [|auto|].
      * left. right. split; [|done]. intros ->. congruence.
      * right; right. exists v. right. split; [|done]. intros ->. congruence.
    + intros [[[-> ?]|[_ ?]]|[?|[v [[-> ?]|[_ ?]]]]]; try congruence; eauto.
  - intros u w [[-> E]|[Hne E]]; [congruence|]. destruct (q_sig0 u w E) as [? ?].
    assert (w ≠ t) by congruence. auto.
  - intros u u' w [[-> E]|[Hne E]] [[-> E']|[Hne' E']]; try congruence. eauto.
Qed.

(** A uThread that is no longer WAITING runs again. *)
Lemma wq_ok_wake bq wait pcs t p :
  wq_ok bq wait pcs → role (pcs t) = RPark → t ∉ wait → role p = RNone →
  wq_ok bq wait (<[t := p]> pcs) ∧ t ∉ bq.
Proof.
  intros I Ht Hw Hp. rewrite (q_wait _ _ _ I) in Hw.
  assert (Hq : t ∉ bq) by (intros Hx; apply Hw; auto).
  assert (Hs : ∀ u, role (pcs u) ≠ RSig t) by (intros u Hx; apply Hw; eauto).
  split; [|done]. destruct I. constructor; try done; setoid_rewrite role_insert.
  - intros u Hu. assert (u ≠ t) by congruence. destruct (q_in0 u Hu); auto.
  - intros u [[-> E]|[Hne E]]; [congruence|auto].
  - intros u. rewrite q_wait0. split.
    + intros [?|[?|[v ?]]]; [|auto|].
      * left. right. split; [|done]. intros ->. congruence.
      * right; right. exists v. right. split; [|done]. intros ->. congruence.
    + intros [[[-> ?]|[_ ?]]|[?|[v [[-> ?]|[_ ?]]]]]; try congruence; eauto.
  - intros u w [[-> E]|[Hne E]]; [congruence|]. destruct (q_sig0 u w E) as [? ?].
    split; [right|done]. split; [|done]. intros ->. by apply (Hs u).
  - intros u u' w [[-> E]|[Hne E]] [[-> E']|[Hne' E']]; try congruence. eauto.
Qed.

(** [signal] takes the first uThread off the queue. *)
Lemma wq_ok_signal m wait pcs t p w r :
  wq_ok (w :: r) wait pcs → mx_ok m pcs → crit (pcs t) = true → role (pcs t) = RNone →
  role p = RSig w →
  wq_ok r wait (<[t := p]> pcs) ∧ role (pcs w) = RPark ∧ w ≠ t ∧ w ∉ r.
Proof.
  intros I Hm Hc Ht Hp.
  assert (Hw : role (pcs w) = RPark).
  { destruct (q_in _ _ _ I w) as [Hw|Hw]; [set_solver| |done].
    assert (w = t) by (eapply mx_unique; [done|by apply unl_crit|done]). congruence. }
  assert (Hwt : w ≠ t) by congruence. destruct I.
  apply NoDup_cons in q_nodup0 as [Hwr Hnd].
  assert (Hns : ∀ u, role (pcs u) ≠ RSig w) by (intros u [_ ?]%q_sig0; set_solver).
  split_and!; try done. constructor; try done; setoid_rewrite role_insert.
  - intros u Hu. destruct (q_in0 u) as [?|?]; [set_solver|..].
    + left. right. split; [|done]. intros ->. congruence.
    + right. right. split; [|done]. intros ->. congruence.
  - intros u [[-> E]|[Hne E]]; [congruence|]. apply q_unl0 in E as Hin.
    apply elem_of_cons in Hin as [->|]; [congruence|done].
  - intros u. rewrite q_wait0, elem_of_cons. split.
    + intros [?|[[->|?]|[v ?]]].
      * left. right. split; [|done]. intros ->. congruence.
      * right; right. exists t. auto.
      * auto.
      * right; right. exists v. right. split; [|done]. intros ->. congruence.
    + intros [[[-> ?]|[_ ?]]|[?|[v [[-> E]|[_ ?]]]]]; [congruence|auto|auto| |eauto].
      rewrite Hp in E. injection E as ->. auto.
  - intros u v [[-> E]|[Hne E]].
    + rewrite Hp in E. injection E as <-. auto.
    + destruct (q_sig0 u v E) as [? Hv]. split; [right; split; [congruence|done]|set_solver].
  - intros u u' v [[-> E]|[Hne E]] [[-> E']|[Hne' E']]; [done|..|eauto];
      rewrite Hp in *; simplify_eq; by edestruct Hns.
Qed.

(** [owner->resume()]. *)
Lemma wq_ok_resume bq wait pcs t p w :
  wq_ok bq wait pcs → role (pcs t) = RSig w → role p = RNone →
  wq_ok bq (wait ∖ {[w]}) (<[t := p]> pcs).
Proof.
  intros I Ht Hp. destruct (q_sig _ _ _ I t w Ht) as [Hw Hwq].
  assert (Hq : t ∉ bq) by (intros [?|?]%(q_in _ _ _ I); congruence).
  assert (Hu : ∀ u, role (pcs u) = RSig w → u = t) by (intros u E; by eapply (q_once _ _ _ I)).
  destruct I. constructor; try done; setoid_rewrite role_insert.
  - intros u Hin. assert (u ≠ t) by congruence. destruct (q_in0 u Hin); auto.
  - intros u [[-> E]|[Hne E]]; [congruence|auto].
  - intros u. rewrite elem_of_difference, elem_of_singleton, q_wait0. split.
    + intros [[?|[?|[v E]]] Hne].
      * left. right. split; [|done]. intros ->. congruence.
      * auto.
      * right; right. exists v. right. split; [|done]. intros ->. congruence.
    + intros [[[-> ?]|[_ ?]]|[?|[v [[-> ?]|[Hne E]]]]]; try congruence.
      * split; [auto|congruence].
      * split; [auto|congruence].
      * split; [eauto|]. intros ->. auto.
  - intros u v [[-> E]|[Hne E]]; [congruence|]. destruct (q_sig0 u v E) as [? ?].
    split; [right|done]. split; [|done]. intros ->. congruence.
  - intros u u' v [[-> E]|[Hne E]] [[-> E']|[Hne' E']]; try congruence. eauto.
Qed.
End waitqueue.
