(* ===== verification/USemaphore.v ===== *)
(** * Semaphore

    [class Semaphore] of [src/runtime/BlockingSync.h] with the operations of
    [BlockingQueue] it uses: [suspend(Mutex&)], whose [postSwitchFunc] queues
    the uThread and releases the mutex, and [signal(Mutex&)].  The mutex is
    the specification [amutex]; a step is one mutex operation or one access
    to the semaphore's own state, and steps interleave arbitrarily. *)

From stdpp Require Import functions.
From S2P Require Import Prelude Mutex MutexClient WaitQueue.

Inductive spc : Type :=
  | SIdle
  (* P *)
  | PAcq              (* mutex.acquire() *)
  | PBlk              (*   blocked there *)
  | PBody             (* internalP: the test of counter *)
  | PPush             (* bq.suspend(mutex), postSwitchFunc: queue.push_back *)
  | PUnl              (*   mutex.unlock() *)
  | PPark             (* switched out *)
  | PRel              (* mutex.release() *)
  (* V *)
  | VAcq | VBlk       (* mutex.acquire() *)
  | VBody             (* the test of the queue: pop_front, or counter += 1 *)
  | VSig (w : nat)    (* bq.signal(mutex): mutex.release() *)
  | VRes (w : nat)    (*   owner->resume() *)
  | VRel.             (* mutex.release() *)

Record usem := mkSem {
  smx : amutex;
  cnt : Z;                 (* counter, an mword *)
  sbq : list nat;
  swait : gset nat;        (* the uThreads that are WAITING on the semaphore *)
  spcs : nat → spc;
  glog : list nat;         (* ghost: P operations granted a unit, by uThread *)
  rlog : list nat;         (* ghost: P operations that have returned *)
  vcount : nat;            (* ghost: V operations that have taken effect *)
  sarr : list nat;         (* ghost: the uThreads in the order they blocked *)
  sgr : list nat           (* ghost: in the order they were unblocked *)
}.

#[export] Instance spc_eq_dec : EqDecision spc.
Proof. solve_decision. Defined.

(** [Semaphore(mword c)]. *)
Definition usem_init (c : Z) : usem :=
  mkSem amutex_init c [] ∅ (λ _, SIdle) [] [] 0 [] [].

Inductive ulabel : Type :=
  | UP (t : nat)        (* t calls P *)
  | UV (t : nat)        (* t calls V *)
  | UStep (t : nat).    (* a step of t in either *)

Definition sem_pc (t : nat) (p : spc) (s : usem) : usem :=
  mkSem (smx s) (cnt s) (sbq s) (swait s) (<[t := p]> (spcs s)) (glog s) (rlog s) (vcount s)
        (sarr s) (sgr s).
Definition sem_mx (m : amutex) (s : usem) : usem :=
  mkSem m (cnt s) (sbq s) (swait s) (spcs s) (glog s) (rlog s) (vcount s) (sarr s) (sgr s).
Definition sem_return (t : nat) (s : usem) : usem :=
  mkSem (smx s) (cnt s) (sbq s) (swait s) (<[t := SIdle]> (spcs s)) (glog s) (rlog s ++ [t])
        (vcount s) (sarr s) (sgr s).

(** [mutex.acquire()] and [mutex.release()].  A release by a uThread that does
    not own the mutex, which a debugging build asserts against, is no step; P and
    V never make one ([crit_steps]). *)
Definition sem_acquire (t : nat) (body blocked : spc) (s : usem) : option usem :=
  m ← astep (AEnter t) (smx s);
  Some (sem_pc t (if decide (aowner m = Some t) then body else blocked) (sem_mx m s)).
Definition sem_granted (t : nat) (body : spc) (s : usem) : option usem :=
  if decide (aowner (smx s) = Some t) then Some (sem_pc t body s) else None.
Definition sem_release (t : nat) (s : usem) : option usem :=
  m ← astep (ALeave t) (smx s); Some (sem_mx m s).

(** [internalP] *)
Definition internalP (t : nat) (s : usem) : usem :=
  if (cnt s <? 1)%Z then
    mkSem (smx s) (cnt s) (sbq s) ({[t]} ∪ swait s) (<[t := PPush]> (spcs s)) (glog s) (rlog s)
          (vcount s) (sarr s) (sgr s)
  else
    mkSem (smx s) (wrap 64 (cnt s - 1)) (sbq s) (swait s) (<[t := PRel]> (spcs s))
          (glog s ++ [t]) (rlog s) (vcount s) (sarr s) (sgr s).

(** [V] once it owns the mutex. *)
Definition V_body (t : nat) (s : usem) : usem :=
  match sbq s with
  | w :: r =>
      mkSem (smx s) (cnt s) r (swait s) (<[t := VSig w]> (spcs s)) (glog s ++ [w]) (rlog s)
            (S (vcount s)) (sarr s) (sgr s ++ [w])
  | [] =>
      mkSem (smx s) (wrap 64 (cnt s + 1)) [] (swait s) (<[t := VRel]> (spcs s)) (glog s) (rlog s)
            (S (vcount s)) (sarr s) (sgr s)
  end.

Definition sem_step (t : nat) (s : usem) : option usem :=
  match spcs s t with
  | SIdle => None
  | PAcq => sem_acquire t PBody PBlk s
  | PBlk => sem_granted t PBody s
  | PBody => Some (internalP t s)
  | PPush =>
      Some (mkSem (smx s) (cnt s) (sbq s ++ [t]) (swait s) (<[t := PUnl]> (spcs s)) (glog s)
                  (rlog s) (vcount s) (sarr s ++ [t]) (sgr s))
  | PUnl => sem_pc t PPark <$> sem_release t s
  | PPark => if decide (t ∈ swait s) then None else Some (sem_return t s)
  | PRel => sem_return t <$> sem_release t s
  | VAcq => sem_acquire t VBody VBlk s
  | VBlk => sem_granted t VBody s
  | VBody => Some (V_body t s)
  | VSig w => sem_pc t (VRes w) <$> sem_release t s
  | VRes w =>
      Some (mkSem (smx s) (cnt s) (sbq s) (swait s ∖ {[w]}) (<[t := SIdle]> (spcs s)) (glog s)
                  (rlog s) (vcount s) (sarr s) (sgr s))
  | VRel => sem_pc t SIdle <$> sem_release t s
  end.

Definition ustep (a : ulabel) (s : usem) : option usem :=
  match a with
  | UP t => match spcs s t with SIdle => Some (sem_pc t PAcq s) | _ => None end
  | UV t => match spcs s t with SIdle => Some (sem_pc t VAcq s) | _ => None end
  | UStep t => sem_step t s
  end.

(** ** The invariant *)

Definition sem_crit (p : spc) : bool :=
  match p with PBody | PPush | PUnl | PRel | VBody | VSig _ | VRel => true | _ => false end.
Definition sem_blk (p : spc) : bool := match p with PBlk | VBlk => true | _ => false end.
Lemma sem_crit_blk p : sem_crit p = true → sem_blk p = false.
Proof. by destruct p. Qed.
#[export] Instance sem_client : MutexClient spc :=
  {| crit := sem_crit; blk := sem_blk; crit_blk := sem_crit_blk |}.

Definition sem_role (p : spc) : wrole :=
  match p with
  | PPush => RPush | PUnl => RUnl | PPark => RPark | VSig w | VRes w => RSig w | _ => RNone
  end.
Lemma sem_push_crit p : sem_role p = RPush → crit p = true.
Proof. by destruct p. Qed.
Lemma sem_unl_crit p : sem_role p = RUnl → crit p = true.
Proof. by destruct p. Qed.
#[export] Instance sem_waits : WaitClient spc :=
  {| role := sem_role; push_crit := sem_push_crit; unl_crit := sem_unl_crit |}.

(** The uThread has a unit and has not returned from P. *)
Definition holds_unit (s : usem) (t : nat) : Prop :=
  spcs s t = PRel ∨ (spcs s t = PPark ∧ t ∉ sbq s).

Record uinv (c0 : Z) (s : usem) : Prop := {
  u_mx : mx_ok (smx s) (spcs s);
  u_wq : wq_ok (sbq s) (swait s) (spcs s);
  u_zero : sbq s ≠ [] ∨ (∃ t, spcs s t = PPush) → cnt s = 0%Z;
  u_range : (0 ≤ cnt s < 2 ^ 64)%Z;
  u_cnt : (c0 + Z.of_nat (vcount s) < 2 ^ 64 →
           cnt s = c0 + Z.of_nat (vcount s) - Z.of_nat (length (glog s)))%Z;
  u_units : ∃ pend, glog s ≡ₚ rlog s ++ pend ∧ NoDup pend ∧ ∀ t, t ∈ pend ↔ holds_unit s t;
  u_fifo : sarr s = sgr s ++ sbq s
}.

(** Program counters with no role in the invariant but for the mutex. *)
Definition plain (p : spc) : bool :=
  match p with PPush | PUnl | PPark | PRel | VSig _ | VRes _ => false | _ => true end.

(** Applies a lemma about the units of the state the goal is about. *)
Ltac units_tac lem t p :=
  match goal with
  | |- ∃ _, _ ∧ _ ∧ ∀ u, _ ↔ holds_unit ?s' u => apply (lem s' t p); try done
  end.
Ltac units_tac2 lem t p x :=
  match goal with
  | |- ∃ _, _ ∧ _ ∧ ∀ u, _ ↔ holds_unit ?s' u => apply (lem s' t p x); try done
  end.

Section uinv.
Context (c0 : Z).
Implicit Types (s : usem) (t u w : nat).

Lemma uinv_init : (0 ≤ c0 < 2 ^ 64)%Z → uinv c0 (usem_init c0).
Proof.
  intros Hc. constructor; simpl; try done; try lia.
  - by apply mx_ok_init.
  - by apply wq_ok_init.
  - intros [?|[t ?]]; done.
  - exists []. split_and!; [done|constructor|]. intros t. unfold holds_unit. simpl.
    split; [intros Ht; by apply not_elem_of_nil in Ht|]. by intros [?|[? _]].
Qed.

(** The waiting P operations after a step of [t] that leaves the units alone. *)
Lemma units_kept s s' t p :
  uinv c0 s → glog s' = glog s → rlog s' = rlog s → spcs s' = <[t := p]> (spcs s) →
  (holds_unit s' t ↔ holds_unit s t) → (∀ u, u ≠ t → u ∈ sbq s' ↔ u ∈ sbq s) →
  ∃ pend, glog s' ≡ₚ rlog s' ++ pend ∧ NoDup pend ∧ ∀ u, u ∈ pend ↔ holds_unit s' u.
Proof.
  intros I Eg Er Ep Ht Hq. destruct (u_units _ _ I) as (pend & Hg & Hnd & Hpend).
  exists pend. rewrite Eg, Er. split_and!; try done. intros u. rewrite Hpend.
  destruct (decide (u = t)) as [->|Hne]; [done|]. unfold holds_unit.
  by rewrite Ep, fn_lookup_insert_ne, Hq.
Qed.

(** ... and after one that grants a unit to [x]. *)
Lemma units_granted s s' t p x :
  uinv c0 s → glog s' = glog s ++ [x] → rlog s' = rlog s → spcs s' = <[t := p]> (spcs s) →
  ¬ holds_unit s x → (∀ u, holds_unit s' u ↔ u = x ∨ holds_unit s u) →
  ∃ pend, glog s' ≡ₚ rlog s' ++ pend ∧ NoDup pend ∧ ∀ u, u ∈ pend ↔ holds_unit s' u.
Proof.
  intros I Eg Er Ep Hx Hall. destruct (u_units _ _ I) as (pend & Hg & Hnd & Hpend).
  exists (x :: pend). rewrite Eg, Er. split_and!.
  - rewrite Hg. by rewrite <-app_assoc, (Permutation_app_comm pend).
  - apply NoDup_cons. by rewrite Hpend.
  - intros u. by rewrite elem_of_cons, Hpend, Hall.
Qed.

(** A step between plain program counters. *)
Lemma uinv_plain s t p m :
  uinv c0 s → plain p = true → plain (spcs s t) = true → mx_ok m (<[t := p]> (spcs s)) →
  uinv c0 (sem_pc t p (sem_mx m s)).
Proof.
  intros I Hp Hq Hm. pose proof I as [_ I2 I3 I4 I5 _ I7]. constructor; simpl; try done.
  - apply wq_ok_stay; [done|]. destruct p; try done; by destruct (spcs s t).
  - intros [?|[u Hu]]; apply I3; [by left|right]. exists u.
    pc_cases u t; [by subst p|done].
  - units_tac (units_kept s) t p. unfold holds_unit. simpl. rewrite fn_lookup_insert.
    destruct p; try done; destruct (spcs s t); naive_solver.
Qed.

(** [internalP], no unit: the uThread is switched out WAITING. *)
Lemma uinv_suspend s t :
  uinv c0 s → spcs s t = PBody → (cnt s < 1)%Z →
  uinv c0 (mkSem (smx s) (cnt s) (sbq s) ({[t]} ∪ swait s) (<[t := PPush]> (spcs s)) (glog s)
                 (rlog s) (vcount s) (sarr s) (sgr s)).
Proof.
  intros I Ht Hc. pose proof I as [I1 I2 I3 I4 I5 _ I7]. constructor; simpl; try done.
  - apply mx_ok_stay; [done|..]; by rewrite Ht.
  - apply wq_ok_suspend; [done|by rewrite Ht|done].
  - lia.
  - units_tac (units_kept s) t PPush. unfold holds_unit. simpl.
    rewrite fn_lookup_insert, Ht. naive_solver.
Qed.

(** [internalP], a unit is taken. *)
Lemma uinv_take s t :
  uinv c0 s → spcs s t = PBody → ¬ (cnt s < 1)%Z →
  uinv c0 (mkSem (smx s) (wrap 64 (cnt s - 1)) (sbq s) (swait s) (<[t := PRel]> (spcs s))
                 (glog s ++ [t]) (rlog s) (vcount s) (sarr s) (sgr s)).
Proof.
  intros I Ht Hc. pose proof I as [I1 I2 I3 I4 I5 _ I7].
  assert (Hw : wrap 64 (cnt s - 1) = (cnt s - 1)%Z) by (unfold wrap; rewrite Z.mod_small; lia).
  rewrite Hw. constructor; simpl; try done; try lia.
  - apply mx_ok_stay; [done|..]; by rewrite Ht.
  - apply wq_ok_stay; [done|]. by rewrite Ht.
  - intros Hx. assert (cnt s = 0%Z); [|lia]. apply I3. destruct Hx as [?|[u Hx]]; [by left|].
    right. exists u. by pc_cases u t.
  - intros Hx. rewrite I5, length_app by done. simpl. lia.
  - units_tac2 (units_granted s) t PRel t.
    + unfold holds_unit. rewrite Ht. naive_solver.
    + intros u. unfold holds_unit. simpl. pc_cases u t; naive_solver.
Qed.

(** [postSwitchFunc]: [queue.push_back]. *)
Lemma uinv_push s t :
  uinv c0 s → spcs s t = PPush →
  uinv c0 (mkSem (smx s) (cnt s) (sbq s ++ [t]) (swait s) (<[t := PUnl]> (spcs s)) (glog s)
                 (rlog s) (vcount s) (sarr s ++ [t]) (sgr s)).
Proof.
  intros I Ht. pose proof I as [I1 I2 I3 I4 I5 _ I7]. constructor; simpl; try done.
  - apply mx_ok_stay; [done|..]; by rewrite Ht.
  - apply wq_ok_push; [done|by rewrite Ht|done].
  - intros _. apply I3. eauto.
  - units_tac (units_kept s) t PUnl.
    + unfold holds_unit. simpl. rewrite fn_lookup_insert, Ht. naive_solver.
    + intros u Hu. simpl. set_solver.
  - by rewrite I7, app_assoc.
Qed.

(** [postSwitchFunc]: the mutex is released. *)
Lemma uinv_park s t m :
  uinv c0 s → spcs s t = PUnl → astep (ALeave t) (smx s) = Some m →
  uinv c0 (sem_pc t PPark (sem_mx m s)).
Proof.
  intros I Ht Hs. pose proof I as [I1 I2 I3 I4 I5 _ I7].
  assert (Hq : t ∈ sbq s) by (apply (q_unl _ _ _ I2); by rewrite Ht).
  constructor; simpl; try done.
  - eapply mx_ok_leave; [done| |done..]. by rewrite Ht.
  - apply wq_ok_park; [done|by rewrite Ht|done].
  - intros Hx. apply I3. left. intros E. rewrite E in Hq. by apply not_elem_of_nil in Hq.
  - units_tac (units_kept s) t PPark. unfold holds_unit. simpl.
    rewrite fn_lookup_insert, Ht. naive_solver.
Qed.

(** A P operation returns with its unit. *)
Lemma uinv_return s t m :
  uinv c0 s → holds_unit s t → t ∉ swait s →
  mx_ok m (<[t := SIdle]> (spcs s)) → uinv c0 (sem_return t (sem_mx m s)).
Proof.
  intros I Ht Hw Hm. pose proof I as [I1 I2 I3 I4 I5 I6 I7]. constructor; simpl; try done.
  - destruct Ht as [Ht|[Ht _]]; [apply wq_ok_stay; [done|by rewrite Ht]|].
    apply wq_ok_wake; [done|by rewrite Ht|done..].
  - intros Hx. apply I3. destruct Hx as [?|[u Hx]]; [by left|]. right. exists u.
    by pc_cases u t.
  - destruct I6 as (pend & Hg & Hnd & Hpend). assert (t ∈ pend) as Hin by by apply Hpend.
    apply list_elem_of_split in Hin as (p1 & p2 & ->). exists (p1 ++ p2).
    apply NoDup_app in Hnd as (N1 & N2 & N3). apply NoDup_cons in N3 as [N3 N4]. split_and!.
    + rewrite Hg, <-(Permutation_middle p1 p2 t). by rewrite <-(app_assoc (rlog s)).
    + apply NoDup_app. split_and!; [done|set_solver|done].
    + intros u. specialize (Hpend u). rewrite elem_of_app, elem_of_cons in Hpend.
      rewrite elem_of_app. unfold holds_unit in *. simpl. pc_cases u t; [|naive_solver].
      split; [|naive_solver]. intros [Hx|Hx]; [|done]. specialize (N2 t Hx). set_solver.
Qed.

(** [bq.signal(mutex)] takes the first waiter: the unit goes to it. *)
Lemma uinv_signal s t w r :
  uinv c0 s → spcs s t = VBody → sbq s = w :: r →
  uinv c0 (mkSem (smx s) (cnt s) r (swait s) (<[t := VSig w]> (spcs s)) (glog s ++ [w])
                 (rlog s) (S (vcount s)) (sarr s) (sgr s ++ [w])).
Proof.
  intros I Ht Hq. pose proof I as [I1 I2 I3 I4 I5 _ I7]. rewrite Hq in I2, I3, I7.
  destruct (wq_ok_signal (smx s) (swait s) (spcs s) t (VSig w) w r) as (Hwq & Hw & Hwt & Hwr);
    try done; [by rewrite Ht..|].
  assert (Hwp : spcs s w = PPark) by (by destruct (spcs s w)).
  assert (Hz : cnt s = 0%Z) by (apply I3; by left).
  constructor; simpl; try done.
  - apply mx_ok_stay; [done|..]; by rewrite Ht.
  - intros Hx. rewrite I5, length_app by lia. simpl. lia.
  - units_tac2 (units_granted s) t (VSig w) w.
    + unfold holds_unit. rewrite Hwp, Hq. set_solver.
    + intros u. unfold holds_unit. simpl. rewrite Hq, not_elem_of_cons.
      pc_cases u t; [rewrite Ht; naive_solver|].
      destruct (decide (u = w)) as [->|]; naive_solver.
  - rewrite I7. by rewrite <-app_assoc.
Qed.

(** [counter += 1]. *)
Lemma uinv_give s t :
  uinv c0 s → spcs s t = VBody → sbq s = [] →
  uinv c0 (mkSem (smx s) (wrap 64 (cnt s + 1)) [] (swait s) (<[t := VRel]> (spcs s)) (glog s)
                 (rlog s) (S (vcount s)) (sarr s) (sgr s)).
Proof.
  intros I Ht Hq. pose proof I as [I1 I2 I3 I4 I5 _ I7].
  assert (Hno : ∀ u, spcs s u ≠ PPush).
  { intros u Hu. assert (u = t) by (eapply mx_unique; [done|by rewrite Hu|by rewrite Ht]).
    congruence. }
  constructor; simpl; rewrite <-?Hq; try done.
  - apply mx_ok_stay; [done|..]; by rewrite Ht.
  - apply wq_ok_stay; [done|]. by rewrite Ht.
  - intros [?|[u Hu]]; [done|]. pc_cases u t; [done|by apply Hno in Hu].
  - unfold wrap. apply Z.mod_pos_bound. lia.
  - intros Hx. assert (cnt s = c0 + Z.of_nat (vcount s) - Z.of_nat (length (glog s)))%Z
      by (apply I5; lia).
    unfold wrap. rewrite Z.mod_small; lia.
  - units_tac (units_kept s) t VRel. unfold holds_unit. simpl.
    rewrite fn_lookup_insert, Ht. naive_solver.
Qed.

(** [signal] releases the mutex before it resumes. *)
Lemma uinv_signal_unlock s t w m :
  uinv c0 s → spcs s t = VSig w → astep (ALeave t) (smx s) = Some m →
  uinv c0 (sem_pc t (VRes w) (sem_mx m s)).
Proof.
  intros I Ht Hs. pose proof I as [I1 I2 I3 I4 I5 _ I7]. constructor; simpl; try done.
  - eapply mx_ok_leave; [done| |done..]. by rewrite Ht.
  - apply wq_ok_stay; [done|]. by rewrite Ht.
  - intros [?|[u Hu]]; apply I3; [by left|right]. exists u. by pc_cases u t.
  - units_tac (units_kept s) t (VRes w). unfold holds_unit. simpl.
    rewrite fn_lookup_insert, Ht. naive_solver.
Qed.

(** [owner->resume()]. *)
Lemma uinv_resume s t w :
  uinv c0 s → spcs s t = VRes w →
  uinv c0 (mkSem (smx s) (cnt s) (sbq s) (swait s ∖ {[w]}) (<[t := SIdle]> (spcs s)) (glog s)
                 (rlog s) (vcount s) (sarr s) (sgr s)).
Proof.
  intros I Ht. pose proof I as [I1 I2 I3 I4 I5 _ I7]. constructor; simpl; try done.
  - apply mx_ok_stay; [done|..]; by rewrite Ht.
  - eapply wq_ok_resume; [done|by rewrite Ht|done].
  - intros [?|[u Hu]]; apply I3; [by left|right]. exists u. by pc_cases u t.
  - units_tac (units_kept s) t SIdle. unfold holds_unit. simpl.
    rewrite fn_lookup_insert, Ht. naive_solver.
Qed.
End uinv.

Section steps.
Context (c0 : Z).
Implicit Types (s : usem) (t u w : nat).

Lemma uinv_acquire s t body blocked s' :
  uinv c0 s → plain (spcs s t) = true → crit (spcs s t) = false → blk (spcs s t) = false →
  plain body = true → plain blocked = true → crit body = true → blk blocked = true →
  sem_acquire t body blocked s = Some s' → uinv c0 s'.
Proof.
  intros I Hp Hc Hb Hp1 Hp2 Hc1 Hb2 Hs. unfold sem_acquire in Hs.
  destruct (astep (AEnter t) (smx s)) as [m|] eqn:Hm; simplify_eq/=.
  apply uinv_plain; auto; [by destruct (decide _)|].
  eapply mx_ok_enter; [apply I|done..| |]; intros Ho; by destruct (decide _).
Qed.

Lemma uinv_granted s t body s' :
  uinv c0 s → plain (spcs s t) = true → blk (spcs s t) = true →
  plain body = true → crit body = true → sem_granted t body s = Some s' → uinv c0 s'.
Proof.
  intros I Hp Hb Hp1 Hc1 Hs. unfold sem_granted in Hs. case_decide; simplify_eq.
  replace s with (sem_mx (smx s) s) at 2 by by destruct s.
  apply uinv_plain; auto. by apply mx_ok_granted; [apply I|..].
Qed.

Lemma uinv_step s t s' : uinv c0 s → sem_step t s = Some s' → uinv c0 s'.
Proof.
  intros I Hs. unfold sem_step in Hs. pose proof (u_mx _ _ I) as Hmx.
  destruct (spcs s t) as [ | | | | | | | | | | |w|w| ] eqn:Ht; simplify_eq.
  - eapply (uinv_acquire s t PBody PBlk); rewrite ?Ht; done.
  - eapply (uinv_granted s t PBody); rewrite ?Ht; done.
  - unfold internalP. destruct (Z.ltb_spec (cnt s) 1);
      [by apply uinv_suspend|apply uinv_take; [done..|lia]].
  - by apply uinv_push.
  - unfold sem_release in Hs. destruct (astep _ _) as [m|] eqn:Hm; simplify_eq/=.
    by apply uinv_park.
  - case_decide as Hw; simplify_eq.
    replace s with (sem_mx (smx s) s) by by destruct s. apply uinv_return; auto.
    + right. split; [done|]. intros Hx. apply Hw, (q_wait _ _ _ (u_wq _ _ I)). auto.
    + apply mx_ok_stay; by rewrite ?Ht.
  - unfold sem_release in Hs. destruct (astep _ _) as [m|] eqn:Hm; simplify_eq/=.
    apply uinv_return; auto; [by left| |].
    + apply (wq_none _ _ _ t (u_wq _ _ I)). by rewrite Ht.
    + eapply mx_ok_leave; [done| |done..]. by rewrite Ht.
  - eapply (uinv_acquire s t VBody VBlk); rewrite ?Ht; done.
  - eapply (uinv_granted s t VBody); rewrite ?Ht; done.
  - unfold V_body. destruct (sbq s) as [|w r] eqn:Hq; [by apply uinv_give|by apply uinv_signal].
  - unfold sem_release in Hs. destruct (astep _ _) as [m|] eqn:Hm; simplify_eq/=.
    by apply uinv_signal_unlock.
  - by apply uinv_resume.
  - unfold sem_release in Hs. destruct (astep _ _) as [m|] eqn:Hm; simplify_eq/=.
    apply uinv_plain; rewrite ?Ht; auto. eapply mx_ok_leave; [done| |done..]. by rewrite Ht.
Qed.

Lemma uinv_ustep a s s' : uinv c0 s → ustep a s = Some s' → uinv c0 s'.
Proof.
  intros I Hs. destruct a as [t|t|t]; simpl in Hs.
  - destruct (spcs s t) eqn:Ht; simplify_eq.
    replace s with (sem_mx (smx s) s) by by destruct s. apply uinv_plain; rewrite ?Ht; auto.
    apply mx_ok_stay; [apply I|..]; by rewrite Ht.
  - destruct (spcs s t) eqn:Ht; simplify_eq.
    replace s with (sem_mx (smx s) s) by by destruct s. apply uinv_plain; rewrite ?Ht; auto.
    apply mx_ok_stay; [apply I|..]; by rewrite Ht.
  - by eapply uinv_step.
Qed.

Lemma uinv_reachable s :
  (0 ≤ c0 < 2 ^ 64)%Z → reachable ustep (usem_init c0) s → uinv c0 s.
Proof.
  intros Hc. apply (invariant_reachable _ (uinv c0)); [by apply uinv_init|].
  intros a s1 s2. apply uinv_ustep.
Qed.

(** A uThread in its critical section can go on. *)
Lemma crit_steps s u : uinv c0 s → crit (spcs s u) = true → is_Some (sem_step u s).
Proof.
  intros I Hu. destruct (mx_leave_enabled _ _ u (u_mx _ _ I) Hu) as [m Hm].
  unfold sem_step, sem_release. simpl in Hm. destruct (spcs s u); try done; simpl; rewrite ?Hm; eauto.
Qed.

Lemma blk_stuck s t : uinv c0 s → blk (spcs s t) = true → ¬ ∀ u, sem_step u s = None.
Proof.
  intros I Ht Hst. destruct (mx_not_stuck _ _ t (u_mx _ _ I) Ht) as [u [Hu|[Hu Ho]]].
  - apply crit_steps in Hu; [|done]. rewrite Hst in Hu. by destruct Hu.
  - specialize (Hst u). unfold sem_step, sem_granted in Hst.
    destruct (spcs s u); try done; by rewrite decide_True in Hst.
Qed.
End steps.

(** C20. A semaphore never lets more P operations through than its initial
    value plus the V operations performed; as long as the counter has not
    overflowed it is exactly the number of units not handed out. *)
Theorem semaphore_bound c0 s :
  (0 ≤ c0 < 2 ^ 64)%Z → reachable ustep (usem_init c0) s →
  (c0 + Z.of_nat (vcount s) < 2 ^ 64)%Z →
  (Z.of_nat (length (rlog s)) ≤ c0 + Z.of_nat (vcount s) ∧
   cnt s = c0 + Z.of_nat (vcount s) - Z.of_nat (length (glog s)))%Z.
Proof.
  intros Hc Hr Hv. pose proof (uinv_reachable _ _ Hc Hr) as I.
  pose proof (u_cnt _ _ I Hv) as Hcnt. pose proof (u_range _ _ I).
  destruct (u_units _ _ I) as (pend & Hg & _). apply Permutation_length in Hg.
  rewrite length_app in Hg. split; [lia|done].
Qed.

(** No wake-up is lost: uThreads wait on the semaphore only while its
    counter is 0, and they are unblocked in the order they blocked. *)
Theorem semaphore_no_lost_wakeup c0 s :
  (0 ≤ c0 < 2 ^ 64)%Z → reachable ustep (usem_init c0) s →
  (sbq s ≠ [] → cnt s = 0%Z) ∧ sgr s ++ sbq s = sarr s.
Proof.
  intros Hc Hr. pose proof (uinv_reachable _ _ Hc Hr) as I.
  split; [intros; apply (u_zero _ _ I); by left|]. by rewrite (u_fifo _ _ I).
Qed.

(** C23. The semaphore only stops in a legitimate wait: when no uThread can
    take a step, every uThread inside P or V is parked in the queue with the
    counter at 0. *)
Theorem semaphore_quiescent c0 s t :
  (0 ≤ c0 < 2 ^ 64)%Z → reachable ustep (usem_init c0) s → (∀ u, sem_step u s = None) →
  spcs s t = SIdle ∨ (spcs s t = PPark ∧ t ∈ sbq s ∧ cnt s = 0%Z).
Proof.
  intros Hc Hr Hst. pose proof (uinv_reachable _ _ Hc Hr) as I.
  assert (Hcr : crit (spcs s t) = false).
  { destruct (crit (spcs s t)) eqn:E; [|done]. apply (crit_steps c0) in E; [|done].
    rewrite Hst in E. by destruct E. }
  assert (Hbl : blk (spcs s t) = false).
  { destruct (blk (spcs s t)) eqn:E; [|done]. by apply (blk_stuck c0) in E. }
  pose proof (mx_enter_enabled _ _ t (u_mx _ _ I) Hcr Hbl) as [m Hm].
  pose proof (Hst t) as Ht. unfold sem_step, sem_acquire in Ht. rewrite Hm in Ht.
  destruct (spcs s t) eqn:E; try done; [by left|right].
  case_decide as Hw; [|done].
  apply (q_wait _ _ _ (u_wq _ _ I)) in Hw as [Hp|[Hq|[u Hu]]]; [by rewrite E in Hp|..].
  - split_and!; try done. apply (u_zero _ _ I). left. intros Hx. rewrite Hx in Hq.
    by apply not_elem_of_nil in Hq.
  - specialize (Hst u). destruct (spcs s u) eqn:Eu; try done.
    + assert (crit (spcs s u) = true) as Hcu by by rewrite Eu.
      apply (crit_steps c0) in Hcu; [|done]. rewrite Hst in Hcu. by destruct Hcu.
    + unfold sem_step in Hst. by rewrite Eu in Hst.
Qed.

(** A run with a semaphore of one unit: uThread 1 takes it, 2 blocks. *)
Definition sem_demo : list ulabel :=
  [UP 1; UStep 1; UStep 1; UStep 1; UP 2; UStep 2; UStep 2; UStep 2; UStep 2].
Definition sem_demo_state : usem := default (usem_init 1) (run ustep sem_demo (usem_init 1)).

Lemma sem_demo_reachable : reachable ustep (usem_init 1) sem_demo_state.
Proof. exists sem_demo. by vm_compute. Qed.

Lemma semaphore_bound_witness :
  rlog sem_demo_state = [1] ∧
  (Z.of_nat (length (rlog sem_demo_state)) ≤ 1 + Z.of_nat (vcount sem_demo_state) ∧
   cnt sem_demo_state = 1 + Z.of_nat (vcount sem_demo_state) - Z.of_nat (length (glog sem_demo_state)))%Z.
Proof.
  split; [by vm_compute|]. apply (semaphore_bound 1 sem_demo_state).
  - done.
  - exact sem_demo_reachable.
  - by vm_compute.
Defined.

Lemma semaphore_no_lost_wakeup_witness :
  sbq sem_demo_state = [2] ∧
  (sbq sem_demo_state ≠ [] → cnt sem_demo_state = 0%Z) ∧
  sgr sem_demo_state ++ sbq sem_demo_state = sarr sem_demo_state.
Proof.
  split; [by vm_compute|]. apply (semaphore_no_lost_wakeup 1 sem_demo_state).
  - done.
  - exact sem_demo_reachable.
Defined.

Lemma semaphore_quiescent_witness :
  spcs sem_demo_state 2 = SIdle ∨
  (spcs sem_demo_state 2 = PPark ∧ 2 ∈ sbq sem_demo_state ∧ cnt sem_demo_state = 0%Z).
Proof.
  apply (semaphore_quiescent 1 sem_demo_state 2).
  - done.
  - exact sem_demo_reachable.
  - intros u. destruct u as [|[|[|u]]]; by vm_compute.
Defined.
