(* ===== verification/UThread.v ===== *)
(** * uThread: the object, its allocation, destruction and cache

    [src/runtime/uThread.h] (the data), [reset], [createStack], [create],
    [destory] and [createMainUT] of [src/runtime/uThread.cpp], and
    [src/runtime/uThreadCache.h].

    A uThread lives at the end of its own stack: the block that [malloc]
    returns holds the stack and, in its last [sizeof_uThread] bytes, the
    object.  The cache and [create]/[destory] run under a try-lock; whether the
    lock was free is an argument. *)

From S2P Require Import Prelude Links IntrusiveStack.

Inductive State : Type :=
  | INITIALIZED | READY | RUNNING | YIELD | MIGRATE | WAITING | TERMINATED.
Inductive JState : Type := DETACHED | JOINABLE | JOINING.

#[export] Instance State_eq_dec : EqDecision State.
Proof. solve_decision. Defined.
#[export] Instance JState_eq_dec : EqDecision JState.
Proof. solve_decision. Defined.

(** The fields of [class uThread] besides its [Link] and the objects of the
    join protocol; a null pointer is 0. *)
Record uThread := mkUThread {
  currentCluster : addr;
  homekThread : addr;
  stackPointer : Z;
  stackBottom : Z;
  stackSize : Z;
  uThreadID : Z;
  state : State;
  jState : JState
}.

#[export] Instance uThread_eq_dec : EqDecision uThread.
Proof. solve_decision. Defined.

Record uThreadCache := mkCache { stack : IntrusiveStack; count : Z; size : Z }.
(** [uThreadCache(size_t size = defaultuThreadCacheSize)]. *)
Definition uThreadCache_init (sz : Z) : uThreadCache := mkCache IntrusiveStack_init 0 sz.

(** The heap as far as uThreads go: the blocks of [malloc] with their sizes,
    the uThread objects and their links, and the static members. *)
Record world := mkWorld {
  blocks : gmap Z Z;
  links : mem;
  uts : gmap addr uThread;
  utCache : uThreadCache;
  totalNumberofUTs : Z;
  uThreadMasterID : Z
}.
Definition world_init (sz : Z) : world := mkWorld ∅ ∅ ∅ (uThreadCache_init sz) 0 0.

(** Running a container operation on the links. *)
Definition with_links {A} (c : M mem A) : M world A := λ w,
  match c (links w) with
  | Ok (a, l) =>
      Ok (a, mkWorld (blocks w) l (uts w) (utCache w) (totalNumberofUTs w) (uThreadMasterID w))
  | Fault e => Fault e
  end.

Definition get_ut (a : addr) : M world uThread := λ w,
  match uts w !! a with Some u => Ok (u, w) | None => Fault (BadAccess a) end.
Definition put_ut (a : addr) (u : uThread) : M world unit := λ w,
  match uts w !! a with
  | Some _ => Ok (tt, mkWorld (blocks w) (links w) (<[a := u]> (uts w)) (utCache w)
                              (totalNumberofUTs w) (uThreadMasterID w))
  | None => Fault (BadAccess a)
  end.
Definition set_cache (c : uThreadCache) : M world unit := λ w,
  Ok (tt, mkWorld (blocks w) (links w) (uts w) c (totalNumberofUTs w) (uThreadMasterID w)).
Definition get_cache : M world uThreadCache := λ w, Ok (utCache w, w).
(** [totalNumberofUTs++] and [--], an atomic_ulong. *)
Definition add_total (z : Z) : M world unit := λ w,
  Ok (tt, mkWorld (blocks w) (links w) (uts w) (utCache w)
                  (wrap 64 (totalNumberofUTs w + z)) (uThreadMasterID w)).

Section uThread.
Context `{Build} (sizeof_uThread : Z).

(** [void reset()] *)
Definition reset (this : addr) : M world unit :=
  u ← get_ut this;
  put_ut this (mkUThread nullptr nullptr this (stackBottom u) (stackSize u) (uThreadID u)
                         INITIALIZED DETACHED).

(** [ssize_t uThreadCache::push(uThread* ut)] *)
Definition cache_push (owns_lock : bool) (ut : addr) : M world Z :=
  c ← get_cache;
  if negb owns_lock || (count c =? size c)%Z then mret (-1)%Z
  else
    reset ut;;
    st ← with_links (Stack.push (stack c) ut);
    set_cache (mkCache st (wrap 64 (count c + 1)) (size c));;
    mret (wrap 64 (count c + 1)).

(** [uThread* uThreadCache::pop()] *)
Definition cache_pop (owns_lock : bool) : M world addr :=
  c ← get_cache;
  if negb owns_lock || (count c =? 0)%Z then mret nullptr
  else
    r ← with_links (Stack.pop (stack c));
    set_cache (mkCache r.2 (wrap 64 (count c - 1)) (size c));;
    mret r.1.

(** [static vaddr createStack(size_t ssize)]; [malloc] is an argument. *)
Definition createStack (ssize : Z) (malloc : option addr) : M world Z := λ w,
  match malloc with
  | None => Fault (Exit (-1))
  | Some st => Ok (st, mkWorld (<[st := ssize]> (blocks w)) (links w) (uts w) (utCache w)
                               (totalNumberofUTs w) (uThreadMasterID w))
  end.

(** [new (ptr_t(This)) uThread(mem, ss)]. *)
Definition new_uThread (This sb ss : Z) : M world unit := λ w,
  Ok (tt, mkWorld (blocks w) (<[This := Link_init]> (links w))
    (<[This := mkUThread nullptr nullptr This sb ss (uThreadMasterID w) INITIALIZED DETACHED]> (uts w))
    (utCache w) (wrap 64 (totalNumberofUTs w + 1)) (wrap 64 (uThreadMasterID w + 1))).

(** [static uThread* create(size_t ss, bool joinable)] *)
Definition create (ss : Z) (joinable owns_lock : bool) (malloc : option addr) : M world addr :=
  c ← cache_pop owns_lock;
  ut ← (if (c =? nullptr)%Z then
          sb ← createStack ss malloc;
          let This := (sb + ss - sizeof_uThread)%Z in
          new_uThread This sb ss;;
          mret This
        else
          add_total 1;;
          mret c);
  (if joinable : bool then
     u ← get_ut ut;
     put_ut ut (mkUThread (currentCluster u) (homekThread u) (stackPointer u) (stackBottom u)
                          (stackSize u) (uThreadID u) (state u) JOINABLE)
   else mret tt);;
  mret ut.

(** [free((ptr_t)stackBottom)]: the block must be one that [malloc] returned;
    the object at its end is gone with it. *)
Definition free_block (this sb : Z) : M world unit := λ w,
  match blocks w !! sb with
  | None => Fault (BadAccess sb)
  | Some _ =>
      Ok (tt, mkWorld (delete sb (blocks w)) (delete this (links w)) (delete this (uts w))
                      (utCache w) (totalNumberofUTs w) (uThreadMasterID w))
  end.
Definition free_stack (this : addr) : M world unit :=
  u ← get_ut this; free_block this (stackBottom u).

(** [void destory(bool force)] *)
Definition destory (force owns_lock : bool) (this : addr) : M world unit :=
  add_total (-1);;
  freed ← (if force then mret true
           else r ← cache_push owns_lock this; mret (r <? 0)%Z);
  if freed : bool then free_stack this else mret tt.
End uThread.

(** ** The specification: which uThreads are in use and which are cached *)

Record lives := mkLives {
  live : gset addr;                 (* created and not destroyed *)
  cached : list addr;               (* in the cache, last destroyed first *)
  objs : gmap addr (Z * Z)          (* the block and stack size of each object *)
}.
Definition lives_init : lives := mkLives ∅ [] ∅.

Inductive uop : Type :=
  | OCreate (ss : Z) (joinable owns_lock : bool) (malloc : option addr)
  | ODestroy (force owns_lock : bool) (ut : addr).

Section life_spec.
Context `{Build} (sizeof_uThread cache_size : Z).

(** What [malloc] promises: a block, and with it an object, of its own. *)
Definition fresh_block (sp : lives) (sb ss : Z) : Prop :=
  objs sp !! (sb + ss - sizeof_uThread)%Z = None ∧ (sb + ss - sizeof_uThread)%Z ≠ nullptr ∧
  map_Forall (λ _ o, o.1 ≠ sb) (objs sp).

#[global] Instance fresh_block_dec sp sb ss : Decision (fresh_block sp sb ss).
Proof. unfold fresh_block. apply _. Defined.

Definition lspec (o : uop) (sp : lives) : option (addr * lives) :=
  match o with
  | OCreate ss joinable lk ml =>
      match (if lk : bool then cached sp else []) with
      | x :: r => Some (x, mkLives ({[x]} ∪ live sp) r (objs sp))
      | [] =>
          sb ← ml;
          if decide (fresh_block sp sb ss) then
            let This := (sb + ss - sizeof_uThread)%Z in
            Some (This, mkLives ({[This]} ∪ live sp) (cached sp) (<[This := (sb, ss)]> (objs sp)))
          else None
      end
  | ODestroy force lk ut =>
      if decide (ut ∈ live sp) then
        if force || negb lk || (Z.of_nat (length (cached sp)) =? cache_size)%Z
        then Some (nullptr, mkLives (live sp ∖ {[ut]}) (cached sp) (delete ut (objs sp)))
        else Some (nullptr, mkLives (live sp ∖ {[ut]}) (ut :: cached sp) (objs sp))
      else None
  end.

Definition lexec (o : uop) : M world addr :=
  match o with
  | OCreate ss joinable lk ml => create sizeof_uThread ss joinable lk ml
  | ODestroy force lk ut => destory force lk ut;; mret nullptr
  end.

Fixpoint lspecs (os : list uop) (sp : lives) : option (list addr * lives) :=
  match os with
  | [] => Some ([], sp)
  | o :: os' => r ← lspec o sp; rs ← lspecs os' r.2; Some (r.1 :: rs.1, rs.2)
  end.
Fixpoint lexecs (os : list uop) : M world (list addr) :=
  match os with
  | [] => mret []
  | o :: os' => r ← lexec o; rs ← lexecs os'; mret (r :: rs)
  end.

(** An object in the cache is as [reset] leaves it. *)
Definition is_reset (a : addr) (u : uThread) : Prop :=
  currentCluster u = nullptr ∧ homekThread u = nullptr ∧ stackPointer u = a ∧
  state u = INITIALIZED ∧ jState u = DETACHED.

Definition object_ok (w : world) (a : addr) (o : Z * Z) : Prop :=
  ∃ u, uts w !! a = Some u ∧ stackBottom u = o.1 ∧ stackSize u = o.2 ∧
    blocks w !! o.1 = Some o.2 ∧ a = (o.1 + o.2 - sizeof_uThread)%Z ∧ a ≠ nullptr.

Record life_rep (w : world) (sp : lives) : Prop := {
  r_stack : stack_rep (links w) (stack (utCache w)) (cached sp);
  r_count : count (utCache w) = Z.of_nat (length (cached sp));
  r_size : size (utCache w) = cache_size ∧
           (Z.of_nat (length (cached sp)) ≤ cache_size < 2 ^ 64)%Z;
  r_live : ∀ a, a ∈ live sp → a ∉ cached sp ∧ next_of (links w) a = Some nullptr;
  r_dom : ∀ a, is_Some (objs sp !! a) ↔ a ∈ live sp ∨ a ∈ cached sp;
  r_obj : map_Forall (object_ok w) (objs sp);
  r_uts : ∀ a, is_Some (uts w !! a) → is_Some (objs sp !! a);
  r_blocks : ∀ sb n, blocks w !! sb = Some n → ∃ a, objs sp !! a = Some (sb, n);
  r_reset : ∀ a u, a ∈ cached sp → uts w !! a = Some u → is_reset a u;
  r_total : totalNumberofUTs w = wrap 64 (Z.of_nat (base.size (live sp)))
}.

Lemma life_rep_init :
  (0 ≤ cache_size < 2 ^ 64)%Z → life_rep (world_init cache_size) lives_init.
Proof.
  intros Hsz. constructor; simpl.
  - by apply stack_rep_nil.
  - done.
  - split; [done|lia].
  - set_solver.
  - intros a. rewrite lookup_empty. split; [by intros [??]|set_solver].
  - apply map_Forall_empty.
  - intros a [u Hu]. by rewrite lookup_empty in Hu.
  - intros sb n Hb. by rewrite lookup_empty in Hb.
  - set_solver.
  - done.
Qed.

(** ** Primitive steps *)

Lemma wp_get_ut a u w (Q : uThread → world → Prop) :
  uts w !! a = Some u → Q u w → wp (get_ut a) Q w.
Proof. intros Hu HQ. unfold wp, get_ut. by rewrite Hu. Qed.
Lemma wp_put_ut a u u' w (Q : unit → world → Prop) :
  uts w !! a = Some u →
  Q tt (mkWorld (blocks w) (links w) (<[a := u']> (uts w)) (utCache w) (totalNumberofUTs w)
                (uThreadMasterID w)) →
  wp (put_ut a u') Q w.
Proof. intros Hu HQ. unfold wp, put_ut. by rewrite Hu. Qed.
Lemma wp_with_links {A} (c : M mem A) (P : A → mem → Prop) w (Q : A → world → Prop) :
  wp c P (links w) →
  (∀ a l, P a l → Q a (mkWorld (blocks w) l (uts w) (utCache w) (totalNumberofUTs w)
                               (uThreadMasterID w))) →
  wp (with_links c) Q w.
Proof.
  unfold wp, with_links. destruct (c (links w)) as [[a l]|]; [|done]. auto.
Qed.

(** The cache holds distinct objects that are not in use. *)
Lemma life_cached w sp x r :
  life_rep w sp → cached sp = x :: r → x ∉ r ∧ x ∉ live sp ∧ x ≠ nullptr ∧ is_Some (objs sp !! x).
Proof.
  intros R Hc. pose proof (r_stack _ _ R) as [(Hnd & H0 & _) _]. rewrite Hc in Hnd, H0.
  apply NoDup_cons in Hnd as [? _]. split_and!; [done| |set_solver|].
  - intros Hl. apply (r_live _ _ R) in Hl as [Hl _]. rewrite Hc in Hl. set_solver.
  - apply (r_dom _ _ R). right. rewrite Hc. set_solver.
Qed.

Lemma cache_pop_hit w sp x r :
  life_rep w sp → cached sp = x :: r →
  wp (cache_pop true)
     (λ v w', v = x ∧
        (blocks w' = blocks w ∧ uts w' = uts w ∧ totalNumberofUTs w' = totalNumberofUTs w) ∧
        stack_rep (links w') (stack (utCache w')) r ∧
        count (utCache w') = Z.of_nat (length r) ∧ size (utCache w') = size (utCache w) ∧
        next_of (links w') x = Some nullptr ∧ same_outside [x] (links w) (links w')) w.
Proof.
  intros R Hc. pose proof (r_stack _ _ R) as Hs. pose proof (r_count _ _ R) as Hn.
  pose proof (r_size _ _ R) as [_ Hsz]. rewrite Hc in Hs, Hn, Hsz. cbn [length] in Hn, Hsz.
  unfold cache_pop. apply wp_bind. unfold get_cache at 1, wp at 1. simpl.
  destruct (Z.eqb_spec (count (utCache w)) 0); [lia|]. simpl.
  apply wp_bind. eapply wp_with_links; [by apply stack_pop_spec|].
  intros [v st] l (Hv & Hr & Hx & Ho). simpl in *. apply wp_bind. unfold set_cache, wp at 1. simpl.
  split_and!; try done. cbn [utCache count]. unfold wrap. rewrite Hn, Z.mod_small; lia.
Qed.

Lemma cache_pop_miss w sp lk :
  life_rep w sp → (if lk : bool then cached sp else []) = [] → cache_pop lk w = Ok (nullptr, w).
Proof.
  intros R Hc. unfold cache_pop, mbind, M_bind. simpl. destruct lk; [|done].
  rewrite (r_count _ _ R), Hc. done.
Qed.

(** A step that changes one object in use, other than its block. *)
Lemma life_rep_put w sp a u u' :
  life_rep w sp → a ∈ live sp → uts w !! a = Some u →
  stackBottom u' = stackBottom u → stackSize u' = stackSize u →
  life_rep (mkWorld (blocks w) (links w) (<[a := u']> (uts w)) (utCache w)
                    (totalNumberofUTs w) (uThreadMasterID w)) sp.
Proof.
  intros R Ha Hu E1 E2. pose proof (r_live _ _ R a Ha) as [Hna _].
  destruct R. constructor; simpl; try done.
  - intros b o Hb. destruct (r_obj0 b o Hb) as (v & Hv & H1 & H2 & H3 & H4 & H5).
    destruct (decide (b = a)) as [->|Hne].
    + rewrite Hu in Hv. injection Hv as ->. exists u'. cbn [uts blocks].
      rewrite lookup_insert_eq, E1, E2. by split_and!.
    + exists v. cbn [uts blocks]. rewrite lookup_insert_ne by done. by split_and!.
  - intros b. rewrite lookup_insert_is_Some'. intros [->|?]; auto.
  - intros b v Hb. assert (b ≠ a) by congruence. rewrite lookup_insert_ne by done. by apply r_reset0.
Qed.

(** The end of [create]: the joinable flag. *)
Lemma set_joinable_spec w sp a u (joinable : bool) :
  life_rep w sp → a ∈ live sp → uts w !! a = Some u → is_reset a u →
  wp (if joinable then
        v ← get_ut a;
        put_ut a (mkUThread (currentCluster v) (homekThread v) (stackPointer v) (stackBottom v)
                            (stackSize v) (uThreadID v) (state v) JOINABLE)
      else mret tt)
     (λ _ w', life_rep w' sp ∧ ∃ u', uts w' !! a = Some u' ∧ state u' = INITIALIZED ∧
        jState u' = (if joinable then JOINABLE else DETACHED) ∧ stackPointer u' = a ∧
        stackSize u' = stackSize u) w.
Proof.
  intros R Ha Hu (Hr1 & Hr2 & Hr3 & Hr4 & Hr5). destruct joinable.
  - apply wp_bind. eapply wp_get_ut; [done|]. eapply wp_put_ut; [done|]. split.
    + by eapply life_rep_put.
    + eexists. simpl. rewrite lookup_insert_eq. by split_and!.
  - apply wp_ret. split; [done|]. exists u. by split_and!.
Qed.

Lemma wrap_succ_size (X : gset addr) a :
  a ∉ X → wrap 64 (wrap 64 (Z.of_nat (base.size X)) + 1) =
          wrap 64 (Z.of_nat (base.size ({[a]} ∪ X))).
Proof.
  intros Ha. rewrite size_union, size_singleton by set_solver. unfold wrap.
  rewrite Zplus_mod_idemp_l. f_equal. lia.
Qed.
Lemma wrap_pred_size (X : gset addr) a :
  a ∈ X → wrap 64 (wrap 64 (Z.of_nat (base.size X)) + -1) =
          wrap 64 (Z.of_nat (base.size (X ∖ {[a]}))).
Proof.
  intros Ha. rewrite size_difference, size_singleton by set_solver.
  assert (base.size X ≠ 0) by (apply size_non_empty_iff; set_solver).
  unfold wrap. rewrite Zplus_mod_idemp_l. f_equal. lia.
Qed.

(** What [create] returns: an object in use, in its initial state. *)
Definition created (joinable : bool) (a : addr) (w : world) : Prop :=
  ∃ u, uts w !! a = Some u ∧ state u = INITIALIZED ∧
    jState u = (if joinable then JOINABLE else DETACHED) ∧ stackPointer u = a.

Lemma create_hit w sp ss joinable ml x r :
  life_rep w sp → cached sp = x :: r →
  wp (create sizeof_uThread ss joinable true ml)
     (λ a w', a = x ∧ life_rep w' (mkLives ({[x]} ∪ live sp) r (objs sp)) ∧ created joinable a w') w.
Proof.
  intros R Hc. destruct (life_cached _ _ _ _ R Hc) as (Hxr & Hxl & Hx0 & [o Ho]).
  destruct (r_obj _ _ R x o Ho) as (u & Hu & Hobj).
  pose proof (r_reset _ _ R x u ltac:(rewrite Hc; set_solver) Hu) as Hreset.
  apply wp_bind. eapply wp_mono; [by eapply cache_pop_hit|].
  intros v w1 (-> & (E1 & E2 & E3) & Hst & Hn & Hsz & Hx & Hout).
  apply wp_bind. destruct (Z.eqb_spec x nullptr); [done|].
  apply wp_bind. unfold add_total, wp at 1. apply wp_ret.
  set (w2 := mkWorld _ _ _ _ _ _).
  assert (R2 : life_rep w2 (mkLives ({[x]} ∪ live sp) r (objs sp))).
  { destruct R. rewrite Hc in *. constructor; unfold w2; simpl; try done.
    - destruct r_size0 as [? ?]. split; [congruence|]. cbn [length] in *. lia.
    - intros a Ha. destruct (decide (a = x)) as [->|Hne]; [done|].
      destruct (r_live0 a) as [? ?]; [set_solver|]. split; [set_solver|].
      destruct Hout as [Hout _]. rewrite Hout; [done|set_solver].
    - intros a. rewrite r_dom0. set_solver.
    - intros a o' Ha. unfold object_ok. simpl. rewrite E1, E2. by apply r_obj0.
    - intros a. rewrite E2. apply r_uts0.
    - intros sb k. rewrite E1. apply r_blocks0.
    - intros a v Ha. rewrite E2. apply r_reset0. set_solver.
    - rewrite E3, r_total0. by apply wrap_succ_size. }
  apply wp_bind. eapply wp_mono.
  { eapply (set_joinable_spec w2 _ x u); [done|set_solver| |done]. unfold w2. simpl. by rewrite E2. }
  intros [] w3 (R3 & u' & Hu' & ? & ? & ? & ?). apply wp_ret. split_and!; try done. by exists u'.
Qed.

Lemma create_miss w sp ss joinable lk sb :
  life_rep w sp → (if lk : bool then cached sp else []) = [] → fresh_block sp sb ss →
  let This := (sb + ss - sizeof_uThread)%Z in
  wp (create sizeof_uThread ss joinable lk (Some sb))
     (λ a w', a = This ∧
        life_rep w' (mkLives ({[This]} ∪ live sp) (cached sp) (<[This := (sb, ss)]> (objs sp))) ∧
        created joinable a w') w.
Proof.
  intros R Hc (Hf1 & Hf2 & Hf3) This. unfold create. apply wp_bind. unfold wp at 1.
  rewrite (cache_pop_miss _ _ _ R Hc). apply wp_bind. simpl.
  apply wp_bind. unfold createStack, wp at 1. apply wp_bind. unfold new_uThread, wp at 1. apply wp_ret.
  fold This. set (w2 := mkWorld _ _ _ _ _ _).
  assert (Hnl : This ∉ live sp ∧ This ∉ cached sp).
  { split; intros Hin; assert (is_Some (objs sp !! This)) as [? E] by (apply (r_dom _ _ R); auto);
      unfold This in E; congruence. }
  destruct Hnl as [Hnl Hnc].
  assert (Hother : ∀ a, is_Some (objs sp !! a) → a ≠ This).
  { intros a [? Ha] ->. unfold This in Ha. congruence. }
  assert (R2 : life_rep w2 (mkLives ({[This]} ∪ live sp) (cached sp) (<[This := (sb, ss)]> (objs sp)))).
  { assert (Hso : ∀ a, a ≠ This → next_of (links w2) a = next_of (links w) a).
    { intros a Ha. unfold w2, next_of. simpl. by rewrite lookup_insert_ne. }
    destruct R. constructor; simpl; try done.
    - destruct r_stack0 as [(? & ? & Hch) ?]. split; [|done]. split_and!; [done..|].
      eapply chain_ext; [|done]. intros a Ha. apply Hso. intros ->. done.
    - intros a Ha. destruct (decide (a = This)) as [->|Hne].
      + split; [done|]. unfold w2, next_of. simpl. by rewrite lookup_insert_eq.
      + destruct (r_live0 a) as [? ?]; [set_solver|]. rewrite Hso by done. done.
    - intros a. rewrite lookup_insert_is_Some, r_dom0. set_solver.
    - intros a o Ha. apply lookup_insert_Some in Ha as [[<- <-]|[Hne Ha]].
      + eexists. unfold w2. cbn [uts blocks]. rewrite !lookup_insert_eq. by split_and!.
      + destruct (r_obj0 a o Ha) as (v & Hv & H1 & H2 & H3 & H4 & H5). exists v.
        unfold w2. cbn [uts blocks]. specialize (Hf3 a o Ha). simpl in Hf3.
        rewrite !lookup_insert_ne by congruence. by split_and!.
    - intros a. unfold w2. cbn [uts]. rewrite !lookup_insert_is_Some'. intros [?|?]; auto.
    - intros sb' n' Hb. apply lookup_insert_Some in Hb as [[<- <-]|[Hne Hb]].
      + exists This. by rewrite lookup_insert_eq.
      + destruct (r_blocks0 _ _ Hb) as [a Ha]. exists a. rewrite lookup_insert_ne; [done|].
        intros E. by apply (Hother a).
    - intros a v Ha. unfold w2. simpl. rewrite lookup_insert_ne by (intros <-; done). by apply r_reset0.
    - rewrite r_total0. by apply wrap_succ_size. }
  apply wp_bind. eapply wp_mono.
  { eapply (set_joinable_spec w2 _ This); [done|set_solver| |].
    - unfold w2. simpl. by rewrite lookup_insert_eq.
    - done. }
  intros [] w3 (R3 & u' & Hu' & ? & ? & ? & ?). apply wp_ret. split_and!; try done. by exists u'.
Qed.

Lemma free_stack_spec w sp ut tot :
  life_rep w sp → ut ∈ live sp → tot = wrap 64 (Z.of_nat (base.size (live sp ∖ {[ut]}))) →
  wp (free_stack ut)
     (λ _ w', life_rep w' (mkLives (live sp ∖ {[ut]}) (cached sp) (delete ut (objs sp))))
     (mkWorld (blocks w) (links w) (uts w) (utCache w) tot (uThreadMasterID w)).
Proof.
  intros R Hl Ht. pose proof (r_live _ _ R ut Hl) as [Hnc Hnx].
  assert (is_Some (objs sp !! ut)) as [o Ho] by (apply (r_dom _ _ R); auto).
  destruct (r_obj _ _ R ut o Ho) as (u & Hu & Hsb & Hss & Hbl & Ha & H0).
  apply wp_bind. eapply wp_get_ut; [done|]. unfold free_block, wp. cbn [blocks]. rewrite Hsb, Hbl.
  assert (Hso : ∀ a, a ≠ ut → next_of (delete ut (links w)) a = next_of (links w) a).
  { intros a Hne. unfold next_of. by rewrite lookup_delete_ne. }
  destruct R. constructor; simpl; try done.
  - destruct r_stack0 as [(? & ? & Hch) ?]. split; [|done]. split_and!; [done..|].
    eapply chain_ext; [|done]. intros a Hin. apply Hso. intros ->. done.
  - intros a Hin. destruct (r_live0 a) as [? ?]; [set_solver|]. rewrite Hso by set_solver. done.
  - intros a. rewrite lookup_delete_is_Some, r_dom0. split; [set_solver|].
    intros [?|?]; split; [set_solver|set_solver| |by right]. intros ->. done.
  - intros a o' Hlk. apply lookup_delete_Some in Hlk as [Hne Hlk].
    destruct (r_obj0 a o' Hlk) as (v & Hv & H1 & H2 & H3 & H4 & H5). exists v.
    cbn [uts blocks]. rewrite (lookup_delete_ne _ ut) by done. rewrite lookup_delete_ne.
    + by split_and!.
    + intros E. rewrite E in *. apply Hne. assert (o'.2 = o.2) by congruence. congruence.
  - intros a. rewrite !lookup_delete_is_Some. intros [? ?]; auto.
  - intros sb n Hb. apply lookup_delete_Some in Hb as [Hne Hb]. destruct (r_blocks0 _ _ Hb) as [a Hin].
    exists a. rewrite lookup_delete_ne; [done|]. intros <-. rewrite Ho in Hin. by simplify_eq.
  - intros a v Hin. rewrite lookup_delete_ne by (intros <-; done). by apply r_reset0.
Qed.

Lemma cache_push_spec w sp ut tot :
  life_rep w sp → ut ∈ live sp → (Z.of_nat (length (cached sp)) ≠ cache_size)%Z →
  tot = wrap 64 (Z.of_nat (base.size (live sp ∖ {[ut]}))) →
  wp (cache_push true ut)
     (λ r w', (0 ≤ r)%Z ∧ life_rep w' (mkLives (live sp ∖ {[ut]}) (ut :: cached sp) (objs sp)))
     (mkWorld (blocks w) (links w) (uts w) (utCache w) tot (uThreadMasterID w)).
Proof.
  intros R Hl Hsz Ht. pose proof (r_live _ _ R ut Hl) as [Hnc Hnx].
  assert (is_Some (objs sp !! ut)) as [o Ho] by (apply (r_dom _ _ R); auto).
  destruct (r_obj _ _ R ut o Ho) as (u & Hu & Hsb & Hss & Hbl & Ha & H0).
  pose proof (r_size _ _ R) as [Hs1 Hs2]. pose proof (r_count _ _ R) as Hcn.
  apply wp_bind. unfold get_cache, wp at 1. cbn [utCache].
  destruct (Z.eqb_spec (count (utCache w)) (size (utCache w))); [congruence|]. cbn [negb orb].
  apply wp_bind, wp_bind. eapply wp_get_ut; [done|]. eapply wp_put_ut; [done|].
  apply wp_bind. eapply wp_with_links; [apply stack_push_spec; [apply (r_stack _ _ R)|done..]|].
  intros st l [Hst Hout]. apply wp_bind. unfold set_cache, wp at 1. cbn. apply wp_ret.
  assert (Hwr : wrap 64 (count (utCache w) + 1) = Z.of_nat (S (length (cached sp))))
    by (unfold wrap; rewrite Hcn, Z.mod_small; lia).
  rewrite Hwr. split; [lia|]. destruct R. constructor; cbn -[Z.of_nat length]; try done.
  - split; [done|]. cbn [length]. lia.
  - intros a Hin. assert (a ≠ ut) by set_solver. destruct (r_live0 a) as [? ?]; [set_solver|].
    split; [set_solver|]. destruct Hout as [Hout _]. rewrite Hout; [done|set_solver].
  - intros a. rewrite r_dom0. destruct (decide (a = ut)) as [->|]; set_solver.
  - intros a o' Hlk. destruct (r_obj0 a o' Hlk) as (v & Hv & H1 & H2 & H3 & H4 & H5).
    destruct (decide (a = ut)) as [->|Hne].
    + rewrite Hu in Hv. injection Hv as ->. eexists. cbn [uts blocks]. rewrite lookup_insert_eq.
      by split_and!.
    + exists v. cbn [uts blocks]. rewrite lookup_insert_ne by done. by split_and!.
  - intros a. rewrite lookup_insert_is_Some'. intros [->|?]; eauto.
  - intros a v Hin Hv. destruct (decide (a = ut)) as [->|Hne].
    + rewrite lookup_insert_eq in Hv. by injection Hv as <-.
    + rewrite lookup_insert_ne in Hv by done. apply r_reset0; [set_solver|done].
Qed.

Lemma cache_push_refused w sp lk ut tot :
  life_rep w sp → negb lk || (Z.of_nat (length (cached sp)) =? cache_size)%Z = true →
  cache_push lk ut (mkWorld (blocks w) (links w) (uts w) (utCache w) tot (uThreadMasterID w)) =
  Ok ((-1)%Z, mkWorld (blocks w) (links w) (uts w) (utCache w) tot (uThreadMasterID w)).
Proof.
  intros R Hc. unfold cache_push, mbind, M_bind, get_cache. cbn [utCache].
  rewrite (r_count _ _ R), (proj1 (r_size _ _ R)), Hc. done.
Qed.

Lemma destory_spec w sp force lk ut a sp' :
  life_rep w sp → lspec (ODestroy force lk ut) sp = Some (a, sp') →
  wp (destory force lk ut) (λ _ w', life_rep w' sp') w.
Proof.
  intros R Hs. simpl in Hs. case_decide as Hl; [|done]. unfold destory.
  apply wp_bind. unfold add_total, wp at 1.
  assert (Ht : wrap 64 (totalNumberofUTs w + -1) = wrap 64 (Z.of_nat (base.size (live sp ∖ {[ut]}))))
    by (rewrite (r_total _ _ R); by apply wrap_pred_size).
  destruct force; cbn [orb] in Hs.
  { simplify_eq. apply wp_bind, wp_ret. by apply free_stack_spec. }
  apply wp_bind, wp_bind.
  destruct (negb lk || (Z.of_nat (length (cached sp)) =? cache_size)%Z) eqn:Hc; simplify_eq.
  - unfold wp at 1. erewrite cache_push_refused by done. apply wp_ret. by apply free_stack_spec.
  - destruct lk; [|done]. simpl in Hc. apply Z.eqb_neq in Hc.
    eapply wp_mono; [by apply cache_push_spec|]. intros r w' [Hr R']. apply wp_ret.
    destruct (Z.ltb_spec r 0); [lia|]. by apply wp_ret.
Qed.

Lemma lexec_refines o w sp a sp' :
  life_rep w sp → lspec o sp = Some (a, sp') →
  wp (lexec o) (λ a' w', a' = a ∧ life_rep w' sp' ∧
    match o with OCreate _ joinable _ _ => created joinable a w' | _ => True end) w.
Proof.
  intros R Hs. destruct o as [ss joinable lk ml|force lk ut].
  - simpl in Hs. destruct (if lk : bool then cached sp else []) as [|x r] eqn:Hc.
    + destruct ml as [sb|]; [|done]. simpl in Hs. case_decide as Hf; simplify_eq.
      eapply wp_mono; [by apply create_miss|]. intros a' w' (-> & ? & ?). done.
    + destruct lk; simplify_eq. eapply wp_mono; [by eapply create_hit|].
      intros a' w' (-> & ? & ?). done.
  - apply wp_bind. eapply wp_mono; [by eapply destory_spec|]. intros [] w' R'.
    apply wp_ret. split_and!; try done. simpl in Hs.
    case_decide; [|done]. by case_match; simplify_eq.
Qed.

Lemma lexecs_refine os w sp l sp' :
  life_rep w sp → lspecs os sp = Some (l, sp') →
  wp (lexecs os) (λ l' w', l' = l ∧ life_rep w' sp') w.
Proof.
  revert w sp l. induction os as [|o os IH]; intros w sp l R Hs; simpl in Hs.
  - simplify_eq. by apply wp_ret.
  - destruct (lspec o sp) as [[a sp1]|] eqn:Ho; simplify_eq/=.
    destruct (lspecs os sp1) as [[l1 sp2]|] eqn:Hos; simplify_eq/=.
    apply wp_bind. eapply wp_mono; [by eapply lexec_refines|]. intros a' w1 (-> & R1 & _).
    apply wp_bind. eapply wp_mono; [by eapply IH|]. intros l' w2 [-> R2]. by apply wp_ret.
Qed.
End life_spec.

(** C35. Every history of [create] and [destory] behaves as the specification
    says, whatever the outcome of the try-locks: no access goes through a
    freed object, a destroyed uThread is freed or becomes the next one
    [create] hands out, the cache never exceeds its size, its count is the
    number of cached uThreads and [totalNumberofUTs] the number in use.  Nothing
    is leaked and nothing is freed too early: the objects are exactly the uThreads
    in use and in the cache, which are different ones, and the blocks that are
    allocated are exactly their stacks. *)
Theorem lifecycle_refines `{Build} sizeof_uThread cache_size os l sp :
  (0 ≤ cache_size < 2 ^ 64)%Z →
  lspecs sizeof_uThread cache_size os lives_init = Some (l, sp) →
  wp (lexecs sizeof_uThread os)
     (λ l' w, l' = l ∧ count (utCache w) = Z.of_nat (length (cached sp)) ∧
        (Z.of_nat (length (cached sp)) ≤ cache_size)%Z ∧
        totalNumberofUTs w = wrap 64 (Z.of_nat (base.size (live sp))) ∧
        (∀ a, is_Some (uts w !! a) ↔ a ∈ live sp ∨ a ∈ cached sp) ∧
        NoDup (cached sp) ∧ (∀ a, a ∈ live sp → a ∉ cached sp) ∧
        (∀ sb n, blocks w !! sb = Some n ↔
           ∃ a u, uts w !! a = Some u ∧ stackBottom u = sb ∧ stackSize u = n))
     (world_init cache_size).
Proof.
  intros Hsz Hs. eapply wp_mono; [by eapply lexecs_refine, Hs; apply life_rep_init|].
  intros l' w [-> R].
  assert (Hobj : ∀ a, is_Some (uts w !! a) ↔ is_Some (objs sp !! a)).
  { intros a. split; [apply (r_uts _ _ _ _ R)|]. intros [o Ho].
    destruct (r_obj _ _ _ _ R a o Ho) as (u & Hu & _). eauto. }
  split_and!; [done|apply (r_count _ _ _ _ R)|apply (r_size _ _ _ _ R)|apply (r_total _ _ _ _ R)| | | |].
  - intros a. rewrite Hobj. apply (r_dom _ _ _ _ R).
  - by destruct (r_stack _ _ _ _ R) as [(? & _) _].
  - intros a Ha. by apply (r_live _ _ _ _ R).
  - intros sb n. split.
    + intros [a Ha]%(r_blocks _ _ _ _ R). destruct (r_obj _ _ _ _ R a _ Ha) as (u & Hu & H1 & H2 & _). eauto.
    + intros (a & u & Hu & <- & <-). destruct (proj1 (Hobj a)) as [o Ho]; [eauto|].
      destruct (r_obj _ _ _ _ R a o Ho) as (u' & Hu' & H1 & H2 & H3 & _). simplify_eq. by rewrite H1, H2.
Qed.

(** [create] after any history returns a uThread in use that is
    INITIALIZED, joinable exactly when asked for, with its stack pointer at
    the object, whether it comes from the cache or from [malloc]. *)
Theorem create_initial_state `{Build} sizeof_uThread cache_size w sp ss joinable lk ml a sp' :
  life_rep sizeof_uThread cache_size w sp →
  lspec sizeof_uThread cache_size (OCreate ss joinable lk ml) sp = Some (a, sp') →
  wp (create sizeof_uThread ss joinable lk ml)
     (λ a' w', a' = a ∧ a ∈ live sp' ∧ created joinable a w') w.
Proof.
  intros R Hs. eapply wp_mono; [by eapply (lexec_refines _ _ (OCreate ss joinable lk ml))|].
  intros a' w' (-> & R' & Hc). split_and!; try done. clear -Hs. simpl in Hs.
  destruct (if lk : bool then _ else _); simplify_option_eq; set_solver.
Qed.

(** [create] ignores the requested stack size when it takes a uThread from
    the cache: here 65536 bytes are asked for and the uThread has 8192. *)
Theorem create_ignores_size :
  let _ := {| NDEBUG := false |} in
  match lexecs 256 [OCreate 8192 false true (Some 4096); ODestroy false true 12032;
                    OCreate 65536 false true (Some 131072)]%Z (world_init 1000) with
  | Ok (l, w) => l = [12032; 0; 12032]%Z ∧ stackSize <$> uts w !! 12032%Z = Some 8192%Z
  | Fault _ => False
  end.
Proof. by vm_compute. Qed.

Lemma lifecycle_refines_witness :
  let _ := {| NDEBUG := false |} in
  let os := [OCreate 8192 true true (Some 4096); OCreate 8192 false false (Some 16384);
             ODestroy false true 12032; ODestroy false false 24320;
             OCreate 8192 false true None]%Z in
  let sp := mkLives {[12032%Z]} [] {[12032%Z := (4096, 8192)%Z]} in
  wp (lexecs 256 os)
     (λ l' w, l' = [12032; 24320; 0; 0; 12032]%Z ∧
        count (utCache w) = Z.of_nat (length (cached sp)) ∧
        (Z.of_nat (length (cached sp)) ≤ 1000)%Z ∧
        totalNumberofUTs w = wrap 64 (Z.of_nat (base.size (live sp))) ∧
        (∀ a, is_Some (uts w !! a) ↔ a ∈ live sp ∨ a ∈ cached sp) ∧
        NoDup (cached sp) ∧ (∀ a, a ∈ live sp → a ∉ cached sp) ∧
        (∀ sb n, blocks w !! sb = Some n ↔
           ∃ a u, uts w !! a = Some u ∧ stackBottom u = sb ∧ stackSize u = n))
     (world_init 1000).
Proof.
  intros B os sp. apply (lifecycle_refines 256 1000 os [12032; 24320; 0; 0; 12032]%Z sp).
  - done.
  - by vm_compute.
Defined.

Lemma create_initial_state_witness :
  let _ := {| NDEBUG := false |} in
  wp (create 256 8192 true true (Some 4096%Z))
     (λ a' w', a' = 12032%Z ∧ 12032%Z ∈ live (mkLives {[12032%Z]} [] {[12032%Z := (4096, 8192)%Z]}) ∧
        created true 12032 w') (world_init 1000).
Proof.
  intros B. apply (create_initial_state 256 1000 (world_init 1000) lives_init 8192 true true
                     (Some 4096%Z) 12032 _).
  - apply life_rep_init. done.
  - by vm_compute.
Defined.
