(* ===== verification/Cluster.v ===== *)
(** * Cluster: registration of kThreads and round-robin assignment

    [src/runtime/Cluster.h] and [src/runtime/Cluster.cpp], with the part of
    the kThread constructors and destructor that keeps the counts
    ([initialSynchronization], [addNewkThread], [~kThread] of
    [src/runtime/kThread.cpp]). *)

From S2P Require Import Prelude.

Definition UINTMAX_MAX : Z := (2 ^ 64 - 1)%Z.

Record Cluster := mkCluster {
  ktVector : list addr;
  ktLast : Z;                 (* atomic<size_t> *)
  numberOfkThreads : Z;       (* atomic_uint *)
  clusterID : Z
}.

(** The clusters in the order of [clusterList], and the static counters. *)
Record registry := mkRegistry {
  clusterList : list Cluster;
  clusterMasterID : Z;        (* atomic_ushort *)
  totalNumberofKTs : Z        (* atomic_uint *)
}.
Definition registry_init : registry := mkRegistry [] 0 0.

#[export] Instance Cluster_eq_dec : EqDecision Cluster.
Proof. solve_decision. Defined.

(** [Cluster::Cluster()] with [initialSynchronization()]: the id is a 64-bit
    copy of a 16-bit counter, and the guard compares in 64 bits. *)
Definition new_Cluster : M registry nat := λ r,
  if (clusterMasterID r + 1 <? UINTMAX_MAX)%Z then
    Ok (length (clusterList r),
        mkRegistry (clusterList r ++ [mkCluster [] 0 0 (clusterMasterID r)])
                   (wrap 16 (clusterMasterID r + 1)) (totalNumberofKTs r))
  else Fault (Exit 1).

Definition on_cluster {A} (i : nat) (f : Cluster → outcome (A * Cluster)) : M registry A := λ r,
  match clusterList r !! i with
  | None => Fault (BadAccess nullptr)
  | Some c =>
      match f c with
      | Ok (a, c') => Ok (a, mkRegistry (<[i := c']> (clusterList r)) (clusterMasterID r)
                                        (totalNumberofKTs r))
      | Fault e => Fault e
      end
  end.

(** [void addNewkThread(kThread& kt)] *)
Definition addNewkThread (kt : addr) (c : Cluster) : outcome (unit * Cluster) :=
  Ok (tt, mkCluster (ktVector c ++ [kt]) (ktLast c) (wrap 32 (numberOfkThreads c + 1)) (clusterID c)).

(** [kThread::initialSynchronization()]: the sum is taken in 32 bits. *)
Definition kThread_initialSynchronization : M registry unit := λ r,
  if (UINTMAX_MAX <? wrap 32 (totalNumberofKTs r + 1))%Z then Fault (Exit 1)
  else Ok (tt, mkRegistry (clusterList r) (clusterMasterID r) (wrap 32 (totalNumberofKTs r + 1))).

(** [kThread(Cluster&)] registers itself; [kThread(Cluster&, func, args)],
    which runs the poller, does not. *)
Definition kThread_ctor (cluster : nat) (kt : addr) : M registry unit :=
  on_cluster cluster (addNewkThread kt);; kThread_initialSynchronization.
Definition kThread_ctor_func (cluster : nat) (kt : addr) : M registry unit :=
  kThread_initialSynchronization.

(** [~kThread()] *)
Definition kThread_dtor (cluster : nat) (kt : addr) : M registry unit := λ r,
  on_cluster cluster
    (λ c, Ok (tt, mkCluster (ktVector c) (ktLast c) (wrap 32 (numberOfkThreads c - 1)) (clusterID c)))
    (mkRegistry (clusterList r) (clusterMasterID r) (wrap 32 (totalNumberofKTs r - 1))).

(** [kThread* assignkThread()] is a read of [ktLast] and an exchange; other
    threads may run in between.  Without kThreads the assertion fails, and with
    [NDEBUG] the division by the size 0 does. *)
Definition assign_next (c : Cluster) : outcome Z :=
  match ktVector c with
  | [] => Fault AssertFailure
  | _ => Ok (wrap 64 (ktLast c + 1) mod Z.of_nat (length (ktVector c)))%Z
  end.
Definition assign_exchange (next : Z) (c : Cluster) : outcome (addr * Cluster) :=
  match ktVector c !! Z.to_nat (ktLast c) with
  | Some kt => Ok (kt, mkCluster (ktVector c) next (numberOfkThreads c) (clusterID c))
  | None => Fault (BadAccess nullptr)
  end.
Definition assignkThread (c : Cluster) : outcome (addr * Cluster) :=
  match assign_next c with
  | Ok next => assign_exchange next c
  | Fault e => Fault e
  end.

(** [k] calls in a row. *)
Fixpoint assign_many (k : nat) (c : Cluster) : outcome (list addr * Cluster) :=
  match k with
  | 0 => Ok ([], c)
  | S k' =>
      match assignkThread c with
      | Ok (kt, c1) =>
          match assign_many k' c1 with
          | Ok (l, c2) => Ok (kt :: l, c2)
          | Fault e => Fault e
          end
      | Fault e => Fault e
      end
  end.

(** ** Concurrent assignment *)

Record assigning := mkAssigning {
  acl : Cluster;
  nexts : gmap nat Z;            (* what each caller has computed as next *)
  handed : list (outcome addr)   (* the results, failures included *)
}.

Inductive clabel : Type :=
  | CRead (t : nat)              (* t reads ktLast and the size *)
  | CExch (t : nat)              (* t exchanges and indexes the vector *)
  | CAdd (kt : addr).            (* a kThread registers *)

Definition cstep (a : clabel) (s : assigning) : option assigning :=
  match a with
  | CRead t =>
      match nexts s !! t with
      | Some _ => None
      | None =>
          Some (match assign_next (acl s) with
                | Ok n => mkAssigning (acl s) (<[t := n]> (nexts s)) (handed s)
                | Fault e => mkAssigning (acl s) (nexts s) (handed s ++ [Fault e])
                end)
      end
  | CExch t =>
      n ← nexts s !! t;
      Some (match assign_exchange n (acl s) with
            | Ok (kt, c) => mkAssigning c (delete t (nexts s)) (handed s ++ [Ok kt])
            | Fault e => mkAssigning (acl s) (delete t (nexts s)) (handed s ++ [Fault e])
            end)
  | CAdd kt =>
      match addNewkThread kt (acl s) with
      | Ok (_, c) => Some (mkAssigning c (nexts s) (handed s))
      | Fault _ => None
      end
  end.

(** The cluster has kThreads and an index in range. *)
Definition cluster_ok (c : Cluster) : Prop :=
  (0 ≤ ktLast c < Z.of_nat (length (ktVector c)))%Z ∧ (Z.of_nat (length (ktVector c)) < 2 ^ 64)%Z.

Definition assigning_ok (s : assigning) : Prop :=
  (0 ≤ ktLast (acl s) < Z.of_nat (length (ktVector (acl s))))%Z ∧
  map_Forall (λ _ n, 0 ≤ n < Z.of_nat (length (ktVector (acl s))))%Z (nexts s) ∧
  Forall (λ o, ∃ kt, o = Ok kt ∧ kt ∈ ktVector (acl s)) (handed s).

Lemma assign_next_range c n :
  assign_next c = Ok n → (0 ≤ n < Z.of_nat (length (ktVector c)))%Z.
Proof.
  unfold assign_next. destruct (ktVector c) as [|x l]; [done|]. intros [= <-].
  apply Z.mod_pos_bound. cbn [length]. lia.
Qed.
Lemma assign_next_ok c : ktVector c ≠ [] → ∃ n, assign_next c = Ok n.
Proof. unfold assign_next. destruct (ktVector c); eauto. done. Qed.
Lemma assign_exchange_ok n c :
  (0 ≤ ktLast c < Z.of_nat (length (ktVector c)))%Z →
  ∃ kt, ktVector c !! Z.to_nat (ktLast c) = Some kt ∧
    assign_exchange n c = Ok (kt, mkCluster (ktVector c) n (numberOfkThreads c) (clusterID c)).
Proof.
  intros Hr. unfold assign_exchange.
  destruct (lookup_lt_is_Some_2 (ktVector c) (Z.to_nat (ktLast c))) as [kt Hkt]; [lia|].
  exists kt. by rewrite Hkt.
Qed.

Lemma assigning_ok_step a s s' : assigning_ok s → cstep a s = Some s' → assigning_ok s'.
Proof.
  intros (H1 & H2 & H3) Hs. destruct a as [t|t|kt]; simpl in Hs.
  - destruct (nexts s !! t); simplify_eq.
    destruct (assign_next_ok (acl s)) as [n Hn]; [intros E; rewrite E in H1; simpl in H1; lia|].
    rewrite Hn. split; [done|split; [|done]]. simpl.
    apply map_Forall_insert_2; [|done]. by apply assign_next_range.
  - destruct (nexts s !! t) as [n|] eqn:Ht; simplify_eq/=.
    destruct (assign_exchange_ok n (acl s) H1) as (kt & Hkt & ->). split; [|split]; simpl.
    + by apply (H2 t).
    + by apply map_Forall_delete.
    + apply Forall_app. split; [done|]. apply Forall_singleton. exists kt.
      split; [done|]. by eapply list_elem_of_lookup_2.
  - simplify_eq. split; [|split]; simpl; rewrite ?length_app.
    + simpl. lia.
    + eapply map_Forall_impl; [done|]. simpl. intros. lia.
    + eapply Forall_impl; [done|]. intros o (kt' & -> & ?). exists kt'. set_solver.
Qed.

(** [assignkThread] never indexes out of the vector and always returns a
    registered kThread, however its callers interleave with each other and
    with kThreads that register meanwhile. *)
Theorem assign_in_range c s :
  (0 ≤ ktLast c < Z.of_nat (length (ktVector c)))%Z →
  reachable cstep (mkAssigning c ∅ []) s →
  Forall (λ o, ∃ kt, o = Ok kt ∧ kt ∈ ktVector (acl s)) (handed s).
Proof.
  intros Hc Hr. apply (invariant_reachable cstep assigning_ok (mkAssigning c ∅ [])); [|..|done].
  - split; [done|split; [apply map_Forall_empty|constructor]].
  - intros a s1 s2. apply assigning_ok_step.
Qed.

Lemma assignkThread_spec c :
  cluster_ok c →
  ∃ kt, ktVector c !! Z.to_nat (ktLast c) = Some kt ∧
    assignkThread c = Ok (kt, mkCluster (ktVector c)
      ((ktLast c + 1) mod Z.of_nat (length (ktVector c)))%Z (numberOfkThreads c) (clusterID c)).
Proof.
  intros [Hr H64]. unfold assignkThread.
  assert (Hn : assign_next c = Ok ((ktLast c + 1) mod Z.of_nat (length (ktVector c)))%Z).
  { unfold assign_next. destruct (ktVector c) as [|x l] eqn:E; [simpl in Hr; lia|].
    rewrite <-E in *. unfold wrap. rewrite (Z.mod_small (ktLast c + 1)) by lia. done. }
  rewrite Hn. destruct (assign_exchange_ok ((ktLast c + 1) mod Z.of_nat (length (ktVector c))) c Hr)
    as (kt & Hkt & ->). eauto.
Qed.

Lemma assign_many_spec k c :
  cluster_ok c →
  ∃ l c', assign_many k c = Ok (l, c') ∧ length l = k ∧ ktVector c' = ktVector c ∧ cluster_ok c' ∧
    ∀ i, i < k →
      l !! i = ktVector c !! Z.to_nat ((ktLast c + Z.of_nat i) mod Z.of_nat (length (ktVector c))).
Proof.
  revert c. induction k as [|k IH]; intros c Hc.
  - exists [], c. split_and!; try done. lia.
  - destruct (assignkThread_spec c Hc) as (kt & Hkt & Ha). destruct Hc as [Hr H64].
    set (n := Z.of_nat (length (ktVector c))) in *.
    set (c1 := mkCluster _ _ _ _) in Ha.
    assert (Hc1 : cluster_ok c1).
    { split; [|done]. simpl. apply Z.mod_pos_bound. lia. }
    destruct (IH c1 Hc1) as (l & c' & Hl & Hlen & Hv & Hok & Hget).
    exists (kt :: l), c'. cbn [assign_many]. rewrite Ha, Hl. split_and!; try done; [simpl; lia|].
    intros [|i] Hi.
    + simpl. rewrite Z.add_0_r, Z.mod_small by lia. done.
    + simpl lookup. rewrite Hget by lia. simpl. fold n. f_equal. f_equal.
      rewrite Z.add_mod_idemp_l by lia. f_equal. lia.
Qed.

(** Assignment is round robin: [k] calls in a row return the kThreads of
    the vector in cyclic order, starting at [ktLast]. *)
Theorem assign_round_robin k c :
  cluster_ok c →
  ∃ l c', assign_many k c = Ok (l, c') ∧ length l = k ∧ ktVector c' = ktVector c ∧
    ∀ i, i < k →
      l !! i = ktVector c !! Z.to_nat ((ktLast c + Z.of_nat i) mod Z.of_nat (length (ktVector c))).
Proof.
  intros Hc. destruct (assign_many_spec k c Hc) as (l & c' & ? & ? & ? & _ & ?). eauto 6.
Qed.

(** [n] clusters created in a row. *)
Fixpoint new_clusters (n : nat) : M registry unit :=
  match n with 0 => mret tt | S n' => new_Cluster;; new_clusters n' end.

Lemma new_clusters_ids n r :
  (0 ≤ clusterMasterID r < 2 ^ 16)%Z →
  wp (new_clusters n)
     (λ _ r', (∀ i c, clusterList r' !! (length (clusterList r) + i) = Some c →
                 clusterID c = wrap 16 (clusterMasterID r + Z.of_nat i)) ∧
              length (clusterList r') = length (clusterList r) + n ∧
              (∀ i, i < length (clusterList r) → clusterList r' !! i = clusterList r !! i)) r.
Proof.
  revert r. induction n as [|n IH]; intros r Hr.
  - apply wp_ret. split_and!; [|lia|done]. intros i c Hc. apply lookup_lt_Some in Hc. lia.
  - apply wp_bind. unfold new_Cluster, wp at 1.
    assert (Hg : (clusterMasterID r + 1 <? UINTMAX_MAX)%Z = true)
      by (apply Z.ltb_lt; unfold UINTMAX_MAX; lia).
    rewrite Hg. set (r1 := mkRegistry _ _ _).
    assert (Hr1 : (0 ≤ clusterMasterID r1 < 2 ^ 16)%Z) by (apply Z.mod_pos_bound; lia).
    eapply wp_mono; [apply (IH r1 Hr1)|]. intros [] r2 (Hid & Hlen & Hkeep).
    simpl in Hlen, Hid, Hkeep. rewrite length_app in Hlen, Hid, Hkeep. simpl in Hlen, Hid, Hkeep.
    split_and!; [|lia|].
    + intros [|i] c Hc.
      * rewrite Nat.add_0_r, Hkeep in Hc by lia.
        rewrite lookup_app_r, Nat.sub_diag in Hc by lia. simplify_eq/=.
        unfold wrap. rewrite Z.add_0_r, Z.mod_small; [done|lia].
      * replace (length (clusterList r) + S i) with (length (clusterList r) + 1 + i) in Hc by lia.
        rewrite (Hid i c Hc). unfold wrap. rewrite Z.add_mod_idemp_l by lia. f_equal. lia.
    + intros i Hi. rewrite Hkeep by lia. apply lookup_app_l. lia.
Qed.

(** Cluster ids are not unique: the [i]-th cluster gets [i] modulo 2^16,
    and the overflow guard never fires. *)
Theorem cluster_ids_wrap n :
  wp (new_clusters n)
     (λ _ r, ∀ i c, clusterList r !! i = Some c → clusterID c = (Z.of_nat i mod 2 ^ 16)%Z)
     registry_init.
Proof.
  eapply wp_mono; [apply new_clusters_ids; simpl; lia|]. intros [] r (Hid & _) i c Hc.
  rewrite (Hid i c Hc). done.
Qed.

(** A destroyed kThread stays in its cluster's vector: it is still handed
    out by [assignkThread] after its destructor has run. *)
Theorem kThread_dtor_dangling :
  match (new_Cluster;; kThread_ctor 0 16;; kThread_ctor 0 32;; kThread_dtor 0 16;;
         on_cluster 0 assignkThread) registry_init with
  | Ok (kt, r) => kt = 16%Z ∧ numberOfkThreads <$> clusterList r !! 0 = Some 1%Z
  | Fault _ => False
  end.
Proof. by vm_compute. Qed.

(** The poller's kThread is never counted in its cluster but its
    destructor counts it out: the count of an otherwise empty cluster wraps
    to 2^32 - 1. *)
Theorem kThread_dtor_underflow :
  match (new_Cluster;; kThread_ctor_func 0 16;; kThread_dtor 0 16) registry_init with
  | Ok (_, r) => numberOfkThreads <$> clusterList r !! 0 = Some (2 ^ 32 - 1)%Z
  | Fault _ => False
  end.
Proof. by vm_compute. Qed.

Lemma assign_in_range_witness :
  let c := mkCluster [16; 32]%Z 0 2 0 in
  let s := default (mkAssigning c ∅ [])
             (run cstep [CRead 1; CRead 2; CExch 1; CAdd 48; CExch 2] (mkAssigning c ∅ [])) in
  handed s = [Ok 16%Z; Ok 32%Z] ∧
  Forall (λ o, ∃ kt, o = Ok kt ∧ kt ∈ ktVector (acl s)) (handed s).
Proof.
  intros c s. split; [by vm_compute|]. apply (assign_in_range c s).
  - by vm_compute.
  - exists [CRead 1; CRead 2; CExch 1; CAdd 48; CExch 2]. by vm_compute.
Defined.

Lemma assign_round_robin_witness :
  let c := mkCluster [16; 32; 48]%Z 2 3 0 in
  ∃ l c', assign_many 5 c = Ok (l, c') ∧ length l = 5 ∧ ktVector c' = ktVector c ∧
    ∀ i, i < 5 →
      l !! i = ktVector c !! Z.to_nat ((ktLast c + Z.of_nat i) mod Z.of_nat (length (ktVector c))).
Proof. intros c. apply (assign_round_robin 5 c). by vm_compute. Defined.
