(* ===== verification/ContextSwitch.v ===== *)
(** * Switching stacks

    [src/runtime/Stack.S]: [stackSwitch], [stackInit] and [stackStub],
    instruction by instruction, on the registers they use and a memory of
    64-bit words.  An access to an unmapped word faults; so does one that is
    not 8-aligned, which the code never makes on an aligned stack. *)

From S2P Require Import Prelude.

Inductive reg : Type :=
  | RAX | RBX | RCX | RDX | RSI | RDI | RBP | RSP | R8 | R9 | R12 | R13 | R14 | R15.

Record regs := mkRegs {
  rax : Z; rbx : Z; rcx : Z; rdx : Z; rsi : Z; rdi : Z; rbp : Z; rsp : Z;
  r8 : Z; r9 : Z; r12 : Z; r13 : Z; r14 : Z; r15 : Z
}.
Definition get (r : reg) (R : regs) : Z :=
  match r with
  | RAX => rax R | RBX => rbx R | RCX => rcx R | RDX => rdx R | RSI => rsi R | RDI => rdi R
  | RBP => rbp R | RSP => rsp R | R8 => r8 R | R9 => r9 R
  | R12 => r12 R | R13 => r13 R | R14 => r14 R | R15 => r15 R
  end.
Definition put (r : reg) (v : Z) (R : regs) : regs :=
  let 'mkRegs rax rbx rcx rdx rsi rdi rbp rsp r8 r9 r12 r13 r14 r15 := R in
  match r with
  | RAX => mkRegs v rbx rcx rdx rsi rdi rbp rsp r8 r9 r12 r13 r14 r15
  | RBX => mkRegs rax v rcx rdx rsi rdi rbp rsp r8 r9 r12 r13 r14 r15
  | RCX => mkRegs rax rbx v rdx rsi rdi rbp rsp r8 r9 r12 r13 r14 r15
  | RDX => mkRegs rax rbx rcx v rsi rdi rbp rsp r8 r9 r12 r13 r14 r15
  | RSI => mkRegs rax rbx rcx rdx v rdi rbp rsp r8 r9 r12 r13 r14 r15
  | RDI => mkRegs rax rbx rcx rdx rsi v rbp rsp r8 r9 r12 r13 r14 r15
  | RBP => mkRegs rax rbx rcx rdx rsi rdi v rsp r8 r9 r12 r13 r14 r15
  | RSP => mkRegs rax rbx rcx rdx rsi rdi rbp v r8 r9 r12 r13 r14 r15
  | R8 => mkRegs rax rbx rcx rdx rsi rdi rbp rsp v r9 r12 r13 r14 r15
  | R9 => mkRegs rax rbx rcx rdx rsi rdi rbp rsp r8 v r12 r13 r14 r15
  | R12 => mkRegs rax rbx rcx rdx rsi rdi rbp rsp r8 r9 v r13 r14 r15
  | R13 => mkRegs rax rbx rcx rdx rsi rdi rbp rsp r8 r9 r12 v r14 r15
  | R14 => mkRegs rax rbx rcx rdx rsi rdi rbp rsp r8 r9 r12 r13 v r15
  | R15 => mkRegs rax rbx rcx rdx rsi rdi rbp rsp r8 r9 r12 r13 r14 v
  end.

Record cpu := mkCpu { rf : regs; words : gmap addr Z }.

Definition load (a : addr) : M cpu Z := λ s,
  if decide (a mod 8 = 0)%Z then
    match words s !! a with Some v => Ok (v, s) | None => Fault (BadAccess a) end
  else Fault (BadAccess a).
Definition store (a : addr) (v : Z) : M cpu unit := λ s,
  if decide (a mod 8 = 0)%Z then
    match words s !! a with
    | Some _ => Ok (tt, mkCpu (rf s) (<[a := v]> (words s)))
    | None => Fault (BadAccess a)
    end
  else Fault (BadAccess a).
Definition rget (r : reg) : M cpu Z := λ s, Ok (get r (rf s), s).
Definition rput (r : reg) (v : Z) : M cpu unit := λ s, Ok (tt, mkCpu (put r v (rf s)) (words s)).

(** The instructions of Stack.S. *)
Inductive instr : Type :=
  | Pushq (r : reg)                             (* pushq %r *)
  | Popq (r : reg)                              (* popq %r *)
  | Movq (src dst : reg)                        (* movq %src, %dst *)
  | MovqTo (src : reg) (disp : Z) (base : reg)  (* movq %src, disp(%base) *)
  | MovqImm (v disp : Z) (base : reg)           (* movq $v, disp(%base) *)
  | Leaq (disp : Z) (base dst : reg)            (* leaq disp(%base), %dst *)
  | LeaSym (a : addr) (dst : reg)               (* lea symbol(%rip), %dst *)
  | JmpReg (r : reg)                            (* jmp *%r *)
  | Retq.                                       (* retq *)

(** One instruction: the target, if it is a jump. *)
Definition exec (i : instr) : M cpu (option addr) :=
  match i with
  | Pushq r =>
      v ← rget r; sp ← rget RSP; let sp' := wrap 64 (sp - 8) in
      store sp' v;; rput RSP sp';; mret None
  | Popq r =>
      sp ← rget RSP; v ← load sp;
      rput RSP (wrap 64 (sp + 8));; rput r v;; mret None
  | Movq src dst => v ← rget src; rput dst v;; mret None
  | MovqTo src disp base => v ← rget src; b ← rget base; store (wrap 64 (b + disp)) v;; mret None
  | MovqImm v disp base => b ← rget base; store (wrap 64 (b + disp)) v;; mret None
  | Leaq disp base dst => b ← rget base; rput dst (wrap 64 (b + disp));; mret None
  | LeaSym a dst => rput dst a;; mret None
  | JmpReg r => v ← rget r; mret (Some v)
  | Retq => sp ← rget RSP; v ← load sp; rput RSP (wrap 64 (sp + 8));; mret (Some v)
  end.

(** Straight-line code up to its jump, and where it jumps to. *)
Fixpoint exec_code (code : list instr) : M cpu addr :=
  match code with
  | [] => failM OutOfFuel
  | i :: code' => t ← exec i; match t with Some a => mret a | None => exec_code code' end
  end.

Definition REGSAVE : list instr := Pushq <$> [R15; R14; R13; R12; RBX; RBP].
Definition REGRESTORE : list instr := Popq <$> [RBP; RBX; R12; R13; R14; R15].

Definition stackSwitch : list instr :=
  REGSAVE ++
  [MovqTo RSP 0 RDX;               (* save current stack *)
   Movq RCX RSP] ++                (* load next stack *)
  REGRESTORE ++
  [JmpReg R8].                     (* post-func in r8, arg in rdi and rsi *)

Section code.
(** Where the linker puts [stackStub]. *)
Context (stub : addr).

Definition stackInit : list instr :=
  [MovqImm 0 (-64) RDI; MovqTo RSI (-56) RDI; MovqTo RDX (-48) RDI; MovqTo RCX (-40) RDI;
   MovqTo R8 (-32) RDI; MovqTo R9 (-24) RDI;
   LeaSym stub RAX; MovqTo RAX (-16) RDI;
   Leaq (-64) RDI RAX; Retq].
End code.

Definition stackStub : list instr :=
  [Movq R12 RDI; Movq R13 RSI; Movq R14 RDX; Movq R15 RCX;
   Pushq RBP; Pushq RBP; Movq RSP RBP; JmpReg RBX].

(** ** Contexts *)

(** The callee-saved registers. *)
Record context := mkCtx { c_rbp : Z; c_rbx : Z; c_r12 : Z; c_r13 : Z; c_r14 : Z; c_r15 : Z }.
Definition ctx_of (R : regs) : context := mkCtx (rbp R) (rbx R) (r12 R) (r13 R) (r14 R) (r15 R).
Definition ctx_words (x : context) : list Z := [c_rbp x; c_rbx x; c_r12 x; c_r13 x; c_r14 x; c_r15 x].

(** A context lies at [sp], the order of REGRESTORE. *)
Definition saved (m : gmap addr Z) (sp : addr) (x : context) : Prop :=
  ∀ i v, ctx_words x !! i = Some v → m !! (sp + 8 * Z.of_nat i)%Z = Some v.
(** The [n] words from [a] on are mapped, and their addresses do not wrap. *)
Definition room (m : gmap addr Z) (a : addr) (n : nat) : Prop :=
  (a mod 8 = 0 ∧ 0 <= a ∧ a + 8 * Z.of_nat n < 2 ^ 64)%Z ∧
  ∀ i, i < n → is_Some (m !! (a + 8 * Z.of_nat i)%Z).
(** The words at [a] and after. *)
Definition span (a : addr) (n : nat) : list addr := (λ i, (a + 8 * Z.of_nat i)%Z) <$> seq 0 n.

(** The memory after REGSAVE from [sp]. *)
Definition save (m : gmap addr Z) (sp : addr) (x : context) : gmap addr Z :=
  <[(sp - 48)%Z := c_rbp x]> (<[(sp - 40)%Z := c_rbx x]> (<[(sp - 32)%Z := c_r12 x]>
  (<[(sp - 24)%Z := c_r13 x]> (<[(sp - 16)%Z := c_r14 x]> (<[(sp - 8)%Z := c_r15 x]> m))))).
(** The registers after REGRESTORE to [sp]. *)
Definition restore (R : regs) (sp : addr) (x : context) : regs :=
  mkRegs (rax R) (c_rbx x) (rcx R) (rdx R) (rsi R) (rdi R) (c_rbp x) sp
         (r8 R) (r9 R) (c_r12 x) (c_r13 x) (c_r14 x) (c_r15 x).

(** ** Symbolic execution *)

(** Let [lia] solve alignments. *)
Local Ltac Zify.zify_post_hook ::= Z.to_euclidean_division_equations.

Lemma wrap_small z : (0 <= z < 2 ^ 64)%Z → wrap 64 z = z.
Proof. apply Z.mod_small. Qed.
Lemma is_Some_insert {A} (m : gmap addr A) a v b : is_Some (m !! b) → is_Some (<[a := v]> m !! b).
Proof. intros H. rewrite lookup_insert_is_Some. destruct (decide (a = b)); auto. Qed.

Lemma exec_push r k R m :
  (8 <= rsp R < 2 ^ 64)%Z → (rsp R mod 8 = 0)%Z → is_Some (m !! (rsp R - 8)%Z) →
  exec_code (Pushq r :: k) (mkCpu R m) =
  exec_code k (mkCpu (put RSP (rsp R - 8) R) (<[(rsp R - 8)%Z := get r R]> m)).
Proof.
  intros Hb Ha [v Hv]. cbn. unfold mbind, M_bind, store. cbn. rewrite wrap_small by lia.
  rewrite decide_True by lia. cbn. by rewrite Hv.
Qed.
Lemma exec_pop r k R m v :
  (0 <= rsp R)%Z → (rsp R + 8 < 2 ^ 64)%Z → (rsp R mod 8 = 0)%Z → m !! rsp R = Some v →
  exec_code (Popq r :: k) (mkCpu R m) = exec_code k (mkCpu (put r v (put RSP (rsp R + 8) R)) m).
Proof.
  intros ? ? Ha Hv. cbn. unfold mbind, M_bind, load. cbn.
  rewrite decide_True by lia. rewrite Hv. by rewrite wrap_small by lia.
Qed.
Lemma exec_store r d b k R m :
  (0 <= get b R + d < 2 ^ 64)%Z → ((get b R + d) mod 8 = 0)%Z → is_Some (m !! (get b R + d)%Z) →
  exec_code (MovqTo r d b :: k) (mkCpu R m) =
  exec_code k (mkCpu R (<[(get b R + d)%Z := get r R]> m)).
Proof.
  intros ? Ha [v Hv]. cbn. unfold mbind, M_bind, store. cbn. rewrite wrap_small by lia.
  rewrite decide_True by lia. by rewrite Hv.
Qed.

Lemma exec_imm v d b k R m :
  (0 <= get b R + d < 2 ^ 64)%Z → ((get b R + d) mod 8 = 0)%Z → is_Some (m !! (get b R + d)%Z) →
  exec_code (MovqImm v d b :: k) (mkCpu R m) =
  exec_code k (mkCpu R (<[(get b R + d)%Z := v]> m)).
Proof.
  intros ? Ha [w Hw]. cbn. unfold mbind, M_bind, store. cbn. rewrite wrap_small by lia.
  rewrite decide_True by lia. rewrite Hw. done.
Qed.
Lemma exec_ret k R m a :
  (0 <= rsp R)%Z → (rsp R + 8 < 2 ^ 64)%Z → (rsp R mod 8 = 0)%Z → m !! rsp R = Some a →
  exec_code (Retq :: k) (mkCpu R m) = Ok (a, mkCpu (put RSP (rsp R + 8) R) m).
Proof.
  intros ? ? ? Ha. cbn. unfold mbind, M_bind, load. cbn.
  rewrite decide_True by lia. rewrite Ha. by rewrite wrap_small by lia.
Qed.

#[local] Arguments exec_code : simpl never.
Lemma room_at m a n b :
  room m a n → (a <= b < a + 8 * Z.of_nat n)%Z → (b mod 8 = 0)%Z → is_Some (m !! b).
Proof.
  intros [(Ha & _ & _) Hm] Hb Hal. specialize (Hm (Z.to_nat ((b - a) / 8)) ltac:(lia)).
  replace b with (a + 8 * Z.of_nat (Z.to_nat ((b - a) / 8)))%Z by lia. done.
Qed.
Ltac in_room H := repeat apply is_Some_insert; apply (room_at _ _ _ _ H); lia.

Lemma REGSAVE_exec k R m :
  room m (rsp R - 48) 6 →
  exec_code (REGSAVE ++ k) (mkCpu R m) =
  exec_code k (mkCpu (put RSP (rsp R - 48) R) (save m (rsp R) (ctx_of R))).
Proof.
  intros Hr. pose proof Hr as [(Ha & H0 & H1) _].
  destruct R as [a b c d e f g sp h i j l n o]. cbn [rsp] in *.
  change (REGSAVE ++ k) with (Pushq R15 :: Pushq R14 :: Pushq R13 :: Pushq R12 :: Pushq RBX :: Pushq RBP :: k).
  do 6 (rewrite exec_push; cbn; [|lia|lia|in_room Hr]).
  unfold save, ctx_of. cbn. rewrite <-!Z.sub_add_distr. done.
Qed.
Lemma saved_at m sp x :
  saved m sp x ↔
  m !! sp = Some (c_rbp x) ∧ m !! (sp + 8)%Z = Some (c_rbx x) ∧ m !! (sp + 16)%Z = Some (c_r12 x) ∧
  m !! (sp + 24)%Z = Some (c_r13 x) ∧ m !! (sp + 32)%Z = Some (c_r14 x) ∧ m !! (sp + 40)%Z = Some (c_r15 x).
Proof.
  split.
  - intros H. pose proof (H 0 _ eq_refl) as H0. rewrite Z.add_0_r in H0.
    split_and!; [exact H0|exact (H 1 _ eq_refl)|exact (H 2 _ eq_refl)|exact (H 3 _ eq_refl)
                |exact (H 4 _ eq_refl)|exact (H 5 _ eq_refl)].
  - intros (H0 & H1 & H2 & H3 & H4 & H5) i v Hi. rewrite <-(Z.add_0_r sp) in H0.
    destruct i as [|[|[|[|[|[|i]]]]]]; simplify_eq/=; done.
Qed.

Lemma REGRESTORE_exec k R m x :
  (0 <= rsp R)%Z → (rsp R + 48 < 2 ^ 64)%Z → (rsp R mod 8 = 0)%Z → saved m (rsp R) x →
  exec_code (REGRESTORE ++ k) (mkCpu R m) = exec_code k (mkCpu (restore R (rsp R + 48) x) m).
Proof.
  intros ? ? Ha (M0 & M1 & M2 & M3 & M4 & M5)%saved_at.
  destruct R as [a b c d e f g sp h i j l n o]. cbn [rsp] in *.
  change (REGRESTORE ++ k) with (Popq RBP :: Popq RBX :: Popq R12 :: Popq R13 :: Popq R14 :: Popq R15 :: k).
  erewrite exec_pop; cbn; [|lia|lia|lia|exact M0].
  erewrite exec_pop; cbn; [|lia|lia|lia|exact M1].
  erewrite exec_pop; cbn; [|lia|lia|lia|rewrite <-!Z.add_assoc; exact M2].
  erewrite exec_pop; cbn; [|lia|lia|lia|rewrite <-!Z.add_assoc; exact M3].
  erewrite exec_pop; cbn; [|lia|lia|lia|rewrite <-!Z.add_assoc; exact M4].
  erewrite exec_pop; cbn; [|lia|lia|lia|rewrite <-!Z.add_assoc; exact M5].
  unfold restore. cbn. by rewrite <-!Z.add_assoc.
Qed.

(** What [stackSwitch] needs: six words of room on the current stack, a
    mapped word for the stack pointer, and a context on the next stack, none
    of them overlapping. *)
Record switchable (R : regs) (m : gmap addr Z) (x : context) : Prop := {
  sw_room : room m (rsp R - 48) 6;
  sw_slot : room m (rdx R) 1;
  sw_next : room m (rcx R) 6;
  sw_saved : saved m (rcx R) x;
  sw_slot_cur : rdx R ∉ span (rsp R - 48) 6;
  sw_slot_next : rdx R ∉ span (rcx R) 6;
  sw_disjoint : span (rsp R - 48) 6 ## span (rcx R) 6
}.

Lemma elem_of_span a n b : b ∈ span a n ↔ ∃ i, i < n ∧ b = (a + 8 * Z.of_nat i)%Z.
Proof.
  unfold span. rewrite list_elem_of_fmap. setoid_rewrite elem_of_seq. split.
  - intros (i & -> & ?). exists i. split; [lia|done].
  - intros (i & ? & ->). exists i. split; [done|lia].
Qed.

(** Only the six words below [sp] change. *)
Lemma save_other m sp x b : b ∉ span (sp - 48) 6 → save m sp x !! b = m !! b.
Proof.
  intros Hb. unfold save.
  assert (Hne : ∀ i, i < 6 → b ≠ (sp - 48 + 8 * Z.of_nat i)%Z).
  { intros i Hi ->. apply Hb, elem_of_span. eauto. }
  pose proof (Hne 0 ltac:(lia)). pose proof (Hne 1 ltac:(lia)). pose proof (Hne 2 ltac:(lia)).
  pose proof (Hne 3 ltac:(lia)). pose proof (Hne 4 ltac:(lia)). pose proof (Hne 5 ltac:(lia)).
  rewrite !lookup_insert_ne by lia. done.
Qed.
Lemma save_saved m sp x : saved (save m sp x) (sp - 48) x.
Proof.
  apply saved_at. unfold save.
  replace (sp - 48 + 8)%Z with (sp - 40)%Z by lia. replace (sp - 48 + 16)%Z with (sp - 32)%Z by lia.
  replace (sp - 48 + 24)%Z with (sp - 24)%Z by lia. replace (sp - 48 + 32)%Z with (sp - 16)%Z by lia.
  replace (sp - 48 + 40)%Z with (sp - 8)%Z by lia.
  split_and!; rewrite ?lookup_insert_ne by lia; apply lookup_insert_eq.
Qed.
Lemma saved_same m m' sp x :
  (∀ b, b ∈ span sp 6 → m' !! b = m !! b) → saved m sp x → saved m' sp x.
Proof.
  intros Hs Hx i v Hi. rewrite Hs; [by apply Hx|]. apply elem_of_span. exists i.
  split; [|done]. by apply lookup_lt_Some in Hi.
Qed.

(** The memory after a switch from [R]. *)
Definition switched (R : regs) (m : gmap addr Z) : gmap addr Z :=
  <[rdx R := (rsp R - 48)%Z]> (save m (rsp R) (ctx_of R)).

Lemma stackSwitch_exec R m x :
  switchable R m x →
  exec_code stackSwitch (mkCpu R m) = Ok (r8 R, mkCpu (restore R (rcx R + 48) x) (switched R m)).
Proof.
  intros [Hr Hs Hn Hx Hsc Hsn Hd]. unfold stackSwitch. rewrite REGSAVE_exec by done.
  pose proof Hs as [(Hs1 & Hs2 & Hs3) _]. pose proof Hn as [(Hn1 & Hn2 & Hn3) _].
  assert (Hsl : is_Some (save m (rsp R) (ctx_of R) !! rdx R)).
  { rewrite save_other by done. apply (room_at _ _ _ _ Hs); lia. }
  destruct R as [a b c d e f g sp h i j l n o]. cbn [app rdx rcx rsp r8 put] in *.
  rewrite exec_store; cbn [get rdx rsp]; rewrite ?Z.add_0_r; [|lia|lia|done].
  change (exec_code (Movq RCX RSP :: ?k) (mkCpu ?R ?m)) with (exec_code k (mkCpu (put RSP (rcx R) R) m)).
  cbn [put rcx]. rewrite (REGRESTORE_exec _ _ _ x); cbn [rsp]; [done|lia|lia|lia|].
  eapply saved_same; [|done]. intros b' Hb'. rewrite lookup_insert_ne by congruence.
  apply save_other. set_solver.
Qed.

Lemma switched_other R m b : b ≠ rdx R → b ∉ span (rsp R - 48) 6 → switched R m !! b = m !! b.
Proof. intros ? ?. unfold switched. rewrite lookup_insert_ne by done. by apply save_other. Qed.
Lemma switched_saved R m : rdx R ∉ span (rsp R - 48) 6 → saved (switched R m) (rsp R - 48) (ctx_of R).
Proof.
  intros Hn. eapply saved_same; [|apply save_saved]. intros b Hb. unfold switched.
  apply lookup_insert_ne. congruence.
Qed.
Lemma saved_room m sp x : (sp mod 8 = 0 ∧ 0 <= sp ∧ sp + 48 < 2 ^ 64)%Z → saved m sp x → room m sp 6.
Proof.
  intros Hb Hx. split; [lia|]. intros i Hi.
  destruct (lookup_lt_is_Some_2 (ctx_words x) i Hi) as [v Hv]. exists v. by apply Hx.
Qed.
Lemma span_app a n k : span a (n + k) = span a n ++ span (a + 8 * Z.of_nat n) k.
Proof.
  unfold span. rewrite seq_app, fmap_app. f_equal. rewrite Nat.add_comm, <-(fmap_add_seq n 0), <-list_fmap_compose.
  apply list_fmap_ext. intros. simpl. lia.
Qed.

(** C15. A context switch loses nothing: a uThread that left through
    [stackSwitch] and is switched to again, by whatever code and whenever,
    continues with its stack pointer, all callee-saved registers and the words
    of its stack as they were at its call, provided that nobody wrote to its
    stack in between; the post function is entered with the arguments of the
    second switch. *)
Theorem stackSwitch_roundtrip R1 m1 x1 R2 m2 n :
  switchable R1 m1 x1 →
  let away := switched R1 m1 in
  exec_code stackSwitch (mkCpu R1 m1) = Ok (r8 R1, mkCpu (restore R1 (rcx R1 + 48) x1) away) ∧
  (away !! rdx R1 = Some (rcx R2) →
   rdx R1 ∉ span (rsp R1 - 48) (6 + n) →
   (∀ b, b ∈ span (rsp R1 - 48) (6 + n) → m2 !! b = away !! b) →
   room m2 (rsp R2 - 48) 6 → room m2 (rdx R2) 1 →
   rdx R2 ∉ span (rsp R2 - 48) 6 → rdx R2 ∉ span (rsp R1 - 48) (6 + n) →
   span (rsp R2 - 48) 6 ## span (rsp R1 - 48) (6 + n) →
   ∃ R3 m3, exec_code stackSwitch (mkCpu R2 m2) = Ok (r8 R2, mkCpu R3 m3) ∧
     ctx_of R3 = ctx_of R1 ∧ rsp R3 = rsp R1 ∧ rdi R3 = rdi R2 ∧ rsi R3 = rsi R2 ∧
     ∀ b, b ∈ span (rsp R1) n → m3 !! b = m1 !! b).
Proof.
  intros Hsw away. split; [by apply stackSwitch_exec|].
  intros Hld H1 Hkeep Hroom Hslot H2 H3 Hd.
  assert (Hc : rcx R2 = (rsp R1 - 48)%Z).
  { unfold away, switched in Hld. rewrite lookup_insert_eq in Hld. congruence. }
  assert (Hlo : ∀ b, b ∈ span (rsp R1 - 48) 6 → b ∈ span (rsp R1 - 48) (6 + n))
    by (intros b Hb; rewrite span_app; apply elem_of_app; by left).
  assert (Hhi : ∀ b, b ∈ span (rsp R1) n → b ∈ span (rsp R1 - 48) (6 + n)).
  { intros b Hb. rewrite span_app. apply elem_of_app. right.
    by replace (rsp R1 - 48 + 8 * Z.of_nat 6)%Z with (rsp R1) by lia. }
  pose proof (sw_room _ _ _ Hsw) as [Hb _].
  assert (Hsv : saved m2 (rcx R2) (ctx_of R1)).
  { rewrite Hc. eapply saved_same; [|apply (switched_saved R1 m1); apply Hsw]. auto. }
  eexists _, _. split; [apply (stackSwitch_exec R2 m2 (ctx_of R1))|].
  - constructor; try done; rewrite Hc; [|by auto|].
    + eapply saved_room; [lia|]. by rewrite <-Hc.
    + intros b Hb1 Hb2. apply (Hd b); auto.
  - split_and!; [by destruct R1|simpl; lia|done|done|]. intros b Hb'. apply Hhi in Hb' as Hb2.
    rewrite switched_other; [|congruence|intros ?; by apply (Hd b)].
    rewrite Hkeep by done. apply switched_other; [congruence|].
    rewrite elem_of_span in Hb'. destruct Hb' as (i & Hi & ->). rewrite elem_of_span. intros (j & Hj & E). lia.
Qed.

(** ** New stacks *)

(** What [stackInit] leaves below [stack]. *)
Definition init_words (m : gmap addr Z) (stack stub : addr) (x : context) : gmap addr Z :=
  <[(stack + -16)%Z := stub]> (<[(stack + -24)%Z := c_r15 x]> (<[(stack + -32)%Z := c_r14 x]>
  (<[(stack + -40)%Z := c_r13 x]> (<[(stack + -48)%Z := c_r12 x]> (<[(stack + -56)%Z := c_rbx x]>
  (<[(stack + -64)%Z := c_rbp x]> m)))))).

Lemma init_words_saved m stack stub x :
  saved (init_words m stack stub x) (stack - 64) x ∧ init_words m stack stub x !! (stack - 16)%Z = Some stub.
Proof.
  unfold init_words. split; [|by replace (stack - 16)%Z with (stack + -16)%Z by lia; apply lookup_insert_eq].
  apply saved_at.
  replace (stack - 64)%Z with (stack + -64)%Z by lia. replace (stack + -64 + 8)%Z with (stack + -56)%Z by lia.
  replace (stack + -64 + 16)%Z with (stack + -48)%Z by lia. replace (stack + -64 + 24)%Z with (stack + -40)%Z by lia.
  replace (stack + -64 + 32)%Z with (stack + -32)%Z by lia. replace (stack + -64 + 40)%Z with (stack + -24)%Z by lia.
  split_and!; rewrite ?lookup_insert_ne by lia; apply lookup_insert_eq.
Qed.
Lemma init_words_other m stack stub x b : b ∉ span (stack - 64) 7 → init_words m stack stub x !! b = m !! b.
Proof.
  intros Hb. unfold init_words.
  assert (Hne : ∀ i, i < 7 → b ≠ (stack - 64 + 8 * Z.of_nat i)%Z).
  { intros i Hi ->. apply Hb, elem_of_span. eauto. }
  pose proof (Hne 0 ltac:(lia)). pose proof (Hne 1 ltac:(lia)). pose proof (Hne 2 ltac:(lia)).
  pose proof (Hne 3 ltac:(lia)). pose proof (Hne 4 ltac:(lia)). pose proof (Hne 5 ltac:(lia)).
  pose proof (Hne 6 ltac:(lia)). rewrite !lookup_insert_ne by lia. done.
Qed.

(** The context of a new stack for [func(arg1, arg2, arg3, arg4)], the
    arguments of [stackInit] being in registers. *)
Definition start_ctx (R : regs) : context := mkCtx 0 (rsi R) (rdx R) (rcx R) (r8 R) (r9 R).

Lemma stackInit_exec stub R m ra :
  room m (rdi R - 64) 7 → (0 <= rsp R)%Z → (rsp R + 8 < 2 ^ 64)%Z → (rsp R mod 8 = 0)%Z →
  rsp R ∉ span (rdi R - 64) 7 → m !! rsp R = Some ra →
  exec_code (stackInit stub) (mkCpu R m) =
    Ok (ra, mkCpu (put RSP (rsp R + 8) (put RAX (rdi R - 64) R)) (init_words m (rdi R) stub (start_ctx R))).
Proof.
  intros Hr S0 S1 S2 Hn Hra. pose proof Hr as [(Ha & H0 & H1) _].
  assert (Hra' := init_words_other m (rdi R) stub (start_ctx R) _ Hn). rewrite Hra in Hra'.
  destruct R as [a b c d e f g sp h i j l n o]. cbn [rdi rsp] in *. unfold stackInit, start_ctx, init_words in *.
  cbn [rsi rdx rcx r8 r9 c_rbp c_rbx c_r12 c_r13 c_r14 c_r15] in *.
  rewrite exec_imm; cbn [get rdi]; [|lia|lia|in_room Hr].
  do 5 (rewrite exec_store; cbn [get rdi rsi rdx rcx r8 r9]; [|lia|lia|in_room Hr]).
  change (exec_code (LeaSym stub RAX :: ?k) (mkCpu ?R ?m)) with (exec_code k (mkCpu (put RAX stub R) m)).
  cbn [put]. rewrite exec_store; cbn [get rdi rax]; [|lia|lia|in_room Hr].
  change (exec_code (Leaq (-64) RDI RAX :: ?k) (mkCpu ?R ?m))
    with (exec_code k (mkCpu (put RAX (wrap 64 (rdi R + -64)) R) m)).
  cbn [put rdi]. rewrite wrap_small by lia. replace (f + -64)%Z with (f - 64)%Z by lia.
  erewrite exec_ret; cbn [rsp]; [done|lia|lia|lia|].
  replace (f - 64)%Z with (f + -64)%Z by lia. exact Hra'.
Qed.

Lemma stackStub_exec R m :
  room m (rsp R - 16) 2 →
  exec_code stackStub (mkCpu R m) =
    Ok (rbx R, mkCpu (mkRegs (rax R) (rbx R) (r15 R) (r14 R) (r13 R) (r12 R) (rsp R - 16) (rsp R - 16)
                             (r8 R) (r9 R) (r12 R) (r13 R) (r14 R) (r15 R))
                     (<[(rsp R - 16)%Z := rbp R]> (<[(rsp R - 8)%Z := rbp R]> m))).
Proof.
  intros Hr. pose proof Hr as [(Ha & H0 & H1) _].
  destruct R as [a b c d e f g sp h i j l n o]. cbn [rsp] in *. unfold stackStub.
  change (exec_code (Movq R12 RDI :: Movq R13 RSI :: Movq R14 RDX :: Movq R15 RCX :: ?k) (mkCpu ?R m))
    with (exec_code k (mkCpu (mkRegs a b o n l j g sp h i j l n o) m)).
  do 2 (rewrite exec_push; cbn [rsp put get]; [|lia|lia|in_room Hr]).
  cbn. by replace (sp - 8 - 8)%Z with (sp - 16)%Z by lia.
Qed.

(** The stack alignment that the ABI requires where a function is entered. *)
Definition abi_entry (sp : addr) : Prop := ((sp + 8) mod 16 = 0)%Z.

(** C25. A new uThread starts: after [stackInit(stack, func, a1, a2, a3, a4)],
    the first switch to the stack it returns enters the post function with
    [stackStub] as its return address, and once the post function has
    returned, which keeps the callee-saved registers, the stub jumps to
    [func] with the four arguments in place, a frame pointer that ends the
    chain of frames, and 0 as the return address.  The post function and
    [func] are entered 8 bytes apart, so the stack of one of them is not
    aligned as the ABI requires, whatever [stack] is. *)
Theorem stackInit_starts stub R m ra R2 m2 :
  room m (rdi R - 64) 7 → (0 <= rsp R)%Z → (rsp R + 8 < 2 ^ 64)%Z → (rsp R mod 8 = 0)%Z →
  rsp R ∉ span (rdi R - 64) 7 → m !! rsp R = Some ra →
  let stack := rdi R in
  ∃ R1 m1, exec_code (stackInit stub) (mkCpu R m) = Ok (ra, mkCpu R1 m1) ∧
  (rcx R2 = rax R1 → (∀ b, b ∈ span (stack - 64) 7 → m2 !! b = m1 !! b) →
   room m2 (rsp R2 - 48) 6 → room m2 (rdx R2) 1 →
   rdx R2 ∉ span (rsp R2 - 48) 6 → rdx R2 ∉ span (stack - 64) 7 →
   span (rsp R2 - 48) 6 ## span (stack - 64) 7 →
   ∃ R3 m3, exec_code stackSwitch (mkCpu R2 m2) = Ok (r8 R2, mkCpu R3 m3) ∧
     m3 !! rsp R3 = Some stub ∧ rdi R3 = rdi R2 ∧ rsi R3 = rsi R2 ∧
     ∀ R4 m4, ctx_of R4 = ctx_of R3 → rsp R4 = rsp R3 → m4 !! rsp R3 = m3 !! rsp R3 →
       is_Some (m4 !! (rsp R3 - 8)%Z) →
       ∃ R5 R6 m6, exec_code [Retq] (mkCpu R4 m4) = Ok (stub, mkCpu R5 m4) ∧
         exec_code stackStub (mkCpu R5 m4) = Ok (rsi R, mkCpu R6 m6) ∧
         rdi R6 = rdx R ∧ rsi R6 = rcx R ∧ rdx R6 = r8 R ∧ rcx R6 = r9 R ∧
         rbp R6 = rsp R6 ∧ m6 !! rsp R6 = Some 0%Z ∧ m6 !! (rsp R6 + 8)%Z = Some 0%Z ∧
         (abi_entry (rsp R3) → ~ abi_entry (rsp R6))).
Proof.
  intros Hr S0 S1 S2 Hn Hra stack. eexists _, _. split; [by apply stackInit_exec|].
  assert (Hax : rax (put RSP (rsp R + 8) (put RAX (rdi R - 64) R)) = (stack - 64)%Z) by by destruct R.
  rewrite Hax. intros Hc Hkeep Hr2 Hs2 N1 N2 Hd. pose proof Hr as [(Ha & H0 & H1) _].
  destruct (init_words_saved m stack stub (start_ctx R)) as [Hsv Hst].
  assert (Hlo : ∀ b, b ∈ span (stack - 64) 6 → b ∈ span (stack - 64) 7).
  { intros b. change 7 with (6 + 1) at 1. rewrite span_app, elem_of_app. by left. }
  assert (H16 : (stack - 16)%Z ∈ span (stack - 64) 7).
  { apply elem_of_span. exists 6. split; [lia|]. lia. }
  assert (Hsv2 : saved m2 (rcx R2) (start_ctx R)).
  { rewrite Hc. eapply saved_same; [|exact Hsv]. auto. }
  eexists _, _. split; [apply (stackSwitch_exec R2 m2 (start_ctx R)); constructor; try done|].
  - eapply saved_room; [|done]. rewrite Hc. unfold stack. lia.
  - rewrite Hc. auto.
  - rewrite Hc. intros b ? ?. apply (Hd b); auto.
  - assert (Hsp : (rcx R2 + 48)%Z = (stack - 16)%Z) by lia. simpl. rewrite Hsp.
    assert (Hm3 : switched R2 m2 !! (stack - 16)%Z = Some stub).
    { rewrite switched_other; [by rewrite Hkeep|congruence|intros ?; by apply (Hd (stack - 16)%Z)]. }
    split_and!; [done..|]. intros R4 m4 Hctx Hsp4 Hm4 Hroom. rewrite Hm3 in Hm4.
    destruct R4 as [a b c d e f g sp h i j l n o]. unfold ctx_of in Hctx. simpl in Hctx, Hsp4. simplify_eq.
    eexists _, _, _. split; [apply exec_ret; simpl; [unfold stack; lia..|exact Hm4]|].
    split; [apply stackStub_exec|].
    + simpl. split; [unfold stack; lia|]. intros k Hk.
      destruct k as [|[|k]]; [|by replace (stack - 16 + 8 - 16 + 8 * Z.of_nat 1)%Z with (stack - 16)%Z by lia|lia].
      by replace (stack - 16 + 8 - 16 + 8 * Z.of_nat 0)%Z with (stack - 16 - 8)%Z by lia.
    + simpl. split_and!; try done.
      * apply lookup_insert_eq.
      * replace (stack - 16 + 8 - 16 + 8)%Z with (stack - 16 + 8 - 8)%Z by lia.
        rewrite lookup_insert_ne by lia. apply lookup_insert_eq.
      * unfold abi_entry. lia.
Qed.

(** Two stacks, below 1056 and below 3056, with a word for each one's stack
    pointer. *)
Definition demo_words : gmap addr Z :=
  list_to_map ((λ i, (1000 + 8 * Z.of_nat i, 7 + Z.of_nat i))%Z <$> seq 0 10)
  ∪ list_to_map ((λ i, (3000 + 8 * Z.of_nat i, 70 + Z.of_nat i))%Z <$> seq 0 10)
  ∪ {[2000%Z := 0%Z]} ∪ {[2008%Z := 0%Z]}.
Definition demo_A : regs := mkRegs 1 2 3000 2000 5 6 7 1048 9 10 12 13 14 15.
Definition demo_B : regs := mkRegs 21 22 1000 2008 25 26 27 3048 29 30 32 33 34 35.
Definition demo_x : context := mkCtx 70 71 72 73 74 75.

Ltac concrete_room :=
  split; [vm_compute; split_and!; congruence
         |intros i Hi; do 7 (destruct i as [|i]; [first [lia|eexists; vm_compute; reflexivity]|]); lia].
Ltac concrete_span := apply (bool_decide_unpack _); vm_compute; reflexivity.

Lemma demo_switchable : switchable demo_A demo_words demo_x.
Proof.
  constructor; [concrete_room..| | | |].
  - apply saved_at. split_and!; vm_compute; reflexivity.
  - concrete_span.
  - concrete_span.
  - intros b (i & Hi & ->)%elem_of_span (j & Hj & E)%elem_of_span. simpl in E. lia.
Qed.

Lemma stackSwitch_roundtrip_witness :
  ∃ R3 m3, exec_code stackSwitch (mkCpu demo_B (switched demo_A demo_words)) = Ok (r8 demo_B, mkCpu R3 m3) ∧
     ctx_of R3 = ctx_of demo_A ∧ rsp R3 = rsp demo_A ∧ rdi R3 = rdi demo_B ∧ rsi R3 = rsi demo_B ∧
     ∀ b, b ∈ span (rsp demo_A) 1 → m3 !! b = demo_words !! b.
Proof.
  apply (stackSwitch_roundtrip demo_A demo_words demo_x demo_B (switched demo_A demo_words) 1 demo_switchable).
  - vm_compute. reflexivity.
  - concrete_span.
  - done.
  - concrete_room.
  - concrete_room.
  - concrete_span.
  - concrete_span.
  - intros b (i & Hi & ->)%elem_of_span (j & Hj & E)%elem_of_span. simpl in E. lia.
Defined.

(** [stackInit] for the stack below 1072, called on the other stack. *)
Definition demo_call : regs := mkRegs 0 0 102 101 500 1072 0 3056 103 104 0 0 0 0.
Definition demo_C : regs := mkRegs 0 0 1008 2008 25 26 27 3048 29 30 32 33 34 35.
Definition demo_new : gmap addr Z := init_words demo_words 1072 900 (start_ctx demo_call).
Lemma stackInit_starts_witness :
  ∃ R3 m3 R5 R6 m6,
    exec_code stackSwitch (mkCpu demo_C demo_new) = Ok (29%Z, mkCpu R3 m3) ∧
    exec_code [Retq] (mkCpu R3 m3) = Ok (900%Z, mkCpu R5 m3) ∧
    exec_code stackStub (mkCpu R5 m3) = Ok (500%Z, mkCpu R6 m6) ∧ rdi R6 = 101%Z ∧ rcx R6 = 104%Z.
Proof.
  destruct (stackInit_starts 900 demo_call demo_words 77 demo_C demo_new) as (R1 & m1 & He & Hs);
    [concrete_room|done|done|done|concrete_span|vm_compute; reflexivity|].
  assert (E : exec_code (stackInit 900) (mkCpu demo_call demo_words)
              = Ok (77%Z, mkCpu (put RSP 3064 (put RAX 1008 demo_call)) demo_new)) by (vm_compute; reflexivity).
  rewrite E in He. injection He as <- <-.
  destruct Hs as (R3 & m3 & H3 & _ & _ & _ & Hs);
    [vm_compute; reflexivity|done|concrete_room|concrete_room|concrete_span|concrete_span| |].
  { intros b (i & Hi & ->)%elem_of_span (j & Hj & Eb)%elem_of_span. simpl in Eb. lia. }
  assert (E3 : exec_code stackSwitch (mkCpu demo_C demo_new)
               = Ok (29%Z, mkCpu (restore demo_C 1056 (start_ctx demo_call)) (switched demo_C demo_new)))
    by (vm_compute; reflexivity).
  rewrite E3 in H3. injection H3 as <- <-.
  edestruct Hs as (R5 & R6 & m6 & H5 & H6 & Hdi & _ & _ & Hcx & _);
    [reflexivity|reflexivity|reflexivity|eexists; vm_compute; reflexivity|].
  exists (restore demo_C 1056 (start_ctx demo_call)), (switched demo_C demo_new), R5, R6, m6.
  split_and!; [exact E3|exact H5|exact H6|exact Hdi|exact Hcx].
Defined.
