(* ===== verification/KThread.v ===== *)
(** * kThread: the life cycle of uThreads across context switches

    [start], [yield], [migrate], [suspend], [resume] and [terminate] of
    [src/runtime/uThread.cpp] and [switchContext], [defaultRun] and
    [postSwitchFunc] of [src/runtime/kThread.cpp], on any number of kThreads.

    A switch has several steps, between which the other kThreads run: the
    choice of the next uThread ([nonBlockingSwitch], [blockingSwitch] over the
    run queue, here its FIFO specification), the stack switch that saves one
    context and loads the other, [postSwitchFunc] on the new stack, where the
    uThread that was left is queued, published or destroyed, and the update of
    [currentUT].  A resume has two: the test and change of [state] with the
    choice of a home kThread, and the push; whoever executes it is left open.

    What [postSuspendFunc] promises to the code that resumes is the list
    [published]: the uThreads that it has made visible (on a blocking queue, in
    a PollData) and that have not been taken for a resume since. *)

From stdpp Require Import functions.
From S2P Require Import Prelude UThread.

(** The fields of a uThread that scheduling uses; [ctx] tells that
    [stackPointer] is a saved context, not yet loaded again. *)
Record tcb := mkTcb { st : State; home : option nat; cl : nat; ctx : bool }.

(** Where a kThread is. *)
Inductive phase : Type :=
  | KOff                     (* no such kThread *)
  | KMain                    (* defaultRun: in blockingSwitch *)
  | KRun                     (* running currentUT *)
  | KPick                    (* switchContext(args): in nonBlockingSwitch *)
  | KSwitch (next : addr)    (* switchContext(ut, args): in stackSwitch *)
  | KPost (next : addr)      (* postSwitchFunc: the switch on the state *)
  | KPush (next : addr)      (*   resume: Scheduler::schedule *)
  | KSusp (next : addr)      (*   postSuspendFunc *)
  | KSet (next : addr).      (*   currentUT = nextuThread *)

#[export] Instance phase_eq_dec : EqDecision phase.
Proof. solve_decision. Defined.

Record kthread := mkKt {
  currentUT : addr; mainUT : addr; kph : phase;
  postSuspendFunc : bool     (* it is not null *)
}.

Record life := mkLife {
  kts : nat → kthread;
  uts : addr → tcb;
  rq : nat → list addr;      (* the run queues *)
  published : list addr;
  resuming : list addr;      (* in resume, before the test of state *)
  pushing : list addr;       (* in resume, before schedule *)
  fresh : list addr;         (* created, not started *)
  live : list addr;          (* the uThread objects *)
  dropped : list addr;       (* resumed in a state that resume ignores *)
  faulty : bool              (* a dead context loaded, a null pointer used *)
}.

Inductive llabel : Type :=
  | LCreate (a : addr)
  | LStart (a : addr) (c : nat)
  | LYield (k : nat)
  | LMigrate (k c kt : nat)  (* [kt] is what assignkThread returns *)
  | LSuspend (k : nat)
  | LTerminate (k : nat)
  | LTake (a : addr)         (* somebody calls resume on a published uThread *)
  | LReady (a : addr) (kt : nat)
  | LPush (a : addr)
  | LStep (k kt : nat).      (* the switch of kThread k goes on *)

Definition set_kt (k : nat) (x : kthread) (s : life) : life :=
  mkLife (<[k := x]> (kts s)) (uts s) (rq s) (published s) (resuming s) (pushing s) (fresh s)
         (live s) (dropped s) (faulty s).
Definition set_ph (k : nat) (p : phase) (s : life) : life :=
  let x := kts s k in
  set_kt k (mkKt (currentUT x) (mainUT x) p (postSuspendFunc x)) s.
Definition set_ut (a : addr) (u : tcb) (s : life) : life :=
  mkLife (kts s) (<[a := u]> (uts s)) (rq s) (published s) (resuming s) (pushing s) (fresh s)
         (live s) (dropped s) (faulty s).
Definition set_rq (k : nat) (q : list addr) (s : life) : life :=
  mkLife (kts s) (uts s) (<[k := q]> (rq s)) (published s) (resuming s) (pushing s) (fresh s)
         (live s) (dropped s) (faulty s).
Definition set_published (l : list addr) (s : life) : life :=
  mkLife (kts s) (uts s) (rq s) l (resuming s) (pushing s) (fresh s) (live s) (dropped s) (faulty s).
Definition set_resuming (l : list addr) (s : life) : life :=
  mkLife (kts s) (uts s) (rq s) (published s) l (pushing s) (fresh s) (live s) (dropped s) (faulty s).
Definition set_pushing (l : list addr) (s : life) : life :=
  mkLife (kts s) (uts s) (rq s) (published s) (resuming s) l (fresh s) (live s) (dropped s) (faulty s).
Definition set_fresh (l : list addr) (s : life) : life :=
  mkLife (kts s) (uts s) (rq s) (published s) (resuming s) (pushing s) l (live s) (dropped s) (faulty s).
Definition set_live (l : list addr) (s : life) : life :=
  mkLife (kts s) (uts s) (rq s) (published s) (resuming s) (pushing s) (fresh s) l (dropped s) (faulty s).
Definition drop_resume (a : addr) (s : life) : life :=
  mkLife (kts s) (uts s) (rq s) (published s) (resuming s) (pushing s) (fresh s) (live s)
         (a :: dropped s) (faulty s).
Definition go_faulty (s : life) : life :=
  mkLife (kts s) (uts s) (rq s) (published s) (resuming s) (pushing s) (fresh s) (live s)
         (dropped s) true.

Definition del (a : addr) (l : list addr) : list addr := filter (λ y, y ≠ a) l.

Definition set_st (x : State) (u : tcb) : tcb := mkTcb x (home u) (cl u) (ctx u).
Definition set_ctx (b : bool) (u : tcb) : tcb := mkTcb (st u) (home u) (cl u) b.

Section life.
(** The kThreads of each cluster, and the cluster of each kThread. *)
Context (members : nat → list nat) (localCluster : nat → nat).

(** [void resume()]: the states it accepts, and its first part. *)
Definition resumable (x : State) : bool :=
  match x with WAITING | INITIALIZED | MIGRATE | YIELD => true | _ => false end.
Definition resume_tcb (kt : nat) (u : tcb) : option tcb :=
  if resumable (st u) then
    Some (mkTcb READY (match home u with None => Some kt | Some h => Some h end) (cl u) (ctx u))
  else None.
(** [currentCluster->assignkThread()] returns a kThread of the cluster, where
    it is called. *)
Definition assigned_ok (kt : nat) (u : tcb) : bool :=
  match home u with None => bool_decide (kt ∈ members (cl u)) | Some _ => true end.

(** [Scheduler::schedule(this, *homekThread)] *)
Definition schedule (a : addr) (s : life) : life :=
  match home (uts s a) with
  | Some k => set_rq k (rq s k ++ [a]) s
  | None => go_faulty s
  end.

(** The uThread that runs on [k] changes its state and calls switchContext. *)
Definition leave (k : nat) (f : tcb → tcb) (s : life) : option life :=
  match kph (kts s k) with
  | KRun => let a := currentUT (kts s k) in Some (set_ph k KPick (set_ut a (f (uts s a)) s))
  | _ => None
  end.

Definition yield (k : nat) (s : life) : option life := leave k (set_st YIELD) s.
Definition terminate (k : nat) (s : life) : option life := leave k (set_st TERMINATED) s.
Definition set_postSuspendFunc (k : nat) (s : life) : life :=
  let x := kts s k in set_kt k (mkKt (currentUT x) (mainUT x) (kph x) true) s.
Definition suspend (k : nat) (s : life) : option life :=
  leave k (set_st WAITING) (set_postSuspendFunc k s).
(** [kt] is what [assignkThread] gives, a member of the cluster.  To a cluster
    without kThreads, where a debugging build asserts and [assignkThread] takes a
    remainder by zero, there is no step: [Cluster] has that case. *)
Definition migrate (k c kt : nat) (s : life) : option life :=
  if decide (localCluster k = c) then
    match kph (kts s k) with KRun => Some s | _ => None end
  else if decide (kt ∈ members c) then
    leave k (λ u, mkTcb MIGRATE (Some kt) c (ctx u)) s
  else None.

(** [start]: the cluster, the initial context of [stackInit], and resume. *)
Definition start (a : addr) (c : nat) (s : life) : option life :=
  if decide (a ∈ fresh s) then
    let u := uts s a in
    Some (set_resuming (resuming s ++ [a]) (set_fresh (del a (fresh s))
           (set_ut a (mkTcb (st u) (home u) c true) s)))
  else None.

(** [uThread::create()] returns an object that is not live. *)
Definition create_ut (a : addr) (s : life) : option life :=
  if decide (a ∈ live s) then None
  else Some (set_live (live s ++ [a]) (set_fresh (fresh s ++ [a])
              (set_ut a (mkTcb INITIALIZED None 0 false) s))).

(** [nonBlockingSwitch], of a uThread that runs on [k]. *)
Definition nonBlockingSwitch (k : nat) (s : life) : life :=
  let x := kts s k in
  match rq s k with
  | a :: r => set_ph k (KSwitch a) (set_rq k r s)
  | [] => if decide (st (uts s (currentUT x)) = YIELD) then set_ph k KRun s
          else set_ph k (KSwitch (mainUT x)) s
  end.

(** [blockingSwitch], of the main uThread of [k]. *)
Definition blockingSwitch (k : nat) (s : life) : option life :=
  match rq s k with
  | a :: r => Some (set_ph k (KSwitch a) (set_rq k r s))
  | [] => None
  end.

(** [stackSwitch] *)
Definition stackSwitch (k : nat) (next : addr) (s : life) : life :=
  let cur := currentUT (kts s k) in
  let s1 := if ctx (uts s next) then s else go_faulty s in
  let s2 := set_ut cur (set_ctx true (uts s cur)) s1 in
  set_ph k (KPost next) (set_ut next (set_ctx false (uts s2 next)) s2).

(** [postSwitchFunc], up to the assignment of currentUT. *)
Definition postSwitchFunc (k : nat) (next : addr) (kt : nat) (s : life) : option life :=
  let x := kts s k in
  let cur := currentUT x in
  if decide (cur = mainUT x) then Some (set_ph k (KSet next) s)
  else
    match st (uts s cur) with
    | TERMINATED => Some (set_ph k (KSet next) (set_live (del cur (live s)) s))
    | YIELD | MIGRATE =>
        if assigned_ok kt (uts s cur) then
          match resume_tcb kt (uts s cur) with
          | Some u => Some (set_ph k (KPush next) (set_ut cur u s))
          | None => Some (set_ph k (KSet next) (drop_resume cur s))
          end
        else None
    | WAITING =>
        Some (if postSuspendFunc x then set_ph k (KSusp next) s
              else set_ph k (KSet next) (go_faulty s))
    | _ => Some (set_ph k (KSet next) s)
    end.

(** The rest of a switch. *)
Definition switch_step (k kt : nat) (s : life) : option life :=
  let x := kts s k in
  match kph x with
  | KOff | KRun => None
  | KMain => blockingSwitch k s
  | KPick => Some (nonBlockingSwitch k s)
  | KSwitch n => Some (stackSwitch k n s)
  | KPost n => postSwitchFunc k n kt s
  | KPush n => Some (set_ph k (KSet n) (schedule (currentUT x) s))
  | KSusp n => Some (set_ph k (KSet n) (set_published (published s ++ [currentUT x]) s))
  | KSet n =>
      Some (set_kt k (mkKt n (mainUT x) (if decide (n = mainUT x) then KMain else KRun)
                           (postSuspendFunc x))
             (set_ut n (set_st RUNNING (uts s n)) s))
  end.

Definition lstep (l : llabel) (s : life) : option life :=
  match l with
  | LCreate a => create_ut a s
  | LStart a c => start a c s
  | LYield k => yield k s
  | LMigrate k c kt => migrate k c kt s
  | LSuspend k => suspend k s
  | LTerminate k => terminate k s
  | LTake a =>
      if decide (a ∈ published s) then
        Some (set_resuming (resuming s ++ [a]) (set_published (del a (published s)) s))
      else None
  | LReady a kt =>
      if decide (a ∈ resuming s) then
        if assigned_ok kt (uts s a) then
          Some (match resume_tcb kt (uts s a) with
                | Some u => set_pushing (pushing s ++ [a])
                              (set_resuming (del a (resuming s)) (set_ut a u s))
                | None => drop_resume a (set_resuming (del a (resuming s)) s)
                end)
        else None
      else None
  | LPush a =>
      if decide (a ∈ pushing s) then Some (schedule a (set_pushing (del a (pushing s)) s)) else None
  | LStep k kt => switch_step k kt s
  end.

(** The state when the program starts: kThread 0 is [defaultKT], whose
    currentUT is [initUT], the one of main(); its mainUT has its first context
    from stackInit.  The other [nkt - 1] kThreads run their own mainUT. *)
Definition life_init (nkt : nat) (mains : nat → addr) (initUT : addr) : life :=
  mkLife
    (λ k, if decide (k < nkt) then
            if decide (k = 0) then mkKt initUT (mains 0) KRun false
            else mkKt (mains k) (mains k) KMain false
          else mkKt nullptr nullptr KOff false)
    (λ a, if decide (a = initUT) then mkTcb INITIALIZED (Some 0) 0 false
          else if decide (a = mains 0) then mkTcb READY None 0 true
          else mkTcb RUNNING None 0 false)
    (λ _, []) [] [] [] [] (initUT :: map mains (seq 0 nkt)) [] false.

(** ** The invariant: every uThread is in one place *)

Inductive place : Type :=
  | PGone | PMain (k : nat) | PCur (k : nat) | PNext (k : nat) | PRq (k : nat)
  | PPub | PRes | PPush | PFresh.

#[local] Instance place_eq_dec : EqDecision place.
Proof using. solve_decision. Defined.

(** The uThread that a kThread leaves or runs, and the one it switches to,
    its main uThread apart. *)
Definition cur_at (x : kthread) : list addr :=
  match kph x with
  | KOff | KMain | KSet _ => []
  | _ => if decide (currentUT x = mainUT x) then [] else [currentUT x]
  end.
Definition next_of (p : phase) : option addr :=
  match p with
  | KSwitch n | KPost n | KPush n | KSusp n | KSet n => Some n
  | _ => None
  end.
Definition next_at (x : kthread) : list addr :=
  match next_of (kph x) with
  | Some n => if decide (n = mainUT x) then [] else [n]
  | None => []
  end.
Definition at_place (s : life) (p : place) : list addr :=
  match p with
  | PGone => []
  | PMain k => match kph (kts s k) with KOff => [] | _ => [mainUT (kts s k)] end
  | PCur k => cur_at (kts s k)
  | PNext k => next_at (kts s k)
  | PRq k => rq s k
  | PPub => published s
  | PRes => resuming s
  | PPush => pushing s
  | PFresh => fresh s
  end.

Definition holds (l : list addr) (loc : addr → place) (p : place) : Prop :=
  NoDup l ∧ ∀ a, a ∈ l ↔ loc a = p.
Definition placed (s : life) (loc : addr → place) : Prop :=
  ∀ p, p ≠ PGone → holds (at_place s p) loc p.

Definition home_ok (u : tcb) : Prop := ∃ k, home u = Some k ∧ k ∈ members (cl u).

Definition ut_ok (u : tcb) (p : place) : Prop :=
  match p with
  | PGone | PMain _ => True
  | PCur _ => home_ok u
  | PNext _ => home_ok u
  | PRq k => st u = READY ∧ ctx u = true ∧ home u = Some k ∧ k ∈ members (cl u)
  | PPub => st u = WAITING ∧ ctx u = true ∧ home_ok u
  | PRes => (st u = WAITING ∧ home_ok u ∨ st u = INITIALIZED ∧ home u = None) ∧ ctx u = true
  | PPush => st u = READY ∧ ctx u = true ∧ home_ok u
  | PFresh => st u = INITIALIZED ∧ home u = None
  end.

(** The state of the uThread that is being left. *)
Definition leaving (x : kthread) (u : tcb) : Prop :=
  match st u with
  | YIELD | MIGRATE | TERMINATED => True
  | WAITING => postSuspendFunc x = true
  | _ => False
  end.

Definition kt_cond (x : kthread) (us : addr → tcb) : Prop :=
  let c := us (currentUT x) in
  let m := us (mainUT x) in
  match kph x with
  | KOff => True
  | KMain => currentUT x = mainUT x
  | KRun => currentUT x ≠ mainUT x ∧ ctx m = true
  | KPick => currentUT x ≠ mainUT x ∧ ctx m = true ∧ leaving x c
  | KSwitch n =>
      currentUT x ≠ n ∧ ctx (us n) = true
      ∧ (currentUT x ≠ mainUT x → leaving x c ∧ ctx m = true)
  | KPost n =>
      currentUT x ≠ n ∧ (currentUT x ≠ mainUT x → leaving x c ∧ ctx c = true)
      ∧ (n ≠ mainUT x → ctx m = true)
  | KPush n =>
      currentUT x ≠ mainUT x ∧ st c = READY ∧ ctx c = true ∧ (n ≠ mainUT x → ctx m = true)
  | KSusp n =>
      currentUT x ≠ mainUT x ∧ st c = WAITING ∧ ctx c = true ∧ (n ≠ mainUT x → ctx m = true)
  | KSet n => n ≠ mainUT x → ctx m = true
  end.

Record linv_at (s : life) (loc : addr → place) : Prop := {
  li_placed : placed s loc;
  li_live : ∀ a, a ∈ live s ↔ loc a ≠ PGone;
  li_ut : ∀ a, ut_ok (uts s a) (loc a);
  li_kt : ∀ k, kt_cond (kts s k) (uts s);
  li_mem : ∀ c k, k ∈ members c → kph (kts s k) ≠ KOff;
  li_clean : dropped s = [] ∧ faulty s = false
}.
Definition linv (s : life) : Prop := ∃ loc, linv_at s loc.

(** *** Moving a uThread *)

Lemma elem_del a x l : a ∈ del x l ↔ a ∈ l ∧ a ≠ x.
Proof using. unfold del. rewrite list_elem_of_filter. tauto. Qed.
Lemma NoDup_del x l : NoDup l → NoDup (del x l).
Proof using. apply NoDup_filter. Qed.
Lemma del_notin x l : x ∉ l → del x l = l.
Proof using.
  induction l as [|y l IH]; intros Hx; [done|]. unfold del. rewrite filter_cons.
  rewrite decide_True by set_solver. f_equal. apply IH. set_solver.
Qed.
Lemma del_head x l : x ∉ l → del x (x :: l) = l.
Proof using. intros Hx. unfold del. rewrite filter_cons, decide_False by auto. by apply del_notin. Qed.

Lemma placed_move s s' loc x p1 p2 :
  placed s loc → loc x = p1 → p1 ≠ p2 →
  (p1 ≠ PGone → at_place s' p1 = del x (at_place s p1)) →
  (p2 ≠ PGone → at_place s' p2 = at_place s p2 ++ [x]) →
  (∀ p, p ≠ p1 → p ≠ p2 → at_place s' p = at_place s p) →
  placed s' (<[x := p2]> loc).
Proof using.
  intros HP Hx Hne H1 H2 Hother p Hp.
  assert (Hl : ∀ a q, <[x := p2]> loc a = q ↔ (a = x ∧ q = p2 ∨ a ≠ x ∧ loc a = q)).
  { intros a q. destruct (decide (a = x)) as [->|Ha].
    - rewrite fn_lookup_insert. naive_solver.
    - rewrite fn_lookup_insert_ne by done. naive_solver. }
  destruct (HP p Hp) as [Hnd Hin]. split.
  - destruct (decide (p = p1)) as [->|]; [rewrite H1 by done; by apply NoDup_del|].
    destruct (decide (p = p2)) as [->|]; [|by rewrite Hother].
    rewrite H2 by done. apply NoDup_app. split_and!; [done| |by apply NoDup_singleton].
    intros a Ha ->%list_elem_of_singleton. apply Hin in Ha. congruence.
  - intros a. rewrite Hl. destruct (decide (p = p1)) as [->|].
    { rewrite H1, elem_del, Hin by done. naive_solver. }
    destruct (decide (p = p2)) as [->|]; [|rewrite Hother, Hin by done; naive_solver].
    rewrite H2, elem_of_app, Hin, list_elem_of_singleton by done.
    destruct (decide (a = x)); naive_solver.
Qed.

Lemma placed_same s s' loc :
  placed s loc → (∀ p, at_place s' p = at_place s p) → placed s' loc.
Proof using. intros HP Heq p Hp. rewrite Heq. by apply HP. Qed.

(** *** Frame conditions *)

Lemma placed_main s loc k :
  placed s loc → kph (kts s k) ≠ KOff → loc (mainUT (kts s k)) = PMain k.
Proof using.
  intros HP Hk. destruct (HP (PMain k)) as [_ <-]; [done|]. simpl.
  destruct (kph (kts s k)); [done|by apply list_elem_of_singleton..].
Qed.
Lemma placed_cur s loc k a : placed s loc → a ∈ cur_at (kts s k) → loc a = PCur k.
Proof using. intros HP Ha. by apply (HP (PCur k)). Qed.
Lemma placed_next s loc k a : placed s loc → a ∈ next_at (kts s k) → loc a = PNext k.
Proof using. intros HP Ha. by apply (HP (PNext k)). Qed.

(** The uThreads that the condition of a kThread is about. *)
Definition mine (k : nat) (p : place) : Prop := p = PMain k ∨ p = PCur k ∨ p = PNext k.

Lemma kt_cond_frame s loc k (us : addr → tcb) :
  placed s loc →
  (∀ a, mine k (loc a) → us a = uts s a) →
  kt_cond (kts s k) (uts s) → kt_cond (kts s k) us.
Proof using.
  intros HP Hus Hc. destruct (decide (kph (kts s k) = KOff)) as [E|Hoff].
  { unfold kt_cond. by rewrite E. }
  assert (Hm : us (mainUT (kts s k)) = uts s (mainUT (kts s k))).
  { apply Hus. left. by apply placed_main. }
  assert (Hcur : ∀ p, kph (kts s k) = p →
            match p with KOff | KMain | KSet _ => True
            | _ => us (currentUT (kts s k)) = uts s (currentUT (kts s k)) end).
  { intros p Ep. destruct (decide (currentUT (kts s k) = mainUT (kts s k))) as [->|Hcm];
      [by destruct p|].
    destruct p; try done; (apply Hus; right; left; eapply placed_cur; [done|]);
      unfold cur_at; rewrite Ep, decide_False by done; by apply list_elem_of_singleton. }
  assert (Hnext : ∀ n, next_of (kph (kts s k)) = Some n → us n = uts s n).
  { intros n En. destruct (decide (n = mainUT (kts s k))) as [->|Hnm]; [done|].
    apply Hus. right; right. eapply placed_next; [done|]. unfold next_at.
    rewrite En, decide_False by done. by apply list_elem_of_singleton. }
  specialize (Hcur _ eq_refl). unfold kt_cond in *.
  destruct (kph (kts s k)); simpl in *; rewrite ?Hm, ?Hcur, ?(Hnext _ eq_refl); done.
Qed.

(** The invariant after a step that changes the uThreads of [X] only. *)
Lemma linv_frame s s' loc loc' (X : list addr) :
  linv_at s loc →
  placed s' loc' →
  (∀ a, a ∈ live s' ↔ loc' a ≠ PGone) →
  (∀ a, a ∉ X → uts s' a = uts s a ∧ loc' a = loc a) →
  (∀ a, a ∈ X → ut_ok (uts s' a) (loc' a)) →
  (∀ k, kts s' k = kts s k ∧ (∀ a, a ∈ X → ¬ mine k (loc a))
        ∨ kt_cond (kts s' k) (uts s') ∧ kph (kts s k) ≠ KOff ∧ kph (kts s' k) ≠ KOff) →
  dropped s' = [] → faulty s' = false →
  linv_at s' loc'.
Proof.
  intros HI HP Hlive Hsame HX Hk Hd Hf. split; [done|done| | | |done].
  - intros a. destruct (decide (a ∈ X)) as [Ha|Ha]; [by apply HX|].
    destruct (Hsame a Ha) as [-> ->]. apply HI.
  - intros k. destruct (Hk k) as [[-> HXk]|[? _]]; [|done].
    eapply kt_cond_frame; [apply HI| |apply HI].
    intros a Ha. apply Hsame. intros HaX. by apply (HXk a).
  - intros c k Hc. destruct (Hk k) as [[-> _]|(_ & _ & ?)]; [|done]. by eapply li_mem.
Qed.

(** *** Every step preserves the invariant *)

(** Places are compared field by field; where a kThread or a run queue was
    updated, the one of the place is it or another. *)
Ltac fn_at k :=
  repeat match goal with
  | |- context [(<[k := _]> ?f) k] => rewrite fn_lookup_insert
  | |- context [(<[k := _]> ?f) ?k'] =>
      destruct (decide (k' = k)) as [->|?];
      [rewrite fn_lookup_insert|rewrite fn_lookup_insert_ne by done]
  end.
Ltac same_places k :=
  intros [ | | | | | | | | ]; simpl; try done; fn_at k; try done;
  unfold cur_at, next_at; simpl.

Lemma leave_inv k f s s' loc :
  linv_at s loc → leave k f s = Some s' →
  (∀ u, home_ok u → home_ok (f u)) →
  (∀ u, leaving (kts s k) (f u)) →
  linv_at s' loc.
Proof.
  intros HI Hs Hf Hl. unfold leave in Hs. destruct (kph (kts s k)) eqn:Ek; simplify_eq.
  pose proof (li_kt _ _ HI k) as Hk. unfold kt_cond in Hk. rewrite Ek in Hk. destruct Hk as [Hcm Hm].
  assert (Hc : loc (currentUT (kts s k)) = PCur k).
  { eapply placed_cur; [apply HI|]. unfold cur_at. rewrite Ek, decide_False by done. set_solver. }
  eapply (linv_frame s _ loc loc [currentUT (kts s k)]); [done| |apply HI| | | |apply HI|apply HI].
  - eapply placed_same; [apply HI|]. same_places k; by rewrite Ek.
  - intros a Ha. simpl. rewrite fn_lookup_insert_ne by set_solver. done.
  - intros a ->%list_elem_of_singleton. simpl. rewrite fn_lookup_insert, Hc. simpl.
    apply Hf. pose proof (li_ut _ _ HI (currentUT (kts s k))) as Hu. by rewrite Hc in Hu.
  - intros k'. simpl. destruct (decide (k' = k)) as [->|].
    + rewrite fn_lookup_insert. right. unfold kt_cond; simpl. rewrite Ek.
      rewrite fn_lookup_insert, fn_lookup_insert_ne by done.
      split; [|done]. split_and!; [done|done|apply Hl].
    + rewrite fn_lookup_insert_ne by done. left. split; [done|].
      intros a ->%list_elem_of_singleton. rewrite Hc. unfold mine. naive_solver.
Qed.

Lemma set_postSuspendFunc_inv k s loc :
  linv_at s loc → kph (kts s k) = KRun → linv_at (set_postSuspendFunc k s) loc.
Proof.
  intros HI Ek. eapply (linv_frame s _ loc loc []); [done| |apply HI|done| | |apply HI|apply HI].
  - eapply placed_same; [apply HI|]. same_places k.
  - intros a Ha. by apply not_elem_of_nil in Ha.
  - intros k'. simpl. destruct (decide (k' = k)) as [->|].
    + rewrite fn_lookup_insert. right. pose proof (li_kt _ _ HI k) as Hk.
      unfold kt_cond in *. simpl. by rewrite Ek in *.
    + rewrite fn_lookup_insert_ne by done. left. split; [done|].
      intros a Ha. by apply not_elem_of_nil in Ha.
Qed.

(** A step of no kThread that moves one uThread between lists. *)
Lemma list_move_inv s s' loc x p1 p2 :
  linv_at s loc → loc x = p1 → p1 ≠ p2 → (∀ k, ¬ mine k p1) → p2 ≠ PGone →
  kts s' = kts s →
  (p1 ≠ PGone → at_place s' p1 = del x (at_place s p1)) →
  (at_place s' p2 = at_place s p2 ++ [x]) →
  (∀ p, p ≠ p1 → p ≠ p2 → at_place s' p = at_place s p) →
  (∀ a, a ≠ x → uts s' a = uts s a) → ut_ok (uts s' x) p2 →
  (∀ a, a ∈ live s' ↔ a ∈ live s ∨ a = x) →
  dropped s' = dropped s → faulty s' = faulty s →
  linv_at s' (<[x := p2]> loc).
Proof.
  intros HI Hx Hne Hmine Hp2 Hk H1 H2 Ho Hu Hux Hl Hd Hf.
  eapply (linv_frame s _ loc _ [x]); [done| | | | | |rewrite Hd; apply HI|rewrite Hf; apply HI].
  - eapply placed_move; eauto. apply HI.
  - intros a. rewrite Hl, (li_live _ _ HI). destruct (decide (a = x)) as [->|].
    + rewrite fn_lookup_insert. naive_solver.
    + rewrite fn_lookup_insert_ne by done. naive_solver.
  - intros a Ha. rewrite fn_lookup_insert_ne by set_solver. split; [apply Hu; set_solver|done].
  - intros a ->%list_elem_of_singleton. by rewrite fn_lookup_insert.
  - intros k. left. rewrite Hk. split; [done|]. intros a ->%list_elem_of_singleton. by rewrite Hx.
Qed.

Lemma in_place s loc p a : linv_at s loc → p ≠ PGone → a ∈ at_place s p → loc a = p.
Proof using. intros HI Hp Ha. by apply (li_placed _ _ HI p). Qed.

Lemma live_in s loc a : linv_at s loc → loc a ≠ PGone → a ∈ live s.
Proof using. intros HI Ha. by apply (li_live _ _ HI). Qed.

Lemma live_same s loc x :
  linv_at s loc → loc x ≠ PGone → ∀ b, b ∈ live s ↔ b ∈ live s ∨ b = x.
Proof. intros HI Hx b. split; [auto|]. intros [?| ->]; [done|]. by eapply live_in. Qed.

Ltac not_mine := intros ?; unfold mine; naive_solver.

Lemma create_inv a s s' : linv s → create_ut a s = Some s' → linv s'.
Proof.
  intros [loc HI] Hs. unfold create_ut in Hs. case_decide as Ha; simplify_eq.
  assert (Hx : loc a = PGone).
  { destruct (decide (loc a = PGone)); [done|]. by destruct Ha; eapply live_in. }
  exists (<[a := PFresh]> loc).
  eapply (list_move_inv s _ loc a PGone PFresh); [done|done|done|not_mine|done|done|done|done| | | | |done|done].
  - intros [ | | | | | | | | ] ??; done.
  - intros b Hb. simpl. by rewrite fn_lookup_insert_ne.
  - simpl. by rewrite fn_lookup_insert.
  - intros b. simpl. set_solver.
Qed.

Lemma start_inv a c s s' : linv s → start a c s = Some s' → linv s'.
Proof.
  intros [loc HI] Hs. unfold start in Hs. case_decide as Ha; simplify_eq.
  assert (Hx : loc a = PFresh) by (by eapply (in_place _ _ PFresh)).
  pose proof (li_ut _ _ HI a) as Hu. rewrite Hx in Hu. destruct Hu as [Hst Hh].
  exists (<[a := PRes]> loc).
  eapply (list_move_inv s _ loc a PFresh PRes); [done|done|done|not_mine|done|done|done|done| | | | |done|done].
  - intros [ | | | | | | | | ] ??; done.
  - intros b Hb. simpl. by rewrite fn_lookup_insert_ne.
  - simpl. rewrite fn_lookup_insert. simpl. eauto.
  - apply (live_same _ _ _ HI). by rewrite Hx.
Qed.

Lemma take_inv a s : linv s → a ∈ published s →
  linv (set_resuming (resuming s ++ [a]) (set_published (del a (published s)) s)).
Proof.
  intros [loc HI] Ha.
  assert (Hx : loc a = PPub) by (by eapply (in_place _ _ PPub)).
  pose proof (li_ut _ _ HI a) as Hu. rewrite Hx in Hu. destruct Hu as (Hst & Hctx & Hh).
  exists (<[a := PRes]> loc).
  eapply (list_move_inv s _ loc a PPub PRes); [done|done|done|not_mine|done|done|done|done| |done| | |done|done].
  - intros [ | | | | | | | | ] ??; done.
  - simpl. eauto.
  - apply (live_same _ _ _ HI). by rewrite Hx.
Qed.

Lemma resume_tcb_ok kt u :
  (st u = WAITING ∧ home_ok u ∨ st u = INITIALIZED ∧ home u = None) →
  assigned_ok kt u = true → ∃ u', resume_tcb kt u = Some u' ∧ st u' = READY ∧ home_ok u' ∧ ctx u' = ctx u.
Proof.
  intros Hst Ha. unfold resume_tcb, assigned_ok in *.
  destruct Hst as [[-> (k & Hk & Hm)]|[-> Hk]]; rewrite Hk in *; simpl; eexists; split_and!; try done.
  - by exists k.
  - exists kt. simpl. by apply bool_decide_eq_true in Ha.
Qed.

Lemma ready_inv a kt s s' :
  linv s → lstep (LReady a kt) s = Some s' → linv s'.
Proof.
  intros [loc HI] Hs. simpl in Hs. case_decide as Ha; [|done].
  destruct (assigned_ok kt (uts s a)) eqn:Hass; simplify_eq.
  assert (Hx : loc a = PRes) by (by eapply (in_place _ _ PRes)).
  pose proof (li_ut _ _ HI a) as Hu. rewrite Hx in Hu. destruct Hu as (Hst & Hctx).
  destruct (resume_tcb_ok kt _ Hst Hass) as (u' & -> & Hr & Hh & Hc).
  exists (<[a := PPush]> loc).
  eapply (list_move_inv s _ loc a PRes PPush); [done|done|done|not_mine|done|done|done|done| | | | |done|done].
  - intros [ | | | | | | | | ] ??; done.
  - intros b Hb. simpl. by rewrite fn_lookup_insert_ne.
  - simpl. rewrite fn_lookup_insert. rewrite Hc. done.
  - apply (live_same _ _ _ HI). by rewrite Hx.
Qed.

Lemma push_inv a s :
  linv s → a ∈ pushing s → linv (schedule a (set_pushing (del a (pushing s)) s)).
Proof.
  intros [loc HI] Ha.
  assert (Hx : loc a = PPush) by (by eapply (in_place _ _ PPush)).
  pose proof (li_ut _ _ HI a) as Hu. rewrite Hx in Hu. destruct Hu as (Hst & Hctx & h & Hh & Hm).
  unfold schedule. simpl. rewrite Hh. exists (<[a := PRq h]> loc).
  eapply (list_move_inv s _ loc a PPush (PRq h)); [done|done|done|not_mine|done|done|done| | |done|done| |done|done].
  - simpl. by rewrite fn_lookup_insert.
  - intros [ | | | | k | | | | ] ??; try done. simpl. rewrite fn_lookup_insert_ne by congruence. done.
  - apply (live_same _ _ _ HI). by rewrite Hx.
Qed.

(** A step of kThread [k] that changes the uThreads of [X] only. *)
Lemma kt_frame s s' loc loc' k (X : list addr) :
  linv_at s loc →
  placed s' loc' →
  (∀ a, a ∈ live s' ↔ loc' a ≠ PGone) →
  (∀ a, a ∉ X → uts s' a = uts s a ∧ loc' a = loc a) →
  (∀ a, a ∈ X → ut_ok (uts s' a) (loc' a)) →
  (∀ k', k' ≠ k → kts s' k' = kts s k') →
  (∀ a k', a ∈ X → k' ≠ k → ¬ mine k' (loc a)) →
  kt_cond (kts s' k) (uts s') → kph (kts s k) ≠ KOff → kph (kts s' k) ≠ KOff →
  dropped s' = dropped s → faulty s' = faulty s →
  linv_at s' loc'.
Proof.
  intros HI HP Hl Hsame HX Hk Hmine Hc Ho Ho' Hd Hf.
  eapply linv_frame; [done..| |rewrite Hd; apply HI|rewrite Hf; apply HI].
  intros k'. destruct (decide (k' = k)) as [->|Hne]; [by right|]. left.
  split; [by apply Hk|]. intros a Ha. by apply Hmine.
Qed.

Lemma live_insert s loc x p :
  linv_at s loc → loc x ≠ PGone → p ≠ PGone → ∀ a, a ∈ live s ↔ <[x := p]> loc a ≠ PGone.
Proof.
  intros HI Hx Hp a. rewrite (li_live _ _ HI). destruct (decide (a = x)) as [->|].
  - by rewrite fn_lookup_insert.
  - by rewrite fn_lookup_insert_ne.
Qed.

(** Looking at one of the two updated functions. *)
Ltac fn_simpl := simpl; repeat first
  [rewrite fn_lookup_insert | rewrite fn_lookup_insert_ne by (congruence || set_solver)]; simpl.

(** [runQueue.pop()] of [k] returned [a]. *)
Lemma pop_inv k a r s :
  linv s → rq s k = a :: r → (kph (kts s k) = KMain ∨ kph (kts s k) = KPick) →
  linv (set_ph k (KSwitch a) (set_rq k r s)).
Proof.
  intros [loc HI] Hrq Hph.
  assert (Hx : loc a = PRq k).
  { eapply (in_place _ _ (PRq k)); [done..|]. simpl. rewrite Hrq. set_solver. }
  assert (Hm : loc (mainUT (kts s k)) = PMain k).
  { apply placed_main; [apply HI|]. destruct Hph; congruence. }
  assert (Hac : a ≠ currentUT (kts s k) ∧ a ≠ mainUT (kts s k)).
  { split; [|congruence]. destruct (decide (currentUT (kts s k) = mainUT (kts s k))) as [->|Hne].
    - congruence.
    - intros ->. destruct Hph as [Hph|Hph].
      + pose proof (li_kt _ _ HI k) as Hk. unfold kt_cond in Hk. by rewrite Hph in Hk.
      + rewrite (placed_cur s loc k) in Hx; [done|apply HI|].
        unfold cur_at. rewrite Hph, decide_False by done. set_solver. }
  destruct Hac as [Hac Ham].
  destruct (li_placed _ _ HI (PRq k)) as [Hnd _]; [done|]. simpl in Hnd. rewrite Hrq in Hnd.
  apply NoDup_cons in Hnd as [Hnin _].
  pose proof (li_ut _ _ HI a) as Hu. rewrite Hx in Hu. destruct Hu as (Hst & Hctx & Hh & Hme).
  exists (<[a := PNext k]> loc).
  eapply (kt_frame s _ loc _ k [a]); [done| | | | | | | | | |done|done].
  - eapply (placed_move s _ loc a (PRq k) (PNext k)); [apply HI|done|done|intros _|intros _|].
    + fn_simpl. rewrite Hrq. symmetry. by apply del_head.
    + fn_simpl. unfold next_at. simpl. rewrite decide_False by done.
      by destruct Hph as [-> | ->].
    + same_places k; intros _ _; [by destruct Hph as [-> | ->]|].
      pose proof (li_kt _ _ HI k) as Hk. unfold kt_cond in Hk.
      destruct Hph as [E|E]; rewrite E in *; [|done]. by rewrite Hk, decide_True.
  - apply (live_insert _ _ _ _ HI); [by rewrite Hx|done].
  - intros b Hb. fn_simpl. done.
  - intros b ->%list_elem_of_singleton. fn_simpl. by exists k.
  - intros k' Hk'. fn_simpl. done.
  - intros b k' ->%list_elem_of_singleton _. rewrite Hx. unfold mine. naive_solver.
  - fn_simpl. unfold kt_cond. simpl. split_and!; [congruence|done|]. intros Hcm.
    pose proof (li_kt _ _ HI k) as Hk. unfold kt_cond in Hk.
    destruct Hph as [E|E]; rewrite E in Hk; [done|]. tauto.
  - destruct Hph; congruence.
  - fn_simpl. done.
Qed.

(** The changes of phase that move no uThread. *)
Lemma stay_inv k p s :
  linv s → kph (kts s k) ≠ KOff → p ≠ KOff →
  cur_at (mkKt (currentUT (kts s k)) (mainUT (kts s k)) p (postSuspendFunc (kts s k)))
    = cur_at (kts s k) →
  next_at (mkKt (currentUT (kts s k)) (mainUT (kts s k)) p (postSuspendFunc (kts s k)))
    = next_at (kts s k) →
  kt_cond (mkKt (currentUT (kts s k)) (mainUT (kts s k)) p (postSuspendFunc (kts s k))) (uts s) →
  linv (set_ph k p s).
Proof.
  intros [loc HI] Ho Hp Hc Hn Hk. exists loc.
  eapply (kt_frame s _ loc loc k []); [done| |apply HI|done| | | | |done| |done|done].
  - eapply placed_same; [apply HI|]. intros [ |k'|k'|k'| | | | | ]; simpl; try done; fn_at k; try done.
    simpl. destruct p; try done; by destruct (kph (kts s k)).
  - intros a Ha. by apply not_elem_of_nil in Ha.
  - intros k' Hk'. fn_simpl. done.
  - intros a k' Ha. by apply not_elem_of_nil in Ha.
  - fn_simpl. done.
  - fn_simpl. done.
Qed.

(** The phase of [k], where the goal or a hypothesis looks at it. *)
Ltac at_phase E := unfold cur_at, next_at, kt_cond; simpl; rewrite E; simpl.

Lemma nonBlockingSwitch_inv k s :
  linv s → kph (kts s k) = KPick → linv (nonBlockingSwitch k s).
Proof.
  intros HI E. pose proof HI as [loc HI']. pose proof (li_kt _ _ HI' k) as Hk.
  unfold kt_cond in Hk. rewrite E in Hk. destruct Hk as (Hcm & Hm & Hl).
  unfold nonBlockingSwitch. destruct (rq s k) as [|a r] eqn:Hrq; [|by apply pop_inv; auto].
  case_decide as Hy; apply stay_inv; try done; try congruence; at_phase E; try done.
  by rewrite decide_True.
Qed.

Lemma stackSwitch_inv k n s :
  linv s → kph (kts s k) = KSwitch n → linv (stackSwitch k n s).
Proof.
  intros [loc HI] E. pose proof (li_kt _ _ HI k) as Hk.
  unfold kt_cond in Hk. rewrite E in Hk. destruct Hk as (Hcn & Hctx & Hl).
  assert (Hm : loc (mainUT (kts s k)) = PMain k).
  { apply placed_main; [apply HI|]. congruence. }
  assert (HC : currentUT (kts s k) = mainUT (kts s k) ∨ loc (currentUT (kts s k)) = PCur k).
  { destruct (decide (currentUT (kts s k) = mainUT (kts s k))); [by left|right].
    eapply placed_cur; [apply HI|]. at_phase E. rewrite decide_False by done. set_solver. }
  assert (HN : n = mainUT (kts s k) ∨ loc n = PNext k).
  { destruct (decide (n = mainUT (kts s k))); [by left|right].
    eapply placed_next; [apply HI|]. at_phase E. rewrite decide_False by done. set_solver. }
  unfold stackSwitch. rewrite Hctx. exists loc.
  eapply (kt_frame s _ loc loc k [currentUT (kts s k); n]);
    [done| |apply HI| | | | | | | |done|done].
  - eapply placed_same; [apply HI|]. same_places k; by rewrite E.
  - intros a Ha. fn_simpl. done.
  - assert (Hkeep : ∀ a b, ut_ok (uts s a) (loc a) → mine k (loc a) →
                           ut_ok (set_ctx b (uts s a)) (loc a)).
    { intros a b Hu Hmine. destruct Hmine as [Ha|[Ha|Ha]]; rewrite Ha in *; done. }
    intros a Ha. assert (Hmine : mine k (loc a)).
    { unfold mine. apply elem_of_cons in Ha as [->|Ha%list_elem_of_singleton].
      - destruct HC as [HC|HC]; rewrite HC; auto.
      - subst a. destruct HN as [HN|HN]; rewrite HN; auto. }
    apply elem_of_cons in Ha as [->|Ha%list_elem_of_singleton].
    + fn_simpl. apply Hkeep; [apply HI|done].
    + subst. fn_simpl. apply Hkeep; [apply HI|done].
  - intros k' Hk'. fn_simpl. done.
  - intros a k' Ha Hk'. unfold mine.
    apply elem_of_cons in Ha as [->|Ha%list_elem_of_singleton]; subst;
      [destruct HC as [HC|HC]|destruct HN as [HN|HN]]; rewrite ?HC, ?HN, ?Hm; intuition congruence.
  - fn_simpl. unfold kt_cond. simpl. fn_simpl. split_and!; [done| |].
    + intros Hcm. destruct (Hl Hcm) as [Hl1 _]. done.
    + intros Hnm. destruct (decide (currentUT (kts s k) = mainUT (kts s k))) as [Heq|Hcm].
      * rewrite fn_lookup_insert_ne by congruence. rewrite Heq, fn_lookup_insert. done.
      * fn_simpl. by apply Hl.
  - congruence.
  - fn_simpl. done.
Qed.

(** postSwitchFunc hands the uThread it leaves to somebody else. *)
Definition handing (p : phase) (n : addr) : Prop := p = KPost n ∨ p = KPush n ∨ p = KSusp n.

Lemma depart_inv k n s s' loc p2 :
  linv_at s loc → handing (kph (kts s k)) n →
  currentUT (kts s k) ≠ mainUT (kts s k) →
  (n ≠ mainUT (kts s k) → ctx (uts s (mainUT (kts s k))) = true) →
  (∀ j, ¬ mine j p2) →
  kts s' = <[k := mkKt (currentUT (kts s k)) (mainUT (kts s k)) (KSet n)
                       (postSuspendFunc (kts s k))]> (kts s) →
  uts s' = uts s → ut_ok (uts s (currentUT (kts s k))) p2 →
  (p2 ≠ PGone → at_place s' p2 = at_place s p2 ++ [currentUT (kts s k)]) →
  (∀ p, p ≠ p2 → (∀ j, ¬ mine j p) → at_place s' p = at_place s p) →
  (∀ a, a ∈ live s' ↔ a ∈ live s ∧ (a = currentUT (kts s k) → p2 ≠ PGone)) →
  dropped s' = dropped s → faulty s' = faulty s →
  linv s'.
Proof.
  intros HI Hh Hcm Hmain Hp2 Hkts Huts Hu Hat Ho Hl Hd Hf.
  assert (Hcur : cur_at (kts s k) = [currentUT (kts s k)]).
  { unfold cur_at. destruct Hh as [-> |[-> | ->]]; by rewrite decide_False. }
  assert (Hx : loc (currentUT (kts s k)) = PCur k).
  { eapply placed_cur; [apply HI|]. rewrite Hcur. set_solver. }
  exists (<[currentUT (kts s k) := p2]> loc).
  eapply (kt_frame s _ loc _ k [currentUT (kts s k)]); [done| | | | | | | | | |done|done].
  - eapply (placed_move s _ loc _ (PCur k) p2); [apply HI|done| |intros _|done|].
    + intros <-. apply (Hp2 k). unfold mine. auto.
    + simpl. rewrite Hkts, Hcur, fn_lookup_insert, del_head by (by apply not_elem_of_nil). done.
    + intros p Hp1 Hpp. destruct p as [ |j|j|j| | | | | ];
        try (apply Ho; [done|intros j'; unfold mine; intuition congruence]);
        simpl; rewrite Hkts; fn_at k; try done.
      * simpl. by destruct Hh as [-> |[-> | ->]].
      * unfold next_at. simpl. by destruct Hh as [-> |[-> | ->]].
  - intros a. rewrite Hl, (li_live _ _ HI). destruct (decide (a = currentUT (kts s k))) as [->|].
    + rewrite fn_lookup_insert, Hx. intuition congruence.
    + rewrite fn_lookup_insert_ne by done. intuition congruence.
  - intros a Ha. rewrite Huts. fn_simpl. done.
  - intros a ->%list_elem_of_singleton. rewrite Huts. fn_simpl. done.
  - intros k' Hk'. rewrite Hkts. fn_simpl. done.
  - intros a k' ->%list_elem_of_singleton Hk'. rewrite Hx. unfold mine. intuition congruence.
  - rewrite Hkts, Huts. fn_simpl. unfold kt_cond. simpl. done.
  - destruct Hh as [-> |[-> | ->]]; done.
  - rewrite Hkts. fn_simpl. done.
Qed.

Lemma resume_tcb_running kt u :
  (st u = YIELD ∨ st u = MIGRATE) → home_ok u →
  ∃ u', resume_tcb kt u = Some u' ∧ st u' = READY ∧ home_ok u' ∧ ctx u' = ctx u.
Proof.
  intros Hst (h & Hh & Hm). unfold resume_tcb. rewrite Hh.
  destruct Hst as [-> | ->]; simpl; eexists; split_and!; try done; by exists h.
Qed.

(** The uThread left is made READY, before it is scheduled. *)
Lemma ready_cur_inv k n u s :
  linv s → kph (kts s k) = KPost n → currentUT (kts s k) ≠ mainUT (kts s k) →
  st u = READY → home_ok u → ctx u = true →
  linv (set_ph k (KPush n) (set_ut (currentUT (kts s k)) u s)).
Proof.
  intros [loc HI] E Hcm Hst Hh Hctx. exists loc.
  pose proof (li_kt _ _ HI k) as Hk. unfold kt_cond in Hk. rewrite E in Hk.
  destruct Hk as (Hcn & _ & Hm).
  assert (Hx : loc (currentUT (kts s k)) = PCur k).
  { eapply placed_cur; [apply HI|]. at_phase E. rewrite decide_False by done. set_solver. }
  eapply (kt_frame s _ loc _ k [currentUT (kts s k)]); [done| |apply HI| | | | | | | |done|done].
  - eapply placed_same; [apply HI|]. same_places k; by rewrite E.
  - intros a Ha. fn_simpl. done.
  - intros a ->%list_elem_of_singleton. fn_simpl. by rewrite Hx.
  - intros k' Hk'. fn_simpl. done.
  - intros a k' ->%list_elem_of_singleton Hk'. rewrite Hx. unfold mine. intuition congruence.
  - fn_simpl. unfold kt_cond. simpl. fn_simpl. done.
  - congruence.
  - fn_simpl. done.
Qed.

Lemma postSwitchFunc_inv k n kt s s' :
  linv s → kph (kts s k) = KPost n → postSwitchFunc k n kt s = Some s' → linv s'.
Proof.
  intros HI E Hs. pose proof HI as [loc HI']. pose proof (li_kt _ _ HI' k) as Hk.
  unfold kt_cond in Hk. rewrite E in Hk. destruct Hk as (Hcn & Hl & Hm).
  unfold postSwitchFunc in Hs. case_decide as Hcm; simplify_eq.
  { apply stay_inv; try done; try congruence; at_phase E; try done. by rewrite decide_True. }
  destruct (Hl Hcm) as [Hlv Hctx]. unfold leaving in Hlv.
  assert (Hx : loc (currentUT (kts s k)) = PCur k).
  { eapply placed_cur; [apply HI'|]. at_phase E. rewrite decide_False by done. set_solver. }
  pose proof (li_ut _ _ HI' (currentUT (kts s k))) as Hu. rewrite Hx in Hu. simpl in Hu.
  assert (Hresume : st (uts s (currentUT (kts s k))) = YIELD ∨ st (uts s (currentUT (kts s k))) = MIGRATE →
    (if assigned_ok kt (uts s (currentUT (kts s k))) then
       match resume_tcb kt (uts s (currentUT (kts s k))) with
       | Some u => Some (set_ph k (KPush n) (set_ut (currentUT (kts s k)) u s))
       | None => Some (set_ph k (KSet n) (drop_resume (currentUT (kts s k)) s))
       end
     else None) = Some s' → linv s').
  { intros Hst Heq. destruct (resume_tcb_running kt _ Hst Hu) as (u' & Hu' & Hr & Hh & Hc).
    rewrite Hu' in Heq. case_match; simplify_eq. apply ready_cur_inv; congruence. }
  destruct (st (uts s (currentUT (kts s k)))) eqn:Est; try done; try (by apply Hresume; auto).
  - rewrite Hlv in Hs. simplify_eq. apply stay_inv; try done; try congruence; at_phase E; try done.
  - simplify_eq. eapply (depart_inv k n s _ loc PGone); try done.
    + by left.
    + intros j. unfold mine. intuition congruence.
    + intros p _ Hp. destruct p as [ |j|j|j| | | | | ]; try done; destruct (Hp j); unfold mine; auto.
    + intros a. simpl. rewrite elem_del. intuition congruence.
Qed.

Ltac list_places := intros p ? Hp; destruct p as [ |j|j|j| | | | | ]; try done;
  try (destruct (Hp j); unfold mine; by auto).

Lemma push_cur_inv k n s :
  linv s → kph (kts s k) = KPush n →
  linv (set_ph k (KSet n) (schedule (currentUT (kts s k)) s)).
Proof.
  intros [loc HI] E. pose proof (li_kt _ _ HI k) as Hk. unfold kt_cond in Hk. rewrite E in Hk.
  destruct Hk as (Hcm & Hst & Hctx & Hm).
  assert (Hx : loc (currentUT (kts s k)) = PCur k).
  { eapply placed_cur; [apply HI|]. at_phase E. rewrite decide_False by done. set_solver. }
  pose proof (li_ut _ _ HI (currentUT (kts s k))) as Hu. rewrite Hx in Hu.
  destruct Hu as (h & Hh & Hmem). unfold schedule. rewrite Hh.
  eapply (depart_inv k n s _ loc (PRq h)); try done.
  - right. by left.
  - intros j. unfold mine. intuition congruence.
  - intros _. fn_simpl. done.
  - list_places. simpl. by rewrite fn_lookup_insert_ne by congruence.
  - intros a. simpl. intuition congruence.
Qed.

Lemma publish_inv k n s :
  linv s → kph (kts s k) = KSusp n →
  linv (set_ph k (KSet n) (set_published (published s ++ [currentUT (kts s k)]) s)).
Proof.
  intros [loc HI] E. pose proof (li_kt _ _ HI k) as Hk. unfold kt_cond in Hk. rewrite E in Hk.
  destruct Hk as (Hcm & Hst & Hctx & Hm).
  assert (Hx : loc (currentUT (kts s k)) = PCur k).
  { eapply placed_cur; [apply HI|]. at_phase E. rewrite decide_False by done. set_solver. }
  pose proof (li_ut _ _ HI (currentUT (kts s k))) as Hu. rewrite Hx in Hu.
  eapply (depart_inv k n s _ loc PPub); try done.
  - right. by right.
  - intros j. unfold mine. intuition congruence.
  - list_places.
  - intros a. simpl. intuition congruence.
Qed.

(** [currentUT = nextuThread]: back to the main uThread, or on to another. *)
Lemma set_cur_inv k n s s' kt :
  linv s → kph (kts s k) = KSet n → switch_step k kt s = Some s' → linv s'.
Proof.
  intros [loc HI] E Hs. unfold switch_step in Hs. rewrite E in Hs. simplify_eq.
  pose proof (li_kt _ _ HI k) as Hk. unfold kt_cond in Hk. rewrite E in Hk.
  assert (Hm : loc (mainUT (kts s k)) = PMain k).
  { apply placed_main; [apply HI|]. congruence. }
  case_decide as Hn.
  - subst n. exists loc.
    eapply (kt_frame s _ loc loc k [mainUT (kts s k)]); [done| |apply HI| | | | | | | |done|done].
    + eapply placed_same; [apply HI|]. same_places k; rewrite E; [done|done|].
      simpl. by rewrite decide_True.
    + intros a Ha. fn_simpl. done.
    + intros a ->%list_elem_of_singleton. by rewrite Hm.
    + intros k' Hk'. fn_simpl. done.
    + intros a k' ->%list_elem_of_singleton Hk'. rewrite Hm. unfold mine. intuition congruence.
    + fn_simpl. done.
    + congruence.
    + fn_simpl. done.
  - assert (Hx : loc n = PNext k).
    { eapply placed_next; [apply HI|]. at_phase E. rewrite decide_False by done. set_solver. }
    pose proof (li_ut _ _ HI n) as Hu. rewrite Hx in Hu.
    exists (<[n := PCur k]> loc).
    eapply (kt_frame s _ loc _ k [n]); [done| | | | | | | | | |done|done].
    + eapply (placed_move s _ loc n (PNext k) (PCur k)); [apply HI|done|done|intros _|intros _|].
      * fn_simpl. unfold next_at. simpl. rewrite E. simpl. rewrite decide_False by done.
        by rewrite del_head by (by apply not_elem_of_nil).
      * fn_simpl. unfold cur_at. simpl. rewrite E, decide_False by done. done.
      * same_places k; rewrite E; done.
    + apply (live_insert _ _ _ _ HI); [by rewrite Hx|done].
    + intros a Ha. fn_simpl. done.
    + intros a ->%list_elem_of_singleton. fn_simpl. done.
    + intros k' Hk'. fn_simpl. done.
    + intros a k' ->%list_elem_of_singleton Hk'. rewrite Hx. unfold mine. intuition congruence.
    + fn_simpl. unfold kt_cond. simpl. fn_simpl. auto.
    + congruence.
    + fn_simpl. done.
Qed.

Lemma switch_step_inv k kt s s' : linv s → switch_step k kt s = Some s' → linv s'.
Proof.
  intros HI Hs. destruct (kph (kts s k)) eqn:E; try (unfold switch_step in Hs; rewrite E in Hs);
    simplify_eq.
  - unfold blockingSwitch in Hs. destruct (rq s k) eqn:?; simplify_eq. by apply pop_inv; auto.
  - by apply nonBlockingSwitch_inv.
  - by apply stackSwitch_inv.
  - by eapply postSwitchFunc_inv.
  - by apply push_cur_inv.
  - by apply publish_inv.
  - eapply (set_cur_inv k next s _ kt); [done..|]. unfold switch_step. by rewrite E.
Qed.

Lemma leave_run k f s s' : leave k f s = Some s' → kph (kts s k) = KRun.
Proof. unfold leave. by destruct (kph (kts s k)). Qed.

Lemma lstep_inv l s s' : linv s → lstep l s = Some s' → linv s'.
Proof.
  intros HI Hs. pose proof HI as [loc HI'].
  destruct l as [a|a c|k|k c kt|k|k|a|a kt|a|k kt]; simpl in Hs.
  - by eapply create_inv.
  - by eapply start_inv.
  - exists loc. eapply leave_inv; [done|done|by intros ? (h & ? & ?); exists h|done].
  - unfold migrate in Hs. case_decide; [by destruct (kph (kts s k)); simplify_eq|].
    case_decide; [|done]. exists loc. eapply leave_inv; [done|done| |done].
    intros u _. by exists kt.
  - pose proof (leave_run _ _ _ _ Hs) as E. simpl in E. rewrite fn_lookup_insert in E. simpl in E.
    exists loc. eapply leave_inv; [by apply set_postSuspendFunc_inv|done| |].
    + by intros u (h & ? & ?); exists h.
    + intros u. unfold leaving. simpl. by rewrite fn_lookup_insert.
  - exists loc. eapply leave_inv; [done|done|by intros ? (h & ? & ?); exists h|done].
  - case_decide; simplify_eq. by apply take_inv.
  - by eapply (ready_inv a kt).
  - case_decide; simplify_eq. by apply push_inv.
  - by eapply switch_step_inv.
Qed.

(** ** What the program starts from *)

Section init.
Context (nkt : nat) (mains : nat → addr) (initUT : addr).
Hypothesis nkt_pos : 0 < nkt.
Hypothesis mains_inj : ∀ i j, i < nkt → j < nkt → mains i = mains j → i = j.
Hypothesis init_not_main : ∀ i, i < nkt → mains i ≠ initUT.
Hypothesis members_exist : ∀ c k, k ∈ members c → k < nkt.
Hypothesis default_member : 0 ∈ members 0.

(** The kThread whose main uThread is at [a]. *)
Definition main_of (a : addr) : option nat :=
  head (filter (λ k, mains k = a) (seq 0 nkt)).

Lemma main_of_Some a k : main_of a = Some k ↔ k < nkt ∧ mains k = a.
Proof.
  unfold main_of. split.
  - intros Hh. destruct (filter _ _) as [|y l] eqn:E; simplify_eq/=.
    assert (Hin : k ∈ filter (λ k, mains k = a) (seq 0 nkt)) by (rewrite E; set_solver).
    apply list_elem_of_filter in Hin as [? Hin%elem_of_seq]. split; [lia|done].
  - intros [Hk Ha]. assert (Hin : k ∈ filter (λ k, mains k = a) (seq 0 nkt)).
    { apply list_elem_of_filter. split; [done|]. apply elem_of_seq. lia. }
    destruct (filter _ _) as [|y l] eqn:E; [by apply not_elem_of_nil in Hin|].
    simpl. f_equal. assert (Hy : y ∈ filter (λ k, mains k = a) (seq 0 nkt)) by (rewrite E; set_solver).
    apply list_elem_of_filter in Hy as [? Hy%elem_of_seq]. apply mains_inj; [lia|done|congruence].
Qed.

Definition init_loc (a : addr) : place :=
  if decide (a = initUT) then PCur 0
  else match main_of a with Some k => PMain k | None => PGone end.

Lemma init_loc_cases a :
  a = initUT ∧ init_loc a = PCur 0
  ∨ a ≠ initUT ∧ (∃ k, k < nkt ∧ mains k = a ∧ init_loc a = PMain k)
  ∨ a ≠ initUT ∧ (∀ k, k < nkt → mains k ≠ a) ∧ init_loc a = PGone.
Proof.
  unfold init_loc. case_decide as Ha; [by left|right].
  destruct (main_of a) as [k|] eqn:E.
  - left. apply main_of_Some in E as [? ?]. eauto.
  - right. split_and!; [done| |done]. intros k Hk Hm.
    assert (main_of a = Some k) by (by apply main_of_Some). congruence.
Qed.

Lemma init_placed : placed (life_init nkt mains initUT) init_loc.
Proof.
  intros p Hp. assert (Hnil : ∀ q, (∀ a, init_loc a ≠ q) → holds [] init_loc q).
  { intros q Hq. split; [apply NoDup_nil_2|]. intros a.
    split; [by intros ?%not_elem_of_nil|intros Ha; by destruct (Hq a)]. }
  assert (Hone : ∀ q x, (∀ a, init_loc a = q ↔ a = x) → holds [x] init_loc q).
  { intros q x Hq. split; [apply NoDup_singleton|]. intros a. by rewrite Hq, list_elem_of_singleton. }
  pose proof init_not_main as Hnm.
  destruct p as [ |k|k|k| | | | | ]; simpl;
    try (apply Hnil; intros a; destruct (init_loc_cases a) as [[_ ->]|[(_ & ? & _ & _ & ->)|(_ & _ & ->)]];
         congruence).
  - destruct (decide (k < nkt)) as [Hk|Hk]; simpl.
    + replace (holds _ _ _) with (holds [mains k] init_loc (PMain k))
        by (destruct (decide (k = 0)) as [->|]; done).
      apply Hone. intros a.
      destruct (init_loc_cases a) as [[-> ->]|[(Ha & j & Hj & <- & ->)|(Ha & Hno & ->)]].
      * split; [done|intros He; by destruct (Hnm k Hk)].
      * split; [by intros [= ->]|intros He%mains_inj; [congruence|done|done]].
      * split; [done|intros He; by destruct (Hno k Hk)].
    + apply Hnil. intros a Ha.
      destruct (init_loc_cases a) as [[_ Hl]|[(_ & j & ? & _ & Hl)|(_ & _ & Hl)]]; congruence.
  - unfold cur_at. destruct (decide (k < nkt)) as [Hk|Hk]; simpl.
    + destruct (decide (k = 0)) as [->|Hk0]; simpl.
      * rewrite decide_False by (intros He; by apply (Hnm 0 Hk)).
        apply Hone. intros a.
        destruct (init_loc_cases a) as [[-> ->]|[(Ha & j & Hj & <- & ->)|(Ha & Hno & ->)]]; done.
      * apply Hnil. intros a.
        destruct (init_loc_cases a) as [[_ ->]|[(_ & ? & _ & _ & ->)|(_ & _ & ->)]]; congruence.
    + apply Hnil. intros a.
      destruct (init_loc_cases a) as [[_ ->]|[(_ & ? & _ & _ & ->)|(_ & _ & ->)]]; congruence.
  - unfold next_at. destruct (decide (k < nkt)), (decide (k = 0)); simpl;
      (apply Hnil; intros a; destruct (init_loc_cases a) as [[_ ->]|[(_ & ? & _ & _ & ->)|(_ & _ & ->)]];
       congruence).
Qed.

Lemma linv_init : linv (life_init nkt mains initUT).
Proof.
  exists init_loc. split; [apply init_placed| | | | |done].
  - intros a. simpl. rewrite elem_of_cons, list_elem_of_fmap.
    destruct (init_loc_cases a) as [[-> ->]|[(Ha & j & Hj & <- & ->)|(Ha & Hno & ->)]].
    + naive_solver.
    + split; [done|intros _; right]. exists j. split; [done|]. apply elem_of_seq. lia.
    + split; [|done]. intros [?|(k & -> & Hk%elem_of_seq)]; [done|]. destruct (Hno k); [lia|done].
  - intros a. destruct (init_loc_cases a) as [[-> ->]|[(Ha & j & Hj & <- & ->)|(Ha & Hno & ->)]]; [|done..].
    simpl. rewrite decide_True by done. by exists 0.
  - intros k. simpl. destruct (decide (k < nkt)) as [Hk|]; [|done].
    destruct (decide (k = 0)) as [->|]; [|done]. unfold kt_cond. simpl.
    split; [intros He; by apply (init_not_main 0 Hk)|].
    rewrite decide_False by auto. by rewrite decide_True.
  - intros c k Hc. simpl. rewrite decide_True by eauto. by case_decide.
Qed.

Definition lreachable (s : life) : Prop := reachable lstep (life_init nkt mains initUT) s.

Lemma linv_reachable s : lreachable s → linv s.
Proof.
  apply (invariant_reachable lstep linv); [apply linv_init|]. intros l s1 s2. by apply lstep_inv.
Qed.
End init.
End life.

(** ** Theorems *)

(** What the program sets up before main(): distinct main uThreads, clusters
    of existing kThreads, defaultKT in the default cluster. *)
Record boot (members : nat → list nat) (nkt : nat) (mains : nat → addr) (initUT : addr) : Prop := {
  boot_pos : 0 < nkt;
  boot_mains : ∀ i j, i < nkt → j < nkt → mains i = mains j → i = j;
  boot_init : ∀ i, i < nkt → mains i ≠ initUT;
  boot_members : ∀ c k, k ∈ members c → k < nkt;
  boot_default : 0 ∈ members 0
}.

(** The uThread whose stack a kThread runs on. *)
Definition on_cpu (x : kthread) : option addr :=
  match kph x with
  | KOff => None
  | KPost n | KPush n | KSusp n | KSet n => Some n
  | _ => Some (currentUT x)
  end.

Section theorems.
Context (members : nat → list nat) (localCluster : nat → nat)
        (nkt : nat) (mains : nat → addr) (initUT : addr).
Hypothesis Hboot : boot members nkt mains initUT.

Lemma linv_boot s :
  lreachable members localCluster nkt mains initUT s → linv members s.
Proof. destruct Hboot. by apply linv_reachable. Qed.

Lemma on_cpu_place s loc k a :
  linv_at members s loc → on_cpu (kts s k) = Some a → mine k (loc a).
Proof.
  intros HI Ha. pose proof (li_kt _ _ _ HI k) as Hk.
  assert (Hm : kph (kts s k) ≠ KOff → loc (mainUT (kts s k)) = PMain k)
    by (intros ?; by apply (placed_main s loc k (li_placed _ _ _ HI))).
  destruct (decide (a = mainUT (kts s k))) as [->|Hne].
  { left. apply Hm. unfold on_cpu in Ha. by destruct (kph (kts s k)). }
  unfold on_cpu, kt_cond in *. unfold mine.
  destruct (kph (kts s k)) eqn:E; simplify_eq;
    first [ right; left; apply (placed_cur s loc k _ (li_placed _ _ _ HI)); unfold cur_at; rewrite E, decide_False by done;
            by apply list_elem_of_singleton
          | right; right; apply (placed_next s loc k _ (li_placed _ _ _ HI)); unfold next_at; rewrite E; simpl;
            rewrite decide_False by done; by apply list_elem_of_singleton
          | congruence ].
Qed.

Lemma mine_inj j k p : mine j p → mine k p → j = k.
Proof. unfold mine. intuition congruence. Qed.

(** C3. No stack is ever used twice: a uThread whose stack a kThread runs on is
    on no other kThread, in no run queue, and nobody holds it for a resume. *)
Theorem life_one_cpu s a k :
  lreachable members localCluster nkt mains initUT s →
  on_cpu (kts s k) = Some a →
  (∀ k', on_cpu (kts s k') = Some a → k' = k)
  ∧ (∀ k', a ∉ rq s k')
  ∧ a ∉ published s ∧ a ∉ resuming s ∧ a ∉ pushing s ∧ a ∈ live s.
Proof.
  intros [loc HI]%linv_boot Ha. pose proof (on_cpu_place _ _ _ _ HI Ha) as Hp.
  assert (Hno : ∀ p, p ≠ PGone → (∀ j, ¬ mine j p) → a ∉ at_place s p).
  { intros p Hg Hm Hin. apply (in_place _ _ _ _ _ HI Hg) in Hin. apply (Hm k). congruence. }
  split_and!.
  - intros k' Ha'. eapply mine_inj; [by eapply on_cpu_place|done].
  - intros k'. apply (Hno (PRq k')); [done|intros j; unfold mine; intuition congruence].
  - apply (Hno PPub); [done|intros j; unfold mine; intuition congruence].
  - apply (Hno PRes); [done|intros j; unfold mine; intuition congruence].
  - apply (Hno PPush); [done|intros j; unfold mine; intuition congruence].
  - eapply live_in; [done|]. unfold mine in Hp. intuition congruence.
Qed.

(** C22. No context switch loads a stack pointer that is not a saved context,
    postSuspendFunc is set whenever postSwitchFunc calls it, homekThread is
    set whenever schedule uses it, and no resume is ignored because of the
    state of its uThread. *)
Theorem life_no_fault s :
  lreachable members localCluster nkt mains initUT s → faulty s = false ∧ dropped s = [].
Proof. intros [loc HI]%linv_boot. split; apply HI. Qed.

(** A uThread in a run queue is READY with a saved context, is there once,
    is in no other run queue, and the queue is the one of its home kThread,
    which belongs to its current cluster: migrate takes effect. *)
Theorem life_queued s a k :
  lreachable members localCluster nkt mains initUT s →
  a ∈ rq s k →
  st (uts s a) = READY ∧ ctx (uts s a) = true
  ∧ home (uts s a) = Some k ∧ k ∈ members (cl (uts s a))
  ∧ NoDup (rq s k) ∧ (∀ k', a ∈ rq s k' → k' = k).
Proof.
  intros [loc HI]%linv_boot Ha.
  assert (Hp : loc a = PRq k) by (by eapply (in_place _ _ _ (PRq k))).
  pose proof (li_ut _ _ _ HI a) as Hu. rewrite Hp in Hu. destruct Hu as (? & ? & ? & ?).
  split_and!; [done..| |].
  - by apply (li_placed _ _ _ HI (PRq k)).
  - intros k' Ha'. apply (in_place _ _ _ (PRq k') _ HI) in Ha'; [congruence|done].
Qed.

(** A kThread that cannot go on with a switch is off, runs a uThread, or
    sleeps in blockingSwitch with an empty run queue. *)
Lemma switch_stuck s loc k :
  linv_at members s loc → (∀ kt, switch_step members k kt s = None) →
  kph (kts s k) = KOff ∨ kph (kts s k) = KRun ∨ kph (kts s k) = KMain ∧ rq s k = [].
Proof.
  intros HI Hs. specialize (Hs 0). unfold switch_step in Hs.
  destruct (kph (kts s k)) as [ | | | |n|n|n|n|n] eqn:E; try done; auto.
  - unfold blockingSwitch in Hs. destruct (rq s k); [auto|done].
  - exfalso. unfold postSwitchFunc in Hs. case_decide as Hcm; [done|].
    pose proof (li_ut _ _ _ HI (currentUT (kts s k))) as Hu.
    rewrite (placed_cur s loc k _ (li_placed _ _ _ HI)) in Hu.
    2: { unfold cur_at. rewrite E, decide_False by done. by apply list_elem_of_singleton. }
    destruct Hu as (h & Hh & _). unfold assigned_ok in Hs. rewrite Hh in Hs.
    destruct (st _); try done; unfold resume_tcb in Hs; by repeat case_match.
Qed.

(** C24. No uThread is lost: when no kThread is running a uThread or can go on
    with a switch and no resume is under way, the run queues are empty and
    every uThread is the main uThread of a kThread, was never started, or is
    published, that is, waits for a resume that somebody owes it. *)
Theorem life_quiescent s a :
  lreachable members localCluster nkt mains initUT s →
  (∀ k kt, switch_step members k kt s = None) →
  (∀ k, kph (kts s k) ≠ KRun) → resuming s = [] → pushing s = [] →
  a ∈ live s →
  (∀ k, rq s k = [])
  ∧ (a ∈ published s ∨ a ∈ fresh s ∨ ∃ k, a = mainUT (kts s k)).
Proof.
  intros [loc HI]%linv_boot Hs Hrun Hres Hpush Ha.
  assert (Hk : ∀ k, kph (kts s k) = KOff ∨ kph (kts s k) = KMain ∧ rq s k = []).
  { intros k. destruct (switch_stuck _ _ k HI (Hs k)) as [|[|]]; [by left|by destruct (Hrun k)|by right]. }
  assert (Hrq : ∀ k, rq s k = []).
  { intros k. destruct (rq s k) as [|b r] eqn:E; [done|exfalso].
    assert (Hb : loc b = PRq k).
    { apply (in_place _ _ _ (PRq k) _ HI); [done|]. simpl. rewrite E. apply list_elem_of_here. }
    pose proof (li_ut _ _ _ HI b) as Hu. rewrite Hb in Hu. destruct Hu as (_ & _ & _ & Hm).
    apply (li_mem _ _ _ HI) in Hm. destruct (Hk k) as [|[_ ?]]; congruence. }
  split; [done|]. apply (li_live _ _ _ HI) in Ha.
  pose proof (li_placed _ _ _ HI (loc a) Ha) as [_ Hin]. specialize (Hin a).
  destruct Hin as [_ Hin]. specialize (Hin eq_refl).
  destruct (loc a) as [ |k|k|k|k| | | | ]; simpl in Hin; auto; try done.
  - right. right. exists k. destruct (kph (kts s k)); [by apply not_elem_of_nil in Hin|..];
      by apply list_elem_of_singleton in Hin.
  - exfalso. unfold cur_at in Hin. destruct (Hk k) as [E|[E _]]; rewrite E in Hin;
      by apply not_elem_of_nil in Hin.
  - exfalso. unfold next_at in Hin. destruct (Hk k) as [E|[E _]]; rewrite E in Hin;
      by apply not_elem_of_nil in Hin.
  - exfalso. rewrite Hrq in Hin. by apply not_elem_of_nil in Hin.
  - exfalso. rewrite Hres in Hin. by apply not_elem_of_nil in Hin.
  - exfalso. rewrite Hpush in Hin. by apply not_elem_of_nil in Hin.
Qed.

(** A resume of a uThread that postSuspendFunc has published always takes
    effect: the three steps of the resume can be executed, and leave the
    uThread READY at the end of the run queue of its home kThread. *)
Theorem life_resume_schedules s a kt :
  lreachable members localCluster nkt mains initUT s →
  a ∈ published s →
  ∃ h s', home (uts s a) = Some h
    ∧ run (lstep members localCluster) [LTake a; LReady a kt; LPush a] s = Some s'
    ∧ rq s' h = rq s h ++ [a] ∧ st (uts s' a) = READY ∧ a ∉ published s'.
Proof.
  intros [loc HI]%linv_boot Ha.
  assert (Hp : loc a = PPub) by (by eapply (in_place _ _ _ PPub)).
  pose proof (li_ut _ _ _ HI a) as Hu. rewrite Hp in Hu. destruct Hu as (Hst & Hctx & h & Hh & Hm).
  exists h. eexists. split; [done|]. unfold run. simpl.
  rewrite decide_True by done. simpl. rewrite decide_True by (apply elem_of_app; right; by apply list_elem_of_singleton).
  unfold assigned_ok, resume_tcb. rewrite Hh, Hst. simpl.
  rewrite decide_True by (apply elem_of_app; right; by apply list_elem_of_singleton). simpl.
  unfold schedule. simpl. rewrite fn_lookup_insert. simpl. split; [done|]. simpl.
  rewrite !fn_lookup_insert. split_and!; [done|done|]. rewrite elem_del. tauto.
Qed.
End theorems.

(** ** A run: two kThreads, a cluster each *)

Definition demo_members (c : nat) : list nat :=
  match c with 0 => [0] | 1 => [1] | _ => [] end.
Definition demo_init : life := life_init 2 (λ k, Z.of_nat (100 + k)) 7.
Definition demo_lstep : llabel → life → option life := lstep demo_members (λ k, k).

(** main() creates and starts uThread 20 on cluster 1, which runs on kThread 1
    and is suspended; main() migrates to cluster 1, stays in its run queue
    until kThread 1 is free, runs there and ends. *)
Definition life_demo : list llabel :=
  [LCreate 20; LStart 20 1; LReady 20 1; LPush 20]
  ++ repeat (LStep 1 0) 4 ++ [LSuspend 1; LStep 1 0; LStep 1 0]
  ++ [LMigrate 0 1 1] ++ repeat (LStep 0 0) 4
  ++ repeat (LStep 1 0) 3 ++ [LStep 0 0]
  ++ repeat (LStep 1 0) 4 ++ [LTerminate 1] ++ repeat (LStep 1 0) 4.
Definition demo_at (n : nat) : life := default demo_init (run demo_lstep (take n life_demo) demo_init).

Lemma demo_boot : boot demo_members 2 (λ k, Z.of_nat (100 + k)) 7.
Proof.
  split; [lia|intros; lia|intros; lia| |by apply list_elem_of_here].
  intros c k Hk. destruct c as [|[|c]]; simpl in Hk;
    [apply list_elem_of_singleton in Hk; lia..|by apply not_elem_of_nil in Hk].
Qed.

Lemma demo_reachable n :
  match run demo_lstep (take n life_demo) demo_init with Some _ => true | None => false end = true →
  lreachable demo_members (λ k, k) 2 (λ k, Z.of_nat (100 + k)) 7 (demo_at n).
Proof.
  intros H. exists (take n life_demo). unfold demo_at, demo_lstep, demo_init in *.
  by destruct (run _ _ _).
Qed.

Lemma life_one_cpu_witness :
  on_cpu (kts (demo_at 8) 1) = Some 20%Z ∧ 20%Z ∈ live (demo_at 8) ∧ (∀ k', 20%Z ∉ rq (demo_at 8) k').
Proof.
  assert (Hc : on_cpu (kts (demo_at 8) 1) = Some 20%Z) by (vm_compute; reflexivity).
  destruct (life_one_cpu demo_members (λ k, k) 2 (λ k, Z.of_nat (100 + k)) 7 demo_boot
              (demo_at 8) 20 1) as (_ & Hrq & _ & _ & _ & Hl);
    [apply demo_reachable; vm_compute; reflexivity|done|]. done.
Defined.

Lemma life_no_fault_witness : faulty (demo_at 20) = false ∧ dropped (demo_at 20) = [].
Proof.
  apply (life_no_fault demo_members (λ k, k) 2 (λ k, Z.of_nat (100 + k)) 7 demo_boot).
  apply demo_reachable. vm_compute. reflexivity.
Defined.

Lemma life_queued_witness :
  7%Z ∈ rq (demo_at 16) 1 ∧ home (uts (demo_at 16) 7) = Some 1 ∧ cl (uts (demo_at 16) 7) = 1.
Proof.
  assert (Hin : 7%Z ∈ rq (demo_at 16) 1) by (by apply list_elem_of_here).
  destruct (life_queued demo_members (λ k, k) 2 (λ k, Z.of_nat (100 + k)) 7 demo_boot
              (demo_at 16) 7 1) as (_ & _ & Hh & _);
    [apply demo_reachable; vm_compute; reflexivity|done|]. split_and!; [done|done|reflexivity].
Defined.

Lemma life_resume_schedules_witness :
  20%Z ∈ published (demo_at 20)
  ∧ ∃ s', run demo_lstep [LTake 20; LReady 20 0; LPush 20] (demo_at 20) = Some s'
          ∧ rq s' 1 = [7; 20]%Z.
Proof.
  assert (Hin : 20%Z ∈ published (demo_at 20)) by (vm_compute; by apply list_elem_of_here).
  split; [done|].
  destruct (life_resume_schedules demo_members (λ k, k) 2 (λ k, Z.of_nat (100 + k)) 7 demo_boot
              (demo_at 20) 20 0) as (h & s' & Hh & Hr & Hq & _);
    [apply demo_reachable; vm_compute; reflexivity|done|].
  assert (h = 1) as ->.
  { assert (home (uts (demo_at 20) 20) = Some 1) by (vm_compute; reflexivity). congruence. }
  exists s'. split; [done|]. rewrite Hq. vm_compute. reflexivity.
Defined.

Lemma life_quiescent_witness :
  7%Z ∉ live (demo_at 29) ∧ 20%Z ∈ live (demo_at 29)
  ∧ (20%Z ∈ published (demo_at 29) ∨ 20%Z ∈ fresh (demo_at 29)
     ∨ ∃ k, 20%Z = mainUT (kts (demo_at 29) k)).
Proof.
  assert (Hph : ∀ k, kph (kts (demo_at 29) k) = if decide (k < 2) then KMain else KOff).
  { intros [|[|k]]; vm_compute; reflexivity. }
  assert (Hrq : ∀ k, rq (demo_at 29) k = []) by (intros [|[|k]]; vm_compute; reflexivity).
  assert (Hl : 20%Z ∈ live (demo_at 29)).
  { replace (live (demo_at 29)) with [100; 101; 20]%Z by (vm_compute; reflexivity).
    do 2 apply list_elem_of_further. apply list_elem_of_here. }
  split; [|split; [done|]].
  { replace (live (demo_at 29)) with [100; 101; 20]%Z by (vm_compute; reflexivity).
    intros H. repeat (apply elem_of_cons in H as [H|H]; [discriminate H|]).
    by apply not_elem_of_nil in H. }
  apply (life_quiescent demo_members (λ k, k) 2 (λ k, Z.of_nat (100 + k)) 7 demo_boot).
  - apply demo_reachable. vm_compute. reflexivity.
  - intros k kt. unfold switch_step. rewrite Hph. case_decide; [|done].
    unfold blockingSwitch. by rewrite Hrq.
  - intros k. rewrite Hph. by case_decide.
  - vm_compute. reflexivity.
  - vm_compute. reflexivity.
  - exact Hl.
Defined.
