(* ===== verification/SchedulerSpec.v ===== *)
(** * What a scheduler promises to the kThread

    [switchContext] and [defaultRun] of [src/runtime/kThread.cpp] see the
    scheduler as a FIFO list of uThreads: [nonBlockingSwitch] takes the first
    or finds none, [blockingSwitch] waits for one, [schedule] appends.  This file
    states that contract as a transition system and proves that Scheduler 2 with
    its lock-free queue and its semaphores implements it. *)

From stdpp Require Import functions.
From S2P Require Import Prelude Links MPSCQueue Scheduler02 RunQueue.

(** ** The contract *)

Inductive aphase : Type :=
  | ARun (ut : addr)                       (* ut runs *)
  | APick (old : addr) (yielded : bool)    (* old is being left, nothing is chosen *)
  | AGo (requeue : option addr) (ut : addr)  (* ut was chosen; the one left is still to be queued *)
  | AMain.                                 (* nothing to run *)

Record aspec := mkSpec { aqueue : list addr; aph : aphase }.

Inductive alabel : Type :=
  | TPush (l : list addr)      (* somebody schedules *)
  | TLeave (yielded : bool)    (* the running uThread yields, or leaves *)
  | TDecide                    (* nonBlockingSwitch *)
  | TWake                      (* blockingSwitch *)
  | TRequeue                   (* postSwitchFunc resumes the one that yielded *)
  | TRun.                      (* the one chosen runs *)

Definition astep (l : alabel) (s : aspec) : option aspec :=
  match l, aph s, aqueue s with
  | TPush k, p, q => Some (mkSpec (q ++ k) p)
  | TLeave y, ARun ut, q => Some (mkSpec q (APick ut y))
  | TDecide, APick old y, x :: r => Some (mkSpec r (AGo (if y then Some old else None) x))
  | TDecide, APick old y, [] => Some (mkSpec [] (if y then AGo None old else AMain))
  | TWake, AMain, x :: r => Some (mkSpec r (AGo None x))
  | TRequeue, AGo (Some old) ut, q => Some (mkSpec (q ++ [old]) (AGo None ut))
  | TRun, AGo None ut, q => Some (mkSpec q (ARun ut))
  | _, _, _ => None
  end.

(** ** Scheduler 2 implements it *)

Section refinement.
Context (SEM_VALUE_MAX : nat) (stub : addr) (m : mem) (Hm : valid_init stub m).
Implicit Types (s : sched) (q : mpsc).

(** The kThread's phase as the contract sees it: a pop has chosen once its
    event has happened. *)
Definition phase_of (k : kphase) (q : mpsc) : aphase :=
  match k with
  | Scheduler02.KRun ut => ARun ut
  | KNonBlocking old y =>
      match Intrusive.popping_event q with
      | None => APick old y
      | Some (EPop x) => AGo (if y then Some old else None) x
      | Some _ => if y then AGo None old else AMain
      end
  | Scheduler02.KPost old ut => AGo (Some old) ut
  | KResume ut =>
      match prods q !! self with
      | Some (PInit [old]) | Some (PExch [old]) => AGo (Some old) ut
      | _ => AGo None ut
      end
  | KBlocking | KWait => AMain
  | KPop => match Intrusive.popping_event q with Some (EPop x) => AGo None x | _ => AMain end
  | KIo ut => AGo None ut
  end.
Definition spec_of (s : sched) : aspec :=
  mkSpec (Intrusive.queued (runQueue s)) (phase_of (kt s) (runQueue s)).

(** The step of the queue that a step of the scheduler makes. *)
Definition queue_label (a : slabel) (s : sched) : option qlabel :=
  match a with
  | SPush t seg => Some (QPush t seg)
  | SProd t => Some (QProd t)
  | SPushRet t => Some (QPushRet t)
  | SSwitch _ => Some QPop
  | SKt =>
      match kt s with
      | KNonBlocking _ _ | KPop => Some (match cons (runQueue s) with CRet _ => QPopRet | _ => QCons end)
      | Scheduler02.KPost old _ => Some (QPush self [old])
      | KResume _ => Some (match prods (runQueue s) !! self with Some (PDone _) => QPushRet self | _ => QProd self end)
      | KWait => Some QPop
      | _ => None
      end
  | SIoPost | SIoWait => None
  end.

Lemma with_queue_some s o s' :
  with_queue s o = Some s' → o = Some (runQueue s') ∧ kt s' = kt s ∧ sem s' = sem s.
Proof. unfold with_queue. destruct o as [q|]; [|done]. intros [= <-]. done. Qed.

Lemma queue_step a s s' :
  sstep SEM_VALUE_MAX stub a s = Some s' →
  match queue_label a s with
  | Some l => qstep stub l (runQueue s) = Some (runQueue s')
  | None => runQueue s' = runQueue s
  end.
Proof.
  assert (Hpr : ∀ t s1, push_ret SEM_VALUE_MAX stub t s = Some s1 →
                        qstep stub (QPushRet t) (runQueue s) = Some (runQueue s1)).
  { intros t s1 Hs. by destruct (push_ret_covered _ _ _ _ _ Hs) as (_ & _ & _ & _ & ?). }
  destruct a as [t seg|t|t|y| | |]; cbn [sstep queue_label]; intros Hs.
  - case_decide; [done|]. by apply with_queue_some in Hs as [? _].
  - case_decide; [done|]. by apply with_queue_some in Hs as [? _].
  - case_decide; [done|]. auto.
  - destruct (kt s); try done. by apply with_queue_some in Hs as [? _].
  - unfold kt_step in Hs. destruct (kt s); try done.
    + destruct (cons (runQueue s)) eqn:Hc; try (by apply with_queue_some in Hs as [? _]).
      apply bind_Some in Hs as (q & Hq & Hs). by injection Hs as <-.
    + by apply with_queue_some in Hs as [? _].
    + destruct (prods (runQueue s) !! self) as [[| | |b]|]; try (by apply with_queue_some in Hs as [? _]).
      apply fmap_Some in Hs as (s1 & Hp & ->). exact (Hpr _ _ Hp).
    + apply bind_Some in Hs as (n & _ & Hs). by injection Hs as <-.
    + apply bind_Some in Hs as (n & _ & Hs). apply bind_Some in Hs as (q & Hq & Hs). by injection Hs as <-.
    + destruct (cons (runQueue s)) eqn:Hc; try (by apply with_queue_some in Hs as [? _]).
      apply bind_Some in Hs as (q & Hq & Hs). by injection Hs as <-.
    + destruct (Sem.trywait _) as [[] n]; by injection Hs as <-.
  - apply bind_Some in Hs as (n & _ & Hs). by injection Hs as <-.
  - apply bind_Some in Hs as (n & _ & Hs). by injection Hs as <-.
Qed.

Abbreviation sreach k s := (reachable (sstep SEM_VALUE_MAX stub) (sched_init stub m k) s).
Abbreviation qreach q := (reachable (qstep stub) (mpsc_init stub m) q).

Lemma sched_queue_reachable k s : sreach k s → qreach (runQueue s).
Proof.
  apply (invariant_reachable _ (λ s, qreach (runQueue s))).
  - apply reachable_refl.
  - intros a s1 s2 Hq Hs. pose proof (queue_step _ _ _ Hs) as H. destruct (queue_label a s1) as [l|].
    + by eapply reachable_step.
    + by rewrite H.
Qed.

(** The kThread queues one uThread at a time. *)
Definition self_single (q : mpsc) : Prop :=
  match prods q !! self with
  | Some (PInit seg) | Some (PExch seg) => ∃ x, seg = [x]
  | _ => True
  end.
Lemma prods_self t q q' :
  t ≠ self → (qstep stub (QProd t) q = Some q' ∨ qstep stub (QPushRet t) q = Some q' ∨
              ∃ seg, qstep stub (QPush t seg) q = Some q') → prods q' !! self = prods q !! self.
Proof.
  intros Ht [Hs|[Hs|[seg Hs]]]; cbn [qstep] in Hs.
  - by rewrite (prods_prod_step _ _ _ Hs).
  - destruct (prods q !! t) as [[]|]; simplify_eq. simpl. by rewrite lookup_delete_ne.
  - case_decide; simplify_eq. simpl. by rewrite lookup_insert_ne.
Qed.
Lemma prods_consumer l q q' :
  l = QPop ∨ l = QPopRet ∨ l = QCons → qstep stub l q = Some q' → prods q' = prods q.
Proof.
  intros Hl Hs. destruct Hl as [->|[->| ->]]; cbn [qstep] in Hs; [destruct (cons q); by simplify_eq..|].
  by apply (prods_cons_step stub).
Qed.
Lemma prod_self_cases q q' :
  prod_step self q = Some q' →
  match prods q !! self with
  | Some (PInit seg) => broken q' = false → prods q' !! self = Some (PExch seg)
  | Some (PExch seg) => ∃ x y b, prods q' !! self = Some (PLink x y b)
  | Some (PLink _ _ b) => broken q' = false → prods q' !! self = Some (PDone b)
  | _ => False
  end.
Proof.
  unfold prod_step. intros Hs. destruct (prods q !! self) as [[seg|seg|x y b|b]|]; simplify_option_eq; try done.
  - unfold access. destruct (store_next _ _ _) as [[[] m']|]; [|done]. intros _. simpl. by rewrite lookup_insert_eq.
  - simpl. rewrite lookup_insert_eq. eauto.
  - unfold access. destruct (store_next _ _ _) as [[[] m']|]; [|done]. intros _. simpl. by rewrite lookup_insert_eq.
Qed.

Lemma qreach_ok q : qreach q → broken q = false.
Proof.
  intros Hr. destruct Hm as (H0 & Ha & Hn). destruct (inv_reachable stub m q H0 Ha Hn Hr) as [c I].
  apply (inv_ok _ _ _ I).
Qed.

Lemma self_single_step q q' :
  qreach q' → self_single q →
  (prods q' !! self = prods q !! self ∨ (∃ x, qstep stub (QPush self [x]) q = Some q') ∨
   qstep stub (QProd self) q = Some q' ∨ qstep stub (QPushRet self) q = Some q') → self_single q'.
Proof.
  intros Hr Hq. apply qreach_ok in Hr. unfold self_single in *.
  intros [->|[[x Hs]|[Hs|Hs]]]; [done|cbn [qstep] in Hs..].
  - case_decide; simplify_eq. simpl. rewrite lookup_insert_eq. eauto.
  - apply prod_self_cases in Hs. destruct (prods q !! self) as [[seg|seg|x y b|b]|]; try done.
    + by rewrite (Hs Hr).
    + by destruct Hs as (? & ? & ? & ->).
    + by rewrite (Hs Hr).
  - destruct (prods q !! self) as [[]|]; simplify_eq. simpl. by rewrite lookup_delete_eq.
Qed.

Lemma self_single_reachable k s : sreach k s → self_single (runQueue s).
Proof.
  intros Hr. enough (sreach k s ∧ self_single (runQueue s)) by tauto. revert s Hr.
  apply (invariant_reachable _ (λ s, sreach k s ∧ self_single (runQueue s))).
  - split; [apply reachable_refl|]. unfold self_single. simpl. by rewrite lookup_empty.
  - intros a s1 s2 [Hr1 Hq] Hs. assert (Hr2 : sreach k s2) by (by eapply reachable_step). split; [done|].
    apply sched_queue_reachable in Hr2 as Hqr. apply (self_single_step (runQueue s1)); [done|done|].
    pose proof (queue_step _ _ _ Hs) as H.
    destruct a as [t seg|t|t|y| | |]; cbn [queue_label] in H; cbn [sstep] in Hs; try (case_decide; [done|]).
    + left. apply (prods_self t); eauto.
    + left. apply (prods_self t); eauto.
    + left. apply (prods_self t); eauto.
    + left. by rewrite (prods_consumer _ _ _ (or_introl eq_refl) H).
    + destruct (kt s1); try (by left; rewrite H); try (left; f_equal; eapply prods_consumer; [|done]; case_match; by auto).
      * right. left. eauto.
      * right. right. destruct (prods (runQueue s1) !! self) as [[]|]; auto.
      * left. by rewrite (prods_consumer _ _ _ (or_introl eq_refl) H).
    + left. by rewrite H.
    + left. by rewrite H.
Qed.

(** ** The simulation *)

Definition simulated (x y : aspec) : Prop := y = x ∨ ∃ l, astep l x = Some y.

(** A pop that has not had its event, and the event. *)
Lemma event_unanswered q e : Intrusive.label_event stub QCons q = Some e → Intrusive.popping_event q = None ∧ is_pop e = true.
Proof.
  unfold Intrusive.popping_event. simpl. destruct (cons q); try done; repeat case_match; intros; by simplify_eq.
Qed.
Lemma cons_sim q q' :
  qreach q → qstep stub QCons q = Some q' →
  (Intrusive.queued q' = Intrusive.queued q ∧ Intrusive.popping_event q' = Intrusive.popping_event q) ∨
  (Intrusive.popping_event q = None ∧
   ((∃ a, Intrusive.popping_event q' = Some (EPop a) ∧ Intrusive.queued q = a :: Intrusive.queued q') ∨
    (Intrusive.popping_event q' = Some ENull ∧ Intrusive.queued q = [] ∧ Intrusive.queued q' = []))).
Proof.
  intros Hr Hs. pose proof (Intrusive.qstep_popping stub m Hm _ _ _ Hr Hs) as Hp.
  pose proof (Intrusive.mpsc_label_sim stub m Hm _ _ _ Hr Hs) as Hl. cbv beta iota in Hp.
  destruct (Intrusive.label_event stub QCons q) as [e|] eqn:He; [right|by left].
  destruct (event_unanswered _ _ He) as [Hn Hpop]. rewrite Hpop in Hp. split; [done|].
  destruct e as [k|a|]; [done| |].
  - left. exists a. split; [done|]. unfold fifo_step in Hl. destruct (Intrusive.queued q) as [|b r]; [done|].
    case_decide; simplify_eq. done.
  - right. unfold fifo_step in Hl. by destruct (Intrusive.queued q); simplify_eq.
Qed.

(** The steps of the others. *)
Lemma env_sim k t l s s' :
  sreach k s → t ≠ self → qstep stub l (runQueue s) = Some (runQueue s') → kt s' = kt s →
  l = QProd t ∨ l = QPushRet t ∨ (∃ seg, l = QPush t seg) → simulated (spec_of s) (spec_of s').
Proof.
  intros Hr Ht Hs Hk Hl. apply sched_queue_reachable in Hr as Hq.
  pose proof (Intrusive.qstep_popping stub m Hm _ _ _ Hq Hs) as Hp.
  pose proof (Intrusive.mpsc_label_sim stub m Hm _ _ _ Hq Hs) as Hsim.
  assert (Hself : prods (runQueue s') !! self = prods (runQueue s) !! self).
  { apply (prods_self t); [done|]. destruct Hl as [->|[->|[seg ->]]]; eauto. }
  assert (Hev : (∃ seg, Intrusive.label_event stub l (runQueue s) = Some (EPush seg)) ∨
                Intrusive.label_event stub l (runQueue s) = None).
  { destruct Hl as [->|[->|[seg ->]]]; simpl; [|by right..]. repeat case_match; eauto. }
  assert (Hph : phase_of (kt s') (runQueue s') = phase_of (kt s) (runQueue s)).
  { rewrite Hk. unfold phase_of. rewrite Hself.
    assert (Intrusive.popping_event (runQueue s') = Intrusive.popping_event (runQueue s)) as ->; [|done].
    rewrite Hp. destruct Hl as [->|[->|[seg ->]]]; destruct Hev as [[sg ->]| ->]; done. }
  unfold spec_of. rewrite Hph. destruct Hev as [[seg E]|E]; rewrite E in Hsim.
  - right. exists (TPush seg). simpl in Hsim |- *. injection Hsim as <-. done.
  - left. by rewrite Hsim.
Qed.

Lemma returned_dec c : (∃ v, c = CRet v) ∨ ∀ v, c ≠ CRet v.
Proof. destruct c; eauto. Qed.
Lemma done_dec (o : option ppc) : (∃ b, o = Some (PDone b)) ∨ ∀ b, o ≠ Some (PDone b).
Proof. destruct o as [[]|]; eauto. Qed.

(** A step of the consumer or of the kThread's own push that is no event leaves
    the queue as it is. *)
Lemma quiet_step q l q' :
  qreach q → qstep stub l q = Some q' → Intrusive.label_event stub l q = None → Intrusive.queued q' = Intrusive.queued q.
Proof.
  intros Hr Hs He. pose proof (Intrusive.mpsc_label_sim stub m Hm _ _ _ Hr Hs) as Hsim. by rewrite He in Hsim.
Qed.

(** [nonBlockingSwitch]: in the pop, and its return. *)
Lemma nonBlocking_sim s s' old y :
  qreach (runQueue s) → kt s = KNonBlocking old y → kt_step SEM_VALUE_MAX stub s = Some s' →
  simulated (spec_of s) (spec_of s').
Proof.
  intros Hr Hk Hs. unfold kt_step in Hs. rewrite Hk in Hs. unfold simulated, spec_of. rewrite Hk.
  destruct (returned_dec (cons (runQueue s))) as [[v Hc]|Hc].
  - rewrite Hc in Hs. apply bind_Some in Hs as (q & Hq & [= <-]). cbn [runQueue kt].
    rewrite (quiet_step _ QPopRet _ Hr Hq) by done. cbn [phase_of].
    unfold Intrusive.popping_event. rewrite Hc. unfold nonBlockingSwitch_ret.
    destruct (Z.eqb_spec v nullptr) as [->|Hv]; [rewrite decide_True by done|rewrite decide_False by done];
      destruct y; cbn [phase_of].
    + right. by exists TRun.
    + by left.
    + by left.
    + right. by exists TRun.
  - assert (Hs' : with_queue s (qstep stub QCons (runQueue s)) = Some s').
    { destruct (cons (runQueue s)); try done. by destruct (Hc v). }
    apply with_queue_some in Hs' as (Hq & Hk' & _). rewrite Hk', Hk. cbn [phase_of].
    destruct (cons_sim _ _ Hr Hq) as [[-> ->]|[-> [(a & -> & ->)|(-> & -> & ->)]]].
    + by left.
    + right. exists TDecide. done.
    + right. exists TDecide. done.
Qed.

(** [blockingSwitch]: the pop after a wait, and its return. *)
Lemma blocking_sim s s' :
  qreach (runQueue s) → kt s = KPop → kt_step SEM_VALUE_MAX stub s = Some s' →
  simulated (spec_of s) (spec_of s').
Proof.
  intros Hr Hk Hs. unfold kt_step in Hs. rewrite Hk in Hs. unfold simulated, spec_of. rewrite Hk.
  destruct (returned_dec (cons (runQueue s))) as [[v Hc]|Hc].
  - left. rewrite Hc in Hs. apply bind_Some in Hs as (q & Hq & [= <-]). cbn [runQueue kt].
    rewrite (quiet_step _ QPopRet _ Hr Hq) by done. cbn [phase_of].
    unfold Intrusive.popping_event. rewrite Hc.
    by destruct (Z.eqb_spec v nullptr) as [->|Hv]; [rewrite decide_True by done|rewrite decide_False by done].
  - assert (Hs' : with_queue s (qstep stub QCons (runQueue s)) = Some s').
    { destruct (cons (runQueue s)); try done. by destruct (Hc v). }
    apply with_queue_some in Hs' as (Hq & Hk' & _). rewrite Hk', Hk. cbn [phase_of].
    destruct (cons_sim _ _ Hr Hq) as [[-> ->]|[-> [(a & -> & ->)|(-> & -> & ->)]]].
    + by left.
    + right. exists TWake. done.
    + by left.
Qed.

(** [postSwitchFunc] queues the uThread that yielded. *)
Lemma resume_sim s s' ut :
  qreach (runQueue s) → qreach (runQueue s') → self_single (runQueue s) →
  kt s = KResume ut → kt_step SEM_VALUE_MAX stub s = Some s' →
  simulated (spec_of s) (spec_of s').
Proof.
  intros Hr Hr' H1 Hk Hs. unfold kt_step in Hs. rewrite Hk in Hs. unfold simulated, spec_of. rewrite Hk.
  destruct (done_dec (prods (runQueue s) !! self)) as [[b Hb]|Hb].
  - rewrite Hb in Hs. apply fmap_Some in Hs as (s1 & Hp & ->). cbn [runQueue kt set_kt phase_of].
    destruct (push_ret_covered _ _ _ _ _ Hp) as (_ & _ & _ & _ & Hq).
    rewrite Hb, (quiet_step _ (QPushRet self) _ Hr Hq) by done. right. by exists TRun.
  - assert (Hs' : with_queue s (qstep stub (QProd self) (runQueue s)) = Some s').
    { destruct (prods (runQueue s) !! self) as [[| | |b]|]; try done. by destruct (Hb b). }
    apply with_queue_some in Hs' as (Hq & Hk' & _). rewrite Hk', Hk. cbn [phase_of].
    pose proof (Intrusive.mpsc_label_sim stub m Hm _ _ _ Hr Hq) as Hsim.
    apply prod_self_cases in Hq. apply qreach_ok in Hr'. unfold self_single in H1. simpl in Hsim.
    destruct (prods (runQueue s) !! self) as [[seg|seg|x y b|b]|]; try done.
    + left. rewrite (Hq Hr'), Hsim. done.
    + destruct Hq as (x & y & b & ->), H1 as [old ->]. injection Hsim as <-. right. by exists TRequeue.
    + left. by rewrite (Hq Hr'), Hsim.
Qed.

Lemma spec_sim k a s s' :
  sreach k s → sstep SEM_VALUE_MAX stub a s = Some s' → simulated (spec_of s) (spec_of s').
Proof.
  intros Hr Hs. assert (Hr' : sreach k s') by (by eapply reachable_step).
  pose proof (queue_step _ _ _ Hs) as Hq. apply sched_queue_reachable in Hr as Hqr.
  apply sched_queue_reachable in Hr' as Hqr'. pose proof (self_single_reachable _ _ Hr) as H1.
  destruct a as [t seg|t|t|y| | |]; cbn [queue_label] in Hq; cbn [sstep] in Hs; try (case_decide; [done|]).
  - apply with_queue_some in Hs as (_ & Hk & _). eapply env_sim; eauto.
  - apply with_queue_some in Hs as (_ & Hk & _). eapply env_sim; eauto.
  - destruct (push_ret_prods _ _ _ _ _ Hs) as [_ Hk]. eapply env_sim; eauto.
  - destruct (kt s) as [ut| | | | | | |] eqn:Hk; try done. apply with_queue_some in Hs as (_ & Hk' & _).
    right. exists (TLeave y). unfold spec_of. rewrite Hk', Hk, (quiet_step _ QPop _ Hqr Hq) by done.
    cbn [set_kt kt phase_of]. by rewrite (Intrusive.qstep_popping stub m Hm _ _ _ Hqr Hq).
  - destruct (kt s) as [ut|old y|old ut|ut| | | |ut] eqn:Hk; [by unfold kt_step in Hs; rewrite Hk in Hs|..].
    + by eapply nonBlocking_sim.
    + left. unfold kt_step in Hs. rewrite Hk in Hs. apply with_queue_some in Hs as (_ & Hk' & _).
      unfold spec_of. rewrite Hk', Hk, (quiet_step _ (QPush self [old]) _ Hqr Hq) by done. cbn [set_kt kt phase_of].
      cbn [qstep] in Hq. case_decide; [|done]. injection Hq as <-. simpl. by rewrite lookup_insert_eq.
    + by eapply resume_sim.
    + left. unfold kt_step in Hs. rewrite Hk in Hs. apply bind_Some in Hs as (n & _ & [= <-]).
      unfold spec_of. by rewrite Hk.
    + left. unfold kt_step in Hs. rewrite Hk in Hs. apply bind_Some in Hs as (n & _ & Hs).
      apply bind_Some in Hs as (q & _ & [= <-]). unfold spec_of. cbn [runQueue kt] in *. rewrite Hk.
      rewrite (quiet_step _ QPop _ Hqr Hq) by done. cbn [phase_of].
      by rewrite (Intrusive.qstep_popping stub m Hm _ _ _ Hqr Hq).
    + by eapply blocking_sim.
    + unfold kt_step in Hs. rewrite Hk in Hs. destruct (Sem.trywait (iosem s)) as [[] n]; injection Hs as <-;
        unfold simulated, spec_of; rewrite Hk; cbn [runQueue kt phase_of]; [right; by exists TRun|by left].
  - left. apply bind_Some in Hs as (n & _ & [= <-]). done.
  - left. apply bind_Some in Hs as (n & _ & [= <-]). done.
Qed.

Lemma spec_run k s : sreach k s → ∃ ls, run astep ls (spec_of (sched_init stub m k)) = Some (spec_of s).
Proof.
  intros Hr. enough (sreach k s ∧ ∃ ls, run astep ls (spec_of (sched_init stub m k)) = Some (spec_of s)) by tauto.
  revert s Hr. apply (invariant_reachable _ (λ s, sreach k s ∧ ∃ ls, run astep ls (spec_of (sched_init stub m k)) = Some (spec_of s))).
  - split; [apply reachable_refl|]. by exists [].
  - intros a s1 s2 [Hr (ls & Hls)] Hs. split; [by eapply reachable_step|].
    destruct (spec_sim k a s1 s2 Hr Hs) as [->|[l Hl]]; [eauto|].
    exists (ls ++ [l]). rewrite run_app, Hls. simpl. by rewrite Hl.
Qed.
End refinement.

(** C7. Scheduler 2 keeps the contract: whatever the producers, the poller and the
    other kThreads do, each step of the kThread or of a producer on the
    lock-free queue and the semaphores is a step of the contract or leaves it
    where it is, so that every run is a run of the contract.  In particular
    nonBlockingSwitch decides on the queue's content at one instant,
    blockingSwitch hands out only uThreads that are first in the queue, and a
    uThread that yielded is queued once, before the next one runs. *)
Theorem sched_refines_spec SEM_VALUE_MAX stub m k s :
  valid_init stub m → reachable (sstep SEM_VALUE_MAX stub) (sched_init stub m k) s →
  (∃ ls, run astep ls (mkSpec [] (phase_of k (mpsc_init stub m))) = Some (spec_of s)) ∧
  ∀ a s', sstep SEM_VALUE_MAX stub a s = Some s' →
    spec_of s' = spec_of s ∨ ∃ l, astep l (spec_of s) = Some (spec_of s').
Proof.
  intros Hm Hr. split.
  - apply (spec_run SEM_VALUE_MAX stub m Hm k s Hr).
  - intros a s' Hs. by apply (spec_sim SEM_VALUE_MAX stub m Hm k a).
Qed.

(** ** Runs *)

Lemma sched_refines_spec_witness :
  let s := sched_demo (Scheduler02.KRun 48) [SPush 1 [32%Z]; SProd 1; SProd 1; SSwitch true; SKt; SKt] in
  spec_of s = mkSpec [32%Z] (APick 48 true) ∧
  ∃ ls, run astep ls (mkSpec [] (ARun 48)) = Some (spec_of s).
Proof.
  intros s. split; [vm_compute; reflexivity|].
  apply (sched_refines_spec 10 16 sched_demo_mem (Scheduler02.KRun 48) s).
  - exact sched_demo_init.
  - exists [SPush 1 [32%Z]; SProd 1; SProd 1; SSwitch true; SKt; SKt]. by vm_compute.
Defined.
