(* ===== verification/Blocking.v ===== *)
(** * Suspension and resumption across components

    The synchronisation primitives are modelled with their own notion of a
    uThread that is switched out, and [KThread] models the switches with an
    open list of uThreads that may be resumed.  Here the two are put together.
    [Blocking] is the interface: what a component does with the uThreads that
    use it, access by access, in the terms of [uThread::suspend], of the
    [postSuspendFunc] it passes, and of [uThread::resume].  The composition lets
    a component step only when the life cycle can make the same step: code of a
    uThread needs a kThread that runs it, [postSuspendFunc] needs a kThread in
    [postSwitchFunc], and the access with which [postSuspendFunc] makes the
    uThread visible, as a resume, is a step of both. *)

From stdpp Require Import functions.
From S2P Require Import Prelude UThread KThread.

(** ** What a step of the life cycle does to one uThread *)

(** The uThread whose code a kThread runs. *)
Definition running (s : life) (a : addr) : Prop :=
  ∃ k, kph (kts s k) = KRun ∧ currentUT (kts s k) = a.

(** The uThread that a kThread is leaving for a suspension. *)
Definition awaiting (x : kthread) (us : addr → tcb) : option addr :=
  match kph x with
  | KPick | KSwitch _ | KPost _ | KSusp _ =>
      if decide (currentUT x ≠ mainUT x ∧ st (us (currentUT x)) = WAITING) then Some (currentUT x) else None
  | _ => None
  end.
Definition suspended (s : life) (a : addr) : Prop := ∃ k, awaiting (kts s k) (uts s) = Some a.

(** The uThread was resumed and is on its way to a kThread, or runs. *)
Definition coming (s : life) (a : addr) : Prop :=
  a ∈ live s ∧ a ∉ fresh s ∧ a ∉ published s ∧ home (uts s a) ≠ None ∧
  ∀ k, kph (kts s k) ≠ KOff → a ≠ mainUT (kts s k) ∧ (a ∈ cur_at (kts s k) → kph (kts s k) = KRun).

Definition leaves (l : llabel) : option nat :=
  match l with LYield k | LMigrate k _ _ | LSuspend k | LTerminate k => Some k | _ => None end.
Definition suspends (l : llabel) (s : life) : option addr :=
  match l with LSuspend k => Some (currentUT (kts s k)) | _ => None end.
Definition takes (l : llabel) : option addr := match l with LTake a => Some a | _ => None end.
Definition publishes (l : llabel) (s : life) : option addr :=
  match l with
  | LStep k _ => match kph (kts s k) with KSusp _ => Some (currentUT (kts s k)) | _ => None end
  | _ => None
  end.

Section facts.
Context (members : nat → list nat) (localCluster : nat → nat).
Implicit Types (s : life) (a : addr).

Lemma schedule_frame b s : kts (schedule b s) = kts s ∧ uts (schedule b s) = uts s ∧
  published (schedule b s) = published s ∧ live (schedule b s) = live s ∧ fresh (schedule b s) = fresh s.
Proof. unfold schedule. by destruct (home _). Qed.

Lemma leave_eq k f s s' : leave k f s = Some s' →
  kph (kts s k) = KRun ∧
  s' = set_ph k KPick (set_ut (currentUT (kts s k)) (f (uts s (currentUT (kts s k)))) s).
Proof. unfold leave. destruct (kph (kts s k)) eqn:E; try done. by intros [= <-]. Qed.

Lemma lstep_published l s s' a :
  lstep members localCluster l s = Some s' →
  a ∈ published s' ↔ (a ∈ published s ∧ takes l ≠ Some a) ∨ publishes l s = Some a.
Proof.
  destruct l as [b|b c|k|k c kt|k|k|b|b kt|b|k kt]; simpl; intros Hs.
  - unfold create_ut in Hs. case_decide; simplify_eq/=. naive_solver.
  - unfold start in Hs. case_decide; simplify_eq/=. naive_solver.
  - apply leave_eq in Hs as [_ ->]. simpl. naive_solver.
  - unfold migrate in Hs. repeat case_decide; [|apply leave_eq in Hs as [_ ->]; simpl; naive_solver|done].
    destruct (kph _); simplify_eq. naive_solver.
  - apply leave_eq in Hs as [_ ->]. simpl. naive_solver.
  - apply leave_eq in Hs as [_ ->]. simpl. naive_solver.
  - case_decide; simplify_eq/=. rewrite elem_del. naive_solver.
  - repeat case_match; simplify_eq/=; naive_solver.
  - case_decide; simplify_eq/=. destruct (schedule_frame b (set_pushing (del b (pushing s)) s)) as (_&_&->&_).
    simpl. naive_solver.
  - unfold switch_step in Hs. destruct (kph (kts s k)) as [ | | | |n|n|n|n|n] eqn:E; simplify_eq/=.
    + unfold blockingSwitch in Hs. destruct (rq s k); simplify_eq/=. naive_solver.
    + unfold nonBlockingSwitch. repeat case_match; simpl; naive_solver.
    + unfold stackSwitch. destruct (ctx _); simpl; naive_solver.
    + unfold postSwitchFunc in Hs. repeat case_match; simplify_eq/=; naive_solver.
    + destruct (schedule_frame (currentUT (kts s k)) s) as (_&_&->&_). naive_solver.
    + rewrite elem_of_app, list_elem_of_singleton. naive_solver.
    + naive_solver.
Qed.

Lemma awaiting_cur x us a : awaiting x us = Some a → a ∈ cur_at x ∧ a ≠ mainUT x ∧ st (us a) = WAITING.
Proof.
  unfold awaiting, cur_at. intros Hx.
  destruct (kph x); try done; (case_decide as Hd; [|done]; destruct Hd; simplify_eq;
    rewrite decide_False by done; split_and!; try done; by apply list_elem_of_singleton).
Qed.
Lemma suspended_place s loc a : linv_at members s loc → suspended s a → ∃ k, loc a = PCur k.
Proof. intros HI [k (Hk & _)%awaiting_cur]. exists k. by eapply placed_cur; [apply HI|]. Qed.

(** A kThread that does not move, and the uThreads that change state elsewhere. *)
Lemma awaiting_frame s s' loc k :
  linv_at members s loc → kts s' k = kts s k →
  (∀ b, loc b = PCur k → st (uts s' b) = st (uts s b)) →
  awaiting (kts s' k) (uts s') = awaiting (kts s k) (uts s).
Proof.
  intros HI Hk Hst. rewrite Hk. unfold awaiting.
  assert (Hc : currentUT (kts s k) ∈ cur_at (kts s k) →
            st (uts s' (currentUT (kts s k))) = st (uts s (currentUT (kts s k)))).
  { intros Hin. apply Hst. by eapply placed_cur; [apply HI|]. }
  unfold cur_at in Hc.
  destruct (kph (kts s k)); try done; (destruct (decide (currentUT (kts s k) = mainUT (kts s k)));
    [by rewrite !decide_False by tauto|rewrite Hc by (by apply list_elem_of_singleton); done]).
Qed.

Lemma suspended_same s s' loc a :
  linv_at members s loc → (∀ k, kts s' k = kts s k) →
  (∀ k b, loc b = PCur k → st (uts s' b) = st (uts s b)) → suspended s' a ↔ suspended s a.
Proof.
  intros HI Hk Hst. unfold suspended.
  assert (E : ∀ k, awaiting (kts s' k) (uts s') = awaiting (kts s k) (uts s))
    by (intros k; eapply awaiting_frame; eauto).
  by setoid_rewrite E.
Qed.

(** One kThread moves. *)
Lemma suspended_move s s' loc k a :
  linv_at members s loc → (∀ j, j ≠ k → kts s' j = kts s j) →
  (∀ j b, j ≠ k → loc b = PCur j → st (uts s' b) = st (uts s b)) →
  suspended s' a ↔
    awaiting (kts s' k) (uts s') = Some a ∨ (suspended s a ∧ awaiting (kts s k) (uts s) ≠ Some a).
Proof.
  intros HI Hk Hst.
  assert (E : ∀ j, j ≠ k → awaiting (kts s' j) (uts s') = awaiting (kts s j) (uts s))
    by (intros j Hj; eapply awaiting_frame; eauto).
  split.
  - intros [j Hj]. destruct (decide (j = k)) as [->|Hne]; [by left|right]. rewrite E in Hj by done.
    split; [by exists j|]. intros Hk'. apply Hne.
    apply awaiting_cur in Hj as [Hj _], Hk' as [Hk' _].
    apply (placed_cur s loc) in Hj, Hk'; [|apply HI..]. congruence.
  - intros [?|[[j Hj] Hne]]; [by exists k|]. exists j. rewrite E; [done|]. by intros ->.
Qed.
Lemma suspended_kept s s' loc k a :
  linv_at members s loc → (∀ j, j ≠ k → kts s' j = kts s j) →
  (∀ j b, j ≠ k → loc b = PCur j → st (uts s' b) = st (uts s b)) →
  awaiting (kts s' k) (uts s') = awaiting (kts s k) (uts s) → suspended s' a ↔ suspended s a.
Proof.
  intros HI Hk Hst E. rewrite (suspended_move s s' loc k a) by done. rewrite E. split.
  - intros [?|[? _]]; [by exists k|done].
  - intros Hs. destruct (decide (awaiting (kts s k) (uts s) = Some a)); auto.
Qed.

(** Leaving a kThread: what was its current uThread is in no other place. *)
Lemma leave_suspended k f s s' loc a :
  linv_at members s loc → leave k f s = Some s' →
  suspended s' a ↔ suspended s a ∨ (st (f (uts s (currentUT (kts s k)))) = WAITING ∧ a = currentUT (kts s k)).
Proof.
  intros HI [Hk ->]%leave_eq. pose proof (li_kt _ _ _ HI k) as Hc. unfold kt_cond in Hc. rewrite Hk in Hc.
  destruct Hc as [Hne _].
  assert (Hcur : loc (currentUT (kts s k)) = PCur k).
  { eapply placed_cur; [apply HI|]. unfold cur_at. rewrite Hk, decide_False by done. by apply list_elem_of_singleton. }
  rewrite (suspended_move s _ loc k a); [|done|intros j Hj; simpl; by rewrite fn_lookup_insert_ne|].
  2: { intros j b Hj Hb. simpl. rewrite fn_lookup_insert_ne; [done|]. congruence. }
  assert (awaiting (kts s k) (uts s) = None) as -> by (unfold awaiting; by rewrite Hk).
  simpl. rewrite fn_lookup_insert. unfold awaiting. simpl. rewrite fn_lookup_insert.
  case_decide as Hd; [destruct Hd|]; naive_solver.
Qed.

Lemma postSwitch_awaiting k n kt s s' loc :
  linv_at members s loc → kph (kts s k) = KPost n → postSwitchFunc members k n kt s = Some s' →
  (∀ j, j ≠ k → kts s' j = kts s j) ∧
  (∀ j b, j ≠ k → loc b = PCur j → st (uts s' b) = st (uts s b)) ∧
  awaiting (kts s' k) (uts s') = awaiting (kts s k) (uts s).
Proof.
  intros HI Hk. pose proof (li_kt _ _ _ HI k) as Hc. unfold kt_cond in Hc. rewrite Hk in Hc.
  destruct Hc as (_ & Hlv & _). unfold postSwitchFunc.
  destruct (decide (currentUT (kts s k) = mainUT (kts s k))) as [Hm|Hm].
  { intros [= <-]. split_and!; simpl; [intros j Hj; by rewrite fn_lookup_insert_ne|done|].
    rewrite fn_lookup_insert. unfold awaiting. simpl. rewrite Hk. by rewrite decide_False by tauto. }
  destruct (Hlv Hm) as [Hl _]. unfold leaving in Hl.
  assert (Hcur : loc (currentUT (kts s k)) = PCur k).
  { eapply placed_cur; [apply HI|]. unfold cur_at. rewrite Hk, decide_False by done. by apply list_elem_of_singleton. }
  unfold resume_tcb.
  destruct (st (uts s (currentUT (kts s k)))) eqn:Est; try done; simpl;
    try rewrite Hl; try (destruct (assigned_ok _ _ _)); intros Hs; simplify_eq;
    (split_and!; simpl; [intros j Hj; by rewrite ?fn_lookup_insert_ne| |]);
    try (intros j b Hj Hb; try (rewrite fn_lookup_insert_ne by congruence); done);
    rewrite fn_lookup_insert; unfold awaiting; simpl; rewrite Hk, ?fn_lookup_insert, ?Est; simpl;
    repeat case_decide; naive_solver.
Qed.

(** The rest of a switch. *)
Lemma switch_suspended k kt s s' a :
  linv members s → switch_step members k kt s = Some s' →
  suspended s' a ↔ suspended s a ∧ publishes (LStep k kt) s ≠ Some a.
Proof.
  intros [loc HI] Hs. unfold switch_step in Hs. simpl.
  pose proof (li_kt _ _ _ HI k) as Hc. unfold kt_cond in Hc.
  assert (Hkeep : (∀ j, j ≠ k → kts s' j = kts s j) →
    (∀ j b, j ≠ k → loc b = PCur j → st (uts s' b) = st (uts s b)) →
    awaiting (kts s' k) (uts s') = awaiting (kts s k) (uts s) →
    suspended s' a ↔ suspended s a ∧ @None addr ≠ Some a).
  { intros H1 H2 H3. rewrite (suspended_kept s s' loc k a) by done. naive_solver. }
  destruct (kph (kts s k)) as [ | | | |n|n|n|n|n] eqn:E; simplify_eq/=.
  - unfold blockingSwitch in Hs. destruct (rq s k); simplify_eq/=.
    apply Hkeep; simpl; [intros j Hj; by rewrite fn_lookup_insert_ne|done|].
    rewrite fn_lookup_insert. unfold awaiting. simpl. rewrite E. by rewrite decide_False by tauto.
  - apply Hkeep; unfold nonBlockingSwitch; repeat case_match; simpl;
      try (intros j Hj; by rewrite fn_lookup_insert_ne); try done;
      rewrite fn_lookup_insert; unfold awaiting; simpl; rewrite E; try done.
    rewrite decide_False; [done|]. intros [_ ?]. congruence.
  - apply Hkeep; unfold stackSwitch; destruct (ctx (uts s n)); simpl;
      try (intros j Hj; by rewrite fn_lookup_insert_ne);
      try (intros j b _ _; destruct (decide (b = n)) as [->|]; rewrite ?fn_lookup_insert, ?fn_lookup_insert_ne by done;
           (destruct (decide (b = currentUT (kts s k))) as [->|] || destruct (decide (n = currentUT (kts s k))) as [->|]);
           by rewrite ?fn_lookup_insert, ?fn_lookup_insert_ne by done);
      rewrite fn_lookup_insert; unfold awaiting; simpl; rewrite E;
      (destruct Hc as (Hne & _); rewrite (fn_lookup_insert_ne _ n) by done; by rewrite fn_lookup_insert).
  - destruct (postSwitch_awaiting k n kt s s' loc HI E Hs) as (?&?&?). by apply Hkeep.
  - destruct (schedule_frame (currentUT (kts s k)) s) as (Ek & Eu & _).
    apply Hkeep; simpl; rewrite ?Ek, ?Eu; [intros j Hj; by rewrite fn_lookup_insert_ne|done|].
    rewrite fn_lookup_insert. unfold awaiting. simpl. by rewrite E.
  - destruct Hc as (Hne & Hst & _). rewrite (suspended_move s _ loc k a);
      [|done|intros j Hj; simpl; by rewrite fn_lookup_insert_ne|done]. simpl. rewrite fn_lookup_insert.
    unfold awaiting at 1 2. simpl. rewrite E, decide_True by done. naive_solver.
  - apply Hkeep; simpl; [intros j Hj; by rewrite fn_lookup_insert_ne| |].
    + intros j b Hj Hb. rewrite fn_lookup_insert_ne; [done|]. intros ->.
      destruct (decide (b = mainUT (kts s k))) as [->|Hne].
      * rewrite (placed_main s loc k) in Hb; [done|apply HI|congruence].
      * rewrite (placed_next s loc k) in Hb; [done|apply HI|]. unfold next_at. rewrite E. simpl.
        rewrite decide_False by done. by apply list_elem_of_singleton.
    + rewrite fn_lookup_insert. unfold awaiting. simpl. rewrite E. by case_decide.
Qed.

Lemma not_cur s loc b p : linv_at members s loc → p ≠ PGone → (∀ k, p ≠ PCur k) → b ∈ at_place s p →
  ∀ k c, loc c = PCur k → c ≠ b.
Proof. intros HI Hg Hp Hb k c Hc ->. apply (in_place _ _ _ _ _ HI Hg) in Hb. by destruct (Hp k); congruence. Qed.

Lemma lstep_suspended l s s' a :
  linv members s → lstep members localCluster l s = Some s' →
  suspended s' a ↔ (suspended s a ∧ publishes l s ≠ Some a) ∨ suspends l s = Some a.
Proof.
  intros [loc HI] Hs.
  assert (Hsame : (∀ k, kts s' k = kts s k) → (∀ k b, loc b = PCur k → st (uts s' b) = st (uts s b)) →
            suspended s' a ↔ (suspended s a ∧ @None addr ≠ Some a) ∨ @None addr = Some a).
  { intros H1 H2. rewrite (suspended_same s s' loc a) by done. naive_solver. }
  destruct l as [b|b c|k|k c kt|k|k|b|b kt|b|k kt]; simpl in *.
  - unfold create_ut in Hs. case_decide as Hb; simplify_eq/=. apply Hsame; [done|]. intros k c Hc. simpl.
    rewrite fn_lookup_insert_ne; [done|]. intros <-. apply Hb, (li_live _ _ _ HI). congruence.
  - unfold start in Hs. case_decide; simplify_eq/=. apply Hsame; [done|]. intros k d _. simpl.
    destruct (decide (d = b)) as [->|]; by rewrite ?fn_lookup_insert, ?fn_lookup_insert_ne by done.
  - rewrite (leave_suspended _ _ _ _ _ a HI Hs). simpl. naive_solver.
  - unfold migrate in Hs. repeat case_decide; [destruct (kph _); simplify_eq; naive_solver| |done].
    rewrite (leave_suspended _ _ _ _ _ a HI Hs). simpl. naive_solver.
  - pose proof (leave_run _ _ _ _ Hs) as Hr. simpl in Hr. rewrite fn_lookup_insert in Hr. simpl in Hr.
    rewrite (leave_suspended _ _ _ _ _ a (set_postSuspendFunc_inv _ k s loc HI Hr) Hs). simpl.
    rewrite fn_lookup_insert. simpl. rewrite (suspended_kept s _ loc k a); [naive_solver|done| |done|].
    + intros j Hj. simpl. by rewrite fn_lookup_insert_ne.
    + simpl. rewrite fn_lookup_insert. unfold awaiting. simpl. by rewrite Hr.
  - rewrite (leave_suspended _ _ _ _ _ a HI Hs). simpl. naive_solver.
  - case_decide; simplify_eq/=. by apply Hsame.
  - destruct (decide (b ∈ resuming s)) as [Hb|]; [|done]. destruct (assigned_ok _ _ _); [|done].
    unfold resume_tcb in Hs. destruct (resumable _); simplify_eq/=; apply Hsame; try done. intros k c Hc. simpl.
    rewrite fn_lookup_insert_ne; [done|]. apply not_eq_sym. by eapply (not_cur s loc b PRes).
  - case_decide; simplify_eq/=. destruct (schedule_frame b (set_pushing (del b (pushing s)) s)) as (Ek & Eu & _).
    apply Hsame; by rewrite ?Ek, ?Eu.
  - rewrite (switch_suspended k kt s s' a) by (done || by exists loc). simpl. naive_solver.
Qed.

(** The kThread that a step moves. *)
Definition moves (l : llabel) : option nat := match l with LStep k _ => Some k | _ => leaves l end.
Lemma leave_kts k f s s' j : leave k f s = Some s' → j ≠ k → kts s' j = kts s j.
Proof. intros [_ ->]%leave_eq Hj. simpl. by rewrite fn_lookup_insert_ne. Qed.
Lemma lstep_kts l s s' j :
  lstep members localCluster l s = Some s' → moves l ≠ Some j → kts s' j = kts s j.
Proof.
  destruct l as [b|b c|k|k c kt|k|k|b|b kt|b|k kt]; simpl; intros Hs Hj.
  - unfold create_ut in Hs. by case_decide; simplify_eq/=.
  - unfold start in Hs. by case_decide; simplify_eq/=.
  - eapply leave_kts; [done|congruence].
  - unfold migrate in Hs. repeat case_decide; [by destruct (kph _); simplify_eq| |done]. eapply leave_kts; [done|congruence].
  - erewrite leave_kts; [|done|congruence]. simpl. rewrite fn_lookup_insert_ne; [done|congruence].
  - eapply leave_kts; [done|congruence].
  - by case_decide; simplify_eq/=.
  - by repeat case_match; simplify_eq/=.
  - case_decide; simplify_eq/=. by destruct (schedule_frame b (set_pushing (del b (pushing s)) s)) as (-> & _).
  - assert (j ≠ k) as Hne by congruence. unfold switch_step in Hs.
    destruct (kph (kts s k)) as [ | | | |n|n|n|n|n] eqn:E; simplify_eq/=.
    + unfold blockingSwitch in Hs. destruct (rq s k); simplify_eq/=. by rewrite fn_lookup_insert_ne.
    + unfold nonBlockingSwitch. repeat case_match; simpl; by rewrite fn_lookup_insert_ne.
    + unfold stackSwitch. destruct (ctx _); simpl; by rewrite fn_lookup_insert_ne.
    + unfold postSwitchFunc in Hs. repeat case_match; simplify_eq/=; by rewrite fn_lookup_insert_ne.
    + destruct (schedule_frame (currentUT (kts s k)) s) as (-> & _). by rewrite fn_lookup_insert_ne.
    + by rewrite fn_lookup_insert_ne.
    + by rewrite fn_lookup_insert_ne.
Qed.

(** Only its own calls take a uThread off its kThread. *)
Lemma lstep_running l s s' a :
  lstep members localCluster l s = Some s' → running s a →
  (∀ k, leaves l = Some k → currentUT (kts s k) ≠ a) → running s' a.
Proof.
  intros Hs (k & Hk & <-) Hl. exists k. rewrite (lstep_kts l s s' k Hs); [done|].
  destruct l; simpl in *; try done; try (intros [= ->]; by destruct (Hl k eq_refl)).
  intros [= ->]. unfold switch_step in Hs. by rewrite Hk in Hs.
Qed.

(** What a switch does to the two uThreads of its kThread. *)
Lemma switch_cur k kt s s' a :
  linv members s → switch_step members k kt s = Some s' →
  mainUT (kts s' k) = mainUT (kts s k) ∧ kph (kts s' k) ≠ KOff ∧
  (a ∈ cur_at (kts s' k) → kph (kts s' k) = KRun ∨ a ∈ cur_at (kts s k)).
Proof.
  intros [loc HI] Hs. pose proof (li_kt _ _ _ HI k) as Hc. unfold kt_cond in Hc. unfold switch_step in Hs.
  destruct (kph (kts s k)) as [ | | | |n|n|n|n|n] eqn:E; simplify_eq/=.
  - unfold blockingSwitch in Hs. destruct (rq s k); simplify_eq/=. rewrite fn_lookup_insert. simpl.
    unfold cur_at. simpl. rewrite decide_True by done. split_and!; [done..|by intros ?%not_elem_of_nil].
  - unfold nonBlockingSwitch. destruct (rq s k); [case_decide|]; simpl; rewrite fn_lookup_insert; simpl;
      unfold cur_at; rewrite E; simpl; auto.
  - unfold stackSwitch, cur_at. destruct (ctx _); simpl; rewrite fn_lookup_insert; simpl; rewrite E; naive_solver.
  - unfold postSwitchFunc in Hs.
    repeat case_match; simplify_eq/=; rewrite fn_lookup_insert; simpl;
      (split_and!; [done..|]); unfold cur_at; simpl; rewrite ?E; first [by intros ?%not_elem_of_nil|by right].
  - destruct (schedule_frame (currentUT (kts s k)) s) as (-> & _). rewrite fn_lookup_insert. simpl.
    split_and!; [done..|by intros ?%not_elem_of_nil].
  - rewrite fn_lookup_insert. simpl. split_and!; [done..|by intros ?%not_elem_of_nil].
  - rewrite fn_lookup_insert. unfold cur_at. simpl. split_and!; [done|by case_decide|].
    case_decide; [by intros ?%not_elem_of_nil|auto].
Qed.

Lemma switch_live k kt s s' a :
  switch_step members k kt s = Some s' → a ∈ live s → fresh s' = fresh s ∧
  (a ∈ live s' ∨ a ∈ cur_at (kts s k) ∧ kph (kts s k) ≠ KRun ∧ kph (kts s k) ≠ KOff).
Proof.
  intros Hs Ha. unfold switch_step in Hs. destruct (kph (kts s k)) as [ | | | |n|n|n|n|n] eqn:E; simplify_eq/=; auto.
  - unfold blockingSwitch in Hs. destruct (rq s k); simplify_eq/=. auto.
  - unfold nonBlockingSwitch. repeat case_match; simpl; auto.
  - unfold stackSwitch. destruct (ctx _); simpl; auto.
  - unfold postSwitchFunc in Hs. unfold cur_at. rewrite E.
    repeat case_match; simplify_eq/=; auto. split; [done|]. rewrite elem_del.
    destruct (decide (a = currentUT (kts s k))) as [->|]; [right|auto]. split; [by apply list_elem_of_singleton|done].
  - destruct (schedule_frame (currentUT (kts s k)) s) as (_ & _ & _ & -> & ->). auto.
Qed.

Lemma leave_live k f s s' : leave k f s = Some s' → live s' = live s ∧ fresh s' = fresh s.
Proof. by intros [_ ->]%leave_eq. Qed.
Lemma lstep_live l s s' a :
  lstep members localCluster l s = Some s' → a ∈ live s → a ∉ fresh s →
  a ∉ fresh s' ∧ (a ∈ live s' ∨ ∃ k, moves l = Some k ∧ a ∈ cur_at (kts s k) ∧
                                     kph (kts s k) ≠ KRun ∧ kph (kts s k) ≠ KOff).
Proof.
  intros Hs Ha Hf. destruct l as [b|b c|k|k c kt|k|k|b|b kt|b|k kt]; simpl in *;
    try (apply leave_live in Hs as [-> ->]; by auto).
  - unfold create_ut in Hs. case_decide; simplify_eq/=. rewrite !elem_of_app, list_elem_of_singleton.
    split; [intros [?|<-]; done|by auto].
  - unfold start in Hs. case_decide; simplify_eq/=. rewrite elem_del. tauto.
  - unfold migrate in Hs. repeat case_decide; [destruct (kph _); simplify_eq; by auto| |done].
    apply leave_live in Hs as [-> ->]. by auto.
  - case_decide; simplify_eq/=. by auto.
  - repeat case_match; simplify_eq/=; by auto.
  - case_decide; simplify_eq/=. destruct (schedule_frame b (set_pushing (del b (pushing s)) s)) as (_ & _ & _ & -> & ->). by auto.
  - destruct (switch_live k kt s s' a Hs Ha) as [-> [?|?]]; split; eauto.
Qed.

(** A uThread that has a home kThread keeps one. *)
Lemma home_insert (us : addr → tcb) b u a :
  home (us a) ≠ None → (a = b → home (us a) ≠ None → home u ≠ None) → home (<[b := u]> us a) ≠ None.
Proof.
  intros Ha Hu. destruct (decide (a = b)) as [->|]; [rewrite fn_lookup_insert; by apply Hu|by rewrite fn_lookup_insert_ne].
Qed.
Lemma leave_home k f s s' a :
  leave k f s = Some s' → (∀ u, home u ≠ None → home (f u) ≠ None) → home (uts s a) ≠ None → home (uts s' a) ≠ None.
Proof. intros [_ ->]%leave_eq Hf Ha. apply home_insert; [done|]. intros <-. apply Hf. Qed.
Lemma resume_tcb_home kt u u' : resume_tcb kt u = Some u' → home u' ≠ None.
Proof. unfold resume_tcb. destruct (resumable _); [|done]. intros [= <-]. simpl. by destruct (home u). Qed.
Lemma lstep_home l s s' a :
  lstep members localCluster l s = Some s' → a ∈ live s → home (uts s a) ≠ None → home (uts s' a) ≠ None.
Proof.
  intros Hs Hli Ha. destruct l as [b|b c|k|k c kt|k|k|b|b kt|b|k kt]; simpl in *;
    try (by eapply leave_home; [exact Hs| |]).
  - unfold create_ut in Hs. case_decide; simplify_eq/=. apply home_insert; [done|]. by intros ->.
  - unfold start in Hs. case_decide; simplify_eq/=. apply home_insert; [done|]. by intros ->.
  - unfold migrate in Hs. repeat case_decide; [by destruct (kph _); simplify_eq| |done]. by eapply leave_home; [exact Hs| |].
  - by case_decide; simplify_eq/=.
  - destruct (decide _); [|done]. destruct (assigned_ok _ _ _); [|done].
    destruct (resume_tcb kt _) as [u|] eqn:Er; simplify_eq/=; [|done]. apply home_insert; [done|]. intros _ _.
    by eapply resume_tcb_home.
  - case_decide; simplify_eq/=. by destruct (schedule_frame b (set_pushing (del b (pushing s)) s)) as (_ & -> & _).
  - unfold switch_step in Hs. destruct (kph (kts s k)) as [ | | | |n|n|n|n|n] eqn:E; simplify_eq/=; try done.
    + unfold blockingSwitch in Hs. by destruct (rq s k); simplify_eq/=.
    + unfold nonBlockingSwitch. by repeat case_match.
    + unfold stackSwitch. destruct (ctx _); simpl; apply home_insert; try (intros ->; done); apply home_insert; (done || by intros ->).
    + unfold postSwitchFunc in Hs. repeat case_match; simplify_eq/=; try done;
        (apply home_insert; [done|]; intros _ _; by eapply resume_tcb_home).
    + by destruct (schedule_frame (currentUT (kts s k)) s) as (_ & -> & _).
    + apply home_insert; [done|]. by intros ->.
Qed.

Lemma lstep_coming l s s' a :
  linv members s → lstep members localCluster l s = Some s' → coming s a →
  (∀ k, leaves l = Some k → currentUT (kts s k) ≠ a) → coming s' a.
Proof.
  intros HL Hs (Hli & Hfr & Hpu & Hho & Hk) Hlv. destruct (lstep_live l s s' a Hs Hli Hfr) as [Hfr' Hli'].
  split_and!; [|done| |by eapply lstep_home|].
  - destruct Hli' as [?|(k & _ & Hin & Hr & Ho)]; [done|]. by destruct Hr; apply Hk.
  - rewrite (lstep_published l s s' a Hs). intros [[? _]|Hpb]; [done|]. destruct HL as [loc HI].
    destruct l as [| | | | | | | | |k kt]; simpl in *; try done.
    destruct (kph (kts s k)) as [ | | | | | | |n| ] eqn:E; simplify_eq.
    pose proof (li_kt _ _ _ HI k) as Hc. unfold kt_cond in Hc. rewrite E in Hc. destruct Hc as [Hne _].
    assert (kph (kts s k) = KRun); [|congruence]. apply Hk; [congruence|].
    unfold cur_at. rewrite E, decide_False by done. by apply list_elem_of_singleton.
  - intros k Ho. destruct (decide (moves l = Some k)) as [Hm|Hm].
    2: { rewrite (lstep_kts l s s' k Hs Hm) in *. by apply Hk. }
    destruct (leaves l) as [k'|] eqn:El.
    + assert (k' = k) as -> by (destruct l; simplify_eq/=; done). specialize (Hlv k eq_refl).
      assert (Hmc : mainUT (kts s' k) = mainUT (kts s k) ∧ (s' = s ∨ currentUT (kts s' k) = currentUT (kts s k))).
      { destruct l; simplify_eq/=; try (apply leave_eq in Hs as [_ ->]; simpl; rewrite ?fn_lookup_insert; simpl;
          rewrite ?fn_lookup_insert; by auto).
        unfold migrate in Hs. repeat case_decide; [destruct (kph _); simplify_eq; by auto| |done].
        apply leave_eq in Hs as [_ ->]. simpl. rewrite fn_lookup_insert. by auto. }
      assert (Hr : kph (kts s k) = KRun).
      { destruct l; simplify_eq/=; try (apply leave_eq in Hs as [Hs _]; simpl in Hs; rewrite ?fn_lookup_insert in Hs; done).
        unfold migrate in Hs. repeat case_decide; [by destruct (kph _)|by apply leave_eq in Hs as [? _]|done]. }
      destruct Hmc as [-> [-> | Hcc]]; [by apply Hk|]. split; [apply Hk; congruence|].
      intros Hin. exfalso. apply Hlv. rewrite <- Hcc. unfold cur_at in Hin.
      destruct (kph (kts s' k)); try case_decide; set_solver.
    + destruct l; simplify_eq/=. destruct (switch_cur k kt s s' a HL Hs) as (-> & _ & Hcur).
      assert (Ho' : kph (kts s k) ≠ KOff) by (intros E; unfold switch_step in Hs; by rewrite E in Hs).
      destruct (Hk k Ho') as [? Hk']. split; [done|]. intros [?|Hin]%Hcur; [done|].
      apply Hk' in Hin. unfold switch_step in Hs. by rewrite Hin in Hs.
Qed.

(** Once nothing moves, it runs or waits for its turn on a kThread that is busy. *)
Definition stuck s (k : nat) : Prop :=
  kph (kts s k) = KOff ∨ kph (kts s k) = KRun ∨ kph (kts s k) = KMain ∧ rq s k = [].
Lemma coming_quiet s a :
  linv members s → coming s a →
  (∀ b kt, lstep members localCluster (LReady b kt) s = None) →
  (∀ b, lstep members localCluster (LPush b) s = None) → (∀ k, stuck s k) →
  running s a ∨ ∃ k, a ∈ rq s k ∧ kph (kts s k) = KRun.
Proof.
  intros [loc HI] (Hli & Hfr & Hpu & Hho & Hk) Hrd Hps Hst. apply (li_live _ _ _ HI) in Hli as Hg.
  pose proof (li_placed _ _ _ HI (loc a) Hg) as [_ Hin]. specialize (Hin a). destruct Hin as [_ Hin].
  specialize (Hin eq_refl). pose proof (li_ut _ _ _ HI a) as Hu.
  destruct (loc a) as [ |k|k|k|k| | | | ]; simpl in *; try done.
  - exfalso. destruct (decide (kph (kts s k) = KOff)) as [E|E]; [rewrite E in Hin; by apply not_elem_of_nil in Hin|].
    destruct (Hk k E) as [Hm _]. destruct (kph (kts s k)); try done; by apply list_elem_of_singleton in Hin.
  - left. exists k. assert (kph (kts s k) ≠ KOff) as E by (intros E; unfold cur_at in Hin; rewrite E in Hin; set_solver).
    pose proof (proj2 (Hk k E) Hin) as Hr. split; [done|]. unfold cur_at in Hin. rewrite Hr in Hin. case_decide; set_solver.
  - exfalso. unfold next_at in Hin. destruct (Hst k) as [E|[E|[E _]]]; rewrite E in Hin; by apply not_elem_of_nil in Hin.
  - destruct Hu as (_ & _ & _ & Hm). apply (li_mem _ _ _ HI) in Hm.
    destruct (Hst k) as [E|[E|[_ E]]]; [done|right; eauto|]. rewrite E in Hin. by apply not_elem_of_nil in Hin.
  - exfalso. specialize (Hrd a 0). rewrite decide_True in Hrd by done. unfold assigned_ok in Hrd.
    by destruct (home (uts s a)).
  - exfalso. specialize (Hps a). by rewrite decide_True in Hps.
Qed.
End facts.

(** ** The interface of a blocking component *)

(** What a step of the component is: code that runs on the uThread's own stack,
    a call of [uThread::suspend], a step of [postSuspendFunc] on behalf of the
    uThread, the one of them that makes it visible, or a call of [resume]. *)
Inductive action : Type :=
  | AcRun (t : nat)
  | AcSuspend (t : nat)
  | AcPost (t : nat)
  | AcPublish (t : nat)
  | AcResume (w : nat).
Definition actor (c : action) : nat :=
  match c with AcRun t | AcSuspend t | AcPost t | AcPublish t | AcResume t => t end.

(** How the component sees a uThread. *)
Inductive bphase : Type :=
  | BRun        (* not switched out *)
  | BSusp       (* in suspend, [postSuspendFunc] not through *)
  | BParked     (* switched out and visible to resume *)
  | BTaken.     (* resumed, has not run since *)

Class Blocking (St Lab : Type) := {
  bstep : Lab → St → option St;
  binit : St;
  action_of : Lab → St → action;
  phase_of : St → nat → bphase;
  at_rest : St → nat → bool      (* in client code *)
}.

Class BlockingLaws (St Lab : Type) `{Blocking St Lab} := {
  binv : St → Prop;
  binv_init : binv binit;
  binv_step : ∀ l m m', binv m → bstep l m = Some m' → binv m';
  init_rest : ∀ t, at_rest binit t = true;
  rest_run : ∀ m t, binv m → at_rest m t = true → phase_of m t = BRun;
  step_frame : ∀ l m m' t, binv m → bstep l m = Some m' → t ≠ actor (action_of l m) →
    phase_of m' t = phase_of m t ∧ at_rest m' t = at_rest m t;
  step_actor : ∀ l m m', binv m → bstep l m = Some m' →
    match action_of l m with
    | AcRun t => (phase_of m t = BRun ∨ phase_of m t = BTaken) ∧ phase_of m' t = BRun
    | AcSuspend t => phase_of m t = BRun ∧ phase_of m' t = BSusp
    | AcPost t => phase_of m t = BSusp ∧ phase_of m' t = BSusp
    | AcPublish t => phase_of m t = BSusp ∧ phase_of m' t = BParked
    | AcResume w => phase_of m w = BParked ∧ phase_of m' w = BTaken
    end;
  post_enabled : ∀ m t, binv m → phase_of m t = BSusp →
    ∃ l m', bstep l m = Some m' ∧ (action_of l m = AcPost t ∨ action_of l m = AcPublish t)
}.

(** ** The composition *)

Inductive sys_label (Lab : Type) : Type :=
  | SLife (l : llabel)
  | SRun (k : nat) (l : Lab)
  | SSuspend (k : nat) (l : Lab)
  | SPost (k : nat) (l : Lab)
  | SPublish (k kt : nat) (l : Lab)
  | SResume (l : Lab).
Arguments SLife {Lab}. Arguments SRun {Lab}. Arguments SSuspend {Lab}.
Arguments SPost {Lab}. Arguments SPublish {Lab}. Arguments SResume {Lab}.

Section compose.
Context {St Lab : Type} `{BlockingLaws St Lab}.
Context (members : nat → list nat) (localCluster : nat → nat).
(** The uThreads that use the component. *)
Context (ut : nat → addr) (who : addr → option nat).
Implicit Types (s : life) (m : St) (t : nat).

(** The steps of the life cycle that are not also steps of the component: other
    uThreads do anything, the clients create, yield, migrate and terminate from
    client code, and switches and resumes go on. *)
Definition allowed (l : llabel) s m : bool :=
  match l with
  | LSuspend k => match who (currentUT (kts s k)) with Some _ => false | None => true end
  | LTake a => match who a with Some _ => false | None => true end
  | LYield k | LMigrate k _ _ | LTerminate k =>
      match who (currentUT (kts s k)) with Some t => at_rest m t | None => true end
  | LStep k _ =>
      match kph (kts s k), who (currentUT (kts s k)) with KSusp _, Some _ => false | _, _ => true end
  | _ => true
  end.

Definition runs_on s (k t : nat) : Prop := kph (kts s k) = KRun ∧ currentUT (kts s k) = ut t.
(** [postSwitchFunc] is calling [postSuspendFunc] for [t]. *)
Definition posts s (k t : nat) : bool :=
  match kph (kts s k) with KSusp _ => bool_decide (currentUT (kts s k) = ut t) | _ => false end.

Definition sys_step (l : sys_label Lab) (c : life * St) : option (life * St) :=
  let '(s, m) := c in
  match l with
  | SLife l => if allowed l s m then s' ← lstep members localCluster l s; Some (s', m) else None
  | SRun k l =>
      match action_of l m with
      | AcRun t => if decide (runs_on s k t) then m' ← bstep l m; Some (s, m') else None
      | _ => None
      end
  | SSuspend k l =>
      match action_of l m with
      | AcSuspend t =>
          if decide (runs_on s k t) then
            m' ← bstep l m; s' ← lstep members localCluster (LSuspend k) s; Some (s', m')
          else None
      | _ => None
      end
  | SPost k l =>
      match action_of l m with
      | AcPost t => if posts s k t then m' ← bstep l m; Some (s, m') else None
      | _ => None
      end
  | SPublish k kt l =>
      match action_of l m with
      | AcPublish t =>
          if posts s k t then
            m' ← bstep l m; s' ← lstep members localCluster (LStep k kt) s; Some (s', m')
          else None
      | _ => None
      end
  | SResume l =>
      match action_of l m with
      | AcResume w => m' ← bstep l m; s' ← lstep members localCluster (LTake (ut w)) s; Some (s', m')
      | _ => None
      end
  end.
End compose.

(** ** Both sides agree on where a uThread is *)

Section agree.
Context {St Lab : Type} `{BlockingLaws St Lab}.
Context (members : nat → list nat) (localCluster : nat → nat).
Context (ut : nat → addr) (who : addr → option nat).
Hypothesis who_ut : ∀ a t, who a = Some t ↔ a = ut t.
Implicit Types (s : life) (m : St) (t : nat).

Definition linked s m t : Prop :=
  match phase_of m t with
  | BRun => (at_rest m t = false → running s (ut t)) ∧ ut t ∉ published s ∧ ¬ suspended s (ut t)
  | BSusp => suspended s (ut t) ∧ ut t ∉ published s
  | BParked => ut t ∈ published s ∧ ¬ suspended s (ut t)
  | BTaken => coming s (ut t) ∧ ¬ suspended s (ut t)
  end.
Record sys_inv (c : life * St) : Prop := {
  s_life : linv members c.1;
  s_comp : binv c.2;
  s_link : ∀ t, linked c.1 c.2 t
}.

Lemma ut_inj t t' : ut t = ut t' → t = t'.
Proof. intros E. assert (who (ut t) = Some t) by (by apply who_ut). rewrite E in *.
  assert (who (ut t') = Some t') by (by apply who_ut). congruence. Qed.

Lemma linked_eq s m m' t :
  phase_of m' t = phase_of m t ∧ at_rest m' t = at_rest m t → linked s m t → linked s m' t.
Proof. unfold linked. by intros [-> ->]. Qed.

(** A step of the life cycle that is not about [t]. *)
Lemma linked_life l s s' m t :
  linv members s → binv m → lstep members localCluster l s = Some s' →
  takes l ≠ Some (ut t) → publishes l s ≠ Some (ut t) → suspends l s ≠ Some (ut t) →
  (at_rest m t = false → ∀ k, leaves l = Some k → currentUT (kts s k) ≠ ut t) →
  linked s m t → linked s' m t.
Proof.
  intros HL HB Hs Ht Hp Hsu Hlv. pose proof (lstep_published _ _ l s s' (ut t) Hs) as EP.
  pose proof (lstep_suspended _ _ l s s' (ut t) HL Hs) as ES.
  assert (EP' : ut t ∈ published s' ↔ ut t ∈ published s) by naive_solver.
  assert (ES' : suspended s' (ut t) ↔ suspended s (ut t)) by naive_solver.
  unfold linked. destruct (phase_of m t) eqn:E; rewrite ?EP', ?ES'; try done.
  - intros (Hr & ? & ?). split_and!; try done. intros Hnr. eapply lstep_running; eauto.
  - intros [? ?]. split; [|done]. eapply lstep_coming; [done..|]. apply Hlv.
    destruct (at_rest m t) eqn:Er; [|done]. apply rest_run in Er; [congruence|done].
Qed.

Lemma take_coming s s' a :
  linv members s → lstep members localCluster (LTake a) s = Some s' → coming s' a.
Proof.
  intros [loc HI] Hs. simpl in Hs. case_decide as Ha; simplify_eq/=.
  assert (Hl : loc a = PPub) by (by eapply (in_place _ _ _ PPub)).
  pose proof (li_ut _ _ _ HI a) as Hu. rewrite Hl in Hu. destruct Hu as (_ & _ & h & Hh & _).
  unfold coming. simpl. split_and!.
  - eapply live_in; [done|]. congruence.
  - intros Hf. apply (in_place _ _ _ PFresh _ HI) in Hf; [congruence|done].
  - rewrite elem_del. tauto.
  - congruence.
  - intros k Hk. split.
    + intros ->. rewrite (placed_main s loc k) in Hl; [done|apply HI|done].
    + intros Hin. rewrite (placed_cur s loc k) in Hl; [done|apply HI|done].
Qed.

(** The uThread of the step: it is on the kThread that makes it. *)
Lemma sinv_other l m m' s s' t la :
  sys_inv (s, m) → bstep l m = Some m' → lstep members localCluster la s = Some s' → t ≠ actor (action_of l m) →
  takes la ≠ Some (ut t) → publishes la s ≠ Some (ut t) → suspends la s ≠ Some (ut t) →
  (∀ k, leaves la = Some k → currentUT (kts s k) ≠ ut t) → linked s' m' t.
Proof.
  intros [HL HB HK] Hm Hs Hne Ht Hp Hsu Hlv. eapply linked_eq; [by eapply step_frame|].
  eapply linked_life; try done.
Qed.

Lemma sinv_suspend s m k t l m' s' :
  sys_inv (s, m) → action_of l m = AcSuspend t → runs_on ut s k t → bstep l m = Some m' →
  lstep members localCluster (LSuspend k) s = Some s' → sys_inv (s', m').
Proof.
  intros HI Ea [Hk Hc] Hm Hs. pose proof HI as [HL HB HK]. pose proof (step_actor l m m' HB Hm) as Hph.
  rewrite Ea in Hph. destruct Hph as [E1 E2]. split; simpl; [by eapply lstep_inv|by eapply binv_step|].
  intros t'. destruct (decide (t' = t)) as [->|Hne].
  - unfold linked. rewrite E2, (lstep_suspended _ _ _ _ _ (ut t) HL Hs), (lstep_published _ _ _ _ _ (ut t) Hs).
    specialize (HK t). unfold linked in HK. simpl in HK. rewrite E1 in HK. simpl in *. rewrite Hc. naive_solver.
  - assert (ut t ≠ ut t') by (intros ?%ut_inj; congruence).
    eapply sinv_other; try done; simpl; rewrite ?Ea, ?Hc; [done|congruence|]. intros ? [= ->]. congruence.
Qed.

Lemma sinv_publish s m k kt t l m' s' :
  sys_inv (s, m) → action_of l m = AcPublish t → posts ut s k t = true → bstep l m = Some m' →
  lstep members localCluster (LStep k kt) s = Some s' → sys_inv (s', m').
Proof.
  intros HI Ea Hpost Hm Hs. pose proof HI as [HL HB HK]. pose proof (step_actor l m m' HB Hm) as Hph.
  rewrite Ea in Hph. destruct Hph as [E1 E2].
  assert (Hpub : publishes (LStep k kt) s = Some (ut t)).
  { unfold posts in Hpost. simpl. destruct (kph (kts s k)); try done. apply bool_decide_eq_true in Hpost. congruence. }
  split; simpl; [by eapply lstep_inv|by eapply binv_step|].
  intros t'. destruct (decide (t' = t)) as [->|Hne].
  - unfold linked. rewrite E2, (lstep_suspended _ _ _ _ _ (ut t) HL Hs), (lstep_published _ _ _ _ _ (ut t) Hs), Hpub.
    simpl. naive_solver.
  - assert (ut t ≠ ut t') by (intros ?%ut_inj; congruence).
    eapply sinv_other; try done; rewrite ?Ea, ?Hpub; simpl; congruence.
Qed.

Lemma sinv_resume s m w l m' s' :
  sys_inv (s, m) → action_of l m = AcResume w → bstep l m = Some m' →
  lstep members localCluster (LTake (ut w)) s = Some s' → sys_inv (s', m').
Proof.
  intros HI Ea Hm Hs. pose proof HI as [HL HB HK]. pose proof (step_actor l m m' HB Hm) as Hph.
  rewrite Ea in Hph. destruct Hph as [E1 E2]. split; simpl; [by eapply lstep_inv|by eapply binv_step|].
  intros t'. destruct (decide (t' = w)) as [->|Hne].
  - unfold linked. rewrite E2. split; [by eapply take_coming|].
    rewrite (lstep_suspended _ _ _ _ _ (ut w) HL Hs). specialize (HK w). unfold linked in HK. simpl in HK. rewrite E1 in HK.
    simpl in *. naive_solver.
  - assert (ut w ≠ ut t') by (intros ?%ut_inj; congruence). eapply sinv_other; try done; rewrite ?Ea; simpl; congruence.
Qed.

(** The life cycle stands still. *)
Lemma sinv_local s m l m' t :
  sys_inv (s, m) → bstep l m = Some m' → (action_of l m = AcRun t ∧ running s (ut t)) ∨ action_of l m = AcPost t →
  sys_inv (s, m').
Proof.
  intros HI Hm Ha. pose proof HI as [HL HB HK]. pose proof (step_actor l m m' HB Hm) as Hph.
  split; simpl; [done|by eapply binv_step|]. intros t'. destruct (decide (t' = t)) as [->|Hne].
  - specialize (HK t). unfold linked in *. simpl in *. destruct Ha as [[Ea Hr]|Ea]; rewrite Ea in Hph.
    + destruct Hph as [Hph ->]. split; [done|]. destruct Hph as [E|E]; rewrite E in HK; [by apply HK|].
      destruct HK as [(_ & _ & ? & _) ?]. done.
    + destruct Hph as [E ->]. by rewrite E in HK.
  - eapply linked_eq; [|apply HK]. apply (step_frame l m m'); [done|done|]. destruct Ha as [[Ea _]|Ea]; by rewrite Ea.
Qed.

Lemma sinv_life s m l s' :
  sys_inv (s, m) → allowed who l s m = true → lstep members localCluster l s = Some s' → sys_inv (s', m).
Proof.
  intros HI Hal Hs. pose proof HI as [HL HB HK]. split; simpl; [by eapply lstep_inv|done|].
  intros t. specialize (HK t). assert (Hw : who (ut t) = Some t) by (by apply who_ut).
  eapply linked_life; try done; destruct l; simpl in *; try done;
    try (intros [= E]; rewrite ?E in *; by rewrite Hw in Hal);
    try (intros Hr k' [= <-] E; rewrite E, Hw in Hal; congruence).
  destruct (kph (kts s k)); try done. intros [= E]. by rewrite E, Hw in Hal.
Qed.

Lemma sinv_step l c c' : sys_inv c → sys_step members localCluster ut who l c = Some c' → sys_inv c'.
Proof.
  destruct c as [s m]. intros HI Hs. destruct l as [l|k l|k l|k l|k kt l|l]; simpl in Hs.
  - destruct (allowed who l s m) eqn:Ha; [|done]. apply bind_Some in Hs as (s' & Hs & [= <-]). by eapply sinv_life.
  - destruct (action_of l m) as [t| | | |] eqn:Ea; try done. case_decide as Hr; [|done].
    apply bind_Some in Hs as (m' & Hm & [= <-]). eapply (sinv_local s m l m' t); [done..|left]. split; [done|].
    destruct Hr as [? ?]. by exists k.
  - destruct (action_of l m) as [ |t| | |] eqn:Ea; try done. case_decide as Hr; [|done].
    apply bind_Some in Hs as (m' & Hm & Hs). apply bind_Some in Hs as (s' & Hs & [= <-]). by eapply sinv_suspend.
  - destruct (action_of l m) as [ | |t| |] eqn:Ea; try done. destruct (posts ut s k t); [|done].
    apply bind_Some in Hs as (m' & Hm & [= <-]). eapply (sinv_local s m l m' t); [done..|by right].
  - destruct (action_of l m) as [ | | |t|] eqn:Ea; try done. destruct (posts ut s k t) eqn:Hp; [|done].
    apply bind_Some in Hs as (m' & Hm & Hs). apply bind_Some in Hs as (s' & Hs & [= <-]). by eapply sinv_publish.
  - destruct (action_of l m) as [ | | | |w] eqn:Ea; try done.
    apply bind_Some in Hs as (m' & Hm & Hs). apply bind_Some in Hs as (s' & Hs & [= <-]). by eapply sinv_resume.
Qed.

Lemma sys_inv_init nkt mains initUT :
  boot members nkt mains initUT → sys_inv (life_init nkt mains initUT, binit).
Proof.
  intros HB. split; simpl.
  - eapply (linv_boot members localCluster); [done|]. apply reachable_refl.
  - apply binv_init.
  - intros t. unfold linked. rewrite rest_run by (apply binv_init || apply init_rest). rewrite init_rest.
    split_and!; [done|apply not_elem_of_nil|]. intros [k Hk]. unfold awaiting in Hk. simpl in Hk.
    repeat case_decide; simpl in *; done.
Qed.
Lemma sys_inv_reachable nkt mains initUT c :
  boot members nkt mains initUT →
  reachable (sys_step members localCluster ut who) (life_init nkt mains initUT, binit) c → sys_inv c.
Proof.
  intros HB. apply (invariant_reachable (sys_step members localCluster ut who) sys_inv); [by apply sys_inv_init|].
  intros l c1 c2. apply sinv_step.
Qed.

(** ** What the composition is for *)

(** A resume always finds its uThread published, so that it takes effect. *)
Lemma resume_effective s m l m' w :
  sys_inv (s, m) → bstep l m = Some m' → action_of l m = AcResume w →
  is_Some (sys_step members localCluster ut who (SResume l) (s, m)).
Proof.
  intros [HL HB HK] Hm Ea. pose proof (step_actor l m m' HB Hm) as Hph. rewrite Ea in Hph. destruct Hph as [E _].
  specialize (HK w). unfold linked in HK. simpl in HK. rewrite E in HK. simpl. rewrite Ea, Hm. simpl.
  rewrite decide_True by apply HK. simpl. eauto.
Qed.

(** A uThread that a kThread runs is not switched out for the component. *)
Lemma running_phase s m t : sys_inv (s, m) → running s (ut t) → phase_of m t = BRun ∨ phase_of m t = BTaken.
Proof.
  intros [[loc HI] _ HK] (k & Hk & Hc). specialize (HK t). unfold linked in HK. simpl in *.
  pose proof (li_kt _ _ _ HI k) as Hkt. unfold kt_cond in Hkt. rewrite Hk in Hkt. destruct Hkt as [Hne _].
  assert (Hl : loc (ut t) = PCur k).
  { eapply placed_cur; [apply HI|]. unfold cur_at. rewrite Hk, decide_False by done. rewrite <- Hc. by apply list_elem_of_singleton. }
  destruct (phase_of m t); auto; exfalso.
  - destruct HK as [[j Hj] _]. apply awaiting_cur in Hj as Hj'. destruct Hj' as (Hj' & _).
    apply (placed_cur s loc) in Hj'; [|apply HI]. assert (j = k) as -> by congruence.
    unfold awaiting in Hj. by rewrite Hk in Hj.
  - destruct HK as [Hp _]. apply (in_place _ _ _ PPub _ HI) in Hp; [congruence|done].
Qed.

(** Nothing is left to do but client code: no switch can go on, no
    [postSuspendFunc] and no resume is under way. *)
Record sys_quiet (c : life * St) : Prop := {
  qt_ready : ∀ b kt, sys_step members localCluster ut who (SLife (LReady b kt)) c = None;
  qt_push : ∀ b, sys_step members localCluster ut who (SLife (LPush b)) c = None;
  qt_switch : ∀ k kt, sys_step members localCluster ut who (SLife (LStep k kt)) c = None;
  qt_post : ∀ k l, sys_step members localCluster ut who (SPost k l) c = None;
  qt_publish : ∀ k kt l, sys_step members localCluster ut who (SPublish k kt l) c = None;
  qt_resume : ∀ l, sys_step members localCluster ut who (SResume l) c = None
}.

Lemma post_progress s m k n t :
  sys_inv (s, m) → kph (kts s k) = KSusp n → currentUT (kts s k) = ut t → ¬ sys_quiet (s, m).
Proof.
  intros HI Hk Hc HQ. pose proof HI as [[loc HL] HB HK].
  pose proof (li_kt _ _ _ HL k) as Hkt. unfold kt_cond in Hkt. simpl in Hkt. rewrite Hk in Hkt. destruct Hkt as (Hne & Hst & _).
  assert (Hs : suspended s (ut t)).
  { exists k. unfold awaiting. rewrite Hk, decide_True by done. congruence. }
  specialize (HK t). unfold linked in HK. simpl in HK.
  assert (Hph : phase_of m t = BSusp) by (destruct (phase_of m t); naive_solver).
  destruct (post_enabled m t HB Hph) as (l & m' & Hm & Ha).
  assert (Hp : posts ut s k t = true) by (unfold posts; rewrite Hk; by apply bool_decide_eq_true).
  destruct Ha as [Ea|Ea].
  - pose proof (qt_post _ HQ k l) as E. simpl in E. by rewrite Ea, Hp, Hm in E.
  - pose proof (qt_publish _ HQ k 0 l) as E. simpl in E. rewrite Ea, Hp, Hm in E. simpl in E.
    unfold switch_step in E. by rewrite Hk in E.
Qed.

Lemma quiet_stuck s m k : sys_inv (s, m) → sys_quiet (s, m) → stuck s k.
Proof.
  intros HI HQ. pose proof HI as [[loc HL] _ _].
  assert (Hal : ∀ kt, allowed who (LStep k kt) s m = true).
  { intros kt. simpl. destruct (kph (kts s k)) as [ | | | | | | |n| ] eqn:E; try done.
    destruct (who (currentUT (kts s k))) as [t|] eqn:Ew; [|done]. apply who_ut in Ew.
    exfalso. by eapply post_progress. }
  eapply switch_stuck; [exact HL|]. intros kt. pose proof (qt_switch _ HQ k kt) as E.
  unfold sys_step in E. rewrite Hal in E. simpl in E. by destruct (switch_step members k kt s).
Qed.

(** A uThread that was resumed or is in the middle of the component's code runs
    on a kThread, or waits for one whose uThread is in client code; one that is
    parked is owed nothing; none is between the two. *)
Lemma quiet_phase s m t :
  sys_inv (s, m) → sys_quiet (s, m) →
  match phase_of m t with
  | BRun => at_rest m t = false → running s (ut t)
  | BSusp => False
  | BParked => ∀ l m', bstep l m = Some m' → action_of l m ≠ AcResume t
  | BTaken => running s (ut t) ∨ ∃ k, ut t ∈ rq s k ∧ kph (kts s k) = KRun
  end.
Proof.
  intros HI HQ. pose proof HI as [HL HB HK]. specialize (HK t). unfold linked in HK. simpl in *.
  destruct (phase_of m t) eqn:E.
  - apply HK.
  - destruct HK as [[k Hk] _]. pose proof (quiet_stuck s m k HI HQ) as Hst. unfold awaiting in Hk.
    destruct Hst as [Ek|[Ek|[Ek _]]]; by rewrite Ek in Hk.
  - intros l m' Hm Ea. destruct (resume_effective s m l m' t HI Hm Ea) as [c Hc]. by rewrite (qt_resume _ HQ l) in Hc.
  - destruct HK as [HK _]. eapply (coming_quiet members localCluster); [done|done| | |].
    + intros b kt. pose proof (qt_ready _ HQ b kt) as Er. simpl in Er. by destruct (lstep _ _ (LReady b kt) s) eqn:El; simpl in *; rewrite El in Er.
    + intros b. pose proof (qt_push _ HQ b) as Er. simpl in Er. by destruct (lstep _ _ (LPush b) s) eqn:El; simpl in *; rewrite El in Er.
    + intros k. by eapply quiet_stuck.
Qed.
End agree.
