(* ===== verification/MutexSystem.v ===== *)
(** * Mutexes on kThreads

    Any number of [Mutex]es and [OwnerLock]s, each as modelled access by access
    in [Mutex], used by uThreads that are switched, queued, migrated and resumed
    on kThreads as modelled in [KThread]: the family of mutexes is an instance
    of [Blocking], and the theorems are about the composition.  A uThread is
    inside at most one mutex at a time, as its code is sequential; it may hold
    any number. *)

From stdpp Require Import functions.
From S2P Require Import Prelude UThread KThread Mutex Blocking.

(** ** One mutex *)

(** [internalAcquire] calls [bq.suspend(lock)]. *)
Definition acquire_blocks (ol : bool) (m : mutex) (t : nat) : bool :=
  bool_decide (owner m ≠ None ∧ (ol = false ∨ owner m ≠ Some t)).

(** [suspend] is called from [ABody]; [postSwitchFunc] pushes, and makes the
    uThread visible by unlocking the [std::mutex]. *)
Definition maction (ol : bool) (a : mlabel) (m : mutex) : action :=
  match a with
  | MAcquire t | MRelease t => AcRun t
  | MStep t =>
      match pcs m t with
      | ABody _ => if acquire_blocks ol m t then AcSuspend t else AcRun t
      | APush => AcPost t
      | AUnlockW => AcPublish t
      | _ => AcRun t
      end
  | MResume => match owner m with Some w => AcResume w | None => AcRun 0 end
  end.
Definition mphase (m : mutex) (t : nat) : bphase :=
  match pcs m t with
  | APush | AUnlockW => BSusp
  | AParked => if decide (t ∈ waiting m) then BParked else BTaken
  | _ => BRun
  end.
Definition mrest (m : mutex) (t : nat) : bool := match pcs m t with MOut _ => true | _ => false end.

(** A step concerns its uThread only. *)
Lemma internalRelease_frame t m u :
  u ≠ t → pcs (internalRelease t m) u = pcs m u ∧ waiting (internalRelease t m) = waiting m.
Proof. intros Hu. unfold internalRelease. destruct (bq m); simpl; by rewrite fn_lookup_insert_ne. Qed.

Lemma thread_frame ol t m m' u :
  thread_step ol t m = Some m' → u ≠ t → pcs m' u = pcs m u ∧ (u ∈ waiting m' ↔ u ∈ waiting m).
Proof.
  intros Hs Hu. unfold thread_step in Hs.
  assert (Hlk : ∀ p, lock_step t p m = Some m' → pcs m' u = pcs m u ∧ (u ∈ waiting m' ↔ u ∈ waiting m)).
  { intros p. unfold lock_step. destruct (lock m); [done|]. intros [= <-]. simpl. by rewrite fn_lookup_insert_ne. }
  destruct (pcs m t) eqn:E; simplify_eq; try (by eapply Hlk); try (simpl; by rewrite fn_lookup_insert_ne).
  - unfold acquire_body. case_match; simpl; rewrite fn_lookup_insert_ne by done; set_solver.
  - case_decide; simplify_eq/=. by rewrite fn_lookup_insert_ne.
  - unfold release_body. destruct ol; cbv zeta; [destruct (_ =? 0)%Z|].
    + match goal with |- context [internalRelease t ?x] => destruct (internalRelease_frame t x u Hu) as [-> ->] end. done.
    + simpl. by rewrite fn_lookup_insert_ne.
    + match goal with |- context [internalRelease t ?x] => destruct (internalRelease_frame t x u Hu) as [-> ->] end. done.
Qed.

Lemma mstep_frame ol a m m' u :
  minv ol m → mstep ol a m = Some m' → u ≠ actor (maction ol a m) →
  pcs m' u = pcs m u ∧ (u ∈ waiting m' ↔ u ∈ waiting m).
Proof.
  intros I Hs Hu. destruct a as [t|t|t|]; simpl in *.
  - destruct (pcs m t) eqn:E; try done. case_decide; simplify_eq/=. by rewrite fn_lookup_insert_ne.
  - destruct (pcs m t) as [[|d]| | | | | | | | | | | | ] eqn:E; simplify_eq/=. by rewrite fn_lookup_insert_ne.
  - eapply thread_frame; [done|]. destruct (pcs m t); simpl in *; try done. by destruct (acquire_blocks ol m t).
  - unfold resume_step in Hs. destruct (resumes m) eqn:Er; [done|]. destruct (owner m) as [w|] eqn:Eo; simplify_eq/=.
    + split; [done|]. set_solver.
    + done.
Qed.

Lemma mphase_frame ol a m m' u :
  minv ol m → mstep ol a m = Some m' → u ≠ actor (maction ol a m) → mphase m' u = mphase m u ∧ mrest m' u = mrest m u.
Proof.
  intros I Hs Hu. destruct (mstep_frame ol a m m' u I Hs Hu) as [E1 E2]. unfold mphase, mrest. rewrite E1.
  split; [|done]. destruct (pcs m u); try done. by apply decide_ext.
Qed.

(** What the step does to its own uThread. *)
Lemma release_body_pc ol t d m : ∃ p, pcs (release_body ol t d m) t = p ∧
  match p with RHandoff | RUnlock _ => True | _ => False end.
Proof.
  eexists. split; [done|]. unfold release_body, internalRelease.
  destruct ol; cbv zeta; [destruct (_ =? 0)%Z|]; simpl; try (destruct (bq m); simpl); by rewrite fn_lookup_insert.
Qed.
Lemma acquire_body_pc ol t d m :
  (acquire_blocks ol m t = true ∧ pcs (acquire_body ol t d m) t = APush) ∨
  (acquire_blocks ol m t = false ∧ pcs (acquire_body ol t d m) t = AUnlock d).
Proof.
  unfold acquire_body, acquire_blocks. simpl. destruct (bool_decide (owner m ≠ None ∧ _)); simpl;
    rewrite fn_lookup_insert; auto.
Qed.

Lemma mphase_actor ol a m m' :
  minv ol m → mstep ol a m = Some m' →
  match maction ol a m with
  | AcRun t => (mphase m t = BRun ∨ mphase m t = BTaken) ∧ mphase m' t = BRun
  | AcSuspend t => mphase m t = BRun ∧ mphase m' t = BSusp
  | AcPost t => mphase m t = BSusp ∧ mphase m' t = BSusp
  | AcPublish t => mphase m t = BSusp ∧ mphase m' t = BParked
  | AcResume w => mphase m w = BParked ∧ mphase m' w = BTaken
  end.
Proof.
  intros I Hs. destruct a as [t|t|t|]; simpl in *; unfold mphase.
  - destruct (pcs m t) eqn:E; try done. case_decide; simplify_eq/=. rewrite fn_lookup_insert. auto.
  - destruct (pcs m t) as [[|d]| | | | | | | | | | | | ] eqn:E; simplify_eq/=. rewrite fn_lookup_insert. auto.
  - unfold thread_step in Hs.
    assert (Hlk : ∀ p, lock_step t p m = Some m' → pcs m' t = p).
    { intros p. unfold lock_step. destruct (lock m); [done|]. intros [= <-]. simpl. by rewrite fn_lookup_insert. }
    destruct (pcs m t) eqn:E; simplify_eq; try (apply Hlk in Hs as ->; by rewrite E; auto);
      try (simpl; rewrite E, fn_lookup_insert; by (destruct ol; auto)).
    + destruct (acquire_body_pc ol t d m) as [[-> ->]|[-> ->]]; rewrite E; auto.
    + simpl. rewrite E, fn_lookup_insert. split; [done|]. rewrite decide_True; [done|].
      apply (i_wait _ _ I). right; left. apply (i_bq _ _ I). split; [auto|]. intros Ho.
      destruct (i_owner _ _ I t Ho) as [Hx|Hx]; rewrite E in Hx; done.
    + case_decide; simplify_eq/=. rewrite E, fn_lookup_insert, decide_False by done. destruct ol; auto.
    + destruct (release_body_pc ol t d m) as (p & Ep & Hp). rewrite E. split; [auto|]. rewrite Ep. by destruct p.
  - unfold resume_step in Hs. destruct (resumes m) as [|n] eqn:Er; [done|].
    destruct (i_hand _ _ I) as (w & Ho & Hw); [left; lia|]. rewrite Ho in *. simplify_eq/=. rewrite Hw.
    rewrite decide_True, decide_False; [done|set_solver|]. apply (i_wait _ _ I). right; right.
    split_and!; [done..|left; lia].
Qed.

Lemma mrest_actor ol a m m' u :
  minv ol m → mstep ol a m = Some m' →
  match a with
  | MAcquire t | MRelease t => mrest m t = true ∧ mrest m' t = false
  | MStep t => mrest m t = false
  | MResume => mrest m' u = mrest m u
  end.
Proof.
  intros I Hs. destruct a as [t|t|t|]; simpl in *; unfold mrest.
  - destruct (pcs m t) eqn:E; try done. case_decide; simplify_eq/=. by rewrite fn_lookup_insert.
  - destruct (pcs m t) as [[|d]| | | | | | | | | | | | ] eqn:E; simplify_eq/=. by rewrite fn_lookup_insert.
  - unfold thread_step in Hs. by destruct (pcs m t).
  - unfold resume_step in Hs. destruct (resumes m) as [|n] eqn:Er; [done|]. by destruct (owner m); simplify_eq/=.
Qed.

(** ** Any number of mutexes *)

(** Which of them are OwnerLocks. *)
Class LockKinds := kind : nat → bool.

Record msys := mkMsys {
  mx : nat → mutex;
  inside : nat → option nat     (* the mutex in whose code a uThread is *)
}.
Definition msys_init : msys := mkMsys (λ _, mutex_init) (λ _, None).

Section family.
Context `{LockKinds}.
Implicit Types (c : msys) (t i : nat).

Definition free_to_call (a : mlabel) c : bool :=
  match a with
  | MAcquire t | MRelease t => match inside c t with None => true | Some _ => false end
  | _ => true
  end.
Definition inside_after (i : nat) (a : mlabel) (m' : mutex) (f : nat → option nat) : nat → option nat :=
  match a with
  | MAcquire t | MRelease t => <[t := Some i]> f
  | MStep t => if mrest m' t then <[t := None]> f else f
  | MResume => f
  end.
Definition msys_step (l : nat * mlabel) c : option msys :=
  if free_to_call l.2 c then
    m' ← mstep (kind l.1) l.2 (mx c l.1);
    Some (mkMsys (<[l.1 := m']> (mx c)) (inside_after l.1 l.2 m' (inside c)))
  else None.

#[export] Instance msys_blocking : Blocking msys (nat * mlabel) := {
  bstep := msys_step;
  binit := msys_init;
  action_of l c := maction (kind l.1) l.2 (mx c l.1);
  phase_of c t := match inside c t with Some i => mphase (mx c i) t | None => BRun end;
  at_rest c t := match inside c t with Some _ => false | None => true end
}.

Record msys_inv c : Prop := {
  y_mutex : ∀ i, minv (kind i) (mx c i);
  y_inside : ∀ t i, inside c t = Some i ↔ mrest (mx c i) t = false
}.

Lemma msys_step_eq i a c c' :
  msys_step (i, a) c = Some c' →
  free_to_call a c = true ∧ ∃ m', mstep (kind i) a (mx c i) = Some m' ∧
    c' = mkMsys (<[i := m']> (mx c)) (inside_after i a m' (inside c)).
Proof.
  unfold msys_step. simpl. destruct (free_to_call a c); [|done]. intros (m' & Hm & [= <-])%bind_Some. eauto.
Qed.

(** The uThread of a step is inside the mutex, or at its door. *)
Lemma actor_inside i a c m' t :
  msys_inv c → free_to_call a c = true → mstep (kind i) a (mx c i) = Some m' →
  t = actor (maction (kind i) a (mx c i)) →
  (inside c t = Some i ∧ match a with MAcquire _ | MRelease _ => False | _ => True end) ∨
  (inside c t = None ∧ match a with MAcquire u | MRelease u => u = t | _ => False end).
Proof.
  intros [HM HN] Hf Hm ->. pose proof (mrest_actor (kind i) a (mx c i) m' 0 (HM i) Hm) as Hr.
  destruct a as [t|t|t|]; simpl in *.
  - right. by destruct (inside c t).
  - right. by destruct (inside c t).
  - left. split; [|done]. apply HN. destruct (pcs (mx c i) t) eqn:E; try done.
    destruct (acquire_blocks _ _ _); simpl; done.
  - left. split; [|done]. unfold resume_step in Hm. destruct (resumes (mx c i)) as [|n] eqn:Er; [done|].
    destruct (i_hand _ _ (HM i)) as (w & Ho & Hw); [left; lia|]. rewrite Ho. simpl. apply HN.
    unfold mrest. by rewrite Hw.
Qed.

Lemma maction_actor ol a m t :
  match a with MAcquire u | MRelease u | MStep u => u = t | MResume => False end → actor (maction ol a m) = t.
Proof. destruct a as [u|u|u|]; simpl; try done. intros <-. destruct (pcs m u); try done. by destruct (acquire_blocks _ _ _). Qed.

Lemma mrest_other ol a m m' u :
  minv ol m → mstep ol a m = Some m' →
  match a with MAcquire t | MRelease t | MStep t => u ≠ t | MResume => True end → mrest m' u = mrest m u.
Proof.
  intros I Hs Hu. destruct a as [t|t|t|]; try (eapply mphase_frame; [done..|]; by erewrite maction_actor).
  apply (mrest_actor ol MResume m m' u I Hs).
Qed.

Lemma msys_inv_init : msys_inv msys_init.
Proof. split; [intros i; apply minv_init|]. by intros t i. Qed.

Lemma msys_inv_step l c c' : msys_inv c → msys_step l c = Some c' → msys_inv c'.
Proof.
  destruct l as [i a]. intros I (Hf & m' & Hm & ->)%msys_step_eq. pose proof I as [HM HN].
  assert (I' : minv (kind i) m') by (by eapply minv_mstep).
  split; simpl.
  - intros j. destruct (decide (j = i)) as [->|]; by rewrite ?fn_lookup_insert, ?fn_lookup_insert_ne by done.
  - intros u j. pose proof (mrest_other (kind i) a (mx c i) m' u (HM i) Hm) as Ho.
    pose proof (mrest_actor (kind i) a (mx c i) m' u (HM i) Hm) as Ha.
    assert (Hsame : match a with MAcquire t | MRelease t | MStep t => u ≠ t | MResume => True end →
      inside_after i a m' (inside c) u = inside c u → inside_after i a m' (inside c) u = Some j ↔ mrest ((<[i := m']> (mx c)) j) u = false).
    { intros Hu ->. rewrite HN. destruct (decide (j = i)) as [->|]; [rewrite fn_lookup_insert, Ho by done|rewrite fn_lookup_insert_ne by done]; done. }
    assert (Hin : ∀ t, a = MAcquire t ∨ a = MRelease t → u = t → Some i = Some j ↔ mrest ((<[i := m']> (mx c)) j) t = false).
    { intros t Hat ->. assert (inside c t = None) as Hn by (destruct Hat as [->| ->]; simpl in Hf; by destruct (inside c t)).
      destruct (decide (j = i)) as [->|Hne]; [rewrite fn_lookup_insert|rewrite fn_lookup_insert_ne by done].
      - split; [|done]. intros _. destruct Hat as [->| ->]; by destruct Ha.
      - rewrite <- HN, Hn. naive_solver. }
    destruct a as [t|t|t|]; simpl in *; try (destruct (decide (u = t)) as [->|Hne]; [|apply Hsame; [done|]]).
    + rewrite fn_lookup_insert. by apply Hin; auto.
    + by rewrite fn_lookup_insert_ne.
    + rewrite fn_lookup_insert. by apply Hin; auto.
    + by rewrite fn_lookup_insert_ne.
    + apply HN in Ha. destruct (mrest m' t) eqn:Er; rewrite ?fn_lookup_insert.
      * split; [done|]. destruct (decide (j = i)) as [->|Hji]; [rewrite fn_lookup_insert; congruence|].
        rewrite fn_lookup_insert_ne by done. rewrite <- HN, Ha. naive_solver.
      * rewrite Ha. destruct (decide (j = i)) as [->|Hji]; [rewrite fn_lookup_insert; naive_solver|].
        rewrite fn_lookup_insert_ne by done. rewrite <- HN, Ha. naive_solver.
    + destruct (mrest m' t); [by rewrite fn_lookup_insert_ne|done].
    + by apply Hsame.
Qed.

Lemma inside_phase i a c m' t :
  msys_inv c → mstep (kind i) a (mx c i) = Some m' → t ≠ actor (maction (kind i) a (mx c i)) →
  inside_after i a m' (inside c) t = inside c t.
Proof.
  intros I Hm Ht. destruct a as [u|u|u|]; simpl; try done;
    (assert (t ≠ u) by (intros ->; apply Ht; symmetry; by apply maction_actor)).
  - by rewrite fn_lookup_insert_ne.
  - by rewrite fn_lookup_insert_ne.
  - destruct (mrest m' u); [by rewrite fn_lookup_insert_ne|done].
Qed.

Lemma msys_frame l c c' t :
  msys_inv c → bstep l c = Some c' → t ≠ actor (action_of l c) →
  phase_of c' t = phase_of c t ∧ at_rest c' t = at_rest c t.
Proof.
  destruct l as [i a]. intros I (Hf & m' & Hm & ->)%msys_step_eq Ht. simpl in *.
  rewrite (inside_phase i a c m' t I Hm Ht). destruct (inside c t) as [j|]; [|done]. split; [|done].
  destruct (decide (j = i)) as [->|]; [rewrite fn_lookup_insert|by rewrite fn_lookup_insert_ne].
  eapply mphase_frame; [by apply I|done|done].
Qed.

Lemma phase_at c i t :
  msys_inv c → inside c t = Some i ∨ inside c t = None → phase_of c t = mphase (mx c i) t.
Proof.
  intros I [E|E]; simpl; rewrite E; [done|]. unfold mphase. destruct (mrest (mx c i) t) eqn:Er.
  - unfold mrest in Er. by destruct (pcs (mx c i) t).
  - apply (y_inside _ I) in Er. congruence.
Qed.

Lemma actor_door i a c c' t :
  msys_inv c → msys_step (i, a) c = Some c' → t = actor (maction (kind i) a (mx c i)) →
  phase_of c t = mphase (mx c i) t ∧ phase_of c' t = mphase (mx c' i) t.
Proof.
  intros I Hs Ht. pose proof (msys_inv_step _ _ _ I Hs) as I'. apply msys_step_eq in Hs as (Hf & m' & Hm & ->).
  destruct (actor_inside i a c m' t I Hf Hm Ht) as [[E Ha]|[E Ha]].
  - split; apply phase_at; try done; [by left|]. simpl. unfold inside_after.
    destruct a as [u|u|u|]; try done; [|by left]. destruct (mrest m' u); [|by left].
    rewrite (maction_actor _ _ _ u) in Ht by done. subst u. rewrite fn_lookup_insert. by right.
  - split; apply phase_at; try done; [by right|]. simpl. unfold inside_after.
    destruct a as [u|u|u|]; try done; subst u; rewrite fn_lookup_insert; by left.
Qed.

#[export] Program Instance msys_laws : BlockingLaws msys (nat * mlabel) := {| binv := msys_inv |}.
Next Obligation. apply msys_inv_init. Qed.
Next Obligation. intros l c c'. apply msys_inv_step. Qed.
Next Obligation. done. Qed.
Next Obligation. intros c t _. simpl. by destruct (inside c t). Qed.
Next Obligation. intros l c c' t. apply msys_frame. Qed.
Next Obligation.
  intros [i a] c c' I Hs. pose proof Hs as (Hf & m' & Hm & Ec)%msys_step_eq.
  pose proof (mphase_actor (kind i) a (mx c i) m' (y_mutex _ I i) Hm) as Hp.
  pose proof (λ t, actor_door i a c c' t I Hs) as Hd. rewrite Ec in Hd. simpl mx in Hd. rewrite fn_lookup_insert in Hd.
  change (action_of (i, a) c) with (maction (kind i) a (mx c i)). rewrite Ec.
  destruct (maction (kind i) a (mx c i)) as [t|t|t|t|t]; simpl actor in Hd;
    destruct (Hd t eq_refl) as [-> ->]; exact Hp.
Qed.
Next Obligation.
  intros c t I Hp. simpl in Hp. destruct (inside c t) as [i|] eqn:E; [|done].
  unfold mphase in Hp. exists (i, MStep t). destruct (pcs (mx c i) t) eqn:Ep; try done.
  - eexists. unfold bstep. simpl. unfold msys_step. simpl. unfold thread_step. rewrite Ep. simpl. eauto.
  - eexists. unfold bstep. simpl. unfold msys_step. simpl. unfold thread_step. rewrite Ep. simpl. eauto.
  - by destruct (decide (t ∈ waiting (mx c i))).
Qed.
End family.

(** ** The system *)

Section system.
Context `{LockKinds}.
Context (members : nat → list nat) (localCluster : nat → nat)
        (nkt : nat) (mains : nat → addr) (initUT : addr).
Context (ut : nat → addr) (who : addr → option nat).
Hypothesis Hboot : boot members nkt mains initUT.
Hypothesis who_ut : ∀ a t, who a = Some t ↔ a = ut t.
Implicit Types (s : life) (t i k : nat).

Definition system_step : sys_label (nat * mlabel) → life * msys → option (life * msys) :=
  sys_step members localCluster ut who.
Definition system_init : life * msys := (life_init nkt mains initUT, msys_init).

Lemma system_inv c : reachable system_step system_init c → sys_inv members ut c.
Proof. intros Hr. by eapply (sys_inv_reachable members localCluster ut who who_ut). Qed.

Lemma cur_place s loc k t : linv_at members s loc → runs_on ut s k t → loc (ut t) = PCur k.
Proof.
  intros HI [Hk Hc]. pose proof (li_kt _ _ _ HI k) as Hkt. unfold kt_cond in Hkt. rewrite Hk in Hkt.
  destruct Hkt as [Hne _]. eapply placed_cur; [apply HI|]. unfold cur_at.
  rewrite Hk, decide_False by done. rewrite <- Hc. by apply list_elem_of_singleton.
Qed.

(** A step of its own that a uThread on a kThread can make is a step of the system. *)
Lemma run_enabled s m k i t m' :
  runs_on ut s k t → thread_step (kind i) t (mx m i) = Some m' → mphase (mx m i) t ≠ BSusp →
  is_Some (system_step (SRun k (i, MStep t)) (s, m)) ∨ is_Some (system_step (SSuspend k (i, MStep t)) (s, m)).
Proof.
  intros Hr Hs Hp. unfold system_step, sys_step.
  assert (Hb : bstep (i, MStep t) m =
    Some (mkMsys (<[i := m']> (mx m)) (inside_after i (MStep t) m' (inside m)))).
  { simpl. unfold msys_step. simpl. by rewrite Hs. }
  change (action_of (i, MStep t) m) with (maction (kind i) (MStep t) (mx m i)). rewrite Hb.
  unfold mphase in Hp. unfold maction.
  destruct (pcs (mx m i) t) eqn:E; try done; try (left; rewrite decide_True by done; simpl; by eauto).
  destruct (acquire_blocks (kind i) (mx m i) t); [right|left]; rewrite decide_True by done; simpl; [|by eauto].
  destruct Hr as [Hk _]. unfold suspend, leave. simpl. rewrite fn_lookup_insert. simpl. rewrite Hk. simpl. eauto.
Qed.

(** Only client code is left to run. *)
Record settled (c : life * msys) : Prop := {
  st_quiet : sys_quiet members localCluster ut who c;
  st_run : ∀ k i t, system_step (SRun k (i, MStep t)) c = None;
  st_suspend : ∀ k i t, system_step (SSuspend k (i, MStep t)) c = None
}.

Lemma settled_run s m k i t m' :
  settled (s, m) → runs_on ut s k t → thread_step (kind i) t (mx m i) = Some m' → mphase (mx m i) t ≠ BSusp → False.
Proof.
  intros HS Hr Hs Hp. destruct (run_enabled s m k i t m' Hr Hs Hp) as [[c Hc]|[c Hc]].
  - by rewrite (st_run _ HS) in Hc.
  - by rewrite (st_suspend _ HS) in Hc.
Qed.

Lemma inside_mphase s m i t :
  sys_inv members ut (s, m) → inside m t = Some i → settled (s, m) →
  match mphase (mx m i) t with
  | BRun => running s (ut t)
  | BSusp => False
  | BParked => resumes (mx m i) = 0
  | BTaken => running s (ut t) ∨ ∃ k, ut t ∈ rq s k ∧ kph (kts s k) = KRun
  end.
Proof.
  intros HI Hin HS. pose proof (quiet_phase members localCluster ut who who_ut s m t HI (st_quiet _ HS)) as Hq.
  simpl in Hq. rewrite Hin in Hq. destruct (mphase (mx m i) t) eqn:E; auto.
  pose proof (y_mutex _ (s_comp _ _ _ HI) i) as I. simpl in I. destruct (resumes (mx m i)) as [|n] eqn:Er; [done|exfalso].
  destruct (i_hand _ _ I) as (w & Ho & Hw); [left; lia|].
  destruct (resume_effective members localCluster ut who s m (i, MResume)
    (mkMsys (<[i := set_waiting (waiting (mx m i) ∖ {[w]}) (set_resumes n (mx m i))]> (mx m)) (inside m)) w HI) as [c Hc].
  - simpl. unfold msys_step. simpl. unfold resume_step. by rewrite Er, Ho.
  - simpl. by rewrite Ho.
  - by rewrite (qt_resume _ _ _ _ _ (st_quiet _ HS)) in Hc.
Qed.

(** Nobody holds the [std::mutex] inside. *)
Lemma settled_unlocked s m i : sys_inv members ut (s, m) → settled (s, m) → lock (mx m i) = None.
Proof.
  intros HI HS. pose proof (s_comp _ _ _ HI) as I. simpl in I. destruct (lock (mx m i)) as [v|] eqn:El; [exfalso|done].
  apply (i_lock _ _ (y_mutex _ I i)) in El.
  assert (Hin : inside m v = Some i).
  { apply (y_inside _ I). unfold mrest. by destruct (pcs (mx m i) v). }
  pose proof (inside_mphase s m i v HI Hin HS) as Hp.
  assert (Hrun : running s (ut v) ∧ mphase (mx m i) v ≠ BSusp).
  { unfold mphase in *. destruct (pcs (mx m i) v); done. }
  destruct Hrun as [(k & Hk & Hc) Hns].
  assert (∃ m', thread_step (kind i) v (mx m i) = Some m') as [m' Hs].
  { unfold thread_step. destruct (pcs (mx m i) v); try done; eauto. }
  by apply (settled_run s m k i v m' HS).
Qed.

(** No uThread on a kThread is in the code of a mutex. *)
Lemma settled_not_running s m i t :
  sys_inv members ut (s, m) → settled (s, m) → inside m t = Some i → ¬ running s (ut t).
Proof.
  intros HI HS Hin Hr. pose proof (running_phase members ut s m t HI Hr) as Hp. simpl in Hp. rewrite Hin in Hp.
  pose proof (settled_unlocked s m i HI HS) as Hl. destruct Hr as (k & Hk & Hc).
  assert (∃ m', thread_step (kind i) t (mx m i) = Some m') as [m' Hs].
  { pose proof (proj1 (y_inside _ (s_comp _ _ _ HI) t i) Hin) as Hrest. simpl in Hrest.
    unfold thread_step, lock_step, mrest, mphase in *. rewrite Hl.
    destruct (pcs (mx m i) t); try done; eauto. case_decide; [by destruct Hp|eauto]. }
  apply (settled_run s m k i t m' HS); [done|done|]. by destruct Hp as [-> | ->].
Qed.

(** ** Theorems *)

(** C5. Mutexes and the life cycle fit together: however the uThreads are
    switched, migrated and resumed, no context switch and no assertion fails and
    no resume is ignored; the resume that a release owes finds its uThread
    switched out and visible, so that it takes effect; a uThread that comes back
    from a suspension inside acquire owns the mutex and goes on; and two kThreads
    never run uThreads that hold the same mutex. *)
Theorem system_mutex_safe s m :
  reachable system_step system_init (s, m) →
  faulty s = false ∧ dropped s = [] ∧ (∀ i, failed (mx m i) = false) ∧
  (∀ i, 0 < resumes (mx m i) → is_Some (system_step (SResume (i, MResume)) (s, m))) ∧
  (∀ i k t, runs_on ut s k t → pcs (mx m i) t = AParked →
     owner (mx m i) = Some t ∧ is_Some (system_step (SRun k (i, MStep t)) (s, m))) ∧
  (∀ i k k' t t', runs_on ut s k t → runs_on ut s k' t' →
     0 < depth (pcs (mx m i) t) → 0 < depth (pcs (mx m i) t') → k = k').
Proof.
  intros HI%system_inv. pose proof HI as [[loc HL] [HM HN] _]. simpl in *. split_and!; try apply HL.
  - intros i. apply (i_ok _ _ (HM i)).
  - intros i Hr. destruct (resumes (mx m i)) as [|n] eqn:Er; [lia|].
    destruct (i_hand _ _ (HM i)) as (w & Ho & _); [left; lia|].
    eapply (resume_effective members localCluster ut who s m (i, MResume) _ w HI); simpl; [|by rewrite Ho].
    unfold msys_step. simpl. unfold resume_step. by rewrite Er, Ho.
  - intros i k t Hr Hp. assert (Hin : inside m t = Some i) by (apply HN; unfold mrest; by rewrite Hp).
    assert (Hw : t ∉ waiting (mx m i)).
    { destruct (running_phase members ut s m t HI) as [E|E]; [by exists k| |];
        simpl in E; rewrite Hin in E; unfold mphase in E; rewrite Hp in E; by case_decide. }
    split.
    + destruct (decide (owner (mx m i) = Some t)) as [|Hne]; [done|]. destruct Hw.
      apply (i_wait _ _ (HM i)). right; left. apply (i_bq _ _ (HM i)). auto.
    + unfold system_step, sys_step. change (action_of (i, MStep t) m) with (maction (kind i) (MStep t) (mx m i)).
      unfold maction. rewrite Hp, decide_True by done. simpl. unfold msys_step. simpl. unfold thread_step.
      rewrite Hp, decide_False by done. simpl. eauto.
  - intros i k k' t t' Hr Hr' Hd Hd'.
    assert (Ho : ∀ v, 0 < depth (pcs (mx m i) v) → owner (mx m i) = Some v).
    { intros v Hv. apply (i_owns _ _ (HM i)). apply Nat.ltb_lt in Hv. by destruct (pcs (mx m i) v). }
    assert (t = t') as <- by (apply Ho in Hd, Hd'; congruence).
    apply (cur_place s loc) in Hr, Hr'; [congruence|done..].
Qed.

Lemma settled_inside s m i t :
  sys_inv members ut (s, m) → settled (s, m) → inside m t = Some i →
  (∃ k, ut t ∈ rq s k ∧ kph (kts s k) = KRun) ∨
  (t ∈ bq (mx m i) ∧ ut t ∈ published s ∧ ∃ o, owner (mx m i) = Some o ∧ o ≠ t).
Proof.
  intros HI HS Hin. pose proof (settled_not_running s m i t HI HS Hin) as Hnr.
  pose proof (inside_mphase s m i t HI Hin HS) as Hp. pose proof (s_link _ _ _ HI t) as Hl.
  unfold linked in Hl. simpl in Hl. rewrite Hin in Hl. pose proof HI as [_ [HM _] _]. simpl in HM. specialize (HM i).
  destruct (mphase (mx m i) t) eqn:E; [done|done| |left; by destruct Hp]. right.
  unfold mphase in E. destruct (pcs (mx m i) t) eqn:Epc; try done. case_decide as Hw; [|done].
  assert (Hbq : t ∈ bq (mx m i)).
  { apply (i_wait _ _ HM) in Hw as [?|[?|(_ & _ & Hh)]]; [congruence|done|exfalso].
    destruct Hh as [Hh|[u Hu]]; [lia|].
    assert (lock (mx m i) = Some u) by (apply (i_lock _ _ HM); by rewrite Hu).
    by rewrite (settled_unlocked s m i HI HS) in *. }
  split_and!; [done|by apply Hl|]. apply (i_bq _ _ HM) in Hbq as Hbq'. destruct Hbq' as [_ Hno].
  destruct (owner (mx m i)) as [o|] eqn:Eo; [exists o; split; [done|congruence]|].
  destruct (i_free _ _ HM Eo) as [Hq _]. rewrite Hq in Hbq. by apply not_elem_of_nil in Hbq.
Qed.

(** C13. No wake-up is lost in the whole system: when only client code is left to
    run, a uThread that is inside acquire or release has been woken and waits for
    a kThread that is busy with client code, or is blocked, queued at the mutex
    and visible to a resume, while another uThread owns the mutex. *)
Theorem system_quiescent s m t i :
  reachable system_step system_init (s, m) → settled (s, m) → inside m t = Some i →
  (∃ k, ut t ∈ rq s k ∧ kph (kts s k) = KRun) ∨
  (t ∈ bq (mx m i) ∧ ut t ∈ published s ∧ ∃ o, owner (mx m i) = Some o ∧ o ≠ t).
Proof. intros HI%system_inv. by apply settled_inside. Qed.

(** C6. No deadlock: if uThreads that block acquire mutexes in increasing order,
    and the kThreads have all run out of work, then a uThread is blocked only
    because some uThread went back to client code, and waits there or ended,
    without releasing a mutex. *)
Theorem system_no_deadlock N s m t i :
  reachable system_step system_init (s, m) → settled (s, m) → (∀ k, kph (kts s k) ≠ KRun) →
  (∀ u j l, u ∈ bq (mx m j) → owner (mx m l) = Some u → l < j) →
  (∀ u j, inside m u = Some j → j < N) →
  inside m t = Some i →
  ∃ j o, i ≤ j ∧ owner (mx m j) = Some o ∧ inside m o = None.
Proof.
  intros HI%system_inv HS Hidle Hord HN. remember (N - i) as n eqn:En. revert i t En.
  induction n as [n IH] using lt_wf_ind. intros i t En Hin. pose proof (HN t i Hin) as Hi.
  destruct (settled_inside s m i t HI HS Hin) as [(k & _ & Hk)|(_ & _ & o & Ho & _)]; [by destruct (Hidle k)|].
  destruct (inside m o) as [j|] eqn:Ej; [|by exists i, o].
  pose proof (HN o j Ej) as Hj.
  destruct (settled_inside s m j o HI HS Ej) as [(k & _ & Hk)|(Hb & _)]; [by destruct (Hidle k)|].
  pose proof (Hord o j i Hb Ho) as Hij. destruct (IH (N - j) ltac:(lia) j o eq_refl Ej) as (j' & o' & ? & ? & ?).
  exists j', o'. split; [lia|done].
Qed.
End system.

(** ** A run *)

(** When every kThread sleeps and no resume is under way, nothing is left to do. *)
Lemma asleep_settled `{LockKinds} members localCluster ut who (s : life) (m : msys) :
  (∀ k, kph (kts s k) = KOff ∨ kph (kts s k) = KMain ∧ rq s k = []) →
  resuming s = [] → pushing s = [] → (∀ i, resumes (mx m i) = 0) →
  settled members localCluster ut who (s, m).
Proof.
  intros Hk Hres Hpush Hr.
  assert (Hrun : ∀ k t, ¬ runs_on ut s k t) by (intros k t [E _]; destruct (Hk k) as [|[? _]]; congruence).
  assert (Hpost : ∀ k t, posts ut s k t = false).
  { intros k t. unfold posts. by destruct (Hk k) as [->|[-> _]]. }
  split; [split|..].
  - intros b kt. simpl. rewrite Hres. by rewrite decide_False by apply not_elem_of_nil.
  - intros b. simpl. rewrite Hpush. by rewrite decide_False by apply not_elem_of_nil.
  - intros k kt. unfold sys_step, lstep. destruct (allowed _ _ _ _); [|done]. unfold switch_step, blockingSwitch.
    by destruct (Hk k) as [->|[-> ->]].
  - intros k l. unfold sys_step. destruct (action_of l m); try done. by rewrite Hpost.
  - intros k kt l. unfold sys_step. destruct (action_of l m); try done. by rewrite Hpost.
  - intros [i a]. unfold sys_step. destruct (action_of (i, a) m) as [ | | | |w] eqn:Ea; try done. simpl in Ea.
    assert (a = MResume) as ->.
    { destruct a as [t|t|t|]; simpl in Ea; try done. destruct (pcs (mx m i) t); try done. by destruct (acquire_blocks _ _ _). }
    simpl. unfold msys_step. simpl. unfold resume_step. by rewrite Hr.
  - intros k i t. unfold system_step, sys_step. destruct (action_of _ m); try done. by rewrite decide_False.
  - intros k i t. unfold system_step, sys_step. destruct (action_of _ m); try done. by rewrite decide_False.
Qed.

#[local] Instance all_mutexes : LockKinds := λ _, false.
Definition demo_ut (t : nat) : addr := Z.of_nat (1000 + t).
Definition demo_who (a : addr) : option nat := if decide (1000 <= a)%Z then Some (Z.to_nat (a - 1000)) else None.
Lemma demo_who_ut a t : demo_who a = Some t ↔ a = demo_ut t.
Proof.
  unfold demo_who, demo_ut. split.
  - case_decide; [|done]. intros [= <-]. lia.
  - intros ->. rewrite decide_True by lia. f_equal. lia.
Qed.

(** Two uThreads on kThread 1: the first ends without releasing mutex 0, the
    second blocks on it; main() ends. *)
Definition demo_system : list (sys_label (nat * mlabel)) :=
  (SLife <$> [LCreate 1000; LStart 1000 1; LReady 1000 1; LPush 1000; LCreate 1001; LStart 1001 1; LReady 1001 1; LPush 1001]
             ++ repeat (LStep 1 0) 4)
  ++ [SRun 1 (0, MAcquire 0); SRun 1 (0, MStep 0); SRun 1 (0, MStep 0); SRun 1 (0, MStep 0)]
  ++ (SLife <$> LTerminate 1 :: repeat (LStep 1 0) 4)
  ++ [SRun 1 (0, MAcquire 1); SRun 1 (0, MStep 1); SSuspend 1 (0, MStep 1)]
  ++ (SLife <$> repeat (LStep 1 0) 3)
  ++ [SPost 1 (0, MStep 1); SPublish 1 0 (0, MStep 1)]
  ++ (SLife <$> [LStep 1 0; LTerminate 0] ++ repeat (LStep 0 0) 4).
Definition demo_system_init : life * msys := system_init 2 (λ k, Z.of_nat (100 + k)) 7.
Definition demo_system_step : sys_label (nat * mlabel) → life * msys → option (life * msys) :=
  system_step demo_members (λ k, k) demo_ut demo_who.
Definition demo_c (n : nat) : life * msys :=
  default demo_system_init (run demo_system_step (take n demo_system) demo_system_init).

Lemma demo_c_reachable n :
  match run demo_system_step (take n demo_system) demo_system_init with Some _ => true | None => false end = true →
  reachable demo_system_step demo_system_init ((demo_c n).1, (demo_c n).2).
Proof. intros Hn. rewrite <- surjective_pairing. by apply reachable_default. Qed.

Lemma system_mutex_safe_witness :
  runs_on demo_ut (demo_c 16).1 1 0 ∧ depth (pcs (mx (demo_c 16).2 0) 0) = 1 ∧
  faulty (demo_c 16).1 = false ∧ failed (mx (demo_c 16).2 0) = false.
Proof.
  destruct (system_mutex_safe demo_members (λ k, k) 2 (λ k, Z.of_nat (100 + k)) 7 demo_ut demo_who demo_boot
              demo_who_ut (demo_c 16).1 (demo_c 16).2) as (Hf & _ & Hm & _);
    [apply demo_c_reachable; vm_compute; reflexivity|].
  split_and!; [split; vm_compute; reflexivity|vm_compute; reflexivity|exact Hf|apply Hm].
Defined.

Lemma demo_settled : settled demo_members (λ k, k) demo_ut demo_who ((demo_c 35).1, (demo_c 35).2).
Proof.
  apply asleep_settled; [|vm_compute; reflexivity..|].
  - intros [|[|k]]; [right|right|left]; [split; vm_compute; reflexivity..|vm_compute; reflexivity].
  - intros [|i]; vm_compute; reflexivity.
Qed.

Lemma system_quiescent_witness :
  inside (demo_c 35).2 1 = Some 0 ∧
  ((∃ k, demo_ut 1 ∈ rq (demo_c 35).1 k ∧ kph (kts (demo_c 35).1 k) = KRun) ∨
   (1 ∈ bq (mx (demo_c 35).2 0) ∧ demo_ut 1 ∈ published (demo_c 35).1 ∧
    ∃ o, owner (mx (demo_c 35).2 0) = Some o ∧ o ≠ 1)).
Proof.
  assert (Hin : inside (demo_c 35).2 1 = Some 0) by (vm_compute; reflexivity). split; [exact Hin|].
  apply (system_quiescent demo_members (λ k, k) 2 (λ k, Z.of_nat (100 + k)) 7 demo_ut demo_who demo_boot demo_who_ut);
    [apply demo_c_reachable; vm_compute; reflexivity|apply demo_settled|exact Hin].
Defined.

Lemma system_no_deadlock_witness :
  inside (demo_c 35).2 1 = Some 0 ∧
  ∃ j o, 0 ≤ j ∧ owner (mx (demo_c 35).2 j) = Some o ∧ inside (demo_c 35).2 o = None.
Proof.
  assert (Hin : inside (demo_c 35).2 1 = Some 0) by (vm_compute; reflexivity). split; [exact Hin|].
  apply (system_no_deadlock demo_members (λ k, k) 2 (λ k, Z.of_nat (100 + k)) 7 demo_ut demo_who demo_boot demo_who_ut
           1 (demo_c 35).1 (demo_c 35).2 1 0);
    [apply demo_c_reachable; vm_compute; reflexivity|apply demo_settled| | | |exact Hin].
  - intros [|[|k]]; by vm_compute.
  - intros u [|j] l Hb Ho.
    + assert (Hu : u = 1) by (by apply list_elem_of_singleton in Hb). destruct l as [|l]; [|vm_compute in Ho; discriminate Ho].
      vm_compute in Ho. congruence.
    + exfalso. vm_compute in Hb. by apply not_elem_of_nil in Hb.
  - intros [|[|u]] j; vm_compute; intros E; try discriminate E. injection E as <-. constructor.
Defined.
