(* ===== verification/ConditionVariable.v ===== *)
(** * ConditionVariable

    [class ConditionVariable] of [src/runtime/BlockingSync.h] with the
    operations of [BlockingQueue] it uses ([suspend(Mutex&)], [signal(Mutex&)]
    and [signalAll(Mutex&)] of [src/runtime/BlockingSync.cpp]), a mutex and any
    number of uThreads that use both.  The mutex is the specification
    [amutex]; [signal] and [signalAll] release it, [wait] takes it again. *)

From stdpp Require Import functions.
From S2P Require Import Prelude Mutex MutexClient WaitQueue.

Inductive vpc : Type :=
  | KIdle                 (* client code, without the mutex *)
  | KAcq | KBlk           (* mutex.acquire() *)
  | KHeld                 (* client code, holding the mutex *)
  | KRel                  (* mutex.release() *)
  (* wait(mutex) *)
  | WPush                 (* bq.suspend(mutex), postSwitchFunc: push_back *)
  | WUnl                  (*   mutex.unlock() *)
  | WPark                 (* switched out *)
  | WAcq | WBlk           (* mutex.acquire() *)
  (* signal(mutex) *)
  | GBody                 (* bq.signal(mutex): the test of the queue, pop_front *)
  | GSig (w : nat)        (*   mutex.release() *)
  | GRes (w : nat)        (*   owner->resume() *)
  | GRel                  (* no waiter: mutex.release() *)
  (* signalAll(mutex) *)
  | LBody                 (* the test of the loop, remove *)
  | LRes (w : nat)        (* ut->resume() *)
  | LRel.                 (* mutex.release() *)

Record cvar := mkCvar {
  cmx : amutex;
  cbq : list nat;
  cwait : gset nat;       (* the uThreads that are WAITING on the variable *)
  vpcs : nat → vpc;
  carr : list nat;        (* ghost: the uThreads in the order they waited *)
  csig : list nat;        (* ghost: in the order they were signalled *)
  cret : list nat         (* ghost: the uThreads that ran again after a wait *)
}.

#[export] Instance vpc_eq_dec : EqDecision vpc.
Proof. solve_decision. Defined.

Definition cvar_init : cvar := mkCvar amutex_init [] ∅ (λ _, KIdle) [] [] [].

Inductive vlabel : Type :=
  | VAcquire (t : nat)        (* calls: mutex.acquire(), from outside *)
  | VRelease (t : nat)        (* mutex.release(), by the holder *)
  | VWait (t : nat)           (* wait(mutex), by the holder *)
  | VSignal (t : nat)         (* signal(mutex), by the holder *)
  | VSignalAll (t : nat)      (* signalAll(mutex), by the holder *)
  | VStep (t : nat).

Definition cv_pc (t : nat) (p : vpc) (s : cvar) : cvar :=
  mkCvar (cmx s) (cbq s) (cwait s) (<[t := p]> (vpcs s)) (carr s) (csig s) (cret s).
Definition cv_mx (m : amutex) (s : cvar) : cvar :=
  mkCvar m (cbq s) (cwait s) (vpcs s) (carr s) (csig s) (cret s).

Definition cv_acquire (t : nat) (body blocked : vpc) (s : cvar) : option cvar :=
  m ← astep (AEnter t) (cmx s);
  Some (cv_pc t (if decide (aowner m = Some t) then body else blocked) (cv_mx m s)).
Definition cv_granted (t : nat) (body : vpc) (s : cvar) : option cvar :=
  if decide (aowner (cmx s) = Some t) then Some (cv_pc t body s) else None.
(** A release by a uThread that does not own the mutex, which a debugging build
    asserts against, is no step. *)
Definition cv_release (t : nat) (p : vpc) (s : cvar) : option cvar :=
  m ← astep (ALeave t) (cmx s); Some (cv_pc t p (cv_mx m s)).

(** [wait]: [bq.suspend(mutex)] makes the uThread WAITING and switches. *)
Definition wait_suspend (t : nat) (s : cvar) : cvar :=
  mkCvar (cmx s) (cbq s) ({[t]} ∪ cwait s) (<[t := WPush]> (vpcs s)) (carr s) (csig s) (cret s).
Definition wait_push (t : nat) (s : cvar) : cvar :=
  mkCvar (cmx s) (cbq s ++ [t]) (cwait s) (<[t := WUnl]> (vpcs s)) (carr s ++ [t]) (csig s) (cret s).
Definition wait_woken (t : nat) (s : cvar) : cvar :=
  mkCvar (cmx s) (cbq s) (cwait s) (<[t := WAcq]> (vpcs s)) (carr s) (csig s) (cret s ++ [t]).

(** The head of the queue is taken off; [p] is where the caller goes on with
    it, [none] where it goes on with an empty queue. *)
Definition cv_take (t : nat) (p : nat → vpc) (none : vpc) (s : cvar) : cvar :=
  match cbq s with
  | w :: r => mkCvar (cmx s) r (cwait s) (<[t := p w]> (vpcs s)) (carr s) (csig s ++ [w]) (cret s)
  | [] => cv_pc t none s
  end.
Definition cv_resume (t w : nat) (p : vpc) (s : cvar) : cvar :=
  mkCvar (cmx s) (cbq s) (cwait s ∖ {[w]}) (<[t := p]> (vpcs s)) (carr s) (csig s) (cret s).

Definition cv_step (t : nat) (s : cvar) : option cvar :=
  match vpcs s t with
  | KIdle | KHeld => None
  | KAcq => cv_acquire t KHeld KBlk s
  | KBlk => cv_granted t KHeld s
  | KRel => cv_release t KIdle s
  | WPush => Some (wait_push t s)
  | WUnl => cv_release t WPark s
  | WPark => if decide (t ∈ cwait s) then None else Some (wait_woken t s)
  | WAcq => cv_acquire t KHeld WBlk s
  | WBlk => cv_granted t KHeld s
  | GBody => Some (cv_take t GSig GRel s)
  | GSig w => cv_release t (GRes w) s
  | GRes w => Some (cv_resume t w KIdle s)
  | GRel => cv_release t KIdle s
  | LBody => Some (cv_take t LRes LRel s)
  | LRes w => Some (cv_resume t w LBody s)
  | LRel => cv_release t KIdle s
  end.

Definition vstep (a : vlabel) (s : cvar) : option cvar :=
  match a with
  | VAcquire t => match vpcs s t with KIdle => Some (cv_pc t KAcq s) | _ => None end
  | VRelease t => match vpcs s t with KHeld => Some (cv_pc t KRel s) | _ => None end
  | VWait t => match vpcs s t with KHeld => Some (wait_suspend t s) | _ => None end
  | VSignal t => match vpcs s t with KHeld => Some (cv_pc t GBody s) | _ => None end
  | VSignalAll t => match vpcs s t with KHeld => Some (cv_pc t LBody s) | _ => None end
  | VStep t => cv_step t s
  end.

(** ** The invariant *)

Definition cv_crit (p : vpc) : bool :=
  match p with
  | KHeld | KRel | WPush | WUnl | GBody | GSig _ | GRel | LBody | LRes _ | LRel => true
  | _ => false
  end.
Definition cv_blk (p : vpc) : bool := match p with KBlk | WBlk => true | _ => false end.
Definition cv_role (p : vpc) : wrole :=
  match p with
  | WPush => RPush | WUnl => RUnl | WPark => RPark | GSig w | GRes w | LRes w => RSig w
  | _ => RNone
  end.
Lemma cv_crit_blk p : cv_crit p = true → cv_blk p = false.
Proof. by destruct p. Qed.
#[export] Instance cv_client : MutexClient vpc :=
  {| crit := cv_crit; blk := cv_blk; crit_blk := cv_crit_blk |}.
Lemma cv_push_crit p : cv_role p = RPush → crit p = true.
Proof. by destruct p. Qed.
Lemma cv_unl_crit p : cv_role p = RUnl → crit p = true.
Proof. by destruct p. Qed.
#[export] Instance cv_waits : WaitClient vpc :=
  {| role := cv_role; push_crit := cv_push_crit; unl_crit := cv_unl_crit |}.

Record vinv (s : cvar) : Prop := {
  v_mx : mx_ok (cmx s) (vpcs s);
  v_wq : wq_ok (cbq s) (cwait s) (vpcs s);
  v_fifo : carr s = csig s ++ cbq s;
  v_all : (∃ t, vpcs s t = LRel) → cbq s = [];
  v_ret : ∃ pend, csig s ≡ₚ cret s ++ pend ∧ NoDup pend ∧
            ∀ t, t ∈ pend ↔ vpcs s t = WPark ∧ t ∉ cbq s
}.

Section vinv.
Implicit Types (s : cvar) (t u w : nat).

Lemma vinv_init : vinv cvar_init.
Proof.
  constructor; simpl; try done.
  - by apply mx_ok_init.
  - by apply wq_ok_init.
  - exists []. split_and!; [done|constructor|]. intros t.
    split; [intros Ht; by apply not_elem_of_nil in Ht|by intros [? _]].
Qed.

(** A step of [t] that signals nobody and wakes nobody. *)
Lemma vinv_quiet s s' t p :
  vinv s → vpcs s' = <[t := p]> (vpcs s) → csig s' = csig s → cret s' = cret s →
  (∀ u, u ≠ t → u ∈ cbq s' ↔ u ∈ cbq s) →
  (vpcs s t = WPark ∧ t ∉ cbq s ↔ p = WPark ∧ t ∉ cbq s') →
  ∃ pend, csig s' ≡ₚ cret s' ++ pend ∧ NoDup pend ∧
    ∀ u, u ∈ pend ↔ vpcs s' u = WPark ∧ u ∉ cbq s'.
Proof.
  intros I Ep Es Er Hq Ht. destruct (v_ret _ I) as (pend & Hp & Hnd & Hin).
  exists pend. rewrite Es, Er. split_and!; try done. intros u. rewrite Hin, Ep.
  pc_cases u t; [done|]. by rewrite Hq.
Qed.

(** [LRel] is reached with the mutex held and an empty queue. *)
Lemma vinv_all s t p :
  vinv s → (p = LRel → cbq s = []) → (∃ u, (<[t := p]> (vpcs s)) u = LRel) → cbq s = [].
Proof.
  intros I Hp [u Hu]. pc_cases u t; [auto|]. apply (v_all _ I). eauto.
Qed.

(** A step of [t] that touches only its program counter and the mutex. *)
Lemma vinv_pc s t p m :
  vinv s → role p = role (vpcs s t) → mx_ok m (<[t := p]> (vpcs s)) →
  (p = LRel → cbq s = []) → vinv (cv_pc t p (cv_mx m s)).
Proof.
  intros I Hr Hm Hl. constructor; simpl.
  - done.
  - apply wq_ok_stay; [apply I|done].
  - apply I.
  - by apply vinv_all.
  - apply (vinv_quiet s (cv_pc t p (cv_mx m s)) t p); try done. simpl.
    destruct p, (vpcs s t); try done; naive_solver.
Qed.

Lemma vinv_acquire s t body blocked s' :
  vinv s → crit (vpcs s t) = false → blk (vpcs s t) = false → role (vpcs s t) = RNone →
  crit body = true → blk blocked = true → role body = RNone → role blocked = RNone →
  body ≠ LRel → blocked ≠ LRel →
  cv_acquire t body blocked s = Some s' → vinv s'.
Proof.
  intros I Hc Hb Hr Hc1 Hb2 Hr1 Hr2 Hl1 Hl2 Hs. unfold cv_acquire in Hs.
  destruct (astep (AEnter t) (cmx s)) as [m|] eqn:Hm; simplify_eq/=.
  apply vinv_pc; auto.
  - transitivity RNone; [by destruct (decide _)|done].
  - eapply mx_ok_enter; [apply I|done..| |]; intros Ho; by destruct (decide _).
  - by destruct (decide _).
Qed.

Lemma vinv_granted s t body s' :
  vinv s → blk (vpcs s t) = true → role (vpcs s t) = RNone →
  crit body = true → role body = RNone → body ≠ LRel →
  cv_granted t body s = Some s' → vinv s'.
Proof.
  intros I Hb Hr Hc1 Hr1 Hl Hs. unfold cv_granted in Hs. case_decide; simplify_eq.
  replace s with (cv_mx (cmx s) s) at 1 by by destruct s.
  apply vinv_pc; [done|congruence| |done]. by apply mx_ok_granted; [apply I|..].
Qed.

Lemma vinv_release s t p s' :
  vinv s → crit (vpcs s t) = true → role p = role (vpcs s t) → crit p = false → blk p = false →
  cv_release t p s = Some s' → vinv s'.
Proof.
  intros I Hc Hr Hcp Hbp Hs. unfold cv_release in Hs.
  destruct (astep (ALeave t) (cmx s)) as [m|] eqn:Hm; simplify_eq/=.
  apply vinv_pc; try done; [by eapply mx_ok_leave; [apply I|..]|by intros ->].
Qed.

(** Client calls and loop steps that stay in the critical section. *)
Lemma vinv_stay s t p :
  vinv s → crit p = crit (vpcs s t) → blk p = blk (vpcs s t) → role p = role (vpcs s t) →
  (p = LRel → cbq s = []) → vinv (cv_pc t p s).
Proof.
  intros I Hc Hb Hr Hl. replace s with (cv_mx (cmx s) s) by by destruct s.
  apply vinv_pc; try done. by apply mx_ok_stay; [apply I|..].
Qed.

Lemma vinv_suspend s t : vinv s → vpcs s t = KHeld → vinv (wait_suspend t s).
Proof.
  intros I Ht. constructor; simpl.
  - apply mx_ok_stay; [apply I|..]; by rewrite Ht.
  - apply wq_ok_suspend; [apply I|by rewrite Ht|done].
  - apply I.
  - by apply vinv_all.
  - apply (vinv_quiet s (wait_suspend t s) t WPush); try done. rewrite Ht. naive_solver.
Qed.

Lemma vinv_push s t : vinv s → vpcs s t = WPush → vinv (wait_push t s).
Proof.
  intros I Ht. constructor; simpl.
  - apply mx_ok_stay; [apply I|..]; by rewrite Ht.
  - apply wq_ok_push; [apply I|by rewrite Ht|done].
  - rewrite (v_fifo _ I). by rewrite app_assoc.
  - intros [u Hu]. pc_cases u t; [done|]. exfalso.
    assert (u = t) by (eapply mx_unique; [apply (v_mx _ I)|by rewrite Hu|by rewrite Ht]). done.
  - apply (vinv_quiet s (wait_push t s) t WUnl); try done.
    + intros u Hu. simpl. set_solver.
    + rewrite Ht. naive_solver.
Qed.

Lemma vinv_park s t s' :
  vinv s → vpcs s t = WUnl → cv_release t WPark s = Some s' → vinv s'.
Proof.
  intros I Ht Hs. unfold cv_release in Hs.
  destruct (astep (ALeave t) (cmx s)) as [m|] eqn:Hm; simplify_eq/=.
  assert (Hq : t ∈ cbq s) by (apply (q_unl _ _ _ (v_wq _ I)); by rewrite Ht).
  constructor; simpl.
  - eapply mx_ok_leave; [apply I| |done..]. by rewrite Ht.
  - apply wq_ok_park; [apply I|by rewrite Ht|done].
  - apply I.
  - by apply vinv_all.
  - apply (vinv_quiet s (cv_pc t WPark (cv_mx m s)) t WPark); try done. rewrite Ht. naive_solver.
Qed.

Lemma vinv_woken s t : vinv s → vpcs s t = WPark → t ∉ cwait s → vinv (wait_woken t s).
Proof.
  intros I Ht Hw.
  destruct (wq_ok_wake (cbq s) (cwait s) (vpcs s) t WAcq) as [Hwq Hq];
    [apply I|by rewrite Ht|done..|].
  constructor; simpl; [|done|apply I|by apply vinv_all|].
  - apply mx_ok_stay; [apply I|..]; by rewrite Ht.
  - destruct (v_ret _ I) as (pend & Hp & Hnd & Hin).
    assert (t ∈ pend) as Hx by by apply Hin.
    apply list_elem_of_split in Hx as (p1 & p2 & ->). exists (p1 ++ p2).
    apply NoDup_app in Hnd as (N1 & N2 & N3). apply NoDup_cons in N3 as [N3 N4]. split_and!.
    + rewrite Hp, <-(Permutation_middle p1 p2 t). by rewrite <-(app_assoc (cret s)).
    + apply NoDup_app. split_and!; [done|set_solver|done].
    + intros u. specialize (Hin u). rewrite elem_of_app, elem_of_cons in Hin.
      rewrite elem_of_app. pc_cases u t; [|naive_solver]. split; [|naive_solver].
      intros [Hu|Hu]; [|done]. specialize (N2 t Hu). set_solver.
Qed.

(** [signal], and one round of [signalAll]. *)
Lemma vinv_take s t p none :
  vinv s → crit (vpcs s t) = true → role (vpcs s t) = RNone →
  (∀ w, role (p w) = RSig w ∧ crit (p w) = true) →
  role none = RNone → crit none = true → vinv (cv_take t p none s).
Proof.
  intros I Hc Hr Hp Hr2 Hc2. unfold cv_take. destruct (cbq s) as [|w r] eqn:Hq.
  { apply vinv_stay; try done; try congruence.
    rewrite (crit_blk _ Hc2), (crit_blk _ Hc). done. }
  destruct (Hp w) as [Hpw Hcw]. pose proof (v_wq _ I) as Hwq. rewrite Hq in Hwq.
  destruct (wq_ok_signal (cmx s) (cwait s) (vpcs s) t (p w) w r) as (Hwq' & Hw & Hwt & Hwr);
    try done; [apply I|].
  assert (Hwp : vpcs s w = WPark) by (by destruct (vpcs s w)).
  constructor; simpl; [|done|..].
  - apply mx_ok_stay; [apply I|by rewrite Hc, Hcw|].
    by rewrite (crit_blk _ Hcw), (crit_blk _ Hc).
  - rewrite (v_fifo _ I), Hq. by rewrite <-app_assoc.
  - intros Hx. apply (vinv_all s t (p w)) in Hx; [congruence|done|].
    intros E. rewrite E in Hpw. done.
  - destruct (v_ret _ I) as (pend & Hp1 & Hnd & Hin). exists (w :: pend). split_and!.
    + rewrite Hp1. by rewrite <-app_assoc, (Permutation_app_comm pend).
    + apply NoDup_cons. split; [|done]. rewrite Hin, Hq. set_solver.
    + intros u. rewrite elem_of_cons, Hin, Hq, not_elem_of_cons. pc_cases u t.
      * split; [intros [->|[E _]]; [done|]|intros [E _]]; [by rewrite E in Hr|].
        rewrite E in Hpw. done.
      * destruct (decide (u = w)) as [->|]; naive_solver.
Qed.

Lemma vinv_resume s t w p :
  vinv s → role (vpcs s t) = RSig w → role p = RNone → crit p = crit (vpcs s t) →
  blk p = blk (vpcs s t) → p ≠ LRel → vinv (cv_resume t w p s).
Proof.
  intros I Hr Hrp Hc Hb Hl. constructor; simpl.
  - by apply mx_ok_stay; [apply I|..].
  - by eapply wq_ok_resume; [apply I|..].
  - apply I.
  - by apply vinv_all.
  - apply (vinv_quiet s (cv_resume t w p s) t p); try done. simpl. split; intros [E _].
    + by rewrite E in Hr.
    + by rewrite E in Hrp.
Qed.

Lemma vinv_step a s s' : vinv s → vstep a s = Some s' → vinv s'.
Proof.
  intros I Hs. destruct a as [t|t|t|t|t|t]; simpl in Hs;
    try (destruct (vpcs s t) eqn:Ht; simplify_eq; by apply vinv_stay; rewrite ?Ht).
  - destruct (vpcs s t) eqn:Ht; simplify_eq. by apply vinv_suspend.
  - unfold cv_step in Hs. destruct (vpcs s t) eqn:Ht; simplify_eq/=.
    + eapply (vinv_acquire s t KHeld KBlk); rewrite ?Ht; done.
    + eapply (vinv_granted s t KHeld); rewrite ?Ht; done.
    + eapply (vinv_release s t KIdle); rewrite ?Ht; done.
    + by apply vinv_push.
    + by eapply vinv_park.
    + case_decide; simplify_eq. by apply vinv_woken.
    + eapply (vinv_acquire s t KHeld WBlk); rewrite ?Ht; done.
    + eapply (vinv_granted s t KHeld); rewrite ?Ht; done.
    + apply vinv_take; rewrite ?Ht; done.
    + eapply (vinv_release s t (GRes w)); rewrite ?Ht; done.
    + apply vinv_resume; rewrite ?Ht; done.
    + eapply (vinv_release s t KIdle); rewrite ?Ht; done.
    + apply vinv_take; rewrite ?Ht; done.
    + apply vinv_resume; rewrite ?Ht; done.
    + eapply (vinv_release s t KIdle); rewrite ?Ht; done.
Qed.

Lemma vinv_reachable s : reachable vstep cvar_init s → vinv s.
Proof.
  apply (invariant_reachable _ vinv); [apply vinv_init|]. intros a s1 s2. apply vinv_step.
Qed.
End vinv.

Section progress.
Implicit Types (s : cvar) (t u : nat).

Lemma cv_crit_steps s u :
  vinv s → crit (vpcs s u) = true → vpcs s u = KHeld ∨ is_Some (cv_step u s).
Proof.
  intros I Hu. destruct (mx_leave_enabled _ _ u (v_mx _ I) Hu) as [m Hm].
  unfold cv_step, cv_release. simpl in Hm. destruct (vpcs s u); try done; simpl; rewrite ?Hm; eauto.
Qed.

Lemma cv_blk_stuck s t :
  vinv s → blk (vpcs s t) = true → (∀ u, cv_step u s = None) → ∃ u, vpcs s u = KHeld.
Proof.
  intros I Ht Hst. destruct (mx_not_stuck _ _ t (v_mx _ I) Ht) as [u [Hu|[Hu Ho]]].
  - destruct (cv_crit_steps s u I Hu) as [?|[s' Hs]]; [eauto|]. by rewrite Hst in Hs.
  - specialize (Hst u). unfold cv_step, cv_granted in Hst.
    destruct (vpcs s u); try done; by rewrite decide_True in Hst.
Qed.

Lemma cv_sig_steps s u w : vinv s → role (vpcs s u) = RSig w → is_Some (cv_step u s).
Proof.
  intros I Hu. destruct (vpcs s u) eqn:E; try done.
  - destruct (cv_crit_steps s u I) as [?|?]; [by rewrite E|congruence|done].
  - unfold cv_step. rewrite E. eauto.
  - unfold cv_step. rewrite E. eauto.
Qed.
End progress.

(** C37. [wait] returns with the mutex: every uThread in client code holding
    it, after [acquire] or after [wait], is its owner, and there is at most
    one. *)
Theorem cv_exclusion s t u :
  reachable vstep cvar_init s → vpcs s t = KHeld → vpcs s u = KHeld →
  t = u ∧ aowner (cmx s) = Some t.
Proof.
  intros Hr Ht Hu. pose proof (v_mx _ (vinv_reachable _ Hr)) as Hm. split.
  - eapply mx_unique; [done|by rewrite Ht|by rewrite Hu].
  - apply (mx_crit _ _ Hm). by rewrite Ht.
Qed.

(** Signals go to the waiters in the order they waited, no waiter runs
    again without a signal of its own, and [signalAll] leaves no waiter
    behind when it comes to release the mutex. *)
Theorem cv_signals s :
  reachable vstep cvar_init s →
  csig s ++ cbq s = carr s ∧ cret s ⊆+ csig s ∧
  (∀ t, vpcs s t = LRel → cbq s = []).
Proof.
  intros Hr. pose proof (vinv_reachable _ Hr) as I. split_and!.
  - by rewrite (v_fifo _ I).
  - destruct (v_ret _ I) as (pend & -> & _). apply submseteq_inserts_r. done.
  - intros t Ht. apply (v_all _ I). eauto.
Qed.

(** C38. No wake-up is lost and nothing deadlocks: when no uThread can take a
    step by itself, every one is in client code, is a waiter in the queue
    that nobody has signalled, or waits for the mutex while some uThread
    holds it in client code. *)
Theorem cv_quiescent s t :
  reachable vstep cvar_init s → (∀ u, cv_step u s = None) →
  vpcs s t = KIdle ∨ vpcs s t = KHeld ∨ (vpcs s t = WPark ∧ t ∈ cbq s) ∨
  (blk (vpcs s t) = true ∧ ∃ u, vpcs s u = KHeld).
Proof.
  intros Hr Hst. pose proof (vinv_reachable _ Hr) as I.
  destruct (crit (vpcs s t)) eqn:Hc.
  { destruct (cv_crit_steps s t I Hc) as [?|[s' Hs]]; [auto|]. by rewrite Hst in Hs. }
  destruct (blk (vpcs s t)) eqn:Hb; [right; right; right; split; [done|by eapply cv_blk_stuck]|].
  destruct (mx_enter_enabled _ _ t (v_mx _ I) Hc Hb) as [m Hm].
  pose proof (Hst t) as Ht. unfold cv_step, cv_acquire in Ht. rewrite Hm in Ht.
  destruct (vpcs s t) eqn:E; try done; auto.
  case_decide as Hw; [|done].
  apply (q_wait _ _ _ (v_wq _ I)) in Hw as [Hp|[Hq|[u Hu]]]; [by rewrite E in Hp|auto|].
  apply cv_sig_steps in Hu as [s' Hs]; [|done]. by rewrite Hst in Hs.
Qed.

(** A run: uThread 1 waits, uThread 2 signals it. *)
Definition cv_demo : list vlabel :=
  [VAcquire 1; VStep 1; VWait 1; VStep 1; VStep 1;            (* 1 parked *)
   VAcquire 2; VStep 2; VSignal 2; VStep 2; VStep 2; VStep 2; (* 2 has signalled *)
   VStep 1; VStep 1].                                         (* 1 holds the mutex again *)
Definition cv_demo_state (n : nat) : cvar :=
  default cvar_init (run vstep (take n cv_demo) cvar_init).

Lemma cv_exclusion_witness :
  vpcs (cv_demo_state 13) 1 = KHeld ∧ (1 = 1 ∧ aowner (cmx (cv_demo_state 13)) = Some 1).
Proof.
  split; [by vm_compute|]. apply (cv_exclusion (cv_demo_state 13) 1 1).
  - exists cv_demo. by vm_compute.
  - by vm_compute.
  - by vm_compute.
Defined.

Lemma cv_signals_witness :
  let s := cv_demo_state 13 in
  csig s = [1] ∧ csig s ++ cbq s = carr s ∧ cret s ⊆+ csig s ∧
  (∀ t, vpcs s t = LRel → cbq s = []).
Proof.
  intros s. split; [by vm_compute|]. apply (cv_signals s). exists cv_demo. by vm_compute.
Defined.

Lemma cv_quiescent_witness :
  let s := cv_demo_state 5 in
  vpcs s 1 = KIdle ∨ vpcs s 1 = KHeld ∨ (vpcs s 1 = WPark ∧ 1 ∈ cbq s) ∨
  (blk (vpcs s 1) = true ∧ ∃ u, vpcs s u = KHeld).
Proof.
  intros s. apply (cv_quiescent s 1).
  - exists (take 5 cv_demo). by vm_compute.
  - intros u. destruct u as [|[|[|u]]]; by vm_compute.
Defined.
