(* ===== verification/Join.v ===== *)
(** * The join protocol of a uThread

    [terminate], [join] and [detach] of [src/runtime/uThread.cpp] and
    [waitOrSignal] of [src/runtime/uThread.h]: the uThread [T] that ends and
    two others, [A] and [B], that join or detach it.  The three objects of the
    protocol are members of [T]: [joinMtx] (the mutex specification), the
    condition variable [joinWait] (its queue) and the semaphore [afterJoin]
    (its counter and queue).  A step is one operation of these or one access
    to [jState]; the uThread object, with these members, is destroyed once [T]
    has terminated.

    The state space is finite, and the theorems are proved by exploring it:
    [levels] computes the states reachable in 0, 1, 2, ... steps until there
    are none, and the kernel checks the computation. *)

From S2P Require Import Prelude UThread.

Inductive who : Type := T | A | B.

Inductive script : Type := DoJoin | DoDetach | DoNothing.

(** Program points; [caller] tells [join] from [terminate] in
    [waitOrSignal]. *)
Inductive jpc : Type :=
  | JRun                    (* T: its function; A, B: before the call *)
  | JCheck                  (* terminate, join: the test of jState *)
  | JSet                    (* join: jState = JOINING *)
  | JAcq (k : bool) | JBlk (k : bool)  (* joinMtx.acquire(); [k] = true in detach *)
  | JTest                   (* if(joinWait.empty()) *)
  | JPush | JUnl | JPark    (* joinWait.wait: suspend, release *)
  | JWAcq | JWBlk           (*   joinMtx.acquire() *)
  | JRel                    (* joinMtx.release() *)
  | JV                      (* if(caller) afterJoin.V() *)
  | JPop (k : bool)         (* joinWait.signal: pop_front *)
  | JSRel (w : who) (k : bool)    (*   joinMtx.release() *)
  | JSRes (w : who) (k : bool)    (*   owner->resume() *)
  | JP                      (* if(!caller) afterJoin.P() *)
  | JPPark                  (*   blocked in it *)
  | DTest                   (* detach: if(!joinWait.empty()) *)
  | DRel                    (* detach: joinMtx.release() *)
  | JDead                   (* T terminated and destroyed *)
  | JRet (r : bool).        (* A, B: returned *)

Record join_state := mkJoin {
  own : option who;          (* joinMtx *)
  mxq : list who;
  cq : list who;             (* joinWait *)
  acnt : nat;                (* afterJoin *)
  aq : list who;
  asleep : list who;         (* WAITING on joinWait *)
  jst : JState;
  pcT : jpc; pcA : jpc; pcB : jpc;
  use_after_free : bool;     (* a member of T accessed after its destruction *)
  bad_release : bool         (* joinMtx released by a uThread that does not own it *)
}.

#[export] Instance who_eq_dec : EqDecision who.
Proof. solve_decision. Defined.
#[export] Instance jpc_eq_dec : EqDecision jpc.
Proof. solve_decision. Defined.
#[export] Instance join_state_eq_dec : EqDecision join_state.
Proof. solve_decision. Defined.

Definition join_init (j : JState) : join_state :=
  mkJoin None [] [] 0 [] [] j JRun JRun JRun false false.

Definition pc_of (x : who) (s : join_state) : jpc :=
  match x with T => pcT s | A => pcA s | B => pcB s end.
Definition jset (x : who) (p : jpc) (s : join_state) : join_state :=
  mkJoin (own s) (mxq s) (cq s) (acnt s) (aq s) (asleep s) (jst s)
    (match x with T => p | _ => pcT s end) (match x with A => p | _ => pcA s end)
    (match x with B => p | _ => pcB s end) (use_after_free s) (bad_release s).
Definition jset_mx (o : option who) (q : list who) (s : join_state) : join_state :=
  mkJoin o q (cq s) (acnt s) (aq s) (asleep s) (jst s) (pcT s) (pcA s) (pcB s)
    (use_after_free s) (bad_release s).
Definition jset_cv (q sl : list who) (s : join_state) : join_state :=
  mkJoin (own s) (mxq s) q (acnt s) (aq s) sl (jst s) (pcT s) (pcA s) (pcB s)
    (use_after_free s) (bad_release s).
Definition jset_sem (n : nat) (q : list who) (s : join_state) : join_state :=
  mkJoin (own s) (mxq s) (cq s) n q (asleep s) (jst s) (pcT s) (pcA s) (pcB s)
    (use_after_free s) (bad_release s).
Definition jset_jst (j : JState) (s : join_state) : join_state :=
  mkJoin (own s) (mxq s) (cq s) (acnt s) (aq s) (asleep s) j (pcT s) (pcA s) (pcB s)
    (use_after_free s) (bad_release s).

(** An access to a member of [T]. *)
Definition touch (s : join_state) : join_state :=
  mkJoin (own s) (mxq s) (cq s) (acnt s) (aq s) (asleep s) (jst s) (pcT s) (pcA s) (pcB s)
    (use_after_free s || bool_decide (pcT s = JDead)) (bad_release s).

(** [joinMtx.acquire()] *)
Definition j_acquire (x : who) (body blocked : jpc) (s : join_state) : join_state :=
  match own s with
  | None => jset x body (jset_mx (Some x) (mxq s) s)
  | Some _ => jset x blocked (jset_mx (own s) (mxq s ++ [x]) s)
  end.
(** [joinMtx.release()]: passes the lock on whoever calls it. *)
Definition j_release (x : who) (s : join_state) : join_state :=
  let s1 := mkJoin (head (mxq s)) (tail (mxq s)) (cq s) (acnt s) (aq s) (asleep s) (jst s)
              (pcT s) (pcA s) (pcB s) (use_after_free s)
              (bad_release s || negb (bool_decide (own s = Some x))) in s1.

(** Where [waitOrSignal] returns to: [T] terminates, [join] returns true. *)
Definition j_end (x : who) : jpc := match x with T => JDead | _ => JRet true end.

Definition remove_who (x : who) (l : list who) : list who := filter (λ y, y ≠ x) l.

Definition join_step (scr : who → script) (x : who) (s0 : join_state) : option join_state :=
  let s := touch s0 in
  match pc_of x s0 with
  | JRun =>
      match x, scr x with
      | T, _ => Some (jset T JCheck s0)
      | _, DoJoin => Some (jset x JCheck s0)
      | _, DoDetach => Some (jset x (JAcq true) (jset_jst DETACHED s))
      | _, DoNothing => None
      end
  | JCheck =>
      match x with
      | T => Some (jset T (if bool_decide (jst s = DETACHED) then JDead else JAcq false) s)
      | _ => Some (jset x (if bool_decide (jst s = JOINABLE) then JSet else JRet false) s)
      end
  | JSet => Some (jset x (JAcq false) (jset_jst JOINING s))
  | JAcq k => Some (j_acquire x (if k then DTest else JTest) (JBlk k) s)
  | JBlk k => if decide (own s = Some x) then Some (jset x (if k then DTest else JTest) s0) else None
  | JTest => Some (jset x (match cq s with [] => JPush | _ => JPop false end) s)
  | JPush => Some (jset x JUnl (jset_cv (cq s ++ [x]) (x :: asleep s) s))
  | JUnl => Some (jset x JPark (j_release x s))
  | JPark => if decide (x ∈ asleep s) then None else Some (jset x JWAcq s0)
  | JWAcq => Some (j_acquire x JRel JWBlk s)
  | JWBlk => if decide (own s = Some x) then Some (jset x JRel s0) else None
  | JRel => Some (jset x (match x with T => JDead | _ => JV end) (j_release x s))
  | JV =>
      Some (match aq s with
            | w :: r => jset x (j_end x) (jset w (j_end w) (jset_sem (acnt s) r s))
            | [] => jset x (j_end x) (jset_sem (S (acnt s)) [] s)
            end)
  | JPop k =>
      match cq s with
      | w :: r => Some (jset x (JSRel w k) (jset_cv r (asleep s) s))
      | [] => None
      end
  | JSRel w k => Some (jset x (JSRes w k) (j_release x s))
  | JSRes w k =>
      Some (jset x (if k then DRel else match x with T => JP | _ => JRet true end)
             (jset_cv (cq s) (remove_who w (asleep s)) (if decide (w = T) then s else s0)))
  | JP =>
      Some (match acnt s with
            | S n => jset x (j_end x) (jset_sem n (aq s) s)
            | 0 => jset x JPPark (jset_sem 0 (aq s ++ [x]) s)
            end)
  | JPPark => None
  | DTest => Some (jset x (match cq s with [] => DRel | _ => JPop true end) s)
  | DRel => Some (jset x (JRet true) (j_release x s))
  | JDead | JRet _ => None
  end.

(** ** Exploration *)

Section explore.
Context {St Lab : Type} `{EqDecision St} (step : Lab → St → option St) (labs : list Lab).

Definition succs (s : St) : list St := omap (λ a, step a s) labs.
Definition next_level (l : list St) : list St := remove_dups (l ≫= succs).
Fixpoint levels (n : nat) (l : list St) : list (list St) :=
  match n with 0 => [] | S n' => l :: levels n' (next_level l) end.

Hypothesis labs_all : ∀ a s, is_Some (step a s) → a ∈ labs.

Lemma next_level_spec l s a s' : s ∈ l → step a s = Some s' → s' ∈ next_level l.
Proof.
  intros Hs Ha. apply elem_of_remove_dups, list_elem_of_bind. exists s. split; [|done].
  apply list_elem_of_omap. exists a. split; [|done]. eapply labs_all. by rewrite Ha.
Qed.

(** After [length tr] steps the state is in that level. *)
Lemma levels_run n l tr s s' :
  s ∈ l → run step tr s = Some s' → length tr < n →
  ∃ lv, levels n l !! length tr = Some lv ∧ s' ∈ lv.
Proof.
  revert l tr s. induction n as [|n IH]; intros l tr s Hs Hr Hn; [lia|].
  destruct tr as [|a tr]; simpl in *; [simplify_eq; eauto|].
  destruct (step a s) as [s1|] eqn:Ha; [|done]. simpl in Hr.
  eapply IH; [by eapply next_level_spec|done|lia].
Qed.

(** If the last level is empty then every run is shorter, and every state
    reachable is in one of the levels. *)
Lemma levels_complete n init :
  last (levels (S n) [init]) = Some [] →
  ∀ tr s, run step tr init = Some s → length tr < n ∧ s ∈ concat (levels (S n) [init]).
Proof.
  intros Hlast tr s Hr.
  assert (Hlen : ∀ m l, length (levels m l) = m).
  { intros m. induction m; intros l; simpl; [done|]. by rewrite IHm. }
  assert (Hlt : length tr < n).
  { destruct (decide (length tr < n)) as [|Hge]; [done|].
    rewrite <-(take_drop n tr), run_app in Hr.
    destruct (run step (take n tr) init) as [s1|] eqn:E; [|done].
    assert (Ht : length (take n tr) = n) by (rewrite length_take; lia).
    destruct (levels_run (S n) [init] (take n tr) init s1) as (lv & Hlv & Hin);
      [set_solver|done|lia|].
    rewrite last_lookup, Hlen in Hlast. simpl pred in Hlast. rewrite Ht in Hlv.
    rewrite Hlast in Hlv. injection Hlv as <-. by apply not_elem_of_nil in Hin. }
  split; [done|]. destruct (levels_run (S n) [init] tr init s) as (lv & Hlv & Hin);
    [set_solver|done|lia|].
  apply list_elem_of_In, in_concat. exists lv.
  split; apply list_elem_of_In; [by eapply list_elem_of_lookup_2|done].
Qed.
End explore.

(** ** One joiner *)

Definition everyone : list who := [T; A; B].
Definition join_run (scr : who → script) (tr : list who) : option join_state :=
  run (join_step scr) tr (join_init JOINABLE).

(** No uThread can take a step. *)
Definition join_stuck (scr : who → script) (s : join_state) : bool :=
  forallb (λ x, bool_decide (join_step scr x s = None)) everyone.

Definition A_joins (x : who) : script := match x with A => DoJoin | _ => DoNothing end.
Definition A_detaches (x : who) : script := match x with A => DoDetach | _ => DoNothing end.
Definition both_join (x : who) : script := match x with T => DoNothing | _ => DoJoin end.

Lemma everyone_all scr x s : is_Some (join_step scr x s) → x ∈ everyone.
Proof. intros _. destruct x; unfold everyone; set_solver. Qed.

(** What the exploration checks of a state. *)
Definition join_good (s : join_state) : bool :=
  negb (use_after_free s) && negb (bad_release s)
  && negb (bool_decide (pcA s = JRet false))
  && (negb (bool_decide (pcA s = JRet true)) || negb (bool_decide (pcT s = JRun)))
  && (negb (join_stuck A_joins s)
      || bool_decide (pcT s = JDead) && bool_decide (pcA s = JRet true)).

Lemma join_explored :
  last (levels (join_step A_joins) everyone 22 [join_init JOINABLE]) = Some []
  ∧ forallb join_good
      (concat (levels (join_step A_joins) everyone 22 [join_init JOINABLE])) = true.
Proof. split; vm_compute; reflexivity. Qed.

Lemma join_run_good tr s :
  join_run A_joins tr = Some s → length tr < 21 ∧ join_good s = true.
Proof.
  intros Hr. destruct join_explored as [Hlast Hgood].
  destruct (levels_complete _ _ (everyone_all A_joins) 21 _ Hlast tr s Hr) as [Hlen Hin].
  split; [done|]. rewrite forallb_forall in Hgood. by apply Hgood, list_elem_of_In.
Qed.

(** C39. One uThread joins a joinable uThread: whatever the interleaving with
    the uThread's own termination, every run ends within 20 steps, no member of
    the uThread is used after its destruction, joinMtx is only released by its
    owner, join never returns false and returns true only once the uThread has
    left its function, and where nothing can step any more the uThread has
    been destroyed and join has returned. *)
Theorem join_one_joiner tr s :
  join_run A_joins tr = Some s →
  length tr ≤ 20
  ∧ use_after_free s = false ∧ bad_release s = false
  ∧ pcA s ≠ JRet false
  ∧ (pcA s = JRet true → pcT s ≠ JRun)
  ∧ (join_stuck A_joins s = true → pcT s = JDead ∧ pcA s = JRet true).
Proof.
  intros Hr. destruct (join_run_good _ _ Hr) as [Hlen Hg]. unfold join_good in Hg.
  rewrite !andb_true_iff, !orb_true_iff, !negb_true_iff, !andb_true_iff in Hg.
  rewrite !bool_decide_eq_false, !bool_decide_eq_true in Hg.
  destruct Hg as ((((? & ?) & ?) & ?) & ?).
  split; [lia|]. split_and!; [done..|by intros ?; naive_solver|].
  intros Hs. rewrite Hs in *. naive_solver.
Qed.

Definition join_trace : list who :=
  [A; A; A; A; A; A; A; T; T; T; T; T; T; T; T; A; A; A; A].

(** Witness of C1: [A] joins and sleeps, [T] ends, wakes it and waits for
    afterJoin. *)
Lemma join_one_joiner_witness :
  ∃ s, join_run A_joins join_trace = Some s ∧ join_stuck A_joins s = true
       ∧ pcT s = JDead ∧ pcA s = JRet true.
Proof.
  destruct (join_run A_joins join_trace) as [s|] eqn:E; [|vm_compute in E; discriminate].
  exists s. pose proof (join_one_joiner _ _ E) as (_ & _ & _ & _ & _ & Hst).
  assert (Hs : join_stuck A_joins s = true).
  { vm_compute in E. injection E as <-. reflexivity. }
  split; [done|]. split; [done|]. by apply Hst.
Defined.

(** ** What goes wrong *)

(** [detach] of a uThread that has finished and waits for its joiner:
    [joinWait.signal] releases joinMtx, and the [joinMtx.release()] after it
    releases it a second time; by then the uThread woken may hold the mutex,
    or may have been destroyed, so that detach uses freed memory. *)
Theorem detach_releases_twice :
  (∃ tr s, join_run A_detaches tr = Some s ∧ bad_release s = true ∧ pcA s = JRet true)
  ∧ (∃ tr s, join_run A_detaches tr = Some s ∧ use_after_free s = true ∧ pcA s = JRet true).
Proof.
  split.
  - exists [T; T; T; T; T; T; A; A; A; A; A; A; A]. eexists. vm_compute. split_and!; reflexivity.
  - exists [T; T; T; T; T; T; A; A; A; A; A; A; T; T; T; A]. eexists. vm_compute. split_and!; reflexivity.
Qed.

(** [terminate] reads [jState] without joinMtx: a detach that sets it and
    finds joinWait empty between this read and the wait leaves the uThread
    blocked on joinWait for ever, with nobody to wake it, and it is never
    destroyed. *)
Theorem detach_leaks_uThread :
  ∃ tr s, join_run A_detaches tr = Some s ∧ join_stuck A_detaches s = true
          ∧ jst s = DETACHED ∧ pcA s = JRet true ∧ pcT s = JPark.
Proof.
  exists [T; T; A; A; A; A; T; T; T; T]. eexists. vm_compute. split_and!; reflexivity.
Qed.

(** [join] tests and sets [jState] without a lock: two uThreads that both
    read JOINABLE meet each other in waitOrSignal, and both return true while
    the uThread they join is still running its function. *)
Theorem two_joiners_return_early :
  ∃ tr s, join_run both_join tr = Some s
          ∧ pcA s = JRet true ∧ pcB s = JRet true ∧ pcT s = JRun.
Proof.
  exists ([A; A; B; B; A; B] ++ [A; A; A; A] ++ [B; B; B; B; B] ++ [A; A; A; A]). eexists.
  vm_compute. split_and!; reflexivity.
Qed.
