(* ===== verification/IOHandler.v ===== *)
(** * IOHandler: blocking on a file descriptor

    [open], [block], [postSwitchFunc], [unblock], [PollReady] and [close] of
    [src/io/IOHandler.cpp] on one [PollData] ([src/io/IOHandler.h]), with the
    events that [IOPoller::_Poll] ([src/io/EpollIOHandler.cpp]) turns into
    calls of [PollReady].

    As the comment of [PollData] has it there are at most two uThreads per file
    descriptor, a reader ([true]) and a writer ([false]), and any number of
    other threads that poll or close.  Every access to the PollData is a step.
    [suspend] is the context switch of the life cycle model: after it
    [postSwitchFunc] runs on behalf of the uThread, which may be resumed once
    it has published itself in the PollData.  The default build hands the uThread
    to [prepareBulkPush] where the other one resumes it; this counts as the
    resume here, and the push that has to follow is the subject of [Poller] and
    [IOClose]. *)

From stdpp Require Import functions.
From S2P Require Import Prelude.

Definition POLL_READY : addr := 1.
Definition POLL_WAIT : addr := 2.

Record PollData := mkPd {
  rut : addr; wut : addr;
  closing : bool; opened : bool; isBlockingOnRead : bool;
  fd : Z
}.

(** [PollData(int fd)] *)
Definition PollData_init (n : Z) : PollData := mkPd nullptr nullptr false false false n.
(** [void reset()] *)
Definition pd_reset (p : PollData) : PollData :=
  mkPd nullptr nullptr false false (isBlockingOnRead p) (-1).

(** [isRead ? &pd.rut : &pd.wut] *)
Definition slot (d : bool) (p : PollData) : addr := if d then rut p else wut p.
Definition set_slot (d : bool) (v : addr) (p : PollData) : PollData :=
  if d then mkPd v (wut p) (closing p) (opened p) (isBlockingOnRead p) (fd p)
  else mkPd (rut p) v (closing p) (opened p) (isBlockingOnRead p) (fd p).
Definition set_blocking (d : bool) (p : PollData) : PollData :=
  mkPd (rut p) (wut p) (closing p) (opened p) d (fd p).
Definition set_closing (p : PollData) : PollData :=
  mkPd (rut p) (wut p) true (opened p) (isBlockingOnRead p) (fd p).
Definition set_opened (b : bool) (p : PollData) : PollData :=
  mkPd (rut p) (wut p) (closing p) b (isBlockingOnRead p) (fd p).

(** The uThread that blocks on direction [d], and its program points. *)
Inductive upc : Type :=
  | UIdle
  | UTest                    (* block: if(!pd.opened) open(pd) *)
  | UOpen                    (* open: the compare-exchange on opened *)
  | UEpoll                   (* open: poller._Open *)
  | ULoad                    (* block: ut = *utp *)
  | UConsume                 (* block: *utp = nullptr, return *)
  | USet                     (* block: pd.isBlockingOnRead = isRead *)
  | PClosing                 (* suspended; postSwitchFunc: if(pd->closing) *)
  | PWhich                   (*   pd->isBlockingOnRead ? ... *)
  | PLoad (b : bool)         (*   old = *utp *)
  | PConsume (b : bool)      (*   *utp = nullptr; utold->resume() *)
  | PCas (b : bool)          (*   the compare-exchange with nullptr *)
  | UParked                  (* postSwitchFunc returned *)
  | UExit.                   (* exit(EXIT_FAILURE) *)

(** A thread that polls or closes: the directions it still has to unblock,
    and whether it is in close. *)
Inductive apc : Type :=
  | NIdle
  | NNext (ds : list bool) (c : bool)
  | NClosing (d : bool) (ds : list bool) (c : bool)  (* unblock: if(pd.closing) *)
  | NLoad (d : bool) (ds : list bool) (c : bool)     (*   old = *utp *)
  | NCas (d : bool) (old : addr) (ds : list bool) (c : bool) (* the compare-exchange *)
  | NResume (d : bool) (ds : list bool) (c : bool)   (*   prepareBulkPush(old), resume *)
  | CRut                     (* close: if(pd.rut > POLL_WAIT) *)
  | CWut                     (*   if(pd.wut > POLL_WAIT); *)
  | CCas                     (*   the compare-exchange on closing *)
  | CDel                     (*   poller._Close(pd.fd) *)
  | CReset                   (*   pd.reset() *)
  | CPush.                   (*   pollCache.pushPollData(&pd) *)

Record io := mkIo {
  pd : PollData;
  user : bool → upc;
  agent : nat → apc;
  registered : bool;         (* the fd is in the epoll set *)
  owed : bool → bool;        (* an unblock has returned without a resume, and its
                                notification has neither been consumed nor dropped
                                by the reset of a close *)
  bad_resume : bool;         (* a resume of a uThread that is not parked *)
  cached : nat               (* how often this PollData is in the cache *)
}.

Definition set_pd (p : PollData) (s : io) : io :=
  mkIo p (user s) (agent s) (registered s) (owed s) (bad_resume s) (cached s).
Definition set_user (d : bool) (p : upc) (s : io) : io :=
  mkIo (pd s) (<[d := p]> (user s)) (agent s) (registered s) (owed s) (bad_resume s) (cached s).
Definition set_agent (j : nat) (p : apc) (s : io) : io :=
  mkIo (pd s) (user s) (<[j := p]> (agent s)) (registered s) (owed s) (bad_resume s) (cached s).
Definition set_owed (d b : bool) (s : io) : io :=
  mkIo (pd s) (user s) (agent s) (registered s) (<[d := b]> (owed s)) (bad_resume s) (cached s).
Definition drop_owed (s : io) : io :=
  mkIo (pd s) (user s) (agent s) (registered s) (λ _, false) (bad_resume s) (cached s).
Definition set_registered (b : bool) (s : io) : io :=
  mkIo (pd s) (user s) (agent s) b (owed s) (bad_resume s) (cached s).
Definition cache_it (s : io) : io :=
  mkIo (pd s) (user s) (agent s) (registered s) (owed s) (bad_resume s) (S (cached s)).

(** [epoll_event::events]; [IOPoller::_Poll] computes the mode. *)
Definition EPOLLIN : Z := 1.
Definition EPOLLOUT : Z := 4.
Definition EPOLLERR : Z := 8.
Definition EPOLLHUP : Z := 16.
Definition EPOLLRDHUP : Z := 8192.
Definition UT_IOREAD : Z := 1.
Definition UT_IOWRITE : Z := 2.
Definition poll_mode (ev : Z) : Z :=
  let m1 := if (Z.land ev (Z.lor EPOLLIN (Z.lor EPOLLRDHUP (Z.lor EPOLLHUP EPOLLERR))) =? 0)%Z
            then 0%Z else UT_IOREAD in
  if (Z.land ev (Z.lor EPOLLOUT (Z.lor EPOLLHUP EPOLLERR)) =? 0)%Z
  then m1 else Z.lor m1 UT_IOWRITE.

(** [PollReady(pd, flag)]: which slots it unblocks, in order. *)
Definition PollReady (flag : Z) : list bool :=
  (if (Z.land flag UT_IOREAD =? 0)%Z then [] else [true])
  ++ (if (Z.land flag UT_IOWRITE =? 0)%Z then [] else [false]).

Section io.
(** The addresses of the two uThreads. *)
Context (ut : bool → addr).

(** [uThread::resume] of the uThread of direction [d]. *)
Definition io_resume (d : bool) (s : io) : io :=
  match user s d with
  | UParked => set_user d UIdle s
  | _ => mkIo (pd s) (user s) (agent s) (registered s) (owed s) true (cached s)
  end.

(** Whose address is stored in a slot. *)
Definition who_is (a : addr) : option bool :=
  if decide (a = ut true) then Some true
  else if decide (a = ut false) then Some false else None.

(** A step of [open], [block] or [postSwitchFunc]; [ok] is the result of
    epoll_ctl. *)
Definition user_step (d ok : bool) (s : io) : option io :=
  match user s d with
  | UIdle => Some (set_user d UTest s)
  | UTest => Some (set_user d (if opened (pd s) then ULoad else UOpen) s)
  | UOpen =>
      Some (if opened (pd s) then set_user d ULoad s
            else set_user d UEpoll (set_pd (set_opened true (pd s)) s))
  | UEpoll =>
      Some (if ok then set_user d ULoad (set_registered true s)
            else set_user d UExit (set_pd (set_opened false (pd s)) s))
  | ULoad =>
      Some (set_user d (if decide (slot d (pd s) = POLL_READY) then UConsume else USet) s)
  | UConsume => Some (set_user d UIdle (set_owed d false (set_pd (set_slot d nullptr (pd s)) s)))
  | USet => Some (set_user d PClosing (set_pd (set_blocking d (pd s)) s))
  | PClosing => Some (set_user d (if closing (pd s) then UParked else PWhich) s)
  | PWhich => Some (set_user d (PLoad (isBlockingOnRead (pd s))) s)
  | PLoad b =>
      Some (set_user d (if decide (slot b (pd s) = POLL_READY) then PConsume b else PCas b) s)
  | PConsume b => Some (set_user d UIdle (set_owed b false (set_pd (set_slot b nullptr (pd s)) s)))
  | PCas b =>
      Some (if decide (slot b (pd s) = nullptr) then
              set_user d UParked (set_pd (set_slot b (ut d) (pd s)) s)
            else set_user d (PLoad b) s)
  | UParked | UExit => None
  end.

(** A step of [unblock] or [close]. *)
Definition agent_do (j : nat) (p : apc) (s : io) : option io :=
  match p with
  | NIdle => None
  | NNext [] c => Some (set_agent j (if c then CCas else NIdle) s)
  | NNext (d :: ds) c => Some (set_agent j (NClosing d ds c) s)
  | NClosing d ds c => Some (set_agent j (if closing (pd s) then NNext ds c else NLoad d ds c) s)
  | NLoad d ds c =>
      Some (if decide (slot d (pd s) = POLL_READY) then set_agent j (NNext ds c) (set_owed d true s)
            else set_agent j (NCas d (slot d (pd s)) ds c) s)
  | NCas d old ds c =>
      Some (if decide (slot d (pd s) = old) then
              let s1 := set_pd (set_slot d (if decide (old = nullptr ∨ old = POLL_WAIT)
                                            then POLL_READY else nullptr) (pd s)) s in
              if decide (POLL_WAIT < old)%Z then
                match who_is old with
                | Some u => set_agent j (NResume u ds c) s1
                | None => set_agent j (NNext ds c) s1
                end
              else set_agent j (NNext ds c) (set_owed d true s1)
            else set_agent j (NLoad d ds c) s)
  | NResume u ds c => Some (set_agent j (NNext ds c) (io_resume u s))
  | CRut =>
      (* if the reader is parked, unblock it; then the unconditional unblock *)
      Some (if decide (POLL_WAIT < rut (pd s))%Z then set_agent j (NClosing true [true] true) s
            else set_agent j CWut s)
  | CWut => Some (set_agent j (NClosing true [] true) s)
  | CCas => Some (if closing (pd s) then set_agent j NIdle s
                  else set_agent j CDel (set_pd (set_closing (pd s)) s))
  | CDel => Some (set_agent j CReset (set_registered false s))
  | CReset => Some (set_agent j CPush (drop_owed (set_pd (pd_reset (pd s)) s)))
  | CPush => Some (set_agent j NIdle (cache_it s))
  end.
Definition agent_step (j : nat) (s : io) : option io := agent_do j (agent s j) s.

Inductive iolabel : Type :=
  | OUser (d ok : bool)
  | OEvent (j : nat) (ev : Z)       (* a thread that polls gets an event *)
  | OClose (j : nat)                (* a thread calls close *)
  | OAgent (j : nat).

Definition iostep (l : iolabel) (s : io) : option io :=
  match l with
  | OUser d ok => user_step d ok s
  | OEvent j ev =>
      match agent s j with
      | NIdle => Some (set_agent j (NNext (PollReady (poll_mode ev)) false) s)
      | _ => None
      end
  | OClose j =>
      match agent s j with NIdle => Some (set_agent j CRut s) | _ => None end
  | OAgent j => agent_step j s
  end.

Definition io_init (n : Z) : io :=
  mkIo (PollData_init n) (λ _, UIdle) (λ _, NIdle) false (λ _, false) false 0.

(** ** The discipline under which the protocol is correct

    The clients close only when neither uThread is blocking and block only when
    no close is under way; and between a uThread's store to [isBlockingOnRead]
    and the load in its postSwitchFunc the other uThread does not store to it.
    [io_close_loses_writer], [io_close_loses_suspending] and [io_direction_race]
    below are runs that break each of the three. *)
Definition in_window (p : upc) : bool :=
  match p with PClosing | PWhich => true | _ => false end.
Definition closer (p : apc) : bool :=
  match p with
  | NIdle => false
  | NNext _ c | NClosing _ _ c | NLoad _ _ c | NCas _ _ _ c | NResume _ _ c => c
  | _ => true
  end.
Definition disciplined (l : iolabel) (s : io) : Prop :=
  match l with
  | OClose _ => ∀ d, user s d = UIdle
  | OUser d _ =>
      match user s d with
      | UIdle => ∀ j, closer (agent s j) = false
      | USet => in_window (user s (negb d)) = false
      | _ => True
      end
  | _ => True
  end.
(** Every step of the run keeps to it. *)
Fixpoint kept (tr : list iolabel) (s : io) : Prop :=
  match tr with
  | [] => True
  | l :: tr' => disciplined l s ∧ match iostep l s with Some s' => kept tr' s' | None => True end
  end.

Hypothesis ut_valid : ∀ d, (POLL_WAIT < ut d)%Z.
Hypothesis ut_inj : ut true ≠ ut false.

Lemma ut_not d : ut d ≠ nullptr ∧ ut d ≠ POLL_READY ∧ ut d ≠ POLL_WAIT.
Proof. pose proof (ut_valid d). unfold nullptr, POLL_READY, POLL_WAIT in *. lia. Qed.
Lemma who_is_ut d : who_is (ut d) = Some d.
Proof.
  unfold who_is. destruct d; [by rewrite decide_True|].
  rewrite decide_False by congruence. by rewrite decide_True.
Qed.
Lemma slot_set d d' v p : slot d' (set_slot d v p) = if decide (d' = d) then v else slot d' p.
Proof. by destruct d, d'. Qed.
Lemma slot_set_eq d v p : slot d (set_slot d v p) = v.
Proof. by destruct d. Qed.
Lemma slot_set_ne d d' v p : d' ≠ d → slot d' (set_slot d v p) = slot d' p.
Proof. by destruct d, d'. Qed.

(** The closer whose compare-exchange succeeded. *)
Definition holds_closing (p : apc) : bool := match p with CDel | CReset => true | _ => false end.
Definition resumes (d : bool) (p : apc) : bool :=
  match p with NResume u _ _ => bool_decide (u = d) | _ => false end.

Record dinv (s : io) (d : bool) : Prop := {
  d_slot : slot d (pd s) = nullptr ∨ slot d (pd s) = POLL_READY ∨ slot d (pd s) = ut d;
  d_user : match user s d with
           | UConsume => slot d (pd s) = POLL_READY
           | PClosing | PWhich => isBlockingOnRead (pd s) = d
           | PLoad b | PCas b => b = d
           | PConsume b => b = d ∧ slot d (pd s) = POLL_READY
           | UParked => slot d (pd s) = ut d ∨ ∃ j, resumes d (agent s j) = true
           | _ => True
           end;
  d_parked : slot d (pd s) = ut d → user s d = UParked;
  d_resume : ∀ j, resumes d (agent s j) = true →
               user s d = UParked ∧ slot d (pd s) ≠ ut d
               ∧ ∀ j', resumes d (agent s j') = true → j' = j;
  d_cas : ∀ j old ds c, agent s j = NCas d old ds c → old = nullptr ∨ old = ut d;
  d_owed : owed s d = true → slot d (pd s) = POLL_READY
}.

Record ioinv (s : io) : Prop := {
  io_dir : ∀ d, dinv s d;
  io_quiet : ∀ j d, closer (agent s j) = true → user s d = UIdle;
  io_closing : closing (pd s) = true → ∃ j, holds_closing (agent s j) = true;
  io_bad : bad_resume s = false
}.

(** A direction that the step does not touch. *)
Lemma dinv_frame s s' d :
  dinv s d →
  slot d (pd s') = slot d (pd s) → user s' d = user s d → owed s' d = owed s d →
  (in_window (user s d) = true → isBlockingOnRead (pd s') = isBlockingOnRead (pd s)) →
  (∀ j, resumes d (agent s' j) = resumes d (agent s j)) →
  (∀ j old ds c, agent s' j = NCas d old ds c → ∃ ds' c', agent s j = NCas d old ds' c') →
  dinv s' d.
Proof.
  intros [? Hu ? Hres Hc ?] Hs Hp Ho Hw Hr Hn. split; rewrite ?Hs, ?Hp, ?Ho; try done.
  - destruct (user s d); try done.
    + by rewrite Hw.
    + by rewrite Hw.
    + destruct Hu as [|[j Hj]]; [by left|]. right. exists j. by rewrite Hr.
  - intros j. rewrite Hr. intros Hj. destruct (Hres j Hj) as (? & ? & Huniq).
    split_and!; [done..|]. intros j'. rewrite Hr. apply Huniq.
  - intros j old ds c Hj. destruct (Hn _ _ _ _ Hj) as (ds' & c' & Hj'). by eapply Hc.
Qed.

Lemma io_init_inv n : ioinv (io_init n).
Proof.
  split; [|done..]. intros d. split; simpl; try done.
  - by destruct d; left.
  - intros Hd. destruct (ut_not d) as [? _]. by destruct d.
Qed.

(** The direction of a uThread that is not parked after its step. *)
Lemma dinv_moving s s' u :
  dinv s u → user s u ≠ UParked → user s' u ≠ UParked → agent s' = agent s →
  (slot u (pd s') = nullptr ∨ slot u (pd s') = slot u (pd s)) →
  match user s' u with
  | UConsume => slot u (pd s') = POLL_READY
  | PClosing | PWhich => isBlockingOnRead (pd s') = u
  | PLoad b | PCas b => b = u
  | PConsume b => b = u ∧ slot u (pd s') = POLL_READY
  | _ => True
  end →
  (owed s' u = true → slot u (pd s') = POLL_READY) →
  dinv s' u.
Proof.
  intros [H1 H2 H3 H4 H5 H6] Hp Hp' Ha Hs Hu Ho.
  assert (Hns : slot u (pd s') ≠ ut u).
  { destruct Hs as [-> | ->]; [|by auto]. destruct (ut_not u). congruence. }
  split; rewrite ?Ha; try done.
  - destruct Hs as [-> | ->]; auto.
  - by destruct (user s' u).
  - intros j Hj. by destruct (H4 j Hj).
Qed.

(** The compare-exchange of postSwitchFunc succeeds. *)
Lemma dinv_park s u :
  dinv s u → user s u ≠ UParked → slot u (pd s) = nullptr →
  dinv (set_user u UParked (set_pd (set_slot u (ut u) (pd s)) s)) u.
Proof.
  intros [H1 H2 H3 H4 H5 H6] Hp Hs. split; simpl; rewrite ?fn_lookup_insert, ?slot_set_eq; auto.
  - intros j Hj. by destruct (H4 j Hj).
  - intros Ho. apply H6 in Ho. by rewrite Hs in Ho.
Qed.

(** While a uThread blocks nobody closes. *)
Lemma io_user_closing s u : ioinv s → user s u ≠ UIdle → closing (pd s) = false.
Proof.
  intros HI Hu. destruct (closing (pd s)) eqn:Hc; [|done]. destruct (io_closing _ HI Hc) as [j Hj].
  destruct Hu. apply (io_quiet _ HI j u). by destruct (agent s j).
Qed.

Lemma user_inv u ok s s' :
  ioinv s → disciplined (OUser u ok) s → user_step u ok s = Some s' → ioinv s'.
Proof.
  intros HI Hd Hs. pose proof (io_dir _ HI u) as HU. pose proof (io_user_closing s u HI) as Hcl.
  assert (Hno : ∀ j, closer (agent s j) = false).
  { intros j. destruct (closer (agent s j)) eqn:Hc; [|done]. pose proof (io_quiet _ HI j u Hc) as Hu.
    simpl in Hd. rewrite Hu in Hd. by rewrite Hd in Hc. }
  pose proof (io_bad _ HI) as Hbad. pose proof (d_user _ _ HU) as Hpc.
  assert (Hother : agent s' = agent s ∧ bad_resume s' = false ∧ closing (pd s') = closing (pd s)
    ∧ ∀ d, d ≠ u → slot d (pd s') = slot d (pd s) ∧ user s' d = user s d ∧ owed s' d = owed s d
         ∧ (in_window (user s d) = true → isBlockingOnRead (pd s') = isBlockingOnRead (pd s))).
  { unfold user_step in Hs. simpl in Hd.
    destruct (user s u) as [ | | | | | | | | |b|b|b| | ] eqn:E; try discriminate Hs; injection Hs as <-;
      try match type of Hpc with _ ∧ _ => destruct Hpc as [Hpc _]; rewrite Hpc | b = u => rewrite Hpc end;
      try (case_decide || case_match);
      (split_and!; [done|done|by destruct u|]);
      intros d Hdu; simpl; rewrite ?fn_lookup_insert_ne by done;
      rewrite ?slot_set_ne by done; (split_and!; [by destruct u, d|done|done|]); try done;
      try (by destruct u, d).
    intros Hw. assert (d = negb u) as -> by (by destruct u, d).
    by rewrite Hw in Hd. }
  destruct Hother as (Hag & Hb' & Hc' & Hother).
  split; [|intros j d; by rewrite Hag, Hno|intros Hc; rewrite Hc' in Hc; rewrite Hag; by apply HI|done].
  intros d. destruct (decide (d = u)) as [->|Hdu].
  2: { destruct (Hother d Hdu) as (? & ? & ? & ?).
       apply (dinv_frame s); [apply HI|done..| |].
       - intros j. by rewrite Hag.
       - intros j old ds c. rewrite Hag. eauto. }
  clear Hother Hag Hb' Hc'. unfold user_step in Hs. pose proof (d_owed _ _ HU) as Howed.
  destruct (user s u) as [ | | | | | | | | |b|b|b| | ] eqn:E; try discriminate Hs; injection Hs as <-;
    try match type of Hpc with _ ∧ _ => destruct Hpc as [Hpc Hready]; rewrite Hpc | b = u => rewrite Hpc end;
    rewrite ?Hcl by congruence; try (case_decide as Hslot || case_match);
    try (apply (dinv_moving s); [done|congruence|..]; simpl; rewrite ?fn_lookup_insert, ?slot_set_eq;
         try done; destruct u; by auto).
  apply (dinv_park s u); [done|congruence|done].
Qed.

Lemma resumes_insert s j p' d i :
  resumes d p' = resumes d (agent s j) →
  resumes d ((<[j := p']> (agent s)) i) = resumes d (agent s i).
Proof.
  intros Hr. destruct (decide (i = j)) as [->|]; [by rewrite fn_lookup_insert|].
  by rewrite fn_lookup_insert_ne.
Qed.

(** A step of agent [j] that does not change the slot of direction [d]. *)
Lemma dinv_agent s s' j p' d :
  dinv s d →
  slot d (pd s') = slot d (pd s) → user s' d = user s d →
  (owed s' d = true → slot d (pd s') = POLL_READY) →
  isBlockingOnRead (pd s') = isBlockingOnRead (pd s) →
  agent s' = <[j := p']> (agent s) → resumes d p' = resumes d (agent s j) →
  (∀ old ds c, p' = NCas d old ds c → old = nullptr ∨ old = ut d) →
  dinv s' d.
Proof.
  intros [H1 H2 H3 H4 H5 H6] Hs Hu Ho Hb Ha Hr Hc.
  pose proof (λ i, resumes_insert s j p' d i Hr) as Hres.
  split; rewrite ?Hs, ?Hu, ?Ha; try done.
  - destruct (user s d); try done; rewrite ?Hb; try done.
    destruct H2 as [|[i Hi]]; [by left|right]. exists i. by rewrite Hres.
  - intros i. rewrite Hres. intros Hi. destruct (H4 i Hi) as (? & ? & Hq). split_and!; [done..|].
    intros i'. rewrite Hres. apply Hq.
  - intros i old ds c. destruct (decide (i = j)) as [->|].
    + rewrite fn_lookup_insert. apply Hc.
    + rewrite fn_lookup_insert_ne by done. apply H5.
  - by rewrite <-Hs.
Qed.

(** Who closes, after a step of agent [j]. *)
Lemma quiet_agent s j p' a' :
  ioinv s → a' = <[j := p']> (agent s) → (closer p' = true → ∀ d, user s d = UIdle) →
  ∀ i d, closer (a' i) = true → user s d = UIdle.
Proof.
  intros HI -> Hq i d. destruct (decide (i = j)) as [->|].
  - rewrite fn_lookup_insert. intros Hc. by apply Hq.
  - rewrite fn_lookup_insert_ne by done. apply (io_quiet _ HI).
Qed.
Lemma closing_agent s j p' a' :
  ioinv s → a' = <[j := p']> (agent s) →
  (holds_closing (agent s j) = true → holds_closing p' = true) →
  closing (pd s) = true → ∃ i, holds_closing (a' i) = true.
Proof.
  intros HI -> Hk Hc. destruct (io_closing _ HI Hc) as [i Hi]. exists i.
  destruct (decide (i = j)) as [->|]; [rewrite fn_lookup_insert; auto|by rewrite fn_lookup_insert_ne].
Qed.

(** The same for both directions. *)
Lemma agent_frame s s' j p' :
  ioinv s →
  pd s' = pd s → user s' = user s →
  (∀ d, owed s' d = true → slot d (pd s) = POLL_READY) →
  agent s' = <[j := p']> (agent s) → (∀ d, resumes d p' = resumes d (agent s j)) →
  (∀ d old ds c, p' = NCas d old ds c → old = nullptr ∨ old = ut d) →
  (closer p' = true → ∀ d, user s d = UIdle) → (holds_closing (agent s j) = true → holds_closing p' = true) →
  bad_resume s' = bad_resume s →
  ioinv s'.
Proof.
  intros HI Hp Hu Ho Ha Hr Hc Hq Hk Hb.
  split; [|rewrite Hu; by eapply (quiet_agent s)|rewrite Hp; by eapply (closing_agent s)|by rewrite Hb; apply HI].
  - intros d. apply (dinv_agent s _ j p'); [apply HI|by rewrite Hp|by rewrite Hu| |by rewrite Hp|done|done|].
    + rewrite Hp. apply Ho.
    + apply Hc.
Qed.

(** [unblock] exchanges [nullptr] for POLL_READY. *)
Lemma cas_ready_inv s j d ds c :
  ioinv s → closer (agent s j) = c → holds_closing (agent s j) = false → slot d (pd s) = nullptr → resumes true (agent s j) = false →
  resumes false (agent s j) = false →
  ioinv (set_agent j (NNext ds c) (set_owed d true (set_pd (set_slot d POLL_READY (pd s)) s))).
Proof.
  intros HI Hcl Hhc Hs Ht Hf. assert (Hr : ∀ d, resumes d (agent s j) = false) by (by intros []).
  assert (Hcd : ∀ v, closing (set_slot d v (pd s)) = closing (pd s)) by (by intros; destruct d).
  split; [| | |apply HI].
  2: { eapply (quiet_agent s); [done|done|]. simpl. rewrite <-Hcl. intros Hc d'. by apply (io_quiet _ HI j). }
  2: { simpl. rewrite Hcd. eapply (closing_agent s); [done|done|]. congruence. }
  intros d'. destruct (decide (d' = d)) as [->|Hne].
  - destruct (io_dir _ HI d) as [H1 H2 H3 H4 H5 H6].
    pose proof (λ i, resumes_insert s j (NNext ds c) d i (eq_sym (Hr d))) as Hres.
    destruct (ut_not d) as (_ & Hur & _).
    split; simpl; rewrite ?slot_set_eq; auto.
    + destruct (user s d); try done; try (by destruct d); try (by destruct H2).
      destruct H2 as [Hu|[i Hi]]; [destruct (ut_not d); congruence|]. right. exists i. by rewrite Hres.
    + intros Hq. congruence.
    + intros i. rewrite Hres. intros Hi. destruct (H4 i Hi) as (? & ? & Hq). split_and!; [done|congruence|].
      intros i'. rewrite Hres. apply Hq.
    + intros i old ds' c'. destruct (decide (i = j)) as [->|]; [by rewrite fn_lookup_insert|].
      rewrite fn_lookup_insert_ne by done. apply H5.
  - apply (dinv_agent s _ j (NNext ds c)); simpl; try done.
    + apply HI.
    + by apply slot_set_ne.
    + rewrite slot_set_ne, fn_lookup_insert_ne by done. apply HI.
    + by destruct d.
Qed.

(** [unblock] takes the uThread out of the slot. *)
Lemma cas_take_inv s j d ds c :
  ioinv s → closer (agent s j) = c → holds_closing (agent s j) = false → slot d (pd s) = ut d → resumes true (agent s j) = false →
  resumes false (agent s j) = false →
  ioinv (set_agent j (NResume d ds c) (set_pd (set_slot d nullptr (pd s)) s)).
Proof.
  intros HI Hcl Hhc Hs Ht Hf. assert (Hr : ∀ d, resumes d (agent s j) = false) by (by intros []).
  assert (Hcd : ∀ v, closing (set_slot d v (pd s)) = closing (pd s)) by (by intros; destruct d).
  split; [| | |apply HI].
  2: { eapply (quiet_agent s); [done|done|]. simpl. rewrite <-Hcl. intros Hc d'. by apply (io_quiet _ HI j). }
  2: { simpl. rewrite Hcd. eapply (closing_agent s); [done|done|]. congruence. }
  intros d'. destruct (decide (d' = d)) as [->|Hne].
  - destruct (io_dir _ HI d) as [H1 H2 H3 H4 H5 H6].
    assert (Hnone : ∀ i, resumes d (agent s i) = false).
    { intros i. destruct (resumes d (agent s i)) eqn:Hi; [|done]. by destruct (H4 i Hi) as (_ & ? & _). }
    assert (Hme : ∀ i, resumes d ((<[j := NResume d ds c]> (agent s)) i) = true ↔ i = j).
    { intros i. destruct (decide (i = j)) as [->|].
      - rewrite fn_lookup_insert. simpl. by rewrite bool_decide_eq_true.
      - rewrite fn_lookup_insert_ne, Hnone by done. done. }
    destruct (ut_not d) as (Hu0 & _ & _).
    split; simpl; rewrite ?slot_set_eq; auto.
    + rewrite (H3 Hs). right. exists j. by apply Hme.
    + intros i ->%Hme. split_and!; [auto|congruence|]. intros i' ->%Hme. done.
    + intros i old ds' c'. destruct (decide (i = j)) as [->|]; [by rewrite fn_lookup_insert|].
      rewrite fn_lookup_insert_ne by done. apply H5.
    + intros Ho. apply H6 in Ho. destruct (ut_not d) as (_ & ? & _). congruence.
  - apply (dinv_agent s _ j (NResume d ds c)); simpl; try done.
    + apply HI.
    + by apply slot_set_ne.
    + rewrite slot_set_ne by done. apply HI.
    + by destruct d.
    + rewrite Hr. by apply bool_decide_eq_false.
Qed.

(** [old->resume()] *)
Lemma io_resume_inv s j d ds c :
  ioinv s → agent s j = NResume d ds c →
  ioinv (set_agent j (NNext ds c) (io_resume d s)).
Proof.
  intros HI Hj. assert (Hjd : resumes d (agent s j) = true).
  { rewrite Hj. simpl. by apply bool_decide_eq_true. }
  destruct (io_dir _ HI d) as [H1 H2 H3 H4 H5 H6]. destruct (H4 j Hjd) as (Hu & Hns & Huniq).
  assert (Hno : ∀ i, closer (agent s i) = false).
  { intros i. destruct (closer (agent s i)) eqn:Hc; [|done]. apply (io_quiet _ HI i d) in Hc. congruence. }
  assert (Ec : c = false) by (specialize (Hno j); by rewrite Hj in Hno).
  unfold io_resume. rewrite Hu. split; [| |simpl; eapply (closing_agent s); [done|done|by rewrite Hj]|apply HI].
  2: { intros i d' Hc. simpl in Hc. destruct (decide (i = j)) as [->|]; [rewrite fn_lookup_insert in Hc; simpl in Hc; congruence|].
       rewrite fn_lookup_insert_ne, Hno in Hc by done. done. }
  intros d'. destruct (decide (d' = d)) as [->|Hne].
  - assert (Hnone : ∀ i, resumes d ((<[j := NNext ds c]> (agent s)) i) = false).
    { intros i. destruct (decide (i = j)) as [->|]; [by rewrite fn_lookup_insert|].
      rewrite fn_lookup_insert_ne by done.
      destruct (resumes d (agent s i)) eqn:Hi; [by apply Huniq in Hi|done]. }
    split; simpl; rewrite ?fn_lookup_insert; auto; try done.
    + intros i. by rewrite Hnone.
    + intros i old ds' c'. destruct (decide (i = j)) as [->|]; [by rewrite fn_lookup_insert|].
      rewrite fn_lookup_insert_ne by done. apply H5.
  - apply (dinv_agent s _ j (NNext ds c)); simpl; try done.
    + apply HI.
    + by rewrite fn_lookup_insert_ne.
    + apply HI.
    + rewrite Hj. simpl. symmetry. apply bool_decide_eq_false. congruence.
Qed.

(** The reset of close: nobody blocks. *)
Lemma reset_inv s j :
  ioinv s → agent s j = CReset → ioinv (set_agent j CPush (drop_owed (set_pd (pd_reset (pd s)) s))).
Proof.
  intros HI Hj. assert (Hidle : ∀ d, user s d = UIdle) by (intros d; apply (io_quiet _ HI j); by rewrite Hj).
  assert (Hno : ∀ d i, resumes d (agent s i) = false).
  { intros d i. destruct (resumes d (agent s i)) eqn:Hr; [|done].
    destruct (d_resume _ _ (io_dir _ HI d) i Hr) as [Hu _]. by rewrite Hidle in Hu. }
  assert (Hno' : ∀ d i, resumes d ((<[j := CPush]> (agent s)) i) = false).
  { intros d i. rewrite resumes_insert by (by rewrite Hj). apply Hno. }
  split; [|by eapply (quiet_agent s)|done|apply HI]. intros d. split; simpl.
  - by destruct d; left.
  - by rewrite Hidle.
  - intros Hd. destruct (ut_not d) as [? _]. by destruct d.
  - intros i. by rewrite Hno'.
  - intros i old ds c. destruct (decide (i = j)) as [->|]; [by rewrite fn_lookup_insert|].
    rewrite fn_lookup_insert_ne by done. apply (d_cas _ _ (io_dir _ HI d)).
  - done.
Qed.
(** The compare-exchange of close. *)
Lemma closing_inv s j :
  ioinv s → agent s j = CCas → ioinv (set_agent j CDel (set_pd (set_closing (pd s)) s)).
Proof.
  intros HI Hj. assert (Hidle : ∀ d, user s d = UIdle) by (intros d; apply (io_quiet _ HI j); by rewrite Hj).
  split; [|by eapply (quiet_agent s)|intros _; exists j; simpl; by rewrite fn_lookup_insert|apply HI].
  assert (Hsl : ∀ d, slot d (set_closing (pd s)) = slot d (pd s)) by (by intros []).
  intros d. apply (dinv_agent s _ j CDel); simpl; rewrite ?Hsl; try done; [apply HI..|by rewrite Hj].
Qed.

Lemma agent_inv j s s' : ioinv s → agent_step j s = Some s' → ioinv s'.
Proof.
  intros HI Hs. pose proof (io_quiet _ HI j) as Hq. unfold agent_step, agent_do in Hs.
  assert (Ho : ∀ d, owed s d = true → slot d (pd s) = POLL_READY) by (intros d; apply HI).
  destruct (agent s j) as [ |[|d ds] c|d ds c|d ds c|d old ds c|d ds c| | | | | | ] eqn:E;
    simpl in Hq; try done; injection Hs as <-.
  - destruct c; [eapply (agent_frame s _ j CCas)|eapply (agent_frame s _ j NIdle)]; try done; try by rewrite E.
    all: intros _ d; by apply Hq.
  - eapply (agent_frame s _ j (NClosing d ds c)); try done; try (by rewrite E). intros ? d'. by apply Hq.
  - eapply (agent_frame s _ j (if closing (pd s) then NNext ds c else NLoad d ds c)); try done;
      try (by rewrite E; destruct (closing (pd s))).
    + by destruct (closing (pd s)).
    + intros Hc d'. apply Hq. by destruct (closing (pd s)).
  - case_decide as Hr.
    + eapply (agent_frame s _ j (NNext ds c)); try done; try (by rewrite E).
      * intros d'. simpl. destruct (decide (d' = d)) as [->|]; [done|].
        rewrite fn_lookup_insert_ne by done. apply Ho.
      * intros ? d'. by apply Hq.
    + eapply (agent_frame s _ j (NCas d (slot d (pd s)) ds c)); try done; try (by rewrite E).
      * intros d' old ds' c' Heq. injection Heq as <- <- _ _.
        destruct (d_slot _ _ (io_dir _ HI d)) as [|[|]]; auto. done.
      * intros ? d'. by apply Hq.
  - case_decide as Hold.
    + destruct (d_cas _ _ (io_dir _ HI d) j old ds c E) as [->|Hut].
      * rewrite decide_False by (unfold nullptr, POLL_WAIT; lia).
        destruct (decide (nullptr = nullptr ∨ _)) as [_|Hn]; [|tauto].
        apply cas_ready_inv; [done|by rewrite E|by rewrite E|done|by rewrite E..].
      * pose proof (ut_not d) as (Hu0 & Hu1 & Hu2). pose proof (ut_valid d) as Hv.
        rewrite Hut in *. destruct (decide (ut d = nullptr ∨ _)) as [Hn|_]; [tauto|].
        rewrite decide_True by done.
        rewrite who_is_ut. apply cas_take_inv; [done|by rewrite E|by rewrite E|done|by rewrite E..].
    + eapply (agent_frame s _ j (NLoad d ds c)); try done; try (by rewrite E). intros ? d'. by apply Hq.
  - by eapply io_resume_inv.
  - case_decide; [eapply (agent_frame s _ j (NClosing true [true] true))|eapply (agent_frame s _ j CWut)];
      try done; try (by rewrite E); intros ? d'; by apply Hq.
  - eapply (agent_frame s _ j (NClosing true [] true)); try done; try (by rewrite E). intros ? d'. by apply Hq.
  - destruct (closing (pd s)) eqn:Hc; [|by apply closing_inv]. eapply (agent_frame s _ j NIdle); try done; by rewrite E.
  - eapply (agent_frame s _ j CReset); try done; try (by rewrite E). intros ? d'. by apply Hq.
  - by apply reset_inv.
  - eapply (agent_frame s _ j NIdle); try done; by rewrite E.
Qed.

Lemma iostep_inv l s s' : ioinv s → disciplined l s → iostep l s = Some s' → ioinv s'.
Proof.
  intros HI Hd Hs. destruct l as [d ok|j ev|j|j]; simpl in Hs.
  - by eapply user_inv.
  - destruct (agent s j) eqn:E; try done. injection Hs as <-.
    eapply (agent_frame s _ j (NNext (PollReady (poll_mode ev)) false)); try done; try (by rewrite E).
    intros d. apply HI.
  - destruct (agent s j) eqn:E; try done. injection Hs as <-.
    eapply (agent_frame s _ j CRut); try done; try (by rewrite E). intros d. apply HI.
  - by eapply agent_inv.
Qed.
Lemma kept_inv tr s s' : ioinv s → kept tr s → run iostep tr s = Some s' → ioinv s'.
Proof.
  revert s. induction tr as [|l tr IH]; intros s HI Hk Hr; simpl in *; [by simplify_eq|].
  destruct Hk as [Hd Hk]. destruct (iostep l s) as [s1|] eqn:E; [|done]. simpl in Hr.
  apply (IH s1); [by eapply iostep_inv|done|done].
Qed.

(** A run of the agents [js] alone, checked by computation. *)
Definition label_agent (l : iolabel) : option nat :=
  match l with OUser _ _ => None | OEvent j _ | OClose j | OAgent j => Some j end.
Definition at_rest (p : upc) : bool := match p with UIdle => true | _ => false end.
Definition disciplinedb (js : list nat) (l : iolabel) (s : io) : bool :=
  match l with
  | OClose _ => at_rest (user s true) && at_rest (user s false)
  | OUser d _ =>
      match user s d with
      | UIdle => forallb (λ j, negb (closer (agent s j))) js
      | USet => negb (in_window (user s (negb d)))
      | _ => true
      end
  | _ => true
  end.
Fixpoint keptb (js : list nat) (tr : list iolabel) (s : io) : bool :=
  match tr with
  | [] => true
  | l :: tr' =>
      disciplinedb js l s && match label_agent l with Some j => bool_decide (j ∈ js) | None => true end
      && match iostep l s with Some s' => keptb js tr' s' | None => true end
  end.
Lemma agent_step_other j s s' i : agent_step j s = Some s' → i ≠ j → agent s' i = agent s i.
Proof using.
  unfold agent_step, agent_do, io_resume. intros Hs Hi.
  destruct (agent s j) as [ |[|? ?] ?| | | | | | | | | | ]; try done; repeat case_match; simplify_eq; simpl;
    by rewrite fn_lookup_insert_ne.
Qed.
Lemma iostep_other l s s' i : iostep l s = Some s' → label_agent l ≠ Some i → agent s' i = agent s i.
Proof using.
  destruct l as [d ok|j ev|j|j]; simpl; intros Hs Hi.
  - unfold user_step in Hs. repeat case_match; by simplify_eq.
  - destruct (agent s j); try done. simplify_eq. simpl. rewrite fn_lookup_insert_ne; congruence.
  - destruct (agent s j); try done. simplify_eq. simpl. rewrite fn_lookup_insert_ne; congruence.
  - eapply agent_step_other; [done|congruence].
Qed.
Lemma keptb_sound js tr s :
  (∀ j, j ∉ js → agent s j = NIdle) → keptb js tr s = true → kept tr s.
Proof using.
  revert s. induction tr as [|l tr IH]; intros s Hout Hk; [done|]. simpl in Hk |- *.
  apply andb_true_iff in Hk as [[Hd Hl]%andb_true_iff Hk]. split.
  - destruct l as [d ok|j ev|j|j]; simpl in *; try done.
    + destruct (user s d); try done; [|by apply negb_true_iff]. intros j.
      destruct (decide (j ∈ js)) as [Hj|Hj]; [|by rewrite Hout].
      rewrite forallb_forall in Hd. apply negb_true_iff, Hd. by apply list_elem_of_In.
    + apply andb_true_iff in Hd as [H1 H2]. intros [].
      * by destruct (user s true).
      * by destruct (user s false).
  - destruct (iostep l s) as [s'|] eqn:E; [|done]. apply IH; [|done]. intros j Hj.
    rewrite (iostep_other l s s' j E); [by apply Hout|]. intros El. rewrite El in Hl. by apply bool_decide_eq_true in Hl.
Qed.

Lemma agent_step_set j p s : agent_step j (set_agent j p s) = agent_do j p (set_agent j p s).
Proof. unfold agent_step. simpl. by rewrite fn_lookup_insert. Qed.

(** ** Theorems *)

Section runs.
(** A run from a new PollData in which the clients keep to the discipline. *)
Context (n : Z) (tr : list iolabel) (s : io).
Hypothesis Hrun : run iostep tr (io_init n) = Some s.
Hypothesis Hkept : kept tr (io_init n).

Lemma ioinv_run : ioinv s.
Proof using All. by eapply kept_inv; [apply (io_init_inv n)|..]. Qed.

(** C4. In every run in which the clients close the descriptor only when neither
    uThread is blocking on it, block only when no close is under way, and the
    reader and the writer do not overlap between the store to isBlockingOnRead
    and its load, no notification is lost: a uThread that has parked is in its
    own slot, where the next event finds it, with no notification outstanding,
    or some thread that polls is about to resume it; and an outstanding
    notification is in the slot, where the next block finds it. *)
Theorem io_no_lost_notification d :
  (user s d = UParked →
     slot d (pd s) = ut d ∧ owed s d = false ∨ ∃ j, resumes d (agent s j) = true)
  ∧ (owed s d = true → slot d (pd s) = POLL_READY).
Proof using All.
  pose proof ioinv_run as HI. destruct (io_dir _ HI d) as [H1 H2 H3 H4 H5 H6]. split; [|done].
  intros Hu. rewrite Hu in H2. destruct H2 as [Hs|Hj]; [left|by right]. split; [done|].
  destruct (owed s d); [|done]. rewrite H6 in Hs by done. pose proof (ut_not d) as (_ & Hne & _).
  congruence.
Qed.

(** A blocked uThread is resumed exactly once: every resume finds its
    uThread parked, and at most one thread is about to resume it. *)
Theorem io_resume_once :
  bad_resume s = false
  ∧ ∀ d j j', resumes d (agent s j) = true → resumes d (agent s j') = true →
              user s d = UParked ∧ j = j'.
Proof using All.
  pose proof ioinv_run as HI. split; [apply HI|]. intros d j j' Hj Hj'.
  destruct (d_resume _ _ (io_dir _ HI d) j' Hj') as (Hu & _ & Hq). by split; [|apply Hq].
Qed.

(** An event wakes the uThread that waits for it: a thread that polls and
    gets an event for direction [d] alone resumes a uThread parked in its slot
    by its own next six steps, whatever the state it starts from. *)
Theorem io_event_wakes d j ev :
  PollReady (poll_mode ev) = [d] → agent s j = NIdle → slot d (pd s) = ut d →
  ∃ s', run iostep (OEvent j ev :: repeat (OAgent j) 6) s = Some s'
        ∧ user s' d = UIdle ∧ slot d (pd s') = nullptr ∧ agent s' j = NIdle.
Proof using All.
  intros Hev Hj Hslot. pose proof ioinv_run as HI.
  pose proof (d_parked _ _ (io_dir _ HI d) Hslot) as Hpark.
  pose proof (ut_not d) as (Hu0 & Hu1 & Hu2). pose proof (ut_valid d) as Hv.
  eexists. unfold run. simpl. rewrite Hj, Hev. simpl.
  rewrite agent_step_set. simpl.
  rewrite agent_step_set. simpl. rewrite (io_user_closing s d HI) by congruence.
  rewrite agent_step_set. simpl. rewrite decide_False by congruence. simpl.
  rewrite agent_step_set. simpl. rewrite decide_True, Hslot by done.
  destruct (decide (ut d = nullptr ∨ _)) as [Hn|_]; [tauto|].
  rewrite decide_True, who_is_ut by done. simpl.
  rewrite agent_step_set. simpl. unfold io_resume at 1. simpl. rewrite Hpark.
  rewrite agent_step_set. simpl. split; [done|]. simpl.
  rewrite !fn_lookup_insert, slot_set_eq. done.
Qed.
End runs.

(** Errors and hang-ups wake both uThreads of a file descriptor; input
    and a peer's shutdown wake the reader; output readiness the writer; and
    no other event wakes anybody. *)
Theorem poll_mode_dirs ev :
  PollReady (poll_mode ev)
  = (if Z.testbit ev 0 || Z.testbit ev 13 || Z.testbit ev 4 || Z.testbit ev 3 then [true] else [])
    ++ (if Z.testbit ev 2 || Z.testbit ev 4 || Z.testbit ev 3 then [false] else []).
Proof.
  assert (Hbit : ∀ x k, (0 ≤ k → Z.land x (2 ^ k) = if Z.testbit x k then 2 ^ k else 0)%Z).
  { intros x k Hk. apply Z.bits_inj'. intros i Hi. rewrite Z.land_spec, Z.pow2_bits_eqb by done.
    destruct (Z.eqb_spec k i) as [->|Hne].
    - destruct (Z.testbit x i); [by rewrite Z.pow2_bits_true|by rewrite Z.bits_0].
    - rewrite andb_false_r. destruct (Z.testbit x k); [by rewrite Z.pow2_bits_false|by rewrite Z.bits_0]. }
  pose proof (Hbit ev 0%Z ltac:(lia)) as H0. pose proof (Hbit ev 2%Z ltac:(lia)) as H2.
  pose proof (Hbit ev 3%Z ltac:(lia)) as H3. pose proof (Hbit ev 4%Z ltac:(lia)) as H4.
  pose proof (Hbit ev 13%Z ltac:(lia)) as H13.
  change (2 ^ 0)%Z with EPOLLIN in H0. change (2 ^ 2)%Z with EPOLLOUT in H2.
  change (2 ^ 3)%Z with EPOLLERR in H3. change (2 ^ 4)%Z with EPOLLHUP in H4.
  change (2 ^ 13)%Z with EPOLLRDHUP in H13.
  unfold PollReady, poll_mode. rewrite !Z.land_lor_distr_r, H0, H2, H3, H4, H13.
  by destruct (Z.testbit ev 0), (Z.testbit ev 2), (Z.testbit ev 3), (Z.testbit ev 4),
    (Z.testbit ev 13).
Qed.
End io.

(** ** Runs *)

Definition demo_ut (d : bool) : addr := if d then 64%Z else 128%Z.
Definition io_demo (tr : list iolabel) : option io := run (iostep demo_ut) tr (io_init 5).
Definition reader (n : nat) : list iolabel := repeat (OUser true true) n.
Definition writer (n : nat) : list iolabel := repeat (OUser false true) n.
Definition polls (j : nat) (ev : Z) (n : nat) : list iolabel := OEvent j ev :: repeat (OAgent j) n.
Definition closes (j n : nat) : list iolabel := OClose j :: repeat (OAgent j) n.

Lemma demo_ut_valid : ∀ d, (POLL_WAIT < demo_ut d)%Z.
Proof. intros []; reflexivity. Qed.
Lemma demo_ut_inj : demo_ut true ≠ demo_ut false.
Proof. done. Qed.

(** The reader opens the descriptor, blocks and parks, is woken and blocks on
    nothing any more; the descriptor is closed; its PollData is used again, and
    the reader parks again. *)
Definition io_life : list iolabel :=
  reader 10 ++ polls 0 EPOLLIN 6 ++ closes 1 10 ++ reader 10.
Definition io_parked : io := default (io_init 5) (io_demo io_life).
Lemma io_parked_run : run (iostep demo_ut) io_life (io_init 5) = Some io_parked.
Proof.
  assert (Hs : (if io_demo io_life is Some _ then true else false) = true) by (vm_compute; reflexivity).
  unfold io_parked, io_demo in *. by destruct (run _ io_life _).
Qed.
Lemma io_life_kept : kept demo_ut io_life (io_init 5).
Proof. apply (keptb_sound demo_ut [0; 1]); [done|]. vm_compute. reflexivity. Qed.

Lemma io_no_lost_notification_witness :
  user io_parked true = UParked
  ∧ (slot true (pd io_parked) = demo_ut true ∧ owed io_parked true = false
     ∨ ∃ j, resumes true (agent io_parked j) = true).
Proof.
  assert (Hu : user io_parked true = UParked) by (vm_compute; reflexivity). split; [done|].
  by apply (io_no_lost_notification demo_ut demo_ut_valid demo_ut_inj 5 io_life io_parked
              io_parked_run io_life_kept true).
Defined.

Lemma io_resume_once_witness : bad_resume io_parked = false.
Proof.
  by apply (io_resume_once demo_ut demo_ut_valid demo_ut_inj 5 io_life io_parked io_parked_run io_life_kept).
Defined.

Lemma io_event_wakes_witness :
  ∃ s', run (iostep demo_ut) (OEvent 0 EPOLLIN :: repeat (OAgent 0) 6) io_parked = Some s'
        ∧ user s' true = UIdle.
Proof.
  destruct (io_event_wakes demo_ut demo_ut_valid demo_ut_inj 5 io_life io_parked io_parked_run io_life_kept
              true 0 EPOLLIN) as (s' & Hr & Hu & _); [vm_compute; reflexivity..|]. exact (ex_intro _ s' (conj Hr Hu)).
Defined.

(** [isBlockingOnRead] is shared by the reader and the writer: when the
    writer stores to it before the reader's postSwitchFunc loads it, the reader
    parks in the writer's slot, and a read event is left in the reader's own
    slot, where nobody looks for it. *)
Theorem io_direction_race :
  ∃ tr s, io_demo tr = Some s
    ∧ user s true = UParked ∧ wut (pd s) = demo_ut true
    ∧ owed s true = true ∧ rut (pd s) = POLL_READY ∧ ∀ j, agent s j = NIdle.
Proof.
  exists (reader 6 ++ writer 4 ++ reader 4 ++ polls 0 EPOLLIN 5). eexists.
  split; [vm_compute; reflexivity|]. vm_compute. split_and!; try reflexivity.
  intros [|j]; reflexivity.
Qed.

(** [close] never unblocks the writer: with the stray semicolon after the
    test of [wut] the statement below unblocks the reader a second time, and a
    uThread parked on a write stays parked after the PollData has been reset
    and recycled. *)
Theorem io_close_loses_writer :
  ∃ tr s, io_demo tr = Some s
    ∧ user s false = UParked ∧ wut (pd s) = nullptr ∧ cached s = 1
    ∧ ∀ j, agent s j = NIdle.
Proof.
  exists (writer 10 ++ closes 0 10). eexists. split; [vm_compute; reflexivity|]. vm_compute.
  split_and!; try reflexivity. intros [|j]; reflexivity.
Qed.

(** postSwitchFunc returns when the descriptor is closing, after the
    uThread has been suspended and before it is published: nobody resumes it. *)
Theorem io_close_loses_suspending :
  ∃ tr s, io_demo tr = Some s
    ∧ user s true = UParked ∧ rut (pd s) = nullptr ∧ wut (pd s) = nullptr
    ∧ ∀ j, agent s j = NIdle.
Proof.
  exists (reader 6 ++ closes 0 7 ++ reader 1 ++ repeat (OAgent 0) 3). eexists.
  split; [vm_compute; reflexivity|]. vm_compute. split_and!; try reflexivity. intros [|j]; reflexivity.
Qed.

(** [closing] is reset before close returns, so a second close of the same
    connection puts the PollData into the cache a second time. *)
Theorem io_close_twice :
  ∃ tr s, io_demo tr = Some s ∧ cached s = 2.
Proof. exists (closes 0 10 ++ closes 1 10). eexists. split; [vm_compute; reflexivity|]. vm_compute. reflexivity. Qed.
