(* ===== verification/PollCache.v ===== *)
(** * PollCache: recycled PollData objects

    [class PollCache] of [src/io/IOHandler.h]: PollData objects are never
    freed, so that a late epoll event finds a valid object; they are handed out
    from a queue that is refilled by 128 new ones when it is empty.  Both
    operations run under the cache's mutex.  The addresses that [new] returns
    are arguments. *)

From S2P Require Import Prelude Links IntrusiveQueue.

Section ops.
Context `{Build}.

(** [new PollData()] *)
Definition new_PollData (a : addr) : M mem unit := λ m, Ok (tt, <[a := Link_init]> m).

(** The loop of [getPollData] over the 128 new objects. *)
Fixpoint refill (news : list addr) (cache : IntrusiveQueue) : M mem IntrusiveQueue :=
  match news with
  | [] => mret cache
  | pd :: news' => new_PollData pd;; cache' ← Queue.push cache pd; refill news' cache'
  end.

(** [PollData* getPollData()] *)
Definition getPollData (news : list addr) (cache : IntrusiveQueue) : M mem (addr * IntrusiveQueue) :=
  e ← Queue.empty cache;
  cache1 ← (if (e : bool) then refill news cache else mret cache);
  let pd := Queue.front cache1 in
  r ← Queue.pop cache1;
  mret (pd, r.2).

(** [void pushPollData(PollData* pd)] *)
Definition pushPollData (pd : addr) (cache : IntrusiveQueue) : M mem IntrusiveQueue :=
  Queue.push cache pd.
End ops.

(** ** Specification: the objects handed out, and a list of free ones *)

Record pool := mkPool { out : list addr; free : list addr }.

Inductive pcop : Type :=
  | PGet (news : list addr)
  | PPut (pd : addr).

(** What [new] may return: 128 objects that do not exist yet. *)
Definition fresh_objects (news : list addr) (p : pool) : Prop :=
  length news = 128 ∧ NoDup news ∧ nullptr ∉ news ∧ (∀ a, a ∈ news → a ∉ out p).
#[export] Instance fresh_objects_dec news p : Decision (fresh_objects news p).
Proof.
  unfold fresh_objects.
  assert (Decision (∀ a, a ∈ news → a ∉ out p)); [|apply _].
  destruct (decide (Forall (λ a, a ∉ out p) news)) as [H|H].
  - left. by apply Forall_forall.
  - right. intros Ha. apply H. by apply Forall_forall.
Defined.

Definition pool_op (o : pcop) (p : pool) : option (addr * pool) :=
  match o with
  | PGet news =>
      match free p with
      | a :: r => Some (a, mkPool (a :: out p) r)
      | [] =>
          if decide (fresh_objects news p) then
            match news with
            | a :: r => Some (a, mkPool (a :: out p) r)
            | [] => None
            end
          else None
      end
  | PPut pd =>
      if decide (pd ∈ out p) then
        Some (pd, mkPool (remove Z.eq_dec pd (out p)) (free p ++ [pd]))
      else None
  end.
Definition exec_pc `{Build} (o : pcop) (cache : IntrusiveQueue) : M mem (addr * IntrusiveQueue) :=
  match o with
  | PGet news => getPollData news cache
  | PPut pd => cache' ← pushPollData pd cache; mret (pd, cache')
  end.

Fixpoint pool_ops (os : list pcop) (p : pool) : option (list addr * pool) :=
  match os with
  | [] => Some ([], p)
  | o :: os' =>
      '(a, p1) ← pool_op o p;
      '(l, p2) ← pool_ops os' p1;
      Some (a :: l, p2)
  end.
Fixpoint exec_pcs `{Build} (os : list pcop) (cache : IntrusiveQueue) : M mem (list addr * IntrusiveQueue) :=
  match os with
  | [] => mret ([], cache)
  | o :: os' =>
      r ← exec_pc o cache;
      r' ← exec_pcs os' r.2;
      mret (r.1 :: r'.1, r'.2)
  end.

(** The cache holds the free objects, which are distinct from those handed
    out; these are on no list. *)
Record pool_rep (m : mem) (cache : IntrusiveQueue) (p : pool) : Prop := {
  pr_queue : queue_rep m cache (free p);
  pr_nodup : NoDup (out p ++ free p);
  pr_out : ∀ a, a ∈ out p → a ≠ nullptr ∧ next_of m a = Some nullptr
}.

Section refinement.
Context `{Build}.

Lemma wp_empty m q l (Q : bool → mem → Prop) :
  queue_rep m q l → Q (bool_decide (l = [])) m → wp (Queue.empty q) Q m.
Proof.
  intros Hq HQ. pose proof (queue_rep_null _ _ _ Hq) as [Hn He].
  apply wp_bind, wp_assert; [by apply wp_ret, bool_decide_eq_true|]. apply wp_ret.
  replace (qhead q =? nullptr)%Z with (bool_decide (l = [])); [done|].
  destruct (Z.eqb_spec (qhead q) nullptr) as [E|E]; case_bool_decide; naive_solver.
Qed.

Lemma next_of_new m a b v :
  next_of m b = Some v → b ≠ a → next_of (<[a := Link_init]> m) b = Some v.
Proof. intros Hb Hne. unfold next_of in *. by rewrite lookup_insert_ne. Qed.

Lemma queue_rep_new m q l a :
  queue_rep m q l → a ∉ l → queue_rep (<[a := Link_init]> m) q l.
Proof.
  intros [(Hnd & H0 & Hc) Ht] Ha. split; [|done]. split_and!; [done..|].
  eapply chain_ext; [|done]. intros x Hx. unfold next_of. by rewrite lookup_insert_ne by set_solver.
Qed.

(** The refill appends the new objects, and touches nothing else. *)
Lemma refill_spec news m q l (P : addr → Prop) :
  queue_rep m q l → NoDup (l ++ news) → nullptr ∉ news → (∀ a, P a → a ∉ l ++ news) →
  wp (refill news q)
     (λ q' m', queue_rep m' q' (l ++ news)
               ∧ ∀ a, P a → next_of m a = Some nullptr → next_of m' a = Some nullptr) m.
Proof.
  revert m q l. induction news as [|x news IH]; intros m q l Hq Hnd H0 HP; simpl.
  - apply wp_ret. rewrite app_nil_r. eauto.
  - assert (Hx : x ∉ l ∧ x ∉ news ∧ x ≠ nullptr).
    { apply NoDup_app in Hnd as (_ & Hd & [Hx _]%NoDup_cons). set_solver. }
    destruct Hx as (Hxl & Hxn & Hx0). apply wp_bind. unfold new_PollData. unfold wp at 1.
    apply wp_bind. eapply wp_mono.
    { apply (push_spec _ _ l x); [by apply queue_rep_new|done|done|].
      unfold next_of. by rewrite lookup_insert_eq. }
    intros q' m' [Hq' Hs]. eapply wp_mono.
    { apply (IH m' q' (l ++ [x])); [done|by rewrite <-app_assoc|set_solver|].
      intros a Ha. rewrite <-app_assoc. by apply HP. }
    intros q2 m2 [Hq2 Hk]. rewrite <-app_assoc in Hq2. split; [done|].
    intros a Ha Hn. apply Hk; [done|]. destruct Hs as [Hs _].
    assert (a ∉ l ∧ a ≠ x) as [? ?] by (apply HP in Ha; set_solver).
    rewrite Hs by done. by apply next_of_new.
Qed.

Lemma NoDup_remove_Z x (l : list Z) : NoDup l → NoDup (remove Z.eq_dec x l) ∧ x ∉ remove Z.eq_dec x l.
Proof.
  intros Hl. split; [|intros Hin%list_elem_of_In; by eapply remove_In].
  induction Hl as [|y l Hy Hl IH]; simpl; [constructor|].
  destruct (Z.eq_dec x y); [done|]. constructor; [|done].
  intros Hin%list_elem_of_In. apply in_remove in Hin as [? _]. by apply Hy, list_elem_of_In.
Qed.

(** [front] and [pop] on the refilled queue. *)
Lemma take_refines p x r q1 m1 :
  queue_rep m1 q1 (x :: r) → NoDup (out p ++ x :: r) →
  (∀ b, b ∈ out p → b ≠ nullptr ∧ next_of m1 b = Some nullptr) →
  wp (let pd := Queue.front q1 in r ← Queue.pop q1; mret (pd, r.2))
     (λ y m', y.1 = x ∧ pool_rep m' y.2 (mkPool (x :: out p) r)) m1.
Proof.
  intros Hq1 Hnd1 Ho1. pose proof (queue_rep_head _ _ _ _ Hq1) as [Hx Hx0].
  cbv zeta. apply wp_bind. eapply wp_mono; [by apply pop_spec|].
  intros [y q2] m2 (_ & Hq2 & Hn2 & Hs2). apply wp_ret. split; [done|]. simpl in *.
  assert (Hxo : x ∉ out p). { apply NoDup_app in Hnd1 as (_ & Hd & _). set_solver. }
  split; simpl.
  - done.
  - rewrite <-Permutation_middle in Hnd1. done.
  - intros b [->|Hb]%elem_of_cons; [done|]. destruct (Ho1 b Hb) as [? Hb1]. split; [done|].
    destruct Hs2 as [Hs2 _]. rewrite Hs2; [done|]. set_solver.
Qed.

Lemma get_refines news m q p a p' :
  pool_rep m q p → pool_op (PGet news) p = Some (a, p') →
  wp (exec_pc (PGet news) q) (λ r m', r.1 = a ∧ pool_rep m' r.2 p') m.
Proof.
  intros [Hq Hnd Ho] Hs. simpl in Hs. cbn [exec_pc]. unfold getPollData.
  apply wp_bind. eapply wp_empty; [done|]. apply wp_bind. destruct (free p) as [|x r] eqn:Ef.
  - case_decide as Hfr; [|done]. destruct Hfr as (_ & Hn1 & Hn2 & Hn3).
    destruct news as [|x r]; simplify_eq. rewrite bool_decide_eq_true_2 by done.
    eapply wp_mono; [apply (refill_spec (a :: r) m q [] (λ b, b ∈ out p)); try done; simpl|].
    { intros b Hb Hin. by apply (Hn3 b). }
    intros q1 m1 [Hq1 Hk]. rewrite app_nil_l in Hq1. apply take_refines; [done| |].
    + rewrite app_nil_r in Hnd. apply NoDup_app. split_and!; [done| |done].
      intros b Hb Hin. by apply (Hn3 b).
    + intros b Hb. destruct (Ho b Hb). auto.
  - simplify_eq. rewrite bool_decide_eq_false_2 by done. apply wp_ret. by apply take_refines.
Qed.

Lemma put_refines pd m q p a p' :
  pool_rep m q p → pool_op (PPut pd) p = Some (a, p') →
  wp (exec_pc (PPut pd) q) (λ r m', r.1 = a ∧ pool_rep m' r.2 p') m.
Proof.
  intros [Hq Hnd Ho] Hs. simpl in Hs. case_decide as Hin; simplify_eq. cbn [exec_pc]. unfold pushPollData.
  pose proof Hnd as Hnd'. apply NoDup_app in Hnd' as (Hno & Hd & Hnf).
  destruct (Ho _ Hin) as [H0 Hn]. apply wp_bind.
  eapply wp_mono; [apply (push_spec _ _ (free p)); [done|by apply Hd|done|done]|].
  intros q' m' [Hq' Hs]. apply wp_ret. split; [done|]. simpl.
  destruct (NoDup_remove_Z a (out p) Hno) as [Hr1 Hr2].
  assert (Hr3 : ∀ b, b ∈ remove Z.eq_dec a (out p) → b ∈ out p).
  { intros b Hb%list_elem_of_In. apply in_remove in Hb as [? _]. by apply list_elem_of_In. }
  split; simpl; [done| |].
  - apply NoDup_app. split_and!; [done| |].
    + intros b Hb [Hf|He]%elem_of_app; [by apply (Hd b); auto|]. set_solver.
    + apply NoDup_app. split_and!; [done| |apply NoDup_singleton].
      intros b Hb ->%list_elem_of_singleton. by apply (Hd a).
  - intros b Hb%Hr3. destruct (Ho b Hb) as [? Hb']. split; [done|]. destruct Hs as [Hs _].
    rewrite Hs; [done|]. by apply Hd.
Qed.

Lemma exec_pc_refines o m q p a p' :
  pool_rep m q p → pool_op o p = Some (a, p') →
  wp (exec_pc o q) (λ r m', r.1 = a ∧ pool_rep m' r.2 p') m.
Proof. destruct o; [apply get_refines|apply put_refines]. Qed.
End refinement.

Lemma pool_rep_init : pool_rep ∅ IntrusiveQueue_init (mkPool [] []).
Proof.
  split; simpl; [by apply queue_rep_nil|apply NoDup_nil_2|by intros ? ?%not_elem_of_nil].
Qed.

(** PollCache implements its specification: for every history in which only
    objects that were handed out are pushed back, the pointer code returns, no
    assertion fails, the same objects are handed out in FIFO order, and no
    object is handed out to two owners at a time. *)
Theorem pollcache_refines `{Build} os l p :
  pool_ops os (mkPool [] []) = Some (l, p) →
  ∃ cache m, exec_pcs os IntrusiveQueue_init ∅ = Ok ((l, cache), m)
             ∧ pool_rep m cache p ∧ NoDup (out p ++ free p).
Proof.
  intros Hs.
  enough (wp (exec_pcs os IntrusiveQueue_init) (λ r m', r.1 = l ∧ pool_rep m' r.2 p) ∅) as Hw.
  { apply wp_Ok in Hw as ([l' q'] & m' & E & <- & Hr). exists q', m'. split_and!; [done..|apply Hr]. }
  assert (Hr := pool_rep_init). revert Hr Hs. generalize (mkPool [] []) as p0.
  generalize IntrusiveQueue_init as q0. generalize (∅ : mem) as m0. revert l p.
  induction os as [|o os IH]; intros l p m0 q0 p0 Hr Hs; simpl in *.
  - by simplify_eq.
  - destruct (pool_op o p0) as [[a p1]|] eqn:E1; simplify_eq/=.
    destruct (pool_ops os p1) as [[l2 p2]|] eqn:E2; simplify_eq/=.
    apply wp_bind. eapply wp_mono; [by eapply exec_pc_refines|].
    intros [a' q1] m1 [-> Hr1]. apply wp_bind. eapply wp_mono; [by eapply IH|].
    intros [l' q2] m2 [-> Hr2]. done.
Qed.

Definition some_news : list addr := map (λ i, Z.of_nat (16 * (i + 1))) (seq 0 128).

Lemma pollcache_refines_witness :
  let b := {| NDEBUG := false |} in
  ∃ cache m, exec_pcs (H := b) [PGet some_news; PGet []; PPut 16; PGet []] IntrusiveQueue_init ∅
             = Ok (([16; 32; 16; 48]%Z, cache), m).
Proof.
  intros b.
  destruct (pollcache_refines (H := b) [PGet some_news; PGet []; PPut 16; PGet []] [16; 32; 16; 48]%Z
              (mkPool [48; 32]%Z (drop 3 some_news ++ [16]%Z))) as (cache & m & He & _).
  - vm_compute. reflexivity.
  - by exists cache, m.
Defined.

(** An object that is pushed twice, as two closes of a connection do, is
    linked to itself: after the other objects the cache hands it out twice in a
    row, to two owners.  The assertion of push does not see it, since the last
    node of a queue has no successor. *)
Theorem pollcache_double_put :
  let b := {| NDEBUG := true |} in
  ∃ l cache m,
    exec_pcs (H := b) ([PGet some_news; PPut 16; PPut 16] ++ repeat (PGet []) 129) IntrusiveQueue_init ∅
    = Ok ((l, cache), m) ∧ last l = Some 16%Z ∧ last (removelast l) = Some 16%Z.
Proof. eexists _, _, _. split; [vm_compute; reflexivity|]. vm_compute. split; reflexivity. Qed.
