(* ===== verification/Poller.v ===== *)
(** * The poller: one round of polling, and the poller thread

    [IOHandler::poll], [unblock] and [PollReady] of [src/io/IOHandler.cpp] and
    [IOPoller::_Poll] of [src/io/EpollIOHandler.cpp] as one round without
    interference, down to the bulk push of the scheduler (the interleavings of
    one descriptor are the subject of [IOHandler]); [IOHandler::pollerFunc]
    with [semaphore::timedwait] ([src/generic/Semaphore.h]): its deadline, and
    the handshake of its semaphore with the kThreads that block. *)

From S2P Require Import Prelude Links IntrusiveQueue BulkPush IOHandler.

(** ** One round *)

Record iohandler := mkIoh {
  pds : gmap addr PollData;        (* every PollData ever allocated; none is freed *)
  kts : list KTVar;                (* the kThreads of all clusters *)
  unblockCounter : Z               (* size_t *)
}.
Definition set_pds (P : gmap addr PollData) (s : iohandler) : iohandler :=
  mkIoh P (kts s) (unblockCounter s).
Definition set_kts (k : list KTVar) (s : iohandler) : iohandler :=
  mkIoh (pds s) k (unblockCounter s).
Definition set_counter (n : Z) (s : iohandler) : iohandler := mkIoh (pds s) (kts s) n.

Definition EINTR : Z := 4.
Definition MAXEVENTS : nat := 32.

(** [epoll_wait]: -1 with an error number, or the events it has stored. *)
Inductive epoll_result : Type :=
  | EWError (errno : Z)
  | EWEvents (evs : list (addr * Z)).

Section poll.
Context `{Build} (home : addr → nat).

(** [bool IOHandler::unblock(PollData &pd, bool isRead)], its
    compare-exchange undisturbed. *)
Definition unblock (p : addr) (isRead : bool) (s : iohandler) : M mem (bool * iohandler) :=
  match pds s !! p with
  | None => failM (BadAccess p)
  | Some x =>
      if closing x then mret (false, s) else
      let old := slot isRead x in
      if (old =? POLL_READY)%Z then mret (false, s) else
      let utnew := if (old =? nullptr)%Z || (old =? POLL_WAIT)%Z then POLL_READY else nullptr in
      let s' := set_pds (<[p := set_slot isRead utnew x]> (pds s)) s in
      if (POLL_WAIT <? old)%Z then
        k ← prepareBulkPush (kts s') (home old) old;
        mret (true, set_kts k s')
      else mret (false, s')
  end.

(** [if((flag & f) && unblock(pd, isRead)) unblockCounter++;] *)
Definition unblock_count (p : addr) (isRead : bool) (s : iohandler) : M mem iohandler :=
  r ← unblock p isRead s;
  mret (if (r.1 : bool) then set_counter (wrap 64 (unblockCounter r.2 + 1)) r.2 else r.2).

(** [void IOHandler::PollReady(PollData &pd, int flag)] *)
Definition poll_ready (p : addr) (flag : Z) (s : iohandler) : M mem iohandler :=
  s1 ← (if (Z.land flag UT_IOREAD =? 0)%Z then mret s else unblock_count p true s);
  if (Z.land flag UT_IOWRITE =? 0)%Z then mret s1 else unblock_count p false s1.

(** The loop of [_Poll]. *)
Definition poll_event (ev : addr * Z) (s : iohandler) : M mem iohandler :=
  if (ev.2 =? 0)%Z then mret s else
  let mode := poll_mode ev.2 in
  if (mode =? 0)%Z then mret s else poll_ready ev.1 mode s.
Fixpoint poll_events (evs : list (addr * Z)) (s : iohandler) : M mem iohandler :=
  match evs with
  | [] => mret s
  | ev :: evs' => s' ← poll_event ev s; poll_events evs' s'
  end.

(** [ssize_t IOPoller::_Poll(int timeout)] *)
Definition Poll (w : epoll_result) (s : iohandler) : M mem (Z * iohandler) :=
  match w with
  | EWError e => mret ((if (e =? EINTR)%Z then 0%Z else (-1)%Z), s)
  | EWEvents [] => mret (0%Z, s)
  | EWEvents evs => s' ← poll_events evs s; mret (Z.of_nat (length evs), s')
  end.

(** [ssize_t IOHandler::poll(int timeout, int flag)], with the calls of [push]
    that the bulk push makes, one entry per kThread. *)
Definition poll (w : epoll_result) (s : iohandler)
    : M mem (Z * list (option (addr * addr)) * iohandler) :=
  r ← Poll w (set_counter 0 s);
  if (r.1 <? 0)%Z then mret ((-1)%Z, [], r.2)
  else if (0 <? unblockCounter r.2)%Z then
    b ← bulkPush (kts r.2);
    mret (unblockCounter r.2, b.1, set_kts b.2 r.2)
  else mret (unblockCounter r.2, [], r.2).
End poll.

(** ** What a round does to the descriptors *)

(** The directions of the events, in order. *)
Definition dirs_of (evs : list (addr * Z)) : list (addr * bool) :=
  evs ≫= λ ev, (ev.1,.) <$> PollReady (poll_mode ev.2).

(** What an event leaves in a slot. *)
Definition next_slot (v : addr) : addr :=
  if (v =? POLL_READY)%Z || (v =? nullptr)%Z || (v =? POLL_WAIT)%Z then POLL_READY else nullptr.

(** A uThread is parked on direction [d] of a descriptor that is not closing. *)
Definition parked (P : gmap addr PollData) (p : addr) (d : bool) (u : addr) : Prop :=
  ∃ x, P !! p = Some x ∧ closing x = false ∧ slot d x = u ∧ (POLL_WAIT < u)%Z.

(** The effect of one [unblock] on the slots, and whom it wakes. *)
Definition unblock1 (e : addr * bool) (P : gmap addr PollData) : option addr * gmap addr PollData :=
  match P !! e.1 with
  | None => (None, P)
  | Some x =>
      if closing x then (None, P) else
      (if (POLL_WAIT <? slot e.2 x)%Z then Some (slot e.2 x) else None,
       <[e.1 := set_slot e.2 (next_slot (slot e.2 x)) x]> P)
  end.
Fixpoint woken (ds : list (addr * bool)) (P : gmap addr PollData) : list addr :=
  match ds with
  | [] => []
  | e :: ds' => option_list (unblock1 e P).1 ++ woken ds' (unblock1 e P).2
  end.
Fixpoint after (ds : list (addr * bool)) (P : gmap addr PollData) : gmap addr PollData :=
  match ds with
  | [] => P
  | e :: ds' => after ds' (unblock1 e P).2
  end.

Lemma set_slot_same d x : set_slot d (slot d x) x = x.
Proof. by destruct d, x. Qed.
Lemma closing_set d v x : closing (set_slot d v x) = closing x.
Proof. by destruct d. Qed.
Lemma next_slot_low v : (next_slot v <= POLL_WAIT)%Z.
Proof. unfold next_slot. by destruct (_ || _). Qed.

Lemma unblock1_some e P u : (unblock1 e P).1 = Some u ↔ parked P e.1 e.2 u.
Proof.
  unfold unblock1, parked. destruct (P !! e.1) as [x|]; [|naive_solver].
  destruct (closing x) eqn:Ec; [simpl; naive_solver congruence|]. simpl.
  destruct (Z.ltb_spec POLL_WAIT (slot e.2 x)); naive_solver lia.
Qed.
Lemma unblock1_lookup e P p x :
  P !! p = Some x →
  (unblock1 e P).2 !! p =
    Some (if decide (p = e.1) then if closing x then x else set_slot e.2 (next_slot (slot e.2 x)) x else x).
Proof.
  intros Hx. unfold unblock1. case_decide as Ep.
  - subst. rewrite Hx. destruct (closing x); [done|]. apply lookup_insert_eq.
  - destruct (P !! e.1) as [y|]; [|done]. destruct (closing y); [done|].
    simpl. by rewrite lookup_insert_ne.
Qed.
Lemma unblock1_None e P p : P !! p = None → (unblock1 e P).2 !! p = None.
Proof.
  intros Hx. unfold unblock1. destruct (P !! e.1) as [y|] eqn:E; [|done]. destruct (closing y); [done|].
  simpl. rewrite lookup_insert_ne; [done|]. congruence.
Qed.
Lemma parked_unblock1 e P p d u :
  parked (unblock1 e P).2 p d u ↔ parked P p d u ∧ (p, d) ≠ e.
Proof.
  unfold parked. destruct (P !! p) as [x|] eqn:Ex.
  2:{ rewrite unblock1_None by done. naive_solver. }
  rewrite (unblock1_lookup _ _ _ _ Ex). destruct e as [q b]. simpl.
  pose proof (next_slot_low (slot b x)).
  destruct (decide (p = q)) as [->|Hp]; [|naive_solver congruence].
  destruct (closing x) eqn:Ec; [naive_solver congruence|].
  split.
  - intros (y & [= <-] & Hc & Hs & Hu). rewrite slot_set in Hs. case_decide; [lia|].
    split; [naive_solver|]. congruence.
  - intros ((y & [= <-] & Hc & Hs & Hu) & Hne). eexists. split_and!; [done|by rewrite closing_set| |done].
    rewrite slot_set. case_decide; [congruence|done].
Qed.

(** No uThread is parked twice. *)
Definition parked_once (P : gmap addr PollData) : Prop :=
  ∀ p d p' d' u, parked P p d u → parked P p' d' u → (p, d) = (p', d').

Lemma parked_once_unblock1 e P : parked_once P → parked_once (unblock1 e P).2.
Proof. intros H p d p' d' u [H1 _]%parked_unblock1 [H2 _]%parked_unblock1. by eapply H. Qed.

Lemma elem_of_woken ds P u : u ∈ woken ds P ↔ ∃ p d, (p, d) ∈ ds ∧ parked P p d u.
Proof.
  revert P. induction ds as [|e ds IH]; intros P; simpl.
  - split; [by intros ?%elem_of_nil|]. intros (p & d & H%elem_of_nil & _). done.
  - rewrite elem_of_app, IH. split.
    + intros [Hh|(p & d & Hin & [Hp _]%parked_unblock1)].
      * destruct (unblock1 e P).1 as [v|] eqn:Ev; simpl in Hh; [|by apply elem_of_nil in Hh].
        apply list_elem_of_singleton in Hh as ->. apply unblock1_some in Ev.
        exists e.1, e.2. destruct e. split; [by left|done].
      * exists p, d. split; [by right|done].
    + intros (p & d & Hin & Hp). destruct (decide ((p, d) = e)) as [<-|Hne].
      * left. rewrite (proj2 (unblock1_some (p, d) P u) Hp). by apply list_elem_of_singleton.
      * right. exists p, d. apply elem_of_cons in Hin as [?|Hin]; [done|].
        split; [done|]. by apply parked_unblock1.
Qed.
Lemma NoDup_woken ds P : parked_once P → NoDup (woken ds P).
Proof.
  revert P. induction ds as [|e ds IH]; intros P Ho; simpl; [constructor|].
  destruct (unblock1 e P).1 as [v|] eqn:Ev; simpl; [|by apply IH, parked_once_unblock1].
  apply NoDup_cons. split; [|by apply IH, parked_once_unblock1].
  intros (p & d & _ & [Hp Hne]%parked_unblock1)%elem_of_woken. apply unblock1_some in Ev.
  apply Hne. rewrite (Ho _ _ _ _ _ Hp Ev). by destruct e.
Qed.
Lemma length_woken ds P : length (woken ds P) ≤ length ds.
Proof.
  revert P. induction ds as [|e ds IH]; intros P; simpl; [lia|].
  rewrite length_app. specialize (IH (unblock1 e P).2). destruct (unblock1 e P).1; simpl; lia.
Qed.

(** The number of events for a direction. *)
Definition hits (p : addr) (d : bool) (ds : list (addr * bool)) : nat :=
  length (filter (λ e, e = (p, d)) ds).

Lemma after_lookup ds P p x :
  P !! p = Some x →
  ∃ x', after ds P !! p = Some x' ∧ closing x' = closing x ∧
    ∀ d, slot d x' = if closing x then slot d x else Nat.iter (hits p d ds) next_slot (slot d x).
Proof.
  revert P x. induction ds as [|[q b] ds IH]; intros P x Hx; simpl.
  - exists x. split_and!; [done..|]. intros d. by destruct (closing x).
  - destruct (IH _ _ (unblock1_lookup (q, b) P p x Hx)) as (x' & Hx' & Hc & Hs).
    exists x'. split; [done|]. simpl in *. unfold hits in *.
    destruct (decide (p = q)) as [->|Hne].
    + destruct (closing x) eqn:Ec; [rewrite Ec in *; split; [done|]; intros d; by rewrite Hs|].
      rewrite closing_set, Ec in Hc, Hs. split; [done|]. intros d.
      rewrite Hs, slot_set, filter_cons. case_decide as Ed.
      * subst. rewrite decide_True by done. cbn [length]. by rewrite Nat.iter_succ_r.
      * rewrite decide_False by congruence. done.
    + split; [done|]. intros d. rewrite Hs, filter_cons, decide_False by congruence. done.
Qed.

Lemma length_PollReady f : length (PollReady f) ≤ 2.
Proof. unfold PollReady. rewrite length_app. destruct (_ =? _)%Z; destruct (_ =? _)%Z; simpl; lia. Qed.
Lemma length_dirs_of evs : length (dirs_of evs) ≤ 2 * length evs.
Proof.
  unfold dirs_of. induction evs as [|ev evs IH]; [simpl; lia|].
  rewrite bind_cons. cbn [length]. rewrite length_app, length_fmap.
  pose proof (length_PollReady (poll_mode ev.2)). lia.
Qed.

(** ** The round, step by step, is: collect, then push *)

Section round.
Context `{Build} (home : addr → nat).

Definition tag (l : list addr) : list (nat * addr) := (λ u, (home u, u)) <$> l.

Fixpoint unblock_all (ds : list (addr * bool)) (s : iohandler) : M mem iohandler :=
  match ds with
  | [] => mret s
  | e :: ds' => s' ← unblock_count home e.1 e.2 s; unblock_all ds' s'
  end.

Lemma bind_eq {S A B} (c c' : M S A) (k k' : A → M S B) m :
  c m = c' m → (∀ a m', k a m' = k' a m') → (c ≫= k) m = (c' ≫= k') m.
Proof. unfold mbind, M_bind. intros -> Hk. by destruct (c' m) as [[a m']|]. Qed.
Lemma bind_assoc {S A B C} (c : M S A) (f : A → M S B) (g : B → M S C) m :
  ((c ≫= f) ≫= g) m = (c ≫= λ a, f a ≫= g) m.
Proof. unfold mbind, M_bind. by destruct (c m) as [[a m']|]. Qed.
Lemma unblock_all_app ds ds' s m :
  unblock_all (ds ++ ds') s m = (s' ← unblock_all ds s; unblock_all ds' s') m.
Proof.
  revert s m. induction ds as [|e ds IH]; intros s m; [done|]. simpl.
  rewrite bind_assoc. apply bind_eq; [done|]. intros a m'. apply IH.
Qed.
Lemma poll_event_dirs ev s m :
  poll_event home ev s m = unblock_all ((ev.1,.) <$> PollReady (poll_mode ev.2)) s m.
Proof.
  unfold poll_event. destruct (Z.eqb_spec ev.2 0) as [->|_]; [done|].
  destruct (Z.eqb_spec (poll_mode ev.2) 0) as [->|_]; [done|].
  unfold poll_ready, PollReady. rewrite fmap_app, unblock_all_app. apply bind_eq.
  - case_match; [done|]. simpl. unfold mbind, M_bind. by destruct (unblock_count home ev.1 true s m) as [[? ?]|].
  - intros s' m'. case_match; [done|]. simpl. unfold mbind, M_bind.
    by destruct (unblock_count home ev.1 false s' m') as [[? ?]|].
Qed.
Lemma poll_events_dirs evs s m : poll_events home evs s m = unblock_all (dirs_of evs) s m.
Proof.
  revert s m. induction evs as [|ev evs IH]; intros s m; [done|].
  unfold dirs_of. simpl. rewrite unblock_all_app. apply bind_eq; [apply poll_event_dirs|].
  intros. apply IH.
Qed.

(** One [unblock] on a live descriptor. *)
Lemma unblock_eq e s m :
  is_Some (pds s !! e.1) →
  unblock home e.1 e.2 s m =
    match (unblock1 e (pds s)).1 with
    | Some u => k ← prepareBulkPush (kts s) (home u) u;
                mret (true, set_kts k (set_pds (unblock1 e (pds s)).2 s))
    | None => mret (false, set_pds (unblock1 e (pds s)).2 s)
    end m.
Proof.
  intros [x Hx]. unfold unblock, unblock1. rewrite Hx. destruct (closing x); [by destruct s|].
  unfold next_slot. destruct (Z.eqb_spec (slot e.2 x) POLL_READY) as [E|E]; simpl.
  - rewrite E. change (POLL_WAIT <? POLL_READY)%Z with false. simpl.
    rewrite <-E, set_slot_same, insert_id by done. by destruct s.
  - by destruct (Z.ltb_spec POLL_WAIT (slot e.2 x)).
Qed.
Lemma unblock1_live e P p : is_Some (P !! p) → is_Some ((unblock1 e P).2 !! p).
Proof. intros [x Hx]. by rewrite (unblock1_lookup _ _ _ _ Hx). Qed.

Lemma unblock_all_eq ds s m :
  (0 <= unblockCounter s < 2 ^ 64)%Z → Forall (λ e, is_Some (pds s !! e.1)) ds →
  unblock_all ds s m =
    (k ← prepare_all (kts s) (tag (woken ds (pds s)));
     mret (mkIoh (after ds (pds s)) k
                 (wrap 64 (unblockCounter s + Z.of_nat (length (woken ds (pds s))))))) m.
Proof.
  revert s m. induction ds as [|e ds IH]; intros s m Hc Hl; simpl.
  - unfold mbind, M_bind, mret, M_ret. destruct s as [P k c]. simpl in *. unfold wrap.
    by rewrite Z.add_0_r, Z.mod_small.
  - apply Forall_cons in Hl as [He Hl]. unfold unblock_count. rewrite bind_assoc.
    unfold mbind at 1, M_bind at 1. rewrite (unblock_eq e s m He).
    assert (Hl' : Forall (λ e', is_Some ((unblock1 e (pds s)).2 !! e'.1)) ds).
    { eapply Forall_impl; [exact Hl|]. intros. by apply unblock1_live. }
    destruct (unblock1 e (pds s)) as [[u|] P'] eqn:Eu; simpl in *.
    + rewrite bind_assoc. unfold mbind at 1, M_bind at 1. unfold mbind at 2, M_bind at 2.
      destruct (prepareBulkPush (kts s) (home u) u m) as [[k m']|]; [|done].
      unfold mbind at 1, M_bind at 1, mret, M_ret. simpl. rewrite IH; simpl; [|by apply Z.mod_pos_bound|done].
      apply bind_eq; [done|]. intros k' m''. unfold wrap. rewrite Zplus_mod_idemp_l.
      by replace (unblockCounter s + 1 + Z.of_nat (length (woken ds P')))%Z
        with (unblockCounter s + Z.of_nat (S (length (woken ds P'))))%Z by lia.
    + unfold mbind at 1, M_bind at 1, mret, M_ret. simpl. rewrite IH; done.
Qed.
End round.

Lemma dirs_live (P : gmap addr PollData) evs :
  Forall (λ ev, is_Some (P !! ev.1)) evs → Forall (λ e, is_Some (P !! e.1)) (dirs_of evs).
Proof.
  intros Hl. apply Forall_forall. intros [p d] (e & Hin & He)%list_elem_of_bind.
  rewrite Forall_forall in Hl. apply list_elem_of_fmap in Hin as (? & [= -> ->] & _). by apply Hl.
Qed.

Section spec.
Context `{Build} (home : addr → nat).

Lemma tag_snd l : (tag home l).*2 = l.
Proof. unfold tag. induction l as [|u l IH]; [done|]. rewrite !fmap_cons. simpl. by rewrite IH. Qed.
Lemma woken_ok m n P ds :
  parked_once P →
  (∀ p d u, parked P p d u → home u < n ∧ next_of m u = Some nullptr) →
  events_ok m n (tag home (woken ds P)).
Proof.
  intros Ho Hp. split; [rewrite tag_snd; by apply NoDup_woken|].
  apply Forall_fmap, Forall_forall. intros u (p & d & _ & Hu)%elem_of_woken. simpl.
  destruct (Hp _ _ _ Hu) as [? ?]. split_and!; [done| |done].
  destruct Hu as (? & _ & _ & _ & ?). unfold POLL_WAIT, nullptr in *. lia.
Qed.

Lemma Poll_eq P k0 evs m :
  Forall (λ ev, is_Some (P !! ev.1)) evs → length evs ≤ MAXEVENTS →
  Poll home (EWEvents evs) (mkIoh P k0 0) m =
    (k ← prepare_all k0 (tag home (woken (dirs_of evs) P));
     mret (Z.of_nat (length evs),
           mkIoh (after (dirs_of evs) P) k (Z.of_nat (length (woken (dirs_of evs) P))))) m.
Proof.
  intros Hl Hlen. pose proof (length_woken (dirs_of evs) P). pose proof (length_dirs_of evs).
  unfold MAXEVENTS in Hlen. destruct evs as [|ev evs']; [done|]. set (evs := ev :: evs') in *.
  transitivity ((s' ← unblock_all home (dirs_of evs) (mkIoh P k0 0);
                 mret (Z.of_nat (length evs), s') : M mem _) m).
  { apply (bind_eq (poll_events home evs _)); [apply poll_events_dirs|done]. }
  unfold mbind at 1, M_bind at 1.
  rewrite unblock_all_eq; cbn [pds kts unblockCounter]; [|lia|].
  - unfold mbind, M_bind. destruct (prepare_all _ _ m) as [[k m']|]; [|done].
    unfold mret, M_ret, wrap. by rewrite Z.mod_small by lia.
  - by apply dirs_live.
Qed.

(** A round that wakes nobody pushes nothing, whatever the bulk queues hold. *)
Lemma poll_idle evs P k c m :
  Forall (λ ev, is_Some (P !! ev.1)) evs → length evs ≤ MAXEVENTS → woken (dirs_of evs) P = [] →
  poll home (EWEvents evs) (mkIoh P k c) m = Ok (0%Z, [], mkIoh (after (dirs_of evs) P) k 0, m).
Proof.
  intros Hl Hlen Hw. unfold poll. unfold mbind at 1, M_bind at 1. change (set_counter 0 _) with (mkIoh P k 0).
  rewrite Poll_eq by done. rewrite Hw. simpl. unfold mbind, M_bind, mret, M_ret. simpl.
  destruct (Z.ltb_spec (Z.of_nat (length evs)) 0); [lia|done].
Qed.

(** A round that wakes somebody pushes what the bulk queues held as well. *)
Lemma poll_delivers m P k c ls evs :
  bulk_rep m k ls → parked_once P →
  (∀ q d v, parked P q d v → home v < length ls ∧ next_of m v = Some nullptr ∧ v ∉ concat ls) →
  Forall (λ ev, is_Some (P !! ev.1)) evs → length evs ≤ MAXEVENTS → (Z.of_nat (length (concat ls)) < 2 ^ 32)%Z →
  woken (dirs_of evs) P ≠ [] →
  wp (poll home (EWEvents evs) (mkIoh P k c))
     (λ r m', r.1.1 = Z.of_nat (length (woken (dirs_of evs) P)) ∧ pds r.2 = after (dirs_of evs) P ∧
        kts r.2 = replicate (length ls) KTVar_init ∧
        ∀ i l, ls !! i = Some l →
          pushed_as m' (default None (r.1.2 !! i)) (l ++ home_of i (tag home (woken (dirs_of evs) P)))) m.
Proof.
  intros Hr Ho Hp Hl Hlen Hsz HW. set (W := woken (dirs_of evs) P) in *.
  pose proof (length_woken (dirs_of evs) P) as Hw. pose proof (length_dirs_of evs) as Hd. fold W in Hw.
  unfold MAXEVENTS in Hlen. unfold poll. apply wp_bind. change (set_counter 0 _) with (mkIoh P k 0).
  unfold wp at 1. rewrite Poll_eq by done. fold W. apply wp_bind.
  eapply wp_mono; [apply (prepare_all_spec m k ls)|]; [done| | | |].
  - apply woken_ok; [done|]. intros q d v Hv. by destruct (Hp _ _ _ Hv) as (? & ? & _).
  - apply Forall_fmap, Forall_forall. intros v (q & d & _ & Hv)%elem_of_woken. simpl. by apply (Hp q d v).
  - unfold tag. rewrite length_fmap. lia.
  - intros k' m1 (ls' & Hr' & Hls & Hget). apply wp_ret. cbn [fst snd unblockCounter kts].
    destruct (Z.ltb_spec (Z.of_nat (length evs)) 0); [lia|].
    assert (0 < length W) by (destruct W; [done|simpl; lia]).
    destruct (Z.ltb_spec 0 (Z.of_nat (length W))); [|lia].
    apply wp_bind. eapply wp_mono; [by apply bulkPush_spec|]. intros [ps vs] m2 (Hvs & Hps & _).
    apply wp_ret. simpl in *. pose proof (Forall2_length _ _ _ (proj2 Hr')) as Hk'.
    split_and!; [done..|congruence|].
    intros i l Hi. pose proof (Hget i l Hi) as Hi'. destruct (Forall2_lookup_r _ _ _ _ _ Hps Hi') as (q & Hq & Hpq).
    by rewrite Hq.
Qed.
End spec.

(** Handling the events one by one is equivalent to the reference: find
    out first whom the whole batch wakes and what it leaves in the slots, then
    collect those uThreads on their kThreads' bulk queues in that order. *)
Theorem poll_events_collect `{Build} home evs s m :
  (0 <= unblockCounter s < 2 ^ 64)%Z → Forall (λ ev, is_Some (pds s !! ev.1)) evs →
  let ws := woken (dirs_of evs) (pds s) in
  poll_events home evs s m =
    (k ← prepare_all (kts s) (tag home ws);
     mret (mkIoh (after (dirs_of evs) (pds s)) k
                 (wrap 64 (unblockCounter s + Z.of_nat (length ws))))) m.
Proof.
  intros Hc Hl ws. rewrite poll_events_dirs. apply unblock_all_eq; [done|by apply dirs_live].
Qed.

(** C16. One poll wakes the uThreads that its events concern, and with them those
    that a close has left in the bulk queues: for any batch of events epoll may
    return (several may name one descriptor) and any contents [ls] of the bulk
    queues the round faults nowhere; the uThreads woken are those parked on a
    direction that an event reports, on a descriptor that is not closing, each
    once; the result is their number; every slot is left as the number of events
    for it says: a parked uThread is taken out, a direction nobody waits for is
    marked ready.  If somebody is woken, each kThread gets in one push of a linked
    list what its bulk queue held and then its woken uThreads, and the bulk queues
    are empty again; if nobody is, nothing is pushed and the bulk queues stay. *)
Theorem poll_wakes_parked `{Build} home m P k ls c evs :
  bulk_rep m k ls → (Z.of_nat (length (concat ls)) < 2 ^ 32)%Z → parked_once P →
  (∀ p d u, parked P p d u → home u < length ls ∧ next_of m u = Some nullptr ∧ u ∉ concat ls) →
  Forall (λ ev, is_Some (P !! ev.1)) evs → length evs ≤ MAXEVENTS →
  wp (poll home (EWEvents evs) (mkIoh P k c))
     (λ r m', ∃ ws, NoDup ws ∧
        (∀ u, u ∈ ws ↔ ∃ p d, (p, d) ∈ dirs_of evs ∧ parked P p d u) ∧
        r.1.1 = Z.of_nat (length ws) ∧
        (if decide (ws = []) then r.1.2 = [] ∧ kts r.2 = k ∧ m' = m
         else kts r.2 = replicate (length ls) KTVar_init ∧
              ∀ i l, ls !! i = Some l →
                pushed_as m' (default None (r.1.2 !! i)) (l ++ home_of i (tag home ws))) ∧
        ∀ p x, P !! p = Some x → ∃ x', pds r.2 !! p = Some x' ∧ closing x' = closing x ∧
          ∀ d, slot d x' = if closing x then slot d x
                           else Nat.iter (hits p d (dirs_of evs)) next_slot (slot d x)) m.
Proof.
  intros Hr Hsz Ho Hp Hl Hlen. set (ws := woken (dirs_of evs) P).
  assert (Hws : NoDup ws ∧ ∀ u, u ∈ ws ↔ ∃ p d, (p, d) ∈ dirs_of evs ∧ parked P p d u).
  { split; [by apply NoDup_woken|]. intros u. apply elem_of_woken. }
  destruct (decide (ws = [])) as [Hnil|Hne].
  - unfold wp. rewrite poll_idle by done. exists ws. rewrite decide_True, Hnil by done. rewrite Hnil in Hws.
    split_and!; try apply Hws; try done. intros p x. apply after_lookup.
  - eapply wp_mono; [by apply (poll_delivers home m P k c ls)|]. intros r m' (Hn & HP & Hk & Hps).
    exists ws. rewrite decide_False by done. split_and!; try apply Hws; try done.
    rewrite HP. intros p x. apply after_lookup.
Qed.

(** A reader parked on the descriptor at 16 and a writer on the one at 160. *)
Definition demo_pds : gmap addr PollData :=
  <[16%Z := mkPd 32 0 false true true 5]> {[160%Z := mkPd 0 48 false true false 6]}.
Definition demo_home (u : addr) : nat := if (u =? 48)%Z then 1 else 0.
Definition demo_events : list (addr * Z) :=
  [(16, EPOLLIN); (160, Z.lor EPOLLIN EPOLLOUT); (16, EPOLLHUP)]%Z.

Lemma demo_parked p d u :
  parked demo_pds p d u → (p, d, u) = (16, true, 32)%Z ∨ (p, d, u) = (160, false, 48)%Z.
Proof.
  intros (x & Hx & _ & Hs & Hu). unfold POLL_WAIT in Hu. unfold demo_pds in Hx.
  apply lookup_insert_Some in Hx as [[<- <-]|[_ [<- <-]%lookup_singleton_Some]];
    destruct d; simpl in Hs; subst; auto; lia.
Qed.
(** A third uThread, at 64 on kThread 1, is in its bulk queue: its connection was
    closed. *)
Definition demo_bulk : list KTVar :=
  [KTVar_init; mkKTVar 1 (mkQueue 64 64)].
Lemma poll_wakes_parked_witness :
  let _ := {| NDEBUG := false |} in
  wp (poll demo_home (EWEvents demo_events) (mkIoh demo_pds demo_bulk 0))
     (λ r m', ∃ ws, NoDup ws ∧ 32%Z ∈ ws ∧ r.1.1 = Z.of_nat (length ws) ∧ kts r.2 = replicate 2 KTVar_init ∧
        pushed_as m' (default None (r.1.2 !! 0)) (home_of 0 (tag demo_home ws)) ∧
        pushed_as m' (default None (r.1.2 !! 1)) (64%Z :: home_of 1 (tag demo_home ws)))
     (fresh_mem [32; 48; 64]%Z).
Proof.
  intros B.
  eapply wp_mono; [apply (poll_wakes_parked demo_home (fresh_mem [32; 48; 64]%Z) demo_pds demo_bulk [[]; [64%Z]] 0 demo_events)|].
  - split; [apply (bool_decide_unpack _); by vm_compute|].
    repeat constructor; try (by vm_compute); apply (bool_decide_unpack _); by vm_compute.
  - by vm_compute.
  - intros p d p' d' u [H1|H1]%demo_parked [H2|H2]%demo_parked; congruence.
  - intros p d u [[= -> -> ->]|[= -> -> ->]]%demo_parked;
      (split_and!; [vm_compute; lia|by vm_compute|apply (bool_decide_unpack _); by vm_compute]).
  - apply (bool_decide_unpack _). by vm_compute.
  - vm_compute. lia.
  - intros r m' (ws & Hnd & Hin & Hn & Hk & _). exists ws.
    assert (H32 : 32%Z ∈ ws).
    { apply Hin. exists 16%Z, true. split; [apply (bool_decide_unpack _); by vm_compute|].
      exists (mkPd 32 0 false true true 5). by split_and!. }
    rewrite decide_False in Hk by (intros ->; by apply not_elem_of_nil in H32). destruct Hk as [Hk Hps].
    split_and!; [done..| |]; [by apply (Hps 0 [])|by apply (Hps 1 [64%Z])].
Defined.

Lemma poll_events_collect_witness :
  let _ := {| NDEBUG := false |} in
  let s := mkIoh demo_pds (replicate 2 KTVar_init) 0 in
  let ws := woken (dirs_of demo_events) demo_pds in
  ws = [32; 48]%Z ∧
  poll_events demo_home demo_events s (fresh_mem [32; 48]%Z) =
    (k ← prepare_all (kts s) (tag demo_home ws);
     mret (mkIoh (after (dirs_of demo_events) demo_pds) k
                 (wrap 64 (0 + Z.of_nat (length ws))))) (fresh_mem [32; 48]%Z).
Proof.
  split; [vm_compute; reflexivity|].
  apply (poll_events_collect demo_home demo_events (mkIoh demo_pds (replicate 2 KTVar_init) 0)).
  - simpl. lia.
  - apply (bool_decide_unpack _). by vm_compute.
Defined.

(** What that round returns: two uThreads pushed, and the three directions
    nobody waited for left marked ready. *)
Example poll_run :
  let _ := {| NDEBUG := false |} in
  match poll demo_home (EWEvents demo_events) (mkIoh demo_pds (replicate 2 KTVar_init) 0)
             (fresh_mem [32; 48]%Z) with
  | Ok (r, _) => r.1 = (2, [Some (32, 32); Some (48, 48)])%Z
                 ∧ rut <$> pds r.2 !! 16%Z = Some POLL_READY ∧ wut <$> pds r.2 !! 16%Z = Some POLL_READY
                 ∧ rut <$> pds r.2 !! 160%Z = Some POLL_READY ∧ wut <$> pds r.2 !! 160%Z = Some nullptr
  | Fault _ => False
  end.
Proof. vm_compute. split_and!; reflexivity. Qed.

(** An interrupted or failing [epoll_wait] changes nothing. *)
Lemma poll_error `{Build} home e s m :
  poll home (EWError e) s m =
    Ok ((if (e =? EINTR)%Z then 0%Z else (-1)%Z), [], set_counter 0 s, m).
Proof. unfold poll, Poll. by destruct (e =? EINTR)%Z. Qed.

(** ** The poller thread *)

Record timespec := mkTs { tv_sec : Z; tv_nsec : Z }.
Definition BILLION : Z := 1000000000.
Definition MS : Z := 1000000.

(** [ts.tv_nsec + MS], with the carry. *)
Definition advance (ts : timespec) : timespec :=
  let nsec := (tv_nsec ts + MS)%Z in
  if (BILLION <=? nsec)%Z then mkTs (tv_sec ts + 1) (nsec - BILLION)
  else mkTs (tv_sec ts) nsec.

Definition valid_ts (ts : timespec) : bool := (0 <=? tv_nsec ts)%Z && (tv_nsec ts <? BILLION)%Z.
Definition total_ns (ts : timespec) : Z := (tv_sec ts * BILLION + tv_nsec ts)%Z.

Lemma advance_valid ts :
  valid_ts ts = true → valid_ts (advance ts) = true ∧ total_ns (advance ts) = (total_ns ts + MS)%Z.
Proof.
  unfold valid_ts, advance, total_ns, BILLION, MS. intros [H1 H2]%andb_true_iff.
  apply Z.leb_le in H1. apply Z.ltb_lt in H2.
  destruct (Z.leb_spec 1000000000 (tv_nsec ts + 1000000)); simpl; split; lia.
Qed.

Definition ETIMEDOUT : Z := 110.
Definition EINVAL : Z := 22.

(** [bool semaphore::timedwait(struct timespec &ts)]: what it returns after
    one result of sem_timedwait, an error number or success, if it returns. *)
Definition timedwait (r : option Z) : option bool :=
  match r with
  | None => Some false
  | Some errno => if (errno =? ETIMEDOUT)%Z then Some true else None
  end.

Inductive ppc : Type :=
  | TWait                    (* in sem.timedwait(ts) *)
  | TPost                    (* it returned false: before sem.post() *)
  | TPoll.                   (* in poll(-1, 0) *)

(** The kThreads between [iohandler.sem.post()] and the end of the loop
    [while(!iohandler.sem.trywait());] of [blockingSwitch], the count of the
    semaphore, and the poller. *)
Record shake := mkShake {
  blocked : list bool;
  tokens : Z;
  poller : ppc;
  deadline : timespec;
  timeouts : Z
}.

Inductive hlabel : Type :=
  | HBlock (k : nat)         (* blockingSwitch: sem.post() *)
  | HTry (k : nat)           (* blockingSwitch: sem.trywait() *)
  | HTimed (r : option Z)    (* the poller: a result of sem_timedwait *)
  | HPost                    (* the poller: sem.post() *)
  | HPolled.                 (* the poller: poll returns *)

(** What sem_timedwait may return: it takes a token if there is one, looks at
    the deadline only if there is none, and may be interrupted. *)
Definition sem_timedwait_may (s : shake) (r : option Z) : bool :=
  match r with
  | None => (0 <? tokens s)%Z
  | Some e =>
      if (e =? ETIMEDOUT)%Z then (tokens s =? 0)%Z && valid_ts (deadline s)
      else if (e =? EINVAL)%Z then (tokens s =? 0)%Z && negb (valid_ts (deadline s))
      else (e =? EINTR)%Z
  end.

(** [IOHandler::pollerFunc] *)
Definition poller_step (l : hlabel) (s : shake) : option shake :=
  match poller s, l with
  | TWait, HTimed r =>
      if sem_timedwait_may s r then
        match timedwait r with
        | Some false => Some (mkShake (blocked s) (tokens s - 1) TPost (deadline s) (timeouts s))
        | Some true => Some (mkShake (blocked s) (tokens s) TPoll (advance (deadline s)) (timeouts s + 1))
        | None => Some s
        end
      else None
  | TPost, HPost => Some (mkShake (blocked s) (tokens s + 1) TPoll (deadline s) (timeouts s))
  | TPoll, HPolled => Some (mkShake (blocked s) (tokens s) TWait (deadline s) (timeouts s))
  | _, _ => None
  end.

Definition hstep (l : hlabel) (s : shake) : option shake :=
  match l with
  | HBlock k =>
      match blocked s !! k with
      | Some false => Some (mkShake (<[k := true]> (blocked s)) (tokens s + 1) (poller s) (deadline s) (timeouts s))
      | _ => None
      end
  | HTry k =>
      match blocked s !! k with
      | Some true =>
          if (0 <? tokens s)%Z
          then Some (mkShake (<[k := false]> (blocked s)) (tokens s - 1) (poller s) (deadline s) (timeouts s))
          else Some s
      | _ => None
      end
  | _ => poller_step l s
  end.

(** [n] kThreads, none blocked; [ts] is the time the poller read. *)
Definition hinit (n : nat) (ts : timespec) : shake := mkShake (replicate n false) 0 TWait ts 0.

Definition nblocked (l : list bool) : Z := Z.of_nat (length (List.filter id l)).
Definition held (p : ppc) : Z := match p with TPost => 1 | _ => 0 end.

Record hinv (n : nat) (ts : timespec) (s : shake) : Prop := {
  h_tokens : (tokens s + held (poller s) = nblocked (blocked s))%Z;
  h_nonneg : (0 <= tokens s)%Z;
  h_kts : length (blocked s) = n;
  h_valid : valid_ts (deadline s) = true;
  h_total : total_ns (deadline s) = (total_ns ts + timeouts s * MS)%Z
}.

Lemma nblocked_insert (l : list bool) k (b c : bool) :
  l !! k = Some b →
  nblocked (<[k := c]> l) = (nblocked l + (if c then 1 else 0) - (if b then 1 else 0))%Z.
Proof.
  intros Hk. unfold nblocked. rewrite insert_take_drop by (by eapply lookup_lt_Some).
  rewrite <-(take_drop_middle l k b) at 3 by done.
  rewrite !List.filter_app, !length_app. cbn [List.filter].
  destruct b, c; simpl; lia.
Qed.

Lemma hinv_init n ts : valid_ts ts = true → hinv n ts (hinit n ts).
Proof.
  intros Hv. constructor; simpl; [|lia|apply length_replicate|done|lia].
  unfold nblocked. by induction n.
Qed.
Lemma hinv_step n ts l s s' : hinv n ts s → hstep l s = Some s' → hinv n ts s'.
Proof.
  intros [Ht Hn Hk Hv Hd] H. destruct l as [k|k|r| |]; simpl in H.
  - destruct (blocked s !! k) as [[]|] eqn:E; simplify_eq. constructor; simpl; try done; [|lia|by rewrite length_insert].
    rewrite (nblocked_insert _ _ _ _ E). lia.
  - destruct (blocked s !! k) as [[]|] eqn:E; try done. destruct (Z.ltb_spec 0 (tokens s)); simplify_eq; [|done].
    constructor; simpl; try done; [|lia|by rewrite length_insert]. rewrite (nblocked_insert _ _ _ _ E). lia.
  - unfold poller_step in H. destruct (poller s) eqn:Ep; try done.
    destruct (sem_timedwait_may s r) eqn:Em; [|done].
    destruct r as [e|]; simpl in H, Em.
    + destruct (e =? ETIMEDOUT)%Z; simplify_eq; [|by constructor; rewrite ?Ep].
      destruct (advance_valid _ Hv) as [? Ha]. constructor; simpl in *; try done; rewrite ?Ha; lia.
    + apply Z.ltb_lt in Em. simplify_eq. constructor; simpl in *; try done; lia.
  - unfold poller_step in H. destruct (poller s) eqn:Ep; simplify_eq. constructor; simpl in *; try done; lia.
  - unfold poller_step in H. destruct (poller s) eqn:Ep; simplify_eq. constructor; simpl in *; try done; lia.
Qed.
Lemma hreachable n ts s : valid_ts ts = true → reachable hstep (hinit n ts) s → hinv n ts s.
Proof. intros Hv H. eapply invariant_reachable; [by apply hinv_init|by eauto using hinv_step|done]. Qed.

(** C36. The semaphore between the poller and the kThreads: its count, plus the
    token the poller holds between its wait and its post, is the number of
    kThreads in [blockingSwitch], and so never exceeds the number of kThreads;
    the deadline stays a valid time, exactly a millisecond per time-out after
    the start, so sem_timedwait never fails with EINVAL, on which
    [semaphore::timedwait] would loop for ever. *)
Theorem poller_semaphore (n : nat) (ts : timespec) (s : shake) :
  valid_ts ts = true → reachable hstep (hinit n ts) s →
  (tokens s + held (poller s) = nblocked (blocked s))%Z ∧ (0 <= tokens s <= Z.of_nat n)%Z ∧
  (0 <= tv_nsec (deadline s) < BILLION)%Z ∧
  total_ns (deadline s) = (total_ns ts + timeouts s * MS)%Z ∧
  sem_timedwait_may s (Some EINVAL) = false.
Proof.
  intros Hv [Ht Hn Hk Hd Htot]%hreachable; [|done].
  assert (Hb : (nblocked (blocked s) <= Z.of_nat n)%Z).
  { rewrite <-Hk. unfold nblocked. pose proof (List.filter_length_le id (blocked s)). lia. }
  split_and!; try done.
  - destruct (poller s); simpl in Ht; lia.
  - unfold valid_ts in Hd. lia.
  - unfold valid_ts in Hd. lia.
  - simpl. rewrite Hd. by destruct (tokens s =? 0)%Z.
Qed.

Lemma trywait_takes (t : shake) k :
  blocked t !! k = Some true → (0 < tokens t)%Z →
  ∃ t', hstep (HTry k) t = Some t' ∧ blocked t' !! k = Some false.
Proof.
  intros Hb Ht. simpl. rewrite Hb, (proj2 (Z.ltb_lt _ _) Ht). eexists. split; [done|].
  simpl. apply list_lookup_insert_eq. by eapply lookup_lt_Some.
Qed.

(** Nobody is stuck on that semaphore: a kThread whose [trywait] finds no
    token finds one after the poller's next step, which gives back the token
    it took; and when the poller waits, sem_timedwait can return. *)
Theorem poller_trywait_progress (n : nat) (ts : timespec) (s : shake) (k : nat) :
  valid_ts ts = true → reachable hstep (hinit n ts) s → blocked s !! k = Some true →
  let done t := ∃ t', hstep (HTry k) t = Some t' ∧ blocked t' !! k = Some false in
  done s ∨ ∃ s', hstep HPost s = Some s' ∧ done s'.
Proof.
  intros Hv [Ht Hn Hk Hd Htot]%hreachable Hb; [|done].
  intros done'. unfold hstep at 1.
  assert (Hpos : (1 <= nblocked (blocked s))%Z).
  { pose proof (nblocked_insert _ _ _ false Hb) as Hi. unfold nblocked in *. lia. }
  destruct (poller s) eqn:Ep; simpl in Ht.
  - left. apply trywait_takes; [done|lia].
  - right. unfold poller_step. rewrite Ep. eexists. split; [done|]. apply trywait_takes; simpl; [done|lia].
  - left. apply trywait_takes; [done|lia].
Qed.

(** Two kThreads; one blocks, the poller takes its token. *)
Definition shake_run : list hlabel := [HBlock 1; HTimed (Some EINTR); HTimed None; HTry 1].
Definition shake_state : shake := default (hinit 2 (mkTs 7 999500000)) (run hstep shake_run (hinit 2 (mkTs 7 999500000))).
Lemma shake_reachable : reachable hstep (hinit 2 (mkTs 7 999500000)) shake_state.
Proof. apply reachable_default. vm_compute. reflexivity. Qed.

Lemma poller_semaphore_witness :
  tokens shake_state = 0%Z ∧ (tokens shake_state + held (poller shake_state) = nblocked (blocked shake_state))%Z.
Proof.
  split; [vm_compute; reflexivity|].
  apply (poller_semaphore 2 (mkTs 7 999500000) shake_state); [vm_compute; reflexivity|apply shake_reachable].
Defined.
Lemma poller_trywait_progress_witness :
  let done t := ∃ t', hstep (HTry 1) t = Some t' ∧ blocked t' !! 1 = Some false in
  done shake_state ∨ ∃ s', hstep HPost shake_state = Some s' ∧ done s'.
Proof.
  apply (poller_trywait_progress 2 (mkTs 7 999500000) shake_state 1);
    [vm_compute; reflexivity|apply shake_reachable|vm_compute; reflexivity].
Defined.

(** The poller polls also when no kThread is blocked: a time-out goes on to
    the poll, although the comment says that it waits on the semaphore. *)
Theorem poller_polls_unasked :
  ∃ s, run hstep [HTimed (Some ETIMEDOUT)] (hinit 2 (mkTs 7 0)) = Some s ∧
       poller s = TPoll ∧ blocked s = [false; false] ∧ deadline s = mkTs 7 1000000.
Proof. eexists. split; [vm_compute; reflexivity|]. done. Qed.
