(* ===== verification/PollGuard.v ===== *)
(** * Who polls

    [IOHandler::nonblockingPoll] and the loop body of [IOHandler::pollerFunc]
    ([src/io/IOHandler.cpp]) around [IOHandler::poll], in both builds: with
    [NPOLLNONBLOCKING], as in the Makefile, only the poller thread polls; without
    it every kThread polls at each of its switches, and the flag [isPolling]
    decides.  [unblockCounter], the buffer that [epoll_wait] fills and the bulk
    queues are not atomic: every access to the flag and to the counter is a step
    here, [unblockCounter++] two of them.  ([IOHandler::close] puts uThreads into
    the bulk queues without polling and is not guarded by the flag; it is modelled
    in [IOClose].) *)

From stdpp Require Import functions.
From S2P Require Import Prelude.

(** Where a thread is; [n] counts the uThreads that its own events unblocked. *)
Inductive gpc : Type :=
  | GOut                                (* elsewhere *)
  | GTas                                (* isPolling.test_and_set *)
  | GReset                              (* poll: unblockCounter = 0 *)
  | GWait                               (* _Poll: epoll_wait *)
  | GEvents (todo : list bool) (n : Z)  (* PollReady: whether unblock returns true *)
  | GStore (v : Z) (todo : list bool) (n : Z)  (* unblockCounter++: the store *)
  | GTest (n : Z)                       (* if(unblockCounter > 0) *)
  | GPush (n : Z)                       (* Scheduler::bulkPush() *)
  | GRead (n : Z)                       (* return unblockCounter *)
  | GClear (r n : Z)                    (* isPolling.clear *)
  | GRet (r n : Z).                     (* poll or nonblockingPoll has returned [r] *)

Record guard := mkGuard {
  isPolling : bool;
  unblockCounter : Z;                   (* size_t *)
  gpcs : nat → gpc;
  collected : Z;                        (* ghost: the uThreads put into bulk queues *)
  pushed : Z                            (* ghost: those that bulk pushes were made for *)
}.
Definition guard_init : guard := mkGuard false 0 (λ _, GOut) 0 0.

Inductive glabel : Type :=
  | GCall (t : nat)                     (* a kThread calls nonblockingPoll *)
  | GLoop                               (* pollerFunc, after its semaphore *)
  | GStep (t : nat)
  | GEpoll (t : nat) (r : option (list bool)).  (* epoll_wait: an error, or events *)

Section guard.
(** [NPOLLNONBLOCKING]; thread 0 is the poller. *)
Context (nb : bool).

Definition gset_pc (t : nat) (p : gpc) (s : guard) : guard :=
  mkGuard (isPolling s) (unblockCounter s) (<[t := p]> (gpcs s)) (collected s) (pushed s).
Definition gset_flag (b : bool) (s : guard) : guard :=
  mkGuard b (unblockCounter s) (gpcs s) (collected s) (pushed s).
Definition gset_count (n : Z) (s : guard) : guard :=
  mkGuard (isPolling s) n (gpcs s) (collected s) (pushed s).
Definition gcollect (s : guard) : guard :=
  mkGuard (isPolling s) (unblockCounter s) (gpcs s) (collected s + 1) (pushed s).
Definition gpush (n : Z) (s : guard) : guard :=
  mkGuard (isPolling s) (unblockCounter s) (gpcs s) (collected s) (pushed s + n).

(** After [poll]: the flag is cleared, where there is one. *)
Definition gleave (r n : Z) : gpc := if nb then GRet r n else GClear r n.

Definition gthread_step (t : nat) (s : guard) : option guard :=
  match gpcs s t with
  | GOut | GWait | GRet _ _ => None
  | GTas =>
      Some (if isPolling s then gset_pc t (if decide (t = 0) then GOut else GRet (-1) 0) s
            else gset_pc t GReset (gset_flag true s))
  | GReset => Some (gset_pc t GWait (gset_count 0 s))
  | GEvents [] n => Some (gset_pc t (GTest n) s)
  | GEvents (true :: l) n => Some (gset_pc t (GStore (wrap 64 (unblockCounter s + 1)) l (n + 1)) (gcollect s))
  | GEvents (false :: l) n => Some (gset_pc t (GEvents l n) s)
  | GStore v l n => Some (gset_pc t (GEvents l n) (gset_count v s))
  | GTest n => Some (gset_pc t (if (0 <? unblockCounter s)%Z then GPush n else GRead n) s)
  | GPush n => Some (gset_pc t (GRead n) (gpush n s))
  | GRead n => Some (gset_pc t (gleave (unblockCounter s) n) s)
  | GClear r n => Some (gset_pc t (GRet r n) (gset_flag false s))
  end.

Definition gstep (l : glabel) (s : guard) : option guard :=
  match l with
  | GCall t =>
      match gpcs s t with
      | GOut | GRet _ _ =>
          if decide (t = 0) then None
          else Some (gset_pc t (if nb then GRet (-1) 0 else GTas) s)
      | _ => None
      end
  | GLoop =>
      match gpcs s 0 with
      | GOut | GRet _ _ => Some (gset_pc 0 (if nb then GReset else GTas) s)
      | _ => None
      end
  | GStep t => gthread_step t s
  | GEpoll t r =>
      match gpcs s t with
      | GWait =>
          match r with
          | None => Some (gset_pc t (gleave (-1) 0) s)
          | Some l => if decide (Z.of_nat (length l) < 2 ^ 32)%Z then Some (gset_pc t (GEvents l 0) s) else None
          end
      | _ => None
      end
  end.
End guard.

(** ** The invariant *)

(** The thread is inside [poll], or about to clear the flag. *)
Definition polling (p : gpc) : bool :=
  match p with GOut | GTas | GRet _ _ => false | _ => true end.

(** What the counter is for the thread inside. *)
Definition count_ok (c : Z) (p : gpc) : Prop :=
  match p with
  | GEvents l n => c = n ∧ (0 <= n)%Z ∧ (n + Z.of_nat (length l) < 2 ^ 33)%Z
  | GStore v l n => v = n ∧ (0 <= n)%Z ∧ (n + Z.of_nat (length l) < 2 ^ 33)%Z
  | GWait => c = 0%Z
  | GTest n | GRead n => c = n ∧ (0 <= n)%Z
  | GPush n => c = n ∧ (0 < n)%Z
  | GClear r n | GRet r n => r = n ∨ r = (-1)%Z ∧ n = 0%Z
  | _ => True
  end.

(** The uThreads it has collected and not pushed. *)
Definition pending (p : gpc) : Z :=
  match p with GEvents _ n | GStore _ _ n | GTest n | GPush n => n | _ => 0 end.

Record ginv (nb : bool) (s : guard) : Prop := {
  g_one : ∀ t u, polling (gpcs s t) = true → polling (gpcs s u) = true → t = u;
  g_flag : nb = false → isPolling s = true ↔ ∃ t, polling (gpcs s t) = true;
  g_nb : nb = true → ∀ t, t ≠ 0 → polling (gpcs s t) = false ∧ gpcs s t ≠ GTas;
  g_noclear : nb = true → ∀ r n, gpcs s 0 ≠ GClear r n ∧ gpcs s 0 ≠ GTas;
  g_count : ∀ t, count_ok (unblockCounter s) (gpcs s t);
  g_pend : ∀ t, polling (gpcs s t) = true → collected s = (pushed s + pending (gpcs s t))%Z;
  g_done : (∀ t, polling (gpcs s t) = false) → collected s = pushed s
}.

Lemma ginv_init nb : ginv nb guard_init.
Proof. split; simpl; try done. intros _. split; [done|]. by intros [t Ht]. Qed.

(** A thread outside does not look at the counter. *)
Lemma count_ok_out c c' p : polling p = false → count_ok c p → count_ok c' p.
Proof. by destruct p. Qed.

(** A thread inside moves on. *)
Lemma ginv_inside nb s t p c x y :
  ginv nb s → polling (gpcs s t) = true → polling p = true → (nb = true → ∀ r n, p ≠ GClear r n) → count_ok c p →
  (collected s = pushed s + pending (gpcs s t) → x = y + pending p)%Z →
  ginv nb (mkGuard (isPolling s) c (<[t := p]> (gpcs s)) x y).
Proof.
  intros I Ht Hp Hcl Hc Hx.
  assert (Hpol : ∀ u, polling ((<[t := p]> (gpcs s)) u) = polling (gpcs s u)).
  { intros u. destruct (decide (u = t)) as [->|]; [by rewrite fn_lookup_insert, Ht|by rewrite fn_lookup_insert_ne]. }
  split; simpl.
  - intros u v. rewrite !Hpol. apply (g_one _ _ I).
  - intros Hnb. rewrite (g_flag _ _ I Hnb). by setoid_rewrite Hpol.
  - intros Hnb u Hu. rewrite Hpol. destruct (g_nb _ _ I Hnb u Hu) as [E ?]. split; [done|].
    rewrite fn_lookup_insert_ne; [done|]. intros ->. congruence.
  - intros Hnb r n. assert (t = 0) as ->.
    { destruct (decide (t = 0)) as [|Hne]; [done|]. destruct (g_nb _ _ I Hnb t Hne). congruence. }
    rewrite fn_lookup_insert. split; [by apply Hcl|]. by intros ->.
  - intros u. destruct (decide (u = t)) as [->|Hne]; [by rewrite fn_lookup_insert|]. rewrite fn_lookup_insert_ne by done.
    eapply count_ok_out; [|apply (g_count _ _ I)]. destruct (polling (gpcs s u)) eqn:E; [|done].
    destruct Hne. by eapply (g_one _ _ I).
  - intros u. rewrite Hpol. intros Hu. assert (u = t) as -> by (by eapply (g_one _ _ I)).
    rewrite fn_lookup_insert. by apply Hx, (g_pend _ _ I).
  - intros Hno. specialize (Hno t). rewrite Hpol in Hno. congruence.
Qed.

(** A thread outside moves, and stays outside. *)
Lemma ginv_outside nb s t p :
  ginv nb s → polling (gpcs s t) = false → polling p = false → (nb = true → p ≠ GTas) →
  count_ok (unblockCounter s) p → ginv nb (gset_pc t p s).
Proof.
  intros I Ht Hp Hcl Hc.
  assert (Hpol : ∀ u, polling ((<[t := p]> (gpcs s)) u) = polling (gpcs s u)).
  { intros u. destruct (decide (u = t)) as [->|]; [by rewrite fn_lookup_insert, Ht|by rewrite fn_lookup_insert_ne]. }
  split; simpl.
  - intros u v. rewrite !Hpol. apply (g_one _ _ I).
  - intros Hnb. rewrite (g_flag _ _ I Hnb). by setoid_rewrite Hpol.
  - intros Hnb u Hu. rewrite Hpol. destruct (g_nb _ _ I Hnb u Hu) as [E ?]. split; [done|].
    destruct (decide (u = t)) as [->|]; [rewrite fn_lookup_insert; by apply Hcl|by rewrite fn_lookup_insert_ne].
  - intros Hnb r n. destruct (decide (0 = t)) as [<-|].
    + rewrite fn_lookup_insert. split; [by intros ->|by apply Hcl].
    + rewrite fn_lookup_insert_ne by done. by apply (g_noclear _ _ I).
  - intros u. destruct (decide (u = t)) as [->|Hne]; [by rewrite fn_lookup_insert|]. rewrite fn_lookup_insert_ne by done.
    apply (g_count _ _ I).
  - intros u. rewrite Hpol. intros Hu. rewrite fn_lookup_insert_ne; [by apply (g_pend _ _ I)|]. intros ->. congruence.
  - intros Hno. apply (g_done _ _ I). intros u. by rewrite <- Hpol.
Qed.

(** A thread goes in when nobody is inside; the flag tells, where it is used. *)
Lemma ginv_enter nb s t b :
  ginv nb s → (∀ u, polling (gpcs s u) = false) → (nb = false → b = true) → (nb = true → t = 0) →
  ginv nb (gset_pc t GReset (gset_flag b s)).
Proof.
  intros I Hno Hb Hnb.
  assert (Hpol : ∀ u, polling ((<[t := GReset]> (gpcs s)) u) = true ↔ u = t).
  { intros u. destruct (decide (u = t)) as [->|]; [by rewrite fn_lookup_insert|]. rewrite fn_lookup_insert_ne, Hno by done. naive_solver. }
  split; simpl.
  - intros u v Hu%Hpol Hv%Hpol. congruence.
  - intros Hf. rewrite (Hb Hf). split; [|done]. intros _. exists t. by apply Hpol.
  - intros Hf u Hu. rewrite fn_lookup_insert_ne by (rewrite (Hnb Hf); congruence). by apply (g_nb _ _ I).
  - intros Hf r n. rewrite (Hnb Hf), fn_lookup_insert. done.
  - intros u. destruct (decide (u = t)) as [->|]; [by rewrite fn_lookup_insert|]. rewrite fn_lookup_insert_ne by done. apply (g_count _ _ I).
  - intros u ->%Hpol. rewrite fn_lookup_insert. simpl. rewrite (g_done _ _ I Hno). lia.
  - intros Hno'. specialize (Hno' t). rewrite fn_lookup_insert in Hno'. done.
Qed.

(** It comes out with its result. *)
Lemma ginv_exit nb s t r n b :
  ginv nb s → polling (gpcs s t) = true → pending (gpcs s t) = 0%Z → (r = n ∨ r = (-1)%Z ∧ n = 0%Z) →
  (nb = false → b = false) → ginv nb (gset_pc t (GRet r n) (gset_flag b s)).
Proof.
  intros I Ht Hpe Hr Hb.
  assert (Hpol : ∀ u, polling ((<[t := GRet r n]> (gpcs s)) u) = false).
  { intros u. destruct (decide (u = t)) as [->|Hne]; [by rewrite fn_lookup_insert|]. rewrite fn_lookup_insert_ne by done.
    destruct (polling (gpcs s u)) eqn:E; [|done]. destruct Hne. by eapply (g_one _ _ I). }
  split; simpl.
  - intros u v. by rewrite Hpol.
  - intros Hf. rewrite (Hb Hf). split; [done|]. intros [u Hu]. by rewrite Hpol in Hu.
  - intros Hf u Hu. split; [apply Hpol|]. destruct (decide (u = t)) as [->|]; [by rewrite fn_lookup_insert|].
    rewrite fn_lookup_insert_ne by done. by apply (g_nb _ _ I).
  - intros Hf r' n'. destruct (decide (0 = t)) as [<-|]; [by rewrite fn_lookup_insert|]. rewrite fn_lookup_insert_ne by done.
    by apply (g_noclear _ _ I).
  - intros u. destruct (decide (u = t)) as [->|Hne]; [by rewrite fn_lookup_insert|]. rewrite fn_lookup_insert_ne by done. apply (g_count _ _ I).
  - intros u. by rewrite Hpol.
  - intros _. rewrite (g_pend _ _ I t Ht), Hpe. lia.
Qed.

(** [poll] returns. *)
Lemma ginv_leave nb s t r n :
  ginv nb s → polling (gpcs s t) = true → pending (gpcs s t) = 0%Z → (r = n ∨ r = (-1)%Z ∧ n = 0%Z) →
  ginv nb (gset_pc t (gleave nb r n) s).
Proof.
  intros I Ht Hpe Hr. unfold gleave. destruct nb eqn:E.
  - replace s with (gset_flag (isPolling s) s) at 1 by (by destruct s). by apply ginv_exit.
  - apply (ginv_inside false s t); [done..|]. simpl. rewrite Hpe. done.
Qed.

Lemma ginv_step nb l s s' : ginv nb s → gstep nb l s = Some s' → ginv nb s'.
Proof.
  intros I Hs. destruct l as [t| |t|t r]; simpl in Hs.
  - destruct (gpcs s t) eqn:E; try done; (case_decide as Ht; simplify_eq/=; apply ginv_outside; rewrite ?E; try done; destruct nb; simpl; auto; done).
  - assert (Hz : polling (gpcs s 0) = false ∧ s' = gset_pc 0 (if nb then GReset else GTas) s)
      by (destruct (gpcs s 0); simplify_eq; done).
    destruct Hz as [Hz ->]. destruct nb.
    + replace s with (gset_flag (isPolling s) s) at 1 by (by destruct s). apply ginv_enter; try done.
      intros u. destruct (decide (u = 0)) as [->|Hu]; [done|]. by apply (g_nb _ _ I).
    + by apply ginv_outside.
  - unfold gthread_step in Hs. pose proof (g_count _ _ I t) as Hc.
    destruct (gpcs s t) as [ | | | |l n|v l n|n|n|n|r n| ] eqn:E; simplify_eq/=.
    + destruct (isPolling s) eqn:Ef.
      * apply ginv_outside; rewrite ?E; try done; case_decide; simpl; auto.
      * assert (nb = false) as ->.
        { destruct nb; [|done]. destruct (decide (t = 0)) as [->|Ht]; [by destruct (g_noclear _ _ I eq_refl 0 0)%Z|].
          by destruct (g_nb _ _ I eq_refl t Ht). }
        apply ginv_enter; try done. intros u. destruct (polling (gpcs s u)) eqn:Eu; [|done].
        assert (isPolling s = true) by (apply (g_flag _ _ I); eauto). congruence.
    + apply (ginv_inside nb s t); rewrite ?E; done.
    + destruct l as [|[|] l]; simplify_eq/=; apply (ginv_inside nb s t); rewrite ?E; simpl; try done; try lia.
      destruct Hc as (-> & ? & ?). unfold wrap. rewrite Z.mod_small by lia. lia.
    + apply (ginv_inside nb s t); rewrite ?E; simpl; try done; lia.
    + destruct (Z.ltb_spec 0 (unblockCounter s)); apply (ginv_inside nb s t); rewrite ?E; simpl; try done; lia.
    + apply (ginv_inside nb s t); rewrite ?E; simpl; try done; lia.
    + apply ginv_leave; rewrite ?E; try done. left. tauto.
    + apply ginv_exit; rewrite ?E; done.
  - pose proof (g_count _ _ I t) as Hc. destruct (gpcs s t) eqn:E; try done. simpl in Hc. destruct r as [l|]; [case_decide|]; simplify_eq/=.
    + apply (ginv_inside nb s t); rewrite ?E; simpl; try done; lia.
    + apply ginv_leave; rewrite ?E; try done. by right.
Qed.

Lemma greachable nb s : reachable (gstep nb) guard_init s → ginv nb s.
Proof. revert s. apply invariant_reachable; [apply ginv_init|]. intros l s s'. apply ginv_step. Qed.

(** ** Theorems *)

(** C17. At most one thread polls at a time, in either build, so that the event
    buffer, the counter and the bulk pushes need no lock among the threads that
    poll: whoever polls, the result of a poll is the number of uThreads that its own events
    have unblocked, or -1 when epoll failed or somebody else was polling; and
    when nobody polls every uThread that was collected has been pushed.  With
    [NPOLLNONBLOCKING] the kThreads never poll; without it the flag is set
    exactly while somebody does. *)
Theorem poll_exclusive nb s :
  reachable (gstep nb) guard_init s →
  (∀ t u, polling (gpcs s t) = true → polling (gpcs s u) = true → t = u) ∧
  (∀ t r n, gpcs s t = GRet r n → r = n ∨ r = (-1)%Z ∧ n = 0%Z) ∧
  ((∀ t, polling (gpcs s t) = false) → collected s = pushed s) ∧
  (if nb then ∀ t, polling (gpcs s t) = true → t = 0
   else isPolling s = true ↔ ∃ t, polling (gpcs s t) = true).
Proof.
  intros I%greachable. split_and!.
  - apply (g_one _ _ I).
  - intros t r n E. pose proof (g_count _ _ I t) as Hc. by rewrite E in Hc.
  - apply (g_done _ _ I).
  - destruct nb; [|by apply (g_flag _ _ I)]. intros t Ht. destruct (decide (t = 0)) as [|Hne]; [done|].
    destruct (g_nb _ _ I eq_refl t Hne). congruence.
Qed.

(** kThread 1 polls and unblocks two uThreads, while kThread 2 and the poller try. *)
Definition guard_demo : list glabel :=
  [GCall 1; GStep 1; GStep 1; GEpoll 1 (Some [true; false; true]); GCall 2; GLoop; GStep 2; GStep 0]
  ++ repeat (GStep 1) 10.
Lemma poll_exclusive_witness :
  let s := default guard_init (run (gstep false) guard_demo guard_init) in
  gpcs s 1 = GRet 2 2 ∧ gpcs s 2 = GRet (-1) 0 ∧ gpcs s 0 = GOut ∧
  (∀ t r n, gpcs s t = GRet r n → r = n ∨ r = (-1)%Z ∧ n = 0%Z).
Proof.
  intros s. split_and!; [vm_compute; reflexivity..|].
  apply (poll_exclusive false s). exists guard_demo. vm_compute. reflexivity.
Defined.
