(* ===== verification/IOClose.v ===== *)
(** * Closing a connection: who wakes its reader

    [IOHandler::close] ([src/io/IOHandler.cpp]) over all descriptors and down to
    the bulk queues of the scheduler, between the rounds of the poller of
    [Poller] (the interleavings on one descriptor are in [IOHandler]).  In the
    build of the Makefile [unblock] does not resume a uThread, it calls
    [Scheduler::prepareBulkPush]; the push is left to [poll], which makes it when
    its own events have woken somebody. *)

From S2P Require Import Prelude Links IntrusiveQueue BulkPush IOHandler Poller.

Section close.
Context `{Build} (home : addr → nat).

(** [int IOHandler::close(PollData &pd)]: [res] is the result of
    [poller._Close], [cache] the PollCache. *)
Definition close (res : Z) (p : addr) (s : iohandler) (cache : list addr)
    : M mem (Z * iohandler * list addr) :=
  match pds s !! p with
  | None => failM (BadAccess p)
  | Some x =>
      r1 ← (if (POLL_WAIT <? rut x)%Z then unblock home p true s else mret (false, s));
      (* if(pd.wut > POLL_WAIT); *)
      r2 ← unblock home p true r1.2;
      match pds r2.2 !! p with
      | None => failM (BadAccess p)
      | Some y =>
          if closing y then mret ((-1)%Z, r2.2, cache)
          else mret (res, set_pds (<[p := pd_reset (set_closing y)]> (pds r2.2)) r2.2, cache ++ [p])
      end
  end.

(** The rounds of the poller: the pushes of each, and the state after them. *)
Fixpoint polls (ws : list epoll_result) (s : iohandler)
    : M mem (list (list (option (addr * addr))) * iohandler) :=
  match ws with
  | [] => mret ([], s)
  | w :: ws' =>
      r ← poll home w s;
      rs ← polls ws' r.2;
      mret (r.1.2 :: rs.1, rs.2)
  end.
End close.

(** ** What close leaves in the slots *)

Definition closed (p : addr) (P : gmap addr PollData) : gmap addr PollData := alter pd_reset p P.

Lemma parked_closed p P q d u : parked (closed p P) q d u ↔ parked P q d u ∧ q ≠ p.
Proof.
  unfold parked, closed. destruct (decide (q = p)) as [->|Hne].
  - rewrite lookup_alter_eq. split; [|tauto]. intros (x & Hx & _ & Hs & Hu). exfalso.
    destruct (P !! p); simplify_eq/=. by destruct d.
  - rewrite lookup_alter_ne by done. tauto.
Qed.
Lemma parked_once_sub (P Q : gmap addr PollData) :
  (∀ p d u, parked Q p d u → parked P p d u) → parked_once P → parked_once Q.
Proof. intros Hs Ho p d p' d' u H1%Hs H2%Hs. by eapply Ho. Qed.

(** Rounds whose events concern nobody that is parked. *)
Fixpoint idle (ws : list epoll_result) (P : gmap addr PollData) : Prop :=
  match ws with
  | [] => True
  | EWError _ :: ws' => idle ws' P
  | EWEvents evs :: ws' =>
      Forall (λ ev, is_Some (P !! ev.1)) evs ∧ length evs ≤ MAXEVENTS ∧
      woken (dirs_of evs) P = [] ∧ idle ws' (after (dirs_of evs) P)
  end.
Fixpoint afters (ws : list epoll_result) (P : gmap addr PollData) : gmap addr PollData :=
  match ws with
  | [] => P
  | EWError _ :: ws' => afters ws' P
  | EWEvents evs :: ws' => afters ws' (after (dirs_of evs) P)
  end.

Lemma parked_after ds P p d u : parked (after ds P) p d u → parked P p d u.
Proof.
  revert P. induction ds as [|e ds IH]; intros P; [done|]. simpl. intros Hp%IH. by apply parked_unblock1 in Hp as [? _].
Qed.
Lemma parked_afters ws P p d u : parked (afters ws P) p d u → parked P p d u.
Proof.
  revert P. induction ws as [|[e|evs] ws IH]; intros P; simpl; [done|apply IH|]. intros Hp%IH. by eapply parked_after.
Qed.
Lemma after_live ds P p : is_Some (P !! p) → is_Some (after ds P !! p).
Proof. revert P. induction ds as [|e ds IH]; intros P Hp; [done|]. simpl. by apply IH, unblock1_live. Qed.
Lemma afters_live ws P p : is_Some (P !! p) → is_Some (afters ws P !! p).
Proof. revert P. induction ws as [|[e|evs] ws IH]; intros P Hp; simpl; [done|by apply IH|by apply IH, after_live]. Qed.

Section spec.
Context `{Build} (home : addr → nat).

Lemma polls_idle ws P k c m :
  idle ws P →
  ∃ rs c', polls home ws (mkIoh P k c) m = Ok (rs, mkIoh (afters ws P) k c', m) ∧ Forall (λ r, r = []) rs.
Proof.
  revert P c. induction ws as [|w ws IH]; intros P c Hi; simpl; [by exists [], c|].
  destruct w as [e|evs]; simpl in *.
  - destruct (IH P 0%Z Hi) as (rs & c' & E & Hr). exists ([] :: rs), c'. split; [|by constructor].
    unfold mbind, M_bind. rewrite poll_error. simpl. unfold set_counter. simpl. by rewrite E.
  - destruct Hi as (Hl & Hlen & Hw & Hi). destruct (IH _ 0%Z Hi) as (rs & c' & E & Hr).
    exists ([] :: rs), c'. split; [|by constructor].
    unfold mbind, M_bind. rewrite poll_idle by done. simpl. by rewrite E.
Qed.

Lemma home_of_cons i e evs :
  home_of i (e :: evs) = if decide (e.1 = i) then e.2 :: home_of i evs else home_of i evs.
Proof. unfold home_of. rewrite filter_cons. by case_decide. Qed.

Definition waiting_one (n i : nat) (u : addr) : list (list addr) := <[i := [u]]> (replicate n []).

Lemma concat_replicate n : concat (replicate n ([] : list addr)) = [].
Proof. by induction n. Qed.
Lemma concat_waiting n i u x : i < n → x ∈ concat (waiting_one n i u) → x = u.
Proof.
  intros Hi Hx. apply (elem_concat_insert (replicate n []) i [] u) in Hx as [Hx|?]; [|done|by apply lookup_replicate].
  rewrite concat_replicate in Hx. by apply not_elem_of_nil in Hx.
Qed.
Lemma lookup_waiting n i j u :
  i < n → j < n → waiting_one n i u !! j = Some (if decide (j = i) then [u] else []).
Proof.
  intros Hi Hj. unfold waiting_one. case_decide as E.
  - subst. apply list_lookup_insert_eq. by rewrite length_replicate.
  - rewrite list_lookup_insert_ne by done. by apply lookup_replicate.
Qed.

(** The reader is taken out of its slot and put into the bulk queue of its kThread. *)
Lemma close_spec m n P c p u cache res :
  parked P p true u → home u < n → next_of m u = Some nullptr →
  wp (close home res p (mkIoh P (replicate n KTVar_init) c) cache)
     (λ r m', ∃ k, r = (res, mkIoh (closed p P) k c, cache ++ [p]) ∧
        bulk_rep m' k (waiting_one n (home u) u) ∧ same_outside [] m m') m.
Proof.
  intros (x & Hx & Hc & Hs & Hu) Hh Hn. simpl in Hs. unfold close. simpl. rewrite Hx, Hs.
  destruct (Z.ltb_spec POLL_WAIT u) as [_|]; [|lia].
  assert (Hu0 : u ≠ nullptr) by (unfold POLL_WAIT, nullptr in *; lia).
  set (x1 := set_slot true nullptr x).
  assert (E1 : ∀ m0, unblock home p true (mkIoh P (replicate n KTVar_init) c) m0 =
    (k ← prepareBulkPush (replicate n KTVar_init) (home u) u; mret (true, mkIoh (<[p := x1]> P) k c)) m0).
  { intros m0. unfold unblock. simpl. rewrite Hx, Hc, Hs.
    destruct (Z.eqb_spec u POLL_READY) as [->|_]; [by vm_compute in Hu|].
    destruct (Z.eqb_spec u nullptr); [done|]. destruct (Z.eqb_spec u POLL_WAIT); [lia|]. simpl.
    destruct (Z.ltb_spec POLL_WAIT u); [|lia]. subst x1. unfold set_slot. by rewrite Hc. }
  assert (E2 : ∀ k m0, unblock home p true (mkIoh (<[p := x1]> P) k c) m0 =
    Ok (false, mkIoh (<[p := set_slot true POLL_READY x1]> (<[p := x1]> P)) k c, m0)).
  { intros k m0. unfold unblock. simpl. rewrite lookup_insert_eq. subst x1. by rewrite closing_set, Hc. }
  apply wp_bind. unfold wp at 1. rewrite E1. apply wp_bind.
  eapply wp_mono; [apply (prepareBulkPush_spec m _ (replicate n []) (home u) [] u)|]; try done.
  - apply bulk_rep_init.
  - by apply lookup_replicate.
  - rewrite concat_replicate. apply not_elem_of_nil.
  - intros k m' [Hr Ho]. rewrite concat_replicate in Ho. apply wp_ret, wp_bind. unfold wp at 1. simpl. rewrite E2. simpl.
    rewrite lookup_insert_eq. subst x1. simpl. rewrite Hc. unfold wp, mret, M_ret. exists k.
    split_and!; [|done|done]. f_equal. f_equal. unfold set_pds, closed. simpl. f_equal.
    rewrite !insert_insert_eq. apply map_eq. intros q. destruct (decide (q = p)) as [->|].
    + rewrite lookup_insert_eq, lookup_alter_eq, Hx. done.
    + by rewrite lookup_insert_ne, lookup_alter_ne.
Qed.
End spec.

(** ** Theorems *)

(** C18. The reader of a connection that is closed is not woken by close: it waits
    in the bulk queue of its kThread through every round of the poller whose
    events wake nobody, whatever the events are, and none of these rounds pushes
    anything; the first round that wakes some other uThread pushes it along, in
    front of the uThreads of that round, on its home kThread. *)
Theorem close_defers_reader `{Build} home m n P c p u cache res ws evs :
  parked_once P →
  (∀ q d v, parked P q d v → home v < n ∧ next_of m v = Some nullptr) →
  parked P p true u → idle ws (closed p P) →
  Forall (λ ev, is_Some (P !! ev.1)) evs → length evs ≤ MAXEVENTS →
  let W := woken (dirs_of evs) (afters ws (closed p P)) in
  wp (r ← close home res p (mkIoh P (replicate n KTVar_init) c) cache;
      q ← polls home ws r.1.2;
      l ← poll home (EWEvents evs) q.2;
      mret (r.2, q.1, l))
     (λ r m', r.1.1 = cache ++ [p] ∧ Forall (λ pushes, pushes = []) r.1.2 ∧
        if decide (W = []) then r.2.1.2 = [] ∧ bulk_rep m' (kts r.2.2) (waiting_one n (home u) u)
        else kts r.2.2 = replicate n KTVar_init ∧
             ∀ i, i < n → pushed_as m' (default None (r.2.1.2 !! i)) (home_of i (tag home (u :: W)))) m.
Proof.
  intros Ho Hp Hu Hi Hl Hlen W. destruct (Hp _ _ _ Hu) as [Hh Hn].
  apply wp_bind. eapply wp_mono; [by apply close_spec|]. intros r m1 (k & -> & Hk & Hm1). simpl.
  destruct (polls_idle home ws (closed p P) k c m1 Hi) as (rs & c' & E & Hrs).
  apply wp_bind. unfold wp at 1. rewrite E. simpl. apply wp_bind.
  assert (Hl' : Forall (λ ev, is_Some (afters ws (closed p P) !! ev.1)) evs).
  { eapply Forall_impl; [exact Hl|]. intros ev Hev. apply afters_live. unfold closed. by apply lookup_alter_is_Some. }
  assert (Hsub : ∀ q d v, parked (afters ws (closed p P)) q d v → parked P q d v ∧ v ≠ u).
  { intros q d v Hv%parked_afters. apply parked_closed in Hv as [Hv Hq]. split; [done|].
    intros ->. pose proof (Ho _ _ _ _ _ Hv Hu) as [= -> _]. done. }
  case_decide as HW.
  - unfold wp at 1. rewrite poll_idle by done. simpl. apply wp_ret. simpl. by split_and!.
  - eapply wp_mono; [apply (poll_delivers home m1 _ k c' (waiting_one n (home u) u))|]; try done.
    + eapply parked_once_sub; [|exact Ho]. intros q d v Hv. by apply Hsub.
    + intros q d v Hv. destruct (Hsub _ _ _ Hv) as [Hv' Hne]. destruct (Hp _ _ _ Hv') as [? Hnv].
      unfold waiting_one at 1. rewrite length_insert, length_replicate. split_and!; [done| |].
      * destruct Hm1 as [Hm1 _]. by rewrite Hm1 by apply not_elem_of_nil.
      * by intros ?%concat_waiting.
    + unfold waiting_one. change [u] with ([] ++ [u]). rewrite (length_concat_insert (replicate n []) (home u) [] u) by (by apply lookup_replicate).
      by rewrite concat_replicate.
    + intros [[v ps] s2] m2 (_ & _ & Hks & Hps). apply wp_ret. simpl in *. unfold waiting_one in Hks.
      rewrite length_insert, length_replicate in Hks. split_and!; [done..|]. intros i Hin.
      pose proof (Hps i _ (lookup_waiting n (home u) i u Hh Hin)) as Hq.
      change (tag home (u :: W)) with ((home u, u) :: tag home W). rewrite home_of_cons. simpl.
      repeat case_decide; try congruence; exact Hq.
Qed.

(** The reader at 32 of the descriptor at 16, on kThread 0; the writer at 48 of
    the one at 160, on kThread 1.  The connection at 16 is closed; the next
    round reports nothing of interest, and the one after it the writer's
    descriptor. *)
Lemma close_defers_reader_witness :
  let _ := {| NDEBUG := false |} in
  wp (r ← close demo_home 0 16 (mkIoh demo_pds (replicate 2 KTVar_init) 0) [];
      q ← polls demo_home [EWEvents [(160, EPOLLIN)%Z]; EWError EINTR] r.1.2;
      l ← poll demo_home (EWEvents [(160, EPOLLOUT)%Z]) q.2;
      mret (r.2, q.1, l))
     (λ r m', r.1.1 = [16%Z] ∧ Forall (λ pushes, pushes = []) r.1.2 ∧
        kts r.2.2 = replicate 2 KTVar_init ∧
        ∀ i, i < 2 → pushed_as m' (default None (r.2.1.2 !! i)) (home_of i (tag demo_home [32; 48]%Z)))
     (fresh_mem [32; 48]%Z).
Proof.
  intros B.
  eapply wp_mono; [apply (close_defers_reader demo_home (fresh_mem [32; 48]%Z) 2 demo_pds 0 16 32 [] 0
                            [EWEvents [(160, EPOLLIN)%Z]; EWError EINTR] [(160, EPOLLOUT)%Z])|].
  - intros p d p' d' u [H1|H1]%demo_parked [H2|H2]%demo_parked; congruence.
  - intros p d u [[= -> -> ->]|[= -> -> ->]]%demo_parked; (split; [vm_compute; lia|by vm_compute]).
  - exists (mkPd 32 0 false true true 5). by split_and!.
  - simpl. split_and!; [apply (bool_decide_unpack _); by vm_compute|vm_compute; lia|by vm_compute|done].
  - apply (bool_decide_unpack _). by vm_compute.
  - vm_compute. lia.
  - intros r m' (Hc & Hf & Hr). split; [exact Hc|]. split; [exact Hf|].
    assert (EW : woken (dirs_of [(160, EPOLLOUT)%Z]) (afters [EWEvents [(160, EPOLLIN)%Z]; EWError EINTR] (closed 16 demo_pds))
                 = [48]%Z) by (vm_compute; reflexivity).
    rewrite EW in Hr. rewrite decide_False in Hr by discriminate. exact Hr.
Defined.

(** An instance in the default build: a program closes the only connection that
    somebody reads, and a hundred rounds of the poller later the reader is still
    in the bulk queue. *)
Theorem close_strands_reader :
  let _ := {| NDEBUG := true |} in
  match (r ← close demo_home 0 16 (mkIoh (delete 160%Z demo_pds) (replicate 2 KTVar_init) 0) [];
         polls demo_home (repeat (EWEvents []) 100) r.1.2) (fresh_mem [32]%Z) with
  | Ok (r, m) => Forall (λ pushes, pushes = []) r.1 ∧ map bulkCounter (kts r.2) = [1; 0]%Z
  | Fault _ => False
  end.
Proof. vm_compute. split; [repeat constructor|reflexivity]. Qed.
