(* ===== verification/EpollSet.v ===== *)
(** * The epoll set: which PollData epoll knows

    [IOPoller::_Open] and [_Close] of [src/io/EpollIOHandler.cpp] with their
    callers, [IOHandler::open] and [close] and [Connection::init] and [close],
    over any number of descriptors: [IOHandler] follows one PollData through
    the blocking protocol, here the subject is the table from descriptors to
    PollData pointers that the kernel keeps, from which the poller gets the
    pointers it follows.

    The kernel's table is an interface: what epoll_ctl(2), epoll(7) and close(2)
    document, as a class with its laws.  A PollData has here its descriptor and
    its two flags; the two unblocks with which [close] begins and what [block]
    does after [open] leave them alone.  Connections are made by
    [Connection(int fd)], or by [Connection()] and given their descriptor later
    by [setFD], which [socket] and [accept] call; a connection is closed once it
    has a descriptor. *)

From S2P Require Import Prelude.

(** ** The kernel *)

(** The errors that epoll_ctl(2) documents for EPOLL_CTL_ADD on a descriptor: it
    is not open; it is registered already; there are no watches or there is no
    memory left; its file does not support epoll. *)
Inductive ctl_error : Type := EBADF | EEXIST | ENOSPC | ENOMEM | EPERM.
#[export] Instance ctl_error_eq_dec : EqDecision ctl_error.
Proof. solve_decision. Defined.
(** Those that do not come from a wrong use of the set: the kernel may give them
    for any descriptor. *)
Definition refusal (e : ctl_error) : bool := match e with EBADF | EEXIST => false | _ => true end.

(** [epoll_add]: EPOLL_CTL_ADD, with the open descriptors; [epoll_del]:
    EPOLL_CTL_DEL, [None] is the error.  [epoll_closed]: what closing the last
    descriptor of a file does to the table. *)
Class Epoll (T : Type) := {
  registered : T → Z → option addr;
  epoll_add : gset Z → Z → addr → T → T + ctl_error;
  epoll_del : Z → T → option T;
  epoll_closed : Z → T → T;
  epoll_empty : T
}.
Class EpollLaws (T : Type) `{Epoll T} := {
  empty_law : ∀ x, registered epoll_empty x = None;
  add_law : ∀ o fd p t, fd ∈ o → registered t fd = None →
    match epoll_add o fd p t with
    | inl t' => ∀ x, registered t' x = if decide (x = fd) then Some p else registered t x
    | inr e => refusal e = true
    end;
  add_closed : ∀ o fd p t, fd ∉ o → epoll_add o fd p t = inr EBADF;
  add_twice : ∀ o fd p t, fd ∈ o → registered t fd ≠ None → epoll_add o fd p t = inr EEXIST;
  del_ok : ∀ fd t, registered t fd ≠ None →
    ∃ t', epoll_del fd t = Some t' ∧
          ∀ x, registered t' x = if decide (x = fd) then None else registered t x;
  del_err : ∀ fd t, registered t fd = None → epoll_del fd t = None;
  closed_law : ∀ fd t x, registered (epoll_closed fd t) x = if decide (x = fd) then None else registered t x
}.

(** ** The state *)

(** The fields of a PollData that matter here. *)
Record epd := mkEpd { pfd : Z; popened : bool; pclosing : bool }.
(** [PollData()], and what [reset()] leaves. *)
Definition epd_init : epd := mkEpd (-1) false false.
#[export] Instance epd_eq_dec : EqDecision epd.
Proof. solve_decision. Defined.

(** Where a thread is. *)
Inductive epc : Type :=
  | OTest (p : addr)          (* block: if(!pd.opened) *)
  | OCas (p : addr)           (* open: the compare-exchange on opened *)
  | OAdd (p : addr)           (* open: poller._Open(pd.fd, pd) *)
  | XCas (p : addr) (fd : Z)  (* close: the compare-exchange on closing; [fd] is Connection::fd *)
  | XDel (p : addr) (fd : Z)  (* close: poller._Close(pd.fd) *)
  | XReset (p : addr) (fd : Z)  (* close: pd.reset() *)
  | XPush (p : addr) (fd : Z)   (* close: pollCache.pushPollData *)
  | XSys (fd : Z).            (* Connection::close: ::close(fd) *)

#[export] Instance epc_eq_dec : EqDecision epc.
Proof. solve_decision. Defined.

Definition on_pd (c : epc) : option addr :=
  match c with
  | OTest p | OCas p | OAdd p | XCas p _ | XDel p _ | XReset p _ | XPush p _ => Some p
  | XSys _ => None
  end.
Definition closes_pd (c : epc) : bool := match c with OTest _ | OCas _ | OAdd _ => false | _ => true end.

Record eset (T : Type) := mkEset {
  tbl : T;
  openfds : gset Z;          (* the descriptors of connections *)
  pds : gmap addr epd;       (* the PollData objects *)
  cache : list addr;
  unset : list addr;         (* those of connections that have no descriptor yet *)
  batch : list addr;         (* the pointers epoll_wait returned that are still to be followed *)
  thr : gmap nat epc;
  exited : option ctl_error; (* exit(EXIT_FAILURE) in open, with errno *)
  wild : bool                (* a pointer to no PollData was followed *)
}.
Arguments mkEset {T}.
Arguments tbl {T}. Arguments openfds {T}. Arguments pds {T}. Arguments cache {T}. Arguments unset {T}.
Arguments batch {T}. Arguments thr {T}. Arguments exited {T}. Arguments wild {T}.

Inductive elabel : Type :=
  | EConn (news : list addr) (fd : Z)  (* Connection(fd); [news] is what [new] returns, if called *)
  | ENew (news : list addr)            (* Connection() *)
  | ESetFD (p : addr) (fd : Z)  (* setFD on the connection of [p] *)
  | EBlock (t : nat) (p : addr) (* block is called on [p] *)
  | EClose (t : nat) (p : addr) (* the connection of [p] is closed *)
  | EStep (t : nat)
  | EWait (fd : Z)              (* epoll_wait reports [fd] *)
  | EReady.                     (* the poller follows a pointer *)

(** A list without the first [p]. *)
Fixpoint remove_one (p : addr) (l : list addr) : list addr :=
  match l with [] => [] | q :: l' => if decide (q = p) then l' else q :: remove_one p l' end.

Section eset.
Context {T : Type} `{EpollLaws T}.
(** Whether the clients close a connection only when nobody is blocking on it,
    do not use it from then on, and give a descriptor only to a connection that
    has none. *)
Context (strict : bool).
Implicit Types s : eset T.

Definition set_thr (m : gmap nat epc) s : eset T :=
  mkEset (tbl s) (openfds s) (pds s) (cache s) (unset s) (batch s) m (exited s) (wild s).
Definition put_pds (m : gmap addr epd) s : eset T :=
  mkEset (tbl s) (openfds s) m (cache s) (unset s) (batch s) (thr s) (exited s) (wild s).
Definition set_tbl (t : T) s : eset T :=
  mkEset t (openfds s) (pds s) (cache s) (unset s) (batch s) (thr s) (exited s) (wild s).
Definition goto (t : nat) (c : epc) s : eset T := set_thr (<[t := c]> (thr s)) s.
Definition finish (t : nat) s : eset T := set_thr (delete t (thr s)) s.

Definition nobody (s : eset T) (p : addr) : Prop := map_Forall (λ _ c, on_pd c ≠ Some p) (thr s).
Definition no_closer (s : eset T) (p : addr) : Prop :=
  map_Forall (λ _ c, on_pd c = Some p → closes_pd c = false) (thr s).
#[local] Instance nobody_dec s p : Decision (nobody s p).
Proof using. unfold nobody. apply _. Defined.
#[local] Instance no_closer_dec s p : Decision (no_closer s p).
Proof using. unfold no_closer. apply _. Defined.

(** [IOPoller::_Open(fd, pd)] and the rest of [IOHandler::open]. *)
Definition open_add (t : nat) (p : addr) (d : epd) s : eset T :=
  match epoll_add (openfds s) (pfd d) p (tbl s) with
  | inl k => finish t (set_tbl k s)
  | inr e =>
      let s' := put_pds (<[p := mkEpd (pfd d) false (pclosing d)]> (pds s)) s in
      mkEset (tbl s') (openfds s') (pds s') (cache s') (unset s') (batch s') (thr s') (Some e) (wild s')
  end.
(** [IOPoller::_Close(fd)]; its error is ignored. *)
Definition close_del (d : epd) s : eset T :=
  set_tbl (default (tbl s) (epoll_del (pfd d) (tbl s))) s.
(** [::close(fd)] *)
Definition sys_close (fd : Z) s : eset T :=
  mkEset (epoll_closed fd (tbl s)) (openfds s ∖ {[fd]}) (pds s) (cache s) (unset s) (batch s) (thr s) (exited s) (wild s).

Definition eset_step (t : nat) s : option (eset T) :=
  c ← thr s !! t;
  match c with
  | OTest p => d ← pds s !! p; Some (if popened d then finish t s else goto t (OCas p) s)
  | OCas p =>
      d ← pds s !! p;
      Some (if popened d then finish t s
            else goto t (OAdd p) (put_pds (<[p := mkEpd (pfd d) true (pclosing d)]> (pds s)) s))
  | OAdd p => d ← pds s !! p; Some (open_add t p d s)
  | XCas p fd =>
      d ← pds s !! p;
      Some (if pclosing d then goto t (XSys fd) s
            else goto t (XDel p fd) (put_pds (<[p := mkEpd (pfd d) (popened d) true]> (pds s)) s))
  | XDel p fd => d ← pds s !! p; Some (goto t (XReset p fd) (close_del d s))
  | XReset p fd => Some (goto t (XPush p fd) (put_pds (<[p := epd_init]> (pds s)) s))
  | XPush p fd =>
      Some (mkEset (tbl s) (openfds s) (pds s) (cache s ++ [p]) (unset s) (batch s) (<[t := XSys fd]> (thr s))
                   (exited s) (wild s))
  | XSys fd => Some (finish t (sys_close fd s))
  end.

(** What [new] may return: 128 objects that do not exist yet. *)
Definition new_ok (news : list addr) s : Prop :=
  length news = 128 ∧ NoDup news ∧ Forall (λ a, pds s !! a = None) news.
(** The loop of [getPollData]. *)
Definition new_pds (news : list addr) (m : gmap addr epd) : gmap addr epd :=
  foldr (λ a m, <[a := epd_init]> m) m news.
Definition fill_cache (news : list addr) s : eset T :=
  match cache s with
  | [] => mkEset (tbl s) (openfds s) (new_pds news (pds s)) news (unset s) (batch s) (thr s) (exited s) (wild s)
  | _ => s
  end.
(** [front] and [pop] of the cache, and [pd->fd = fd] in [Connection::init]. *)
Definition take_pd (fd : Z) s : option (eset T) :=
  match cache s with
  | p :: r =>
      d ← pds s !! p;
      Some (mkEset (tbl s) ({[fd]} ∪ openfds s) (<[p := mkEpd fd (popened d) (pclosing d)]> (pds s))
                   r (unset s) (batch s) (thr s) (exited s) (wild s))
  | [] => None
  end.
(** The same in [Connection()], where [fd] is -1. *)
Definition take_unset s : option (eset T) :=
  match cache s with
  | p :: r =>
      d ← pds s !! p;
      Some (mkEset (tbl s) (openfds s) (<[p := mkEpd (-1) (popened d) (pclosing d)]> (pds s))
                   r (unset s ++ [p]) (batch s) (thr s) (exited s) (wild s))
  | [] => None
  end.
(** [setFD(fd)] on the connection of [p] *)
Definition set_fd (p : addr) (fd : Z) (d : epd) s : eset T :=
  mkEset (tbl s) ({[fd]} ∪ openfds s) (<[p := mkEpd fd (popened d) (pclosing d)]> (pds s))
         (cache s) (remove_one p (unset s)) (batch s) (thr s) (exited s) (wild s).
(** [Connection(int fd)] on a descriptor that the kernel has just opened *)
Definition new_conn (news : list addr) (fd : Z) s : option (eset T) :=
  if decide (fd ∉ openfds s ∧ (0 < fd)%Z ∧ (cache s = [] → new_ok news s))
  then take_pd fd (fill_cache news s) else None.
Definition new_unset (news : list addr) s : option (eset T) :=
  if decide (cache s = [] → new_ok news s) then take_unset (fill_cache news s) else None.

Definition estep (l : elabel) s : option (eset T) :=
  match exited s with Some _ => None | None =>
  match l with
  | EConn news fd => new_conn news fd s
  | ENew news => new_unset news s
  | ESetFD p fd =>
      d ← pds s !! p;
      if decide (fd ∉ openfds s ∧ (0 < fd)%Z ∧ (strict = true → p ∈ unset s))
      then Some (set_fd p fd d s) else None
  | EBlock t p =>
      d ← pds s !! p;
      if decide (thr s !! t = None ∧ (strict = true → (0 < pfd d)%Z ∧ no_closer s p))
      then Some (goto t (OTest p) s) else None
  | EClose t p =>
      d ← pds s !! p;
      if decide (thr s !! t = None ∧ (0 < pfd d)%Z ∧ (strict = true → nobody s p))
      then Some (goto t (XCas p (pfd d)) s) else None
  | EStep t => eset_step t s
  | EWait fd =>
      p ← registered (tbl s) fd;
      Some (mkEset (tbl s) (openfds s) (pds s) (cache s) (unset s) (batch s ++ [p]) (thr s) (exited s) (wild s))
  | EReady =>
      match batch s with
      | [] => None
      | p :: r => Some (mkEset (tbl s) (openfds s) (pds s) (cache s) (unset s) r (thr s) (exited s)
                               (wild s || negb (bool_decide (is_Some (pds s !! p)))))
      end
  end
  end.

Definition eset_init : eset T := mkEset epoll_empty ∅ ∅ [] [] [] ∅ None false.
End eset.

(** ** The invariant of clients that keep to the rule *)

Section inv.
Context {T : Type} `{EpollLaws T}.
Implicit Types s : eset T.















(** ** The steps of close *)











(** ** A new connection *)








(** ** Every step *)





(** ** Nothing is lost *)
















End inv.

(** ** The contract *)

Section contract.
Context {T : Type} `{EpollLaws T}.

End contract.

(** ** The kernel's table as a map *)

(** A kernel with room for two descriptors. *)
Definition few : nat := 2.
#[export] Instance map_epoll : Epoll (gmap Z addr) := {
  registered t fd := t !! fd;
  epoll_add o fd p t :=
    if decide (fd ∈ o)
    then if decide (t !! fd = None) then if (size t <? few)%nat then inl (<[fd := p]> t) else inr ENOSPC else inr EEXIST
    else inr EBADF;
  epoll_del fd t := _ ← t !! fd; Some (delete fd t);
  epoll_closed fd t := delete fd t;
  epoll_empty := ∅
}.
#[export] Instance map_epoll_laws : EpollLaws (gmap Z addr).
Proof.
  split; simpl.
  - done.
  - intros o fd p t Ho Ht. rewrite !decide_True by done. destruct (size t <? few)%nat; [|done]. intros x.
    case_decide; [subst; apply lookup_insert_eq|by apply lookup_insert_ne].
  - intros o fd p t ?. by rewrite decide_False.
  - intros o fd p t ? ?. by rewrite decide_True, decide_False.
  - intros fd t Ht. destruct (t !! fd) as [p|]; [|done]. eexists. split; [done|]. intros x.
    case_decide; [subst; apply lookup_delete_eq|by apply lookup_delete_ne].
  - intros fd t ->. done.
  - intros fd t x. case_decide; [subst; apply lookup_delete_eq|by apply lookup_delete_ne].
Qed.

(** Two uThreads block on a connection for the first time, it is closed and its
    descriptor is given to another connection. *)
Definition some_pds : list addr := map (λ i, Z.of_nat (16 * (i + 1))) (seq 0 128).


(** A close that overtakes the first block of a connection resets the
    descriptor under it, EPOLL_CTL_ADD fails on descriptor -1, and [open] ends
    the process. *)
Theorem close_under_open_exits :
  exited (default eset_init (run (estep (T := gmap Z addr) false)
    [EConn some_pds 5; EBlock 0 16; EStep 0; EStep 0; EClose 1 16; EStep 1; EStep 1; EStep 1; EStep 0] eset_init)) = Some EBADF.
Proof. vm_compute. reflexivity. Qed.

(** When the kernel has no room for a third descriptor, [open] ends the process. *)
Definition open_once (t : nat) (p : addr) : list elabel := [EBlock t p; EStep t; EStep t; EStep t].
Theorem full_set_exits :
  exited (default eset_init (run (estep (T := gmap Z addr) true)
    ([EConn some_pds 5; EConn [] 6; EConn [] 7] ++ open_once 0 16 ++ open_once 0 32 ++ open_once 0 48) eset_init))
  = Some ENOSPC.
Proof. vm_compute. reflexivity. Qed.

(** Accepting into a connection that has a descriptor already changes it under
    the mark that it is opened: the new descriptor is never registered, and who
    blocks on it waits for nothing. *)
Theorem set_fd_twice_unregistered :
  let s := default eset_init (run (estep (T := gmap Z addr) false)
    ([EConn some_pds 5] ++ open_once 0 16 ++ [ESetFD 16 6; EBlock 0 16; EStep 0]) eset_init) in
  thr s = ∅ ∧ pds s !! 16%Z = Some (mkEpd 6 true false) ∧ registered (tbl s) 6 = None.
Proof. vm_compute. done. Qed.

(** With clients that keep to the rule a notification can still arrive late: what epoll_wait reported for
    descriptor 5 is followed when the PollData has come round to descriptor 133.  The
    uThread it wakes tries its system call again. *)
Theorem late_notification :
  let before := [EConn some_pds 5; EBlock 0 16; EStep 0; EStep 0; EStep 0; EWait 5] in
  let after := [EClose 2 16; EStep 2; EStep 2; EStep 2; EStep 2; EStep 2]
    ++ map (λ i, EConn [] (Z.of_nat i)) (seq 6 128) in
  let seen ls := (λ s, (pfd <$> pds s !! 16%Z, batch s)) <$> run (estep (T := gmap Z addr) true) ls eset_init in
  seen before = Some (Some 5%Z, [16%Z]) ∧ seen (before ++ after) = Some (Some 133%Z, [16%Z]).
Proof. split; vm_compute; reflexivity. Qed.
