(* ===== verification/Network.v ===== *)
(** * Network: connections

    [class Connection] of [src/io/Network.h] and [src/io/Network.cpp].  A
    connection holds a non-blocking descriptor and a PollData; each operation
    tries its system call, and while the call would block it waits for the
    descriptor ([IOHandler::wait], the block and unblock protocol of
    [IOHandler]) and tries again.  The first wait on a PollData adds it to the
    epoll set ([IOHandler::open]), and when the kernel refuses that the process
    ends.

    The kernel is a parameter: a function from everything that has happened so
    far to the result of the next system call and its error number. *)

From S2P Require Import Prelude.

Open Scope Z_scope.

Definition EAGAIN : Z := 11.
Definition EWOULDBLOCK : Z := 11.
Definition EINPROGRESS : Z := 115.
Definition SOCK_NONBLOCK : Z := 2048.
Definition SOL_SOCKET : Z := 1.
Definition SO_ERROR : Z := 4.
Definition EPOLL_CTL_ADD : Z := 1.
Definition EPOLL_CTL_DEL : Z := 2.
Definition EXIT_FAILURE : Z := 1.
Definition UT_IOREAD : Z := 1.
Definition UT_IOWRITE : Z := 2.

Inductive sysname : Type :=
  | SYS_socket | SYS_listen | SYS_accept4 | SYS_bind | SYS_connect | SYS_getsockopt
  | SYS_recv | SYS_recvfrom | SYS_recvmsg | SYS_recvmmsg
  | SYS_send | SYS_sendto | SYS_sendmsg | SYS_sendmmsg
  | SYS_read | SYS_write | SYS_close | SYS_epoll_ctl.

Inductive event : Type :=
  | Call (n : sysname) (args : list Z) (res err : Z)
  | Wait (flag fd : Z)           (* IOHandler::wait on a PollData with this fd *)
  | ClosePd (pd : addr).         (* IOHandler::close *)

Record Connection := mkConn { cpd : addr; cfd : Z }.

Record net := mkNet {
  conns : gmap addr Connection;
  pds : gmap addr Z;             (* PollData::fd *)
  opened : gset addr;            (* PollData::opened *)
  freepd : list addr;            (* the PollCache *)
  errno : Z;
  log : list event
}.

Section net.
Context `{Build} (kernel : list event → sysname → list Z → Z * Z).

Definition get_conn (this : addr) : M net Connection := λ s,
  match conns s !! this with Some c => Ok (c, s) | None => Fault (BadAccess this) end.
Definition put_conn (this : addr) (c : Connection) : M net unit := λ s,
  Ok (tt, mkNet (<[this := c]> (conns s)) (pds s) (opened s) (freepd s) (errno s) (log s)).
Definition set_pdfd (pd : addr) (fd : Z) : M net unit := λ s,
  match pds s !! pd with
  | Some _ => Ok (tt, mkNet (conns s) (<[pd := fd]> (pds s)) (opened s) (freepd s) (errno s) (log s))
  | None => Fault (BadAccess pd)
  end.
Definition get_pdfd (pd : addr) : M net Z := λ s,
  match pds s !! pd with Some fd => Ok (fd, s) | None => Fault (BadAccess pd) end.
Definition get_errno : M net Z := λ s, Ok (errno s, s).
Definition set_errno (e : Z) : M net unit := λ s,
  Ok (tt, mkNet (conns s) (pds s) (opened s) (freepd s) e (log s)).
Definition log_event (e : event) : M net unit := λ s,
  Ok (tt, mkNet (conns s) (pds s) (opened s) (freepd s) (errno s) (log s ++ [e])).

(** A system call: errno changes when it fails. *)
Definition syscall (n : sysname) (args : list Z) : M net Z := λ s,
  let r := kernel (log s) n args in
  Ok (r.1, mkNet (conns s) (pds s) (opened s) (freepd s) (if r.1 =? -1 then r.2 else errno s)
                 (log s ++ [Call n args r.1 r.2])).

(** [if(!pd.opened) open(pd)] of [IOHandler::block]: the compare-exchange of
    [IOHandler::open] succeeds, since the flag was just seen to be false, and is
    taken back before the exit; [&pd] is the data of the epoll event. *)
Definition is_opened (pd : addr) : M net bool := λ s, Ok (bool_decide (pd ∈ opened s), s).
Definition set_opened (pd : addr) : M net unit := λ s,
  Ok (tt, mkNet (conns s) (pds s) ({[pd]} ∪ opened s) (freepd s) (errno s) (log s)).
Definition open (pd : addr) : M net unit :=
  assertM (fd ← get_pdfd pd; mret (0 <? fd));;
  set_opened pd;;
  fd ← get_pdfd pd;
  res ← syscall SYS_epoll_ctl [EPOLL_CTL_ADD; fd; pd];
  if res =? 0 then mret tt else failM (Exit EXIT_FAILURE).

(** [IOHandler::wait(pd, flag)]: [flag] is one of the two directions, and the
    rest of [block] is the event. *)
Definition wait (pd : addr) (flag : Z) : M net unit :=
  assertM (fd ← get_pdfd pd; mret (0 <? fd));;
  fd ← get_pdfd pd;
  o ← is_opened pd;
  (if negb o then open pd else mret tt);;
  log_event (Wait flag fd).

(** [PollCache::getPollData()]; [news] are the objects that [new] returns. *)
Definition getPollData (news : list addr) : M net addr := λ s,
  match freepd s ++ (match freepd s with [] => news | _ => [] end) with
  | a :: r =>
      Ok (a, mkNet (conns s)
               (match freepd s with [] => foldr (λ b m, <[b := -1]> m) (pds s) news | _ => pds s end)
               (match freepd s with [] => opened s ∖ list_to_set news | _ => opened s end)
               r (errno s) (log s))
  | [] => Fault (BadAccess nullptr)
  end.

(** [void init()] *)
Definition init (this : addr) (news : list addr) : M net unit :=
  c ← get_conn this;
  pd ← getPollData news;
  put_conn this (mkConn pd (cfd c));;
  set_pdfd pd (cfd c).
(** [void setFD(int fd)] *)
Definition setFD (this : addr) (fd : Z) : M net unit :=
  c ← get_conn this;
  put_conn this (mkConn (cpd c) fd);;
  set_pdfd (cpd c) fd.

(** [Connection()], [Connection(int fd)] at address [this] *)
Definition new_Connection (this : addr) (fd : Z) (news : list addr) : M net unit :=
  put_conn this (mkConn nullptr fd);;
  init this news.
(** [Connection(int domain, int type, int protocol)] *)
Definition new_Connection_socket (this : addr) (domain type protocol : Z) (news : list addr) : M net unit :=
  put_conn this (mkConn nullptr (-1));;
  sockfd ← syscall SYS_socket [domain; Z.lor type SOCK_NONBLOCK; protocol];
  if sockfd =? -1 then e ← get_errno; failM (Throw e)
  else put_conn this (mkConn nullptr sockfd);; init this news.

(** [int socket(int domain, int type, int protocol)] *)
Definition socket (this : addr) (domain type protocol : Z) : M net Z :=
  c ← get_conn this;
  if negb (cfd c =? -1) then mret (-1)
  else
    sockfd ← syscall SYS_socket [domain; Z.lor type SOCK_NONBLOCK; protocol];
    (if sockfd =? -1 then mret tt else setFD this sockfd);;
    mret sockfd.

(** [int listen(int backlog)], [int bind(addr, addrlen)] *)
Definition listen (this : addr) (backlog : Z) : M net Z :=
  c ← get_conn this;
  assertM (mret (0 <? cfd c));;
  syscall SYS_listen [cfd c; backlog].
Definition bind (this : addr) (sa salen : Z) : M net Z :=
  c ← get_conn this;
  assertM (mret (0 <? cfd c));;
  syscall SYS_bind [cfd c; sa; salen].

(** [(res == -1) && (errno == EAGAIN || errno == EWOULDBLOCK)] *)
Definition would_block (res e : Z) : bool := (res =? -1) && ((e =? EAGAIN) || (e =? EWOULDBLOCK)).

(** [while(would block){ wait; res = call; }] *)
Fixpoint retry (fuel : nat) (this : addr) (flag : Z) (n : sysname) (args : list Z) (res : Z) : M net Z :=
  match fuel with
  | O => failM OutOfFuel
  | S fuel' =>
      e ← get_errno;
      if would_block res e then
        c ← get_conn this;
        wait (cpd c) flag;;
        res' ← syscall n args;
        retry fuel' this flag n args res'
      else mret res
  end.
(** The call, and the loop after it. *)
Definition attempt (fuel : nat) (this : addr) (flag : Z) (n : sysname) (args : list Z) : M net Z :=
  res ← syscall n args;
  retry fuel this flag n args res.

(** [assert(p != nullptr); assert(fd != -1);] and the loop on [this->fd]. *)
Definition checked (fuel : nat) (this p : addr) (flag : Z) (n : sysname) (args : list Z) : M net Z :=
  assertM (mret (negb (p =? nullptr)));;
  c ← get_conn this;
  assertM (mret (negb (cfd c =? -1)));;
  attempt fuel this flag n (cfd c :: args).

Definition recv (fuel : nat) (this buf len flags : Z) : M net Z :=
  checked fuel this buf UT_IOREAD SYS_recv [buf; len; flags].
Definition recvfrom (fuel : nat) (this buf len flags src srclen : Z) : M net Z :=
  checked fuel this buf UT_IOREAD SYS_recvfrom [buf; len; flags; src; srclen].
(** [recvmsg], [recvmmsg], [sendto] and [sendmmsg] do not use their [sockfd]. *)
Definition recvmsg (fuel : nat) (this sockfd msg flags : Z) : M net Z :=
  checked fuel this msg UT_IOREAD SYS_recvmsg [msg; flags].
Definition recvmmsg (fuel : nat) (this sockfd msgvec vlen flags timeout : Z) : M net Z :=
  checked fuel this msgvec UT_IOREAD SYS_recvmmsg [msgvec; vlen; flags; timeout].
Definition send (fuel : nat) (this buf len flags : Z) : M net Z :=
  checked fuel this buf UT_IOWRITE SYS_send [buf; len; flags].
Definition sendto (fuel : nat) (this sockfd buf len flags dest destlen : Z) : M net Z :=
  assertM (mret (negb (buf =? nullptr)));;
  checked fuel this dest UT_IOWRITE SYS_sendto [buf; len; flags; dest; destlen].
Definition sendmsg (fuel : nat) (this msg flags : Z) : M net Z :=
  c ← get_conn this;
  assertM (mret (negb (cfd c =? -1)));;
  attempt fuel this UT_IOWRITE SYS_sendmsg [cfd c; msg; flags].
Definition sendmmsg (fuel : nat) (this sockfd msgvec vlen flags : Z) : M net Z :=
  checked fuel this msgvec UT_IOWRITE SYS_sendmmsg [msgvec; vlen; flags].
Definition read (fuel : nat) (this buf count : Z) : M net Z :=
  checked fuel this buf UT_IOREAD SYS_read [buf; count].
Definition write (fuel : nat) (this buf count : Z) : M net Z :=
  checked fuel this buf UT_IOWRITE SYS_write [buf; count].

(** [void blockOnRead()], [void blockOnWrite()] *)
Definition blockOnRead (this : addr) : M net unit := c ← get_conn this; wait (cpd c) UT_IOREAD.
Definition blockOnWrite (this : addr) : M net unit := c ← get_conn this; wait (cpd c) UT_IOWRITE.

(** The first part of both [accept]s. *)
Definition accept4 (fuel : nat) (this sa salen : Z) : M net Z :=
  c ← get_conn this;
  assertM (mret (negb (cfd c =? -1)));;
  attempt fuel this UT_IOREAD SYS_accept4 [cfd c; sa; salen; SOCK_NONBLOCK].
(** [int accept(Connection *conn, addr, addrlen)] *)
Definition accept (fuel : nat) (this conn sa salen : Z) : M net Z :=
  sockfd ← accept4 fuel this sa salen;
  (if 0 <? sockfd then setFD conn sockfd else mret tt);;
  mret sockfd.
(** [Connection* accept(addr, addrlen)]; [conn] is the address of the new
    object. *)
Definition accept_new (fuel : nat) (this sa salen : Z) (conn : addr) (news : list addr) : M net addr :=
  sockfd ← accept4 fuel this sa salen;
  if 0 <? sockfd then new_Connection conn sockfd news;; mret conn
  else e ← get_errno; failM (Throw e).

(** [int connect(addr, addrlen)]; the kernel's result for getsockopt is the
    value it stores into [optval]. *)
Definition connect (this sa salen : Z) : M net Z :=
  c ← get_conn this;
  assertM (mret (0 <? cfd c));;
  res ← syscall SYS_connect [cfd c; sa; salen];
  e ← get_errno;
  if (res =? -1) && (e =? EINPROGRESS) then
    wait (cpd c) UT_IOWRITE;;
    optval ← syscall SYS_getsockopt [cfd c; SOL_SOCKET; SO_ERROR];
    if optval =? 0 then mret 0 else set_errno optval;; mret (-1)
  else mret res.

(** [int close()]; IOHandler::close takes the descriptor out of the epoll set,
    whatever the result, resets the PollData and recycles it. *)
Definition reset_pd (pd : addr) : M net unit := λ s,
  Ok (tt, mkNet (conns s) (pds s) (opened s ∖ {[pd]}) (freepd s) (errno s) (log s)).
Definition recycle (pd : addr) : M net unit := λ s,
  Ok (tt, mkNet (conns s) (pds s) (opened s) (freepd s ++ [pd]) (errno s) (log s)).
Definition close (this : addr) : M net Z :=
  c ← get_conn this;
  assertM (mret (negb (cpd c =? nullptr)));;
  log_event (ClosePd (cpd c));;
  fd ← get_pdfd (cpd c);
  syscall SYS_epoll_ctl [EPOLL_CTL_DEL; fd];;
  set_pdfd (cpd c) (-1);;
  reset_pd (cpd c);;
  recycle (cpd c);;
  syscall SYS_close [cfd c].

(** ** The retry loop *)

(** The epoll_ctl with which the first wait on [pd] begins, and what is logged
    for it after [l]. *)
Definition adding (l : list event) (pd fd : Z) : Z * Z := kernel l SYS_epoll_ctl [EPOLL_CTL_ADD; fd; pd].
Definition opening (s : net) (l : list event) (pd fd : Z) : list event :=
  if decide (pd ∈ opened s) then []
  else [Call SYS_epoll_ctl [EPOLL_CTL_ADD; fd; pd] (adding l pd fd).1 (adding l pd fd).2].

(** What has happened after [k] attempts that would have blocked, from [s]. *)
Definition blocked_once (n : sysname) (args : list Z) (flag fd : Z) : list event :=
  [Call n args (-1) EAGAIN; Wait flag fd].
Definition first_call (s : net) (n : sysname) (args : list Z) : list event :=
  log s ++ [Call n args (-1) EAGAIN].
Definition first_wait (s : net) (n : sysname) (args : list Z) (flag pd fd : Z) : list event :=
  first_call s n args ++ opening s (first_call s n args) pd fd ++ [Wait flag fd].
Definition history (s : net) (n : sysname) (args : list Z) (flag pd fd : Z) (k : nat) : list event :=
  match k with
  | O => log s
  | S k' => first_wait s n args flag pd fd ++ concat (repeat (blocked_once n args flag fd) k')
  end.

(** The kernel lets the call block [k] times and then gives [r], [e]. *)
Definition ready_after (s : net) (n : sysname) (args : list Z) (flag pd fd : Z) (k : nat) (r e : Z) : Prop :=
  (∀ i, (i < k)%nat → kernel (history s n args flag pd fd i) n args = (-1, EAGAIN))
  ∧ kernel (history s n args flag pd fd k) n args = (r, e) ∧ would_block r e = false.
(** The call would block and the kernel refuses to watch the descriptor. *)
Definition refused (s : net) (n : sysname) (args : list Z) (pd fd : Z) (k : nat) : Prop :=
  (0 < k)%nat ∧ pd ∉ opened s ∧ (adding (first_call s n args) pd fd).1 ≠ 0.
#[export] Instance refused_dec s n args pd fd k : Decision (refused s n args pd fd k).
Proof using. unfold refused. apply _. Defined.

Definition set_log (l : list event) (e : Z) (s : net) : net :=
  mkNet (conns s) (pds s) (opened s) (freepd s) e l.
Definition with_opened (pd : addr) (s : net) : net :=
  mkNet (conns s) (pds s) ({[pd]} ∪ opened s) (freepd s) (errno s) (log s).
Lemma with_opened_id pd s : pd ∈ opened s → with_opened pd s = s.
Proof. intros Hin. unfold with_opened. replace ({[pd]} ∪ opened s) with (opened s) by set_solver. by destruct s. Qed.

Lemma open_eq p s fd :
  pds s !! p = Some fd → 0 < fd →
  open p s = (if (adding (log s) p fd).1 =? 0
              then Ok (tt, set_log (log s ++ [Call SYS_epoll_ctl [EPOLL_CTL_ADD; fd; p] (adding (log s) p fd).1 (adding (log s) p fd).2])
                             (errno s) (with_opened p s))
              else Fault (Exit EXIT_FAILURE)).
Proof.
  intros Hp Hfd. unfold open, assertM, mbind, M_bind, get_pdfd, mret, M_ret, set_opened, adding, syscall, failM.
  simpl. rewrite Hp. destruct (Z.ltb_spec 0 fd); [|lia].
  destruct (kernel (log s) SYS_epoll_ctl [EPOLL_CTL_ADD; fd; p]) as [r e] eqn:Ek. simpl.
  destruct NDEBUG; rewrite ?Hp; simpl; rewrite ?Hp, ?Ek; simpl; destruct (Z.eqb_spec r 0) as [->|]; done.
Qed.

(** A wait is entered in the log, after the epoll_ctl if it is the first, which
    must succeed. *)
Lemma wait_eq p flag s fd :
  pds s !! p = Some fd → 0 < fd →
  wait p flag s
  = (if decide (p ∉ opened s ∧ (adding (log s) p fd).1 ≠ 0) then Fault (Exit EXIT_FAILURE)
     else Ok (tt, set_log (log s ++ opening s (log s) p fd ++ [Wait flag fd]) (errno s) (with_opened p s))).
Proof.
  intros Hp Hfd. unfold wait, assertM, mbind, M_bind, is_opened, mret, M_ret.
  assert (Ha : (if NDEBUG then Ok (tt, s) else Ok (tt, s)) = (Ok (tt, s) : outcome (unit * net))) by (by destruct NDEBUG).
  unfold get_pdfd. rewrite Hp. destruct (Z.ltb_spec 0 fd); [|lia].
  assert (Hmain : match (if negb (bool_decide (p ∈ opened s)) then open p else λ s0 : net, Ok (tt, s0)) s with
                  | Ok (_, s') => log_event (Wait flag fd) s' | Fault f => Fault f end
    = (if decide (p ∉ opened s ∧ (adding (log s) p fd).1 ≠ 0) then Fault (Exit EXIT_FAILURE)
       else Ok (tt, set_log (log s ++ opening s (log s) p fd ++ [Wait flag fd]) (errno s) (with_opened p s)))).
  { unfold opening. case_bool_decide as Ho; cbn [negb].
    - rewrite decide_False by naive_solver. rewrite (decide_True (P := p ∈ opened s)) by done. by rewrite with_opened_id.
    - rewrite (open_eq p s fd) by done. rewrite (decide_False (P := p ∈ opened s)) by done.
      destruct (Z.eqb_spec (adding (log s) p fd).1 0) as [E|E].
      + rewrite decide_False by naive_solver. unfold log_event, set_log. simpl. by rewrite <-app_assoc.
      + by rewrite decide_True. }
  destruct NDEBUG; rewrite ?Hp; exact Hmain.
Qed.

(** One round of the loop. *)
Definition after_round (s : net) (n : sysname) (args : list Z) (flag pd fd : Z) : net :=
  set_log (first_wait s n args flag pd fd) EAGAIN (with_opened pd s).
Lemma attempt_step f this flag n args s c fd :
  conns s !! this = Some c → pds s !! cpd c = Some fd → 0 < fd →
  kernel (log s) n args = (-1, EAGAIN) →
  attempt (S f) this flag n args s
  = (if decide (refused s n args (cpd c) fd 1) then Fault (Exit EXIT_FAILURE)
     else attempt f this flag n args (after_round s n args flag (cpd c) fd)).
Proof.
  intros Hc Hp Hfd Hk. unfold attempt, syscall at 1, mbind, M_bind. rewrite Hk.
  cbn [retry fst snd]. unfold mbind, M_bind, get_errno, get_conn. simpl. rewrite Hc. simpl.
  rewrite (wait_eq (cpd c) flag _ fd) by done. simpl. fold (first_call s n args).
  unfold refused. destruct (decide (cpd c ∉ opened s ∧ _)) as [Hr|Hr].
  - rewrite decide_True; [done|]. split; [lia|done].
  - rewrite decide_False by naive_solver. done.
Qed.

Lemma attempt_done f this flag n args s r e :
  kernel (log s) n args = (r, e) → would_block r e = false →
  attempt (S f) this flag n args s
  = Ok (r, set_log (log s ++ [Call n args r e]) (if r =? -1 then e else errno s) s).
Proof.
  intros Hk Hb. unfold attempt, syscall, mbind, M_bind. rewrite Hk. cbn [retry fst snd].
  unfold mbind, M_bind, get_errno, mret, M_ret, set_log. simpl.
  assert (Hb' : would_block r (if r =? -1 then e else errno s) = false).
  { unfold would_block in *. by destruct (r =? -1). }
  by rewrite Hb'.
Qed.

Lemma opening_marked s l pd fd : pd ∈ opened s → opening s l pd fd = [].
Proof. intros Hin. unfold opening. by rewrite decide_True. Qed.
Lemma history_round s n args flag pd fd k :
  history (after_round s n args flag pd fd) n args flag pd fd k = history s n args flag pd fd (S k).
Proof.
  destruct k as [|k]; simpl; [by rewrite app_nil_r|].
  unfold first_wait at 1. rewrite opening_marked by (simpl; set_solver). unfold first_call at 1. simpl.
  rewrite <-!app_assoc. done.
Qed.

(** The rounds after the first find the PollData opened. *)
Lemma attempt_ready k fuel this flag n args s c fd r e :
  conns s !! this = Some c → pds s !! cpd c = Some fd → 0 < fd → (k < fuel)%nat →
  ready_after s n args flag (cpd c) fd k r e →
  if decide (refused s n args (cpd c) fd k) then attempt fuel this flag n args s = Fault (Exit EXIT_FAILURE)
  else ∃ err, attempt fuel this flag n args s
              = Ok (r, set_log (history s n args flag (cpd c) fd k ++ [Call n args r e]) err
                         (if k is O then s else with_opened (cpd c) s))
              ∧ (r = -1 → err = e).
Proof.
  revert fuel s. induction k as [|k IH]; intros fuel s Hc Hp Hfd Hf (Hi & Hk & Hb).
  - rewrite decide_False by (intros [? _]; lia).
    destruct fuel as [|f]; [lia|]. rewrite (attempt_done f _ _ _ _ s r e) by done.
    eexists. split; [done|]. by intros ->.
  - destruct fuel as [|f]; [lia|].
    rewrite (attempt_step f this flag n args s c fd) by (done || apply (Hi 0%nat); lia).
    destruct (decide (refused s n args (cpd c) fd 1)) as [[_ Hr]|Hr].
    + rewrite decide_True; [done|]. split; [lia|done].
    + rewrite decide_False by (intros [_ ?]; apply Hr; split; [lia|done]).
      specialize (IH f (after_round s n args flag (cpd c) fd)).
      rewrite decide_False in IH by (intros (_ & Hn & _); apply Hn; simpl; set_solver).
      destruct IH as (err & Ha & He); [done|done|done|lia| |].
      { split_and!; [|by rewrite history_round|done]. intros i Hlt. rewrite history_round. apply Hi. lia. }
      exists err. split; [|done]. rewrite Ha, history_round. f_equal. f_equal.
      destruct k as [|k]; [done|]. rewrite with_opened_id by (simpl; set_solver). done.
Qed.

Lemma retry_no_block fuel this flag n args res s r s' :
  retry fuel this flag n args res s = Ok (r, s') → would_block r (errno s') = false.
Proof.
  revert res s. induction fuel as [|f IH]; intros res s Hr; [done|]. cbn [retry] in Hr.
  unfold mbind at 1, M_bind at 1, get_errno in Hr. destruct (would_block res (errno s)) eqn:Eb.
  - unfold mbind, M_bind in Hr. destruct (get_conn this s) as [[c s1]|] eqn:E1; [|done].
    destruct (wait (cpd c) flag s1) as [[[] s2]|] eqn:E2; [|done]. simpl in Hr. by eapply IH.
  - unfold mret, M_ret in Hr. by simplify_eq.
Qed.

(** ** The ten operations on data *)

Inductive rwop : Type :=
  | ORecv (buf len flags : Z) | ORecvfrom (buf len flags src srclen : Z)
  | ORecvmsg (sockfd msg flags : Z) | ORecvmmsg (sockfd msgvec vlen flags timeout : Z)
  | OSend (buf len flags : Z) | OSendto (sockfd buf len flags dest destlen : Z)
  | OSendmsg (msg flags : Z) | OSendmmsg (sockfd msgvec vlen flags : Z)
  | ORead (buf count : Z) | OWrite (buf count : Z).

Definition rw_exec (fuel : nat) (this : addr) (o : rwop) : M net Z :=
  match o with
  | ORecv b l f => recv fuel this b l f
  | ORecvfrom b l f a al => recvfrom fuel this b l f a al
  | ORecvmsg sk m f => recvmsg fuel this sk m f
  | ORecvmmsg sk m v f t => recvmmsg fuel this sk m v f t
  | OSend b l f => send fuel this b l f
  | OSendto sk b l f a al => sendto fuel this sk b l f a al
  | OSendmsg m f => sendmsg fuel this m f
  | OSendmmsg sk m v f => sendmmsg fuel this sk m v f
  | ORead b l => read fuel this b l
  | OWrite b l => write fuel this b l
  end.

(** The system call that stands behind each, and what it waits for. *)
Definition rw_call (o : rwop) : sysname * list Z * Z :=
  match o with
  | ORecv b l f => (SYS_recv, [b; l; f], UT_IOREAD)
  | ORecvfrom b l f a al => (SYS_recvfrom, [b; l; f; a; al], UT_IOREAD)
  | ORecvmsg _ m f => (SYS_recvmsg, [m; f], UT_IOREAD)
  | ORecvmmsg _ m v f t => (SYS_recvmmsg, [m; v; f; t], UT_IOREAD)
  | OSend b l f => (SYS_send, [b; l; f], UT_IOWRITE)
  | OSendto _ b l f a al => (SYS_sendto, [b; l; f; a; al], UT_IOWRITE)
  | OSendmsg m f => (SYS_sendmsg, [m; f], UT_IOWRITE)
  | OSendmmsg _ m v f => (SYS_sendmmsg, [m; v; f], UT_IOWRITE)
  | ORead b l => (SYS_read, [b; l], UT_IOREAD)
  | OWrite b l => (SYS_write, [b; l], UT_IOWRITE)
  end.
(** The pointers that must not be null. *)
Definition rw_pointers (o : rwop) : list addr :=
  match o with
  | ORecv b _ _ | ORecvfrom b _ _ _ _ | OSend b _ _ | ORead b _ | OWrite b _ => [b]
  | ORecvmsg _ m _ | ORecvmmsg _ m _ _ _ | OSendmmsg _ m _ _ => [m]
  | OSendto _ b _ _ a _ => [b; a]
  | OSendmsg _ _ => []
  end.

Lemma assertM_true {S A} (b : bool) (c : M S A) s :
  b = true → (assertM (mret b);; c) s = c s.
Proof.
  intros ->. unfold assertM, mbind, M_bind, mret, M_ret. by destruct NDEBUG.
Qed.

Lemma checked_attempt fuel this p flag n args s c :
  conns s !! this = Some c → cfd c ≠ -1 → p ≠ nullptr →
  checked fuel this p flag n args s = attempt fuel this flag n (cfd c :: args) s.
Proof.
  intros Hc Hfd Hp. unfold checked. rewrite assertM_true by (by apply negb_true_iff, Z.eqb_neq).
  unfold mbind at 1, M_bind at 1, get_conn. rewrite Hc.
  by rewrite assertM_true by (by apply negb_true_iff, Z.eqb_neq).
Qed.

Lemma rw_attempt fuel this o s c :
  conns s !! this = Some c → cfd c ≠ -1 → (∀ p, p ∈ rw_pointers o → p ≠ nullptr) →
  rw_exec fuel this o s
  = attempt fuel this (rw_call o).2 (rw_call o).1.1 (cfd c :: (rw_call o).1.2) s.
Proof.
  intros Hc Hfd Hp. destruct o; simpl in *;
    try (apply checked_attempt; [done|done|apply Hp, list_elem_of_here]).
  - unfold sendto. rewrite assertM_true.
    + apply checked_attempt; [done|done|]. apply Hp. apply list_elem_of_further, list_elem_of_here.
    + apply negb_true_iff, Z.eqb_neq, Hp, list_elem_of_here.
  - unfold sendmsg. unfold mbind at 1, M_bind at 1, get_conn. rewrite Hc.
    by rewrite assertM_true by (by apply negb_true_iff, Z.eqb_neq).
Qed.

(** C29. The operations on data block exactly as long as the kernel says so: when
    the system call would block [k] times and then has result [r], the
    operation, on an open connection, returns [r] (with the kernel's error
    number if it is -1) after exactly k waits for the right direction of the
    right descriptor and k+1 calls, and changes nothing else but that the
    PollData is in the epoll set when it has waited; more than [k] rounds of its
    loop are never needed.  Only when it has to wait, the PollData is not in the
    epoll set yet and the kernel refuses to add it, the process ends instead. *)
Theorem rw_spec k fuel this o s c r e :
  conns s !! this = Some c → pds s !! cpd c = Some (cfd c) → 0 < cfd c →
  (∀ p, p ∈ rw_pointers o → p ≠ nullptr) → (k < fuel)%nat →
  let n := (rw_call o).1.1 in
  let args := cfd c :: (rw_call o).1.2 in
  let flag := (rw_call o).2 in
  ready_after s n args flag (cpd c) (cfd c) k r e →
  if decide (refused s n args (cpd c) (cfd c) k) then rw_exec fuel this o s = Fault (Exit EXIT_FAILURE)
  else ∃ s', rw_exec fuel this o s = Ok (r, s')
    ∧ log s' = history s n args flag (cpd c) (cfd c) k ++ [Call n args r e]
    ∧ conns s' = conns s ∧ pds s' = pds s ∧ freepd s' = freepd s
    ∧ opened s' = (if k is O then opened s else {[cpd c]} ∪ opened s)
    ∧ (r = -1 → errno s' = e).
Proof.
  intros Hc Hp Hfd Hptr Hf n args flag Hr. rewrite (rw_attempt fuel this o s c) by (done || lia).
  pose proof (attempt_ready _ fuel this _ _ _ s c _ r e Hc Hp Hfd Hf Hr) as Ha.
  case_decide; [done|]. destruct Ha as (err & Ha & He). eexists. split; [done|]. by destruct k.
Qed.

(** What the header promises: an operation on data never returns -1 with
    EAGAIN or EWOULDBLOCK, whatever the kernel does and however long it takes. *)
Theorem rw_never_would_block fuel this o s r s' c :
  conns s !! this = Some c → cfd c ≠ -1 → (∀ p, p ∈ rw_pointers o → p ≠ nullptr) →
  rw_exec fuel this o s = Ok (r, s') →
  ¬ (r = -1 ∧ (errno s' = EAGAIN ∨ errno s' = EWOULDBLOCK)).
Proof.
  intros Hc Hfd Hp Hr [-> He]. rewrite (rw_attempt fuel this o s c) in Hr by done.
  unfold attempt, mbind, M_bind in Hr.
  destruct (syscall _ _ s) as [[res s1]|] eqn:Es; [|done]. apply retry_no_block in Hr.
  unfold would_block in Hr. destruct He as [He|He]; rewrite He in Hr; done.
Qed.

(** ** connect *)

(** connect returns what the system call returns unless the connection is
    in progress; then it waits for the descriptor to become writable, and
    returns 0 or -1 with the error of the socket as the error number, unless the
    kernel refuses to watch the descriptor. *)
Theorem connect_spec this sa salen s c r e :
  conns s !! this = Some c → pds s !! cpd c = Some (cfd c) → 0 < cfd c →
  kernel (log s) SYS_connect [cfd c; sa; salen] = (r, e) →
  let l1 := log s ++ [Call SYS_connect [cfd c; sa; salen] r e] in
  let l2 := l1 ++ opening s l1 (cpd c) (cfd c) ++ [Wait UT_IOWRITE (cfd c)] in
  let '(optval, e2) := kernel l2 SYS_getsockopt [cfd c; SOL_SOCKET; SO_ERROR] in
  if decide (r = -1 ∧ e = EINPROGRESS) then
    if decide (cpd c ∉ opened s ∧ (adding l1 (cpd c) (cfd c)).1 ≠ 0)
    then connect this sa salen s = Fault (Exit EXIT_FAILURE)
    else ∃ s', connect this sa salen s = Ok (if optval =? 0 then 0 else -1, s')
      ∧ log s' = l2 ++ [Call SYS_getsockopt [cfd c; SOL_SOCKET; SO_ERROR] optval e2]
      ∧ (optval ≠ 0 → errno s' = optval)
  else ∃ s', connect this sa salen s = Ok (r, s') ∧ log s' = l1 ∧ (r = -1 → errno s' = e).
Proof.
  intros Hc Hp Hfd Hk l1 l2. destruct (kernel l2 SYS_getsockopt _) as [optval e2] eqn:Eo.
  remember (connect this sa salen s) as out eqn:E. unfold connect in E.
  unfold mbind at 1, M_bind at 1, get_conn in E. rewrite Hc in E.
  rewrite assertM_true in E by (by apply Z.ltb_lt). unfold mbind at 1, M_bind at 1, syscall at 1 in E.
  rewrite Hk in E. cbn [fst snd] in E. unfold mbind at 1, M_bind at 1, get_errno in E. cbn [errno] in E.
  destruct (Z.eqb_spec r (-1)) as [->|Hr]; cbn [andb] in E.
  2: { rewrite decide_False by naive_solver. eexists. split; [exact E|]. done. }
  destruct (Z.eqb_spec e EINPROGRESS) as [->|He].
  2: { rewrite decide_False by naive_solver. eexists. split; [exact E|]. done. }
  rewrite (decide_True (P := -1 = -1 ∧ _)) by done.
  unfold mbind at 1, M_bind at 1 in E. rewrite (wait_eq (cpd c) _ _ (cfd c)) in E by done. cbn [log opened] in E.
  fold l1 in E. change (opening _ l1 _ _) with (opening s l1 (cpd c) (cfd c)) in E. fold l2 in E.
  case_decide; [done|]. unfold mbind at 1, M_bind at 1, syscall, set_log in E. cbn [log fst snd] in E.
  rewrite Eo in E. cbn [fst] in E.
  destruct (Z.eqb_spec optval 0) as [->|Ho]; eexists; (split; [exact E|]); done.
Qed.

(** ** The PollData of a connection *)

(** Every connection has its own PollData, which is not in the cache and holds
    the connection's descriptor. *)
Record net_wf (s : net) : Prop := {
  wf_fd : ∀ a c, conns s !! a = Some c → pds s !! cpd c = Some (cfd c);
  wf_inj : ∀ a b c d, conns s !! a = Some c → conns s !! b = Some d → cpd c = cpd d → a = b;
  wf_free : ∀ a c, conns s !! a = Some c → cpd c ∉ freepd s;
  wf_nodup : NoDup (freepd s);
  wf_pds : ∀ p, p ∈ freepd s → is_Some (pds s !! p)
}.

(** What [new] returns. *)
Definition fresh_pds (news : list addr) (s : net) : Prop :=
  news ≠ [] ∧ NoDup news ∧ ∀ p, p ∈ news → pds s !! p = None.

Definition set_fd_of (a : addr) (p : addr) (fd : Z) (s : net) : net :=
  mkNet (<[a := mkConn p fd]> (conns s)) (<[p := fd]> (pds s)) (opened s) (freepd s) (errno s) (log s).

(** Changing the descriptor of a connection and of its PollData. *)
Lemma set_fd_wf a c fd s :
  net_wf s → conns s !! a = Some c → net_wf (set_fd_of a (cpd c) fd s).
Proof.
  intros [H1 H2 H3 H4 H5] Ha. split; simpl; [| | |done|].
  - intros b d. destruct (decide (b = a)) as [->|Hb].
    + rewrite lookup_insert_eq. intros [= <-]. simpl. by rewrite lookup_insert_eq.
    + rewrite lookup_insert_ne by done. intros Hd. rewrite lookup_insert_ne; [by eapply H1|].
      intros Heq. by apply Hb, (H2 b a d c).
  - intros b1 b2 d1 d2. destruct (decide (b1 = a)) as [->|Hb1], (decide (b2 = a)) as [->|Hb2];
      rewrite ?lookup_insert_eq, ?lookup_insert_ne by done; [done| | |intros; by eapply H2].
    + intros [= <-] Hd Heq. by eapply (H2 a b2).
    + intros Hd [= <-] Heq. by eapply (H2 b1 a).
  - intros b d. destruct (decide (b = a)) as [->|Hb].
    + rewrite lookup_insert_eq. intros [= <-]. simpl. by apply (H3 a c).
    + rewrite lookup_insert_ne by done. apply H3.
  - intros p Hp. rewrite lookup_insert_is_Some. destruct (decide (cpd c = p)); auto.
Qed.

(** A connection whose PollData comes out of the cache. *)
Lemma add_conn_wf a p fd s :
  net_wf s → conns s !! a = None → p ∉ freepd s → (∀ b c, conns s !! b = Some c → cpd c ≠ p) →
  net_wf (set_fd_of a p fd s).
Proof.
  intros [H1 H2 H3 H4 H5] Ha Hp Hnew. split; simpl; [| | |done|].
  - intros b d. destruct (decide (b = a)) as [->|Hb].
    + rewrite lookup_insert_eq. intros [= <-]. simpl. by rewrite lookup_insert_eq.
    + rewrite lookup_insert_ne by done. intros Hd. rewrite lookup_insert_ne; [by eapply H1|].
      intros Heq. by eapply Hnew.
  - intros b1 b2 d1 d2. destruct (decide (b1 = a)) as [->|Hb1], (decide (b2 = a)) as [->|Hb2];
      rewrite ?lookup_insert_eq, ?lookup_insert_ne by done; [done| | |intros; by eapply H2].
    + intros [= <-] Hd Heq. by destruct (Hnew b2 d2).
    + intros Hd [= <-] Heq. by destruct (Hnew b1 d1).
  - intros b d. destruct (decide (b = a)) as [->|Hb].
    + rewrite lookup_insert_eq. by intros [= <-].
    + rewrite lookup_insert_ne by done. apply H3.
  - intros q Hq. rewrite lookup_insert_is_Some. destruct (decide (p = q)); auto.
Qed.

Lemma foldr_fresh (news : list addr) (m : gmap addr Z) q :
  foldr (λ b m, <[b := -1]> m) m news !! q = if decide (q ∈ news) then Some (-1) else m !! q.
Proof.
  induction news as [|b news IH]; [done|]. cbn [foldr].
  destruct (decide (q = b)) as [->|Hne].
  - rewrite lookup_insert_eq, decide_True; [done|]. apply list_elem_of_here.
  - rewrite lookup_insert_ne, IH by done. destruct (decide (q ∈ news)).
    + rewrite decide_True; [done|]. by apply list_elem_of_further.
    + rewrite decide_False; [done|]. rewrite elem_of_cons. naive_solver.
Qed.

(** [getPollData] gives an object that no connection has. *)
Lemma getPollData_wf news s :
  net_wf s → fresh_pds news s →
  ∃ p s', getPollData news s = Ok (p, s') ∧ net_wf s' ∧ conns s' = conns s
    ∧ p ∉ freepd s' ∧ is_Some (pds s' !! p)
    ∧ (∀ b c, conns s !! b = Some c → cpd c ≠ p)
    ∧ log s' = log s ∧ errno s' = errno s.
Proof.
  intros [H1 H2 H3 H4 H5] (Hne & Hnd & Hfr). unfold getPollData.
  destruct (freepd s) as [|a r] eqn:Ef; simpl.
  - destruct news as [|a r]; [done|]. eexists _, _. split; [done|].
    apply NoDup_cons in Hnd as [Ha Hr].
    assert (Hused : ∀ b c, conns s !! b = Some c → cpd c ∉ a :: r).
    { intros b c Hb Hin. apply H1 in Hb. by rewrite (Hfr _ Hin) in Hb. }
    split_and!; simpl; try done.
    + split; simpl; try done.
      * intros b c Hb. pose proof (Hused b c Hb) as Hn.
        change (<[a := -1]> (foldr _ (pds s) r)) with (foldr (λ b m, <[b := -1]> m) (pds s) (a :: r)).
        rewrite foldr_fresh, decide_False by done. by eapply H1.
      * intros b c Hb Hin. eapply Hused; [done|]. by apply list_elem_of_further.
      * intros q Hq. change (<[a := -1]> (foldr _ (pds s) r)) with (foldr (λ b m, <[b := -1]> m) (pds s) (a :: r)).
        rewrite foldr_fresh, decide_True; [eauto|]. by apply list_elem_of_further.
    + rewrite lookup_insert_eq. eauto.
    + intros b c Hb Heq. apply (Hused b c Hb). rewrite Heq. apply list_elem_of_here.
  - rewrite app_nil_r. eexists _, _. split; [done|]. apply NoDup_cons in H4 as [Ha Hr].
    split_and!; simpl; try done.
    + split; simpl; try done.
      * intros b c Hb Hin. eapply H3; [done|]. by apply list_elem_of_further.
      * intros q Hq. apply H5. by apply list_elem_of_further.
    + apply H5, list_elem_of_here.
    + intros b c Hb Heq. apply (H3 b c Hb). rewrite Heq. apply list_elem_of_here.
Qed.

Definition with_conns (m : gmap addr Connection) (s : net) : net :=
  mkNet m (pds s) (opened s) (freepd s) (errno s) (log s).
Lemma getPollData_conns news m s p s' :
  getPollData news s = Ok (p, s') → getPollData news (with_conns m s) = Ok (p, with_conns m s').
Proof.
  unfold getPollData, with_conns. simpl. destruct (freepd s ++ _); [done|]. intros [= -> <-]. done.
Qed.

Lemma set_pdfd_ok p fd s : is_Some (pds s !! p) →
  set_pdfd p fd s = Ok (tt, mkNet (conns s) (<[p := fd]> (pds s)) (opened s) (freepd s) (errno s) (log s)).
Proof. intros [v Hv]. unfold set_pdfd. by rewrite Hv. Qed.

Lemma new_Connection_wf this fd news s :
  net_wf s → conns s !! this = None → fresh_pds news s →
  ∃ s', new_Connection this fd news s = Ok (tt, s') ∧ net_wf s'
        ∧ ∃ p, conns s' = <[this := mkConn p fd]> (conns s).
Proof.
  intros HW Hn Hf. destruct (getPollData_wf news s HW Hf) as (p & s1 & Hg & HW1 & Hc1 & Hp & Hs & Hu & _).
  unfold new_Connection, init, mbind, M_bind, put_conn, get_conn. simpl. rewrite lookup_insert_eq.
  change (mkNet (<[this := mkConn nullptr fd]> (conns s)) (pds s) (opened s) (freepd s) (errno s) (log s))
    with (with_conns (<[this := mkConn nullptr fd]> (conns s)) s).
  rewrite (getPollData_conns _ _ _ _ _ Hg). rewrite set_pdfd_ok by done. simpl.
  eexists. split; [done|]. rewrite insert_insert_eq. split; [|simpl; eauto].
  change (net_wf (set_fd_of this p fd (with_conns (conns s) s1))).
  assert (Heq : with_conns (conns s) s1 = s1) by (destruct s1; simpl in *; by subst).
  rewrite Heq. apply add_conn_wf; [done|by rewrite Hc1|done|]. by rewrite Hc1.
Qed.

Lemma setFD_wf this fd s c :
  net_wf s → conns s !! this = Some c →
  setFD this fd s = Ok (tt, set_fd_of this (cpd c) fd s) ∧ net_wf (set_fd_of this (cpd c) fd s).
Proof.
  intros HW Hc. split; [|by apply set_fd_wf].
  unfold setFD, mbind, M_bind, get_conn, put_conn. rewrite Hc. rewrite set_pdfd_ok; [done|].
  simpl. rewrite (wf_fd _ HW _ _ Hc). eauto.
Qed.

(** A system call, or a loop of them, changes neither connections nor
    PollData. *)
Definition same_objects (s s' : net) : Prop :=
  conns s' = conns s ∧ pds s' = pds s ∧ freepd s' = freepd s.
Lemma same_wf s s' : net_wf s → same_objects s s' → net_wf s'.
Proof. intros [H1 H2 H3 H4 H5] (E1 & E2 & E3). split; rewrite ?E1, ?E2, ?E3; done. Qed.
Lemma same_trans s1 s2 s3 : same_objects s1 s2 → same_objects s2 s3 → same_objects s1 s3.
Proof. unfold same_objects. intuition congruence. Qed.

Lemma assertM_id {S} (c : M S bool) s u s' : assertM c s = Ok (u, s') → s' = s.
Proof.
  unfold assertM. destruct NDEBUG; [by intros [= _ <-]|].
  destruct (c s) as [[[] ?]|]; try done. by intros [= _ <-].
Qed.
Lemma open_same p s s' : open p s = Ok (tt, s') → same_objects s s'.
Proof.
  unfold open, mbind, M_bind. destruct (assertM _ s) as [[u s0]|] eqn:Ea; [|done]. apply assertM_id in Ea as ->.
  unfold set_opened, get_pdfd, syscall. simpl. destruct (pds s !! p); [|done]. simpl.
  destruct (_ =? 0); [|done]. unfold mret, M_ret. by intros [= <-].
Qed.
Lemma wait_same p flag s s' : wait p flag s = Ok (tt, s') → same_objects s s'.
Proof.
  unfold wait, mbind, M_bind. destruct (assertM _ s) as [[u s0]|] eqn:Ea; [|done]. apply assertM_id in Ea as ->.
  unfold get_pdfd, is_opened. destruct (pds s !! p); [|done].
  case_bool_decide; cbn [negb]; [by intros [= <-]|].
  destruct (open p s) as [[[] s1]|] eqn:Eo; [|done]. apply open_same in Eo as (E1 & E2 & E3).
  intros [= <-]. unfold same_objects. simpl. auto.
Qed.
Lemma retry_same fuel this flag n args res s r s' :
  retry fuel this flag n args res s = Ok (r, s') → same_objects s s'.
Proof.
  revert res s. induction fuel as [|f IH]; intros res s Hr; [done|]. cbn [retry] in Hr.
  unfold mbind at 1, M_bind at 1, get_errno in Hr. destruct (would_block res (errno s)) eqn:Eb.
  - unfold mbind, M_bind in Hr. unfold get_conn in Hr. destruct (conns s !! this) as [c|]; [|done].
    destruct (wait (cpd c) flag s) as [[[] s2]|] eqn:E2; [|done]. simpl in Hr.
    apply wait_same in E2. apply IH in Hr. eapply same_trans; [done|]. done.
  - unfold mret, M_ret in Hr. by simplify_eq.
Qed.
Lemma attempt_same fuel this flag n args s r s' :
  attempt fuel this flag n args s = Ok (r, s') → same_objects s s'.
Proof. intros Hr. apply retry_same in Hr. done. Qed.
Lemma accept4_same fuel this sa salen s r s' :
  accept4 fuel this sa salen s = Ok (r, s') → same_objects s s'.
Proof.
  unfold accept4, mbind, M_bind, get_conn. destruct (conns s !! this) as [c|]; [|done].
  unfold assertM, mret, M_ret. destruct NDEBUG; [apply attempt_same|].
  destruct (negb _); [apply attempt_same|done].
Qed.

(** ** Operations on connections *)

Inductive nop : Type :=
  | NNew (this : addr) (fd : Z) (news : list addr)
  | NSocket (this : addr) (domain type protocol : Z)
  | NAccept (fuel : nat) (this conn : addr) (sa salen : Z)
  | NAcceptNew (fuel : nat) (this : addr) (sa salen : Z) (conn : addr) (news : list addr)
  | NClose (this : addr).    (* close, and the object is destroyed *)

Definition delete_conn (this : addr) : M net unit := λ s,
  Ok (tt, mkNet (delete this (conns s)) (pds s) (opened s) (freepd s) (errno s) (log s)).

Definition nop_exec (o : nop) : M net Z :=
  match o with
  | NNew this fd news => new_Connection this fd news;; mret 0
  | NSocket this d t p => socket this d t p
  | NAccept fuel this conn sa salen => accept fuel this conn sa salen
  | NAcceptNew fuel this sa salen conn news => accept_new fuel this sa salen conn news
  | NClose this => r ← close this; delete_conn this;; mret r
  end.

(** New objects are new, and the objects given exist. *)
Definition nop_pre (o : nop) (s : net) : Prop :=
  match o with
  | NNew this _ news => conns s !! this = None ∧ fresh_pds news s
  | NSocket this _ _ _ => is_Some (conns s !! this)
  | NAccept _ _ conn _ _ => is_Some (conns s !! conn)
  | NAcceptNew _ _ _ _ conn news => conns s !! conn = None ∧ fresh_pds news s
  | NClose this => is_Some (conns s !! this)
  end.

(** A connection leaves, its PollData goes into the cache; or it just leaves. *)
Lemma recycle_wf this c s o e l :
  net_wf s → conns s !! this = Some c →
  net_wf (mkNet (delete this (conns s)) (<[cpd c := -1]> (pds s)) o (freepd s ++ [cpd c]) e l).
Proof.
  intros HW Hc. pose proof (wf_free _ HW _ _ Hc) as Hnf. destruct HW as [H1 H2 H3 H4 H5]. split; simpl.
  - intros b d [Hb Hd]%lookup_delete_Some. rewrite lookup_insert_ne; [by eapply H1|].
    intros Heq. by apply Hb, (H2 this b c d).
  - intros b1 b2 d1 d2 [_ ?]%lookup_delete_Some [_ ?]%lookup_delete_Some. by eapply H2.
  - intros b d [Hb Hd]%lookup_delete_Some [Hin|Hin%list_elem_of_singleton]%elem_of_app.
    + by eapply H3.
    + apply Hb. by eapply (H2 this b c d).
  - apply NoDup_app. split_and!; [done| |apply NoDup_singleton].
    intros q Hq ->%list_elem_of_singleton. done.
  - intros q [Hq|Hq%list_elem_of_singleton]%elem_of_app; rewrite lookup_insert_is_Some; [|by left].
    destruct (decide (cpd c = q)); auto.
Qed.
Lemma drop_conn_wf this s : net_wf s → net_wf (with_conns (delete this (conns s)) s).
Proof.
  intros [H1 H2 H3 H4 H5]. split; simpl; [| | |done|done].
  - intros b d [_ Hd]%lookup_delete_Some. by eapply H1.
  - intros b1 b2 d1 d2 [_ ?]%lookup_delete_Some [_ ?]%lookup_delete_Some. by eapply H2.
  - intros b d [_ Hd]%lookup_delete_Some. by eapply H3.
Qed.

Lemma close_wf this s r s' :
  net_wf s → nop_exec (NClose this) s = Ok (r, s') → net_wf s'.
Proof.
  intros HW. cbn [nop_exec]. unfold close, mbind, M_bind, get_conn.
  destruct (conns s !! this) as [c|] eqn:Hc; [|done].
  pose proof (wf_fd _ HW _ _ Hc) as Hfd.
  unfold assertM, mret, M_ret. destruct NDEBUG; [|destruct (negb _); [|done]];
    unfold get_pdfd; simpl; rewrite Hfd; unfold syscall; simpl;
    rewrite set_pdfd_ok by (simpl; rewrite Hfd; eauto); simpl; intros [= _ <-]; by apply recycle_wf.
Qed.

(** Every connection has a PollData of its own, which carries its
    descriptor and is not in the cache: creating connections, opening sockets,
    accepting (into a given object or a new one) and closing keep it so, as
    long as a closed connection is not used any more. *)
Theorem net_wf_preserved o s r s' :
  net_wf s → nop_pre o s → nop_exec o s = Ok (r, s') → net_wf s'.
Proof.
  intros HW Hp Hr. destruct o as [this fd news|this d t p|fuel this conn sa salen|fuel this sa salen conn news|this].
  - destruct Hp as [Hn Hf]. cbn [nop_exec] in Hr. unfold mbind, M_bind in Hr.
    destruct (new_Connection_wf this fd news s HW Hn Hf) as (s1 & E & HW1 & _). rewrite E in Hr.
    unfold mret, M_ret in Hr. by simplify_eq.
  - destruct Hp as [c Hc]. cbn [nop_exec] in Hr. unfold socket, mbind, M_bind, get_conn in Hr.
    rewrite Hc in Hr. destruct (negb _); [unfold mret, M_ret in Hr; by simplify_eq|].
    unfold syscall in Hr. simpl in Hr.
    destruct (kernel _ SYS_socket _) as [fd e] eqn:Ek. simpl in Hr.
    destruct (fd =? -1).
    + unfold mret, M_ret in Hr. simplify_eq. eapply same_wf; [done|]. done.
    + set (s1 := mkNet (conns s) _ _ _ _ _) in Hr.
      assert (HW1 : net_wf s1) by (by eapply same_wf).
      destruct (setFD_wf this fd s1 c HW1 Hc) as [E HW2]. rewrite E in Hr.
      unfold mret, M_ret in Hr. by simplify_eq.
  - destruct Hp as [c Hc]. cbn [nop_exec] in Hr. unfold accept, mbind, M_bind in Hr.
    destruct (accept4 fuel this sa salen s) as [[fd s1]|] eqn:E1; [|done].
    apply accept4_same in E1. pose proof (same_wf _ _ HW E1) as HW1. destruct E1 as (Ec & _ & _).
    destruct (0 <? fd).
    + rewrite <-Ec in Hc. destruct (setFD_wf conn fd s1 c HW1 Hc) as [E HW2]. rewrite E in Hr.
      unfold mret, M_ret in Hr. by simplify_eq.
    + unfold mret, M_ret in Hr. by simplify_eq.
  - destruct Hp as [Hn Hf]. cbn [nop_exec] in Hr. unfold accept_new, mbind, M_bind in Hr.
    destruct (accept4 fuel this sa salen s) as [[fd s1]|] eqn:E1; [|done].
    apply accept4_same in E1. pose proof (same_wf _ _ HW E1) as HW1. destruct E1 as (Ec & Ep & _).
    destruct (0 <? fd); [|done].
    destruct (new_Connection_wf conn fd news s1 HW1) as (s2 & E & HW2 & _).
    { by rewrite Ec. } { unfold fresh_pds in *. by rewrite Ep. }
    rewrite E in Hr. unfold mret, M_ret in Hr. by simplify_eq.
  - by eapply close_wf.
Qed.
End net.

(** ** Runs *)

(** A kernel that lets recv block twice, whose accept4 returns descriptor 0,
    and whose connects are in progress and then refused. *)
Definition is_call (n : sysname) (e : event) : bool :=
  match e, n with
  | Call SYS_recv _ _ _, SYS_recv => true
  | _, _ => false
  end.
Definition demo_kernel (l : list event) (n : sysname) (args : list Z) : Z * Z :=
  match n with
  | SYS_recv => if (length (List.filter (is_call SYS_recv) l) <? 2)%nat then (-1, EAGAIN) else (7, 0)
  | SYS_accept4 => (0, 0)
  | SYS_connect => (-1, EINPROGRESS)
  | SYS_getsockopt => (111, 0)
  | SYS_socket => (9, 0)
  | _ => (0, 0)
  end.
(** One connection, at 1000, with descriptor 5; the other PollData objects are
    in use elsewhere. *)
Definition demo_net : net := mkNet {[1000 := mkConn 16 5]} {[16 := 5]} ∅ [] 0 [].
#[local] Instance demo_build : Build := {| NDEBUG := false |}.

Lemma rw_spec_witness :
  ∃ s', rw_exec demo_kernel 3 1000 (ORecv 64 10 0) demo_net = Ok (7, s')
        ∧ log s' = [Call SYS_recv [5; 64; 10; 0] (-1) EAGAIN;
                    Call SYS_epoll_ctl [EPOLL_CTL_ADD; 5; 16] 0 0; Wait UT_IOREAD 5;
                    Call SYS_recv [5; 64; 10; 0] (-1) EAGAIN; Wait UT_IOREAD 5;
                    Call SYS_recv [5; 64; 10; 0] 7 0].
Proof.
  pose proof (rw_spec demo_kernel 2 3 1000 (ORecv 64 10 0) demo_net (mkConn 16 5) 7 0) as H.
  cbv zeta in H. rewrite decide_False in H by (intros (_ & _ & Hn); by apply Hn).
  destruct H as (s' & Hr & Hl & _).
  - vm_compute. reflexivity.
  - vm_compute. reflexivity.
  - vm_compute. reflexivity.
  - intros p ->%list_elem_of_singleton. done.
  - lia.
  - split; [|split; vm_compute; reflexivity].
    intros i Hi. destruct i as [|[|i]]; [vm_compute; reflexivity..|lia].
  - exists s'. split; [exact Hr|]. rewrite Hl. vm_compute. reflexivity.
Defined.

Lemma rw_never_would_block_witness :
  ∃ s', rw_exec demo_kernel 3 1000 (ORecv 64 10 0) demo_net = Ok (7, s')
        ∧ ¬ (7 = -1 ∧ (errno s' = EAGAIN ∨ errno s' = EWOULDBLOCK)).
Proof.
  destruct (rw_exec demo_kernel 3 1000 (ORecv 64 10 0) demo_net) as [[r s']|] eqn:E.
  - assert (r = 7) as -> by (vm_compute in E; by injection E).
    exists s'. split; [done|].
    apply (rw_never_would_block demo_kernel 3 1000 (ORecv 64 10 0) demo_net 7 s' (mkConn 16 5)).
    + vm_compute. reflexivity.
    + vm_compute. discriminate.
    + intros p ->%list_elem_of_singleton. done.
    + exact E.
  - vm_compute in E. discriminate E.
Defined.

Lemma connect_spec_witness :
  ∃ s', connect demo_kernel 1000 80 16 demo_net = Ok (-1, s') ∧ errno s' = 111.
Proof.
  pose proof (connect_spec demo_kernel 1000 80 16 demo_net (mkConn 16 5) (-1) EINPROGRESS) as H.
  cbv zeta in H. destruct (demo_kernel _ SYS_getsockopt _) as [optval e2] eqn:Eo in H.
  assert (optval = 111) as -> by (vm_compute in Eo; by injection Eo).
  rewrite decide_True in H by done. rewrite decide_False in H by (intros (_ & Hn); by apply Hn).
  destruct H as (s' & Hr & _ & Hp); [vm_compute; reflexivity..|].
  exists s'. split; [exact Hr|]. by apply Hp.
Defined.

Lemma demo_net_wf : net_wf demo_net.
Proof.
  assert (Hone : ∀ a c, conns demo_net !! a = Some c → a = 1000 ∧ c = mkConn 16 5).
  { intros a c Hc. simpl in Hc. apply lookup_singleton_Some in Hc as [<- <-]. done. }
  split.
  - intros a c [-> ->]%Hone. reflexivity.
  - intros a b c d [-> _]%Hone [-> _]%Hone _. done.
  - intros a c _. apply not_elem_of_nil.
  - apply NoDup_nil_2.
  - by intros p ?%not_elem_of_nil.
Qed.

Lemma net_wf_preserved_witness :
  ∃ s', nop_exec demo_kernel (NNew 2000 (-1) [32; 48]) demo_net = Ok (0, s') ∧ net_wf s'
        ∧ conns s' !! 2000 = Some (mkConn 32 (-1)).
Proof.
  destruct (nop_exec demo_kernel (NNew 2000 (-1) [32; 48]) demo_net) as [[r s']|] eqn:E.
  - assert (r = 0) as -> by (vm_compute in E; by injection E).
    exists s'. split; [done|]. split.
    + apply (net_wf_preserved demo_kernel (NNew 2000 (-1) [32; 48]) demo_net 0 s' demo_net_wf).
      * split; [vm_compute; reflexivity|]. split; [done|]. split.
        -- apply (bool_decide_unpack _). vm_compute. exact I.
        -- intros p Hp. apply elem_of_cons in Hp as [->|Hp]; [vm_compute; reflexivity|].
           apply list_elem_of_singleton in Hp as ->. vm_compute. reflexivity.
      * exact E.
    + vm_compute in E. injection E as <-. vm_compute. reflexivity.
  - vm_compute in E. discriminate E.
Defined.

(** [close] leaves the connection's pointer to a PollData that is back in the
    cache: when the next connection has got it, a read on the closed connection
    waits for the descriptor of the other one. *)
Theorem net_use_after_close :
  ∃ s, (close demo_kernel 1000;; new_Connection 2000 9 [];; recv demo_kernel 3 1000 64 10 0) demo_net
       = Ok (7, s)
    ∧ conns s !! 1000 = Some (mkConn 16 5) ∧ conns s !! 2000 = Some (mkConn 16 9)
    ∧ Wait UT_IOREAD 9 ∈ log s.
Proof.
  eexists. split; [vm_compute; reflexivity|]. split; [vm_compute; reflexivity|].
  split; [vm_compute; reflexivity|]. simpl. do 5 apply list_elem_of_further. apply list_elem_of_here.
Qed.

(** Descriptor 0 is a success of accept4 that [accept] does not store into the
    connection, and that the other [accept] reports as an error. *)
Theorem accept_zero :
  (∃ s, accept demo_kernel 1 1000 1000 0 0 demo_net = Ok (0, s) ∧ conns s = conns demo_net)
  ∧ accept_new demo_kernel 1 1000 0 0 2000 [32] demo_net = Fault (Throw 0).
Proof. split; [eexists; split; vm_compute; reflexivity|vm_compute; reflexivity]. Qed.

(** A connection that has no descriptor: in a build without assertions, to block
    on it gives epoll the descriptor -1, and the process ends. *)
Definition strict_kernel (l : list event) (n : sysname) (args : list Z) : Z * Z :=
  match n, args with
  | SYS_epoll_ctl, [_; fd; _] => if fd <? 0 then (-1, 9) else (0, 0)
  | _, _ => demo_kernel l n args
  end.
Theorem block_without_fd_exits :
  (new_Connection 2000 (-1) [32];; blockOnRead (H := {| NDEBUG := true |}) strict_kernel 2000) demo_net
  = Fault (Exit EXIT_FAILURE).
Proof. vm_compute. reflexivity. Qed.
Close Scope Z_scope.
