(* ===== verification/CWrapper.v ===== *)
(** * The C interface

    [src/cwrapper.h] and [src/cwrapper.cpp]: functions that a C program calls
    with opaque handles, each a cast of the handle and a call of the method.
    The functions are modelled over the models of the classes: connections
    over [Network], clusters and kThreads over the registry of [Cluster],
    uThreads over the life cycle of [KThread], and the synchronisation objects
    over their transition systems.

    A handle is the address of the object; what [new] returns is a parameter of a
    call that creates one. *)

From S2P Require Import Prelude Links Network.

(** ** What a call can end in *)

(** [c] ends in a fault that [F] allows or in a result and a state as [Q]
    says. *)
Definition ends {S A} (F : fault → Prop) (c : M S A) (Q : A → S → Prop) (s : S) : Prop :=
  match c s with Ok (a, s') => Q a s' | Fault e => F e end.

Section ends.
Context {S : Type} (F : fault → Prop).

Lemma ends_ret {A} (a : A) (Q : A → S → Prop) s : Q a s → ends F (mret a) Q s.
Proof. done. Qed.
Lemma ends_fail {A} e (Q : A → S → Prop) s : F e → ends F (failM e) Q s.
Proof. done. Qed.
Lemma ends_bind {A B} (c : M S A) (k : A → M S B) Q s :
  ends F c (λ a, ends F (k a) Q) s → ends F (c ≫= k) Q s.
Proof. unfold ends, mbind, M_bind. by destruct (c s) as [[a s']|]. Qed.
Lemma ends_mono {A} (c : M S A) (Q Q' : A → S → Prop) s :
  ends F c Q s → (∀ a s', Q a s' → Q' a s') → ends F c Q' s.
Proof. unfold ends. destruct (c s) as [[a s']|]; auto. Qed.
Lemma ends_assert `{Build} (b : bool) (Q : unit → S → Prop) s :
  (NDEBUG = false → F AssertFailure) → Q tt s → ends F (assertM (mret b)) Q s.
Proof.
  intros HF HQ. unfold ends, assertM, mbind, M_bind, mret, M_ret.
  destruct NDEBUG; [done|]. destruct b; [done|]. by apply HF.
Qed.
End ends.

(** ** Connections *)

Open Scope Z_scope.

(** The functions of the header, with their arguments. *)
Inductive ccall : Type :=
  | Connection_create
  | Connection_create_with_fd (fd : Z)
  | Connection_create_socket (domain type protocol : Z)
  | Connection_destroy (con : addr)
  | Connection_accept (acceptor conn : addr) (sa salen : Z)
  | Connection_accept_connenction (acceptor : addr) (sa salen : Z)
  | Connection_socket (conn : addr) (domain type protocol : Z)
  | Connection_listen (conn : addr) (backlog : Z)
  | Connection_bind (conn : addr) (sa salen : Z)
  | Connection_connect (conn : addr) (sa salen : Z)
  | Connection_close (conn : addr)
  | Connection_recv (conn : addr) (buf len flags : Z)
  | Connection_recvfrom (conn : addr) (buf len flags src srclen : Z)
  | Connection_recvmsg (conn : addr) (sockfd msg flags : Z)
  | Connection_recvmmsg (conn : addr) (sockfd msgvec vlen flags timeout : Z)
  | Connection_send (conn : addr) (buf len flags : Z)
  | Connection_sendto (conn : addr) (sockfd buf len flags dest destlen : Z)
  | Connection_sendmsg (conn : addr) (msg flags : Z)
  | Connection_sendmmsg (conn : addr) (sockfd msgvec vlen flags : Z)
  | Connection_read (conn : addr) (buf count : Z)
  | Connection_write (conn : addr) (buf count : Z)
  | Connection_block_on_read (conn : addr)
  | Connection_block_on_write (conn : addr)
  | Connection_get_fd (conn : addr).

(** A function of type void, of an integer type or of a pointer type. *)
Inductive cres : Type := RVoid | RInt (z : Z) | RPtr (a : addr).
(** Calls with what [new] returns to them. *)
Abbreviation cprog := (list (ccall * addr * list addr)).

Definition as_int {S} (c : M S Z) : M S cres := z ← c; mret (RInt z).
Definition as_void {S A} (c : M S A) : M S cres := c;; mret RVoid.
(** The call, and then the end of the body without a return statement. *)
Definition falls_off {S A} (c : M S A) : M S cres := c;; failM NoReturn.

Section connections.
Context `{Build} (kernel : list event → sysname → list Z → Z * Z).
(** The bound on the rounds of the waiting loops. *)
Context (fuel : nat).

Definition connection_create (this : addr) (news : list addr) : M net cres :=
  new_Connection this (-1) news;; mret (RPtr this).
Definition connection_create_with_fd (this : addr) (news : list addr) (fd : Z) : M net cres :=
  new_Connection this fd news;; mret (RPtr this).
Definition connection_create_socket (this : addr) (news : list addr) (domain type protocol : Z) : M net cres :=
  new_Connection_socket kernel this domain type protocol news;; mret (RPtr this).
(** The destructor of Connection has an empty body. *)
Definition connection_destroy (con : addr) : M net cres :=
  get_conn con;; as_void (delete_conn con).

Definition connection_accept (acceptor conn sa salen : Z) : M net cres :=
  as_int (accept kernel fuel acceptor conn sa salen).
Definition connection_accept_connenction (this : addr) (news : list addr) (acceptor sa salen : Z) : M net cres :=
  c ← accept_new kernel fuel acceptor sa salen this news; mret (RPtr c).

Definition connection_socket (conn domain type protocol : Z) : M net cres :=
  as_int (socket kernel conn domain type protocol).
Definition connection_listen (conn backlog : Z) : M net cres := as_int (listen kernel conn backlog).
Definition connection_bind (conn sa salen : Z) : M net cres := as_int (bind kernel conn sa salen).
Definition connection_connect (conn sa salen : Z) : M net cres := as_int (connect kernel conn sa salen).
Definition connection_close (conn : addr) : M net cres := as_int (close kernel conn).

(** These four have no return statement. *)
Definition connection_recv (conn buf len flags : Z) : M net cres :=
  falls_off (recv kernel fuel conn buf len flags).
Definition connection_recvfrom (conn buf len flags src srclen : Z) : M net cres :=
  falls_off (recvfrom kernel fuel conn buf len flags src srclen).
Definition connection_recvmsg (conn sockfd msg flags : Z) : M net cres :=
  falls_off (recvmsg kernel fuel conn sockfd msg flags).
Definition connection_recvmmsg (conn sockfd msgvec vlen flags timeout : Z) : M net cres :=
  falls_off (recvmmsg kernel fuel conn sockfd msgvec vlen flags timeout).

Definition connection_send (conn buf len flags : Z) : M net cres :=
  as_int (send kernel fuel conn buf len flags).
Definition connection_sendto (conn sockfd buf len flags dest destlen : Z) : M net cres :=
  as_int (sendto kernel fuel conn sockfd buf len flags dest destlen).
Definition connection_sendmsg (conn msg flags : Z) : M net cres :=
  as_int (sendmsg kernel fuel conn msg flags).
Definition connection_sendmmsg (conn sockfd msgvec vlen flags : Z) : M net cres :=
  as_int (sendmmsg kernel fuel conn sockfd msgvec vlen flags).
Definition connection_read (conn buf count : Z) : M net cres := as_int (read kernel fuel conn buf count).
Definition connection_write (conn buf count : Z) : M net cres := as_int (write kernel fuel conn buf count).

Definition connection_block_on_read (conn : addr) : M net cres := as_void (blockOnRead kernel conn).
Definition connection_block_on_write (conn : addr) : M net cres := as_void (blockOnWrite kernel conn).
(** [int getFd() const] *)
Definition getFd (this : addr) : M net Z := c ← get_conn this; mret (cfd c).
Definition connection_get_fd (conn : addr) : M net cres := as_int (getFd conn).

(** One call of the C program; [this] and [news] are what [new] returns for a
    Connection and, when the PollCache is empty, for its PollData. *)
Definition cexec (c : ccall) (this : addr) (news : list addr) : M net cres :=
  match c with
  | Connection_create => connection_create this news
  | Connection_create_with_fd fd => connection_create_with_fd this news fd
  | Connection_create_socket d t p => connection_create_socket this news d t p
  | Connection_destroy con => connection_destroy con
  | Connection_accept a con sa sl => connection_accept a con sa sl
  | Connection_accept_connenction a sa sl => connection_accept_connenction this news a sa sl
  | Connection_socket con d t p => connection_socket con d t p
  | Connection_listen con b => connection_listen con b
  | Connection_bind con sa sl => connection_bind con sa sl
  | Connection_connect con sa sl => connection_connect con sa sl
  | Connection_close con => connection_close con
  | Connection_recv con b l f => connection_recv con b l f
  | Connection_recvfrom con b l f a al => connection_recvfrom con b l f a al
  | Connection_recvmsg con sk m f => connection_recvmsg con sk m f
  | Connection_recvmmsg con sk m v f t => connection_recvmmsg con sk m v f t
  | Connection_send con b l f => connection_send con b l f
  | Connection_sendto con sk b l f a al => connection_sendto con sk b l f a al
  | Connection_sendmsg con m f => connection_sendmsg con m f
  | Connection_sendmmsg con sk m v f => connection_sendmmsg con sk m v f
  | Connection_read con b n => connection_read con b n
  | Connection_write con b n => connection_write con b n
  | Connection_block_on_read con => connection_block_on_read con
  | Connection_block_on_write con => connection_block_on_write con
  | Connection_get_fd con => connection_get_fd con
  end.

(** ** Programs that use handles as they should *)

(** The handles a call uses, and those it closes or destroys. *)
Definition uses (c : ccall) : list addr :=
  match c with
  | Connection_create | Connection_create_with_fd _ | Connection_create_socket _ _ _
  | Connection_destroy _ => []
  | Connection_accept a con _ _ => [a; con]
  | Connection_accept_connenction a _ _ => [a]
  | Connection_socket con _ _ _ | Connection_listen con _ | Connection_bind con _ _
  | Connection_connect con _ _ | Connection_close con
  | Connection_recv con _ _ _ | Connection_recvfrom con _ _ _ _ _
  | Connection_recvmsg con _ _ _ | Connection_recvmmsg con _ _ _ _ _
  | Connection_send con _ _ _ | Connection_sendto con _ _ _ _ _ _
  | Connection_sendmsg con _ _ | Connection_sendmmsg con _ _ _ _
  | Connection_read con _ _ | Connection_write con _ _
  | Connection_block_on_read con | Connection_block_on_write con | Connection_get_fd con => [con]
  end.
Definition creates (c : ccall) : bool :=
  match c with
  | Connection_create | Connection_create_with_fd _ | Connection_create_socket _ _ _
  | Connection_accept_connenction _ _ _ => true
  | _ => false
  end.
Definition destroys (c : ccall) : option addr :=
  match c with Connection_destroy con => Some con | _ => None end.
(** [cl] are the connections that are closed and not yet destroyed. *)
Definition now_closed (c : ccall) (cl : gset addr) : gset addr :=
  match c with
  | Connection_close con => {[con]} ∪ cl
  | Connection_destroy con => cl ∖ {[con]}
  | _ => cl
  end.

(** A handle is used while its connection exists and is not closed, only a
    connection that exists is destroyed, and [new] returns new objects. *)
Definition cpre (cl : gset addr) (c : ccall) (this : addr) (news : list addr) (s : net) : Prop :=
  (∀ a, a ∈ uses c → is_Some (conns s !! a) ∧ a ∉ cl) ∧
  (∀ a, c = Connection_destroy a → is_Some (conns s !! a)) ∧
  (creates c = true → conns s !! this = None ∧ this ∉ cl ∧ fresh_pds news s).

(** The calls that may have to wait for the descriptor. *)
Definition may_wait (c : ccall) : bool :=
  match c with
  | Connection_accept _ _ _ _ | Connection_accept_connenction _ _ _ | Connection_connect _ _ _
  | Connection_recv _ _ _ _ | Connection_recvfrom _ _ _ _ _ _ | Connection_recvmsg _ _ _ _
  | Connection_recvmmsg _ _ _ _ _ _ | Connection_send _ _ _ _ | Connection_sendto _ _ _ _ _ _ _
  | Connection_sendmsg _ _ _ | Connection_sendmmsg _ _ _ _ _ | Connection_read _ _ _
  | Connection_write _ _ _ | Connection_block_on_read _ | Connection_block_on_write _ => true
  | _ => false
  end.
(** The connection at [this] is not in the epoll set, and at some later point the
    kernel does not add it. *)
Definition epoll_refuses (s : net) (this : addr) : Prop :=
  ∃ l c fd, conns s !! this = Some c ∧ pds s !! cpd c = Some fd ∧ cpd c ∉ opened s ∧
            log s `prefix_of` l ∧ (adding kernel l (cpd c) fd).1 ≠ 0.

(** The faults such a call, made in state [s], can end in: never a bad access; the
    exit of a wait on a connection that the kernel does not add to the epoll set;
    a std::system_error from two functions and the missing return of four. *)
Definition allowed (s : net) (c : ccall) (e : fault) : Prop :=
  match e with
  | BadAccess _ => False
  | Exit n => n = EXIT_FAILURE ∧ may_wait c = true ∧ ∃ this, this ∈ uses c ∧ epoll_refuses s this
  | AssertFailure => NDEBUG = false
  | OutOfFuel => True
  | Throw _ =>
      match c with
      | Connection_create_socket _ _ _ | Connection_accept_connenction _ _ _ => True
      | _ => False
      end
  | NoReturn =>
      match c with
      | Connection_recv _ _ _ _ | Connection_recvfrom _ _ _ _ _ _ | Connection_recvmsg _ _ _ _
      | Connection_recvmmsg _ _ _ _ _ _ => True
      | _ => False
      end
  end.

(** The connections that are not closed have their own PollData. *)
Definition open_part (cl : gset addr) (s : net) : net :=
  with_conns (filter (λ p, p.1 ∉ cl) (conns s)) s.
Definition session_wf (cl : gset addr) (s : net) : Prop := net_wf (open_part cl s).

(** A PollData that neither the cache nor an open connection has. *)
Definition leaked (cl : gset addr) (s : net) (p : addr) : Prop :=
  is_Some (pds s !! p) ∧ p ∉ freepd s ∧ ∀ a c, conns s !! a = Some c → a ∉ cl → cpd c ≠ p.

(** ** What a call does to the objects *)

(** The index is the handle destroyed. *)
Inductive effect (cl : gset addr) (s : net) : option addr → gset addr → net → Prop :=
  | Eff_same s' : same_objects s s' → effect cl s None cl s'
  | Eff_set a c fd s' :
      conns s !! a = Some c → a ∉ cl → same_objects (set_fd_of a (cpd c) fd s) s' → effect cl s None cl s'
  | Eff_new a news p fd s0 s1 s' :
      conns s !! a = None → a ∉ cl → fresh_pds news s → same_objects s s0 →
      getPollData news s0 = Ok (p, s1) → same_objects (set_fd_of a p fd s1) s' → effect cl s None cl s'
  | Eff_close a c s' :
      conns s !! a = Some c → a ∉ cl → conns s' = conns s → pds s' = <[cpd c := -1]> (pds s) →
      freepd s' = freepd s ++ [cpd c] → effect cl s None ({[a]} ∪ cl) s'
  | Eff_destroy a :
      is_Some (conns s !! a) →
      effect cl s (Some a) (cl ∖ {[a]}) (with_conns (delete a (conns s)) s).

Lemma open_lookup cl s a c :
  conns (open_part cl s) !! a = Some c ↔ conns s !! a = Some c ∧ a ∉ cl.
Proof. simpl. rewrite map_lookup_filter_Some. done. Qed.

Lemma session_same cl s s' : same_objects s s' → session_wf cl s → session_wf cl s'.
Proof.
  intros (E1 & E2 & E3) HW. apply (same_wf _ _ HW). unfold same_objects, open_part; simpl. by rewrite E1.
Qed.
Lemma session_pd cl s a c :
  session_wf cl s → conns s !! a = Some c → a ∉ cl → pds s !! cpd c = Some (cfd c).
Proof. intros HW Hc Ha. apply (wf_fd _ HW a). by apply open_lookup. Qed.
Lemma open_set cl s a p fd : a ∉ cl → open_part cl (set_fd_of a p fd s) = set_fd_of a p fd (open_part cl s).
Proof.
  intros Ha. unfold open_part, set_fd_of, with_conns. simpl. by rewrite map_filter_insert_True.
Qed.

Lemma effect_wf cl s d cl' s' : session_wf cl s → effect cl s d cl' s' → session_wf cl' s'.
Proof.
  intros HW He. destruct He as [s' Hs|a c fd s' Hc Ha Hs|a news p fd s0 s1 s' Hn Ha Hf H0 Hg Hs|a c s' Hc Ha E1 E2 E3|a [c Hc]].
  - by eapply session_same.
  - apply (session_same _ _ _ Hs). unfold session_wf. rewrite open_set by done.
    apply set_fd_wf; [done|]. by apply open_lookup.
  - apply (session_same _ _ _ Hs). unfold session_wf. rewrite open_set by done.
    assert (HW0 : session_wf cl s0) by (by eapply session_same).
    assert (Hf0 : fresh_pds news (open_part cl s0)).
    { destruct H0 as (_ & E & _). unfold fresh_pds in *. simpl. by rewrite E. }
    destruct (getPollData_wf news _ HW0 Hf0) as (p' & s1' & Hg' & HW1 & Hc1 & Hp & _ & Hu & _).
    pose proof (getPollData_conns news (conns (open_part cl s0)) s0 p s1 Hg) as Hg2.
    change (with_conns (conns (open_part cl s0)) s0) with (open_part cl s0) in Hg2.
    rewrite Hg' in Hg2. injection Hg2 as <- ->.
    assert (Eo : open_part cl s1 = with_conns (conns (open_part cl s0)) s1).
    { unfold open_part. simpl. unfold getPollData in Hg. destruct (freepd s0 ++ _); [done|].
      injection Hg as _ <-. done. }
    rewrite Eo. apply add_conn_wf; [done| |done|].
    + simpl. apply map_lookup_filter_None. left. destruct H0 as (-> & _). done.
    + intros b d Hb. by apply (Hu b).
  - assert (Eo : conns (open_part ({[a]} ∪ cl) s') = delete a (conns (open_part cl s))).
    { apply map_eq. intros b. apply option_eq. intros d. rewrite lookup_delete_Some, !open_lookup, E1. set_solver. }
    pose proof (recycle_wf a c (open_part cl s) (opened s') (errno s') (log s') HW) as Hr.
    rewrite <-Eo in Hr. simpl in Hr. rewrite <-E2, <-E3 in Hr. apply Hr. by apply open_lookup.
  - assert (Eo : open_part (cl ∖ {[a]}) (with_conns (delete a (conns s)) s)
                 = with_conns (delete a (conns (open_part cl s))) (open_part cl s)).
    { unfold open_part, with_conns. simpl. f_equal. apply map_eq. intros b. apply option_eq. intros d.
      rewrite lookup_delete_Some, !map_lookup_filter_Some, lookup_delete_Some. simpl. set_solver. }
    unfold session_wf. rewrite Eo. by apply drop_conn_wf.
Qed.

(** The PollData of an open connection that is destroyed. *)
Definition dropped_pd (cl : gset addr) (s : net) (d : option addr) (p : addr) : Prop :=
  ∃ a c, d = Some a ∧ conns s !! a = Some c ∧ a ∉ cl ∧ p = cpd c.

Lemma getPollData_cases news s p s1 :
  getPollData news s = Ok (p, s1) →
  conns s1 = conns s ∧
  ((freepd s = p :: freepd s1 ∧ pds s1 = pds s) ∨
   (freepd s = [] ∧ news = p :: freepd s1 ∧ pds s1 = foldr (λ b m, <[b := -1]> m) (pds s) news)).
Proof.
  unfold getPollData. destruct (freepd s) as [|b r]; simpl.
  - destruct news as [|b r]; [done|]. intros [= -> <-]. auto.
  - rewrite app_nil_r. intros [= -> <-]. auto.
Qed.

Lemma leaked_same cl s s' p : same_objects s s' → leaked cl s' p ↔ leaked cl s p.
Proof. intros (E1 & E2 & E3). unfold leaked. by rewrite E1, E2, E3. Qed.

Lemma leaked_new cl s a p fd s1 news :
  conns s !! a = None → a ∉ cl → fresh_pds news s → getPollData news s = Ok (p, s1) →
  ∀ q, leaked cl (set_fd_of a p fd s1) q ↔ leaked cl s q.
Proof.
  intros Hn Ha (_ & Hnd & Hfr) Hg q. destruct (getPollData_cases _ _ _ _ Hg) as [Ec Hcase].
  assert (Hconn : (∀ b c, <[a := mkConn p fd]> (conns s) !! b = Some c → b ∉ cl → cpd c ≠ q) ↔
                  p ≠ q ∧ (∀ b c, conns s !! b = Some c → b ∉ cl → cpd c ≠ q)).
  { split.
    - intros Hall. split; [apply (Hall a (mkConn p fd)); [apply lookup_insert_eq|done]|].
      intros b c Hb. apply Hall. rewrite lookup_insert_ne; [done|]. intros ->. congruence.
    - intros [Hp Hall] b c [[<- <-]|[_ Hb]]%lookup_insert_Some Hcl; [done|by eapply Hall]. }
  unfold leaked. simpl. rewrite Ec, Hconn, lookup_insert_is_Some.
  destruct Hcase as [(Ef & ->)|(Ef & En & ->)].
  - rewrite Ef. set_solver.
  - rewrite foldr_fresh, Ef. specialize (Hfr q). case_decide as Hq.
    + rewrite (Hfr Hq), En in *. split; [set_solver|]. intros ([? ?] & _). done.
    + rewrite En in Hq. set_solver.
Qed.

Lemma leaked_close cl s s' a c :
  session_wf cl s → conns s !! a = Some c → a ∉ cl → conns s' = conns s →
  pds s' = <[cpd c := -1]> (pds s) → freepd s' = freepd s ++ [cpd c] →
  ∀ q, leaked ({[a]} ∪ cl) s' q ↔ leaked cl s q.
Proof.
  intros HW Hc Ha E1 E2 E3 q. pose proof (session_pd _ _ _ _ HW Hc Ha) as Hp.
  unfold leaked. rewrite E1, E2, E3, lookup_insert_is_Some, not_elem_of_app, list_elem_of_singleton.
  split.
  - intros (Hs & [Hf Hq] & Hall). split_and!; [naive_solver|done|]. intros b d Hb Hcl.
    destruct (decide (b = a)) as [->|]; [|apply (Hall b d Hb); set_solver].
    rewrite Hc in Hb. injection Hb as <-. congruence.
  - intros (Hs & Hf & Hall). pose proof (Hall a c Hc Ha) as Hq. split_and!; [by right|done|congruence|].
    intros b d Hb Hcl. apply (Hall b d Hb). set_solver.
Qed.

Lemma leaked_set cl s a c fd :
  session_wf cl s → conns s !! a = Some c → a ∉ cl →
  ∀ q, leaked cl (set_fd_of a (cpd c) fd s) q ↔ leaked cl s q.
Proof.
  intros HW Hc Ha q. pose proof (session_pd _ _ _ _ HW Hc Ha) as Hp.
  unfold leaked. simpl. rewrite lookup_insert_is_Some.
  split; intros (Hs1 & Hf & Hall); (split_and!; [destruct (decide (cpd c = q)); naive_solver|done|]).
  - intros b d Hb Hcl. destruct (decide (b = a)) as [->|Hne].
    + rewrite Hc in Hb. injection Hb as <-. apply (Hall a (mkConn (cpd c) fd)); [apply lookup_insert_eq|done].
    + apply (Hall b d); [by rewrite lookup_insert_ne|done].
  - intros b d [[<- <-]|[_ Hb]]%lookup_insert_Some Hcl; [by apply (Hall a c)|by eapply Hall].
Qed.

Lemma leaked_destroy cl s a c :
  session_wf cl s → conns s !! a = Some c →
  ∀ q, leaked (cl ∖ {[a]}) (with_conns (delete a (conns s)) s) q ↔ leaked cl s q ∨ dropped_pd cl s (Some a) q.
Proof.
  intros HW Hc q. unfold leaked, dropped_pd. simpl. split.
  - intros (Hs & Hf & Hall). destruct (decide (a ∉ cl ∧ cpd c = q)) as [[Ha <-]|Hno]; [right; eauto 6|].
    left. split_and!; [done..|]. intros b d Hb Hcl. destruct (decide (b = a)) as [->|Hne].
    + rewrite Hc in Hb. injection Hb as <-. naive_solver.
    + apply (Hall b d); [by rewrite lookup_delete_ne|set_solver].
  - intros [(Hs & Hf & Hall)|(b & d & [= <-] & Hb & Hcl & ->)].
    + split_and!; [done..|]. intros b d [Hne Hb]%lookup_delete_Some Hcl. apply (Hall b d Hb). set_solver.
    + rewrite Hc in Hb. injection Hb as <-. split_and!.
      * rewrite (session_pd _ _ _ _ HW Hc Hcl). eauto.
      * apply (wf_free _ HW a). by apply open_lookup.
      * intros b d [Hne Hb]%lookup_delete_Some Hb' E. apply Hne. symmetry.
        apply (wf_inj _ HW b a d c); [apply open_lookup; set_solver|by apply open_lookup|done].
Qed.

(** No shape of effect but one loses a PollData. *)
Lemma effect_leak cl s d cl' s' :
  session_wf cl s → effect cl s d cl' s' →
  ∀ p, leaked cl' s' p ↔ leaked cl s p ∨ dropped_pd cl s d p.
Proof.
  intros HW He p.
  assert (Hkeep : (leaked cl' s' p ↔ leaked cl s p) → leaked cl' s' p ↔ leaked cl s p ∨ dropped_pd cl s None p).
  { intros ->. split; [by left|]. by intros [?|(b & c & ? & _)]. }
  destruct He as [s' Hs|a c fd s' Hc Ha Hs|a news q fd s0 s1 s' Hn Ha Hf H0 Hg Hs|a c s' Hc Ha E1 E2 E3|a [c Hc]].
  - apply Hkeep. by apply leaked_same.
  - apply Hkeep. rewrite (leaked_same cl _ _ p Hs). by eapply leaked_set.
  - pose proof H0 as (Ec & Ep & _). apply Hkeep. rewrite (leaked_same cl _ _ p Hs), <-(leaked_same cl _ _ p H0).
    apply (leaked_new _ _ _ _ _ _ news); [by rewrite Ec|done| |done]. unfold fresh_pds in *. by rewrite Ep.
  - apply Hkeep. by eapply leaked_close.
  - by eapply leaked_destroy.
Qed.

(** ** Every call has one of these effects *)

(** What calls do before they end: the log grows, PollData are opened. *)
Definition goes (s s' : net) : Prop :=
  same_objects s s' ∧ log s `prefix_of` log s' ∧ opened s ⊆ opened s'.
Lemma goes_refl s : goes s s.
Proof. done. Qed.
Lemma goes_trans s1 s2 s3 : goes s1 s2 → goes s2 s3 → goes s1 s3.
Proof.
  intros (H1 & H2 & H3) (H4 & H5 & H6). split_and!; [by eapply same_trans|by etrans|set_solver].
Qed.

(** A connection with its PollData. *)
Definition usable (s : net) (this : addr) (c : Connection) : Prop :=
  conns s !! this = Some c ∧ is_Some (pds s !! cpd c).
Lemma usable_same s s' this c : same_objects s s' → usable s this c → usable s' this c.
Proof. intros (E1 & E2 & _). unfold usable. by rewrite E1, E2. Qed.

Section calls.
Context (F : fault → Prop) (HA : NDEBUG = false → F AssertFailure) (HO : F OutOfFuel).

Lemma ends_get_conn this c s (Q : Connection → net → Prop) :
  conns s !! this = Some c → Q c s → ends F (get_conn this) Q s.
Proof. intros Hc HQ. unfold ends, get_conn. by rewrite Hc. Qed.
Lemma ends_get_errno s (Q : Z → net → Prop) : Q (errno s) s → ends F get_errno Q s.
Proof. done. Qed.
Lemma ends_syscall n args s (Q : Z → net → Prop) :
  (∀ r s', goes s s' → Q r s') → ends F (syscall kernel n args) Q s.
Proof. intros HQ. unfold ends, syscall. apply HQ. split_and!; [done|by apply prefix_app_r|done]. Qed.

Lemma ends_pd_assert p fd s (Q : unit → net → Prop) :
  pds s !! p = Some fd → Q tt s → ends F (assertM (fd ← get_pdfd p; mret (0 <? fd))) Q s.
Proof.
  intros Hp HQ. unfold ends, assertM, mbind, M_bind, get_pdfd, mret, M_ret. rewrite Hp.
  destruct NDEBUG; [done|]. destruct (0 <? fd); [done|]. by apply HA.
Qed.
Lemma ends_get_pdfd p fd s (Q : Z → net → Prop) :
  pds s !! p = Some fd → Q fd s → ends F (get_pdfd p) Q s.
Proof. intros Hp HQ. unfold ends, get_pdfd. by rewrite Hp. Qed.

(** The calls on connection [this], made in state [s0]. *)
Context (s0 : net) (this : addr) (c : Connection).
Hypothesis HU : usable s0 this c.
Hypothesis HX : epoll_refuses s0 this → F (Exit EXIT_FAILURE).

Lemma ends_open s (Q : unit → net → Prop) :
  goes s0 s → cpd c ∉ opened s → (∀ s', goes s s' → Q tt s') → ends F (open kernel (cpd c)) Q s.
Proof using HA HO HU HX.
  intros Hg Hno HQ. destruct HU as [Hc [fd Hp]]. destruct Hg as ((Ec & Ep & _) & Hl & Ho).
  apply ends_bind, (ends_pd_assert _ fd); [by rewrite Ep|]. apply ends_bind.
  unfold ends at 1, set_opened. apply ends_bind, (ends_get_pdfd _ fd); [simpl; by rewrite Ep|].
  unfold ends, mbind, M_bind, syscall. cbn [log].
  destruct (Z.eqb_spec (kernel (log s) SYS_epoll_ctl [EPOLL_CTL_ADD; fd; cpd c]).1 0).
  - apply HQ. split_and!; [done|by apply prefix_app_r|simpl; set_solver].
  - apply HX. exists (log s), c, fd. split_and!; [done|done|set_solver|done|done].
Qed.
Lemma ends_wait flag s (Q : unit → net → Prop) :
  goes s0 s → (∀ s', goes s s' → Q tt s') → ends F (wait kernel (cpd c) flag) Q s.
Proof using HA HO HU HX.
  intros Hg HQ. pose proof (usable_same _ _ _ _ (proj1 Hg) HU) as [_ [fd Hp]].
  apply ends_bind, (ends_pd_assert _ fd); [done|]. apply ends_bind, (ends_get_pdfd _ fd); [done|].
  apply ends_bind. unfold ends at 1, is_opened. apply ends_bind. case_bool_decide as Ho; cbn [negb].
  - apply ends_ret, HQ. split_and!; [done|by apply prefix_app_r|done].
  - apply ends_open; [done|done|]. intros s' Hs. apply HQ. eapply goes_trans; [done|].
    split_and!; [done|by apply prefix_app_r|done].
Qed.

Lemma ends_retry f flag n args res s :
  goes s0 s → ends F (retry kernel f this flag n args res) (λ _ s', goes s0 s') s.
Proof using HA HO HU HX.
  revert res s. induction f as [|f IH]; intros res s Hg; [exact HO|]. cbn [retry].
  apply ends_bind, ends_get_errno.
  destruct (would_block res (errno s)); [|by apply ends_ret].
  apply ends_bind, (ends_get_conn _ c); [by apply (usable_same _ _ _ _ (proj1 Hg) HU)|].
  apply ends_bind, ends_wait; [done|]. intros s1 Hs1. apply ends_bind, ends_syscall. intros r s2 Hs2.
  apply IH. eapply goes_trans; [done|]. by eapply goes_trans.
Qed.
Lemma ends_attempt flag n args :
  ends F (attempt kernel fuel this flag n args) (λ _ s', goes s0 s') s0.
Proof using HA HO HU HX. apply ends_bind, ends_syscall. intros r s1 Hs1. by apply ends_retry. Qed.
Lemma ends_checked p flag n args :
  ends F (checked kernel fuel this p flag n args) (λ _ s', goes s0 s') s0.
Proof using HA HO HU HX.
  apply ends_bind, ends_assert; [done|]. apply ends_bind, (ends_get_conn _ c); [apply HU|].
  apply ends_bind, ends_assert; [done|]. apply ends_attempt.
Qed.
Lemma ends_accept4 sa salen :
  ends F (accept4 kernel fuel this sa salen) (λ _ s', goes s0 s') s0.
Proof using HA HO HU HX.
  apply ends_bind, (ends_get_conn _ c); [apply HU|].
  apply ends_bind, ends_assert; [done|]. apply ends_attempt.
Qed.
Lemma ends_connect sa salen :
  ends F (connect kernel this sa salen) (λ _ s', goes s0 s') s0.
Proof using HA HO HU HX.
  apply ends_bind, (ends_get_conn _ c); [apply HU|]. apply ends_bind, ends_assert; [done|].
  apply ends_bind, ends_syscall. intros r s1 Hs1. apply ends_bind, ends_get_errno.
  destruct (_ && _); [|by apply ends_ret].
  apply ends_bind, ends_wait; [done|]. intros s2 Hs2. apply ends_bind, ends_syscall. intros r3 s3 Hs3.
  pose proof (goes_trans _ _ _ Hs1 (goes_trans _ _ _ Hs2 Hs3)) as Hs.
  destruct (r3 =? 0); [by apply ends_ret|]. apply ends_bind. exact Hs.
Qed.
End calls.

Section objects.
Context (F : fault → Prop).
Lemma ends_setFD this fd c s :
  usable s this c → ends F (setFD this fd) (λ _ s', s' = set_fd_of this (cpd c) fd s) s.
Proof.
  intros [Hc [v Hv]]. unfold ends, setFD, mbind, M_bind, get_conn, put_conn. rewrite Hc.
  by rewrite set_pdfd_ok by (simpl; eauto).
Qed.

Lemma getPollData_ok news s : net_wf s → fresh_pds news s →
  ∃ p s1, getPollData news s = Ok (p, s1) ∧ is_Some (pds s1 !! p).
Proof. intros HW Hf. destruct (getPollData_wf _ _ HW Hf) as (p & s1 & H1 & _ & _ & _ & H2 & _). eauto. Qed.

(** [init] on an object just made. *)
Lemma ends_init cl this fd news s :
  session_wf cl s → conns s !! this = None → this ∉ cl → fresh_pds news s →
  ends F (put_conn this (mkConn nullptr fd);; init this news)
    (λ _ s', ∃ p s1, getPollData news s = Ok (p, s1) ∧ s' = set_fd_of this p fd s1) s.
Proof.
  intros HW Hn Hcl Hf. destruct (getPollData_ok news (open_part cl s) HW Hf) as (p & s1 & Hg & Hs).
  apply (getPollData_conns _ (conns s)) in Hg as Hg0.
  assert (E : with_conns (conns s) (open_part cl s) = s) by (by destruct s). rewrite E in Hg0.
  apply (getPollData_conns _ (<[this := mkConn nullptr fd]> (conns s))) in Hg0 as Hg1.
  unfold ends, init, mbind, M_bind, put_conn, get_conn. simpl. rewrite lookup_insert_eq.
  change (mkNet (<[this := mkConn nullptr fd]> (conns s)) (pds s) (opened s) (freepd s) (errno s) (log s))
    with (with_conns (<[this := mkConn nullptr fd]> (conns s)) s).
  rewrite Hg1. rewrite set_pdfd_ok by done. simpl. exists p, (with_conns (conns s) s1).
  split; [done|]. unfold set_fd_of, with_conns. simpl. by rewrite insert_insert_eq.
Qed.
End objects.

Lemma session_usable cl s a :
  session_wf cl s → is_Some (conns s !! a) → a ∉ cl → ∃ c, usable s a c.
Proof. intros HW [c Hc] Ha. exists c. split; [done|]. rewrite (session_pd _ _ _ _ HW Hc Ha). eauto. Qed.

Lemma ends_as_int F c (Q : net → Prop) s :
  ends F c (λ _, Q) s → ends F (as_int c) (λ _, Q) s.
Proof. intros Hc. apply ends_bind. eapply ends_mono; [done|]. intros z s' HQ. by apply ends_ret. Qed.
Lemma ends_as_void {A} F (c : M net A) (Q : net → Prop) s :
  ends F c (λ _, Q) s → ends F (as_void c) (λ _, Q) s.
Proof. intros Hc. apply ends_bind. eapply ends_mono; [done|]. intros z s' HQ. by apply ends_ret. Qed.
Lemma ends_falls_off {A} (F : fault → Prop) (c : M net A) (Q : net → Prop) s :
  F NoReturn → ends F c (λ _, Q) s → ends F (falls_off c) (λ _, Q) s.
Proof. intros HF Hc. apply ends_bind. eapply ends_mono; [done|]. intros z s' ?. exact HF. Qed.

(** A call that only uses a connection. *)
Lemma use_effect {A} F cl s this (c : M net A) :
  session_wf cl s → is_Some (conns s !! this) ∧ this ∉ cl →
  (∀ cn, usable s this cn → ends F c (λ _ s', goes s s') s) →
  ends F c (λ _ s', effect cl s None cl s') s.
Proof.
  intros HW [Hc Ha] Hd. destruct (session_usable _ _ _ HW Hc Ha) as [cn Hu].
  eapply ends_mono; [by apply (Hd cn)|]. intros r s' [Hs _]. by apply Eff_same.
Qed.

Lemma close_effect F cl s this :
  (NDEBUG = false → F AssertFailure) →
  session_wf cl s → is_Some (conns s !! this) → this ∉ cl →
  ends F (close kernel this) (λ _ s', effect cl s None ({[this]} ∪ cl) s') s.
Proof.
  intros HA HW [c Hc] Ha. pose proof (session_pd _ _ _ _ HW Hc Ha) as Hp.
  apply ends_bind, (ends_get_conn _ _ c); [done|]. apply ends_bind, ends_assert; [done|].
  unfold ends, mbind, M_bind, log_event, get_pdfd. simpl. rewrite Hp. unfold syscall. simpl.
  rewrite set_pdfd_ok by (simpl; eauto). simpl.
  by apply (Eff_close _ _ _ c).
Qed.

Lemma new_effect F cl s s0 this fd news :
  session_wf cl s → same_objects s s0 → conns s !! this = None → this ∉ cl → fresh_pds news s →
  ends F (put_conn this (mkConn nullptr fd);; init this news) (λ _ s', effect cl s None cl s') s0.
Proof.
  intros HW H0 Hn Ha Hf. pose proof H0 as (E1 & E2 & _).
  eapply ends_mono; [apply (ends_init F cl)|].
  - by eapply session_same.
  - by rewrite E1.
  - done.
  - unfold fresh_pds in *. by rewrite E2.
  - intros r s' (p & s1 & Hg & ->). by eapply (Eff_new _ _ this news p fd s0 s1).
Qed.

Lemma accept_effect F cl s this conn sa salen :
  (NDEBUG = false → F AssertFailure) → F OutOfFuel → (epoll_refuses s this → F (Exit EXIT_FAILURE)) → session_wf cl s →
  is_Some (conns s !! this) ∧ this ∉ cl → is_Some (conns s !! conn) ∧ conn ∉ cl →
  ends F (accept kernel fuel this conn sa salen) (λ _ s', effect cl s None cl s') s.
Proof.
  intros HA HO HX HW [Hc Ha] [Hd Hb]. destruct (session_usable _ _ _ HW Hc Ha) as [c Hu].
  destruct (session_usable _ _ _ HW Hd Hb) as [d Hv].
  apply ends_bind. eapply ends_mono; [by apply (ends_accept4 F HA HO s this c)|]. intros fd s1 [Hs _].
  apply ends_bind. destruct (0 <? fd); [|apply ends_ret, ends_ret; by apply Eff_same].
  eapply ends_mono; [eapply ends_setFD, usable_same; [exact Hs|exact Hv]|]. intros r2 s2 ->. apply ends_ret.
  eapply (Eff_set _ _ conn d); [apply Hv|done|]. destruct Hs as (E1 & E2 & E3).
  unfold set_fd_of, same_objects. simpl. by rewrite E1, E2, E3.
Qed.

Lemma socket_effect F cl s this d t p :
  session_wf cl s → is_Some (conns s !! this) ∧ this ∉ cl →
  ends F (socket kernel this d t p) (λ _ s', effect cl s None cl s') s.
Proof.
  intros HW [Hc Ha]. destruct (session_usable _ _ _ HW Hc Ha) as [c Hu].
  apply ends_bind, (ends_get_conn _ _ c); [apply Hu|].
  destruct (negb _); [apply ends_ret; by apply Eff_same|].
  apply ends_bind, ends_syscall. intros fd s1 [Hs _]. apply ends_bind.
  destruct (fd =? -1); [apply ends_ret, ends_ret; by apply Eff_same|].
  eapply ends_mono; [apply ends_setFD; by eapply usable_same|]. intros r2 s2 ->. apply ends_ret.
  eapply (Eff_set _ _ this c); [apply Hu|done|]. destruct Hs as (E1 & E2 & E3).
  unfold set_fd_of, same_objects. simpl. by rewrite E1, E2, E3.
Qed.

Lemma accept_new_effect F cl s this conn sa salen news :
  (NDEBUG = false → F AssertFailure) → F OutOfFuel → (epoll_refuses s this → F (Exit EXIT_FAILURE)) →
  (∀ e, F (Throw e)) → session_wf cl s →
  is_Some (conns s !! this) ∧ this ∉ cl → conns s !! conn = None → conn ∉ cl → fresh_pds news s →
  ends F (accept_new kernel fuel this sa salen conn news) (λ _ s', effect cl s None cl s') s.
Proof.
  intros HA HO HX HT HW [Hc Ha] Hn Hcl Hf. destruct (session_usable _ _ _ HW Hc Ha) as [c Hu].
  apply ends_bind. eapply ends_mono; [by apply (ends_accept4 F HA HO s this c)|]. intros fd s1 [Hs _].
  destruct (0 <? fd); [|apply ends_bind, ends_get_errno, ends_fail, HT].
  apply ends_bind. eapply ends_mono; [by apply (new_effect F cl s)|]. intros r s' He. by apply ends_ret.
Qed.
Lemma new_socket_effect F cl s this d t p news :
  (∀ e, F (Throw e)) → session_wf cl s → conns s !! this = None → this ∉ cl → fresh_pds news s →
  ends F (new_Connection_socket kernel this d t p news) (λ _ s', effect cl s None cl s') s.
Proof.
  intros HT HW Hn Hcl Hf. unfold new_Connection_socket, ends, mbind, M_bind, put_conn, syscall. simpl.
  destruct (kernel (log s) SYS_socket _) as [fd e]. simpl.
  destruct (fd =? -1); [apply HT|]. cbn. rewrite insert_insert_eq.
  set (s0 := mkNet (conns s) (pds s) (opened s) (freepd s) (errno s) (log s ++ [Call SYS_socket [d; Z.lor t SOCK_NONBLOCK; p] fd e])).
  pose proof (new_effect F cl s s0 this fd news HW ltac:(done) Hn Hcl Hf) as He.
  unfold ends, mbind, M_bind, put_conn in He. exact He.
Qed.

(** The calls that create an object, and those that only use one. *)
Ltac create_call lem :=
  apply ends_bind; eapply ends_mono; [apply lem; try done|intros r s' He; by apply ends_ret].
Ltac use_call conn :=
  first [apply ends_as_int | apply ends_as_void | apply ends_falls_off; [done|] | idtac];
  apply (use_effect _ _ _ conn); [done|done|]; intros cn Hus.
Ltac get_conn_call cn Hus := apply ends_bind, (ends_get_conn _ _ cn); [apply Hus|].

(** A call that follows the rules ends in an allowed fault or has an effect. *)
Lemma cexec_effect cl c this news s :
  session_wf cl s → cpre cl c this news s →
  ends (allowed s c) (cexec c this news) (λ _ s', effect cl s (destroys c) (now_closed c cl) s') s.
Proof.
  intros HW (Hu & Hd & Hn).
  assert (HA : NDEBUG = false → allowed s c AssertFailure) by done. assert (HO : allowed s c OutOfFuel) by done.
  assert (HX : ∀ this, may_wait c = true → this ∈ uses c → epoll_refuses s this → allowed s c (Exit EXIT_FAILURE))
    by (intros a Hm Hin He; split_and!; [done|done|by exists a]).
  destruct c; simpl in Hu, Hn |- *; try (specialize (Hn eq_refl) as (Hn1 & Hn2 & Hn3));
    try (pose proof (Hu conn (list_elem_of_here _ _)) as Hc);
    try (by use_call conn; apply (ends_checked _ HA HO s conn cn); [done|apply HX; [done|left]]).
  - create_call (new_effect (allowed s Connection_create) cl s s).
  - create_call (new_effect (allowed s (Connection_create_with_fd fd)) cl s s).
  - create_call new_socket_effect.
  - destruct (Hd con eq_refl) as [cn Hcn]. apply ends_bind, (ends_get_conn _ _ cn); [done|]. by apply Eff_destroy.
  - apply ends_as_int, accept_effect; [done|done|apply HX; [done|left]|done|..]; apply Hu; set_solver.
  - create_call accept_new_effect; [apply HX; [done|left]|apply Hu; left].
  - by apply ends_as_int, socket_effect.
  - use_call conn. get_conn_call cn Hus. apply ends_bind, ends_assert; [done|]. by apply ends_syscall.
  - use_call conn. get_conn_call cn Hus. apply ends_bind, ends_assert; [done|]. by apply ends_syscall.
  - use_call conn. apply (ends_connect _ HA HO s conn cn); [done|apply HX; [done|left]].
  - apply ends_as_int, close_effect; [done|done|apply Hc..].
  - use_call conn. apply ends_bind, ends_assert; [done|].
    apply (ends_checked _ HA HO s conn cn); [done|apply HX; [done|left]].
  - use_call conn. get_conn_call cn Hus. apply ends_bind, ends_assert; [done|].
    apply (ends_attempt _ HA HO s conn cn); [done|apply HX; [done|left]].
  - use_call conn. get_conn_call cn Hus.
    apply (ends_wait _ HA HO s conn cn); [done|apply HX; [done|left]|apply goes_refl|done].
  - use_call conn. get_conn_call cn Hus.
    apply (ends_wait _ HA HO s conn cn); [done|apply HX; [done|left]|apply goes_refl|done].
  - use_call conn. get_conn_call cn Hus. by apply ends_ret.
Qed.

(** ** Programs *)

(** [crun] also keeps track of the connections that are closed. *)
Fixpoint crun (p : cprog) (cl : gset addr) (s : net) : outcome (list cres * gset addr * net) :=
  match p with
  | [] => Ok ([], cl, s)
  | (c, this, news) :: p' =>
      match cexec c this news s with
      | Fault e => Fault e
      | Ok (r, s') =>
          match crun p' (now_closed c cl) s' with
          | Fault e => Fault e
          | Ok (rs, cl', s'') => Ok (r :: rs, cl', s'')
          end
      end
  end.
(** Every call it makes follows the rules. *)
Fixpoint disciplined (p : cprog) (cl : gset addr) (s : net) : Prop :=
  match p with
  | [] => True
  | (c, this, news) :: p' =>
      cpre cl c this news s ∧
      match cexec c this news s with
      | Fault _ => True
      | Ok (_, s') => disciplined p' (now_closed c cl) s'
      end
  end.

(** C30. A C program that uses a handle only between the creation of the connection
    and its close, and destroys only connections that exist, never accesses
    memory that is not an object: its calls keep a PollData of its own for
    every connection that is open, whatever the kernel answers, and it can stop
    only in an assertion of a debugging build, in a call that may wait on a
    connection that is not in the epoll set yet when the kernel does not add it,
    which ends the process, in the std::system_error of connection_create_socket or
    connection_accept_connenction, or in one of the four receiving functions,
    which have no return statement. *)
Theorem capi_session p cl s :
  session_wf cl s → disciplined p cl s →
  match crun p cl s with
  | Ok (_, cl', s') => session_wf cl' s'
  | Fault e => ∃ p1 c this news p2 rs cl1 s1, p = p1 ++ (c, this, news) :: p2 ∧
      crun p1 cl s = Ok (rs, cl1, s1) ∧ session_wf cl1 s1 ∧ cexec c this news s1 = Fault e ∧ allowed s1 c e
  end.
Proof.
  revert cl s. induction p as [|[[c this] news] p IH]; intros cl s HW Hd; [done|].
  destruct Hd as [Hp Hd]. pose proof (cexec_effect cl c this news s HW Hp) as He. unfold ends in He.
  cbn [crun]. destruct (cexec c this news s) as [[r s1]|e] eqn:Ec.
  - pose proof (effect_wf _ _ _ _ _ HW He) as HW1. specialize (IH _ _ HW1 Hd).
    destruct (crun p (now_closed c cl) s1) as [[[rs cl'] s']|e]; [done|].
    destruct IH as (p1 & c' & this' & news' & p2 & rs & cl1 & s2 & -> & Hr & Hrest).
    exists ((c, this, news) :: p1), c', this', news', p2, (r :: rs), cl1, s2.
    split_and!; [done|cbn [crun]; by rewrite Ec, Hr|apply Hrest..].
  - by exists [], c, this, news, p, [], cl, s.
Qed.

(** C31. Destroying a connection that was not closed loses its PollData, which
    neither the cache nor a connection has from then on, and nothing else does:
    the PollData that are lost after a call are those that were lost before and,
    when the call is connection_destroy of an open connection, its own. *)
Theorem capi_leaks cl c this news s r s' :
  session_wf cl s → cpre cl c this news s → cexec c this news s = Ok (r, s') →
  ∀ p, leaked (now_closed c cl) s' p ↔
       leaked cl s p ∨ ∃ con cn, c = Connection_destroy con ∧ conns s !! con = Some cn ∧ con ∉ cl ∧ p = cpd cn.
Proof.
  intros HW Hp Hr p. pose proof (cexec_effect cl c this news s HW Hp) as He. unfold ends in He.
  rewrite Hr in He. rewrite (effect_leak _ _ _ _ _ HW He p). unfold dropped_pd.
  split; (intros [?|(a & cn & Ea & Hrest)]; [by left|right; exists a, cn; split; [|done]]).
  - destruct c; simplify_eq/=. done.
  - by rewrite Ea.
Qed.

(** The result of what was received never reaches the C program. *)
Theorem capi_recv_no_return conn buf len flags s r s' :
  connection_recv conn buf len flags s ≠ Ok (r, s').
Proof.
  unfold connection_recv, falls_off, mbind, M_bind. by destruct (recv kernel fuel conn buf len flags s) as [[z s1]|].
Qed.
End connections.
Close Scope Z_scope.

(** ** Runs *)

#[local] Instance c_demo_build : Build := {| NDEBUG := true |}.
Open Scope Z_scope.
(** A second connection is created, closed and destroyed, then the first one
    is destroyed without a close; and one that receives. *)
Definition c_demo : cprog :=
  [(Connection_create_with_fd 9, 2000, [32; 48]); (Connection_write 2000 64 10, 0, []);
   (Connection_close 2000, 0, []); (Connection_destroy 2000, 0, []); (Connection_destroy 1000, 0, [])].
Definition c_demo_recv : cprog := [(Connection_recv 1000 64 10 0, 0, [])].

Lemma c_demo_wf : session_wf ∅ demo_net.
Proof.
  assert (E : open_part ∅ demo_net = demo_net) by (vm_compute; reflexivity).
  unfold session_wf. rewrite E. exact demo_net_wf.
Qed.

(** A precondition whose handles are computed. *)
Lemma cpre_use cl c this news s :
  creates c = false → destroys c = None →
  Forall (λ a, is_Some (conns s !! a) ∧ a ∉ cl) (uses c) → cpre cl c this news s.
Proof.
  intros H1 H2 H3. split_and!.
  - by apply Forall_forall.
  - intros a ->. done.
  - congruence.
Qed.
Lemma cpre_destroy cl con this news s :
  is_Some (conns s !! con) → cpre cl (Connection_destroy con) this news s.
Proof. intros Hs. split_and!; [by intros a ?%not_elem_of_nil|by intros a [= ->]|done]. Qed.
Lemma cpre_create_fd cl fd this news s :
  conns s !! this = None → this ∉ cl → fresh_pds news s → cpre cl (Connection_create_with_fd fd) this news s.
Proof. intros H1 H2 H3. split_and!; [by intros a ?%not_elem_of_nil|done|done]. Qed.

Lemma c_demo_disciplined : disciplined demo_kernel 3 c_demo ∅ demo_net.
Proof.
  cbn [disciplined c_demo]. split.
  { apply cpre_create_fd; [reflexivity|set_solver|]. split_and!; [done|apply (bool_decide_unpack _); by vm_compute|].
    intros p Hp. repeat (apply elem_of_cons in Hp as [->|Hp]; [reflexivity|]). by apply not_elem_of_nil in Hp. }
  vm_compute cexec. split.
  { apply cpre_use; [done|done|]. apply (bool_decide_unpack _). by vm_compute. }
  vm_compute cexec. split.
  { apply cpre_use; [done|done|]. apply (bool_decide_unpack _). by vm_compute. }
  vm_compute cexec. split.
  { apply cpre_destroy. vm_compute. eauto. }
  vm_compute cexec. split; [|vm_compute; exact I].
  apply cpre_destroy. vm_compute. eauto.
Qed.

Lemma capi_session_witness :
  ∃ cl s, crun demo_kernel 3 c_demo ∅ demo_net = Ok ([RPtr 2000; RInt 0; RInt 0; RVoid; RVoid], cl, s)
          ∧ session_wf cl s.
Proof.
  pose proof (capi_session demo_kernel 3 c_demo ∅ demo_net c_demo_wf c_demo_disciplined) as H.
  destruct (crun demo_kernel 3 c_demo ∅ demo_net) as [[[rs cl] s]|e] eqn:E; [|vm_compute in E; discriminate E].
  assert (rs = [RPtr 2000; RInt 0; RInt 0; RVoid; RVoid]) as -> by (vm_compute in E; by injection E).
  exists cl, s. split; [reflexivity|exact H].
Defined.

Lemma capi_leaks_witness :
  ∃ s, connection_destroy 1000 demo_net = Ok (RVoid, s) ∧ leaked ∅ s 16.
Proof.
  eexists. split; [vm_compute; reflexivity|].
  change ∅ with (now_closed (Connection_destroy 1000) ∅).
  apply (capi_leaks demo_kernel 3 ∅ (Connection_destroy 1000) 0 [] demo_net RVoid).
  - exact c_demo_wf.
  - apply cpre_destroy. vm_compute. eauto.
  - vm_compute. reflexivity.
  - right. exists 1000, (mkConn 16 5). split_and!; [done|reflexivity|set_solver|done].
Defined.
Close Scope Z_scope.
