(* ===== verification/ThreadPool.v ===== *)
(** * uThreadPool: worker uThreads

    [src/runtime/uThreadPool.h] and [src/runtime/uThreadPool.cpp].  A task is
    given to a new worker when no worker is idle, and to the queue otherwise;
    workers never end.  The pool's mutex and condition variable are used by
    their contracts: a critical section is one step, [wait] appends to the
    condition variable's queue and releases the mutex, [signal] removes the
    first waiter and releases it, and a waiter that was signalled acquires the
    mutex again. *)

From S2P Require Import Prelude.

Abbreviation task := Z.

(** [uThreadPool::run] *)
Inductive worker : Type :=
  | WRun (t : task)          (* in a task's function *)
  | WAcquire                 (* idleuThreads++ done, before mutex.acquire() *)
  | WWait                    (* in cv.wait, on its queue *)
  | WWoken.                  (* in cv.wait, signalled *)

(** Calls of [uThreadExecute] *)
Inductive call : Type :=
  | CRead (t : task)         (* before idleuThreads.load() *)
  | CNew (t : task)          (* it was 0: create and start a uThread *)
  | CCount                   (* totalnumuThreads++ *)
  | CEnq (t : task).         (* acquire, emplace, signal *)

Record pool := mkPool {
  workers : list worker;
  calls : list call;
  taskList : list task;
  cvq : list nat;            (* the queue of cv *)
  idleuThreads : Z;          (* atomic unsigned int *)
  totalnumuThreads : Z;      (* atomic unsigned int *)
  submitted : list task;
  finished : list task
}.

Definition pool_init : pool := mkPool [] [] [] [] 0 0 [] [].

(** One step of the [i]-th call under way. *)
Definition call_step (i : nat) (s : pool) : option pool :=
  match calls s !! i with
  | None => None
  | Some (CRead t) =>
      let c := if (idleuThreads s =? 0)%Z then CNew t else CEnq t in
      Some (mkPool (workers s) (<[i := c]> (calls s)) (taskList s) (cvq s) (idleuThreads s)
                   (totalnumuThreads s) (submitted s) (finished s))
  | Some (CNew t) =>
      Some (mkPool (workers s ++ [WRun t]) (<[i := CCount]> (calls s)) (taskList s) (cvq s)
                   (idleuThreads s) (totalnumuThreads s) (submitted s) (finished s))
  | Some CCount =>
      Some (mkPool (workers s) (delete i (calls s)) (taskList s) (cvq s) (idleuThreads s)
                   (wrap 32 (totalnumuThreads s + 1)) (submitted s) (finished s))
  | Some (CEnq t) =>
      match cvq s with
      | w :: q =>
          Some (mkPool (<[w := WWoken]> (workers s)) (delete i (calls s)) (taskList s ++ [t]) q
                       (idleuThreads s) (totalnumuThreads s) (submitted s) (finished s))
      | [] =>
          Some (mkPool (workers s) (delete i (calls s)) (taskList s ++ [t]) []
                       (idleuThreads s) (totalnumuThreads s) (submitted s) (finished s))
      end
  end.

(** [mutex.acquire(); while(taskList.empty()) cv.wait(mutex);] and the task. *)
Definition take_task (w : nat) (s : pool) : pool :=
  match taskList s with
  | [] =>
      mkPool (<[w := WWait]> (workers s)) (calls s) [] (cvq s ++ [w]) (idleuThreads s)
             (totalnumuThreads s) (submitted s) (finished s)
  | t :: r =>
      mkPool (<[w := WRun t]> (workers s)) (calls s) r (cvq s) (wrap 32 (idleuThreads s - 1))
             (totalnumuThreads s) (submitted s) (finished s)
  end.

(** One step of worker [w]. *)
Definition worker_step (w : nat) (s : pool) : option pool :=
  match workers s !! w with
  | None | Some WWait => None
  | Some (WRun t) =>
      Some (mkPool (<[w := WAcquire]> (workers s)) (calls s) (taskList s) (cvq s)
                   (wrap 32 (idleuThreads s + 1)) (totalnumuThreads s) (submitted s) (finished s ++ [t]))
  | Some WAcquire | Some WWoken => Some (take_task w s)
  end.

Inductive plabel : Type :=
  | PExecute (t : task)      (* somebody calls uThreadExecute *)
  | PCall (i : nat)
  | PWorker (w : nat).

Definition pstep (l : plabel) (s : pool) : option pool :=
  match l with
  | PExecute t =>
      Some (mkPool (workers s) (calls s ++ [CRead t]) (taskList s) (cvq s) (idleuThreads s)
                   (totalnumuThreads s) (submitted s ++ [t]) (finished s))
  | PCall i => call_step i s
  | PWorker w => worker_step w s
  end.

(** ** Invariant *)

Definition call_task (c : call) : option task :=
  match c with CRead t | CNew t | CEnq t => Some t | CCount => None end.
Definition run_task (x : worker) : option task := match x with WRun t => Some t | _ => None end.
Definition is_idle (x : worker) : bool := match x with WRun _ => false | _ => true end.
Definition idle_count (l : list worker) : Z := Z.of_nat (length (List.filter is_idle l)).

(** Where the tasks are. *)
Definition in_calls (s : pool) : list task := omap call_task (calls s).
Definition running (s : pool) : list task := omap run_task (workers s).

Record pinv (s : pool) : Prop := {
  p_tasks : submitted s ≡ₚ finished s ++ running s ++ taskList s ++ in_calls s;
  p_idle : idleuThreads s = wrap 32 (idle_count (workers s));
  p_cvq : NoDup (cvq s) ∧ ∀ w, w ∈ cvq s ↔ workers s !! w = Some WWait;
  p_some : (∃ t, CEnq t ∈ calls s) → workers s ≠ [];
  p_awake : taskList s ≠ [] → ∃ w x, workers s !! w = Some x ∧ x ≠ WWait
}.

Lemma idle_insert (l : list worker) i x y :
  l !! i = Some x →
  (idle_count (<[i := y]> l) = idle_count l + (if is_idle y then 1 else 0) - (if is_idle x then 1 else 0))%Z.
Proof.
  intros Hi. unfold idle_count. rewrite insert_take_drop by (by eapply lookup_lt_Some).
  rewrite <-(take_drop_middle l i x) at 3 by done.
  rewrite !List.filter_app, !length_app. cbn [List.filter].
  destruct (is_idle x), (is_idle y); simpl; lia.
Qed.
Lemma wrap_add w a b : wrap w (wrap w a + b) = wrap w (a + b).
Proof. unfold wrap. by rewrite Zplus_mod_idemp_l. Qed.

Lemma idle_app (l k : list worker) : (idle_count (l ++ k) = idle_count l + idle_count k)%Z.
Proof. unfold idle_count. rewrite List.filter_app, length_app. lia. Qed.
Lemma elem_of_delete_2 {A} (l : list A) i x : x ∈ delete i l → x ∈ l.
Proof.
  rewrite delete_take_drop, elem_of_app. intros [H|H].
  - by apply subseteq_take in H.
  - by apply subseteq_drop in H.
Qed.
Lemma elem_of_insert_2 {A} (l : list A) i x y : x ∈ <[i := y]> l → x = y ∨ x ∈ l.
Proof.
  intros [j Hj]%list_elem_of_lookup. destruct (decide (j = i)) as [->|Hne].
  - apply list_lookup_insert_Some in Hj as [(_&->&_)|[? _]]; [by left|done].
  - rewrite list_lookup_insert_ne in Hj by done. right. by eapply list_elem_of_lookup_2.
Qed.

(** A worker that is not waiting changes to a state that is not [WWait]: the
    queue of the condition variable is still right. *)
Lemma cvq_change (ws : list worker) (q : list nat) w x y :
  ws !! w = Some x → x ≠ WWait → y ≠ WWait →
  (∀ v, v ∈ q ↔ ws !! v = Some WWait) → ∀ v, v ∈ q ↔ <[w := y]> ws !! v = Some WWait.
Proof.
  intros Hx Hnx Hny H v. rewrite H, (lookup_insert_cases _ _ _ _ _ Hx).
  case_decide; subst; [|done]. split; congruence.
Qed.

Lemma delete_enq s i :
  ((∃ t, CEnq t ∈ calls s) → workers s ≠ []) → (∃ t, CEnq t ∈ delete i (calls s)) → workers s ≠ [].
Proof. intros Hs [t0 H0%elem_of_delete_2]. apply Hs. eauto. Qed.

(** The critical section of [uThreadExecute]. *)
Lemma call_enq_inv i t s s' :
  pinv s → calls s !! i = Some (CEnq t) → call_step i s = Some s' → pinv s'.
Proof.
  intros [Ht Hi [Hn Hw] Hs Ha] Ec H. unfold call_step in H. rewrite Ec in H.
  pose proof (omap_delete call_task _ _ _ Ec) as Hd. pose proof (delete_enq s i Hs) as Hdel.
  unfold in_calls, running in *. simpl in Hd. destruct (cvq s) as [|w q] eqn:Eq; simplify_eq/=.
  - constructor; unfold in_calls, running; cbn; try done.
    + rewrite Ht, Hd. solve_Permutation.
    + intros _. destruct (workers s) as [|x ws] eqn:Ew.
      { destruct Hs; [|done]. exists t. by eapply list_elem_of_lookup_2. }
      exists 0, x. split; [done|]. intros ->. pose proof (proj2 (Hw 0) eq_refl). set_solver.
  - apply NoDup_cons in Hn as [Hnq Hn].
    assert (Hww : workers s !! w = Some WWait) by (apply Hw; set_solver).
    pose proof (omap_insert run_task _ _ _ WWoken Hww) as Hr. simpl in Hr.
    constructor; unfold in_calls, running; cbn.
    + rewrite Ht, Hd, Hr. solve_Permutation.
    + rewrite Hi, (idle_insert _ _ _ _ Hww). f_equal. simpl. lia.
    + split; [done|]. intros v. rewrite (lookup_insert_cases _ _ _ _ _ Hww).
      case_decide as E; [subst; split; [done|congruence]|]. rewrite <-Hw. set_solver.
    + intros H E. apply (f_equal length) in E. rewrite length_insert in E.
      apply lookup_lt_Some in Hww. simpl in E. lia.
    + intros _. exists w, WWoken. split; [|done].
      rewrite (lookup_insert_cases _ _ _ _ _ Hww). by case_decide.
Qed.

Lemma call_step_inv i s s' : pinv s → call_step i s = Some s' → pinv s'.
Proof.
  intros HI H. destruct (calls s !! i) as [c|] eqn:Ec; [|unfold call_step in H; by rewrite Ec in H].
  destruct c as [t|t| |t]; [..|by eapply call_enq_inv];
    destruct HI as [Ht Hi [Hn Hw] Hs Ha]; unfold call_step in H; rewrite Ec in H;
    unfold in_calls, running in *; simplify_eq/=.
  - pose proof (λ y, omap_insert call_task _ _ _ y Ec) as Hc.
    destruct (Z.eqb_spec (idleuThreads s) 0) as [E|E]; constructor; cbn; try done.
    + unfold in_calls. cbn. rewrite Ht. specialize (Hc (CNew t)). simpl in Hc.
      apply (Permutation_cons_inv) in Hc. by rewrite Hc.
    + intros [t0 [?|H0]%elem_of_insert_2]; [done|]. apply Hs. eauto.
    + unfold in_calls. cbn. rewrite Ht. specialize (Hc (CEnq t)). simpl in Hc.
      apply (Permutation_cons_inv) in Hc. by rewrite Hc.
    + intros _ E0. apply E. rewrite Hi, E0. done.
  - pose proof (omap_insert call_task _ _ _ CCount Ec) as Hc. simpl in Hc.
    constructor; unfold in_calls, running; cbn.
    + rewrite Ht, omap_app, <-Hc. simpl. solve_Permutation.
    + rewrite Hi, idle_app. f_equal. unfold idle_count at 3. simpl. lia.
    + split; [done|]. intros w. rewrite Hw, lookup_app_Some.
      split; [by left|]. intros [?|[_ H]]; [done|].
      apply list_lookup_singleton_Some in H as [_ ?]. done.
    + intros _ H. by apply app_nil in H as [_ ?].
    + intros _. exists (length (workers s)), (WRun t). split; [|done].
      rewrite lookup_app_r, Nat.sub_diag by lia. done.
  - pose proof (omap_delete call_task _ _ _ Ec) as Hd. pose proof (delete_enq s i Hs) as Hdel.
    constructor; unfold in_calls, running; cbn; try done. by rewrite Ht, Hd.
Qed.

Lemma take_task_inv w s x :
  pinv s → workers s !! w = Some x → x = WAcquire ∨ x = WWoken → pinv (take_task w s).
Proof.
  intros [Ht Hi [Hn Hw] Hs Ha] Hx Hxx. unfold take_task.
  assert (Hid : is_idle x = true) by (by destruct Hxx; subst).
  assert (Hru : run_task x = None) by (by destruct Hxx; subst).
  assert (Hxw : x ≠ WWait) by (by destruct Hxx; subst).
  assert (Hne : ∀ y, <[w := y]> (workers s) ≠ []).
  { intros y E. apply (f_equal length) in E. rewrite length_insert in E.
    apply lookup_lt_Some in Hx. simpl in E. lia. }
  destruct (taskList s) as [|t r] eqn:Et; unfold in_calls, running in *.
  - pose proof (omap_insert run_task _ _ _ WWait Hx) as Hr. rewrite Hru in Hr. simpl in Hr.
    constructor; unfold in_calls, running; cbn; try done.
    + by rewrite Ht, Hr.
    + rewrite Hi, (idle_insert _ _ _ _ Hx), Hid. f_equal. simpl. lia.
    + split.
      * apply NoDup_app. split_and!; [done| |apply NoDup_singleton].
        intros v Hv%Hw ->%list_elem_of_singleton. congruence.
      * intros v. rewrite elem_of_app, list_elem_of_singleton, Hw, (lookup_insert_cases _ _ _ _ _ Hx).
        case_decide; subst; [by split; auto|]. tauto.
  - pose proof (omap_insert run_task _ _ _ (WRun t) Hx) as Hr. rewrite Hru in Hr. simpl in Hr.
    constructor; unfold in_calls, running; cbn; try done.
    + rewrite Ht, Hr. simpl. solve_Permutation.
    + rewrite Hi, (idle_insert _ _ _ _ Hx), Hid, <-Z.add_opp_r, wrap_add. f_equal. simpl. lia.
    + split; [done|]. by apply (cvq_change _ _ _ x).
    + intros _. exists w, (WRun t). split; [|done].
      rewrite (lookup_insert_cases _ _ _ _ _ Hx). by case_decide.
Qed.

Lemma worker_step_inv w s s' : pinv s → worker_step w s = Some s' → pinv s'.
Proof.
  intros Hp H. unfold worker_step in H.
  destruct (workers s !! w) as [x|] eqn:Ex; [|done].
  destruct x as [t| | |]; simplify_eq/=; try (by eapply take_task_inv; eauto).
  destruct Hp as [Ht Hi [Hn Hw] Hs Ha].
  pose proof (omap_insert run_task _ _ _ WAcquire Ex) as Hr. simpl in Hr.
  constructor; unfold in_calls, running in *; cbn.
  - rewrite Ht, <-Hr. solve_Permutation.
  - rewrite Hi, wrap_add, (idle_insert _ _ _ _ Ex). f_equal. simpl. lia.
  - split; [done|]. by apply (cvq_change _ _ _ (WRun t)).
  - intros H E. apply (f_equal length) in E. rewrite length_insert in E.
    apply lookup_lt_Some in Ex. simpl in E. lia.
  - intros _. exists w, WAcquire. split; [|done].
    rewrite (lookup_insert_cases _ _ _ _ _ Ex). by case_decide.
Qed.

Lemma pinv_init : pinv pool_init.
Proof.
  constructor; try done.
  - split; [apply NoDup_nil_2|]. intros w. split; [by intros ?%elem_of_nil|done].
  - intros [t ?%elem_of_nil]. done.
Qed.
Lemma pinv_step l s s' : pinv s → pstep l s = Some s' → pinv s'.
Proof.
  intros Hp H. destruct l as [t|i|w]; [|by eapply call_step_inv|by eapply worker_step_inv].
  simplify_eq/=. destruct Hp as [Ht Hi [Hn Hw] Hs Ha].
  constructor; unfold in_calls, running in *; cbn; try done.
  - rewrite omap_app, Ht. simpl. solve_Permutation.
  - intros [t0 [?|?%list_elem_of_singleton]%elem_of_app]; [|done]. apply Hs. eauto.
Qed.
Lemma pool_reachable s : reachable pstep pool_init s → pinv s.
Proof. intros H. eapply invariant_reachable; [apply pinv_init|by eauto using pinv_step|done]. Qed.

(** ** The theorems *)

(** C33. Nothing is lost and nothing runs twice: whatever the interleaving of
    the callers and the workers, the tasks given to [uThreadExecute] are,
    counted with multiplicity, those that have finished, those a worker is
    running, those on [taskList] and those of calls that have not placed them
    yet; and the counter of idle uThreads is the number of workers outside a
    task, modulo 2^32. *)
Theorem pool_conserves (s : pool) :
  reachable pstep pool_init s →
  submitted s ≡ₚ finished s ++ running s ++ taskList s ++ in_calls s ∧
  idleuThreads s = wrap 32 (idle_count (workers s)).
Proof. intros [? ? _ _ _]%pool_reachable. done. Qed.

(** Two submitters, the second served by the first's worker. *)
Definition pool_run : list plabel :=
  [PExecute 7; PCall 0; PCall 0; PCall 0; PWorker 0; PWorker 0;
   PExecute 8; PCall 0; PCall 0; PWorker 0]%Z.
Definition pool_run_state : pool := default pool_init (run pstep pool_run pool_init).
Lemma pool_run_reachable : reachable pstep pool_init pool_run_state.
Proof. apply reachable_default. vm_compute. reflexivity. Qed.

Lemma pool_conserves_witness :
  running pool_run_state = [8%Z] ∧ finished pool_run_state = [7%Z] ∧
  idleuThreads pool_run_state = wrap 32 (idle_count (workers pool_run_state)).
Proof.
  split; [vm_compute; reflexivity|]. split; [vm_compute; reflexivity|].
  apply (pool_conserves pool_run_state pool_run_reachable).
Defined.

(** C34. No task is stranded: when every call has returned and no worker can
    step any more, every task that was submitted has finished.  A task on
    [taskList] always has a worker that is awake and will look at the list
    before it waits, also when the signal found nobody waiting. *)
Theorem pool_quiescent (s : pool) :
  reachable pstep pool_init s → calls s = [] → (∀ w, pstep (PWorker w) s = None) →
  taskList s = [] ∧ submitted s ≡ₚ finished s.
Proof.
  intros [Ht _ _ _ Ha]%pool_reachable Hc Hq.
  assert (Hall : ∀ w x, workers s !! w = Some x → x = WWait).
  { intros w x Hx. specialize (Hq w). simpl in Hq. unfold worker_step in Hq. rewrite Hx in Hq.
    by destruct x. }
  assert (Hl : taskList s = []).
  { destruct (taskList s) eqn:E; [done|]. destruct Ha as (w & x & Hx & Hn); [done|].
    by apply Hall in Hx. }
  assert (Hr : running s = []).
  { unfold running. revert Hall. clear. induction (workers s) as [|x ws IH]; intros Hall; [done|].
    simpl. rewrite (Hall 0 x eq_refl). simpl. apply IH. intros w y Hy. by apply (Hall (S w)). }
  split; [done|]. by rewrite Ht, Hr, Hl, (eq_refl : in_calls s = omap call_task (calls s)), Hc, !app_nil_r.
Qed.

Definition pool_done_state : pool :=
  default pool_init (run pstep (pool_run ++ [PWorker 0; PWorker 0]) pool_init).
Lemma pool_quiescent_witness :
  workers pool_done_state = [WWait] ∧ submitted pool_done_state ≡ₚ finished pool_done_state.
Proof.
  split; [vm_compute; reflexivity|].
  apply (pool_quiescent pool_done_state).
  - apply reachable_default. vm_compute. reflexivity.
  - vm_compute. reflexivity.
  - intros [|w]; vm_compute; reflexivity.
Defined.

(** A task can wait for another one's end although the pool exists to
    start it at once: [idleuThreads] is read outside the mutex and only
    decremented when a worker takes a task, so two callers can both count on
    the same idle worker.  The second task is then queued, no worker is idle,
    and no worker is created for it; if the first task waits for the second,
    neither ends. *)
Theorem pool_stale_idle :
  ∃ tr s, run pstep tr pool_init = Some s ∧ calls s = [] ∧
          workers s = [WRun 8%Z] ∧ taskList s = [9%Z] ∧ idleuThreads s = 0%Z.
Proof.
  exists [PExecute 7; PCall 0; PCall 0; PCall 0; PWorker 0; PWorker 0;
          PExecute 8; PExecute 9; PCall 0; PCall 1; PCall 0; PCall 0; PWorker 0]%Z.
  eexists. split; [vm_compute; reflexivity|]. done.
Qed.
