(* ===== verification/CRuntime.v ===== *)
(** * The C interface to clusters, kThreads, uThreads and synchronisation

    The rest of [src/cwrapper.cpp].  Clusters and kThreads are named by their
    addresses.  [delete] ends the life of an object, and an access to its address
    is a fault until [new] hands it out again; the functions below change the
    registry of [Cluster] and remember which objects exist. *)

From stdpp Require Import functions.
From S2P Require Import UThread KThread Mutex MutexClient USemaphore ConditionVariable ThreadPool Join.
From S2P Require Import Prelude Cluster CWrapper.

(** ** Clusters and kThreads *)

(** The objects of the clusters are in [reg], in the order of their creation;
    [place] holds the pointers in [Cluster::clusterList].  An address that was
    deleted may be returned by [new] again. *)
Record crt := mkCrt {
  reg : registry;
  place : list addr;
  clOf : gmap addr nat;         (* the clusters that exist, by address *)
  ktOf : gmap addr addr;        (* the kThreads that exist, with localCluster *)
  created : list (addr * nat);  (* all kThreads ever registered, in order *)
  destroys : nat                (* the calls of the two destroy functions *)
}.

Definition lift {A} (c : M registry A) : M crt A := λ s,
  match c (reg s) with
  | Ok (a, r) => Ok (a, mkCrt r (place s) (clOf s) (ktOf s) (created s) (destroys s))
  | Fault e => Fault e
  end.

(** The object behind a pointer to a cluster. *)
Definition get_cluster (p : addr) : M crt (nat * Cluster) := λ s,
  match clOf s !! p with
  | Some i => match clusterList (reg s) !! i with
              | Some c => Ok (i, c, s)
              | None => Fault (BadAccess p)
              end
  | None => Fault (BadAccess p)
  end.
Definition add_cluster (p : addr) (i : nat) : M crt unit := λ s,
  Ok (tt, mkCrt (reg s) (place s ++ [p]) (<[p := i]> (clOf s)) (ktOf s) (created s) (destroys s)).
Definition del_cluster (p : addr) : M crt unit := λ s,
  Ok (tt, mkCrt (reg s) (place s) (delete p (clOf s)) (ktOf s) (created s) (S (destroys s))).
Definition add_kt (kt p : addr) (i : nat) : M crt unit := λ s,
  Ok (tt, mkCrt (reg s) (place s) (clOf s) (<[kt := p]> (ktOf s)) (created s ++ [(kt, i)]) (destroys s)).
(** The object behind a pointer to a kThread: its localCluster. *)
Definition get_kt (kt : addr) : M crt addr := λ s,
  match ktOf s !! kt with Some p => Ok (p, s) | None => Fault (BadAccess kt) end.
Definition del_kt (kt : addr) : M crt unit := λ s,
  Ok (tt, mkCrt (reg s) (place s) (clOf s) (delete kt (ktOf s)) (created s) (S (destroys s))).

(** [p] is what [new] returns. *)
Definition cluster_create (p : addr) : M crt Z :=
  i ← lift new_Cluster; add_cluster p i;; mret p.
(** The destructor of Cluster has an empty body: the pointer stays in
    [clusterList]. *)
Definition cluster_destroy (p : addr) : M crt Z := get_cluster p;; del_cluster p;; mret 0%Z.
(** [uint64_t getID() const], [size_t getNumberOfkThreads() const] *)
Definition getID (c : Cluster) : Z := clusterID c.
Definition getNumberOfkThreads (c : Cluster) : Z := numberOfkThreads c.
Definition cluster_get_id (p : addr) : M crt Z := c ← get_cluster p; mret (getID c.2).
Definition cluster_get_number_of_kThreads (p : addr) : M crt Z :=
  c ← get_cluster p; mret (getNumberOfkThreads c.2).
(** [Cluster::defaultCluster], the first of the list. *)
Definition cluster_get_default : M crt Z := λ s, Ok (default nullptr (head (place s)), s).

Definition kThread_create (kt p : addr) : M crt Z :=
  c ← get_cluster p; lift (kThread_ctor c.1 kt);; add_kt kt p c.1;; mret kt.
Definition kThread_destroy (kt : addr) : M crt Z :=
  p ← get_kt kt;
  c ← get_cluster p;
  lift (kThread_dtor c.1 kt);;
  del_kt kt;;
  mret 0%Z.
(** [static uint getTotalNumberOfkThreads()] *)
Definition getTotalNumberOfkThreads (r : registry) : Z := totalNumberofKTs r.
Definition kThread_get_total_number_of_kThreads : M crt Z := λ s, Ok (getTotalNumberOfkThreads (reg s), s).

(** [Scheduler::bulkPush()]: the objects its two loops access, a cluster of
    [clusterList] and its kThreads after the other. *)
Fixpoint walk_kts (l : list addr) : M crt unit :=
  match l with
  | [] => mret tt
  | kt :: l' => get_kt kt;; walk_kts l'
  end.
Fixpoint walk_clusters (l : list addr) : M crt (list addr) :=
  match l with
  | [] => mret []
  | p :: l' =>
      c ← get_cluster p;
      walk_kts (ktVector c.2);;
      r ← walk_clusters l';
      mret (p :: ktVector c.2 ++ r)
  end.
Definition bulk_walk : M crt (list addr) := λ s, walk_clusters (place s) s.

(** The calls of the header. *)
Inductive rcall : Type :=
  | Cluster_create (p : addr)                (* [p] is what [new] returns *)
  | Cluster_destroy (p : addr) | Cluster_get_default | Cluster_get_id (p : addr)
  | Cluster_get_number_of_kThreads (p : addr)
  | KThread_create (kt p : addr)             (* [kt] is what [new] returns *)
  | KThread_destroy (kt : addr)
  | KThread_get_total_number_of_kThreads.

Definition rexec (c : rcall) : M crt Z :=
  match c with
  | Cluster_create p => cluster_create p
  | Cluster_destroy p => cluster_destroy p
  | Cluster_get_default => cluster_get_default
  | Cluster_get_id p => cluster_get_id p
  | Cluster_get_number_of_kThreads p => cluster_get_number_of_kThreads p
  | KThread_create kt p => kThread_create kt p
  | KThread_destroy kt => kThread_destroy kt
  | KThread_get_total_number_of_kThreads => kThread_get_total_number_of_kThreads
  end.

(** [new] returns an address at which nothing is alive. *)
Definition unused (a : addr) (s : crt) : bool := bool_decide (clOf s !! a = None ∧ ktOf s !! a = None).
Definition rnew (c : rcall) (s : crt) : bool :=
  match c with Cluster_create a | KThread_create a _ => unused a s | _ => true end.
Definition rstep (c : rcall) (s : crt) : option crt :=
  if rnew c s then match rexec c s with Ok (_, s') => Some s' | Fault _ => None end else None.

(** What main() finds: the default cluster with its kThread, and the poller's
    kThread, which is counted but in no cluster. *)
Definition crt_init (p0 kt0 : addr) : crt :=
  mkCrt (mkRegistry [mkCluster [kt0] 0 1 0] 1 2) [p0] {[p0 := 0]} {[kt0 := p0]} [(kt0, 0)] 0.

(** ** Invariant *)

(** The kThreads that exist with [localCluster = p], and all that ever were
    registered with the [i]-th cluster. *)
Definition live_in (m : gmap addr addr) (p : addr) : gmap addr addr := filter (λ x, x.2 = p) m.
Definition made_in (l : list (addr * nat)) (i : nat) : list addr := (filter (λ p, p.2 = i) l).*1.

Definition clusters_alive (s : crt) : Prop := ∀ i p, place s !! i = Some p → clOf s !! p = Some i.

Record rinv (s : crt) : Prop := {
  r_vector : ∀ i c, clusterList (reg s) !! i = Some c →
    ktVector c = made_in (created s) i ∧ clusterID c = wrap 16 (Z.of_nat i);
  r_length : length (place s) = length (clusterList (reg s));
  r_place : ∀ p i, clOf s !! p = Some i → place s !! i = Some p;
  r_live : ∀ kt p, ktOf s !! kt = Some p → kt ∈ (created s).*1 ∧ p ∈ place s;
  r_range : ∀ kt i, (kt, i) ∈ created s → i < length (clusterList (reg s));
  r_master : clusterMasterID (reg s) = wrap 16 (Z.of_nat (length (clusterList (reg s))));
  r_total : totalNumberofKTs (reg s) = wrap 32 (1 + Z.of_nat (size (ktOf s)));
  r_counts : clusters_alive s → ∀ i c p, clusterList (reg s) !! i = Some c → place s !! i = Some p →
    numberOfkThreads c = wrap 32 (Z.of_nat (size (live_in (ktOf s) p)));
  r_none : destroys s = 0 →
    clusters_alive s ∧ (∀ kt, kt ∈ (created s).*1 → is_Some (ktOf s !! kt)) ∧ NoDup (place s ++ (created s).*1);
  r_some : destroys s ≠ 0 →
    (∃ i p, place s !! i = Some p ∧ clOf s !! p ≠ Some i) ∨
    (∃ kt, kt ∈ (created s).*1 ∧ ktOf s !! kt = None) ∨ ¬ NoDup (created s).*1
}.

Lemma rinv_init p0 kt0 : p0 ≠ kt0 → rinv (crt_init p0 kt0).
Proof.
  intros Hne. assert (Hal : clusters_alive (crt_init p0 kt0)).
  { intros i p [-> <-]%list_lookup_singleton_Some. simpl. by rewrite lookup_singleton_eq. }
  split; simpl; try done.
  - intros i c [-> <-]%list_lookup_singleton_Some. done.
  - by intros p i [<- <-]%lookup_singleton_Some.
  - intros kt p [<- <-]%lookup_singleton_Some. split; by left.
  - intros kt i [= -> ->]%list_elem_of_singleton. lia.
  - by rewrite map_size_singleton.
  - intros _ i c p [-> <-]%list_lookup_singleton_Some [_ <-]%list_lookup_singleton_Some. simpl.
    unfold live_in. rewrite map_filter_singleton_True by done. by rewrite map_size_singleton.
  - intros _. split_and!; [done| |].
    + intros kt ->%list_elem_of_singleton. by rewrite lookup_singleton_eq.
    + apply NoDup_cons. split; [by intros ?%list_elem_of_singleton|apply NoDup_singleton].
Qed.

Lemma wrap_succ w n : wrap w (wrap w (Z.of_nat n) + 1) = wrap w (Z.of_nat (S n)).
Proof. unfold wrap. rewrite Zplus_mod_idemp_l. f_equal. lia. Qed.
Lemma wrap_pred w n : wrap w (wrap w (Z.of_nat (S n)) - 1) = wrap w (Z.of_nat n).
Proof. unfold wrap. rewrite Zminus_mod_idemp_l. f_equal. lia. Qed.

(** A kThread more with cluster [p], and one less. *)
Lemma live_in_insert (m : gmap addr addr) kt p q :
  m !! kt = None →
  size (live_in (<[kt := p]> m) q) = (if decide (p = q) then S else id) (size (live_in m q)).
Proof.
  intros Hk. unfold live_in. destruct (decide (p = q)) as [->|Hne].
  - rewrite map_filter_insert_True by done. apply map_size_insert_None.
    apply map_lookup_filter_None. by left.
  - rewrite map_filter_insert_False by done. by rewrite delete_id.
Qed.
Lemma live_in_delete (m : gmap addr addr) kt p q :
  m !! kt = Some p →
  size (live_in m q) = (if decide (p = q) then S else id) (size (live_in (delete kt m) q)).
Proof.
  intros Hk. rewrite <-(insert_delete_id m kt p Hk) at 1. apply live_in_insert, lookup_delete_eq.
Qed.
Lemma made_in_app l kt i j :
  made_in (l ++ [(kt, i)]) j = made_in l j ++ (if decide (i = j) then [kt] else []).
Proof.
  unfold made_in. rewrite filter_app, fmap_app. f_equal.
  destruct (decide (i = j)); [by rewrite filter_cons_True|by rewrite filter_cons_False].
Qed.
Lemma made_in_elem l kt i : kt ∈ made_in l i ↔ (kt, i) ∈ l.
Proof.
  unfold made_in. rewrite list_elem_of_fmap. split.
  - intros ([kt' j] & -> & [E Hin]%list_elem_of_filter). simpl in *. by subst.
  - intros Hin. exists (kt, i). split; [done|]. by apply list_elem_of_filter.
Qed.

(** A cluster that has just been created has no kThreads. *)
Lemma new_cluster_empty s : rinv s → made_in (created s) (length (clusterList (reg s))) = [].
Proof.
  intros HI. apply elem_of_nil_inv. intros kt Hin%made_in_elem. apply (r_range _ HI) in Hin. lia.
Qed.
Lemma new_address_empty s p :
  rinv s → clOf s !! p = None → clusters_alive s → live_in (ktOf s) p = ∅.
Proof.
  intros HI Hp Ha. unfold live_in. apply map_empty. intros kt. apply map_lookup_filter_None. right.
  intros q Hq E. simpl in E. subst q. apply (r_live _ HI) in Hq as [_ [i Hi]%list_elem_of_lookup].
  apply Ha in Hi. congruence.
Qed.

Lemma bind_Ok {S A B} (c : M S A) (k : A → M S B) s b s' :
  (c ≫= k) s = Ok (b, s') → ∃ a s1, c s = Ok (a, s1) ∧ k a s1 = Ok (b, s').
Proof. unfold mbind, M_bind. destruct (c s) as [[a s1]|]; [eauto|done]. Qed.
Lemma get_cluster_Ok p s c s' :
  get_cluster p s = Ok (c, s') → s' = s ∧ clOf s !! p = Some c.1 ∧ clusterList (reg s) !! c.1 = Some c.2.
Proof.
  unfold get_cluster. destruct (clOf s !! p) as [i|]; [|done].
  destruct (clusterList (reg s) !! i) eqn:E; [|done]. intros [= <- ->]. done.
Qed.

Lemma create_cluster_inv s p r s' :
  rinv s → unused p s = true → cluster_create p s = Ok (r, s') → rinv s'.
Proof.
  intros HI [Hp Hk]%bool_decide_eq_true Hr.
  unfold cluster_create, lift, new_Cluster, add_cluster, mbind, M_bind, mret, M_ret in Hr.
  destruct (clusterMasterID (reg s) + 1 <? UINTMAX_MAX)%Z; [|done]. injection Hr as _ <-.
  pose proof (new_cluster_empty s HI) as Hm. pose proof (new_address_empty s p HI Hp) as Hn.
  pose proof HI as [I1 I2 I3 I4 I5 I6 I7 I8 I9 I10]. set (n := length (clusterList (reg s))) in *.
  assert (Hlast : ∀ i q, (place s ++ [p]) !! i = Some q ↔ place s !! i = Some q ∨ i = n ∧ q = p).
  { intros i q. rewrite lookup_app_Some, I2. fold n. split.
    - intros [?|[Hi [E <-]%list_lookup_singleton_Some]]; [by left|right; split; [lia|done]].
    - intros [?|[-> ->]]; [by left|right]. split; [lia|]. by rewrite Nat.sub_diag. }
  assert (Hback : ∀ i q, place s !! i = Some q → <[p:=n]> (clOf s) !! q = Some i → clOf s !! q = Some i ∧ q ≠ p).
  { intros i q Hi Hq. apply lookup_lt_Some in Hi. apply lookup_insert_Some in Hq as [[<- E]|[? ?]]; [fold n in I2; lia|done]. }
  split; simpl; rewrite ?length_app; simpl; try done.
  - intros i c [Hc|[Hi Hc]]%lookup_app_Some; [by apply I1|].
    apply list_lookup_singleton_Some in Hc as [E <-]. simpl. fold n in Hi.
    assert (i = n) as -> by (unfold n in *; lia). by rewrite Hm.
  - lia.
  - intros q i [[<- <-]|[? Hq]]%lookup_insert_Some; apply Hlast; [by right|left; auto].
  - intros kt q Hq%I4. rewrite elem_of_app. naive_solver.
  - intros kt i Hin%I5. lia.
  - by rewrite I6, wrap_succ, Nat.add_1_r.
  - intros Ha. assert (Ha' : clusters_alive s).
    { intros i q Hi. apply (Hback i q Hi), Ha, Hlast. by left. }
    intros i c q Hc Hq. apply Hlast in Hq. apply lookup_app_Some in Hc as [Hc|[Hi Hc]].
    + destruct Hq as [Hq|[-> _]]; [by eapply I8|]. apply lookup_lt_Some in Hc. fold n in Hc. lia.
    + apply list_lookup_singleton_Some in Hc as [E <-]. simpl. destruct Hq as [Hq|[_ ->]].
      * apply lookup_lt_Some in Hq. fold n in Hi. lia.
      * by rewrite Hn.
  - intros Hd. destruct (I9 Hd) as (Ha & Hb & Hnd). split_and!; [|done|].
    + intros i q [Hi|[-> ->]]%Hlast; simpl; [|by rewrite lookup_insert_eq].
      pose proof (Ha i q Hi). rewrite lookup_insert_ne; [done|]. intros <-. congruence.
    + rewrite <- app_assoc. simpl. apply NoDup_app in Hnd as (N1 & N2 & N3).
      apply NoDup_app. split_and!; [done| |].
      * intros x Hx. apply list_elem_of_lookup in Hx as Hx'. destruct Hx' as [i Hi%Ha].
        intros [->|Hx']%elem_of_cons; [congruence|by apply (N2 x)].
      * apply NoDup_cons. split; [|done]. intros [? Hin]%Hb. congruence.
  - intros Hd. destruct (I10 Hd) as [(i & q & Hi & Hq)|Hrest]; [left|by right].
    exists i, q. split; [apply Hlast; by left|]. intros [? _]%Hback; done.
Qed.

Lemma create_kt_inv s kt p r s' :
  rinv s → unused kt s = true → kThread_create kt p s = Ok (r, s') → rinv s'.
Proof.
  intros HI [Hck Hn]%bool_decide_eq_true Hr.
  apply bind_Ok in Hr as ([i c] & s1 & (-> & Hp & Hc)%get_cluster_Ok & Hr). simpl in *.
  unfold lift, kThread_ctor, on_cluster, addNewkThread,
    kThread_initialSynchronization, add_kt, mbind, M_bind, mret, M_ret in Hr.
  rewrite Hc in Hr. destruct (UINTMAX_MAX <? _)%Z; [done|]. injection Hr as _ <-.
  pose proof (lookup_lt_Some _ _ _ Hc) as Hlt. pose proof HI as [I1 I2 I3 I4 I5 I6 I7 I8 I9 I10].
  split; simpl; rewrite ?length_insert; try done.
  - intros j d. rewrite made_in_app. intros Hd.
    apply list_lookup_insert_Some in Hd as [(<- & <- & _)|[Hne Hd]]; simpl.
    + destruct (I1 i c Hc) as (-> & ->). by rewrite decide_True.
    + destruct (I1 j d Hd) as (-> & ->). rewrite decide_False by done. by rewrite app_nil_r.
  - intros kt' q [[<- <-]|[_ Hq]]%lookup_insert_Some; rewrite fmap_app, elem_of_app.
    + split; [right; by left|]. apply I3 in Hp. by eapply list_elem_of_lookup_2.
    + apply I4 in Hq. naive_solver.
  - intros kt' j [Hin|[= -> ->]%list_elem_of_singleton]%elem_of_app; [by eapply I5|done].
  - rewrite I7, map_size_insert_None by done. replace (1 + Z.of_nat (size (ktOf s)))%Z with (Z.of_nat (S (size (ktOf s)))) by lia.
    rewrite wrap_succ. f_equal. lia.
  - intros Ha j d q Hd Hq. rewrite live_in_insert by done. specialize (I8 Ha).
    apply list_lookup_insert_Some in Hd as [(<- & <- & _)|[Hne Hd]]; simpl.
    + apply I3 in Hp. rewrite Hp in Hq. injection Hq as <-. rewrite decide_True by done.
      by rewrite (I8 i c p Hc Hp), wrap_succ.
    + rewrite decide_False; [by eapply I8|]. intros <-. apply Ha in Hq. simpl in Hq. congruence.
  - intros Hd. destruct (I9 Hd) as (Ha & Hb & Hnd). rewrite fmap_app. split_and!; [done| |].
    + intros x [Hx%Hb| ->%list_elem_of_singleton]%elem_of_app; [|by rewrite lookup_insert_eq].
      apply lookup_insert_is_Some'. by right.
    + rewrite app_assoc. apply NoDup_app. split_and!; [done| |apply NoDup_singleton].
      intros x Hx ->%list_elem_of_singleton. simpl in Hx. apply elem_of_app in Hx as [Hx|[? Hx]%Hb]; [|congruence].
      apply list_elem_of_lookup in Hx as [j Hj%Ha]. congruence.
  - intros Hd. rewrite fmap_app. destruct (I10 Hd) as [Hcl|[(x & Hx & Hxn)|Hdup]]; [by left| |].
    + destruct (decide (x = kt)) as [->|Hne].
      * right; right. intros (_ & Hdis & _)%NoDup_app. apply (Hdis kt Hx). by left.
      * right; left. exists x. rewrite elem_of_app, lookup_insert_ne by done. auto.
    + right; right. by intros (? & _)%NoDup_app.
Qed.

Lemma destroy_kt_inv s kt r s' : rinv s → kThread_destroy kt s = Ok (r, s') → rinv s'.
Proof.
  intros HI Hr. apply bind_Ok in Hr as (p & s1 & Hk & Hr). unfold get_kt in Hk.
  destruct (ktOf s !! kt) as [p'|] eqn:Hkt; [|done]. injection Hk as -> <-.
  apply bind_Ok in Hr as ([i c] & s1 & (-> & Hp & Hc)%get_cluster_Ok & Hr). simpl in *.
  unfold lift, kThread_dtor, on_cluster, del_kt, mbind, M_bind, mret, M_ret in Hr. cbn in Hr. rewrite Hc in Hr.
  injection Hr as _ <-. pose proof HI as [I1 I2 I3 I4 I5 I6 I7 I8 I9 I10].
  split; simpl; rewrite ?length_insert; try done.
  - intros j d Hd. apply list_lookup_insert_Some in Hd as [(<- & <- & _)|[Hne Hd]]; simpl; by apply I1.
  - intros kt' q [_ Hq]%lookup_delete_Some. by apply I4.
  - rewrite I7, map_size_delete, Hkt. assert (size (ktOf s) ≠ 0) by (apply (map_size_ne_0_lookup_2 _ kt); eauto).
    replace (1 + Z.of_nat (size (ktOf s)))%Z with (Z.of_nat (S (size (ktOf s)))) by lia.
    rewrite wrap_pred. f_equal. lia.
  - intros Ha j d q Hd Hq. specialize (I8 Ha). pose proof (live_in_delete _ kt p q Hkt) as Hsz.
    apply list_lookup_insert_Some in Hd as [(<- & <- & _)|[Hne Hd]]; simpl.
    + apply I3 in Hp. rewrite Hp in Hq. injection Hq as <-. rewrite decide_True in Hsz by done.
      by rewrite (I8 i c p Hc Hp), Hsz, wrap_pred.
    + rewrite decide_False in Hsz; [rewrite (I8 j d q Hd Hq), Hsz; done|].
      intros <-. apply Ha in Hq. simpl in Hq. congruence.
  - intros _. right; left. exists kt. rewrite lookup_delete_eq. split; [by apply (I4 kt p)|done].
Qed.

Lemma destroy_cluster_inv s p r s' : rinv s → cluster_destroy p s = Ok (r, s') → rinv s'.
Proof.
  intros HI Hr. apply bind_Ok in Hr as ([i c] & s1 & (-> & Hp & Hc)%get_cluster_Ok & Hr).
  unfold del_cluster, mbind, M_bind, mret, M_ret in Hr. injection Hr as _ <-. simpl in *.
  pose proof HI as [I1 I2 I3 I4 I5 I6 I7 I8 I9 I10]. pose proof (I3 p i Hp) as Hi. split; simpl; try done.
  - intros q j [_ Hq]%lookup_delete_Some. auto.
  - intros Ha. specialize (Ha i p Hi). simpl in Ha. by rewrite lookup_delete_eq in Ha.
  - intros _. left. exists i, p. by rewrite lookup_delete_eq.
Qed.

Lemma rstep_inv c s s' : rinv s → rstep c s = Some s' → rinv s'.
Proof.
  intros HI Hs. unfold rstep in Hs. destruct (rnew c s) eqn:Hn; [|done].
  destruct (rexec c s) as [[r s1]|] eqn:Hr; [|done]. injection Hs as <-.
  destruct c; simpl in Hr, Hn.
  - by eapply create_cluster_inv.
  - by eapply destroy_cluster_inv.
  - by injection Hr as _ <-.
  - apply bind_Ok in Hr as (c & s2 & (-> & _)%get_cluster_Ok & Hr). by injection Hr as _ <-.
  - apply bind_Ok in Hr as (c & s2 & (-> & _)%get_cluster_Ok & Hr). by injection Hr as _ <-.
  - by eapply create_kt_inv.
  - by eapply destroy_kt_inv.
  - by injection Hr as _ <-.
Qed.

Lemma rinv_reachable p0 kt0 s : p0 ≠ kt0 → reachable rstep (crt_init p0 kt0) s → rinv s.
Proof. intros Hne. apply (invariant_reachable rstep rinv); [by apply rinv_init|]. intros c s1 s2. apply rstep_inv. Qed.

(** ** The walk *)

(** It ends at the first object that is gone. *)
Lemma walk_kts_cases l s :
  (walk_kts l s = Ok (tt, s) ∧ ∀ kt, kt ∈ l → is_Some (ktOf s !! kt)) ∨
  (∃ a, walk_kts l s = Fault (BadAccess a)) ∧ ∃ kt, kt ∈ l ∧ ktOf s !! kt = None.
Proof.
  induction l as [|kt l IH]; [left; split; [done|]; by intros ? ?%not_elem_of_nil|].
  cbn. unfold mbind, M_bind, get_kt. destruct (ktOf s !! kt) as [i|] eqn:E.
  - destruct IH as [[-> Hl]|[Hf (kt' & Hin & Hn)]]; [left|right].
    + split; [done|]. intros kt' [->|Hin]%elem_of_cons; [by rewrite E|by apply Hl].
    + split; [done|]. exists kt'. split; [by right|done].
  - right. split; [eauto|]. exists kt. split; [by left|done].
Qed.

(** What it visits: the cluster that is now at each address, and its kThreads. *)
Definition visits (s : crt) (p : addr) : list addr :=
  match clOf s !! p with Some i => p :: made_in (created s) i | None => [] end.
Definition broken (s : crt) (p : addr) : Prop :=
  match clOf s !! p with
  | Some i => ∃ kt, kt ∈ made_in (created s) i ∧ ktOf s !! kt = None
  | None => True
  end.

Lemma walk_cons p l s :
  walk_clusters (p :: l) s =
    match clOf s !! p with
    | None => Fault (BadAccess p)
    | Some i =>
        match clusterList (reg s) !! i with
        | None => Fault (BadAccess p)
        | Some c =>
            match walk_kts (ktVector c) s with
            | Fault e => Fault e
            | Ok (_, s1) =>
                match walk_clusters l s1 with Fault e => Fault e | Ok (r, s2) => Ok (p :: ktVector c ++ r, s2) end
            end
        end
    end.
Proof.
  simpl. unfold mbind, M_bind, get_cluster. destruct (clOf s !! p) as [i|]; [|done].
  destruct (clusterList (reg s) !! i) as [c|]; [|done]. simpl. destruct (walk_kts (ktVector c) s) as [[[] s1]|]; [|done].
  by destruct (walk_clusters l s1) as [[r s2]|].
Qed.

Lemma walk_clusters_cases l s :
  rinv s →
  (walk_clusters l s = Ok (concat (map (visits s) l), s) ∧ ∀ p, p ∈ l → ¬ broken s p) ∨
  (∃ a, walk_clusters l s = Fault (BadAccess a)) ∧ ∃ p, p ∈ l ∧ broken s p.
Proof.
  intros HI. induction l as [|p l IH]; [left; split; [done|]; by intros ? ?%not_elem_of_nil|].
  assert (Hp : broken s p ∨ ¬ broken s p ∧ ∃ i c, clOf s !! p = Some i ∧ clusterList (reg s) !! i = Some c ∧
    ktVector c = made_in (created s) i ∧ walk_kts (ktVector c) s = Ok (tt, s)).
  { unfold broken. destruct (clOf s !! p) as [i|] eqn:Ec; [|by left].
    pose proof (r_place _ HI p i Ec) as Hi%lookup_lt_Some. rewrite (r_length _ HI) in Hi.
    destruct (lookup_lt_is_Some_2 _ _ Hi) as [c Hc]. destruct (r_vector _ HI i c Hc) as [Hv _]. rewrite <- Hv.
    destruct (walk_kts_cases (ktVector c) s) as [[Hw Hl]|[_ Hb]]; [right|by left].
    split; [|by exists i, c]. intros (kt & Hin & Hn). destruct (Hl kt Hin). congruence. }
  rewrite walk_cons. destruct Hp as [Hb|(Hb & i & c & Ec & Hc & Hv & Hw)].
  - right. split; [|exists p; split; [by left|done]]. unfold broken in Hb.
    destruct (clOf s !! p) as [i|] eqn:Ec; [|eauto]. destruct (clusterList (reg s) !! i) as [c|] eqn:Hc; [|eauto].
    destruct (r_vector _ HI i c Hc) as [Hv _].
    destruct (walk_kts_cases (ktVector c) s) as [[_ Hl]|[[a ->] _]]; [|eauto].
    destruct Hb as (kt & Hin & Hn). rewrite <- Hv in Hin. destruct (Hl kt Hin). congruence.
  - rewrite Ec, Hc, Hw. destruct IH as [[-> Hl]|[[a ->] (q & Hq & Hbq)]]; [left|right].
    + split; [|intros q [->|Hq]%elem_of_cons; [done|by apply Hl]]. cbn. unfold visits at 2. by rewrite Ec, Hv.
    + split; [eauto|]. exists q. split; [by right|done].
Qed.

(** What the clusters have is what was created. *)
Lemma concat_one {A} (x : A) i (f : nat → list A) l :
  NoDup l → concat (map (λ j, (if decide (i = j) then [x] else []) ++ f j) l)
            ≡ₚ (if decide (i ∈ l) then [x] else []) ++ concat (map f l).
Proof.
  induction l as [|j l IH]; [done|]. intros [Hj Hl]%NoDup_cons. cbn. rewrite IH by done.
  destruct (decide (i = j)) as [->|Hne].
  - rewrite (decide_False (P := j ∈ l)), decide_True by (done || by left). done.
  - rewrite (decide_ext (i ∈ j :: l) (i ∈ l)) by (rewrite elem_of_cons; naive_solver). solve_Permutation.
Qed.
Lemma made_in_all l n :
  (∀ kt i, (kt, i) ∈ l → i < n) → concat (map (made_in l) (seq 0 n)) ≡ₚ l.*1.
Proof.
  induction l as [|[kt i] l IH]; intros Hl.
  - clear Hl. generalize (seq 0 n). intros k. induction k as [|j k IHk]; [done|]. cbn. by rewrite IHk.
  - transitivity (concat (map (λ j, (if decide (i = j) then [kt] else []) ++ made_in l j) (seq 0 n))).
    + apply Permutation_refl', f_equal. apply map_ext. intros j. unfold made_in. rewrite filter_cons. simpl.
      by case_decide.
    + rewrite concat_one by apply NoDup_seq. rewrite decide_True.
      * cbn. rewrite IH; [done|]. intros kt' j Hj. apply (Hl kt' j). by right.
      * apply elem_of_seq. specialize (Hl kt i). lia || (split; [lia|]; apply Hl; by left).
Qed.

(** While every cluster is alive the walk visits each, and all that was created. *)
Lemma visits_all s :
  rinv s → clusters_alive s → concat (map (visits s) (place s)) ≡ₚ place s ++ (created s).*1.
Proof.
  intros HI Ha. rewrite <- (made_in_all (created s) (length (place s))) by (rewrite (r_length _ HI); apply (r_range _ HI)).
  assert (Hg : ∀ l k, (∀ j p, l !! j = Some p → clOf s !! p = Some (k + j)) →
    concat (map (visits s) l) ≡ₚ l ++ concat (map (made_in (created s)) (seq k (length l)))).
  { induction l as [|p l IH]; intros k Hl; [done|]. cbn. unfold visits at 1. rewrite (Hl 0 p eq_refl), Nat.add_0_r.
    rewrite (IH (S k)); [solve_Permutation|]. intros j q Hj. rewrite (Hl (S j) q Hj). f_equal. lia. }
  apply Hg. intros j p Hj. by apply Ha.
Qed.

(** A walk that visits nothing twice goes to different addresses. *)
Lemma visits_nodup l s :
  (∀ p, p ∈ l → ¬ broken s p) → NoDup (concat (map (visits s) l)) → NoDup l.
Proof.
  induction l as [|p l IH]; intros Hl Hn; [constructor|]. cbn in Hn. unfold visits at 1 in Hn.
  pose proof (Hl p ltac:(by left)) as Hp. unfold broken in Hp. destruct (clOf s !! p) as [i|] eqn:Ep; [|done].
  apply NoDup_app in Hn as (_ & Hdis & Hn). apply NoDup_cons.
  split; [|apply IH; [|done]; intros q Hq; apply Hl; by right].
  intros Hin. apply (Hdis p); [by left|]. apply list_elem_of_In, in_concat. exists (visits s p).
  split; [by apply in_map, list_elem_of_In|]. unfold visits. rewrite Ep. by left.
Qed.

(** ** Theorems *)

(** C32. Nothing may ever be destroyed: a bulk push after C calls that create and
    destroy clusters and kThreads visits every cluster and every kThread that was
    created, once, if nothing was destroyed.  After any cluster_destroy or
    kThread_destroy it accesses an object that is gone or, if [new] has handed out
    the addresses again, visits an object twice; and it does access one that is
    gone as long as the address of a destroyed cluster, or of a destroyed kThread
    of a cluster that exists, has not been handed out again. *)
Theorem capi_bulk_walk p0 kt0 s :
  p0 ≠ kt0 → reachable rstep (crt_init p0 kt0) s →
  (if decide (destroys s = 0)
   then ∃ l, bulk_walk s = Ok (l, s) ∧ NoDup l ∧ l ≡ₚ place s ++ (created s).*1
   else match bulk_walk s with Ok (l, _) => ¬ NoDup l | Fault e => ∃ a, e = BadAccess a end) ∧
  ((∃ p, p ∈ place s ∧ clOf s !! p = None) ∨
   (∃ p i kt, clOf s !! p = Some i ∧ (kt, i) ∈ created s ∧ ktOf s !! kt = None) →
   ∃ a, bulk_walk s = Fault (BadAccess a)).
Proof.
  intros Hne Hr. pose proof (rinv_reachable _ _ _ Hne Hr) as HI. unfold bulk_walk.
  pose proof (walk_clusters_cases (place s) s HI) as Hw. split.
  - case_decide as Hd.
    + destruct (r_none _ HI Hd) as (Ha & Hk & Hnd). destruct Hw as [[-> _]|[_ (p & Hp & Hb)]].
      * eexists. split; [done|]. pose proof (visits_all s HI Ha) as Hv. split; [by rewrite Hv|done].
      * exfalso. apply list_elem_of_lookup in Hp as [i Hi%Ha]. unfold broken in Hb. rewrite Hi in Hb.
        destruct Hb as (kt & Hin%made_in_elem & Hn). destruct (Hk kt); [|congruence].
        apply list_elem_of_fmap. by exists (kt, i).
    + destruct Hw as [[-> Hb]|[[a ->] _]]; [|eauto].
      assert (Hplace : NoDup (place s) → clusters_alive s).
      { intros Hnd i p Hi. specialize (Hb p ltac:(by eapply list_elem_of_lookup_2)). unfold broken in Hb.
        destruct (clOf s !! p) as [j|] eqn:Ej; [|done]. f_equal. eapply NoDup_lookup; [done| |done].
        by apply (r_place _ HI). }
      intros Hnd. pose proof (Hplace (visits_nodup _ _ Hb Hnd)) as Ha.
      rewrite (visits_all s HI Ha) in Hnd. apply NoDup_app in Hnd as (_ & _ & Hnd).
      destruct (r_some _ HI Hd) as [(i & p & Hi & Hn)|[(kt & Hin & Hn)|?]]; [by apply Hn, Ha| |done].
      apply list_elem_of_fmap in Hin as ([kt' i] & -> & Hin). pose proof (r_range _ HI _ _ Hin) as Hlt.
      rewrite <- (r_length _ HI) in Hlt. destruct (lookup_lt_is_Some_2 _ _ Hlt) as [p Hp].
      apply (Hb p); [by eapply list_elem_of_lookup_2|]. unfold broken. rewrite (Ha i p Hp).
      exists kt'. split; [by apply made_in_elem|done].
  - intros Hs. destruct Hw as [[_ Hb]|[? _]]; [exfalso|done]. destruct Hs as [(p & Hp & Hn)|(p & i & kt & Hp & Hin & Hn)].
    + apply (Hb p Hp). unfold broken. by rewrite Hn.
    + apply (Hb p). { apply (r_place _ HI) in Hp. by eapply list_elem_of_lookup_2. }
      unfold broken. rewrite Hp. exists kt. split; [by apply made_in_elem|done].
Qed.

(** The counts the C program reads are right as long as they fit and no cluster
    was destroyed: a cluster has as many kThreads as exist in it, the total is all
    of them and the poller's, and a cluster's id is its position modulo 2^16. *)
Theorem capi_counts p0 kt0 s p r s' :
  p0 ≠ kt0 → reachable rstep (crt_init p0 kt0) s → clusters_alive s →
  (cluster_get_number_of_kThreads p s = Ok (r, s') → r = wrap 32 (Z.of_nat (size (live_in (ktOf s) p)))) ∧
  (cluster_get_id p s = Ok (r, s') → ∃ i, place s !! i = Some p ∧ r = wrap 16 (Z.of_nat i)) ∧
  kThread_get_total_number_of_kThreads s = Ok (wrap 32 (1 + Z.of_nat (size (ktOf s))), s).
Proof.
  intros Hne Hr Ha. pose proof (rinv_reachable _ _ _ Hne Hr) as HI. split_and!.
  - intros ([i c] & s1 & (-> & Hp & Hc)%get_cluster_Ok & H)%bind_Ok. injection H as <- _. simpl in *.
    apply (r_counts _ HI Ha i); [done|]. by apply (r_place _ HI).
  - intros ([i c] & s1 & (-> & Hp & Hc)%get_cluster_Ok & H)%bind_Ok. injection H as <- _. simpl in *.
    exists i. split; [by apply (r_place _ HI)|]. by destruct (r_vector _ HI i c Hc).
  - unfold kThread_get_total_number_of_kThreads, getTotalNumberOfkThreads. by rewrite (r_total _ HI).
Qed.

(** A cluster and two kThreads more; then one of them is destroyed, and another
    one takes its address. *)
Definition crt_run : list rcall := [Cluster_create 64; KThread_create 32 64; KThread_create 48 8].
Definition crt_state (tr : list rcall) : crt := default (crt_init 8 16) (run rstep tr (crt_init 8 16)).

Lemma capi_bulk_walk_witness :
  (∃ l, bulk_walk (crt_state crt_run) = Ok (l, crt_state crt_run) ∧ NoDup l ∧ l ≡ₚ [8; 64; 16; 32; 48]%Z) ∧
  (∃ a, bulk_walk (crt_state (crt_run ++ [KThread_destroy 32])) = Fault (BadAccess a)) ∧
  match bulk_walk (crt_state (crt_run ++ [KThread_destroy 32; KThread_create 32 8])) with
  | Ok (l, _) => ¬ NoDup l | Fault e => ∃ a, e = BadAccess a end.
Proof.
  split; [|split].
  - apply (capi_bulk_walk 8 16 (crt_state crt_run)); [done|]. apply reachable_default. vm_compute. reflexivity.
  - apply (capi_bulk_walk 8 16 (crt_state (crt_run ++ [KThread_destroy 32]))); [done| |].
    + apply reachable_default. vm_compute. reflexivity.
    + right. exists 64%Z, 1, 32%Z. split_and!; [vm_compute; reflexivity| |vm_compute; reflexivity].
      apply (bool_decide_unpack _). vm_compute. exact I.
  - apply (capi_bulk_walk 8 16 (crt_state (crt_run ++ [KThread_destroy 32; KThread_create 32 8]))); [done|].
    apply reachable_default. vm_compute. reflexivity.
Defined.

Lemma capi_counts_witness :
  ∃ s', cluster_get_number_of_kThreads 8 (crt_state crt_run) = Ok (2%Z, s').
Proof.
  destruct (cluster_get_number_of_kThreads 8 (crt_state crt_run)) as [[r s']|] eqn:E; [|vm_compute in E; discriminate E].
  exists s'. f_equal. f_equal. rewrite (proj1 (capi_counts 8 16 (crt_state crt_run) 8 r s' ltac:(done)
    ltac:(apply reachable_default; vm_compute; reflexivity)
    ltac:(intros [|[|i]] p; vm_compute; intros Hi; [injection Hi as <-; reflexivity..|discriminate Hi])) E).
  vm_compute. reflexivity.
Defined.

(** ** uThreads *)

Module Threads.
Import UThread KThread.

(** [uThread_create] makes a uThread with the default stack. *)
Definition defaultStackSize : Z := (8 * 1024)%Z.
Definition uThread_create `{Build} (sizeof_uThread : Z) (joinable owns_lock : bool) (malloc : option addr)
    : M world addr := create sizeof_uThread defaultStackSize joinable owns_lock malloc.
(** [uint64_t getID() const], [static uint64_t getTotalNumberofUTs()] *)
Definition uThread_getID (u : uThread) : Z := uThreadID u.
Definition getTotalNumberofUTs (w : world) : Z := totalNumberofUTs w.
Definition uThread_get_id (ut : addr) : M world Z := u ← get_ut ut; mret (uThread_getID u).
Definition uThread_get_total_number_of_uThreads : M world Z := λ w, Ok (getTotalNumberofUTs w, w).

(** The others run on kThread [k]. *)
Definition uThread_start (ut : addr) (cluster : nat) (s : life) : option life := start ut cluster s.
Definition uThread_migrate (members : nat → list nat) (localCluster : nat → nat) (k cluster kt : nat)
    (s : life) : option life := migrate members localCluster k cluster kt s.
(** [uThread::terminate] is static: the handle plays no part. *)
Definition uThread_terminate (k : nat) (ut : addr) (s : life) : option life := terminate k s.
Definition uThread_yield (k : nat) (s : life) : option life := yield k s.
(** [static uThread* currentUThread()], [Cluster& getCurrentCluster() const] *)
Definition currentUThread (k : nat) (s : life) : addr := currentUT (kts s k).
Definition getCurrentCluster (u : tcb) : nat := cl u.
Definition uThread_get_current (k : nat) (s : life) : addr := currentUThread k s.
Definition cluster_get_current (k : nat) (s : life) : nat := getCurrentCluster (KThread.uts s (currentUThread k s)).

(** The calls that schedule, made by the uThread that runs on [k]; [kt] is what
    [assignkThread] returns. *)
Inductive tcall : Type :=
  | UThread_start (ut : addr) (cluster : nat)
  | UThread_migrate (cluster kt : nat)
  | UThread_terminate (ut : addr)
  | UThread_yield.
Definition texec (members : nat → list nat) (localCluster : nat → nat) (k : nat) (c : tcall) : life → option life :=
  match c with
  | UThread_start ut cluster => uThread_start ut cluster
  | UThread_migrate cluster kt => uThread_migrate members localCluster k cluster kt
  | UThread_terminate ut => uThread_terminate k ut
  | UThread_yield => uThread_yield k
  end.

(** Every call is a step of the life cycle, so that its theorems hold of C
    programs. *)
Theorem capi_life members localCluster init k c s s' :
  reachable (lstep members localCluster) init s → texec members localCluster k c s = Some s' →
  reachable (lstep members localCluster) init s'.
Proof.
  intros Hr Hs. destruct c as [ut cluster|cluster kt|ut|]; simpl in Hs.
  - by apply (reachable_step _ _ s (LStart ut cluster) s' Hr).
  - by apply (reachable_step _ _ s (LMigrate k cluster kt) s' Hr).
  - by apply (reachable_step _ _ s (LTerminate k) s' Hr).
  - by apply (reachable_step _ _ s (LYield k) s' Hr).
Qed.

(** [A] or [B] joins or detaches [T]. *)
Definition uThread_join (x : who) (s : join_state) : option join_state := join_step (λ _, DoJoin) x s.
Definition uThread_detach (x : who) (s : join_state) : option join_state := join_step (λ _, DoDetach) x s.

(** uThread_terminate(ut) ends the uThread that calls it and not [ut]: the caller
    is TERMINATED and leaves its kThread, and every other uThread is as it was,
    in its state and in the queue it is on. *)
Theorem capi_terminate_self k ut s s' :
  uThread_terminate k ut s = Some s' →
  st (KThread.uts s' (uThread_get_current k s)) = TERMINATED ∧ kph (kts s' k) = KPick ∧
  rq s' = rq s ∧ live s' = live s ∧
  (ut ≠ uThread_get_current k s → KThread.uts s' ut = KThread.uts s ut).
Proof.
  unfold uThread_terminate, terminate, leave, uThread_get_current, currentUThread.
  destruct (kph (kts s k)); intros H; simplify_eq. simpl. rewrite !fn_lookup_insert.
  split_and!; try done. intros Hne. by rewrite fn_lookup_insert_ne.
Qed.
End Threads.

(** ** Mutexes, condition variables, semaphores, pools *)

Module Sync.
Import Mutex USemaphore ConditionVariable ThreadPool.

(** A call starts the operation of the uThread [t]. *)
Definition mutex_create : mutex := mutex_init.
Definition mutex_acquire (t : nat) : mutex → option mutex := mstep false (MAcquire t).
Definition mutex_release (t : nat) : mutex → option mutex := mstep false (MRelease t).
Definition ownerlock_create : mutex := mutex_init.
Definition ownerlock_acquire (t : nat) : mutex → option mutex := mstep true (MAcquire t).
Definition ownerlock_release (t : nat) : mutex → option mutex := mstep true (MRelease t).

Definition condition_variable_create : cvar := cvar_init.
Definition condition_variable_wait (t : nat) : cvar → option cvar := vstep (VWait t).
Definition condition_variable_signal (t : nat) : cvar → option cvar := vstep (VSignal t).
Definition condition_variable_signall_all (t : nat) : cvar → option cvar := vstep (VSignalAll t).
(** No return statement. *)
Definition condition_variable_empty : M cvar cres := falls_off (λ s, Ok (bool_decide (cbq s = []), s)).

(** [new Semaphore()]: the initial value is the default, 0. *)
Definition semaphore_create : usem := usem_init 0.
Definition semaphore_p (t : nat) : usem → option usem := ustep (UP t).
Definition semaphore_v (t : nat) : usem → option usem := ustep (UV t).

Definition uthreadpool_create : pool := pool_init.
Definition uthreadpool_execute (start_routine : task) : pool → option pool := pstep (PExecute start_routine).

(** A semaphore of the C interface is taken at most as often as it was given:
    it cannot be created with units in it. *)
Theorem capi_semaphore_empty s :
  reachable ustep semaphore_create s → (Z.of_nat (vcount s) < 2 ^ 64)%Z → length (rlog s) ≤ vcount s.
Proof.
  intros Hr Hv. assert (H0 : (0 ≤ 0 < 2 ^ 64)%Z) by lia.
  pose proof (uinv_reachable _ _ H0 Hr) as I. pose proof (u_cnt _ _ I ltac:(lia)) as Hcnt.
  pose proof (u_range _ _ I). destruct (u_units _ _ I) as (pend & Hg & _).
  apply Permutation_length in Hg. rewrite length_app in Hg. lia.
Qed.
End Sync.
