(* ===== verification/Boot.v ===== *)
(** * Start-up: the static objects and the poller thread

    The static members of [src/runtime/uThread.cpp] are constructed before
    main(), in the order of their definitions: the list of clusters, the
    default cluster, initUT, defaultKT and iohandler.  The members of
    IOHandler are constructed in the order of their declarations
    ([src/io/IOHandler.h]), and [ioKT], whose constructor starts the poller
    thread, comes before the poller that this thread uses.  Main thread and
    poller thread are interleaved from there on. *)

From S2P Require Import Prelude UThread KThread.

(** The addresses of the static objects, and what malloc returns. *)
Record layout := mkLayout {
  a_cluster : addr; a_kt : addr;           (* defaultCluster, defaultKT *)
  a_main : addr; a_init : addr;            (* mainUT of defaultKT, initUT *)
  a_fd : Z; a_events : addr                (* epoll_create1, calloc *)
}.

Record ut := mkUt { u_state : State; u_home : addr; u_cluster : addr; u_ctx : bool }.

(** Where the main thread is. *)
Inductive bpc : Type :=
  | BCluster                 (* Cluster::defaultCluster *)
  | BKt                      (* kThread::defaultKT *)
  | BSem                     (* iohandler: unblockCounter, isPolling, sem *)
  | BIoKT                    (* iohandler.ioKT: the thread is started *)
  | BIoSync                  (* iohandler.ioKT: initialSynchronization *)
  | BPollCache               (* iohandler.pollCache *)
  | BPollerInit              (* iohandler.poller: epoll_fd = -1 *)
  | BEpoll                   (* iohandler.poller: epoll_create1 *)
  | BEvents                  (* iohandler.poller: calloc *)
  | BMain                    (* main() *)
  | BExit.                   (* exit(EXIT_FAILURE) *)

Record boot := mkBoot {
  bp : bpc;
  clusterList : list addr;
  ktVector : list addr;
  numberOfkThreads : Z; totalNumberofKTs : Z; totalNumberofUTs : Z;
  currentKT : addr; kt_current : addr; kt_main : addr; initUT : addr;
  but : gmap addr ut;
  sem_ok : bool; started : bool;           (* sem_init done; the poller thread runs *)
  epoll_fd : Z; events : addr;
  waits : list (Z * addr)                  (* the calls of epoll_wait *)
}.

(** Static storage is zero before its constructors run. *)
Definition boot_init : boot :=
  mkBoot BCluster [] [] 0 0 0 nullptr nullptr nullptr nullptr ∅ false false 0 nullptr [].

Section boot.
Context (L : layout).

(** [Cluster::Cluster()] for the default cluster: it enters the list (its
    identifier is part of [Cluster]). *)
Definition cluster_ctor (s : boot) : boot :=
  mkBoot BKt (clusterList s ++ [a_cluster L]) (ktVector s) 0 (totalNumberofKTs s) (totalNumberofUTs s)
         (currentKT s) (kt_current s) (kt_main s) nullptr (but s) false false (epoll_fd s) (events s) (waits s).

(** [kThread::kThread()]: [initialize], [initializeMainUT(true)], the creation
    of initUT, [addNewkThread] and [initialSynchronization]. *)
Definition kThread_ctor_default (s : boot) : boot :=
  let n := wrap 64 (totalNumberofUTs s + 1) in            (* create(defaultStackSize) *)
  let n := wrap 64 (n - 1) in                             (* not counted *)
  let us := <[a_main L := mkUt READY nullptr nullptr true]> (but s) in
  let n := wrap 64 (n + 1) in                             (* createMainUT *)
  let us := <[a_init L := mkUt INITIALIZED (a_kt L) (a_cluster L) false]> us in
  mkBoot BSem (clusterList s) (ktVector s ++ [a_kt L]) (wrap 32 (numberOfkThreads s + 1))
         (wrap 32 (totalNumberofKTs s + 1)) n
         (a_kt L) (a_init L) (a_main L) (a_init L) us
         (sem_ok s) (started s) (epoll_fd s) (events s) (waits s).

Definition at_pc (p : bpc) (s : boot) : boot :=
  mkBoot p (clusterList s) (ktVector s) (numberOfkThreads s) (totalNumberofKTs s) (totalNumberofUTs s)
         (currentKT s) (kt_current s) (kt_main s) (initUT s) (but s) (sem_ok s) (started s)
         (epoll_fd s) (events s) (waits s).
Definition io_members (p : bpc) (sem st : bool) (kts fd ev : Z) (s : boot) : boot :=
  mkBoot p (clusterList s) (ktVector s) (numberOfkThreads s) kts (totalNumberofUTs s)
         (currentKT s) (kt_current s) (kt_main s) (initUT s) (but s) sem st fd ev (waits s).

(** The main thread: the next constructor. *)
Definition main_step (s : boot) : option boot :=
  match bp s with
  | BCluster => Some (cluster_ctor s)
  | BKt => Some (kThread_ctor_default s)
  | BSem => Some (io_members BIoKT true false (totalNumberofKTs s) (epoll_fd s) (events s) s)
  | BIoKT => Some (io_members BIoSync (sem_ok s) true (totalNumberofKTs s) (epoll_fd s) (events s) s)
  | BIoSync => Some (io_members BPollCache (sem_ok s) (started s) (wrap 32 (totalNumberofKTs s + 1)) (epoll_fd s) (events s) s)
  | BPollCache => Some (at_pc BPollerInit s)
  | BPollerInit => Some (io_members BEpoll (sem_ok s) (started s) (totalNumberofKTs s) (-1) (events s) s)
  | BEpoll =>
      Some (io_members (if (a_fd L =? -1)%Z then BExit else BEvents) (sem_ok s) (started s) (totalNumberofKTs s)
                       (a_fd L) (events s) s)
  | BEvents => Some (io_members BMain (sem_ok s) (started s) (totalNumberofKTs s) (epoll_fd s) (a_events L) s)
  | BMain | BExit => None
  end.

(** The poller thread: one call of epoll_wait in [_Poll]; with assertions on
    it evaluates [assert(epoll_fd)] before. *)
Definition poller_step (s : boot) : option boot :=
  if started s then
    Some (mkBoot (bp s) (clusterList s) (ktVector s) (numberOfkThreads s) (totalNumberofKTs s) (totalNumberofUTs s)
                 (currentKT s) (kt_current s) (kt_main s) (initUT s) (but s) (sem_ok s) (started s)
                 (epoll_fd s) (events s) (waits s ++ [(epoll_fd s, events s)]))
  else None.

Inductive blabel : Type := LMain | LPoller.
Definition bstep (l : blabel) (s : boot) : option boot :=
  match l with LMain => main_step s | LPoller => poller_step s end.

(** ** What holds at every point *)

(** How far the constructors are. *)
Definition stage (p : bpc) : nat :=
  match p with
  | BCluster => 0 | BKt => 1 | BSem => 2 | BIoKT => 3 | BIoSync => 4 | BPollCache => 5
  | BPollerInit => 6 | BEpoll => 7 | BEvents => 8 | BMain => 9 | BExit => 0
  end.

(** The world after the construction of defaultKT. *)
Definition world_ok (s : boot) : Prop :=
  ktVector s = [a_kt L] ∧ numberOfkThreads s = 1%Z ∧ totalNumberofUTs s = 1%Z ∧
  currentKT s = a_kt L ∧ kt_current s = a_init L ∧ kt_main s = a_main L ∧ initUT s = a_init L ∧
  but s = <[a_init L := mkUt INITIALIZED (a_kt L) (a_cluster L) false]>
            {[a_main L := mkUt READY nullptr nullptr true]}.

Record binv (s : boot) : Prop := {
  b_stage : bp s ≠ BExit;
  b_start : stage (bp s) < 2 →
    ktVector s = [] ∧ but s = ∅ ∧ totalNumberofUTs s = 0%Z ∧ numberOfkThreads s = 0%Z;
  b_clusters : clusterList s = if decide (stage (bp s) < 1) then [] else [a_cluster L];
  b_world : 2 ≤ stage (bp s) → world_ok s;
  b_kts : totalNumberofKTs s = if decide (stage (bp s) < 2) then 0%Z else
                               if decide (stage (bp s) < 5) then 1%Z else 2%Z;
  b_sem : sem_ok s = bool_decide (3 ≤ stage (bp s));
  b_started : started s = bool_decide (4 ≤ stage (bp s));
  b_fd : epoll_fd s = if decide (stage (bp s) < 7) then 0%Z else
                      if decide (stage (bp s) < 8) then (-1)%Z else a_fd L;
  b_events : events s = if decide (stage (bp s) < 9) then nullptr else a_events L
}.

Lemma binv_init : binv boot_init.
Proof. constructor; done || (cbn; lia). Qed.

Lemma binv_main s s' : a_fd L ≠ (-1)%Z → binv s → main_step s = Some s' → binv s'.
Proof.
  intros Hfd [H0 H1 H2 H3 H4 H5 H6 H7 H8] H. apply Z.eqb_neq in Hfd. unfold main_step in H.
  rewrite Hfd in H. destruct (bp s) eqn:E; cbn in *; [injection H as <-..|done|done].
  all: constructor; cbn; first [done|lia|by rewrite H4|by rewrite H2|intros _; apply H3; lia|idtac].
  - intros _. destruct H1 as (? & ? & ? & ?); [lia|]. done.
  - intros _. destruct H1 as (Hk & Hu & Hn & Hm); [lia|]. unfold world_ok. cbn. by rewrite Hk, Hu, Hn, Hm.
Qed.
Lemma binv_step l s s' : a_fd L ≠ (-1)%Z → binv s → bstep l s = Some s' → binv s'.
Proof.
  intros Hfd HI H. destruct l; [by eapply binv_main|]. cbn in H. unfold poller_step in H.
  destruct (started s) eqn:Es; [|done]. injection H as <-. destruct HI as [H0 H1 H2 H3 H4 H5 H6 H7 H8].
  constructor; cbn; try done. congruence.
Qed.
Lemma binv_reachable s : a_fd L ≠ (-1)%Z → reachable bstep boot_init s → binv s.
Proof.
  intros Hfd. apply (invariant_reachable bstep binv); [apply binv_init|]. intros l s1 s2. by apply binv_step.
Qed.
End boot.

(** What main() finds: one cluster with one kThread, on which initUT runs
    with a prepared mainUT behind it, the poller thread started on an
    initialised semaphore, its kThread counted but in no cluster, and the
    poller's descriptor and buffer set.  This is the state in which the model
    of the life cycle starts with one kThread. *)
Theorem boot_complete (L : layout) (s : boot) :
  a_fd L ≠ (-1)%Z → a_main L ≠ a_init L → a_kt L ≠ nullptr →
  reachable (bstep L) boot_init s → bp s = BMain →
  clusterList s = [a_cluster L] ∧ ktVector s = [a_kt L] ∧ numberOfkThreads s = 1%Z ∧
  totalNumberofKTs s = 2%Z ∧ totalNumberofUTs s = 1%Z ∧ currentKT s = a_kt L ∧
  sem_ok s = true ∧ started s = true ∧ epoll_fd s = a_fd L ∧ events s = a_events L ∧
  let l := life_init 1 (λ _, a_main L) (a_init L) in
  kts l 0 = mkKt (kt_current s) (kt_main s) KRun false ∧ live l = [initUT s; kt_main s] ∧
  ∀ a u, but s !! a = Some u → st (uts l a) = u_state u ∧ ctx (uts l a) = u_ctx u ∧
         home (uts l a) = (if decide (u_home u = a_kt L) then Some 0 else None).
Proof.
  intros Hfd Hne Hkt Hr Hb. destruct (binv_reachable L s Hfd Hr) as [_ _ H2 H3 H4 H5 H6 H7 H8].
  rewrite Hb in *. cbn in *. destruct H3 as (W1 & W2 & W3 & W4 & W5 & W6 & W7 & W8); [lia|].
  rewrite W5, W6, W7, W8. split_and!; try done. intros a u Hu.
  apply lookup_insert_Some in Hu as [[<- <-]|[Ha [<- <-]%lookup_singleton_Some]]; cbn.
  - rewrite !decide_True by done. done.
  - rewrite decide_False by done. rewrite !decide_True by done. by rewrite decide_False.
Qed.

(** The poller thread never touches an unconstructed semaphore, and once
    main() runs it waits on the descriptor that epoll_create1 returned, with
    the buffer that calloc returned. *)
Theorem boot_poller_ready (L : layout) (s s' : boot) :
  a_fd L ≠ (-1)%Z → reachable (bstep L) boot_init s → bstep L LPoller s = Some s' →
  sem_ok s = true ∧ (bp s = BMain → last (waits s') = Some (a_fd L, a_events L)).
Proof.
  intros Hfd Hr Hs. destruct (binv_reachable L s Hfd Hr) as [_ _ _ _ _ H5 H6 H7 H8].
  cbn in Hs. unfold poller_step in Hs. destruct (started s) eqn:Es; [|done]. injection Hs as <-. cbn.
  split.
  - rewrite H5. symmetry in H6. apply bool_decide_eq_true in H6. apply bool_decide_eq_true. lia.
  - intros Hb. rewrite Hb in *. rewrite last_snoc. cbn in *. by rewrite H7, H8.
Qed.

Definition demo_layout : layout := mkLayout 100 200 300 400 5 600.
Definition boot_run : list blabel := replicate 4 LMain ++ [LPoller] ++ replicate 5 LMain.
Definition booted : boot := default boot_init (run (bstep demo_layout) boot_run boot_init).
Lemma booted_reachable : reachable (bstep demo_layout) boot_init booted.
Proof. apply reachable_default. vm_compute. reflexivity. Qed.

Lemma boot_complete_witness : bp booted = BMain ∧ ktVector booted = [a_kt demo_layout].
Proof.
  split; [vm_compute; reflexivity|].
  apply (boot_complete demo_layout booted); [done|done|done|apply booted_reachable|vm_compute; reflexivity].
Defined.
Lemma boot_poller_ready_witness :
  ∃ s', bstep demo_layout LPoller booted = Some s' ∧ last (waits s') = Some (5, 600)%Z.
Proof.
  destruct (bstep demo_layout LPoller booted) as [s'|] eqn:E; [|vm_compute in E; discriminate E].
  exists s'. split; [done|].
  apply (boot_poller_ready demo_layout booted s'); [done|apply booted_reachable|exact E|vm_compute; reflexivity].
Defined.

(** The poller thread is started before the poller is constructed: its first
    epoll_wait can see descriptor 0, on which [assert(epoll_fd)] fails, and a
    null buffer. *)
Theorem boot_poller_race :
  ∃ s, run (bstep demo_layout) (replicate 4 LMain ++ [LPoller]) boot_init = Some s ∧
       waits s = [(0%Z, nullptr)] ∧ epoll_fd s = 0%Z.
Proof. eexists. split; [vm_compute; reflexivity|]. done. Qed.
